(* ===== verification/_CoqProject ===== *)
-Q . S2P
Prelude.v
Simt.v
LruSpec.v
LruInvariant.v
WarpScan.v
LruGeneric.v
LruGenericProof.v
LruFusedV3.v
LruFusedV3Proof.v
LruFusedV3Plan.v
LruFusedV3Refine.v
LruLegacy.v
ResidentAddrs.v
ResidentAddrsProof.v
SparseCopy.v
Launch.v
EndToEnd.v
RangeTree.v
MemManager.v
RangePool.v
VaManager.v
VaManagerProof.v
StrUtil.v
MessagePacker.v
MessagePackerProof.v
StoreBackend.v
StoreServer.v
StoreWaiting.v
StoreServerProof.v
StoreScenario.v
StoreClient.v
StoreClientProof.v
GroupEngine.v
GroupRounds.v
GroupProof.v
GroupNumbers.v
GroupDynamic.v
GroupDynamicProof.v
Host.v
HybmEntry.v
OffloadEntry.v
OffloadEntryProof.v
ExchangeInfo.v
SegmentWorld.v
ConnSegment.v
SegmentFrame.v
ConnSegmentProof.v
ConnExchange.v
HostShmSegment.v
HostShmProof.v
EntityTag.v
Entity.v
EntityImport.v
DramSegment.v
EntityApi.v
EntityProof.v
ComposeTransport.v
ComposeDataOp.v
ComposeProof.v
LruTheorems.v
CopyTheorems.v
PoolTheorems.v
VaTheorems.v
StoreTheorems.v
GroupTheorems.v
DynamicTheorems.v
SegmentTheorems.v
EntityTheorems.v
ComposeTheorems.v
