(* ===== verification/Prelude.v ===== *)
(** * Verification of the offloaded KV cache and of the services it rests on

    The program keeps the K and V vectors of long sequences in host memory and a bounded
    cache of them in device memory.  A decode step runs three operators on one stream:
    [LruResidentCompact] decides which tokens of the Top-K request are resident, which
    slots are reused and which tokens are missing; [ComputeLruResidentAddrs] turns the
    misses into copy descriptors; [SparseCopy] moves the bytes.  Below the operators lie a
    host memory pool, the entries that own it, a manager behind a C interface, the
    hybrid-memory library [hybm] with its range pool, its address manager, its memory
    segments and the entities that use them, and the config store through which the
    processes of a group find each other.  Paths below are
    relative to [src/src]; [O] is [acc_offload/csrc], [H] is [hybm/csrc], [C] is
    [smem/csrc/config_store], [N] is [smem/csrc/net].

    ** Parts and files

    Shared: this file (machine integers with their wrap-around, arrays as lists, selection
    and counting of indices, rewriting of conversions that are in range) and [Simt] (the
    state-and-fault monad [M], where [None] is an access outside an array; parallel phases
    [par], which run the work items in an arbitrary order; atomics; framed weakest
    preconditions and their automation).

    LRU compact ([O/operators/acc_offload_lru_compact_simt.cpp],
    [acc_offload_lru_compact_fused_v3.cpp]).  [LruSpec] defines [compact], what one call
    computes for one row, and [LruInvariant] what that keeps true of a cache.  [LruGeneric]
    models the five phased kernels and their launcher, [LruLegacy] the fallback kernel,
    [LruFusedV3] the fused kernel of 1024 threads, [WarpScan] its warp collectives.
    [LruGenericProof] and [LruFusedV3Proof], [LruFusedV3Plan], [LruFusedV3Refine] prove
    that both implementations refine [compact].

    Descriptors and copy ([O/operators/acc_offload_lru_resident_addrs_simt.cpp],
    [..._mixed_parallel.cpp], [acc_offload_sparse_copy.h], [.cpp]): [ResidentAddrs],
    [ResidentAddrsProof], [SparseCopy].  [Launch] models
    [O/launch/acc_offload_operators_launch.cpp]; [EndToEnd] composes a decode step and
    states when the cache is coherent with host memory.

    Memory: [RangeTree] (the two ordered trees both allocators keep), [MemManager]
    ([O/allocator/acc_offload_mem_manager.h]), [RangePool]
    ([H/common/hybm_rbtree_range_pool.cpp]), [VaManager] and [VaManagerProof]
    ([H/mm/hybm_va_manager.cpp]).

    Entries: [Host] (operating system, loader and libraries as answers that may depend on
    the whole history, [O/launch/acc_offload_launch.cpp], [util/csrc/mf_file_util.h]),
    [HybmEntry] ([H/hybm_entry.cpp]), [OffloadEntry] and [OffloadEntryProof]
    ([O/acc_offload_local_dram_entry.cpp], [acc_offload_shared_dram_entry.cpp],
    [acc_offload_entry_manager.cpp], [acc_offload.cpp]); the manager is proved against the
    interface laws [EntryLaws], which both entries satisfy.

    Hybrid memory: [ExchangeInfo] (identifiers of slices and the 512-byte descriptions
    processes exchange, [H/mm/hybm_mem_slice.h], [.cpp], [hybm_ex_info_transfer.h]);
    [SegmentWorld] (the process: one address manager and a log of every call of the
    operating system, the driver, the transport and the data operator with its answer, which
    is a parameter; programs in the monad [SM] and their weakest preconditions);
    [ConnSegment] and [ConnSegmentProof] ([H/mm/hybm_conn_based_segment.cpp]),
    [SegmentFrame] (what one user of the address manager leaves to the others),
    [ConnExchange] (a slice from export to lookup), [HostShmSegment] and [HostShmProof]
    ([H/mm/hybm_host_shm_segment.cpp]).  [EntityTag] ([H/entity/hybm_entity_tag_info.cpp],
    with [util/csrc/mf_ipv4_validator.h]); [Entity], [EntityImport] and [EntityProof]
    ([H/entity/hybm_entity_default.cpp]) against the class [MemSegment], the interface of
    [H/mm/hybm_mem_segment.h]; [DramSegment] is its instance for host memory, with the choice
    [MemSegment::Create] makes; [EntityApi] has the table of entities
    ([H/entity/hybm_entity_factory.cpp]) and the C interface ([H/hybm_big_mem_entry.cpp],
    [H/hybm_data_op_entry.cpp]).  Below the entity lie [ComposeTransport]
    ([H/transport/compose/compose_transport_manager.cpp]), which puts the host and the device
    transport behind one interface, and [ComposeDataOp]
    ([H/data_operation/host/hybm_compose_data_op.cpp], [hybm_data_op_host_shm.cpp]), which
    chooses among the data operators; a call of a part is [Via part call] in the log, and
    [ComposeProof] says what the parts are asked to do.

    Config store: [StrUtil] ([util/csrc/mf_str_util.h]), [MessagePacker] and
    [MessagePackerProof] ([C/tcp_store/smem_message_packer.h], [.cpp]), [StoreBackend]
    ([C/backend/smem_config_store_backend.h] as a class with its contract
    [ReliableBackend], [smem_local_memory_backend.cpp] as its instance), [StoreServer]
    (every handler of [C/tcp_store/smem_tcp_config_store_server.cpp], the link handlers,
    one round of each thread), [StoreWaiting] (the tables of waiting requests),
    [StoreServerProof] (a weakest liberal precondition, the invariant and that every
    transition keeps it, runs), [StoreScenario] (counters, ranks).  [StoreClient] models the
    request methods of [C/tcp_store/smem_tcp_config_store.cpp] over a transport;
    [StoreClientProof] takes the server as the transport and shows that a call means a step
    [kv_step] of an abstract store.

    Group engine ([N/smem_net_group_engine.cpp]): [GroupEngine] has the barriers and
    all-gathers as programs over store calls ([prog]), [GroupRounds] a round of such
    programs run by several processes ([wstep] interleaves their calls with failures and
    with other users of the store, [lstep] leaves failures out), with an invariant for both
    operations, [GroupProof] shows that they are such rounds, [GroupNumbers] has the numbers
    the processes share by compare-and-swap.  [GroupDynamic] has groups that processes join
    and leave: [DynGroup] is the members of an engine, [gprog] the program of one of its
    threads (joining, updating, leaving, broken links, reconnecting, the two listeners, the
    exchange of keys and results); [GroupDynamicProof] runs the threads of all processes on
    one store ([gstep], which also delivers notifications, loses answers and lets others
    use the store) and proves what every step keeps ([calm], [sys_ok]).

    ** Theorems

    [LruTheorems]: [AccOffloadLruCompact] refines [compact] on every dispatched shape, for
    every schedule; the fused and the phased kernels agree; served Top-K, exact miss list,
    well-formed rows, no stale suffix, the order of the slots; over any rows the phased kernels handle, an
    epoch in its bounds that no old mark equals.
    [CopyTheorems]: the descriptor table, parallel equals serial, exactness and
    termination of the copies, and over any run of decode steps a coherent cache.
    [PoolTheorems]: each byte of the pool in one range, soundness, completeness and round trip of the pool, disjoint
    elements, no leak and no use of an unloaded library over any sequence of interface
    calls.  [VaTheorems]: disjoint ranges (reserved ones under a contract of the callers,
    which the manager does not check), exact lookup, invertible translation, first fit.
    [StoreTheorems]: the wire format is canonical and its reader stays inside the buffer;
    no wake-up is lost (requests wait only for absent keys, and any event leaves each waiting
    or answers it), waiting requests are answered once, timeouts are never early;
    counters add up; ranks are distinct; the rank list survives a change of the leader.
    [GroupTheorems]: a client call refines the abstract store; no process leaves a barrier
    early, an all-gather delivers the data of all in rank order, and both end when no call
    fails; shared numbers are unique and can be given back.
    [DynamicTheorems]: the stored group information is a chain of events, one version at a
    time, and no process goes back; the bitmap of members is exact.
    [SegmentTheorems]: over sequences of operations and any answers, a segment gives back what
    it took (ranges, open files, registrations unless the driver refuses to drop them), its
    slices stay disjoint in its window, and it maps the file its peer made; the conditions on
    the operations are in the theorems ([conn_op_ok], [shm_op_ok]), and sizes and ranks that
    break them are shown to leave the window.  [EntityTheorems]: every copy into memory
    another entity exported goes to that entity's rank; batches are grouped by ranks; what entities tell
    each other arrives; tags keep the operation types; the C interface passes on only copies
    whose checked sides are in the reserved range, up to a size that wraps.  [ComposeTheorems]: a batch reaches the
    operators with each copy exactly once; operators are tried in a fixed order, and exactly those that
    the tags allow; the parts of a transport hold the recorded regions; addresses and keys of
    a part reach the same part of a peer.
    Each file also proves the flaws the model showed, as theorems about concrete or
    arbitrary states.  A theorem with hypotheses has an instance [..._witness].

    ** Bounds and fuel

    Loops of the kernels are folds over their index ranges.  Where the source loops until
    a condition holds the fuel is a bound the proofs show to be enough: [CpGM2GM_loop] gets
    the number of chunks, the legacy insertion loop its index plus one, [find_rank] the
    world size plus one (a free rank is met before), the timer the number of deadlines,
    decimal printing 20 digits.  The retry loops of [AllocNumber] and [ReleaseNumber] end
    only when a swap succeeds: the theorems hold for every fuel, and a process alone needs
    two.  The listeners of a dynamic group, a busy broken link and an interruptible wait
    run for any number of rounds, and the chain of events is proved for all of them; the
    numbers of retries of joining (30) and leaving (100000) are those of the source, as are
    the 100 attempts [open_retry] makes; [free_slices] gets the number of slices, each turn
    removes one.  Theorems about runs of the store ask for fewer than 2^64 - 2 events, so
    that no id is drawn twice, those about a segment for fewer than 2^32 operations.  Integers are unbounded with the
    wrap-around of the source written out where it converts or computes unsigned; the
    descriptor kernels compute addresses in unbounded integers.

    ** Assumptions

    The laws of the shuffle and copy intrinsics ([asc_shfl_up], [DataCopyPad]) and of a
    storage backend are class members, each with an instance.  Calls of an
    interface and handlers of the store are taken one at a time, also where the source takes
    no lock (of the offload manager only [Initialize] does); the group engine interleaves
    threads and processes between their calls of the store.  Operators of one stream run in order; the machine is little endian.
    Of the answers of the environment the theorems on segments and entities ask what their
    names say: [driver_ok] (the device range of registered memory does not wrap), [fresh_fds]
    (an opened descriptor is not open already), [keys_ok] (a memory key has 224 bytes),
    [nic_ok] (an address is a C string), [nics_plain] (an address has no semicolon),
    [part_keys_ok] (a key of a part has 224 bytes), [registers] and [unregisters] (a part
    does not refuse).  Theorems on connection based segments are for
    segments without 56-bit addresses.  Theorems on runs of the store are for a backend that
    is not distributed and a server
    without an external broken-link handler.

    ** Not modelled

    Log output; the [Dump...] functions of the address manager; allocation failure of
    replies; [Startup] and [Shutdown] of the store server (threads, sockets, TLS).  The
    result of a legacy row is modelled but not proved.  Of hybm the segments over
    virtual memory handles and of device memory are instances of [MemSegment] that the
    entity takes as parameters; the host and device transports, the SDMA and RDMA operators,
    driver and loader tables are calls with arbitrary answers.  The entity calls its transport
    and its operator in the same way: the theorems that join them to the composed ones take
    the arguments of the logged call.  [acc_links], the etcd and external backends and [zbal] are
    layers over vendor libraries, sockets and services outside the repository; so is the
    election over etcd.  The interfaces of smem above the group engine are glue between it,
    the store and hybm.  Of the client the watches, the connection and the heartbeat are left
    out, of the group engine [Create], [RegisterExit] and the starting and joining of its
    threads. *)
From Stdlib Require Export ZArith Lia ZifyBool.
From stdpp Require Export decidable tactics numbers base sets list_numbers list.

#[global] Open Scope Z_scope.

(** * Machine integers

    A C++ [int32_t]/[int64_t]/[uint32_t]/[uint64_t] is a [Z].  Conversions that the
    source writes out ([static_cast<int32_t>] of a 64-bit value, unsigned
    arithmetic) apply the wrap-around below. *)
Definition INT32_MAX : Z := 2147483647.
Definition INT64_MAX : Z := 9223372036854775807.
Definition i32 (x : Z) : Z := (x + 2147483648) mod 4294967296 - 2147483648.
Definition i64 (x : Z) : Z :=
  (x + 9223372036854775808) mod 18446744073709551616 - 9223372036854775808.
Definition u8 (x : Z) : Z := x mod 256.
Definition u32 (x : Z) : Z := x mod 4294967296.
Definition u64 (x : Z) : Z := x mod 18446744073709551616.

Lemma i32_small x : -2147483648 <= x <= INT32_MAX -> i32 x = x.
Proof. unfold i32, INT32_MAX. intros. rewrite Z.mod_small; lia. Qed.

Lemma u32_small x : 0 <= x < 4294967296 -> u32 x = x.
Proof. apply Z.mod_small. Qed.

Lemma u64_small x : 0 <= x < 18446744073709551616 -> u64 x = x.
Proof. apply Z.mod_small. Qed.

(** Conversions of a value that is in range do nothing. *)
Create Rewrite HintDb machine_int.
#[export] Hint Rewrite i32_small u32_small u64_small using lia : machine_int.
Ltac unwrap := autorewrite with machine_int.

Lemma u64_range x : 0 <= u64 x < 18446744073709551616.
Proof. apply Z.mod_pos_bound. lia. Qed.

(** [(x + align - 1) & ~(align - 1)] on [uint64_t], as the allocators write it. *)
Definition align_up64 (x align : Z) : Z := Z.land (u64 (x + align - 1)) (u64 (Z.lnot (align - 1))).

Lemma land_mask64 x k :
  0 <= x < 18446744073709551616 -> 0 <= k ->
  Z.land x (u64 (Z.lnot (2 ^ k - 1))) = x / 2 ^ k * 2 ^ k.
Proof.
  intros Hx Hk. unfold u64. change 18446744073709551616 with (2 ^ 64).
  rewrite <- Z.land_ones, (Z.land_comm (Z.lnot _)), Z.land_assoc, Z.land_ones by lia.
  rewrite Z.mod_small by done. replace (2 ^ k - 1) with (Z.ones k) by (rewrite Z.ones_equiv; lia).
  rewrite <- Z.ldiff_land.
  rewrite Z.ldiff_ones_r, Z.shiftr_div_pow2, Z.shiftl_mul_pow2 by lia. done.
Qed.

Lemma align_up64_eq x k :
  0 <= k -> 0 <= x -> x + 2 ^ k - 1 < 18446744073709551616 ->
  align_up64 x (2 ^ k) = (x + 2 ^ k - 1) / 2 ^ k * 2 ^ k.
Proof.
  intros Hk Hx Hb. pose proof (Z.pow_pos_nonneg 2 k ltac:(lia) Hk). unfold align_up64.
  rewrite (u64_small (x + _ - 1)) by lia. apply land_mask64; lia.
Qed.

Lemma align_up64_spec x k :
  0 <= k -> 0 <= x -> x + 2 ^ k - 1 < 18446744073709551616 ->
  x <= align_up64 x (2 ^ k) < x + 2 ^ k /\ (2 ^ k | align_up64 x (2 ^ k)).
Proof.
  intros Hk Hx Hb. rewrite align_up64_eq by done. pose proof (Z.pow_pos_nonneg 2 k ltac:(lia) Hk).
  pose proof (Z.div_mod (x + 2 ^ k - 1) (2 ^ k) ltac:(lia)).
  pose proof (Z.mod_pos_bound (x + 2 ^ k - 1) (2 ^ k) ltac:(lia)).
  split; [lia|apply Z.divide_factor_r].
Qed.

(** * Arrays: total access by a [Z] index *)
Declare Scope array_scope.
Delimit Scope array_scope with array.
Notation "l .[ i ]" := (l !!! Z.to_nat i)
  (at level 1, left associativity, format "l .[ i ]") : array_scope.
#[global] Open Scope array_scope.

(** The array [f 0, ..., f (n-1)]. *)
Definition tab (n : Z) (f : Z -> Z) : list Z := f <$> seqZ 0 n.

Lemma length_tab n f : length (tab n f) = Z.to_nat n.
Proof. unfold tab. by rewrite length_fmap, length_seqZ. Qed.

Lemma lookup_tab n f i : 0 <= i < n -> tab n f !! Z.to_nat i = Some (f i).
Proof.
  intros Hi. unfold tab. rewrite list_lookup_fmap, lookup_seqZ_lt by lia.
  simpl. do 2 f_equal. lia.
Qed.

Lemma at_tab n f i : 0 <= i < n -> (tab n f).[i] = f i.
Proof. intros Hi. apply list_lookup_total_correct. by apply lookup_tab. Qed.

Lemma list_eq_at (l k : list Z) :
  length l = length k ->
  (forall i, 0 <= i < Z.of_nat (length l) -> l.[i] = k.[i]) -> l = k.
Proof.
  intros Hlen H. apply (list_eq_same_length l k (length l)); [done|done|].
  intros i x y Hi Hx Hy.
  specialize (H (Z.of_nat i) ltac:(lia)). rewrite Nat2Z.id in H.
  apply list_lookup_total_correct in Hx, Hy. congruence.
Qed.

Lemma tab_eq n f l :
  Z.of_nat (length l) = Z.max 0 n ->
  (forall i, 0 <= i < n -> f i = l.[i]) -> tab n f = l.
Proof.
  intros Hlen H. apply list_eq_at; rewrite length_tab; [lia|].
  intros i Hi. rewrite at_tab by lia. apply H. lia.
Qed.

Lemma tab_ext n f g : (forall i, 0 <= i < n -> f i = g i) -> tab n f = tab n g.
Proof.
  intros H. apply tab_eq; [rewrite length_tab; lia|].
  intros i Hi. rewrite at_tab by lia. auto.
Qed.

Lemma at_app_l (l k : list Z) i : 0 <= i < Z.of_nat (length l) -> (l ++ k).[i] = l.[i].
Proof. intros. apply lookup_total_app_l. lia. Qed.

Lemma at_app_r (l k : list Z) i :
  Z.of_nat (length l) <= i -> (l ++ k).[i] = k.[i - Z.of_nat (length l)].
Proof. intros. rewrite lookup_total_app_r by lia. f_equal. lia. Qed.

Lemma at_replicate n (v : Z) i : 0 <= i < Z.of_nat n -> (replicate n v).[i] = v.
Proof. intros. apply lookup_total_replicate_2. lia. Qed.

Lemma at_insert (l : list Z) i v j :
  0 <= i < Z.of_nat (length l) -> 0 <= j ->
  (<[Z.to_nat i := v]> l).[j] = if decide (i = j) then v else l.[j].
Proof.
  intros Hi Hj. case_decide as E.
  - subst. apply list_lookup_total_insert_eq. lia.
  - apply list_lookup_total_insert_ne. lia.
Qed.

Lemma at_take (l : list Z) n i : 0 <= i < n -> (take (Z.to_nat n) l).[i] = l.[i].
Proof.
  intros. rewrite !list_lookup_total_alt. by rewrite lookup_take_lt by lia.
Qed.

Lemma at_drop (l : list Z) n i : 0 <= n -> 0 <= i -> (drop (Z.to_nat n) l).[i] = l.[n + i].
Proof.
  intros. rewrite !list_lookup_total_alt, lookup_drop. do 2 f_equal. lia.
Qed.

Lemma elem_of_at (l : list Z) x :
  x ∈ l <-> exists i, 0 <= i < Z.of_nat (length l) /\ l.[i] = x.
Proof.
  rewrite list_elem_of_lookup. split.
  - intros [i Hi]. exists (Z.of_nat i). pose proof (lookup_lt_Some _ _ _ Hi).
    split; [lia|]. rewrite Nat2Z.id. by apply list_lookup_total_correct.
  - intros (i & Hi & <-). exists (Z.to_nat i). apply list_lookup_lookup_total_lt. lia.
Qed.

Lemma elem_of_at_2 (l : list Z) i : 0 <= i < Z.of_nat (length l) -> l.[i] ∈ l.
Proof. intros. apply elem_of_at. eauto. Qed.

Lemma NoDup_at (l : list Z) i j :
  NoDup l -> 0 <= i < Z.of_nat (length l) -> 0 <= j < Z.of_nat (length l) ->
  l.[i] = l.[j] -> i = j.
Proof.
  intros HN Hi Hj E.
  enough (Z.to_nat i = Z.to_nat j) by lia.
  eapply (NoDup_lookup l _ _ (l.[j]) HN); [rewrite <- E|];
    apply list_lookup_lookup_total_lt; lia.
Qed.

Lemma at_fmap (f : Z -> Z) (l : list Z) i :
  0 <= i < Z.of_nat (length l) -> (f <$> l).[i] = f (l.[i]).
Proof. intros. apply list_lookup_total_fmap. lia. Qed.

(** * Stable selection

    [idx P n] is the ascending list of the indices below [n] that satisfy [P]:
    what every stable compaction of the kernels computes. *)
Definition idx (P : Z -> bool) (n : Z) : list Z := filter (fun i => P i = true) (seqZ 0 n).
Definition cnt (P : Z -> bool) (n : Z) : Z := Z.of_nat (length (idx P n)).

Lemma seqZ_snoc n : 0 <= n -> seqZ 0 (n + 1) = seqZ 0 n ++ [n].
Proof. intros. rewrite seqZ_app by lia. simpl. f_equal. Qed.

Lemma idx_snoc P n : 0 <= n -> idx P (n + 1) = idx P n ++ (if P n then [n] else []).
Proof.
  intros. unfold idx. rewrite seqZ_snoc, filter_app by lia. f_equal.
  rewrite filter_cons. destruct (P n); case_decide; try done.
Qed.

Lemma idx_nonpos P n : n <= 0 -> idx P n = [].
Proof. intros. unfold idx. by rewrite seqZ_nil by lia. Qed.

Lemma cnt_0 P : cnt P 0 = 0.
Proof. unfold cnt. by rewrite idx_nonpos by lia. Qed.

Lemma cnt_snoc P n : 0 <= n -> cnt P (n + 1) = cnt P n + Z.b2z (P n).
Proof.
  intros. unfold cnt. rewrite idx_snoc, length_app by done. destruct (P n); simpl; lia.
Qed.

Lemma elem_of_idx P n i : i ∈ idx P n <-> P i = true /\ 0 <= i < n.
Proof. unfold idx. rewrite list_elem_of_filter, elem_of_seqZ. intuition lia. Qed.

Lemma NoDup_seqZ' m n : NoDup (seqZ m n).
Proof. apply NoDup_seqZ. Qed.

Lemma NoDup_idx P n : NoDup (idx P n).
Proof. apply NoDup_filter, NoDup_seqZ. Qed.

Lemma cnt_bounds P n : 0 <= n -> 0 <= cnt P n <= n.
Proof.
  intros Hn. revert n Hn. apply (natlike_ind (fun n => 0 <= cnt P n <= n)).
  - rewrite cnt_0. lia.
  - intros n Hn IH. unfold Z.succ. rewrite cnt_snoc by done. destruct (P n); simpl; lia.
Qed.

Lemma cnt_mono P m n : 0 <= m <= n -> cnt P m <= cnt P n.
Proof.
  intros [Hm Hn]. replace n with (m + (n - m)) by lia.
  assert (0 <= n - m) as Hk by lia. revert Hk. generalize (n - m) as k. clear n Hn.
  apply (natlike_ind (fun k => cnt P m <= cnt P (m + k))).
  - by rewrite Z.add_0_r.
  - intros k Hk IH. unfold Z.succ. rewrite Z.add_assoc, cnt_snoc by lia.
    destruct (P (m + k)); simpl; lia.
Qed.

(** The entry of rank [cnt P i] is [i] itself. *)
Lemma idx_prefix P m n : 0 <= m <= n -> exists r, idx P n = idx P m ++ r.
Proof.
  intros [Hm Hn]. replace n with (m + (n - m)) by lia.
  assert (0 <= n - m) as Hk by lia. revert Hk. generalize (n - m) as k. clear n Hn.
  apply (natlike_ind (fun k => exists r, idx P (m + k) = idx P m ++ r)).
  - exists []. by rewrite Z.add_0_r, app_nil_r.
  - intros k Hk [r IH]. unfold Z.succ. rewrite Z.add_assoc, idx_snoc, IH by lia.
    rewrite <- app_assoc. eauto.
Qed.

Lemma idx_at_rank P n i : 0 <= i < n -> P i = true -> (idx P n).[cnt P i] = i.
Proof.
  intros Hi HP. destruct (idx_prefix P (i + 1) n ltac:(lia)) as [r ->].
  rewrite idx_snoc, HP by lia. rewrite <- app_assoc.
  rewrite at_app_r by (unfold cnt; lia). unfold cnt. by rewrite Z.sub_diag.
Qed.

Lemma idx_rank P n k :
  0 <= k < cnt P n ->
  let i := (idx P n).[k] in 0 <= i < n /\ P i = true /\ cnt P i = k.
Proof.
  intros Hk i. unfold cnt in Hk.
  assert (Hi : i ∈ idx P n) by (apply elem_of_at_2; lia).
  apply elem_of_idx in Hi as [HP Hi]. split_and!; [lia..|done|].
  pose proof (idx_at_rank P n i Hi HP) as E.
  pose proof (cnt_mono P (i + 1) n ltac:(lia)) as Hm.
  rewrite cnt_snoc, HP in Hm by lia. simpl in Hm.
  pose proof (cnt_bounds P i ltac:(lia)).
  eapply NoDup_at; [apply (NoDup_idx P n)|unfold cnt in *; lia|lia|]. done.
Qed.

Lemma cnt_lt P n i : 0 <= i < n -> P i = true -> cnt P i < cnt P n.
Proof.
  intros Hi HP. pose proof (cnt_mono P (i + 1) n ltac:(lia)) as Hm.
  rewrite cnt_snoc, HP in Hm by lia. simpl in Hm. lia.
Qed.

Lemma cnt_inj P i j :
  0 <= i -> 0 <= j -> P i = true -> P j = true -> cnt P i = cnt P j -> i = j.
Proof.
  intros Hi Hj HPi HPj E. destruct (Z.lt_total i j) as [Hl|[?|Hl]]; [|done|].
  - pose proof (cnt_lt P j i ltac:(lia) HPi). lia.
  - pose proof (cnt_lt P i j ltac:(lia) HPj). lia.
Qed.

Lemma idx_ext P Q n : (forall i, 0 <= i < n -> P i = Q i) -> idx P n = idx Q n.
Proof.
  destruct (Z.le_gt_cases n 0) as [Hn|Hn]; [by rewrite !idx_nonpos by lia|].
  assert (0 <= n) as Hn' by lia. clear Hn. revert n Hn'.
  apply (natlike_ind (fun n => (forall i, 0 <= i < n -> P i = Q i) -> idx P n = idx Q n)).
  - by rewrite !idx_nonpos by lia.
  - intros n Hn IH H. unfold Z.succ in *. rewrite !idx_snoc by done.
    rewrite IH by (intros; apply H; lia). by rewrite H by lia.
Qed.

Lemma cnt_ext P Q n : (forall i, 0 <= i < n -> P i = Q i) -> cnt P n = cnt Q n.
Proof. intros H. unfold cnt. by rewrite (idx_ext P Q n H). Qed.

Lemma cnt_add P m n : 0 <= m -> 0 <= n -> cnt P (m + n) = cnt P m + cnt (fun i => P (m + i)) n.
Proof.
  intros Hm Hn. revert n Hn.
  apply (natlike_ind (fun n => cnt P (m + n) = cnt P m + cnt (fun i => P (m + i)) n)).
  - rewrite cnt_0, !Z.add_0_r. done.
  - intros n Hn IH. unfold Z.succ. rewrite Z.add_assoc, !cnt_snoc by lia. lia.
Qed.

Lemma cnt_none P n : (forall i, 0 <= i < n -> P i = false) -> cnt P n = 0.
Proof.
  intros H. unfold cnt. destruct (idx P n) as [|i l] eqn:E; [done|].
  assert (i ∈ idx P n) as [HP Hi]%elem_of_idx by (rewrite E; by left).
  by rewrite H in HP.
Qed.

(** Two disjoint selections of the same range have at most its size together. *)
Lemma cnt_disjoint P Q n :
  0 <= n -> (forall i, 0 <= i < n -> P i = true -> Q i = false) -> cnt P n + cnt Q n <= n.
Proof.
  intros Hn. revert n Hn.
  apply (natlike_ind (fun n => (forall i, 0 <= i < n -> P i = true -> Q i = false) ->
                               cnt P n + cnt Q n <= n)).
  - rewrite !cnt_0. lia.
  - intros n Hn IH H. unfold Z.succ in *. rewrite !cnt_snoc by done.
    specialize (IH ltac:(intros; apply H; [lia|done])).
    specialize (H n ltac:(lia)). destruct (P n); simpl; [rewrite H by done; simpl; lia|].
    destruct (Q n); simpl; lia.
Qed.

Lemma idx_split P Q n :
  (forall i, 0 <= i < n -> Q i = negb (P i)) -> idx P n ++ idx Q n ≡ₚ seqZ 0 n.
Proof.
  intros H. rewrite (idx_ext Q (fun i => negb (P i)) n H). unfold idx.
  rewrite <- (filter_app_complement (fun i => P i = true) (seqZ 0 n)) at 3.
  apply reflexive_eq. f_equal. apply list_filter_iff. intros i. destruct (P i); simpl; naive_solver.
Qed.

Lemma last_idx_Some P n o :
  last (idx P n) = Some o ->
  0 <= o < n /\ P o = true /\ (forall o', o < o' < n -> P o' = false).
Proof.
  destruct (Z.le_gt_cases n 0) as [Hn|Hn]; [by rewrite idx_nonpos by lia|].
  assert (0 <= n) as Hn' by lia. clear Hn. revert n Hn'.
  apply (natlike_ind (fun n => last (idx P n) = Some o -> 0 <= o < n /\ P o = true /\
           (forall o', o < o' < n -> P o' = false))); [by rewrite idx_nonpos by lia|].
  intros n Hn IH. unfold Z.succ. rewrite idx_snoc by done. destruct (P n) eqn:E.
  - rewrite last_snoc. intros [= <-]. split_and!; [lia..|done|lia].
  - rewrite app_nil_r. intros H. destruct (IH H) as (? & ? & H').
    split_and!; [lia..|done|]. intros o' Ho'.
    destruct (decide (o' = n)) as [->|]; [done|apply H'; lia].
Qed.

Lemma last_idx_None P n : last (idx P n) = None -> forall o, 0 <= o < n -> P o = false.
Proof.
  intros H o Ho. apply last_None in H. destruct (P o) eqn:E; [|done].
  assert (o ∈ idx P n) as Hin by (apply elem_of_idx; auto). rewrite H in Hin.
  by apply not_elem_of_nil in Hin.
Qed.

Lemma last_idx_intro P n o :
  0 <= o < n -> P o = true -> (forall o', o < o' < n -> P o' = false) -> last (idx P n) = Some o.
Proof.
  intros Ho HP Hl. destruct (last (idx P n)) as [o'|] eqn:E.
  - apply last_idx_Some in E as (H1 & H2 & H3). f_equal.
    destruct (Z.lt_total o o') as [H|[H|H]]; [|done|].
    + rewrite Hl in H2 by lia. done.
    + rewrite H3 in HP by lia. done.
  - rewrite (last_idx_None _ _ E) in HP by lia. done.
Qed.

Lemma tab_at n (l : list Z) : Z.of_nat (length l) = Z.max 0 n -> tab n (fun i => l.[i]) = l.
Proof. intros. by apply tab_eq. Qed.

(** * Scattered stores

    [scatter n tgt v a] performs [a[tgt 0] = v 0; ...; a[tgt (n-1)] = v (n-1)]. *)
Definition scatter (n : Z) (tgt v : Z -> Z) (a : list Z) : list Z :=
  foldl (fun a k => <[Z.to_nat (tgt k) := v k]> a) a (seqZ 0 n).

Lemma scatter_0 tgt v a : scatter 0 tgt v a = a.
Proof. done. Qed.

Lemma scatter_snoc n tgt v a :
  0 <= n -> scatter (n + 1) tgt v a = <[Z.to_nat (tgt n) := v n]> (scatter n tgt v a).
Proof. intros. unfold scatter. by rewrite seqZ_snoc, foldl_app by lia. Qed.

Lemma length_scatter n tgt v a : length (scatter n tgt v a) = length a.
Proof.
  unfold scatter. generalize (seqZ 0 n) as l. intros l. revert a.
  induction l as [|k l IH]; intros a; simpl; [done|]. by rewrite IH, length_insert.
Qed.

Lemma scatter_miss n tgt v a j :
  0 <= j -> (forall k, 0 <= k < n -> 0 <= tgt k /\ tgt k <> j) ->
  (scatter n tgt v a).[j] = a.[j].
Proof.
  intros Hj. destruct (Z.le_gt_cases n 0) as [Hn|Hn].
  { intros _. unfold scatter. by rewrite seqZ_nil by lia. }
  assert (0 <= n) as Hn' by lia. clear Hn. revert n Hn'.
  apply (natlike_ind (fun n => (forall k, 0 <= k < n -> 0 <= tgt k /\ tgt k <> j) ->
                               (scatter n tgt v a).[j] = a.[j])); [done|].
  intros n Hn IH H. unfold Z.succ in *. rewrite scatter_snoc by done.
  rewrite list_lookup_total_insert_ne.
  - apply IH. intros k Hk. apply H. lia.
  - specialize (H n ltac:(lia)). lia.
Qed.

Lemma scatter_hit n tgt v a k :
  0 <= k < n ->
  (forall k, 0 <= k < n -> 0 <= tgt k < Z.of_nat (length a)) ->
  (forall i j, 0 <= i < n -> 0 <= j < n -> tgt i = tgt j -> i = j) ->
  (scatter n tgt v a).[tgt k] = v k.
Proof.
  intros Hk Hr Hinj. assert (0 <= n) as Hn by lia. revert n Hn Hk Hr Hinj.
  apply (natlike_ind (fun n => 0 <= k < n ->
    (forall k, 0 <= k < n -> 0 <= tgt k < Z.of_nat (length a)) ->
    (forall i j, 0 <= i < n -> 0 <= j < n -> tgt i = tgt j -> i = j) ->
    (scatter n tgt v a).[tgt k] = v k)); [lia|].
  intros n Hn IH Hk Hr Hinj. unfold Z.succ in *. rewrite scatter_snoc by done.
  pose proof (Hr n ltac:(lia)) as Hrn. pose proof (Hr k Hk) as Hrk.
  rewrite at_insert by (rewrite ?length_scatter; lia).
  case_decide as E; [f_equal; apply Hinj; lia|].
  assert (k <> n) by (intros ->; done).
  apply IH; [lia| |]; [intros; apply Hr; lia|intros; apply Hinj; lia].
Qed.

(** A function that stores [v k] at [tgt k] and keeps [a] elsewhere is the scatter. *)
Lemma scatter_char n tgt v a f :
  0 <= n ->
  (forall k, 0 <= k < n -> 0 <= tgt k < Z.of_nat (length a)) ->
  (forall i j, 0 <= i < n -> 0 <= j < n -> tgt i = tgt j -> i = j) ->
  (forall k, 0 <= k < n -> f (tgt k) = v k) ->
  (forall j, 0 <= j < Z.of_nat (length a) ->
     (forall k, 0 <= k < n -> tgt k <> j) -> f j = a.[j]) ->
  tab (Z.of_nat (length a)) f = scatter n tgt v a.
Proof.
  intros Hn Hr Hinj Hhit Hmiss. apply tab_eq; [rewrite length_scatter; lia|].
  intros j Hj.
  destruct (decide (j ∈ tgt <$> seqZ 0 n)) as [Hin|Hin].
  - apply list_elem_of_fmap in Hin as (k & -> & Hk). apply elem_of_seqZ in Hk.
    rewrite scatter_hit by (auto; lia). apply Hhit. lia.
  - assert (Hne : forall k, 0 <= k < n -> tgt k <> j).
    { intros k Hk <-. apply Hin, list_elem_of_fmap. exists k.
      rewrite elem_of_seqZ. split; [done|lia]. }
    rewrite Hmiss by done. symmetry. apply scatter_miss; [lia|].
    intros k Hk. split; [apply Hr; lia|by apply Hne].
Qed.
