(* ===== verification/Simt.v ===== *)
(** * Execution model of the device code

    The kernels under [src/src/acc_offload/csrc/operators] are C++ programs over
    raw device arrays.  This file gives their common semantics:

    - [Memory]: a state that consists of named arrays ([int32_t *], [int64_t *]
      parameters and the regions of the on-chip workspace);
    - [M]: a state-and-fault monad.  An access outside an array faults ([None]), so
      that a theorem saying that a kernel returns also says that no access is out
      of bounds;
    - [foldM]/[for_range]: counted loops, [par]: one barrier-to-barrier phase of a
      kernel, whose work items run in an order chosen by an arbitrary [Scheduler];
    - [wp]: the weakest precondition of a computation, with a rule per construct. *)
From S2P Require Import Prelude.

(** ** Named arrays *)
Class Memory (B S : Type) := {
  buf : B -> S -> list Z;
  set_buf : B -> list Z -> S -> S;
  buf_set_eq : forall b l s, buf b (set_buf b l s) = l;
  buf_set_ne : forall b b' l s, b <> b' -> buf b' (set_buf b l s) = buf b' s;
}.

(** A memory of named arrays as a function from names to contents. *)
Definition Store (B : Type) : Type := B -> list Z.

#[global] Program Instance store_memory `{EqDecision B} : Memory B (Store B) :=
  {| buf := fun b s => s b;
     set_buf := fun b l s b' => if decide (b = b') then l else s b' |}.
Next Obligation. intros; simpl; by rewrite decide_True. Qed.
Next Obligation. intros; simpl; by rewrite decide_False. Qed.

(** ** The monad *)
Definition M (S A : Type) : Type := S -> option (A * S).

#[global] Instance M_ret {S} : MRet (M S) := fun A a s => Some (a, s).
#[global] Instance M_bind {S} : MBind (M S) := fun A B f m s =>
  match m s with Some (a, s') => f a s' | None => None end.

Section ops.
Context {B S : Type} {HM : Memory B S}.

Definition len (b : B) (s : S) : Z := Z.of_nat (length (buf b s)).
Definition val (b : B) (i : Z) (s : S) : Z := (buf b s).[i].
Definition upd (b : B) (i v : Z) (s : S) : S :=
  set_buf b (<[Z.to_nat i := v]> (buf b s)) s.

(** [b[i]] as an expression, and [b[i] = v]. *)
Definition ld (b : B) (i : Z) : M S Z := fun s =>
  if decide (0 <= i < len b s) then Some (val b i s, s) else None.
Definition st (b : B) (i v : Z) : M S unit := fun s =>
  if decide (0 <= i < len b s) then Some (tt, upd b i v s) else None.

Lemma buf_upd_ne b b' i v s : b <> b' -> buf b' (upd b i v s) = buf b' s.
Proof. apply buf_set_ne. Qed.

Lemma val_upd_eq b i v s : 0 <= i < len b s -> val b i (upd b i v s) = v.
Proof.
  unfold len, val, upd. intros Hi. rewrite buf_set_eq.
  apply list_lookup_total_insert_eq. lia.
Qed.

Lemma val_upd_ne b i j v s : 0 <= i -> 0 <= j -> i <> j -> val b j (upd b i v s) = val b j s.
Proof.
  unfold val, upd. intros. rewrite buf_set_eq. apply list_lookup_total_insert_ne. lia.
Qed.

Lemma val_upd_other b b' i j v s : b <> b' -> val b' j (upd b i v s) = val b' j s.
Proof. intros. unfold val. by rewrite buf_upd_ne. Qed.

Lemma val_upd b i j v s :
  0 <= i < len b s -> 0 <= j ->
  val b j (upd b i v s) = if decide (i = j) then v else val b j s.
Proof.
  intros Hi Hj. case_decide as E; [subst; by apply val_upd_eq|].
  apply val_upd_ne; lia.
Qed.

Lemma len_upd `{EqDecision B} b b' i v s : len b' (upd b i v s) = len b' s.
Proof.
  unfold len, upd. destruct (decide (b = b')) as [<-|].
  - by rewrite buf_set_eq, length_insert.
  - by rewrite buf_set_ne.
Qed.

(** [s'] differs from [s] at most at the cells of [W]: a frame condition. *)
Definition writes_only (W : B -> Z -> Prop) (s s' : S) : Prop :=
  (forall b, len b s' = len b s) /\
  (forall b j, 0 <= j -> ~ W b j -> val b j s' = val b j s).

Lemma writes_only_refl W s : writes_only W s s.
Proof. done. Qed.

Lemma writes_only_trans W s1 s2 s3 :
  writes_only W s1 s2 -> writes_only W s2 s3 -> writes_only W s1 s3.
Proof.
  intros [L1 H1] [L2 H2]. split; [intros b; by rewrite L2|].
  intros b j Hj HW. rewrite H2; auto.
Qed.

Lemma writes_only_weaken (W W' : B -> Z -> Prop) s s' :
  writes_only W s s' -> (forall b j, W b j -> W' b j) -> writes_only W' s s'.
Proof. intros [L H] HW. split; [done|]. intros b j Hj Hn. apply H; [done|]. auto. Qed.

Lemma writes_only_upd `{EqDecision B} (W : B -> Z -> Prop) b i v s s' :
  writes_only W s s' -> 0 <= i -> W b i -> writes_only W s (upd b i v s').
Proof.
  intros [L H] Hi HW. split; [intros b'; by rewrite len_upd|].
  intros b' j Hj Hn. destruct (decide (b = b')) as [<-|Hb].
  - rewrite val_upd_ne by (try lia; intros ->; done). auto.
  - rewrite val_upd_other by done. auto.
Qed.

Lemma writes_only_val W s s' b j :
  writes_only W s s' -> 0 <= j -> ~ W b j -> val b j s' = val b j s.
Proof. intros [_ H]. apply H. Qed.

Lemma writes_only_len W s s' b : writes_only W s s' -> len b s' = len b s.
Proof. intros [H _]. apply H. Qed.

(** The [n] cells of [b] from [base] on, as a list. *)
Definition slice (b : B) (base n : Z) (s : S) : list Z := tab n (fun j => val b (base + j) s).

Lemma slice_at b base n s i : 0 <= i < n -> (slice b base n s).[i] = val b (base + i) s.
Proof. apply at_tab. Qed.

Lemma slice_ext b base n s s' :
  (forall j, base <= j < base + n -> val b j s' = val b j s) -> slice b base n s' = slice b base n s.
Proof. intros Hv. apply tab_ext. intros j Hj. apply Hv. lia. Qed.

Lemma length_slice b base n s : length (slice b base n s) = Z.to_nat n.
Proof. apply length_tab. Qed.
End ops.

(** ** Loops and parallel phases *)
Section loops.
Context {S : Type}.

Fixpoint foldM {I A} (l : list I) (body : I -> A -> M S A) (a : A) : M S A :=
  match l with
  | [] => mret a
  | i :: l => a' ← body i a; foldM l body a'
  end.

(** [for (i = lo; i < hi; ++i)], with the loop-carried locals in [A]. *)
Definition for_range {A} (lo hi : Z) (body : Z -> A -> M S A) (a : A) : M S A :=
  foldM (seqZ lo (hi - lo)) body a.

Definition for_ (lo hi : Z) (body : Z -> M S unit) : M S unit :=
  for_range lo hi (fun i _ => body i) tt.

(** [if (c) m] without an else branch. *)
Definition when (c : bool) (m : M S unit) : M S unit := if c then m else mret tt.
End loops.

(** A scheduler chooses, for every phase (named by a tag), the order in which the
    work items of the phase run. *)
Class Scheduler := {
  arb : forall {I : Type}, list Z -> list I -> list I;
  arb_perm : forall {I : Type} tag (items : list I), arb tag items ≡ₚ items;
}.

(** One phase between two barriers: every item runs once, in a scheduler-chosen order. *)
Definition par `{Scheduler} {S I} (tag : list Z) (items : list I) (body : I -> M S unit)
  : M S unit :=
  foldM (arb tag items) (fun i _ => body i) tt.

(** A kernel launch [<<<grid, block>>>]: every thread of every block, as one phase;
    [blockIdx + threadIdx * grid] enumerates the threads. *)
Definition par_grid `{Scheduler} {S} (tag : list Z) (grid block : Z) (kernel : Z -> Z -> M S unit)
  : M S unit :=
  par tag (seqZ 0 (grid * block)) (fun t => kernel (t mod grid) (t / grid)).

(** Reading one value per thread into registers (no store: order is irrelevant). *)
Fixpoint collect {S A} (l : list Z) (body : Z -> M S A) : M S (list A) :=
  match l with
  | [] => mret []
  | i :: l => v ← body i; vs ← collect l body; mret (v :: vs)
  end.

(** The items of a strip-mined loop
    [for (i = thread; i < n; i += threads)], over all threads. *)
Definition strip (threads n thread : Z) : list Z :=
  (fun k => thread + k * threads) <$> seqZ 0 ((n - thread + threads - 1) / threads).
Definition strip_items (threads n : Z) : list Z :=
  seqZ 0 threads ≫= strip threads n.

(** ** Weakest preconditions *)
Definition wp {S A} (m : M S A) (Q : A -> S -> Prop) (s : S) : Prop :=
  match m s with Some (a, s') => Q a s' | None => False end.

Section wp.
Context {S : Type}.
Implicit Types s : S.

Lemma wp_ret {A} (a : A) Q s : Q a s -> wp (mret a) Q s.
Proof. done. Qed.

Lemma wp_bind {A C} (m : M S A) (f : A -> M S C) Q s :
  wp m (fun a => wp (f a) Q) s -> wp (m ≫= f) Q s.
Proof. unfold wp, mbind, M_bind. by destruct (m s) as [[a s']|]. Qed.

Lemma wp_mono {A} (m : M S A) (Q R : A -> S -> Prop) s :
  wp m Q s -> (forall a s', Q a s' -> R a s') -> wp m R s.
Proof. unfold wp. destruct (m s) as [[a s']|]; auto. Qed.

Lemma wp_when (c : bool) (m : M S unit) Q s :
  (c = true -> wp m Q s) -> (c = false -> Q tt s) -> wp (when c m) Q s.
Proof. destruct c; simpl; intros H1 H2; [by apply H1|by apply wp_ret, H2]. Qed.

Lemma wp_some {A} (m : M S A) Q s : wp m Q s -> exists a s', m s = Some (a, s') /\ Q a s'.
Proof. unfold wp. destruct (m s) as [[a s']|]; [eauto|done]. Qed.

Lemma wp_foldM {J A} (l : list J) (body : J -> A -> M S A) (I : list J -> A -> S -> Prop)
      (Q : A -> S -> Prop) a s :
  I [] a s ->
  (forall ds i a s, ds ++ [i] `prefix_of` l -> I ds a s ->
     wp (body i a) (I (ds ++ [i])) s) ->
  (forall a s, I l a s -> Q a s) ->
  wp (foldM l body a) Q s.
Proof.
  intros H0 Hstep HQ.
  enough (forall ds r a s, l = ds ++ r -> I ds a s -> wp (foldM r body a) (I l) s) as H.
  { eapply wp_mono; [apply (H [] l); [done|exact H0]|exact HQ]. }
  intros ds r. revert ds. induction r as [|i r IH]; intros ds a1 s1 -> HI; simpl.
  - apply wp_ret. by rewrite app_nil_r.
  - apply wp_bind. eapply wp_mono.
    + apply Hstep; [|exact HI]. exists r. by rewrite <- app_assoc.
    + intros a2 s2 H2. apply (IH (ds ++ [i])); [by rewrite <- app_assoc|done].
Qed.

Lemma wp_for_range {A} lo hi (body : Z -> A -> M S A) (I : Z -> A -> S -> Prop)
      (Q : A -> S -> Prop) a s :
  lo <= hi -> I lo a s ->
  (forall k a s, lo <= k < hi -> I k a s -> wp (body k a) (I (k + 1)) s) ->
  (forall a s, I hi a s -> Q a s) ->
  wp (for_range lo hi body a) Q s.
Proof.
  intros Hle H0 Hstep HQ. unfold for_range.
  apply (wp_foldM _ _ (fun ds => I (lo + Z.of_nat (length ds)))).
  - by rewrite Z.add_0_r.
  - intros ds i a1 s1 [r Hr] HI.
    assert (seqZ lo (hi - lo) !! length ds = Some i) as Hl.
    { rewrite Hr, <- app_assoc. apply list_lookup_middle. done. }
    apply lookup_seqZ in Hl as [-> Hlt].
    rewrite length_app. simpl. rewrite Nat2Z.inj_add, Z.add_assoc.
    apply Hstep; [lia|done].
  - intros a1 s1. rewrite length_seqZ, Z2Nat.id by lia.
    replace (lo + (hi - lo)) with hi by lia. apply HQ.
Qed.

Lemma wp_for_ lo hi (body : Z -> M S unit) (I : Z -> S -> Prop) (Q : unit -> S -> Prop) s :
  lo <= hi -> I lo s ->
  (forall k s, lo <= k < hi -> I k s -> wp (body k) (fun _ => I (k + 1)) s) ->
  (forall s, I hi s -> Q tt s) ->
  wp (for_ lo hi body) Q s.
Proof.
  intros Hle H0 Hstep HQ. unfold for_.
  apply (wp_for_range _ _ _ (fun k _ => I k)); [done|done| |].
  - intros k a s1 Hk HI. by apply Hstep.
  - intros [] s1. apply HQ.
Qed.

Lemma wp_for_empty {A} lo hi (body : Z -> A -> M S A) (Q : A -> S -> Prop) a s :
  hi <= lo -> Q a s -> wp (for_range lo hi body a) Q s.
Proof. intros. unfold for_range. rewrite seqZ_nil by lia. by apply wp_ret. Qed.

(** The parallel rule: the invariant speaks about the set of items done so far,
    so what it yields holds for every schedule. *)
Lemma wp_par `{Scheduler} {J} tag (items : list J) (body : J -> M S unit)
      (I : list J -> S -> Prop)
      (Q : unit -> S -> Prop) s :
  NoDup items -> I [] s ->
  (forall ds i s, i ∈ items -> i ∉ ds -> ds ⊆ items -> I ds s ->
     wp (body i) (fun _ => I (i :: ds)) s) ->
  (forall ds s, (forall i, i ∈ ds <-> i ∈ items) -> I ds s -> Q tt s) ->
  wp (par tag items body) Q s.
Proof.
  intros HN H0 Hstep HQ. unfold par.
  pose proof (arb_perm tag items) as HP.
  assert (HN' : NoDup (arb tag items)) by (by rewrite HP).
  apply (wp_foldM _ _ (fun ds _ => I (reverse ds))).
  - done.
  - intros ds i [] s1 [r Hr] HI. rewrite reverse_app. simpl.
    rewrite Hr in HN'. apply NoDup_app in HN' as (HN1 & _ & _).
    apply NoDup_app in HN1 as (_ & HN2 & _).
    assert (Hin : forall x, x ∈ ds ++ [i] -> x ∈ items).
    { intros x Hx. rewrite <- HP, Hr. apply elem_of_app. by left. }
    apply Hstep; [| | |done].
    + apply Hin, elem_of_app. right. by left.
    + rewrite elem_of_reverse. intros Hi. apply (HN2 i Hi). by left.
    + intros x Hx. rewrite elem_of_reverse in Hx.
      apply Hin, elem_of_app. by left.
  - intros [] s1 HI. apply (HQ (reverse (arb tag items))); [|done].
    intros i. by rewrite elem_of_reverse, HP.
Qed.

Lemma wp_collect {A} (l : list Z) (body : Z -> M S A) (f : Z -> A) (Q : list A -> S -> Prop) s :
  (forall i, i ∈ l -> wp (body i) (fun v s' => v = f i /\ s' = s) s) ->
  Q (f <$> l) s -> wp (collect l body) Q s.
Proof.
  revert Q. induction l as [|i l IH]; intros Q Hb HQ; simpl.
  - by apply wp_ret.
  - apply wp_bind. eapply wp_mono; [apply Hb; by left|].
    intros v s' [-> ->]. apply wp_bind, IH.
    + intros j Hj. apply Hb. by right.
    + by apply wp_ret.
Qed.
End wp.

Section wp_mem.
Context {B S : Type} {HM : Memory B S}.

Lemma wp_ld b i (Q : Z -> S -> Prop) s :
  0 <= i < len b s -> Q (val b i s) s -> wp (ld b i) Q s.
Proof. intros Hi HQ. unfold wp, ld. by rewrite decide_True by done. Qed.

Lemma wp_st b i v (Q : unit -> S -> Prop) s :
  0 <= i < len b s -> Q tt (upd b i v s) -> wp (st b i v) Q s.
Proof. intros Hi HQ. unfold wp, st. by rewrite decide_True by done. Qed.
End wp_mem.

(** One step of symbolic execution; side conditions are left as first goals. *)
Ltac wp_step :=
  lazymatch goal with
  | |- wp (mbind _ _) _ _ => apply wp_bind
  | |- wp (_ ≫= _) _ _ => apply wp_bind
  | |- wp (mret _) _ _ => apply wp_ret
  | |- wp (ld _ _) _ _ => apply wp_ld
  | |- wp (st _ _ _) _ _ => apply wp_st
  | |- wp (when _ _) _ _ => apply wp_when; intros
  | |- wp (if ?c then _ else _) _ _ => destruct c eqn:?
  end; cbv beta.

(** ** Automation for symbolic execution over the device arrays *)

(** Array lengths never change: bring every [len] back to the initial state. *)
Ltac lens :=
  repeat first
    [ rewrite len_upd
    | match goal with
      | H : writes_only _ ?s0 ?s |- context [len ?b ?s] =>
          rewrite (writes_only_len _ s0 s b H)
      end ].

(** Read through the stores of the current state. *)
Ltac reads :=
  repeat first
    [ rewrite val_upd_other by discriminate
    | rewrite val_upd_eq by (lens; lia)
    | rewrite val_upd_ne by lia
    | rewrite val_upd by (lens; lia); case_decide ].

Ltac side := lens; try lia.

(** Compose the frames of a chain of phases from the first state to the last; [side]
    shows that each phase's cells are cells of the whole. *)
Ltac frames_with side :=
  repeat (apply writes_only_upd; [|lia|side]);
  repeat match goal with
  | H : writes_only _ ?s ?s1 |- writes_only _ ?s ?s2 =>
      eapply writes_only_trans; [eapply writes_only_weaken; [exact H|side]|clear H]
  end;
  apply writes_only_refl.

(** ** Phases whose items store to disjoint cells

    The effect of an item is a list of stores; when no two items touch the same cell,
    the phase performs all of them, whatever the schedule. *)
Section stores.
Context {B S : Type} `{EqDecision B} {HM : Memory B S}.

Fixpoint stores (l : list (B * Z * Z)) (s : S) : S :=
  match l with [] => s | (b, k, v) :: l => stores l (upd b k v s) end.
Fixpoint touches (l : list (B * Z * Z)) (b : B) (k : Z) : Prop :=
  match l with [] => False | (b', k', _) :: l => (b' = b /\ k' = k) \/ touches l b k end.
Fixpoint holds (l : list (B * Z * Z)) (s : S) : Prop :=
  match l with [] => True | (b, k, v) :: l => val b k s = v /\ holds l s end.
Fixpoint storable (l : list (B * Z * Z)) (s : S) : Prop :=
  match l with
  | [] => True
  | (b, k, v) :: l => 0 <= k < len b s /\ ~ touches l b k /\ storable l s
  end.

Lemma storable_len l s s' : (forall b, len b s' = len b s) -> storable l s -> storable l s'.
Proof. intros HL. induction l as [|[[b k] v] l IH]; simpl; [done|]. rewrite HL. tauto. Qed.

Lemma len_stores l s b : len b (stores l s) = len b s.
Proof.
  revert s. induction l as [|[[b' k] v] l IH]; intros s; simpl; [done|]. by rewrite IH, len_upd.
Qed.

Lemma stores_miss l s b k :
  storable l s -> 0 <= k -> ~ touches l b k -> val b k (stores l s) = val b k s.
Proof.
  revert s. induction l as [|[[b' k'] v] l IH]; intros s; simpl; [done|].
  intros (Hr & Hn & Hs) Hk Ht. rewrite IH; [|by eapply storable_len; [intros; apply len_upd|]|done|tauto].
  destruct (decide (b' = b)) as [->|]; [|by apply val_upd_other].
  apply val_upd_ne; [lia|lia|]. intros ->. tauto.
Qed.

Lemma holds_ext l s s' :
  (forall b k, touches l b k -> val b k s' = val b k s) -> holds l s -> holds l s'.
Proof.
  induction l as [|[[b k] v] l IH]; simpl; [done|]. intros H [H1 H2]. split.
  - rewrite H; auto.
  - apply IH; auto.
Qed.

Lemma touches_app l1 l2 b k : touches (l1 ++ l2) b k <-> touches l1 b k \/ touches l2 b k.
Proof. induction l1 as [|[[b' k'] v] l1 IH]; simpl; [tauto|]. rewrite IH. tauto. Qed.

Lemma touches_bind {J} (f : J -> list (B * Z * Z)) (l : list J) b k :
  touches (l ≫= f) b k <-> exists i, i ∈ l /\ touches (f i) b k.
Proof.
  induction l as [|i l IH]; simpl.
  - split; [done|]. intros (i & Hi & _). by apply not_elem_of_nil in Hi.
  - rewrite touches_app, IH. setoid_rewrite elem_of_cons. naive_solver.
Qed.

Lemma holds_app l1 l2 s : holds (l1 ++ l2) s <-> holds l1 s /\ holds l2 s.
Proof. induction l1 as [|[[b k] v] l1 IH]; simpl; [tauto|]. rewrite IH. tauto. Qed.

Lemma holds_bind {J} (f : J -> list (B * Z * Z)) (l : list J) s :
  holds (l ≫= f) s <-> forall i, i ∈ l -> holds (f i) s.
Proof.
  induction l as [|i l IH]; simpl.
  - split; [|done]. intros _ i Hi. by apply not_elem_of_nil in Hi.
  - rewrite holds_app, IH. setoid_rewrite elem_of_cons. naive_solver.
Qed.

Lemma stores_app l1 l2 s : stores (l1 ++ l2) s = stores l2 (stores l1 s).
Proof. revert s. induction l1 as [|[[b k] v] l1 IH]; intros s; simpl; [done|]. apply IH. Qed.

Lemma storable_app l1 l2 s :
  storable l1 s -> storable l2 s -> (forall b k, touches l1 b k -> touches l2 b k -> False) ->
  storable (l1 ++ l2) s.
Proof.
  induction l1 as [|[[b k] v] l1 IH]; simpl; [done|]. intros (Hr & Hn & H1) H2 Hd.
  split_and!; [lia|lia| |].
  - rewrite touches_app. intros [|]; [done|]. by eapply Hd; [left|].
  - apply IH; [done|done|]. intros b' k' ? ?. eapply Hd; eauto.
Qed.

Lemma storable_bind {J} (f : J -> list (B * Z * Z)) (l : list J) s :
  NoDup l -> (forall i, i ∈ l -> storable (f i) s) ->
  (forall i j b k, i ∈ l -> j ∈ l -> touches (f i) b k -> touches (f j) b k -> i = j) ->
  storable (l ≫= f) s.
Proof.
  intros HN. induction HN as [|i l Hi HN IH]; intros Hs Hd; simpl; [done|].
  apply storable_app; [apply Hs; by left|apply IH|].
  - intros j Hj. apply Hs. by right.
  - intros j k b z Hj Hk. apply Hd; by right.
  - intros b k H1 (j & Hj & H2)%touches_bind. apply Hi.
    by rewrite (Hd i j b k) by (by left || by right || done).
Qed.

Lemma storable_nonneg l s b k : storable l s -> touches l b k -> 0 <= k.
Proof.
  induction l as [|[[b' k'] v] l IH]; simpl; [done|].
  intros (? & _ & ?) [[-> ->]|]; [lia|auto].
Qed.

Lemma stores_hold l s : storable l s -> holds l (stores l s).
Proof.
  revert s. induction l as [|[[b k] v] l IH]; intros s; simpl; [done|].
  intros (Hr & Hn & Hs). assert (storable l (upd b k v s))
    by (by eapply storable_len; [intros; apply len_upd|]).
  split; [|by apply IH]. rewrite stores_miss; [|done|lia|done]. by apply val_upd_eq.
Qed.

Lemma wp_par_stores `{Scheduler} {J} tag (items : list J) (body : J -> M S unit)
      (outs : J -> list (B * Z * Z)) (Q : unit -> S -> Prop) s :
  NoDup items ->
  (forall i, i ∈ items -> storable (outs i) s) ->
  (forall i j b k, i ∈ items -> j ∈ items -> touches (outs i) b k -> touches (outs j) b k -> i = j) ->
  (forall i s', i ∈ items -> (forall b, len b s' = len b s) ->
     (forall b k, 0 <= k -> (forall j, j ∈ items -> j <> i -> ~ touches (outs j) b k) ->
        val b k s' = val b k s) ->
     wp (body i) (fun _ s'' => s'' = stores (outs i) s') s') ->
  (forall s', (forall b, len b s' = len b s) -> (forall i, i ∈ items -> holds (outs i) s') ->
     (forall b k, 0 <= k -> (forall i, i ∈ items -> ~ touches (outs i) b k) ->
        val b k s' = val b k s) -> Q tt s') ->
  wp (par tag items body) Q s.
Proof.
  intros HN Hst Hdis Hbody HQ.
  apply (wp_par _ _ _ (fun ds s' => (forall b, len b s' = len b s) /\
    (forall i, i ∈ ds -> holds (outs i) s') /\
    (forall b k, 0 <= k -> (forall i, i ∈ ds -> ~ touches (outs i) b k) ->
       val b k s' = val b k s))).
  - done.
  - split_and!; [done|set_solver|done].
  - intros ds i s1 Hi Hds Hsub (HL & HH & HV). eapply wp_mono.
    { apply Hbody; [done|done|]. intros b k Hk Hno. apply HV; [done|].
      intros j Hj. apply Hno; [by apply Hsub|]. intros ->. done. }
    intros _ s2 ->. assert (Hs1 : storable (outs i) s1) by (eapply storable_len; eauto).
    split_and!.
    + intros b. by rewrite len_stores.
    + intros j [->|Hj]%elem_of_cons; [by apply stores_hold|].
      eapply holds_ext; [|by apply HH]. intros b k Ht.
      apply stores_miss; [done|by eapply storable_nonneg; [apply (Hst j); auto|]|].
      intros Ht'. apply Hds. by rewrite (Hdis i j b k) by auto.
    + intros b k Hk Hno. rewrite stores_miss; [|done|done|apply Hno; by left].
      apply HV; [done|]. intros j Hj. apply Hno. by right.
  - intros ds s1 Hall (HL & HH & HV). apply HQ; [done|naive_solver|].
    intros b k Hk Hno. apply HV; naive_solver.
Qed.
End stores.

(** ** Tile loops
    [for (tile = 0; tile < n; tile += threads)] when [threads] divides [n]. *)
Lemma wp_tiles {S A} threads m (body : Z -> A -> M S A) (I : Z -> A -> S -> Prop)
      (Q : A -> S -> Prop) a s :
  0 < threads -> 0 <= m -> I 0 a s ->
  (forall tile a s, 0 <= tile -> tile + threads <= m * threads -> I tile a s ->
     wp (body tile a) (I (tile + threads)) s) ->
  (forall a s, I (m * threads) a s -> Q a s) ->
  wp (foldM (strip threads (m * threads) 0) body a) Q s.
Proof.
  intros Ht Hm H0 Hstep HQ.
  assert (E : strip threads (m * threads) 0 = (fun k => k * threads) <$> seqZ 0 m).
  { unfold strip. replace (m * threads - 0 + threads - 1) with (threads - 1 + m * threads) by lia.
    rewrite Z.div_add by lia. by rewrite Z.div_small by lia. }
  rewrite E. apply (wp_foldM _ _ (fun ds => I (Z.of_nat (length ds) * threads))).
  - done.
  - intros ds i a1 s1 [r Hr] HI.
    assert (((fun k => k * threads) <$> seqZ 0 m) !! length ds = Some i) as Hl.
    { rewrite Hr, <- app_assoc. by apply list_lookup_middle. }
    apply list_lookup_fmap_Some in Hl as (k & -> & Hl). apply lookup_seqZ in Hl as [-> Hlt].
    rewrite length_app. simpl length.
    replace (Z.of_nat (length ds + 1) * threads)
      with ((0 + Z.of_nat (length ds)) * threads + threads) by lia.
    apply Hstep; [nia|nia|]. by rewrite Z.add_0_l.
  - intros a1 s1. rewrite length_fmap, length_seqZ, Z2Nat.id by lia. apply HQ.
Qed.

(** ** Strip-mined loops cover their range exactly once *)
Lemma elem_of_strip threads n t i :
  0 < threads -> 0 <= t < threads ->
  i ∈ strip threads n t <-> 0 <= i < n /\ i mod threads = t.
Proof.
  intros HT Ht. unfold strip. rewrite list_elem_of_fmap. split.
  - intros (k & -> & Hk). apply elem_of_seqZ in Hk.
    assert (k * threads < n - t).
    { destruct Hk as [_ Hk]. rewrite Z.add_0_l in Hk.
      assert (threads * ((n - t + threads - 1) / threads) <= n - t + threads - 1)
        by (apply Z.mul_div_le; lia). nia. }
    split; [nia|]. rewrite Z.mod_add by lia. apply Z.mod_small. lia.
  - intros [Hi Hm]. exists (i / threads).
    pose proof (Z.div_mod i threads ltac:(lia)). split; [lia|].
    apply elem_of_seqZ. split; [apply Z.div_pos; lia|]. rewrite Z.add_0_l.
    apply Z.lt_le_trans with ((i + threads - t) / threads).
    + replace (i + threads - t) with ((i / threads + 1) * threads) by nia.
      rewrite Z.div_mul; lia.
    + apply Z.div_le_mono; lia.
Qed.

Lemma NoDup_strip threads n t : 0 < threads -> NoDup (strip threads n t).
Proof.
  intros. unfold strip. apply NoDup_fmap_2_strong; [|apply NoDup_seqZ].
  intros x y _ _ E. nia.
Qed.

Lemma elem_of_strip_items threads n i :
  0 < threads -> i ∈ strip_items threads n <-> 0 <= i < n.
Proof.
  intros HT. unfold strip_items. rewrite list_elem_of_bind. split.
  - intros (t & Hi & Ht). apply elem_of_seqZ in Ht. apply elem_of_strip in Hi; lia.
  - intros Hi. exists (i mod threads). pose proof (Z.mod_pos_bound i threads HT).
    rewrite elem_of_strip, elem_of_seqZ by lia. lia.
Qed.

Lemma NoDup_strip_items threads n : 0 < threads -> NoDup (strip_items threads n).
Proof.
  intros HT. unfold strip_items. apply NoDup_bind; [| |apply NoDup_seqZ].
  - intros x1 x2 y H1 H2 H3 H4. apply elem_of_seqZ in H1, H2.
    apply elem_of_strip in H3, H4; lia.
  - intros x Hx. by apply NoDup_strip.
Qed.

(** Each index of the loop range is handled by exactly one thread. *)
Lemma strip_items_perm threads n : 0 < threads -> strip_items threads n ≡ₚ seqZ 0 n.
Proof.
  intros HT. apply NoDup_Permutation; [by apply NoDup_strip_items|apply NoDup_seqZ|].
  intros i. rewrite elem_of_strip_items, elem_of_seqZ by done. lia.
Qed.

(** ** Two concrete schedulers, for evaluation: program order, and its reverse *)
Program Definition in_order : Scheduler := {| arb := fun _ _ l => l |}.
Next Obligation. done. Qed.

Program Definition reversed : Scheduler := {| arb := fun _ _ l => reverse l |}.
Next Obligation. intros. apply reverse_Permutation. Qed.
