(* ===== verification/LruSpec.v ===== *)
(** * What one call of LRU Compact computes for a request row

    [compact] is the reference definition that both implementations
    ([acc_offload_lru_compact_simt.cpp], [acc_offload_lru_compact_fused_v3.cpp]) are
    proved to refine.  It has no workspace, no epoch, no scan and no thread: a row is
    its resident table [slot_to_token], its LRU order [lru_slots] (oldest first) and
    the Top-K request, and one call yields the new table, the new order, the slot of
    each Top-K position and the list of misses to be copied in. *)
From S2P Require Import Prelude.

Record row_in := {
  ri_req : Z;              (* req_ids[row] *)
  ri_last : Z;             (* last_req_ids[row] *)
  ri_prefix : Z;           (* stable_prefix_lens[row] *)
  ri_topk : list Z;        (* topk_indices, the row *)
  ri_s2t : list Z;         (* slot_to_token, the row *)
  ri_lru : list Z;         (* lru_slots, the row *)
}.

Record row_out := {
  ro_last : Z;
  ro_s2t : list Z;
  ro_lru : list Z;
  ro_cur : list Z;         (* current_slots *)
  ro_count : Z;            (* miss_count *)
  ro_mtok : list Z;        (* miss_tokens *)
  ro_mslot : list Z;       (* miss_slots *)
}.

Section spec.
Context (cap T : Z).

Definition valid_tok (t : Z) : bool := (0 <=? t) && (t <? T).
Definition valid_slot (s : Z) : bool := (0 <=? s) && (s <? cap).
Definition clamp_prefix (p : Z) : Z := if p <? 0 then 0 else if T <? p then T else p.

(** A cached token of the speculative suffix is forgotten. *)
Definition invalidate (prefix t : Z) : Z :=
  if valid_tok t && (prefix <=? t) then -1 else t.

(** The table and the order the plan starts from. *)
Definition start_s2t (r : row_in) : list Z :=
  invalidate (clamp_prefix (ri_prefix r)) <$>
    (if ri_last r =? ri_req r then ri_s2t r else tab cap (fun _ => -1)).
Definition start_lru (r : row_in) : list Z :=
  if ri_last r =? ri_req r then ri_lru r else tab cap (fun s => s).

Section plan.
Context (topk s2t lru : list Z).
Let K := Z.of_nat (length topk).

(** The slot holds a token of the request. *)
Definition is_hit (s : Z) : bool :=
  valid_slot s && valid_tok s2t.[s] && bool_decide (s2t.[s] ∈ topk).
Definition evictable_at (o : Z) : bool := valid_slot lru.[o] && negb (is_hit lru.[o]).
Definition hit_at (o : Z) : bool := is_hit lru.[o].

Definition evict : list Z := (fun o => lru.[o]) <$> idx evictable_at cap.
Definition hits : list Z := (fun o => lru.[o]) <$> idx hit_at cap.

(** The position is the first one of its token in the request. *)
Definition first_pos (p : Z) : bool := bool_decide (topk.[p] ∉ take (Z.to_nat p) topk).

(** LRU orders below [n] at which token [t] is resident; the most recent one wins. *)
Definition holders (n t : Z) : list Z :=
  idx (fun o => valid_slot lru.[o] && (s2t.[lru.[o]] =? t)) n.
Definition hit_slot_upto (n p : Z) : Z :=
  if valid_tok topk.[p] && first_pos p then
    match last (holders n topk.[p]) with Some o => lru.[o] | None => -1 end
  else -1.
Definition hit_slot (p : Z) : Z := hit_slot_upto cap p.

Definition miss_at (p : Z) : bool := valid_tok topk.[p] && (hit_slot p <? 0).
Definition misses : list Z := idx miss_at K.
Definition n_assign : Z := Z.min (cnt miss_at K) (cnt evictable_at cap).

Definition plan_s2t : list Z :=
  scatter n_assign (fun k => evict.[k]) (fun k => topk.[misses.[k]]) s2t.
Definition plan_cur : list Z :=
  scatter n_assign (fun k => misses.[k]) (fun k => evict.[k]) (tab K hit_slot).
Definition plan_mtok : list Z :=
  tab K (fun j => if j <? cnt miss_at K then topk.[misses.[j]] else -1).
Definition plan_mslot : list Z :=
  tab K (fun j => if j <? n_assign then evict.[j] else -1).
Definition plan_lru : list Z :=
  drop (Z.to_nat n_assign) evict ++ take (Z.to_nat n_assign) evict ++ hits ++
  replicate (Z.to_nat (cap - cnt evictable_at cap - cnt hit_at cap)) (-1).
End plan.

Definition compact (r : row_in) : row_out :=
  let topk := ri_topk r in
  let s2t := start_s2t r in
  let lru := start_lru r in
  {| ro_last := ri_req r;
     ro_s2t := plan_s2t topk s2t lru;
     ro_lru := plan_lru topk s2t lru;
     ro_cur := plan_cur topk s2t lru;
     ro_count := n_assign topk s2t lru;
     ro_mtok := plan_mtok topk s2t lru;
     ro_mslot := plan_mslot topk s2t lru |}.
End spec.

(** A small row, evaluated: tokens 5 and 7 are resident in slots 1 and 2, the request
    asks for 7, 3, 7 and an invalid token; 3 and the second 7 take the two oldest
    slots. *)
Example compact_small :
  compact 4 16 {| ri_req := 9; ri_last := 9; ri_prefix := 16; ri_topk := [7; 3; 7; -1];
                  ri_s2t := [-1; 5; 7; -1]; ri_lru := [3; 1; 2; 0] |} =
  {| ro_last := 9; ro_s2t := [-1; 7; 7; 3]; ro_lru := [0; 3; 1; 2]; ro_cur := [2; 3; 1; -1];
     ro_count := 2; ro_mtok := [3; 7; -1; -1]; ro_mslot := [3; 1; -1; -1] |}.
Proof. vm_compute. reflexivity. Qed.

(** ** Laws of the plan *)
Section laws.
Context (cap T : Z) (topk s2t lru : list Z).
Let K := Z.of_nat (length topk).
Local Abbreviation ev := (evictable_at cap T topk s2t lru).
Local Abbreviation ht := (hit_at cap T topk s2t lru).
Local Abbreviation ms := (miss_at cap T topk s2t lru).
Local Abbreviation EV := (evict cap T topk s2t lru).
Local Abbreviation HT := (hits cap T topk s2t lru).
Local Abbreviation MS := (misses cap T topk s2t lru).
Local Abbreviation na := (n_assign cap T topk s2t lru).
Local Abbreviation hslot := (hit_slot cap T topk s2t lru).

(** No valid slot occurs twice in the LRU order. *)
Definition lru_inj : Prop := forall o1 o2,
  0 <= o1 < cap -> 0 <= o2 < cap -> valid_slot cap lru.[o1] = true ->
  lru.[o1] = lru.[o2] -> o1 = o2.

Lemma first_pos_spec p :
  0 <= p <= K ->
  first_pos topk p = true <-> (forall i, 0 <= i < p -> topk.[i] <> topk.[p]).
Proof.
  intros Hp. unfold first_pos. rewrite bool_decide_eq_true, elem_of_at, length_take.
  split.
  - intros H i Hi E. apply H. exists i. rewrite at_take by lia. split; [lia|done].
  - intros H (i & Hi & E). rewrite at_take in E by lia. apply (H i); [lia|done].
Qed.

Lemma length_evict : Z.of_nat (length EV) = cnt ev cap.
Proof. unfold evict. by rewrite length_fmap. Qed.

Lemma length_hits : Z.of_nat (length HT) = cnt ht cap.
Proof. unfold hits. by rewrite length_fmap. Qed.

Lemma evict_at_rank o : 0 <= o < cap -> ev o = true -> EV.[cnt ev o] = lru.[o].
Proof.
  intros Ho He. unfold evict. pose proof (cnt_lt ev cap o Ho He).
  pose proof (cnt_bounds ev o ltac:(lia)).
  rewrite at_fmap by (unfold cnt in *; lia). by rewrite idx_at_rank.
Qed.

Lemma evict_at k : 0 <= k < cnt ev cap ->
  exists o, 0 <= o < cap /\ ev o = true /\ cnt ev o = k /\ EV.[k] = lru.[o].
Proof.
  intros Hk. destruct (idx_rank ev cap k Hk) as (Ho & He & Hc).
  exists (idx ev cap).[k]. split_and!; [lia..|done|done|].
  unfold evict. rewrite at_fmap by (unfold cnt in *; lia). done.
Qed.

Lemma hits_at_rank o : 0 <= o < cap -> ht o = true -> HT.[cnt ht o] = lru.[o].
Proof.
  intros Ho He. unfold hits. pose proof (cnt_lt ht cap o Ho He).
  pose proof (cnt_bounds ht o ltac:(lia)).
  rewrite at_fmap by (unfold cnt in *; lia). by rewrite idx_at_rank.
Qed.

Lemma hits_at k : 0 <= k < cnt ht cap ->
  exists o, 0 <= o < cap /\ ht o = true /\ cnt ht o = k /\ HT.[k] = lru.[o].
Proof.
  intros Hk. destruct (idx_rank ht cap k Hk) as (Ho & He & Hc).
  exists (idx ht cap).[k]. split_and!; [lia..|done|done|].
  unfold hits. rewrite at_fmap by (unfold cnt in *; lia). done.
Qed.

Lemma evict_valid k : 0 <= k < cnt ev cap -> 0 <= EV.[k] < cap.
Proof.
  intros Hk. destruct (evict_at k Hk) as (o & Ho & He & _ & ->).
  unfold evictable_at, valid_slot in He. lia.
Qed.

Lemma ev_ht_disjoint o : ev o = true -> ht o = false.
Proof. unfold evictable_at, hit_at. intros H. destruct (is_hit _ _ _ _ _); [lia|done]. Qed.

Lemma cnt_ev_ht : 0 <= cap -> cnt ev cap + cnt ht cap <= cap.
Proof. intros. apply cnt_disjoint; [done|]. intros. by apply ev_ht_disjoint. Qed.

Lemma n_assign_bounds : 0 <= cap -> 0 <= na <= cnt ev cap /\ na <= cnt ms K <= K.
Proof.
  intros. unfold n_assign. pose proof (cnt_bounds ev cap ltac:(lia)).
  pose proof (cnt_bounds ms K ltac:(lia)). fold K. lia.
Qed.

Lemma misses_at k : 0 <= k < cnt ms K -> 0 <= MS.[k] < K /\ ms MS.[k] = true.
Proof. intros Hk. destruct (idx_rank ms K k Hk) as (? & ? & ?). auto. Qed.

Lemma misses_inj i j :
  0 <= i < cnt ms K -> 0 <= j < cnt ms K -> MS.[i] = MS.[j] -> i = j.
Proof. intros Hi Hj. apply NoDup_at; [apply NoDup_idx| |]; unfold cnt in *; done. Qed.

Lemma evict_inj i j :
  lru_inj -> 0 <= i < cnt ev cap -> 0 <= j < cnt ev cap -> EV.[i] = EV.[j] -> i = j.
Proof.
  intros Hl Hi Hj E. destruct (evict_at i Hi) as (o1 & Ho1 & He1 & Hc1 & E1).
  destruct (evict_at j Hj) as (o2 & Ho2 & He2 & Hc2 & E2).
  assert (o1 = o2); [|congruence].
  apply Hl; [done|done| |congruence]. unfold evictable_at in He1. lia.
Qed.

Lemma hit_slot_cases p :
  hslot p = -1 \/
  (valid_tok T topk.[p] = true /\ first_pos topk p = true /\
   exists o, 0 <= o < cap /\ valid_slot cap lru.[o] = true /\ s2t.[lru.[o]] = topk.[p] /\
     hslot p = lru.[o] /\
     (forall o', o < o' < cap -> valid_slot cap lru.[o'] = true -> s2t.[lru.[o']] <> topk.[p])).
Proof.
  unfold hit_slot, hit_slot_upto. destruct (valid_tok T topk.[p]) eqn:Hv; [|by left].
  destruct (first_pos topk p) eqn:Hf; [|by left]. simpl.
  destruct (last (holders cap s2t lru cap topk.[p])) as [o|] eqn:Hl; [|by left].
  right. split_and!; [done..|]. exists o.
  apply last_idx_Some in Hl as (Ho & HP & Hmax). cbv beta in HP, Hmax.
  split_and!; try lia. intros o' Ho' Hv' E. specialize (Hmax o' Ho'). lia.
Qed.

Lemma hit_slot_none p :
  valid_tok T topk.[p] = true -> first_pos topk p = true -> hslot p = -1 ->
  forall o, 0 <= o < cap -> valid_slot cap lru.[o] = true -> s2t.[lru.[o]] <> topk.[p].
Proof.
  intros Hv Hf. unfold hit_slot, hit_slot_upto. rewrite Hv, Hf. simpl.
  destruct (last (holders cap s2t lru cap topk.[p])) as [o|] eqn:Hl.
  - apply last_idx_Some in Hl as (Ho & HP & _). cbv beta in HP. unfold valid_slot in HP. lia.
  - intros _ o Ho Hv' E. pose proof (last_idx_None _ _ Hl o Ho) as H. cbv beta in H. lia.
Qed.

Lemma hit_slot_hit p :
  0 <= p < K -> 0 <= hslot p ->
  is_hit cap T topk s2t (hslot p) = true /\ s2t.[hslot p] = topk.[p].
Proof.
  intros Hp Hh. destruct (hit_slot_cases p) as [E|(Hv & _ & o & Ho & Hvs & Et & -> & _)]; [lia|].
  split; [|done]. unfold is_hit. rewrite Hvs, Et, Hv. simpl.
  apply bool_decide_eq_true_2, elem_of_at_2. done.
Qed.

Lemma hit_slot_upto_0 p : hit_slot_upto cap T topk s2t lru 0 p = -1.
Proof.
  unfold hit_slot_upto, holders. rewrite idx_nonpos by lia. simpl. by destruct (_ && _).
Qed.

Lemma hit_slot_upto_snoc n p :
  0 <= n ->
  hit_slot_upto cap T topk s2t lru (n + 1) p =
  if valid_tok T topk.[p] && first_pos topk p &&
     (valid_slot cap lru.[n] && (s2t.[lru.[n]] =? topk.[p]))
  then lru.[n] else hit_slot_upto cap T topk s2t lru n p.
Proof.
  intros Hn. unfold hit_slot_upto, holders. rewrite idx_snoc by done. cbv beta.
  destruct (valid_tok T topk.[p] && first_pos topk p); [|done]. rewrite andb_true_l.
  destruct (valid_slot cap lru.[n] && (s2t.[lru.[n]] =? topk.[p])).
  - by rewrite last_snoc.
  - by rewrite app_nil_r.
Qed.

Lemma hit_slot_ge p : -1 <= hslot p.
Proof.
  destruct (hit_slot_cases p) as [E|(_ & _ & o & _ & Hv & _ & -> & _)];
    [lia|unfold valid_slot in Hv; lia].
Qed.
End laws.

(** ** The in-memory encodings of the plan

    Both implementations encode the old LRU row in place and rebuild the new one from
    the two compacted slot lists; [K] is the Top-K length. *)
Section encoding.
Context (cap T : Z) (topk s2t lru : list Z) (K : Z).
Context (Htopk : Z.of_nat (length topk) = K).
Local Abbreviation ev := (evictable_at cap T topk s2t lru).
Local Abbreviation ht := (hit_at cap T topk s2t lru).
Local Abbreviation ms := (miss_at cap T topk s2t lru).
Local Abbreviation EV := (evict cap T topk s2t lru).
Local Abbreviation HT := (hits cap T topk s2t lru).
Local Abbreviation MS := (misses cap T topk s2t lru).
Local Abbreviation na := (n_assign cap T topk s2t lru).

(** The in-place encoding of the old LRU row. *)
Definition encoded (o : Z) : Z :=
  if negb (valid_slot cap lru.[o]) then -1
  else if ht o then - lru.[o] - 2 else lru.[o].

Lemma encoded_cases o :
  (ht o = true /\ ev o = false /\ 0 <= lru.[o] < cap /\ encoded o = - lru.[o] - 2) \/
  (ht o = false /\ ev o = true /\ 0 <= lru.[o] < cap /\ encoded o = lru.[o]) \/
  (ht o = false /\ ev o = false /\ encoded o = -1).
Proof.
  unfold encoded, hit_at, evictable_at, is_hit, valid_slot.
  destruct ((0 <=? lru.[o]) && (lru.[o] <? cap)) eqn:Hv; simpl; [|auto].
  destruct (valid_tok T s2t.[lru.[o]] && bool_decide (s2t.[lru.[o]] ∈ topk)); simpl;
    [left|right; left]; split_and!; (done || lia).
Qed.

Lemma misses_def : MS = idx ms K.
Proof. unfold misses. by rewrite Htopk. Qed.

Lemma n_assign_le :
  0 <= cap -> 0 <= na <= cnt ev cap /\ na <= cnt ms K <= K.
Proof.
  intros. pose proof (n_assign_bounds cap T topk s2t lru ltac:(lia)) as H'.
  by rewrite Htopk in H'.
Qed.

Lemma misses_range k : 0 <= k < cnt ms K -> 0 <= MS.[k] < K.
Proof.
  intros Hk. rewrite misses_def. destruct (idx_rank ms K k Hk) as (? & _). lia.
Qed.

Lemma misses_inj' i j :
  0 <= i < cnt ms K -> 0 <= j < cnt ms K -> MS.[i] = MS.[j] -> i = j.
Proof. rewrite <- Htopk. apply misses_inj. Qed.

Definition rebuilt (o : Z) : Z :=
  if o <? cnt ev cap - na then EV.[na + o]
  else if o <? cnt ev cap then EV.[o - (cnt ev cap - na)]
  else if o <? cnt ev cap + cnt ht cap then HT.[o - cnt ev cap]
  else -1.

Lemma plan_lru_rebuilt : 0 <= cap -> tab cap rebuilt = plan_lru cap T topk s2t lru.
Proof.
  intros Hcap. pose proof (n_assign_le Hcap) as Hna.
  pose proof (cnt_ev_ht cap T topk s2t lru Hcap) as Hsum.
  pose proof (length_evict cap T topk s2t lru) as LE.
  pose proof (length_hits cap T topk s2t lru) as LH.
  pose proof (cnt_bounds ht cap Hcap).
  unfold plan_lru. apply tab_eq.
  { rewrite !length_app, length_drop, length_take, length_replicate. lia. }
  intros i Hi. unfold rebuilt.
  destruct (Z.ltb_spec i (cnt ev cap - na)).
  { rewrite at_app_l by (rewrite length_drop; lia). by rewrite at_drop by lia. }
  rewrite at_app_r by (rewrite length_drop; lia).
  destruct (Z.ltb_spec i (cnt ev cap)).
  { rewrite at_app_l by (rewrite length_take, length_drop; lia).
    rewrite at_take by (rewrite length_drop; lia). f_equal. rewrite length_drop. lia. }
  rewrite at_app_r by (rewrite length_take, length_drop; lia).
  destruct (Z.ltb_spec i (cnt ev cap + cnt ht cap)).
  { rewrite at_app_l by (rewrite length_take, length_drop; lia).
    f_equal. rewrite length_take, length_drop. lia. }
  rewrite at_app_r by (rewrite length_take, length_drop; lia).
  rewrite at_replicate; [done|]. rewrite length_take, length_drop. lia.
Qed.

(** Arrays that hold the assigned values at the assigned places and the start values
    elsewhere are the plan's arrays. *)
Lemma plan_assigned (fs fc fm : Z -> Z) :
  0 <= cap -> lru_inj cap lru -> Z.of_nat (length s2t) = cap ->
  (forall k, 0 <= k < na -> fs EV.[k] = topk.[MS.[k]] /\ fc MS.[k] = EV.[k] /\ fm k = EV.[k]) ->
  (forall j, 0 <= j < cap -> (forall k, 0 <= k < na -> EV.[k] <> j) -> fs j = s2t.[j]) ->
  (forall p, 0 <= p < K -> (forall k, 0 <= k < na -> MS.[k] <> p) ->
     fc p = hit_slot cap T topk s2t lru p) ->
  (forall j, na <= j < K -> fm j = -1) ->
  tab cap fs = plan_s2t cap T topk s2t lru /\ tab K fc = plan_cur cap T topk s2t lru /\
  tab K fm = plan_mslot cap T topk s2t lru.
Proof using Htopk.
  intros Hcap Hinj Hls H1 H2 H3 H4. pose proof (n_assign_le Hcap) as Hna. split_and!.
  - unfold plan_s2t. rewrite <- Hls at 1. apply scatter_char; [lia| | | |].
    + intros k Hk. rewrite Hls. apply evict_valid. lia.
    + intros i j Hi Hj. apply evict_inj; [done|lia|lia].
    + intros k Hk. by apply H1.
    + intros j Hj Hno. apply H2; [lia|done].
  - unfold plan_cur. rewrite Htopk.
    assert (HL : Z.of_nat (length (tab K (hit_slot cap T topk s2t lru))) = K)
      by (rewrite length_tab; lia).
    rewrite <- HL at 1. apply scatter_char; [lia| | | |].
    + intros k Hk. rewrite HL. apply misses_range. lia.
    + intros i j Hi Hj. apply misses_inj'; lia.
    + intros k Hk. by apply H1.
    + intros p Hp Hno. rewrite HL in Hp. rewrite at_tab by done. by apply H3.
  - unfold plan_mslot. rewrite Htopk. apply tab_ext. intros j Hj.
    destruct (Z.ltb_spec j na); [apply H1|apply H4]; lia.
Qed.
End encoding.

Lemma length_start_s2t cap T r :
  0 <= cap -> Z.of_nat (length (ri_s2t r)) = cap ->
  Z.of_nat (length (start_s2t cap T r)) = cap.
Proof.
  intros Hc Hl. unfold start_s2t. rewrite length_fmap.
  destruct (_ =? _); [done|]. rewrite length_tab. lia.
Qed.
