(* ===== verification/LruInvariant.v ===== *)
(** * What the resident cache keeps true across calls

    The persistent state of a row is [slot_to_token] and [lru_slots].  This file states
    the invariant of that state and what one [compact] call guarantees: the LRU row stays
    a permutation of the slots, every resolved Top-K position points to a slot that holds
    its token, all valid positions are resolved when the request fits, no token gets two
    slots, and the slots of this request become the most recent ones. *)
From S2P Require Import Prelude LruSpec.

(** Every slot occurs exactly once in the LRU order. *)
Definition lru_perm (cap : Z) (lru : list Z) : Prop := lru ≡ₚ seqZ 0 cap.

(** No valid token is resident in two slots. *)
Definition tokens_unique (cap T : Z) (s2t : list Z) : Prop := forall s1 s2,
  0 <= s1 < cap -> 0 <= s2 < cap -> valid_tok T s2t.[s1] = true -> s2t.[s1] = s2t.[s2] -> s1 = s2.

(** No valid token is requested twice. *)
Definition topk_distinct (T : Z) (topk : list Z) : Prop := forall p q,
  0 <= p < Z.of_nat (length topk) -> 0 <= q < Z.of_nat (length topk) ->
  valid_tok T topk.[p] = true -> topk.[p] = topk.[q] -> p = q.

(** The state of a row between two calls. *)
Definition row_wf (cap T : Z) (r : row_in) : Prop :=
  0 < cap /\ Z.of_nat (length (ri_s2t r)) = cap /\ lru_perm cap (ri_lru r) /\
  tokens_unique cap T (ri_s2t r).

Section plan_laws.
Context (cap T : Z) (topk s2t lru : list Z).
Let K := Z.of_nat (length topk).
Context (Hcap : 0 < cap).
Context (Hs2t : Z.of_nat (length s2t) = cap).
Context (Hperm : lru_perm cap lru).
Local Abbreviation ev := (evictable_at cap T topk s2t lru).
Local Abbreviation ht := (hit_at cap T topk s2t lru).
Local Abbreviation ms := (miss_at cap T topk s2t lru).
Local Abbreviation EV := (evict cap T topk s2t lru).
Local Abbreviation HT := (hits cap T topk s2t lru).
Local Abbreviation MS := (misses cap T topk s2t lru).
Local Abbreviation na := (n_assign cap T topk s2t lru).
Local Abbreviation hslot := (hit_slot cap T topk s2t lru).

Lemma length_lru : Z.of_nat (length lru) = cap.
Proof. rewrite Hperm, length_seqZ. lia. Qed.

Lemma elem_of_lru s : s ∈ lru <-> 0 <= s < cap.
Proof. rewrite Hperm, elem_of_seqZ. lia. Qed.

Lemma lru_valid o : 0 <= o < cap -> valid_slot cap lru.[o] = true.
Proof.
  intros Ho. assert (Hin : lru.[o] ∈ lru) by (apply elem_of_at_2; rewrite length_lru; lia).
  apply elem_of_lru in Hin. unfold valid_slot. lia.
Qed.

Lemma lru_perm_inj : lru_inj cap lru.
Proof.
  intros o1 o2 H1 H2 _ E. eapply NoDup_at; [|rewrite length_lru; lia..|exact E].
  rewrite Hperm. apply NoDup_seqZ.
Qed.

(** Every slot has a place in the order. *)
Lemma lru_surj s : 0 <= s < cap -> exists o, 0 <= o < cap /\ lru.[o] = s.
Proof.
  intros Hs. assert (Hin : s ∈ lru) by (by apply elem_of_lru).
  apply elem_of_at in Hin. by rewrite length_lru in Hin.
Qed.

Lemma ev_negb_ht o : 0 <= o < cap -> ht o = negb (ev o).
Proof.
  intros Ho. unfold evictable_at, hit_at. rewrite lru_valid by done. simpl.
  by rewrite negb_involutive.
Qed.

Lemma evict_hits_perm : EV ++ HT ≡ₚ lru.
Proof.
  unfold evict, hits. rewrite <- fmap_app, (idx_split ev ht cap) by apply ev_negb_ht.
  apply reflexive_eq, (tab_at cap lru). rewrite length_lru. lia.
Qed.

Lemma cnt_ev_ht_eq : cnt ev cap + cnt ht cap = cap.
Proof.
  rewrite <- (length_evict cap T topk s2t lru), <- (length_hits cap T topk s2t lru).
  pose proof (Permutation_length evict_hits_perm) as H. rewrite length_app in H.
  pose proof length_lru. lia.
Qed.

Lemma plan_lru_perm : lru_perm cap (plan_lru cap T topk s2t lru).
Proof.
  unfold lru_perm, plan_lru. transitivity lru; [|exact Hperm].
  replace (cap - cnt ev cap - cnt ht cap) with 0 by (pose proof cnt_ev_ht_eq; lia).
  simpl. rewrite app_nil_r, app_assoc, (Permutation_app_comm (drop _ _)).
  rewrite take_drop. apply evict_hits_perm.
Qed.

(** An evictable slot is not a hit, so assignment never overwrites a requested token. *)
Lemma evict_not_hit k : 0 <= k < cnt ev cap -> is_hit cap T topk s2t EV.[k] = false.
Proof.
  intros Hk. destruct (evict_at _ _ _ _ _ k Hk) as (o & Ho & He & _ & ->).
  unfold evictable_at in He. lia.
Qed.

Lemma na_bounds : 0 <= na <= cnt ev cap /\ na <= cnt ms K <= K.
Proof. apply n_assign_bounds. lia. Qed.

Lemma plan_s2t_assigned k : 0 <= k < na -> (plan_s2t cap T topk s2t lru).[EV.[k]] = topk.[MS.[k]].
Proof.
  pose proof na_bounds. intros Hk. unfold plan_s2t.
  apply (scatter_hit _ (fun k => EV.[k]) (fun k => topk.[MS.[k]])); [done| |].
  - intros i Hi. rewrite Hs2t. apply evict_valid. lia.
  - intros i j Hi Hj. apply evict_inj; [apply lru_perm_inj|lia|lia].
Qed.

Lemma plan_s2t_other s :
  0 <= s < cap -> (forall k, 0 <= k < na -> EV.[k] <> s) ->
  (plan_s2t cap T topk s2t lru).[s] = s2t.[s].
Proof.
  pose proof na_bounds. intros Hs Hno. unfold plan_s2t. apply scatter_miss; [lia|].
  intros k Hk. split; [|by apply Hno]. apply (evict_valid cap T topk s2t lru). lia.
Qed.

Lemma plan_s2t_cases s :
  0 <= s < cap ->
  (exists k, 0 <= k < na /\ s = EV.[k] /\ (plan_s2t cap T topk s2t lru).[s] = topk.[MS.[k]]) \/
  ((forall k, 0 <= k < na -> EV.[k] <> s) /\ (plan_s2t cap T topk s2t lru).[s] = s2t.[s]).
Proof.
  intros Hs. destruct (decide (s ∈ (fun k => EV.[k]) <$> seqZ 0 na)) as [Hin|Hin].
  - left. apply list_elem_of_fmap in Hin as (k & -> & Hk). apply elem_of_seqZ in Hk.
    exists k. split_and!; [lia|lia|done|]. apply plan_s2t_assigned. lia.
  - right. assert (Hno : forall k, 0 <= k < na -> EV.[k] <> s).
    { intros k Hk <-. apply Hin, list_elem_of_fmap. exists k. rewrite elem_of_seqZ. split; [done|lia]. }
    split; [done|]. by apply plan_s2t_other.
Qed.

Lemma plan_s2t_hit s :
  0 <= s < cap -> is_hit cap T topk s2t s = true ->
  (plan_s2t cap T topk s2t lru).[s] = s2t.[s].
Proof.
  intros Hs Hh. apply plan_s2t_other; [done|]. pose proof na_bounds.
  intros k Hk <-. rewrite evict_not_hit in Hh by lia. done.
Qed.

Lemma plan_cur_assigned k : 0 <= k < na -> (plan_cur cap T topk s2t lru).[MS.[k]] = EV.[k].
Proof.
  pose proof na_bounds. intros Hk. unfold plan_cur.
  apply (scatter_hit _ (fun k => MS.[k]) (fun k => EV.[k])); [done| |].
  - intros i Hi. rewrite length_tab. destruct (misses_at cap T topk s2t lru i ltac:(fold K; lia)). lia.
  - intros i j Hi Hj. apply misses_inj; fold K; lia.
Qed.

Lemma plan_cur_other p :
  0 <= p < K -> (forall k, 0 <= k < na -> MS.[k] <> p) ->
  (plan_cur cap T topk s2t lru).[p] = hslot p.
Proof.
  pose proof na_bounds. intros Hp Hno. unfold plan_cur. fold K.
  rewrite scatter_miss; [by rewrite at_tab|lia|].
  intros k Hk. split; [|by apply Hno].
  destruct (misses_at cap T topk s2t lru k ltac:(fold K; lia)). lia.
Qed.

Lemma plan_cur_cases p :
  0 <= p < K ->
  (exists k, 0 <= k < na /\ p = MS.[k] /\ (plan_cur cap T topk s2t lru).[p] = EV.[k]) \/
  ((plan_cur cap T topk s2t lru).[p] = hslot p).
Proof.
  intros Hp. destruct (decide (p ∈ (fun k => MS.[k]) <$> seqZ 0 na)) as [Hin|Hin].
  - left. apply list_elem_of_fmap in Hin as (k & -> & Hk). apply elem_of_seqZ in Hk.
    exists k. split_and!; [lia|lia|done|]. apply plan_cur_assigned. lia.
  - right. apply plan_cur_other; [done|].
    intros k Hk <-. apply Hin, list_elem_of_fmap. exists k. rewrite elem_of_seqZ. split; [done|lia].
Qed.

Lemma plan_resolved p :
  0 <= p < K -> 0 <= (plan_cur cap T topk s2t lru).[p] ->
  (plan_cur cap T topk s2t lru).[p] < cap /\ valid_tok T topk.[p] = true /\
  (plan_s2t cap T topk s2t lru).[(plan_cur cap T topk s2t lru).[p]] = topk.[p].
Proof.
  pose proof na_bounds. intros Hp Hc.
  destruct (plan_cur_cases p Hp) as [(k & Hk & -> & E)|E]; rewrite E in *.
  - destruct (misses_at cap T topk s2t lru k ltac:(fold K; lia)) as [_ Hm]. unfold miss_at in Hm.
    pose proof (evict_valid cap T topk s2t lru k ltac:(lia)).
    split_and!; [lia|lia|]. by apply plan_s2t_assigned.
  - destruct (hit_slot_hit cap T topk s2t lru p Hp Hc) as [Hh Et].
    assert (hslot p < cap) by (unfold is_hit, valid_slot in Hh; lia).
    split_and!; [done| |rewrite plan_s2t_hit by lia; done].
    unfold is_hit in Hh. rewrite Et in Hh. lia.
Qed.

(** A requested token that is resident has a hit at its first position. *)
Lemma resident_first_hit s :
  0 <= s < cap -> is_hit cap T topk s2t s = true ->
  exists p, 0 <= p < K /\ topk.[p] = s2t.[s] /\ 0 <= hslot p.
Proof.
  intros Hs Hh. unfold is_hit in Hh.
  assert (Hin : s2t.[s] ∈ topk) by (eapply bool_decide_eq_true_1; lia).
  assert (Hex : exists p, 0 <= p < K /\ topk.[p] = s2t.[s] /\ first_pos topk p = true).
  { apply elem_of_at in Hin as (q & Hq & Eq).
    destruct (last (idx (fun p => forallb (fun i => negb (topk.[i] =? s2t.[s])) (seqZ 0 p)) (q + 1)))
      as [p|] eqn:Hl; cycle 1.
    { apply (last_idx_None _ _) with (o := 0) in Hl; [done|lia]. }
    apply last_idx_Some in Hl as (Hp & Hnone & Hmax). cbv beta in *.
    rewrite forallb_forall in Hnone.
    assert (Ep : topk.[p] = s2t.[s]).
    { destruct (decide (p = q)) as [->|]; [done|].
      destruct (decide (topk.[p] = s2t.[s])) as [|Hne]; [done|]. exfalso.
      specialize (Hmax (p + 1) ltac:(lia)).
      enough (forallb (fun i => negb (topk.[i] =? s2t.[s])) (seqZ 0 (p + 1)) = true) by congruence.
      apply forallb_forall. intros i Hi. apply list_elem_of_In, elem_of_seqZ in Hi.
      destruct (decide (i = p)) as [->|]; [lia|].
      apply Hnone, list_elem_of_In, elem_of_seqZ. lia. }
    exists p. split_and!; [lia|lia|done|]. apply first_pos_spec; [lia|].
    intros i Hi. specialize (Hnone i). rewrite <- list_elem_of_In, elem_of_seqZ in Hnone.
    specialize (Hnone ltac:(lia)). rewrite Ep. lia. }
  destruct Hex as (p & Hp & Ep & Hf). exists p. split_and!; [lia|lia|done|].
  destruct (Z.le_gt_cases 0 (hslot p)) as [|Hneg]; [done|exfalso].
  pose proof (hit_slot_ge cap T topk s2t lru p).
  destruct (lru_surj s Hs) as (o & Ho & Eo).
  apply (hit_slot_none cap T topk s2t lru p) with (o := o); [rewrite Ep; lia|done|lia|done| |congruence].
  by apply lru_valid.
Qed.

(** Enough evictable slots for all misses, when tokens are unique and the request fits. *)
Lemma misses_fit : tokens_unique cap T s2t -> K <= cap -> cnt ms K <= cnt ev cap.
Proof.
  intros Hu HK. pose proof cnt_ev_ht_eq as Hsum.
  set (th := (fun o => s2t.[lru.[o]]) <$> idx ht cap).
  set (tp := (fun p => topk.[p]) <$> idx (fun p => negb (ms p)) K).
  assert (Hlen : (length th <= length tp)%nat).
  { apply submseteq_length, NoDup_submseteq.
    - apply NoDup_fmap_2_strong; [|apply NoDup_idx].
      intros o1 o2 H1 H2 E. apply elem_of_idx in H1 as [H1 Ho1], H2 as [H2 Ho2].
      pose proof (lru_valid o1 Ho1) as V1. pose proof (lru_valid o2 Ho2) as V2.
      unfold valid_slot in V1, V2. apply lru_perm_inj; [done|done|by apply lru_valid|].
      apply Hu; [lia|lia| |done]. unfold hit_at, is_hit in H1. lia.
    - intros t Ht. unfold th in Ht. apply list_elem_of_fmap in Ht as (o & -> & Ho).
      apply elem_of_idx in Ho as [Hh Ho].
      pose proof (lru_valid o Ho) as V. unfold valid_slot in V.
      destruct (resident_first_hit lru.[o] ltac:(lia) Hh) as (p & Hp & Ep & Hhs).
      unfold tp. apply list_elem_of_fmap. exists p. split; [done|].
      apply elem_of_idx. split; [unfold miss_at; lia|done]. }
  unfold th, tp in Hlen. rewrite !length_fmap in Hlen.
  pose proof (cnt_disjoint ms (fun p => negb (ms p)) K ltac:(lia) ltac:(intros; lia)).
  unfold cnt in *. lia.
Qed.

Lemma plan_complete p :
  tokens_unique cap T s2t -> K <= cap -> 0 <= p < K -> valid_tok T topk.[p] = true ->
  0 <= (plan_cur cap T topk s2t lru).[p].
Proof.
  intros Hu HK Hp Hv. pose proof (misses_fit Hu HK) as Hfit. pose proof na_bounds.
  assert (Ena : na = cnt ms K) by (unfold n_assign; fold K; lia).
  destruct (plan_cur_cases p Hp) as [(k & Hk & _ & ->)|E].
  { apply (evict_valid cap T topk s2t lru). lia. }
  destruct (ms p) eqn:Hm; [|rewrite E; unfold miss_at in Hm; lia].
  pose proof (cnt_lt ms K p Hp Hm). pose proof (cnt_bounds ms p ltac:(lia)).
  rewrite <- (idx_at_rank ms K p Hp Hm). fold MS.
  change (idx ms K) with MS. rewrite plan_cur_assigned by lia.
  apply (evict_valid cap T topk s2t lru). lia.
Qed.

(** A missed token (of a request without repetitions) is resident nowhere. *)
Lemma miss_absent p s :
  topk_distinct T topk -> 0 <= p < K -> ms p = true -> 0 <= s < cap -> s2t.[s] <> topk.[p].
Proof.
  intros Hd Hp Hm Hs E. unfold miss_at in Hm.
  pose proof (hit_slot_ge cap T topk s2t lru p).
  destruct (lru_surj s Hs) as (o & Ho & Eo).
  apply (hit_slot_none cap T topk s2t lru p) with (o := o); [lia| |lia|done| |congruence].
  - apply first_pos_spec; [lia|]. intros i Hi Ei.
    assert (p = i); [|lia]. apply Hd; [lia|lia|lia|congruence].
  - by apply lru_valid.
Qed.

Lemma plan_unique :
  topk_distinct T topk -> tokens_unique cap T s2t ->
  tokens_unique cap T (plan_s2t cap T topk s2t lru).
Proof.
  intros Hd Hu s1 s2 H1 H2. pose proof na_bounds.
  assert (Hmiss : forall k, 0 <= k < na -> 0 <= MS.[k] < K /\ ms MS.[k] = true)
    by (intros k Hk; apply misses_at; fold K; lia).
  destruct (plan_s2t_cases s1 H1) as [(k1 & Hk1 & E1 & ->)|(Hn1 & ->)];
  destruct (plan_s2t_cases s2 H2) as [(k2 & Hk2 & E2 & ->)|(Hn2 & ->)]; intros Hv E.
  - subst s1 s2. destruct (Hmiss k1 Hk1) as [HM1 _]. destruct (Hmiss k2 Hk2) as [HM2 _].
    assert (E' : MS.[k1] = MS.[k2]) by (apply Hd; done).
    apply misses_inj in E'; [congruence|fold K; lia|fold K; lia].
  - exfalso. destruct (Hmiss k1 Hk1) as [HM1 Hm1].
    by apply (miss_absent MS.[k1] s2 Hd HM1 Hm1 H2).
  - exfalso. destruct (Hmiss k2 Hk2) as [HM2 Hm2].
    by apply (miss_absent MS.[k2] s1 Hd HM2 Hm2 H1).
  - by apply Hu.
Qed.
End plan_laws.

(** ** Guarantees of one call *)
Lemma valid_tok_invalidate T prefix t :
  valid_tok T (invalidate T prefix t) = true ->
  invalidate T prefix t = t /\ valid_tok T t = true /\ t < prefix.
Proof.
  unfold invalidate. destruct (valid_tok T t && (prefix <=? t)) eqn:E; [done|].
  intros Hv. split_and!; [done|done|]. lia.
Qed.

Section guarantees.
Context (cap T : Z) (r : row_in).
Context (Hwf : row_wf cap T r).
Local Abbreviation s2t0 := (start_s2t cap T r).
Local Abbreviation lru0 := (start_lru cap r).
Local Abbreviation out := (compact cap T r).
Let K := Z.of_nat (length (ri_topk r)).

Lemma wf_cap : 0 < cap.
Proof. apply Hwf. Qed.

Lemma start_lru_perm : lru_perm cap lru0.
Proof.
  destruct Hwf as (Hc & _ & Hp & _). unfold start_lru. destruct (_ =? _); [done|].
  unfold lru_perm, tab. by rewrite list_fmap_id.
Qed.

Lemma start_s2t_length : Z.of_nat (length s2t0) = cap.
Proof.
  destruct Hwf as (Hc & Hl & _). unfold start_s2t. rewrite length_fmap.
  destruct (_ =? _); [done|]. rewrite length_tab. lia.
Qed.

Lemma start_s2t_valid s :
  0 <= s < cap -> valid_tok T s2t0.[s] = true ->
  ri_last r = ri_req r /\ s2t0.[s] = (ri_s2t r).[s] /\
  s2t0.[s] < clamp_prefix T (ri_prefix r).
Proof.
  destruct Hwf as (Hc & Hl & _). intros Hs. unfold start_s2t.
  destruct (Z.eqb_spec (ri_last r) (ri_req r)) as [E|E].
  - rewrite at_fmap by lia. intros Hv. apply valid_tok_invalidate in Hv as (-> & _ & ?). auto.
  - rewrite at_fmap by (rewrite length_tab; lia). rewrite at_tab by lia.
    intros Hv. apply valid_tok_invalidate in Hv as (_ & Hv & _). done.
Qed.

Lemma start_unique : tokens_unique cap T s2t0.
Proof.
  destruct Hwf as (_ & _ & _ & Hu). intros s1 s2 H1 H2 Hv E.
  assert (Hv2 : valid_tok T s2t0.[s2] = true) by congruence.
  destruct (start_s2t_valid s1 H1 Hv) as (_ & E1 & _).
  destruct (start_s2t_valid s2 H2 Hv2) as (_ & E2 & _).
  apply Hu; [done|done| |]; congruence.
Qed.

(** The row the next call starts from. *)
Definition next_row (o : row_out) (req prefix : Z) (topk : list Z) : row_in :=
  {| ri_req := req; ri_last := ro_last o; ri_prefix := prefix; ri_topk := topk;
     ri_s2t := ro_s2t o; ri_lru := ro_lru o |}.

Lemma next_row_wf req prefix topk :
  topk_distinct T (ri_topk r) -> row_wf cap T (next_row out req prefix topk).
Proof.
  intros Hd. split_and!; [apply wf_cap| | |]; simpl.
  - unfold plan_s2t. rewrite length_scatter. apply start_s2t_length.
  - apply plan_lru_perm; [apply wf_cap|apply start_lru_perm].
  - apply plan_unique; [apply wf_cap|apply start_s2t_length|apply start_lru_perm|done|].
    apply start_unique.
Qed.

Lemma compact_resolves p :
  K <= cap -> 0 <= p < K -> valid_tok T (ri_topk r).[p] = true ->
  0 <= (ro_cur out).[p] < cap /\ (ro_s2t out).[(ro_cur out).[p]] = (ri_topk r).[p].
Proof.
  intros HK Hp Hv. pose proof wf_cap. pose proof start_s2t_length. pose proof start_lru_perm.
  assert (Hc : 0 <= (ro_cur out).[p]) by (apply plan_complete; auto using start_unique).
  destruct (plan_resolved cap T (ri_topk r) s2t0 lru0 ltac:(done) ltac:(done) ltac:(done) p Hp Hc)
    as (? & _ & ?). done.
Qed.

Lemma compact_invalid_pos p :
  0 <= p < K -> valid_tok T (ri_topk r).[p] = false -> (ro_cur out).[p] = -1.
Proof.
  intros Hp Hv. pose proof wf_cap. pose proof start_s2t_length. pose proof start_lru_perm.
  destruct (Z.le_gt_cases 0 (ro_cur out).[p]) as [Hc|Hc].
  { exfalso.
    destruct (plan_resolved cap T (ri_topk r) s2t0 lru0 ltac:(done) ltac:(done) ltac:(done) p Hp Hc)
      as (_ & ? & _). congruence. }
  destruct (plan_cur_cases cap T (ri_topk r) s2t0 lru0 ltac:(done) p Hp) as [(k & Hk & _ & E)|E].
  - pose proof (na_bounds cap T (ri_topk r) s2t0 lru0 ltac:(done)).
    pose proof (evict_valid cap T (ri_topk r) s2t0 lru0 k ltac:(lia)).
    change (ro_cur out) with (plan_cur cap T (ri_topk r) s2t0 lru0) in Hc. lia.
  - change (ro_cur out) with (plan_cur cap T (ri_topk r) s2t0 lru0) in *.
    pose proof (hit_slot_ge cap T (ri_topk r) s2t0 lru0 p). lia.
Qed.

(** The published lists name the [k]-th evicted slot and the [k]-th missing token. *)
Lemma miss_lists_at k :
  0 <= k < ro_count out ->
  k < K /\ k < cnt (evictable_at cap T (ri_topk r) s2t0 lru0) cap /\
  k < cnt (miss_at cap T (ri_topk r) s2t0 lru0) K /\
  (ro_mslot out).[k] = (evict cap T (ri_topk r) s2t0 lru0).[k] /\
  (ro_mtok out).[k] = (ri_topk r).[(misses cap T (ri_topk r) s2t0 lru0).[k]].
Proof.
  pose proof (na_bounds cap T (ri_topk r) s2t0 lru0 wf_cap) as Hna. fold K in Hna.
  simpl. intros Hk. unfold plan_mslot, plan_mtok. fold K. rewrite !at_tab by lia.
  replace (k <? n_assign _ _ _ _ _) with true by lia.
  replace (k <? cnt _ K) with true by lia. split_and!; (done || lia).
Qed.

(** The table changes exactly at the slots of the published miss list. *)
Lemma compact_miss_entry k :
  0 <= k < ro_count out ->
  k < K /\ 0 <= (ro_mslot out).[k] < cap /\ valid_tok T (ro_mtok out).[k] = true /\
  (ro_s2t out).[(ro_mslot out).[k]] = (ro_mtok out).[k].
Proof.
  intros Hk. destruct (miss_lists_at k Hk) as (H1 & H2 & H3 & -> & ->).
  pose proof (evict_valid cap T (ri_topk r) s2t0 lru0 k ltac:(lia)).
  destruct (misses_at cap T (ri_topk r) s2t0 lru0 k ltac:(fold K; lia)) as [_ Hm].
  unfold miss_at in Hm. split_and!; [lia..|].
  by apply plan_s2t_assigned; [apply wf_cap|apply start_s2t_length|apply start_lru_perm|].
Qed.

Lemma compact_miss_requested k :
  0 <= k < ro_count out -> exists p, 0 <= p < K /\ (ro_mtok out).[k] = (ri_topk r).[p].
Proof.
  intros Hk. destruct (miss_lists_at k Hk) as (_ & _ & H3 & _ & ->).
  destruct (misses_at cap T (ri_topk r) s2t0 lru0 k ltac:(fold K; lia)) as [Hm _]. eauto.
Qed.

(** No slot is assigned to two misses. *)
Lemma compact_miss_slots_inj k k' :
  0 <= k < ro_count out -> 0 <= k' < ro_count out ->
  (ro_mslot out).[k] = (ro_mslot out).[k'] -> k = k'.
Proof.
  intros Hk Hk'. destruct (miss_lists_at k Hk) as (_ & H2 & _ & -> & _).
  destruct (miss_lists_at k' Hk') as (_ & H2' & _ & -> & _).
  apply evict_inj; [|lia|lia]. apply (lru_perm_inj cap [] []); [apply wf_cap|apply start_lru_perm].
Qed.

Lemma compact_slot_cases s :
  0 <= s < cap ->
  (exists k, 0 <= k < ro_count out /\ s = (ro_mslot out).[k] /\
             (ro_s2t out).[s] = (ro_mtok out).[k]) \/
  (ro_s2t out).[s] = s2t0.[s].
Proof.
  intros Hs. destruct (plan_s2t_cases cap T (ri_topk r) s2t0 lru0 wf_cap start_s2t_length start_lru_perm s Hs)
    as [(k & Hk & -> & E)|(_ & E)]; [left|by right].
  destruct (miss_lists_at k Hk) as (_ & _ & _ & E1 & E2). exists k. by rewrite E1, E2.
Qed.

(** A token of the speculative suffix is never served from the old table. *)
Lemma compact_suffix_missed p :
  0 <= p < K -> clamp_prefix T (ri_prefix r) <= (ri_topk r).[p] -> 0 <= (ro_cur out).[p] ->
  exists k, 0 <= k < ro_count out /\ (ro_mslot out).[k] = (ro_cur out).[p] /\
            (ro_mtok out).[k] = (ri_topk r).[p].
Proof.
  pose proof wf_cap as Hc. pose proof start_s2t_length as Hl. pose proof start_lru_perm as Hp.
  pose proof (na_bounds cap T (ri_topk r) s2t0 lru0 Hc) as Hna. fold K in Hna.
  intros Hpos Hsuf Hcur.
  destruct (plan_cur_cases cap T (ri_topk r) s2t0 lru0 Hc p Hpos) as [(k & Hk & Ek & E)|E].
  - exists k. simpl. rewrite E. unfold plan_mslot, plan_mtok. fold K. rewrite !at_tab by lia.
    replace (k <? n_assign _ _ _ _ _) with true by lia.
    replace (k <? cnt _ K) with true by lia. subst p. split_and!; [lia|lia|done|done].
  - exfalso. simpl in Hcur. rewrite E in Hcur.
    destruct (hit_slot_hit cap T (ri_topk r) s2t0 lru0 p Hpos Hcur) as [Hh Et].
    unfold is_hit, valid_slot in Hh.
    destruct (start_s2t_valid (hit_slot cap T (ri_topk r) s2t0 lru0 p)) as (_ & _ & Hlt); lia.
Qed.

(** The order splits into slots this request does not use, in their old order, and
    the slots it uses. *)
Lemma compact_recency :
  exists old recent, ro_lru out = old ++ recent /\ old `sublist_of` lru0 /\
    (forall s, s ∈ old -> forall p, 0 <= p < K -> (ro_cur out).[p] <> s) /\
    (forall p, 0 <= p < K -> 0 <= (ro_cur out).[p] -> (ro_cur out).[p] ∈ recent).
Proof.
  pose proof wf_cap as Hc. pose proof start_s2t_length as Hl. pose proof start_lru_perm as Hp.
  pose proof (na_bounds cap T (ri_topk r) s2t0 lru0 Hc) as Hna. fold K in Hna.
  pose proof (length_evict cap T (ri_topk r) s2t0 lru0) as LE.
  set (EV := evict cap T (ri_topk r) s2t0 lru0) in *.
  set (na := n_assign cap T (ri_topk r) s2t0 lru0) in *.
  exists (drop (Z.to_nat na) EV). eexists. split; [done|]. split_and!.
  - transitivity EV; [apply sublist_drop|]. unfold EV, evict.
    rewrite <- (tab_at cap lru0) at 2 by (rewrite (length_lru cap) by done; lia).
    unfold tab. apply fmap_sublist, sublist_filter.
  - intros s Hs p Hpos E. apply elem_of_at in Hs as (i & Hi & Ei). rewrite length_drop in Hi.
    rewrite at_drop in Ei by lia.
    destruct (plan_cur_cases cap T (ri_topk r) s2t0 lru0 Hc p Hpos) as [(k & Hk & _ & E')|E'].
    + simpl in E. rewrite E' in E. rewrite <- Ei in E.
      apply evict_inj in E; [fold na in Hk; lia|by apply lru_perm_inj| |]; fold na in Hk; lia.
    + simpl in E. rewrite E' in E.
      pose proof (evict_valid cap T (ri_topk r) s2t0 lru0 (na + i) ltac:(lia)) as Hv.
      fold EV in Hv. rewrite Ei, <- E in Hv.
      destruct (hit_slot_hit cap T (ri_topk r) s2t0 lru0 p Hpos ltac:(lia)) as [Hh _].
      rewrite E, <- Ei in Hh. unfold EV in Hh. rewrite evict_not_hit in Hh by lia. done.
  - intros p Hpos Hcur. simpl in *. apply elem_of_app.
    destruct (plan_cur_cases cap T (ri_topk r) s2t0 lru0 Hc p Hpos) as [(k & Hk & _ & E)|E];
      rewrite E in *; fold EV na.
    + left. fold na in Hk. apply elem_of_at. exists k. rewrite length_take, at_take by lia.
      split; [lia|done].
    + right. apply elem_of_app. left.
      destruct (hit_slot_hit cap T (ri_topk r) s2t0 lru0 p Hpos Hcur) as [Hh _].
      edestruct (lru_surj cap (ri_topk r) s2t0 lru0) with (s := hit_slot cap T (ri_topk r) s2t0 lru0 p) as (o & Ho & Eo); [done..| |].
      { unfold is_hit, valid_slot in Hh. lia. }
      unfold hits. apply list_elem_of_fmap. exists o. split; [done|].
      apply elem_of_idx. split; [|done]. unfold hit_at. by rewrite Eo.
Qed.
End guarantees.
