(* ===== verification/WarpScan.v ===== *)
(** * Warp shuffles and 1024-lane scans

    Pure part of the collectives of
    [acc_offload_lru_compact_fused_v3.cpp] ([WarpScanPair1024], [BlockAny1024]) and
    [acc_offload_lru_resident_addrs_mixed_parallel.cpp] ([WarpExclusiveScan1024]): the
    registers of the 32 lanes of a warp are a list, a shuffle loop is a fold over the
    doubling offsets, and a block is 32 warps.  The device intrinsics are a class: the
    theorems hold for every implementation that satisfies the stated laws. *)
From S2P Require Import Prelude.

Definition WARP_SIZE : Z := 32.

(** Device intrinsics of the vendor headers ([simt_api/*.h], [kernel_operator.h]). *)
Class Intrinsics := {
  (** [asc_shfl_up(v, delta, width)] in every lane of one warp: the registers after. *)
  asc_shfl_up : list Z -> Z -> Z -> list Z;
  (** [asc_atomic_min(p, v)], [asc_atomic_max(p, v)]: the new content of [*p]. *)
  asc_atomic_min : Z -> Z -> Z;
  asc_atomic_max : Z -> Z -> Z;
  (** [copy_gm_to_ubuf(dst, src, 0, 1, blocks, 0, 0)] on [int32_t] cells: the content
      of the destination region after the copy of [blocks] 32-byte units. *)
  copy_gm_to_ubuf : list Z -> list Z -> Z -> list Z;

  asc_shfl_up_lane : forall regs delta lane,
    Z.of_nat (length regs) = WARP_SIZE -> 0 <= delta <= lane -> lane < WARP_SIZE ->
    (asc_shfl_up regs delta WARP_SIZE).[lane] = regs.[lane - delta];
  asc_atomic_min_spec : forall old v, asc_atomic_min old v = Z.min old v;
  asc_atomic_max_spec : forall old v, asc_atomic_max old v = Z.max old v;
  copy_gm_to_ubuf_spec : forall dst src blocks,
    0 <= blocks * 8 <= Z.of_nat (length src) -> blocks * 8 <= Z.of_nat (length dst) ->
    copy_gm_to_ubuf dst src blocks =
      take (Z.to_nat (blocks * 8)) src ++ drop (Z.to_nat (blocks * 8)) dst;
}.

(** Reference intrinsics, to evaluate the models. *)
Program Definition ref_intrinsics : Intrinsics := {|
  asc_shfl_up := fun regs delta _ =>
    tab (Z.of_nat (length regs)) (fun lane => if delta <=? lane then regs.[lane - delta] else regs.[lane]);
  asc_atomic_min := Z.min;
  asc_atomic_max := Z.max;
  copy_gm_to_ubuf := fun dst src blocks =>
    take (Z.to_nat (blocks * 8)) src ++ drop (Z.to_nat (blocks * 8)) dst;
|}.
Next Obligation.
  intros regs delta lane Hl Hd Hlane. cbv beta. rewrite at_tab by lia.
  by replace (delta <=? lane) with true by lia.
Qed.
Next Obligation. done. Qed.
Next Obligation. done. Qed.
Next Obligation. done. Qed.

(** ** The shuffle loop
    [for (offset = 1; offset < bound; offset <<= 1)] over the registers of a warp. *)
Fixpoint shfl_loop (fuel : nat) (offset bound : Z) (step : Z -> list Z -> list Z)
    (regs : list Z) : list Z :=
  match fuel with
  | O => regs
  | S fuel =>
      if offset <? bound then shfl_loop fuel (Z.shiftl offset 1) bound step (step offset regs)
      else regs
  end.

(** The offset doubles, so [bound] rounds of fuel are more than the loop takes. *)
Definition run_shfl_loop (step : Z -> list Z -> list Z) (regs : list Z) : list Z :=
  shfl_loop (Z.to_nat WARP_SIZE) 1 WARP_SIZE step regs.

Lemma run_shfl_loop_unfold step regs :
  run_shfl_loop step regs = step 16 (step 8 (step 4 (step 2 (step 1 regs)))).
Proof. reflexivity. Qed.

Section scan.
Context {I : Intrinsics}.

Definition scan_step (offset : Z) (regs : list Z) : list Z :=
  let prior := asc_shfl_up regs offset WARP_SIZE in
  tab WARP_SIZE (fun lane => if offset <=? lane then regs.[lane] + prior.[lane] else regs.[lane]).
Definition warp_scan (regs : list Z) : list Z := run_shfl_loop scan_step regs.

Definition any_step (offset : Z) (regs : list Z) : list Z :=
  let prior := asc_shfl_up regs offset WARP_SIZE in
  tab WARP_SIZE (fun lane =>
    if (offset <=? lane) && negb (prior.[lane] =? 0) then 1 else regs.[lane]).
Definition warp_any (regs : list Z) : list Z := run_shfl_loop any_step regs.

(** Prefix sums. *)
Definition psum (f : Z -> Z) (n : Z) : Z := foldl (fun a i => a + f i) 0 (seqZ 0 n).

Lemma psum_0 f : psum f 0 = 0.
Proof. done. Qed.

Lemma psum_snoc f n : 0 <= n -> psum f (n + 1) = psum f n + f n.
Proof. intros. unfold psum. by rewrite seqZ_snoc, foldl_app by lia. Qed.

Lemma psum_ext f g n : (forall i, 0 <= i < n -> f i = g i) -> psum f n = psum g n.
Proof.
  destruct (Z.le_gt_cases n 0) as [Hn|Hn].
  { intros _. unfold psum. by rewrite seqZ_nil by lia. }
  assert (0 <= n) as Hn' by lia. clear Hn. revert n Hn'.
  apply (natlike_ind (fun n => (forall i, 0 <= i < n -> f i = g i) -> psum f n = psum g n)); [done|].
  intros n Hn IH H. unfold Z.succ in *. rewrite !psum_snoc by done.
  rewrite IH by (intros; apply H; lia). rewrite H; lia.
Qed.

Lemma psum_cnt P n : 0 <= n -> psum (fun i => Z.b2z (P i)) n = cnt P n.
Proof.
  revert n. apply (natlike_ind (fun n => psum (fun i => Z.b2z (P i)) n = cnt P n)).
  - by rewrite cnt_0.
  - intros n Hn IH. unfold Z.succ. by rewrite psum_snoc, cnt_snoc, IH by done.
Qed.

Lemma psum_shift f m n :
  0 <= m -> 0 <= n -> psum f (m + n) = psum f m + psum (fun i => f (m + i)) n.
Proof.
  intros Hm Hn. revert n Hn.
  apply (natlike_ind (fun n => psum f (m + n) = psum f m + psum (fun i => f (m + i)) n)).
  - rewrite psum_0. by rewrite !Z.add_0_r.
  - intros n Hn IH. unfold Z.succ. rewrite Z.add_assoc, !psum_snoc by lia. lia.
Qed.

(** After the stage with offset [d / 2], a lane holds the sum of its last [d] values. *)
Definition windowed (f : Z -> Z) (d : Z) (regs : list Z) : Prop :=
  Z.of_nat (length regs) = WARP_SIZE /\
  forall lane, 0 <= lane < WARP_SIZE ->
    regs.[lane] = psum f (lane + 1) - psum f (Z.max 0 (lane + 1 - d)).

Lemma scan_step_windowed f d regs :
  0 < d -> windowed f d regs -> windowed f (2 * d) (scan_step d regs).
Proof.
  intros Hd [Hlen Hw]. split.
  { unfold scan_step. rewrite length_tab. done. }
  intros lane Hl. unfold scan_step. rewrite at_tab by done.
  destruct (Z.leb_spec d lane).
  - rewrite asc_shfl_up_lane by (done || lia). rewrite !Hw by lia.
    replace (Z.max 0 (lane + 1 - d)) with (lane - d + 1) by lia.
    replace (Z.max 0 (lane - d + 1 - d)) with (Z.max 0 (lane + 1 - 2 * d)) by lia. lia.
  - rewrite Hw by lia. do 2 f_equal. lia.
Qed.

Lemma warp_scan_length regs :
  Z.of_nat (length regs) = WARP_SIZE -> Z.of_nat (length (warp_scan regs)) = WARP_SIZE.
Proof. intros _. unfold warp_scan. rewrite run_shfl_loop_unfold. unfold scan_step at 1. by rewrite length_tab. Qed.

Lemma warp_scan_spec regs lane :
  Z.of_nat (length regs) = WARP_SIZE -> 0 <= lane < WARP_SIZE ->
  (warp_scan regs).[lane] = psum (fun i => regs.[i]) (lane + 1).
Proof.
  intros Hlen Hl. unfold warp_scan. rewrite run_shfl_loop_unfold.
  assert (H1 : windowed (fun i => regs.[i]) 1 regs).
  { split; [done|]. intros i Hi. rewrite psum_snoc by lia.
    replace (Z.max 0 (i + 1 - 1)) with i by lia. lia. }
  apply scan_step_windowed in H1; [|lia]. apply scan_step_windowed in H1; [|lia].
  apply scan_step_windowed in H1; [|lia]. apply scan_step_windowed in H1; [|lia].
  apply scan_step_windowed in H1; [|lia].
  destruct H1 as [_ H1]. rewrite H1 by done. unfold WARP_SIZE in Hl.
  replace (Z.max 0 (lane + 1 - _)) with 0 by lia. rewrite psum_0. lia.
Qed.

(** After the stage with offset [d / 2], a lane is non-zero iff one of its last [d]
    lanes was. *)
Definition any_window (f : Z -> Z) (d : Z) (regs : list Z) : Prop :=
  Z.of_nat (length regs) = WARP_SIZE /\
  forall lane, 0 <= lane < WARP_SIZE ->
    regs.[lane] <> 0 <-> exists i, 0 <= i <= lane /\ lane < i + d /\ f i <> 0.

Lemma any_step_window f d regs :
  0 < d -> any_window f d regs -> any_window f (2 * d) (any_step d regs).
Proof.
  intros Hd [Hlen Hw]. split.
  { unfold any_step. rewrite length_tab. done. }
  intros lane Hl. unfold any_step. rewrite at_tab by done.
  destruct (Z.leb_spec d lane) as [Hle|Hlt]; simpl; cycle 1.
  { rewrite Hw by done. split; intros (i & ? & ? & ?); exists i; split_and!; (done || lia). }
  rewrite asc_shfl_up_lane by (done || lia).
  destruct (Z.eqb_spec regs.[lane - d] 0) as [E|E]; simpl.
  - rewrite Hw by done. split; intros (i & ? & ? & Hi).
    + exists i. split_and!; (done || lia).
    + exists i. destruct (Z.le_gt_cases (i + d) lane); [|split_and!; (done || lia)].
      exfalso. apply (proj2 (Hw (lane - d) ltac:(lia))); [|done].
      exists i. split_and!; (done || lia).
  - split; [intros _|done]. apply Hw in E as (i & ? & ? & ?); [|lia].
    exists i. split_and!; (done || lia).
Qed.

Lemma warp_any_length regs :
  Z.of_nat (length regs) = WARP_SIZE -> Z.of_nat (length (warp_any regs)) = WARP_SIZE.
Proof. intros _. unfold warp_any. rewrite run_shfl_loop_unfold. unfold any_step at 1. by rewrite length_tab. Qed.

Lemma warp_any_last regs :
  Z.of_nat (length regs) = WARP_SIZE ->
  (warp_any regs).[31] <> 0 <-> exists i, 0 <= i < WARP_SIZE /\ regs.[i] <> 0.
Proof.
  intros Hlen. unfold warp_any. rewrite run_shfl_loop_unfold.
  assert (H1 : any_window (fun i => regs.[i]) 1 regs).
  { split; [done|]. intros i Hi. split.
    - intros H. exists i. split_and!; (done || lia).
    - intros (j & ? & ? & Hj). by replace i with j by lia. }
  apply any_step_window in H1; [|lia]. apply any_step_window in H1; [|lia].
  apply any_step_window in H1; [|lia]. apply any_step_window in H1; [|lia].
  apply any_step_window in H1; [|lia].
  destruct H1 as [_ H1]. rewrite H1 by (unfold WARP_SIZE; lia).
  unfold WARP_SIZE in *. split; intros (i & Hi); exists i; naive_solver lia.
Qed.
End scan.

(** ** A block of 32 warps *)
Definition THREADS_1024 : Z := 1024.
Definition lane_of (thread : Z) : Z := Z.land thread (WARP_SIZE - 1).
Definition warp_of (thread : Z) : Z := thread / WARP_SIZE.

Lemma lane_of_mod t : lane_of t = t mod 32.
Proof. unfold lane_of. change (WARP_SIZE - 1) with (Z.ones 5). by rewrite Z.land_ones by lia. Qed.

Lemma lane_warp t : 0 <= t < 1024 ->
  0 <= lane_of t < 32 /\ 0 <= warp_of t < 32 /\ t = warp_of t * 32 + lane_of t.
Proof.
  intros Ht. rewrite lane_of_mod. unfold warp_of, WARP_SIZE.
  pose proof (Z.mod_pos_bound t 32 ltac:(lia)). pose proof (Z.div_mod t 32 ltac:(lia)).
  split_and!; lia.
Qed.

Lemma at_bind_chunks (f : Z -> list Z) c n w l :
  0 < c -> (forall i, 0 <= i < n -> Z.of_nat (length (f i)) = c) ->
  0 <= w < n -> 0 <= l < c -> (seqZ 0 n ≫= f).[w * c + l] = (f w).[l].
Proof.
  intros Hc Hlen Hw Hl.
  assert (Hn : 0 <= n) by lia. revert n Hn Hlen Hw.
  apply (natlike_ind (fun n => (forall i, 0 <= i < n -> Z.of_nat (length (f i)) = c) ->
    0 <= w < n -> (seqZ 0 n ≫= f).[w * c + l] = (f w).[l])); [lia|].
  intros n Hn IH Hlen Hw. unfold Z.succ in *. rewrite seqZ_snoc, bind_app by done.
  assert (HL : Z.of_nat (length (seqZ 0 n ≫= f)) = n * c).
  { clear IH Hw. revert n Hn Hlen.
    apply (natlike_ind (fun n => (forall i, 0 <= i < n + 1 -> Z.of_nat (length (f i)) = c) ->
      Z.of_nat (length (seqZ 0 n ≫= f)) = n * c)); [done|].
    intros n Hn IH Hlen. unfold Z.succ in *. rewrite seqZ_snoc, bind_app, length_app by done.
    simpl. rewrite app_nil_r, Nat2Z.inj_add, IH by (intros; apply Hlen; lia).
    rewrite Hlen by lia. lia. }
  destruct (decide (w = n)) as [->|].
  - rewrite at_app_r by nia. simpl. rewrite app_nil_r. f_equal. lia.
  - rewrite at_app_l by nia. apply IH; [intros; apply Hlen; lia|lia].
Qed.

Section block.
Context {I : Intrinsics}.

(** The registers of warp [w]. *)
Definition warp_regs (regs : list Z) (w : Z) : list Z :=
  tab WARP_SIZE (fun lane => regs.[w * WARP_SIZE + lane]).
Definition per_warp (f : list Z -> list Z) (regs : list Z) : list Z :=
  seqZ 0 WARP_SIZE ≫= (fun w => f (warp_regs regs w)).

Lemma per_warp_at f regs t :
  (forall r, Z.of_nat (length r) = WARP_SIZE -> Z.of_nat (length (f r)) = WARP_SIZE) ->
  0 <= t < 1024 -> (per_warp f regs).[t] = (f (warp_regs regs (warp_of t))).[lane_of t].
Proof.
  intros Hf Ht. destruct (lane_warp t Ht) as (Hl & Hw & E). rewrite E at 1.
  unfold per_warp. change 32 with WARP_SIZE.
  apply at_bind_chunks; [done| |done|done].
  intros i Hi. apply Hf. unfold warp_regs. by rewrite length_tab.
Qed.

(** Within its warp, each thread holds the inclusive prefix sum. *)
Lemma warp_inclusive_at regs t :
  0 <= t < 1024 ->
  (per_warp warp_scan regs).[t] =
    psum (fun i => regs.[warp_of t * 32 + i]) (lane_of t + 1).
Proof.
  intros Ht. destruct (lane_warp t Ht) as (Hl & Hw & E).
  rewrite per_warp_at by (auto using warp_scan_length).
  rewrite warp_scan_spec by (done || (unfold warp_regs; by rewrite length_tab)).
  apply psum_ext. intros i Hi. unfold warp_regs. rewrite at_tab by (unfold WARP_SIZE; lia). done.
Qed.

(** Warp totals, warp bases: the two levels add up to the prefix sum of the block. *)
Lemma two_level_sum f w :
  0 <= w -> psum (fun v => psum (fun i => f (v * 32 + i)) 32) w = psum f (w * 32).
Proof.
  revert w. apply (natlike_ind (fun w =>
    psum (fun v => psum (fun i => f (v * 32 + i)) 32) w = psum f (w * 32))); [done|].
  intros w Hw IH. unfold Z.succ. rewrite psum_snoc, IH by done.
  replace ((w + 1) * 32) with (w * 32 + 32) by lia. by rewrite psum_shift by lia.
Qed.

Lemma block_inclusive f t :
  0 <= t < 1024 ->
  psum f (warp_of t * 32) + psum (fun i => f (warp_of t * 32 + i)) (lane_of t + 1) = psum f (t + 1).
Proof.
  intros Ht. destruct (lane_warp t Ht) as (Hl & Hw & E).
  rewrite <- psum_shift by lia. f_equal. lia.
Qed.

Lemma last_lane w : 0 <= w < 32 -> lane_of (w * 32 + 31) = 31 /\ warp_of (w * 32 + 31) = w.
Proof.
  intros Hw. rewrite lane_of_mod. unfold warp_of, WARP_SIZE. split.
  - rewrite Z.add_comm, Z.mod_add by lia. done.
  - rewrite Z.add_comm, Z.div_add by lia. done.
Qed.

(** The second level of the scan: totals per warp, exclusive bases. *)
Lemma warp_base (f : Z -> Z) (tot : list Z) w :
  Z.of_nat (length tot) = WARP_SIZE ->
  (forall v, 0 <= v < 32 -> tot.[v] = psum (fun i => f (v * 32 + i)) 32) ->
  0 <= w < 32 -> (warp_scan tot).[w] - tot.[w] = psum f (w * 32).
Proof.
  intros Hl Ht Hw. rewrite warp_scan_spec by (done || (unfold WARP_SIZE; lia)).
  rewrite psum_snoc, <- two_level_sum by lia.
  rewrite (psum_ext (fun i => tot.[i]) (fun v => psum (fun i => f (v * 32 + i)) 32)); [lia|].
  intros i Hi. apply Ht. lia.
Qed.

(** The warp total, in the register of the last lane. *)
Lemma warp_total_at regs w :
  0 <= w < 32 -> (per_warp warp_scan regs).[w * 32 + 31] = psum (fun i => regs.[w * 32 + i]) 32.
Proof.
  intros Hw. destruct (last_lane w Hw) as [El Ew].
  rewrite warp_inclusive_at by lia. by rewrite El, Ew.
Qed.
End block.
