(* ===== verification/LruGeneric.v ===== *)
(** * Generic SIMT LRU Compact

    Model of [src/src/acc_offload/csrc/operators/acc_offload_lru_compact_simt.cpp]: the
    device arrays, the five same-stream kernels of the phased implementation, the
    shape gate and the host launcher.  A kernel launched with one thread is its
    sequential body; a kernel launched with 128 threads is one parallel phase whose
    work items are the iterations of its strip-mined loops. *)
From S2P Require Import Prelude Simt LruSpec.

(** ** Device arrays (the pointer parameters of the kernels) *)
Inductive gm :=
  | REQ_IDS | LAST_REQ_IDS | TOPK_INDICES | STABLE_PREFIX_LENS | SLOT_TO_TOKEN | LRU_SLOTS
  | CURRENT_SLOTS | MISS_COUNT | MISS_TOKENS | MISS_SLOTS | TOKEN_MARK | TOKEN_POS | EPOCHS.

#[global] Instance gm_eq_dec : EqDecision gm.
Proof. solve_decision. Defined.

Record GM := mkGM {
  g_req_ids : list Z; g_last_req_ids : list Z; g_topk_indices : list Z;
  g_stable_prefix_lens : list Z; g_slot_to_token : list Z; g_lru_slots : list Z;
  g_current_slots : list Z; g_miss_count : list Z; g_miss_tokens : list Z;
  g_miss_slots : list Z; g_token_mark : list Z; g_token_pos : list Z; g_epochs : list Z;
}.

Definition gm_buf (b : gm) (m : GM) : list Z :=
  match b with
  | REQ_IDS => g_req_ids m | LAST_REQ_IDS => g_last_req_ids m
  | TOPK_INDICES => g_topk_indices m | STABLE_PREFIX_LENS => g_stable_prefix_lens m
  | SLOT_TO_TOKEN => g_slot_to_token m | LRU_SLOTS => g_lru_slots m
  | CURRENT_SLOTS => g_current_slots m | MISS_COUNT => g_miss_count m
  | MISS_TOKENS => g_miss_tokens m | MISS_SLOTS => g_miss_slots m
  | TOKEN_MARK => g_token_mark m | TOKEN_POS => g_token_pos m | EPOCHS => g_epochs m
  end.

Definition gm_set (b : gm) (l : list Z) (m : GM) : GM :=
  let '(mkGM a0 a1 a2 a3 a4 a5 a6 a7 a8 a9 a10 a11 a12) := m in
  match b with
  | REQ_IDS => mkGM l a1 a2 a3 a4 a5 a6 a7 a8 a9 a10 a11 a12
  | LAST_REQ_IDS => mkGM a0 l a2 a3 a4 a5 a6 a7 a8 a9 a10 a11 a12
  | TOPK_INDICES => mkGM a0 a1 l a3 a4 a5 a6 a7 a8 a9 a10 a11 a12
  | STABLE_PREFIX_LENS => mkGM a0 a1 a2 l a4 a5 a6 a7 a8 a9 a10 a11 a12
  | SLOT_TO_TOKEN => mkGM a0 a1 a2 a3 l a5 a6 a7 a8 a9 a10 a11 a12
  | LRU_SLOTS => mkGM a0 a1 a2 a3 a4 l a6 a7 a8 a9 a10 a11 a12
  | CURRENT_SLOTS => mkGM a0 a1 a2 a3 a4 a5 l a7 a8 a9 a10 a11 a12
  | MISS_COUNT => mkGM a0 a1 a2 a3 a4 a5 a6 l a8 a9 a10 a11 a12
  | MISS_TOKENS => mkGM a0 a1 a2 a3 a4 a5 a6 a7 l a9 a10 a11 a12
  | MISS_SLOTS => mkGM a0 a1 a2 a3 a4 a5 a6 a7 a8 l a10 a11 a12
  | TOKEN_MARK => mkGM a0 a1 a2 a3 a4 a5 a6 a7 a8 a9 l a11 a12
  | TOKEN_POS => mkGM a0 a1 a2 a3 a4 a5 a6 a7 a8 a9 a10 l a12
  | EPOCHS => mkGM a0 a1 a2 a3 a4 a5 a6 a7 a8 a9 a10 a11 l
  end.

#[global] Program Instance gm_memory : Memory gm GM :=
  {| buf := gm_buf; set_buf := gm_set |}.
Next Obligation. by intros [] l []. Qed.
Next Obligation. by intros [] [] l [] H. Qed.

Definition LRU_COMPACT_MAX_GRID_DIM : Z := 8.
Definition LRU_COMPACT_MAX_THREADS_PER_BLOCK : Z := 128.
Definition LRU_COMPACT_WORKSPACE_THREADS : Z := 8.
Definition LRU_EPOCH_RESET_THRESHOLD : Z := Z.shiftl 1 30.
Definition LRU_INVALID_TOKEN : Z := -1.

(** ** Kernels *)
Definition OffloadLruCompactResetPhasedSimtOps (row capacity : Z) (blockIdx threadIdx : Z)
  : M GM unit :=
  if negb (blockIdx =? 0) || negb (threadIdx =? 0) || (row <? 0) then mret tt else
  last_req ← ld LAST_REQ_IDS row;
  req ← ld REQ_IDS row;
  if last_req =? req then mret tt else
  let slot_base := row * capacity in
  for_ 0 capacity (fun slot =>
    st SLOT_TO_TOKEN (slot_base + slot) LRU_INVALID_TOKEN;;
    st LRU_SLOTS (slot_base + slot) (i32 slot));;
  req' ← ld REQ_IDS row;
  st LAST_REQ_IDS row req'.

(** Work items of the Prepare launch: a position of the first strip-mined loop, the
    counter store of thread 0, a slot of the second strip-mined loop. *)
Inductive prepare_item := PreparePos (pos : Z) | PrepareCount | PrepareSlot (slot : Z).

#[global] Instance prepare_item_eq_dec : EqDecision prepare_item.
Proof. solve_decision. Defined.

Definition prepare_item_body (row topk capacity max_token : Z) (item : prepare_item)
  : M GM unit :=
  let topk_base := row * topk in
  let slot_base := row * capacity in
  match item with
  | PreparePos pos =>
      st CURRENT_SLOTS (topk_base + pos) LRU_INVALID_TOKEN;;
      st MISS_TOKENS (topk_base + pos) LRU_INVALID_TOKEN;;
      st MISS_SLOTS (topk_base + pos) LRU_INVALID_TOKEN
  | PrepareCount => st MISS_COUNT row 0
  | PrepareSlot slot =>
      stable_prefix_len ← ld STABLE_PREFIX_LENS row;
      let stable_prefix_len :=
        if stable_prefix_len <? 0 then 0
        else if max_token <? stable_prefix_len then max_token
        else stable_prefix_len in
      token ← ld SLOT_TO_TOKEN (slot_base + slot);
      when ((0 <=? token) && (token <? max_token) && (stable_prefix_len <=? token))
        (st SLOT_TO_TOKEN (slot_base + slot) LRU_INVALID_TOKEN)
  end.

Definition prepare_items (blockDim topk capacity : Z) : list prepare_item :=
  (PreparePos <$> strip_items blockDim topk) ++ [PrepareCount] ++
  (PrepareSlot <$> strip_items blockDim capacity).

(** The ordering thread, loop by loop: [mark], [pos_] are the offsets of this row's
    workspace slices, [epoch] the index of its epoch cell. *)
Definition plan_epoch (mark pos_ epoch max_token : Z) : M GM Z :=
  previous_epoch ← ld EPOCHS epoch;
  current_epoch ←
    (if (-1 <=? previous_epoch) || (previous_epoch <=? 1 - LRU_EPOCH_RESET_THRESHOLD) then
       for_ 0 max_token (fun token =>
         st TOKEN_MARK (mark + token) 0;;
         st TOKEN_POS (pos_ + token) LRU_INVALID_TOKEN);;
       mret (-2)
     else mret (previous_epoch - 1));
  st EPOCHS epoch current_epoch;;
  mret current_epoch.

Definition plan_mark (mark pos_ current_epoch row topk max_token : Z) : M GM unit :=
  let topk_base := row * topk in
  for_ 0 topk (fun pos =>
    token ← ld TOPK_INDICES (topk_base + pos);
    if (0 <=? token) && (token <? max_token) then
      m ← ld TOKEN_MARK (mark + token);
      when (negb (m =? current_epoch))
        (st TOKEN_MARK (mark + token) current_epoch;;
         st TOKEN_POS (pos_ + token) (i32 pos))
    else mret tt).

Definition plan_encode (mark pos_ current_epoch row topk capacity max_token : Z) : M GM unit :=
  let topk_base := row * topk in
  let slot_base := row * capacity in
  for_ 0 capacity (fun order =>
    slot ← ld LRU_SLOTS (slot_base + order);
    if (slot <? 0) || (capacity <=? slot) then
      st LRU_SLOTS (slot_base + order) LRU_INVALID_TOKEN
    else
      token ← ld SLOT_TO_TOKEN (slot_base + slot);
      hit ← (if (0 <=? token) && (token <? max_token) then
               m ← ld TOKEN_MARK (mark + token); mret (m =? current_epoch)
             else mret false);
      if hit : bool then
        pos ← ld TOKEN_POS (pos_ + token);
        st CURRENT_SLOTS (topk_base + pos) slot;;
        st LRU_SLOTS (slot_base + order) (- slot - 2)
      else st LRU_SLOTS (slot_base + order) slot).

Definition plan_compact (mark row capacity max_token : Z) : M GM (Z * Z) :=
  let slot_base := row * capacity in
  for_range 0 capacity (fun order '(evictable_count, hit_count) =>
    encoded ← ld LRU_SLOTS (slot_base + order);
    if encoded <=? -2 then
      let slot := - encoded - 2 in
      st TOKEN_MARK (mark + (max_token - 1 - hit_count)) slot;;
      mret (evictable_count, hit_count + 1)
    else if (0 <=? encoded) && (encoded <? capacity) then
      st TOKEN_MARK (mark + evictable_count) encoded;;
      mret (evictable_count + 1, hit_count)
    else mret (evictable_count, hit_count)) (0, 0).

Definition plan_misses (pos_ row topk max_token : Z) : M GM Z :=
  let topk_base := row * topk in
  for_range 0 topk (fun pos local_miss_count =>
    token ← ld TOPK_INDICES (topk_base + pos);
    if (0 <=? token) && (token <? max_token) then
      cur ← ld CURRENT_SLOTS (topk_base + pos);
      if cur <? 0 then
        st MISS_TOKENS (topk_base + local_miss_count) token;;
        st TOKEN_POS (pos_ + local_miss_count) (i32 pos);;
        mret (local_miss_count + 1)
      else mret local_miss_count
    else mret local_miss_count) 0.

Definition OffloadLruCompactSimtOps (mark pos_ epoch : Z) (row topk capacity max_token : Z)
    (blockIdx threadIdx : Z) : M GM unit :=
  if negb (blockIdx =? 0) || negb (threadIdx =? 0) then mret tt else
  current_epoch ← plan_epoch mark pos_ epoch max_token;
  plan_mark mark pos_ current_epoch row topk max_token;;
  plan_encode mark pos_ current_epoch row topk capacity max_token;;
  counts ← plan_compact mark row capacity max_token;
  let '(evictable_count, hit_count) := counts in
  local_miss_count ← plan_misses pos_ row topk max_token;
  let assign_count :=
    if local_miss_count <? evictable_count then local_miss_count else evictable_count in
  st MISS_COUNT row assign_count;;
  st TOKEN_POS (pos_ + (max_token - 2)) evictable_count;;
  st TOKEN_POS (pos_ + (max_token - 1)) hit_count.

Definition assign_item (mark pos_ : Z) (row topk capacity : Z) (miss_idx : Z) : M GM unit :=
  let topk_base := row * topk in
  slot ← ld TOKEN_MARK (mark + miss_idx);
  token ← ld MISS_TOKENS (topk_base + miss_idx);
  pos ← ld TOKEN_POS (pos_ + miss_idx);
  when ((0 <=? slot) && (slot <? capacity) && (0 <=? pos) && (pos <? topk))
    (st SLOT_TO_TOKEN (row * capacity + slot) token;;
     st CURRENT_SLOTS (topk_base + pos) slot;;
     st MISS_SLOTS (topk_base + miss_idx) slot).

Definition rebuild_item (mark pos_ : Z) (row topk capacity max_token : Z) (output : Z)
  : M GM unit :=
  assign_count ← ld MISS_COUNT row;
  evictable_count ← ld TOKEN_POS (pos_ + (max_token - 2));
  hit_count ← ld TOKEN_POS (pos_ + (max_token - 1));
  let unassigned_count := evictable_count - assign_count in
  let valid_count := evictable_count + hit_count in
  let slot_base := row * capacity in
  let topk_base := row * topk in
  slot ←
    (if output <? unassigned_count then ld TOKEN_MARK (mark + (assign_count + output))
     else if output <? evictable_count then ld MISS_SLOTS (topk_base + output - unassigned_count)
     else if output <? valid_count then
       let hit_idx := i32 output - evictable_count in
       ld TOKEN_MARK (mark + (max_token - 1 - hit_idx))
     else mret LRU_INVALID_TOKEN);
  st LRU_SLOTS (slot_base + output) slot.

(** ** Host side *)
Definition CanUseProductionPhasedLru (num_reqs topk capacity max_token : Z) : bool :=
  (0 <? num_reqs) && (0 <? topk) && (0 <? capacity) && (3 <=? max_token) &&
  (capacity <=? max_token) && (topk <=? max_token - 2) &&
  (topk <? INT32_MAX) && (capacity <? INT32_MAX) && (max_token <=? INT32_MAX) &&
  (num_reqs <=? INT64_MAX / topk) && (num_reqs <=? INT64_MAX / capacity) &&
  (max_token <=? INT64_MAX / LRU_COMPACT_WORKSPACE_THREADS).

Section host.
Context {Sch : Scheduler}.

(** The multi-threaded kernels, launched as one block of [blockDim] threads. *)
Definition OffloadLruCompactPreparePhasedSimtOps (blockDim row topk capacity max_token : Z)
  : M GM unit :=
  par [row; 0] (prepare_items blockDim topk capacity)
    (prepare_item_body row topk capacity max_token).

Definition OffloadLruCompactAssignPhasedSimtOps (blockDim mark pos_ row topk capacity : Z)
  : M GM unit :=
  assign_count ← ld MISS_COUNT row;
  par [row; 1] (strip_items blockDim assign_count) (assign_item mark pos_ row topk capacity).

Definition OffloadLruCompactRebuildPhasedSimtOps
    (blockDim mark pos_ row topk capacity max_token : Z) : M GM unit :=
  par [row; 2] (strip_items blockDim capacity)
    (rebuild_item mark pos_ row topk capacity max_token).

(** The five kernels of one row, in stream order. *)
Definition phased_row (row topk capacity max_token : Z) : M GM unit :=
  let workspace_index := row mod LRU_COMPACT_WORKSPACE_THREADS in
  let mark_row := workspace_index * max_token in
  let pos_row := workspace_index * max_token in
  let epoch := workspace_index in
  let threads := LRU_COMPACT_MAX_THREADS_PER_BLOCK in
  OffloadLruCompactResetPhasedSimtOps row capacity 0 0;;
  OffloadLruCompactPreparePhasedSimtOps threads row topk capacity max_token;;
  OffloadLruCompactSimtOps mark_row pos_row epoch row topk capacity max_token 0 0;;
  OffloadLruCompactAssignPhasedSimtOps threads mark_row pos_row row topk capacity;;
  OffloadLruCompactRebuildPhasedSimtOps threads mark_row pos_row row topk capacity max_token.

Definition LaunchProductionPhasedLru (num_reqs topk capacity max_token : Z) : M GM unit :=
  for_ 0 num_reqs (fun row => phased_row row topk capacity max_token).
End host.
