(* ===== verification/LruGenericProof.v ===== *)
(** * The generic SIMT kernels refine [compact] *)
From S2P Require Import Prelude Simt LruSpec LruGeneric.

Section row.
Context (row K cap T ws : Z).
Let tb := row * K.
Let sb := row * cap.
Let wb := ws * T.

(** The arrays are large enough for this row and its workspace slice. *)
Definition row_fits (s : GM) : Prop :=
  (0 <= row /\ 0 < K /\ 0 < cap /\ 0 <= ws) /\
  (row < len REQ_IDS s /\ row < len LAST_REQ_IDS s /\ row < len STABLE_PREFIX_LENS s /\
   row < len MISS_COUNT s /\ ws < len EPOCHS s) /\
  (tb + K <= len TOPK_INDICES s /\ tb + K <= len CURRENT_SLOTS s /\
   tb + K <= len MISS_TOKENS s /\ tb + K <= len MISS_SLOTS s) /\
  (sb + cap <= len SLOT_TO_TOKEN s /\ sb + cap <= len LRU_SLOTS s) /\
  (wb + T <= len TOKEN_MARK s /\ wb + T <= len TOKEN_POS s) /\
  (0 <= tb /\ 0 <= sb /\ 0 <= wb) /\
  (cap <= T /\ K <= T - 2 /\ T <= INT32_MAX /\ cap < INT32_MAX).

Lemma row_fits_writes W s s' : writes_only W s s' -> row_fits s -> row_fits s'.
Proof. intros H. unfold row_fits. lens. done. Qed.

Local Ltac fits H := unfold row_fits, INT32_MAX in H.

(** *** Reset *)
Definition reset_cells (b : gm) (j : Z) : Prop :=
  match b with
  | SLOT_TO_TOKEN | LRU_SLOTS => sb <= j < sb + cap
  | LAST_REQ_IDS => j = row
  | _ => False
  end.

Lemma reset_spec s :
  row_fits s ->
  wp (OffloadLruCompactResetPhasedSimtOps row cap 0 0) (fun _ s' =>
    writes_only reset_cells s s' /\
    val LAST_REQ_IDS row s' = val REQ_IDS row s /\
    (forall j, 0 <= j < cap ->
       val SLOT_TO_TOKEN (sb + j) s' =
         (if val LAST_REQ_IDS row s =? val REQ_IDS row s
          then val SLOT_TO_TOKEN (sb + j) s else -1) /\
       val LRU_SLOTS (sb + j) s' =
         (if val LAST_REQ_IDS row s =? val REQ_IDS row s
          then val LRU_SLOTS (sb + j) s else j))) s.
Proof.
  intros Hfit. unfold OffloadLruCompactResetPhasedSimtOps.
  pose proof Hfit as Hf. unfold row_fits, INT32_MAX in Hf.
  replace (row <? 0) with false by lia. simpl.
  wp_step. wp_step; [side|]. wp_step. wp_step; [side|].
  wp_step.
  { wp_step. split_and!; [apply writes_only_refl|lia|]. done. }
  wp_step.
  apply (wp_for_ _ _ _ (fun k s' => writes_only reset_cells s s' /\
    (forall j, 0 <= j < k -> val SLOT_TO_TOKEN (sb + j) s' = -1 /\
                             val LRU_SLOTS (sb + j) s' = j))); [lia| | |].
  - split; [apply writes_only_refl|lia].
  - intros k s1 Hk [HW Hv]. fold sb.
    wp_step. wp_step; [side|]. wp_step; [side|]. split.
    + repeat (apply writes_only_upd; [|lia|simpl; lia]). done.
    + intros j Hj. destruct (decide (j = k)) as [->|].
      * reads. rewrite i32_small by (unfold INT32_MAX; lia). done.
      * reads. apply Hv. lia.
  - intros s1 [HW Hv]. wp_step. wp_step; [side|].
    rewrite (writes_only_val _ _ _ REQ_IDS row HW) by (simpl; lia).
    wp_step; [side|]. split_and!.
    + apply writes_only_upd; [done|lia|done].
    + reads; lia.
    + intros j Hj. reads. by apply Hv.
Qed.

(** *** Prepare *)
Definition prepare_cells (b : gm) (j : Z) : Prop :=
  match b with
  | SLOT_TO_TOKEN => sb <= j < sb + cap
  | CURRENT_SLOTS | MISS_TOKENS | MISS_SLOTS => tb <= j < tb + K
  | MISS_COUNT => j = row
  | _ => False
  end.

Lemma NoDup_prepare_items n : 0 < n -> NoDup (prepare_items n K cap).
Proof.
  intros Hn. unfold prepare_items. apply NoDup_app. split_and!.
  - apply NoDup_fmap_2; [by intros ?? [=]|by apply NoDup_strip_items].
  - intros x Hx. apply list_elem_of_fmap in Hx as (p & -> & _).
    rewrite elem_of_app, list_elem_of_singleton, list_elem_of_fmap. naive_solver.
  - apply NoDup_app. split_and!; [apply NoDup_singleton| |].
    + intros x Hx. apply list_elem_of_singleton in Hx as ->.
      rewrite list_elem_of_fmap. naive_solver.
    + apply NoDup_fmap_2; [by intros ?? [=]|by apply NoDup_strip_items].
Qed.

Lemma elem_of_prepare_items n it :
  0 < n ->
  it ∈ prepare_items n K cap <->
  match it with
  | PreparePos p => 0 <= p < K
  | PrepareCount => True
  | PrepareSlot j => 0 <= j < cap
  end.
Proof.
  intros Hn. unfold prepare_items.
  rewrite !elem_of_app, list_elem_of_singleton, !list_elem_of_fmap.
  destruct it; setoid_rewrite elem_of_strip_items; [naive_solver..].
Qed.

Context {Sch : Scheduler}.

Definition prepare_inv (s : GM) (ds : list prepare_item) (s' : GM) : Prop :=
  writes_only prepare_cells s s' /\
  (forall p, PreparePos p ∈ ds ->
     val CURRENT_SLOTS (tb + p) s' = -1 /\ val MISS_TOKENS (tb + p) s' = -1 /\
     val MISS_SLOTS (tb + p) s' = -1) /\
  (PrepareCount ∈ ds -> val MISS_COUNT row s' = 0) /\
  (forall j, 0 <= j < cap -> val SLOT_TO_TOKEN (sb + j) s' =
     if decide (PrepareSlot j ∈ ds)
     then invalidate T (clamp_prefix T (val STABLE_PREFIX_LENS row s))
            (val SLOT_TO_TOKEN (sb + j) s)
     else val SLOT_TO_TOKEN (sb + j) s).

Lemma prepare_step s ds it s' :
  row_fits s -> it ∈ prepare_items 128 K cap -> it ∉ ds -> ds ⊆ prepare_items 128 K cap ->
  prepare_inv s ds s' ->
  wp (prepare_item_body row K cap T it) (fun _ => prepare_inv s (it :: ds)) s'.
Proof.
  intros Hf Hit Hds Hsub (HW & Hp & Hc & Hs). fits Hf.
  rewrite elem_of_prepare_items in Hit by lia.
  assert (Hpos : forall p, PreparePos p ∈ ds -> 0 <= p < K).
  { intros p Hin. apply Hsub in Hin. by rewrite elem_of_prepare_items in Hin by lia. }
  destruct it as [p| |j]; simpl; fold tb sb.
  - wp_step. wp_step; [side|]. wp_step. wp_step; [side|]. wp_step; [side|].
    split_and!.
    + repeat (apply writes_only_upd; [|lia|simpl; lia]). done.
    + intros q [[= ->]|Hq]%elem_of_cons; [by reads|].
      specialize (Hpos q Hq). assert (q <> p) by (intros ->; done). reads. auto.
    + intros [|]%elem_of_cons; [done|]. reads. auto.
    + intros j Hj. reads. rewrite Hs by done. apply decide_ext. set_solver.
  - wp_step; [side|]. split_and!.
    + apply writes_only_upd; [done|lia|done].
    + intros q [|Hq]%elem_of_cons; [done|]. reads. auto.
    + intros _. reads; lia.
    + intros j Hj. reads. rewrite Hs by done. apply decide_ext. set_solver.
  - wp_step. wp_step; [side|]. rewrite (writes_only_val _ _ _ _ _ HW) by (simpl; lia).
    fold (clamp_prefix T (val STABLE_PREFIX_LENS row s)).
    wp_step. wp_step; [side|]. rewrite Hs, decide_False by done.
    fold (valid_tok T (val SLOT_TO_TOKEN (sb + j) s)).
    assert (HS : forall s1, writes_only prepare_cells s s1 ->
      (forall b i, b <> SLOT_TO_TOKEN -> val b i s1 = val b i s') ->
      (forall i, 0 <= i < cap -> i <> j -> val SLOT_TO_TOKEN (sb + i) s1 = val SLOT_TO_TOKEN (sb + i) s') ->
      val SLOT_TO_TOKEN (sb + j) s1 =
        invalidate T (clamp_prefix T (val STABLE_PREFIX_LENS row s)) (val SLOT_TO_TOKEN (sb + j) s) ->
      prepare_inv s (PrepareSlot j :: ds) s1).
    { intros s1 HW1 Hb Hi Hj. split_and!; [done| | |].
      - intros q [|Hq]%elem_of_cons; [done|]. rewrite !Hb by done. auto.
      - intros [|]%elem_of_cons; [done|]. rewrite Hb by done. auto.
      - intros i Hi'. destruct (decide (i = j)) as [->|Hne].
        + rewrite decide_True by (by left). done.
        + rewrite Hi, Hs by done. apply decide_ext. set_solver. }
    wp_step; [wp_step; [side|]|]; apply HS.
    + apply writes_only_upd; [done|lia|simpl; lia].
    + intros b i Hb. by rewrite val_upd_other by congruence.
    + intros i Hi Hne. by reads.
    + reads. unfold invalidate. by rewrite H.
    + done.
    + done.
    + done.
    + rewrite Hs, decide_False by done. unfold invalidate. by rewrite H.
Qed.

Lemma prepare_spec s :
  row_fits s ->
  wp (OffloadLruCompactPreparePhasedSimtOps 128 row K cap T) (fun _ s' =>
    writes_only prepare_cells s s' /\
    (forall p, 0 <= p < K -> val CURRENT_SLOTS (tb + p) s' = -1 /\
       val MISS_TOKENS (tb + p) s' = -1 /\ val MISS_SLOTS (tb + p) s' = -1) /\
    (forall j, 0 <= j < cap -> val SLOT_TO_TOKEN (sb + j) s' =
       invalidate T (clamp_prefix T (val STABLE_PREFIX_LENS row s))
         (val SLOT_TO_TOKEN (sb + j) s))) s.
Proof.
  intros Hf. unfold OffloadLruCompactPreparePhasedSimtOps.
  apply (wp_par _ _ _ (prepare_inv s)).
  - by apply NoDup_prepare_items.
  - split_and!; [apply writes_only_refl|set_solver..|].
    intros j Hj. by rewrite decide_False by set_solver.
  - intros ds it s1 Hit Hds Hsub HI. by apply prepare_step.
  - intros ds s1 Hall (HW & Hp & _ & Hs). split_and!; [done| |].
    + intros p Hp'. apply Hp, Hall, elem_of_prepare_items; done.
    + intros j Hj. rewrite Hs, decide_True by (try done; by apply Hall, elem_of_prepare_items). done.
Qed.

(** *** The ordering thread *)

(** What the epoch cell promises about its mark slice: either the next call resets
    the slice, or no mark is below the recorded epoch. *)
Definition epoch_ok (s : GM) : Prop :=
  let e := val EPOCHS ws s in
  -1 <= e \/ e <= 1 - LRU_EPOCH_RESET_THRESHOLD \/
  (forall t, 0 <= t < T -> e <= val TOKEN_MARK (wb + t) s).

Definition epoch_cells (b : gm) (j : Z) : Prop :=
  match b with
  | TOKEN_MARK | TOKEN_POS => wb <= j < wb + T
  | EPOCHS => j = ws
  | _ => False
  end.

Lemma plan_epoch_spec s :
  row_fits s -> epoch_ok s ->
  wp (plan_epoch wb wb ws T) (fun e s' =>
    writes_only epoch_cells s s' /\ - LRU_EPOCH_RESET_THRESHOLD < e <= -2 /\
    val EPOCHS ws s' = e /\ (forall t, 0 <= t < T -> e < val TOKEN_MARK (wb + t) s')) s.
Proof.
  intros Hf He. fits Hf. unfold epoch_ok in He. unfold plan_epoch.
  change LRU_EPOCH_RESET_THRESHOLD with 1073741824 in *.
  wp_step. wp_step; [side|]. wp_step. wp_step.
  - wp_step.
    apply (wp_for_ _ _ _ (fun k s' => writes_only epoch_cells s s' /\
      (forall t, 0 <= t < k -> val TOKEN_MARK (wb + t) s' = 0))); [lia| | |].
    + split; [apply writes_only_refl|lia].
    + intros k s1 Hk [HW Hv]. wp_step. wp_step; [side|]. wp_step; [side|]. split.
      * repeat (apply writes_only_upd; [|lia|simpl; lia]). done.
      * intros t Ht. reads; [done|]. apply Hv. lia.
    + intros s1 [HW Hv]. wp_step. wp_step. wp_step; [side|]. wp_step. split_and!; [|lia..| |].
      * apply writes_only_upd; [done|lia|done].
      * by reads.
      * intros t Ht. reads. rewrite Hv; lia.
  - wp_step. wp_step. wp_step; [side|]. wp_step. split_and!; [|lia..| |].
    + apply writes_only_upd; [apply writes_only_refl|lia|done].
    + by reads.
    + intros t Ht. reads. destruct He as [He|[He|He]]; [lia..|]. specialize (He t Ht). lia.
Qed.

Section plan.
Context (topk s2t lru : list Z).
Context (Htopk : Z.of_nat (length topk) = K).

(** The mark table after the first [k] positions: a marked token points to its
    first position. *)
Definition mark_table (e k : Z) (s : GM) : Prop := forall t, 0 <= t < T ->
  let p := val TOKEN_POS (wb + t) s in
  (val TOKEN_MARK (wb + t) s = e /\ 0 <= p < k /\ topk.[p] = t /\
   (forall i, 0 <= i < p -> topk.[i] <> t)) \/
  (e < val TOKEN_MARK (wb + t) s /\ (forall i, 0 <= i < k -> topk.[i] <> t)).

Definition mark_cells (b : gm) (j : Z) : Prop :=
  match b with
  | TOKEN_MARK | TOKEN_POS => wb <= j < wb + T
  | _ => False
  end.

Lemma mark_table_skip e k s :
  mark_table e k s -> valid_tok T topk.[k] = false -> mark_table e (k + 1) s.
Proof.
  intros Hm Hv t Ht. destruct (Hm t Ht) as [(? & ? & ? & ?)|(? & Hi)]; [left; naive_solver lia|].
  right. split; [done|]. intros i Hi'. destruct (decide (i = k)) as [->|]; [|apply Hi; lia].
  unfold valid_tok in Hv. lia.
Qed.

Lemma mark_table_dup e k s :
  mark_table e k s -> 0 <= topk.[k] < T -> val TOKEN_MARK (wb + topk.[k]) s = e ->
  mark_table e (k + 1) s.
Proof.
  intros Hm Hk He t Ht. destruct (Hm t Ht) as [(? & ? & ? & ?)|(? & Hi)]; [left; naive_solver lia|].
  right. split; [done|]. intros i Hi'. destruct (decide (i = k)) as [->|]; [|apply Hi; lia].
  intros <-. lia.
Qed.

Lemma plan_mark_spec e s :
  row_fits s ->
  (forall i, 0 <= i < K -> val TOPK_INDICES (tb + i) s = topk.[i]) ->
  (forall t, 0 <= t < T -> e < val TOKEN_MARK (wb + t) s) ->
  wp (plan_mark wb wb e row K T)
     (fun _ s' => writes_only mark_cells s s' /\ mark_table e K s') s.
Proof.
  intros Hf Htk He. fits Hf. unfold plan_mark. fold tb.
  apply (wp_for_ _ _ _ (fun k s' => writes_only mark_cells s s' /\ mark_table e k s'));
    [lia| | |by auto].
  - split; [apply writes_only_refl|]. intros t Ht. right. split; [auto|lia].
  - intros k s1 Hk [HW Hm]. wp_step. wp_step; [side|].
    rewrite (writes_only_val _ _ _ _ _ HW), Htk by (simpl; lia).
    wp_step.
    2: { wp_step. split; [done|]. by apply mark_table_skip. }
    wp_step. wp_step; [side|]. wp_step.
    2: { split; [done|]. apply mark_table_dup; [done|lia|lia]. }
    wp_step. wp_step; [side|]. wp_step; [side|]. split.
    { repeat (apply writes_only_upd; [|lia|simpl; lia]). done. }
    rewrite i32_small by (unfold INT32_MAX; lia).
    intros t Ht. cbv zeta. destruct (decide (t = topk.[k])) as [->|].
    + left. reads. split_and!; [done|lia|lia|done|].
      intros i Hi. destruct (Hm topk.[k] Ht) as [(Q & _)|(_ & Hi')]; [lia|].
      apply Hi'. lia.
    + reads. destruct (Hm t Ht) as [(? & ? & ? & ?)|(? & Hi)]; [left; naive_solver lia|].
      right. split; [done|]. intros i Hi'.
      destruct (decide (i = k)) as [->|]; [done|apply Hi; lia].
Qed.

Local Abbreviation ev := (evictable_at cap T topk s2t lru).
Local Abbreviation ht := (hit_at cap T topk s2t lru).
Local Abbreviation ms := (miss_at cap T topk s2t lru).

Definition encode_cells (b : gm) (j : Z) : Prop :=
  match b with
  | LRU_SLOTS => sb <= j < sb + cap
  | CURRENT_SLOTS => tb <= j < tb + K
  | _ => False
  end.

Definition encode_inv (s : GM) (k : Z) (s' : GM) : Prop :=
  writes_only encode_cells s s' /\
  (forall o, 0 <= o < cap ->
     val LRU_SLOTS (sb + o) s' = if o <? k then encoded cap T topk s2t lru o else lru.[o]) /\
  (forall p, 0 <= p < K ->
     val CURRENT_SLOTS (tb + p) s' = hit_slot_upto cap T topk s2t lru k p).

(** A hit: the token is marked, and the table points to its first position. *)
Lemma mark_table_hit e s t :
  mark_table e K s -> 0 <= t < T ->
  (val TOKEN_MARK (wb + t) s =? e) = bool_decide (t ∈ topk).
Proof.
  intros Hm Ht. destruct (Hm t Ht) as [(He & Hp & Et & _)|(He & Hno)].
  - rewrite bool_decide_eq_true_2; [lia|]. apply elem_of_at.
    exists (val TOKEN_POS (wb + t) s). split; [lia|done].
  - rewrite bool_decide_eq_false_2; [lia|]. rewrite elem_of_at.
    intros (i & Hi & Ei). apply (Hno i); [lia|done].
Qed.

Lemma encode_step_cur k p q s1 :
  0 <= k -> 0 <= p < K -> 0 <= q < K ->
  valid_slot cap lru.[k] = true -> valid_tok T s2t.[lru.[k]] = true ->
  topk.[q] = s2t.[lru.[k]] -> (forall i, 0 <= i < q -> topk.[i] <> s2t.[lru.[k]]) ->
  val CURRENT_SLOTS (tb + p) s1 =
    (if decide (q = p) then lru.[k] else hit_slot_upto cap T topk s2t lru k p) ->
  val CURRENT_SLOTS (tb + p) s1 = hit_slot_upto cap T topk s2t lru (k + 1) p.
Proof.
  intros Hk Hp Hq Hv Ht Eq Hfirst ->. rewrite hit_slot_upto_snoc by done.
  case_decide as E.
  - subst q. rewrite Eq, Ht, Hv, Z.eqb_refl.
    assert (first_pos topk p = true) as ->; [|done].
    apply first_pos_spec; [lia|]. intros i Hi. rewrite Eq. auto.
  - destruct (valid_tok T topk.[p] && first_pos topk p && _) eqn:Hc; [|done].
    exfalso. apply E.
    assert (Hf : first_pos topk p = true) by lia.
    assert (Ep : s2t.[lru.[k]] = topk.[p]) by lia.
    pose proof (proj1 (first_pos_spec topk p ltac:(lia)) Hf) as Hf'.
    destruct (Z.lt_total q p) as [?|[?|?]]; [|done|].
    + exfalso. apply (Hf' q); [lia|congruence].
    + exfalso. apply (Hfirst p); [lia|congruence].
Qed.

Lemma encode_step_skip k p :
  0 <= k -> 0 <= p < K ->
  (valid_slot cap lru.[k] = true -> valid_tok T s2t.[lru.[k]] = true ->
   s2t.[lru.[k]] ∈ topk -> False) ->
  hit_slot_upto cap T topk s2t lru (k + 1) p = hit_slot_upto cap T topk s2t lru k p.
Proof.
  intros Hk Hp Hno. rewrite hit_slot_upto_snoc by done.
  destruct (valid_tok T topk.[p] && first_pos topk p && _) eqn:Hc; [|done].
  exfalso. assert (Ep : s2t.[lru.[k]] = topk.[p]) by lia.
  apply Hno; [lia|rewrite Ep; lia|]. rewrite Ep. apply elem_of_at_2. lia.
Qed.

Lemma plan_encode_spec e s :
  row_fits s -> mark_table e K s ->
  (forall o, 0 <= o < cap -> val LRU_SLOTS (sb + o) s = lru.[o]) ->
  (forall j, 0 <= j < cap -> val SLOT_TO_TOKEN (sb + j) s = s2t.[j]) ->
  (forall p, 0 <= p < K -> val CURRENT_SLOTS (tb + p) s = -1) ->
  wp (plan_encode wb wb e row K cap T) (fun _ => encode_inv s cap) s.
Proof.
  intros Hf Hm Hl Hs Hc. fits Hf. unfold plan_encode. fold tb sb.
  apply (wp_for_ _ _ _ (encode_inv s)); [lia| | |by auto].
  { split_and!; [apply writes_only_refl| |].
    - intros o Ho. replace (o <? 0) with false by lia. auto.
    - intros p Hp. rewrite hit_slot_upto_0. auto. }
  intros k s1 Hk (HW & HL & HC). wp_step. wp_step; [side|].
  rewrite HL by lia. replace (k <? k) with false by lia.
  assert (HL' : forall v s2, v = encoded cap T topk s2t lru k ->
    (forall o, 0 <= o < cap -> val LRU_SLOTS (sb + o) s2 =
       if decide (k = o) then v else val LRU_SLOTS (sb + o) s1) ->
    forall o, 0 <= o < cap ->
      val LRU_SLOTS (sb + o) s2 = if o <? k + 1 then encoded cap T topk s2t lru o else lru.[o]).
  { intros v s2 -> Hv o Ho. rewrite Hv by done. case_decide as E.
    - subst. replace (o <? o + 1) with true by lia. done.
    - rewrite HL by done. replace (o <? k + 1) with (o <? k) by lia. done. }
  assert (HLst : forall v o, 0 <= o < cap ->
    val LRU_SLOTS (sb + o) (upd LRU_SLOTS (sb + k) v s1) =
      if decide (k = o) then v else val LRU_SLOTS (sb + o) s1).
  { intros v o Ho. rewrite val_upd by (lens; lia).
    apply decide_ext. lia. }
  fold (valid_slot cap lru.[k]).
  wp_step.
  { wp_step; [side|]. split_and!.
    - apply writes_only_upd; [done|lia|simpl; lia].
    - apply (HL' (-1)); [|by apply HLst]. unfold encoded, valid_slot.
      replace ((0 <=? lru.[k]) && (lru.[k] <? cap)) with false by lia. done.
    - intros p Hp. reads. rewrite HC by done. symmetry. apply encode_step_skip; [lia|done|].
      unfold valid_slot. lia. }
  assert (Hvs : valid_slot cap lru.[k] = true) by (unfold valid_slot; lia).
  wp_step. wp_step; [side|].
  rewrite (writes_only_val _ _ _ _ _ HW), Hs by (simpl; lia).
  fold (valid_tok T s2t.[lru.[k]]).
  assert (Hhit : ht k = valid_tok T s2t.[lru.[k]] && bool_decide (s2t.[lru.[k]] ∈ topk)).
  { unfold hit_at, is_hit. by rewrite Hvs. }
  wp_step.
  apply (wp_mono _ (fun b s2 => b = ht k /\ s2 = s1)).
  { wp_step.
    - wp_step. wp_step; [unfold valid_tok in *; side|]. wp_step. split; [|done].
      rewrite (writes_only_val _ _ _ _ _ HW) by (simpl; unfold valid_tok in *; lia).
      rewrite mark_table_hit by (unfold valid_tok in *; done || lia). by rewrite Hhit.
    - wp_step. by rewrite Hhit. }
  intros b s2 [-> ->]. wp_step.
  - assert (Ht : 0 <= s2t.[lru.[k]] < T) by (unfold valid_tok in *; lia).
    wp_step. wp_step; [side|].
    rewrite (writes_only_val _ _ _ _ _ HW) by (simpl; lia).
    destruct (Hm _ Ht) as [(_ & Hp & Et & Hfst)|(_ & Hno)]; cycle 1.
    { exfalso. assert (Hin : s2t.[lru.[k]] ∈ topk) by (eapply bool_decide_eq_true_1; lia).
      apply elem_of_at in Hin as (i & Hi & Ei). apply (Hno i); [lia|done]. }
    set (q := val TOKEN_POS (wb + s2t.[lru.[k]]) s) in *.
    wp_step. wp_step; [side|]. wp_step; [side|]. split_and!.
    + repeat (apply writes_only_upd; [|lia|simpl; lia]). done.
    + apply (HL' (- lru.[k] - 2)).
      * unfold encoded. rewrite Hvs, Heqb0. done.
      * intros o Ho. rewrite val_upd by (lens; lia). reads; apply decide_ext; lia.
    + intros p Hp'. apply (encode_step_cur k p q); try done; try lia.
      destruct (decide (q = p)) as [->|]; reads; auto.
  - wp_step; [side|]. split_and!.
    + apply writes_only_upd; [done|lia|simpl; lia].
    + apply (HL' lru.[k]); [|by apply HLst]. unfold encoded. by rewrite Hvs, Heqb0.
    + intros p Hp. reads. rewrite HC by done. symmetry. apply encode_step_skip; [lia|done|].
      intros _ Hv Hin. rewrite Hv in Hhit. symmetry in Hhit.
      by apply (bool_decide_eq_false _) in Hhit.
Qed.

Definition table_cells (b : gm) (j : Z) : Prop :=
  match b with TOKEN_MARK => wb <= j < wb + T | _ => False end.

(** The two lists the compaction loop builds in the mark slice: evictable slots
    upwards from the start, hit slots downwards from the end. *)
Definition compact_inv (e : Z) (s : GM) (k : Z) (c : Z * Z) (s' : GM) : Prop :=
  writes_only table_cells s s' /\ c = (cnt ev k, cnt ht k) /\
  (forall o, 0 <= o < k -> ev o = true -> val TOKEN_MARK (wb + cnt ev o) s' = lru.[o]) /\
  (forall o, 0 <= o < k -> ht o = true ->
     val TOKEN_MARK (wb + (T - 1 - cnt ht o)) s' = lru.[o]) /\
  (forall t, 0 <= t < T -> e <= val TOKEN_MARK (wb + t) s').

Lemma plan_compact_spec e s :
  row_fits s -> e < 0 ->
  (forall o, 0 <= o < cap -> val LRU_SLOTS (sb + o) s = encoded cap T topk s2t lru o) ->
  (forall t, 0 <= t < T -> e <= val TOKEN_MARK (wb + t) s) ->
  wp (plan_compact wb row cap T) (compact_inv e s cap) s.
Proof.
  intros Hf He Hl Hm. fits Hf. unfold plan_compact. fold sb.
  apply (wp_for_range _ _ _ (compact_inv e s)); [lia| | |by auto].
  { split_and!; [apply writes_only_refl|by rewrite !cnt_0|lia..|done]. }
  intros k c s1 Hk (HW & -> & HE & HH & HM). wp_step. wp_step; [side|].
  rewrite (writes_only_val _ _ _ _ _ HW), Hl by (simpl; lia).
  assert (Hsum : cnt ev k + cnt ht k <= k)
    by (apply cnt_disjoint; [lia|intros; by apply ev_ht_disjoint]).
  pose proof (cnt_bounds ev k ltac:(lia)). pose proof (cnt_bounds ht k ltac:(lia)).
  assert (HEk : forall o, 0 <= o < k -> ev o = true -> cnt ev o < cnt ev k)
    by (intros; by apply cnt_lt).
  assert (HHk : forall o, 0 <= o < k -> ht o = true -> cnt ht o < cnt ht k)
    by (intros; by apply cnt_lt).
  destruct (encoded_cases cap T topk s2t lru k) as [(Eh & Ee & Hr & ->)|[(Eh & Ee & Hr & ->)|(Eh & Ee & ->)]].
  - replace (- lru.[k] - 2 <=? -2) with true by lia. cbv zeta.
    wp_step. wp_step; [side|]. wp_step. split_and!.
    + apply writes_only_upd; [done|lia|simpl; lia].
    + rewrite !cnt_snoc, Eh, Ee by lia. f_equal; simpl; lia.
    + intros o Ho Hev. destruct (decide (o = k)) as [->|]; [congruence|].
      pose proof (HEk o ltac:(lia) Hev). pose proof (cnt_bounds ev o ltac:(lia)).
      reads. apply HE; [lia|done].
    + intros o Ho Hht. destruct (decide (o = k)) as [->|]; [reads; lia|].
      pose proof (HHk o ltac:(lia) Hht). reads. apply HH; [lia|done].
    + intros t Ht. reads; [lia|]. by apply HM.
  - replace (lru.[k] <=? -2) with false by lia.
    replace ((0 <=? lru.[k]) && (lru.[k] <? cap)) with true by lia.
    wp_step. wp_step; [side|]. wp_step. split_and!.
    + apply writes_only_upd; [done|lia|simpl; lia].
    + rewrite !cnt_snoc, Eh, Ee by lia. f_equal; simpl; lia.
    + intros o Ho Hev. destruct (decide (o = k)) as [->|]; [reads; lia|].
      pose proof (HEk o ltac:(lia) Hev). pose proof (cnt_bounds ev o ltac:(lia)).
      reads. apply HE; [lia|done].
    + intros o Ho Hht. destruct (decide (o = k)) as [->|]; [congruence|].
      pose proof (HHk o ltac:(lia) Hht). reads. apply HH; [lia|done].
    + intros t Ht. reads; [lia|]. by apply HM.
  - replace (-1 <=? -2) with false by lia. simpl. wp_step. split_and!; [done| | | |done].
    + rewrite !cnt_snoc, Eh, Ee by lia. f_equal; simpl; lia.
    + intros o Ho Hev. destruct (decide (o = k)) as [->|]; [congruence|]. apply HE; [lia|done].
    + intros o Ho Hht. destruct (decide (o = k)) as [->|]; [congruence|]. apply HH; [lia|done].
Qed.

Definition miss_cells (b : gm) (j : Z) : Prop :=
  match b with
  | TOKEN_POS => wb <= j < wb + K
  | MISS_TOKENS => tb <= j < tb + K
  | _ => False
  end.

Definition misses_inv (s : GM) (k c : Z) (s' : GM) : Prop :=
  writes_only miss_cells s s' /\ c = cnt ms k /\
  (forall p, 0 <= p < k -> ms p = true ->
     val MISS_TOKENS (tb + cnt ms p) s' = topk.[p] /\ val TOKEN_POS (wb + cnt ms p) s' = p) /\
  (forall j, c <= j < K -> val MISS_TOKENS (tb + j) s' = -1).

Lemma plan_misses_spec s :
  row_fits s ->
  (forall i, 0 <= i < K -> val TOPK_INDICES (tb + i) s = topk.[i]) ->
  (forall p, 0 <= p < K -> val CURRENT_SLOTS (tb + p) s = hit_slot cap T topk s2t lru p) ->
  (forall p, 0 <= p < K -> val MISS_TOKENS (tb + p) s = -1) ->
  wp (plan_misses wb row K T) (misses_inv s K) s.
Proof.
  intros Hf Htk Hc Hmt. fits Hf. unfold plan_misses. fold tb.
  apply (wp_for_range _ _ _ (misses_inv s)); [lia| | |by auto].
  { split_and!; [apply writes_only_refl|by rewrite cnt_0|lia|done]. }
  intros k c s1 Hk (HW & -> & HM & HN). wp_step. wp_step; [side|].
  rewrite (writes_only_val _ _ _ _ _ HW), Htk by (simpl; lia).
  fold (valid_tok T topk.[k]).
  pose proof (cnt_bounds ms k ltac:(lia)).
  assert (Hskip : ms k = false -> misses_inv s (k + 1) (cnt ms k) s1).
  { intros Hk'. split_and!; [done|rewrite cnt_snoc, Hk' by lia; simpl; lia| |done].
    intros p Hp Hm. destruct (decide (p = k)) as [->|]; [congruence|]. apply HM; [lia|done]. }
  wp_step; cycle 1.
  { wp_step. apply Hskip. unfold miss_at. by rewrite Heqb. }
  wp_step. wp_step; [side|].
  rewrite (writes_only_val _ _ _ _ _ HW), Hc by (simpl; lia).
  assert (Ems : ms k = (hit_slot cap T topk s2t lru k <? 0)) by (unfold miss_at; by rewrite Heqb).
  wp_step; cycle 1.
  { wp_step. apply Hskip. congruence. }
  wp_step. wp_step; [side|]. wp_step. wp_step; [side|]. wp_step.
  rewrite i32_small by (unfold INT32_MAX; lia). split_and!.
  - repeat (apply writes_only_upd; [|lia|simpl; lia]). done.
  - rewrite cnt_snoc, Ems by lia. simpl. lia.
  - intros p Hp Hm. destruct (decide (p = k)) as [->|]; [by reads|].
    assert (cnt ms p < cnt ms k) by (apply cnt_lt; [lia|done]).
    pose proof (cnt_bounds ms p ltac:(lia)). reads. apply HM; [lia|done].
  - intros j Hj. reads. apply HN. lia.
Qed.

Local Abbreviation EV := (evict cap T topk s2t lru).
Local Abbreviation HT := (hits cap T topk s2t lru).
Local Abbreviation MS := (misses cap T topk s2t lru).
Local Abbreviation na := (n_assign cap T topk s2t lru).

Definition plan_cells (b : gm) (j : Z) : Prop :=
  match b with
  | TOKEN_MARK | TOKEN_POS => wb <= j < wb + T
  | EPOCHS => j = ws
  | LRU_SLOTS => sb <= j < sb + cap
  | CURRENT_SLOTS | MISS_TOKENS => tb <= j < tb + K
  | MISS_COUNT => j = row
  | _ => False
  end.

(** What the ordering thread leaves for the assignment and the rebuild. *)
Definition plan_post (s s' : GM) : Prop :=
  writes_only plan_cells s s' /\
  (forall k, 0 <= k < cnt ev cap -> val TOKEN_MARK (wb + k) s' = EV.[k]) /\
  (forall k, 0 <= k < cnt ht cap -> val TOKEN_MARK (wb + (T - 1 - k)) s' = HT.[k]) /\
  (forall p, 0 <= p < K -> val CURRENT_SLOTS (tb + p) s' = hit_slot cap T topk s2t lru p) /\
  (forall k, 0 <= k < cnt ms K -> val MISS_TOKENS (tb + k) s' = topk.[MS.[k]] /\
                                  val TOKEN_POS (wb + k) s' = MS.[k]) /\
  (forall j, cnt ms K <= j < K -> val MISS_TOKENS (tb + j) s' = -1) /\
  val MISS_COUNT row s' = na /\
  val TOKEN_POS (wb + (T - 2)) s' = cnt ev cap /\
  val TOKEN_POS (wb + (T - 1)) s' = cnt ht cap /\
  epoch_ok s'.

Lemma plan_spec s :
  row_fits s -> epoch_ok s ->
  (forall i, 0 <= i < K -> val TOPK_INDICES (tb + i) s = topk.[i]) ->
  (forall j, 0 <= j < cap -> val SLOT_TO_TOKEN (sb + j) s = s2t.[j]) ->
  (forall o, 0 <= o < cap -> val LRU_SLOTS (sb + o) s = lru.[o]) ->
  (forall p, 0 <= p < K -> val CURRENT_SLOTS (tb + p) s = -1 /\
                           val MISS_TOKENS (tb + p) s = -1) ->
  wp (OffloadLruCompactSimtOps wb wb ws row K cap T 0 0) (fun _ => plan_post s) s.
Proof.
  intros Hf He Htk Hs Hl Hc. pose proof Hf as Hf'. fits Hf'.
  unfold OffloadLruCompactSimtOps. simpl negb. cbv iota. simpl orb. cbv iota.
  wp_step. eapply wp_mono; [by apply plan_epoch_spec|].
  intros e s1 (HW1 & Hee & He1 & Hm1). unfold LRU_EPOCH_RESET_THRESHOLD in Hee.
  assert (H1 : forall b j, 0 <= j -> ~ epoch_cells b j -> val b j s1 = val b j s)
    by (intros; by eapply writes_only_val).
  wp_step. eapply wp_mono.
  { apply plan_mark_spec; [by eapply row_fits_writes| |done].
    intros i Hi. rewrite H1 by (simpl; lia). auto. }
  intros _ s2 (HW2 & Hm2).
  assert (H2 : forall b j, 0 <= j -> ~ mark_cells b j -> val b j s2 = val b j s1)
    by (intros; by eapply writes_only_val).
  wp_step. eapply wp_mono.
  { apply (plan_encode_spec e); [by do 2 (eapply row_fits_writes; [eassumption|])|done| | |];
      intros x Hx; rewrite H2, H1 by (simpl; lia); auto. by apply Hc. }
  intros _ s3 (HW3 & HL3 & HC3).
  assert (H3 : forall b j, 0 <= j -> ~ encode_cells b j -> val b j s3 = val b j s2)
    by (intros; by eapply writes_only_val).
  wp_step. eapply wp_mono.
  { apply (plan_compact_spec e);
      [by do 3 (eapply row_fits_writes; [eassumption|])|lia| |].
    - intros o Ho. rewrite HL3 by done. by replace (o <? cap) with true by lia.
    - intros t Ht. rewrite H3 by (simpl; lia).
      destruct (Hm2 t Ht) as [(-> & _)|(? & _)]; lia. }
  intros c s4 (HW4 & -> & HE4 & HH4 & HM4).
  assert (H4 : forall b j, 0 <= j -> ~ table_cells b j -> val b j s4 = val b j s3)
    by (intros; by eapply writes_only_val).
  wp_step. eapply wp_mono.
  { apply plan_misses_spec; [by do 4 (eapply row_fits_writes; [eassumption|])| | |];
      intros x Hx; rewrite H4 by (simpl; lia).
    - rewrite H3, H2, H1 by (simpl; lia). auto.
    - auto.
    - rewrite H3, H2, H1 by (simpl; lia). by apply Hc. }
  intros c s5 (HW5 & -> & HM5 & HN5).
  assert (H5 : forall b j, 0 <= j -> ~ miss_cells b j -> val b j s5 = val b j s4)
    by (intros; by eapply writes_only_val).
  pose proof (cnt_bounds ms K ltac:(lia)). pose proof (cnt_bounds ev cap ltac:(lia)).
  pose proof (cnt_bounds ht cap ltac:(lia)).
  wp_step. wp_step; [side|]. wp_step. wp_step; [side|]. wp_step; [side|].
  assert (Ena : (if cnt ms K <? cnt ev cap then cnt ms K else cnt ev cap) = na).
  { unfold n_assign. rewrite Htopk. destruct (Z.ltb_spec (cnt ms K) (cnt ev cap)); lia. }
  rewrite Ena. split_and!.
  - repeat (apply writes_only_upd; [|lia|simpl; lia]).
    eapply writes_only_trans; [eapply writes_only_weaken; [exact HW1|]|].
    { intros [] j; simpl; lia. }
    eapply writes_only_trans; [eapply writes_only_weaken; [exact HW2|]|].
    { intros [] j; simpl; lia. }
    eapply writes_only_trans; [eapply writes_only_weaken; [exact HW3|]|].
    { intros [] j; simpl; lia. }
    eapply writes_only_trans; [eapply writes_only_weaken; [exact HW4|]|].
    { intros [] j; simpl; lia. }
    eapply writes_only_weaken; [exact HW5|]. intros [] j; simpl; lia.
  - intros k Hk. reads. rewrite H5 by (simpl; lia).
    destruct (evict_at _ _ _ _ _ k Hk) as (o & Ho & Hev & <- & ->). auto.
  - intros k Hk. reads. rewrite H5 by (simpl; lia).
    destruct (hits_at _ _ _ _ _ k Hk) as (o & Ho & Hev & <- & ->). auto.
  - intros p Hp. reads. rewrite H5, H4 by (simpl; lia). auto.
  - intros k Hk. reads. rewrite (misses_def _ _ _ _ _ K) by done.
    destruct (idx_rank ms K k Hk) as (Hp & Hms & Ek).
    destruct (HM5 _ Hp Hms) as [Ha Hb]. rewrite Ek in Ha, Hb. done.
  - intros j Hj. reads. auto.
  - reads; lia.
  - reads; lia.
  - reads; lia.
  - right; right. intros t Ht. reads.
    rewrite (H5 EPOCHS), H4, H3, H2, He1, H5 by (simpl; lia). by apply HM4.
Qed.

(** *** Assign *)
Definition assign_cells (b : gm) (j : Z) : Prop :=
  match b with
  | SLOT_TO_TOKEN => sb <= j < sb + cap
  | CURRENT_SLOTS | MISS_SLOTS => tb <= j < tb + K
  | _ => False
  end.

Definition assign_inv (s : GM) (ds : list Z) (s' : GM) : Prop :=
  writes_only assign_cells s s' /\
  (forall k, k ∈ ds -> val SLOT_TO_TOKEN (sb + EV.[k]) s' = topk.[MS.[k]] /\
     val CURRENT_SLOTS (tb + MS.[k]) s' = EV.[k] /\ val MISS_SLOTS (tb + k) s' = EV.[k]) /\
  (forall j, 0 <= j < cap -> (forall k, k ∈ ds -> EV.[k] <> j) ->
     val SLOT_TO_TOKEN (sb + j) s' = val SLOT_TO_TOKEN (sb + j) s) /\
  (forall p, 0 <= p < K -> (forall k, k ∈ ds -> MS.[k] <> p) ->
     val CURRENT_SLOTS (tb + p) s' = val CURRENT_SLOTS (tb + p) s) /\
  (forall j, 0 <= j < K -> j ∉ ds -> val MISS_SLOTS (tb + j) s' = val MISS_SLOTS (tb + j) s).

Definition plan_tables (s : GM) : Prop :=
  (forall k, 0 <= k < cnt ev cap -> val TOKEN_MARK (wb + k) s = EV.[k]) /\
  (forall k, 0 <= k < cnt ms K -> val MISS_TOKENS (tb + k) s = topk.[MS.[k]] /\
                                  val TOKEN_POS (wb + k) s = MS.[k]).

Lemma assign_step s ds k s' :
  row_fits s -> lru_inj cap lru -> plan_tables s ->
  0 <= k < na -> k ∉ ds -> (forall i, i ∈ ds -> 0 <= i < na) -> assign_inv s ds s' ->
  wp (assign_item wb wb row K cap k) (fun _ => assign_inv s (k :: ds)) s'.
Proof.
  intros Hf Hinj (HE & HM) Hk Hds Hr (HW & H1 & H2 & H3 & H4). fits Hf.
  pose proof (n_assign_le cap T topk s2t lru K Htopk ltac:(lia)) as Hna.
  pose proof (evict_valid cap T topk s2t lru k ltac:(lia)) as HEk.
  pose proof (misses_range cap T topk s2t lru K Htopk k ltac:(lia)) as HMk.
  assert (HEne : forall i, i ∈ ds -> 0 <= EV.[i] < cap /\ EV.[i] <> EV.[k]).
  { intros i Hi. specialize (Hr i Hi). split; [apply evict_valid; lia|].
    intros E. apply evict_inj in E; [subst; done|done|lia|lia]. }
  assert (HMne : forall i, i ∈ ds -> 0 <= MS.[i] < K /\ MS.[i] <> MS.[k]).
  { intros i Hi. specialize (Hr i Hi). split; [eapply misses_range; [done|lia]|].
    intros E. eapply misses_inj' in E; [subst; done|done|lia|lia]. }
  unfold assign_item. fold tb sb.
  wp_step. wp_step; [side|]. wp_step. wp_step; [side|]. wp_step. wp_step; [side|].
  rewrite !(writes_only_val _ _ _ _ _ HW) by (simpl; lia).
  destruct (HM k ltac:(lia)) as [-> ->]. rewrite HE by lia.
  wp_step; [|lia].
  wp_step. wp_step; [side|]. wp_step. wp_step; [side|]. wp_step; [side|]. split_and!.
  - repeat (apply writes_only_upd; [|lia|simpl; lia]). done.
  - intros i [->|Hi]%elem_of_cons; [by reads|].
    pose proof (HEne i Hi). pose proof (HMne i Hi). specialize (Hr i Hi).
    assert (i <> k) by (intros ->; done). reads. auto.
  - intros j Hj Hno. assert (EV.[k] <> j) by (apply Hno; by left). reads.
    apply H2; [done|]. intros i Hi. apply Hno. by right.
  - intros p Hp Hno. assert (MS.[k] <> p) by (apply Hno; by left). reads.
    apply H3; [done|]. intros i Hi. apply Hno. by right.
  - intros j Hj Hno. assert (j <> k) by (intros ->; apply Hno; by left). reads.
    apply H4; [done|]. intros Hi. apply Hno. by right.
Qed.

Lemma assign_spec s :
  row_fits s -> lru_inj cap lru -> plan_tables s ->
  val MISS_COUNT row s = na ->
  Z.of_nat (length s2t) = cap ->
  (forall j, 0 <= j < cap -> val SLOT_TO_TOKEN (sb + j) s = s2t.[j]) ->
  (forall p, 0 <= p < K -> val CURRENT_SLOTS (tb + p) s = hit_slot cap T topk s2t lru p) ->
  (forall p, 0 <= p < K -> val MISS_SLOTS (tb + p) s = -1) ->
  wp (OffloadLruCompactAssignPhasedSimtOps 128 wb wb row K cap) (fun _ s' =>
    writes_only assign_cells s s' /\
    slice SLOT_TO_TOKEN sb cap s' = plan_s2t cap T topk s2t lru /\
    slice CURRENT_SLOTS tb K s' = plan_cur cap T topk s2t lru /\
    slice MISS_SLOTS tb K s' = plan_mslot cap T topk s2t lru) s.
Proof.
  intros Hf Hinj HP Hcount Hls2t Hs Hc Hms. pose proof Hf as Hf'. fits Hf'.
  pose proof (n_assign_le cap T topk s2t lru K Htopk ltac:(lia)) as Hna.
  unfold OffloadLruCompactAssignPhasedSimtOps. wp_step. wp_step; [side|]. rewrite Hcount.
  apply (wp_par _ _ _ (assign_inv s)).
  - by apply NoDup_strip_items.
  - split_and!; [apply writes_only_refl|set_solver|done..].
  - intros ds k s1 Hk Hds Hsub HI. apply assign_step; try done.
    + by apply elem_of_strip_items in Hk.
    + intros i Hi. apply Hsub in Hi. by apply elem_of_strip_items in Hi.
  - intros ds s1 Hall (HW & H1 & H2 & H3 & H4).
    assert (Hds : forall k, k ∈ ds <-> 0 <= k < na).
    { intros k. rewrite Hall. by apply elem_of_strip_items. }
    split; [done|]. apply (plan_assigned _ _ _ _ _ K); [done|lia|done|done| | | |].
    + intros k Hk. by apply H1, Hds.
    + intros j Hj Hno. rewrite H2; [by apply Hs|done|]. intros k Hk. apply Hno, Hds, Hk.
    + intros p Hp Hno. rewrite H3; [by apply Hc|done|]. intros k Hk. apply Hno, Hds, Hk.
    + intros j Hj. rewrite H4; [apply Hms; lia|lia|]. rewrite Hds. lia.
Qed.

(** *** Rebuild *)
Definition rebuild_cells (b : gm) (j : Z) : Prop :=
  match b with LRU_SLOTS => sb <= j < sb + cap | _ => False end.

Lemma rebuild_spec s :
  row_fits s ->
  (forall k, 0 <= k < cnt ev cap -> val TOKEN_MARK (wb + k) s = EV.[k]) ->
  (forall k, 0 <= k < cnt ht cap -> val TOKEN_MARK (wb + (T - 1 - k)) s = HT.[k]) ->
  (forall k, 0 <= k < na -> val MISS_SLOTS (tb + k) s = EV.[k]) ->
  val MISS_COUNT row s = na ->
  val TOKEN_POS (wb + (T - 2)) s = cnt ev cap ->
  val TOKEN_POS (wb + (T - 1)) s = cnt ht cap ->
  wp (OffloadLruCompactRebuildPhasedSimtOps 128 wb wb row K cap T) (fun _ s' =>
    writes_only rebuild_cells s s' /\
    slice LRU_SLOTS sb cap s' = plan_lru cap T topk s2t lru) s.
Proof.
  intros Hf HE HH HMS Hc He Hh. pose proof Hf as Hf'. fits Hf'.
  pose proof (n_assign_le cap T topk s2t lru K Htopk ltac:(lia)) as Hna.
  pose proof (cnt_ev_ht cap T topk s2t lru ltac:(lia)) as Hsum.
  pose proof (cnt_bounds ht cap ltac:(lia)) as Hht.
  unfold OffloadLruCompactRebuildPhasedSimtOps.
  apply (wp_par _ _ _ (fun ds s' => writes_only rebuild_cells s s' /\
    (forall o, o ∈ ds -> val LRU_SLOTS (sb + o) s' = rebuilt cap T topk s2t lru o))).
  - by apply NoDup_strip_items.
  - split; [apply writes_only_refl|set_solver].
  - intros ds o s1 Ho Hds Hsub [HW HL]. apply elem_of_strip_items in Ho; [|done].
    assert (Hpos : forall i, i ∈ ds -> 0 <= i /\ i <> o).
    { intros i Hi. split; [|intros ->; done]. apply Hsub in Hi.
      apply elem_of_strip_items in Hi; lia. }
    assert (Hv : forall b j, b <> LRU_SLOTS -> 0 <= j -> val b j s1 = val b j s).
    { intros b j Hb Hj. apply (writes_only_val _ _ _ _ _ HW); [done|]. destruct b; simpl; tauto. }
    unfold rebuild_item. fold tb sb.
    wp_step. wp_step; [side|]. wp_step. wp_step; [side|]. wp_step. wp_step; [side|].
    rewrite !Hv, Hc, He, Hh by (done || lia). cbv zeta.
    rewrite i32_small by (unfold INT32_MAX; lia).
    wp_step. apply (wp_mono _ (fun v s2 => v = rebuilt cap T topk s2t lru o /\ s2 = s1)).
    { unfold rebuilt. wp_step; [wp_step; [side|]|].
      { rewrite Hv, HE by (done || lia). done. }
      wp_step; [wp_step; [side|]|].
      { rewrite Hv by (done || lia). split; [|done]. rewrite <- HMS by lia. f_equal. lia. }
      wp_step; [wp_step; [side|]|by wp_step].
      rewrite Hv, HH by (done || lia). done. }
    intros v s2 [-> ->]. wp_step; [side|]. split.
    + apply writes_only_upd; [done|lia|simpl; lia].
    + intros i [->|Hi]%elem_of_cons; [by reads|]. specialize (Hpos i Hi). reads. auto.
  - intros ds s1 Hall [HW HL]. split; [done|]. unfold slice.
    rewrite <- (plan_lru_rebuilt _ _ _ _ _ K) by (done || lia). apply tab_ext. intros o Ho.
    apply HL, Hall. by apply elem_of_strip_items.
Qed.
End plan.
End row.

(** ** One row, end to end *)
Definition row_in_of (row K cap : Z) (s : GM) : row_in :=
  {| ri_req := val REQ_IDS row s;
     ri_last := val LAST_REQ_IDS row s;
     ri_prefix := val STABLE_PREFIX_LENS row s;
     ri_topk := slice TOPK_INDICES (row * K) K s;
     ri_s2t := slice SLOT_TO_TOKEN (row * cap) cap s;
     ri_lru := slice LRU_SLOTS (row * cap) cap s |}.

Definition row_out_of (row K cap : Z) (s : GM) : row_out :=
  {| ro_last := val LAST_REQ_IDS row s;
     ro_s2t := slice SLOT_TO_TOKEN (row * cap) cap s;
     ro_lru := slice LRU_SLOTS (row * cap) cap s;
     ro_cur := slice CURRENT_SLOTS (row * K) K s;
     ro_count := val MISS_COUNT row s;
     ro_mtok := slice MISS_TOKENS (row * K) K s;
     ro_mslot := slice MISS_SLOTS (row * K) K s |}.

(** The cells a row's kernels may write: the row's persistent and output cells, and
    one of the eight workspace slices. *)
Definition row_cells (row K cap T ws : Z) (b : gm) (j : Z) : Prop :=
  match b with
  | REQ_IDS | TOPK_INDICES | STABLE_PREFIX_LENS => False
  | LAST_REQ_IDS | MISS_COUNT => j = row
  | SLOT_TO_TOKEN | LRU_SLOTS => row * cap <= j < row * cap + cap
  | CURRENT_SLOTS | MISS_TOKENS | MISS_SLOTS => row * K <= j < row * K + K
  | TOKEN_MARK | TOKEN_POS => ws * T <= j < ws * T + T
  | EPOCHS => j = ws
  end.

Section phased.
Context {Sch : Scheduler}.

Lemma phased_row_spec row K cap T s :
  let ws := row mod LRU_COMPACT_WORKSPACE_THREADS in
  row_fits row K cap T ws s -> epoch_ok T ws s ->
  lru_inj cap (start_lru cap (row_in_of row K cap s)) ->
  wp (phased_row row K cap T) (fun _ s' =>
    row_out_of row K cap s' = compact cap T (row_in_of row K cap s) /\
    writes_only (row_cells row K cap T ws) s s' /\ epoch_ok T ws s') s.
Proof.
  intros ws Hf He Hinj. pose proof Hf as Hf'. unfold row_fits, INT32_MAX in Hf'.
  set (r := row_in_of row K cap s) in *.
  assert (Htopk : Z.of_nat (length (ri_topk r)) = K).
  { unfold r. simpl. rewrite length_slice. lia. }
  assert (Hls : Z.of_nat (length (start_s2t cap T r)) = cap).
  { apply length_start_s2t; [lia|]. unfold r. simpl. rewrite length_slice. lia. }
  unfold phased_row. fold ws.
  (* reset *)
  wp_step. eapply wp_mono; [by eapply reset_spec|]. intros _ s1 (HW1 & Hlast1 & Hrow1).
  assert (H1 : forall b j, 0 <= j -> ~ reset_cells row cap b j -> val b j s1 = val b j s)
    by (intros; by eapply writes_only_val).
  (* prepare *)
  wp_step. eapply wp_mono; [eapply (prepare_spec row K cap T ws); by eapply row_fits_writes|].
  intros _ s2 (HW2 & Hout2 & Hs2t2).
  assert (H2 : forall b j, 0 <= j -> ~ prepare_cells row K cap b j -> val b j s2 = val b j s1)
    by (intros; by eapply writes_only_val).
  assert (Hs2 : forall j, 0 <= j < cap ->
    val SLOT_TO_TOKEN (row * cap + j) s2 = (start_s2t cap T r).[j]).
  { intros j Hj. rewrite Hs2t2 by done. rewrite H1 by (simpl; lia).
    unfold start_s2t. rewrite at_fmap; cycle 1.
    { unfold r. simpl. destruct (_ =? _); rewrite ?length_slice, ?length_tab; lia. }
    f_equal. destruct (Hrow1 j Hj) as [-> _]. unfold r. simpl.
    destruct (_ =? _); [by rewrite slice_at|by rewrite at_tab]. }
  assert (Hl2 : forall o, 0 <= o < cap ->
    val LRU_SLOTS (row * cap + o) s2 = (start_lru cap r).[o]).
  { intros o Ho. rewrite H2 by (simpl; lia). destruct (Hrow1 o Ho) as [_ ->].
    unfold start_lru, r. simpl. destruct (_ =? _); [by rewrite slice_at|by rewrite at_tab]. }
  assert (Hf2 : row_fits row K cap T ws s2) by (by do 2 (eapply row_fits_writes; [eassumption|])).
  (* plan *)
  wp_step. eapply wp_mono.
  { eapply (plan_spec row K cap T ws (ri_topk r) (start_s2t cap T r) (start_lru cap r));
      [done|done| | | | |].
    - unfold epoch_ok. rewrite H2, H1 by (simpl; lia). destruct He as [?|[?|He]]; [auto..|].
      right; right. intros t Ht. rewrite H2, H1 by (simpl; lia). auto.
    - intros i Hi. rewrite H2, H1 by (simpl; lia). unfold r. simpl. by rewrite slice_at.
    - done.
    - done.
    - intros p Hp. destruct (Hout2 p Hp) as (? & ? & ?). auto. }
  intros _ s3 (HW3 & HE3 & HH3 & HC3 & HM3 & HN3 & Hc3 & He3 & Hh3 & Hok3).
  assert (H3 : forall b j, 0 <= j -> ~ plan_cells row K cap T ws b j -> val b j s3 = val b j s2)
    by (intros; by eapply writes_only_val).
  pose proof (n_assign_le cap T (ri_topk r) (start_s2t cap T r) (start_lru cap r) K
    Htopk ltac:(lia)) as Hna.
  (* assign *)
  wp_step. eapply wp_mono.
  { eapply (assign_spec row K cap T ws (ri_topk r) (start_s2t cap T r) (start_lru cap r));
      [done|by eapply row_fits_writes|done|by split|done|done| |done|].
    - intros j Hj. rewrite H3 by (simpl; lia). auto.
    - intros p Hp. rewrite H3 by (simpl; lia). by apply Hout2. }
  intros _ s4 (HW4 & HS4 & HC4 & HMS4).
  assert (H4 : forall b j, 0 <= j -> ~ assign_cells row K cap b j -> val b j s4 = val b j s3)
    by (intros; by eapply writes_only_val).
  (* rebuild *)
  eapply wp_mono.
  { eapply (rebuild_spec row K cap T ws (ri_topk r) (start_s2t cap T r) (start_lru cap r));
      [done|by do 2 (eapply row_fits_writes; [eassumption|])| | | | | |].
    - intros k Hk. pose proof (cnt_bounds (evictable_at cap T (ri_topk r) (start_s2t cap T r)
        (start_lru cap r)) cap ltac:(lia)). rewrite H4 by (simpl; lia). auto.
    - intros k Hk. rewrite H4; [auto| |simpl; tauto].
      pose proof (cnt_bounds (hit_at cap T (ri_topk r) (start_s2t cap T r)
        (start_lru cap r)) cap ltac:(lia)). lia.
    - intros k Hk. rewrite <- (slice_at MISS_SLOTS _ K), HMS4 by lia.
      unfold plan_mslot. rewrite Htopk, at_tab by lia.
      by replace (k <? _) with true by lia.
    - rewrite H4 by (simpl; lia). done.
    - rewrite H4 by (simpl; lia). done.
    - rewrite H4 by (simpl; lia). done. }
  intros _ s5 (HW5 & HL5).
  assert (H5 : forall b j, 0 <= j -> ~ rebuild_cells row cap b j -> val b j s5 = val b j s4)
    by (intros; by eapply writes_only_val).
  split_and!.
  - unfold row_out_of, compact. f_equal.
    + rewrite H5, H4, H3, H2 by (simpl; lia). done.
    + rewrite <- HS4. apply tab_ext. intros j Hj. apply H5; simpl; lia.
    + done.
    + rewrite <- HC4. apply tab_ext. intros j Hj. apply H5; simpl; lia.
    + rewrite H5, H4 by (simpl; lia). done.
    + unfold plan_mtok. rewrite Htopk. apply tab_ext. intros j Hj.
      rewrite H5, H4 by (simpl; lia).
      destruct (Z.ltb_spec j (cnt (miss_at cap T (ri_topk r) (start_s2t cap T r)
        (start_lru cap r)) K)); [apply HM3|apply HN3]; lia.
    + rewrite <- HMS4. apply tab_ext. intros j Hj. apply H5; simpl; lia.
  - eapply writes_only_trans; [eapply writes_only_weaken; [exact HW1|]|].
    { intros [] j; simpl; lia. }
    eapply writes_only_trans; [eapply writes_only_weaken; [exact HW2|]|].
    { intros [] j; simpl; lia. }
    eapply writes_only_trans; [eapply writes_only_weaken; [exact HW3|]|].
    { intros [] j; simpl; lia. }
    eapply writes_only_trans; [eapply writes_only_weaken; [exact HW4|]|].
    { intros [] j; simpl; lia. }
    eapply writes_only_weaken; [exact HW5|]. intros [] j; simpl; lia.
  - unfold epoch_ok. rewrite H5, H4 by (simpl; lia). destruct Hok3 as [?|[?|Hok3]]; [auto..|].
    right; right. intros t Ht. rewrite H5, H4 by (simpl; lia). auto.
Qed.

(** *** The launcher: all rows *)
Definition batch_fits (N K cap T : Z) (s : GM) : Prop :=
  (N <= len REQ_IDS s /\ N <= len LAST_REQ_IDS s /\ N <= len STABLE_PREFIX_LENS s /\
   N <= len MISS_COUNT s) /\
  (N * K <= len TOPK_INDICES s /\ N * K <= len CURRENT_SLOTS s /\
   N * K <= len MISS_TOKENS s /\ N * K <= len MISS_SLOTS s) /\
  (N * cap <= len SLOT_TO_TOKEN s /\ N * cap <= len LRU_SLOTS s) /\
  (LRU_COMPACT_WORKSPACE_THREADS * T <= len TOKEN_MARK s /\
   LRU_COMPACT_WORKSPACE_THREADS * T <= len TOKEN_POS s /\
   LRU_COMPACT_WORKSPACE_THREADS <= len EPOCHS s).

Lemma batch_row_fits N K cap T s row :
  CanUseProductionPhasedLru N K cap T = true -> batch_fits N K cap T s -> 0 <= row < N ->
  row_fits row K cap T (row mod LRU_COMPACT_WORKSPACE_THREADS) s.
Proof.
  unfold CanUseProductionPhasedLru, batch_fits, row_fits, LRU_COMPACT_WORKSPACE_THREADS.
  intros Hg (H1 & H2 & H3 & H4) Hr.
  pose proof (Z.mod_pos_bound row 8 ltac:(lia)) as Hm.
  assert (0 < K /\ 0 < cap /\ 3 <= T /\ cap <= T /\ K <= T - 2 /\ T <= INT32_MAX /\
          cap < INT32_MAX) as (HK & Hcap & HT & ? & ? & ? & ?) by lia.
  assert (row * K + K <= N * K) by nia. assert (row * cap + cap <= N * cap) by nia.
  assert ((row mod 8) * T + T <= 8 * T) by nia.
  split_and!; (lia || nia).
Qed.

Lemma row_cells_disjoint K cap T row row' ws b j :
  row <> row' -> 0 < K -> 0 < cap ->
  match b with TOKEN_MARK | TOKEN_POS | EPOCHS => False | _ => True end ->
  row_cells row K cap T ws b j -> row_cells row' K cap T ws b j -> False.
Proof.
  intros Hne HK Hc. assert (row < row' \/ row' < row) as [|] by lia;
    destruct b; simpl; try tauto; intros; nia.
Qed.

Lemma row_in_frame row row' K cap T ws s s' :
  row <> row' -> 0 < K -> 0 < cap -> 0 <= row' ->
  writes_only (row_cells row K cap T ws) s s' ->
  row_in_of row' K cap s' = row_in_of row' K cap s /\
  row_out_of row' K cap s' = row_out_of row' K cap s.
Proof.
  intros Hne HK Hc Hr HW.
  assert (H : forall b j, 0 <= j -> row_cells row' K cap T ws b j ->
    match b with TOKEN_MARK | TOKEN_POS | EPOCHS => False | _ => True end ->
    val b j s' = val b j s).
  { intros b j Hj Hc' Hb. apply (writes_only_val _ _ _ _ _ HW); [done|].
    intros Hc2. by eapply (row_cells_disjoint K cap T row row'). }
  assert (H' : forall b j, 0 <= j ->
    match b with REQ_IDS | TOPK_INDICES | STABLE_PREFIX_LENS => True | _ => False end ->
    val b j s' = val b j s).
  { intros b j Hj Hb. apply (writes_only_val _ _ _ _ _ HW); [done|]. destruct b; simpl; tauto. }
  split; unfold row_in_of, row_out_of; f_equal;
    first [apply tab_ext; intros j Hj|idtac];
    first [apply H'; [nia|done]|apply H; [nia|simpl; lia|done]].
Qed.

(** The rows of a launch, whatever kernels run them: each row leaves its reference
    result and writes only its own cells, so the rows do not disturb each other. *)
Lemma wp_rows {S} (g : S -> GM) (Inv : S -> Prop) (body : Z -> M S unit) N K cap T s :
  0 < K -> 0 < cap -> 0 <= N -> Inv s ->
  (forall k s1, 0 <= k < N -> Inv s1 -> row_in_of k K cap (g s1) = row_in_of k K cap (g s) ->
    wp (body k) (fun _ s2 => Inv s2 /\
      row_out_of k K cap (g s2) = compact cap T (row_in_of k K cap (g s1)) /\
      writes_only (row_cells k K cap T (k mod LRU_COMPACT_WORKSPACE_THREADS)) (g s1) (g s2)) s1) ->
  wp (for_ 0 N body) (fun _ s' => Inv s' /\
    forall row, 0 <= row < N ->
      row_out_of row K cap (g s') = compact cap T (row_in_of row K cap (g s))) s.
Proof.
  intros HK Hcap HN HI Hstep.
  apply (wp_for_ _ _ _ (fun k s' => Inv s' /\
    (forall row, 0 <= row < k ->
       row_out_of row K cap (g s') = compact cap T (row_in_of row K cap (g s))) /\
    (forall row, k <= row < N -> row_in_of row K cap (g s') = row_in_of row K cap (g s)))); [lia| | |].
  - split_and!; [done|lia|done].
  - intros k s1 Hk (HI1 & Hdone & Htodo). eapply wp_mono; [apply Hstep; [done|done|apply Htodo; lia]|].
    intros _ s2 (HI2 & Hout & HW). rewrite Htodo in Hout by lia. split_and!; [done|..].
    + intros row Hr. destruct (decide (row = k)) as [->|Hne]; [done|].
      rewrite <- Hdone by lia. eapply row_in_frame; [|done..|lia|exact HW]. lia.
    + intros row Hr. rewrite <- Htodo by lia. eapply row_in_frame; [|done..|lia|exact HW]. lia.
  - intros s1 (HI1 & Hdone & _). auto.
Qed.

Lemma batch_fits_writes N K cap T W s s' :
  writes_only W s s' -> batch_fits N K cap T s -> batch_fits N K cap T s'.
Proof. intros HW. unfold batch_fits. by lens. Qed.

Lemma epoch_ok_frame K cap T row w s s' :
  0 < T -> 0 <= w -> w <> row mod LRU_COMPACT_WORKSPACE_THREADS ->
  writes_only (row_cells row K cap T (row mod LRU_COMPACT_WORKSPACE_THREADS)) s s' ->
  epoch_ok T w s -> epoch_ok T w s'.
Proof.
  set (ws := row mod LRU_COMPACT_WORKSPACE_THREADS). intros HT Hw Hne HW Hok.
  assert (Hv : forall b j, match b with TOKEN_MARK => w * T <= j < w * T + T
                                      | EPOCHS => j = w | _ => False end ->
               val b j s' = val b j s).
  { intros b j Hj. apply (writes_only_val _ _ _ _ _ HW); [destruct b; nia|].
    intros Hc. assert (w < ws \/ ws < w) as [|] by lia; destruct b; simpl in *; nia. }
  unfold epoch_ok. rewrite Hv by done. destruct Hok as [?|[?|Ho]]; [auto..|].
  right; right. intros t Ht. rewrite Hv by lia. auto.
Qed.

Definition epochs_ok (T : Z) (s : GM) : Prop :=
  forall ws, 0 <= ws < LRU_COMPACT_WORKSPACE_THREADS -> epoch_ok T ws s.

Lemma launch_phased_spec N K cap T s :
  CanUseProductionPhasedLru N K cap T = true -> batch_fits N K cap T s -> epochs_ok T s ->
  (forall row, 0 <= row < N -> lru_inj cap (start_lru cap (row_in_of row K cap s))) ->
  wp (LaunchProductionPhasedLru N K cap T) (fun _ s' =>
    (forall row, 0 <= row < N ->
       row_out_of row K cap s' = compact cap T (row_in_of row K cap s)) /\
    batch_fits N K cap T s' /\ epochs_ok T s') s.
Proof.
  intros Hg Hfit Hok Hinj. unfold LaunchProductionPhasedLru.
  assert (0 < K /\ 0 < cap /\ 0 < N /\ 0 < T) as (HK & Hcap & HN & HT)
    by (unfold CanUseProductionPhasedLru in Hg; lia).
  eapply wp_mono; [apply (wp_rows id (fun s' => batch_fits N K cap T s' /\ epochs_ok T s') _ N K cap T);
                   [done|done|lia|done|]|].
  - intros k s1 Hk (Hfit1 & Hok1) Hin. unfold id in *. eapply wp_mono.
    { apply phased_row_spec; [by eapply batch_row_fits|apply Hok1; by apply Z.mod_pos_bound|].
      rewrite Hin. by apply Hinj. }
    intros _ s2 (Hout & HW & Hok2). split_and!; [by eapply batch_fits_writes| |done|done].
    intros w Hw. destruct (decide (w = k mod LRU_COMPACT_WORKSPACE_THREADS)) as [->|Hne]; [done|].
    eapply epoch_ok_frame; [done|lia|done|exact HW|by apply Hok1].
  - cbv beta. intros _ s' ((? & ?) & ?). auto.
Qed.
End phased.
