(* ===== verification/LruFusedV3.v ===== *)
(** * Production LRU Compact: the fused V3 kernel

    Model of [src/src/acc_offload/csrc/operators/acc_offload_lru_compact_fused_v3.cpp].
    One 1024-lane vector function owns the whole operation; its barriers
    ([asc_syncthreads]) cut it into phases.  A phase is a [par] over the iterations of
    its strip-mined loops (or over the threads), so every theorem about it holds for
    every order of execution inside the phase.  Values that all lanes hold alike
    ([missBase], [evictBase], ...) are single variables; values that differ per lane
    (the scan flags) are register lists. *)
From S2P Require Import Prelude Simt WarpScan LruGeneric.

(** ** Constants and layout of the unified buffer *)
Definition LRU_FUSED_V3_THREADS : Z := 1024.
Definition LRU_FUSED_V3_WARP_SIZE : Z := 32.
Definition LRU_FUSED_V3_WARP_COUNT : Z := LRU_FUSED_V3_THREADS / LRU_FUSED_V3_WARP_SIZE.
Definition LRU_FUSED_V3_TOPK : Z := 2048.
Definition LRU_FUSED_V3_CAPACITY : Z := 4096.
Definition LRU_FUSED_V3_MAX_TOKEN : Z := 4096.
Definition LRU_FUSED_V3_WORKSPACE_THREADS : Z := 8.
Definition LRU_FUSED_V3_EPOCH : Z := -2.
Definition LRU_FUSED_V3_TOPK_BYTES : Z := LRU_FUSED_V3_TOPK * 4.
Definition LRU_FUSED_V3_CAPACITY_BYTES : Z := LRU_FUSED_V3_CAPACITY * 4.
Definition LRU_FUSED_V3_TOPK_BLOCKS : Z := LRU_FUSED_V3_TOPK_BYTES / 32.
Definition LRU_FUSED_V3_CAPACITY_BLOCKS : Z := LRU_FUSED_V3_CAPACITY_BYTES / 32.
Definition V3_PROFILE_STAMPS : Z := 8.

Definition CONTROL_CURRENT_EPOCH : Z := 0.
Definition CONTROL_EVICTABLE_COUNT : Z := 1.
Definition CONTROL_HIT_COUNT : Z := 2.
Definition CONTROL_MISS_COUNT : Z := 3.
Definition CONTROL_RESET_ROW : Z := 4.
Definition CONTROL_STABLE_PREFIX : Z := 5.
Definition CONTROL_HAS_MISS : Z := 6.
Definition CONTROL_ELEMENTS_ALIGNED : Z := 8.

(** The regions of the unified buffer, in layout order. *)
Inductive ub :=
  | U_TOPK | U_SLOT_TO_TOKEN | U_LRU_SLOTS | U_CURRENT_SLOTS | U_MISS_TOKENS | U_TOKEN_MARK
  | U_TOKEN_POS | U_MISS_SLOTS | U_SCAN_EVICT_A | U_SCAN_EVICT_B | U_SCAN_HIT_A | U_SCAN_HIT_B
  | U_CONTROL.

#[global] Instance ub_eq_dec : EqDecision ub.
Proof. solve_decision. Defined.

Definition ub_size (b : ub) : Z :=
  match b with
  | U_TOPK => LRU_FUSED_V3_TOPK
  | U_SLOT_TO_TOKEN => LRU_FUSED_V3_CAPACITY
  | U_LRU_SLOTS => LRU_FUSED_V3_CAPACITY
  | U_CURRENT_SLOTS => LRU_FUSED_V3_TOPK
  | U_MISS_TOKENS => LRU_FUSED_V3_TOPK
  | U_TOKEN_MARK => LRU_FUSED_V3_MAX_TOKEN
  | U_TOKEN_POS => LRU_FUSED_V3_MAX_TOKEN
  | U_MISS_SLOTS => LRU_FUSED_V3_TOPK
  | U_SCAN_EVICT_A | U_SCAN_EVICT_B | U_SCAN_HIT_A | U_SCAN_HIT_B => LRU_FUSED_V3_THREADS
  | U_CONTROL => CONTROL_ELEMENTS_ALIGNED
  end.

(** Start of each region, in [int32_t] elements ([TOPK_OFFSET], ..., [SCAN_CONTROL_OFFSET]). *)
Definition TOPK_OFFSET : Z := 0.
Definition SLOT_TO_TOKEN_OFFSET : Z := TOPK_OFFSET + LRU_FUSED_V3_TOPK.
Definition LRU_SLOTS_OFFSET : Z := SLOT_TO_TOKEN_OFFSET + LRU_FUSED_V3_CAPACITY.
Definition CURRENT_SLOTS_OFFSET : Z := LRU_SLOTS_OFFSET + LRU_FUSED_V3_CAPACITY.
Definition MISS_TOKENS_OFFSET : Z := CURRENT_SLOTS_OFFSET + LRU_FUSED_V3_TOPK.
Definition TOKEN_MARK_OFFSET : Z := MISS_TOKENS_OFFSET + LRU_FUSED_V3_TOPK.
Definition TOKEN_POS_OFFSET : Z := TOKEN_MARK_OFFSET + LRU_FUSED_V3_MAX_TOKEN.
Definition GOLDEN_PAYLOAD_ELEMENTS : Z := TOKEN_POS_OFFSET + LRU_FUSED_V3_MAX_TOKEN.
Definition GOLDEN_PAYLOAD_BYTES : Z := GOLDEN_PAYLOAD_ELEMENTS * 4.
Definition MISS_SLOTS_OFFSET : Z := GOLDEN_PAYLOAD_ELEMENTS.
Definition SCAN_EVICT_A_OFFSET : Z := MISS_SLOTS_OFFSET + LRU_FUSED_V3_TOPK.
Definition SCAN_EVICT_B_OFFSET : Z := SCAN_EVICT_A_OFFSET + LRU_FUSED_V3_THREADS.
Definition SCAN_HIT_A_OFFSET : Z := SCAN_EVICT_B_OFFSET + LRU_FUSED_V3_THREADS.
Definition SCAN_HIT_B_OFFSET : Z := SCAN_HIT_A_OFFSET + LRU_FUSED_V3_THREADS.
Definition SCAN_CONTROL_OFFSET : Z := SCAN_HIT_B_OFFSET + LRU_FUSED_V3_THREADS.
Definition FUSED_V3_DYNAMIC_UB_ELEMENTS : Z := SCAN_CONTROL_OFFSET + CONTROL_ELEMENTS_ALIGNED.
Definition FUSED_V3_DYNAMIC_UB_BYTES : Z := FUSED_V3_DYNAMIC_UB_ELEMENTS * 4.

Definition ub_offset (b : ub) : Z :=
  match b with
  | U_TOPK => TOPK_OFFSET
  | U_SLOT_TO_TOKEN => SLOT_TO_TOKEN_OFFSET
  | U_LRU_SLOTS => LRU_SLOTS_OFFSET
  | U_CURRENT_SLOTS => CURRENT_SLOTS_OFFSET
  | U_MISS_TOKENS => MISS_TOKENS_OFFSET
  | U_TOKEN_MARK => TOKEN_MARK_OFFSET
  | U_TOKEN_POS => TOKEN_POS_OFFSET
  | U_MISS_SLOTS => MISS_SLOTS_OFFSET
  | U_SCAN_EVICT_A => SCAN_EVICT_A_OFFSET
  | U_SCAN_EVICT_B => SCAN_EVICT_B_OFFSET
  | U_SCAN_HIT_A => SCAN_HIT_A_OFFSET
  | U_SCAN_HIT_B => SCAN_HIT_B_OFFSET
  | U_CONTROL => SCAN_CONTROL_OFFSET
  end.

(** ** State: device arrays and unified buffer.  The profile stamps have no buffer of
    their own: they alias the [TOKEN_MARK] workspace. *)
Inductive v3 := G (b : gm) | U (b : ub).

#[global] Instance v3_eq_dec : EqDecision v3.
Proof. solve_decision. Defined.

Record UB := mkUB {
  u_topk : list Z; u_slot_to_token : list Z; u_lru_slots : list Z; u_current_slots : list Z;
  u_miss_tokens : list Z; u_token_mark : list Z; u_token_pos : list Z; u_miss_slots : list Z;
  u_scan_evict_a : list Z; u_scan_evict_b : list Z; u_scan_hit_a : list Z; u_scan_hit_b : list Z;
  u_control : list Z;
}.

Definition ub_buf (b : ub) (m : UB) : list Z :=
  match b with
  | U_TOPK => u_topk m | U_SLOT_TO_TOKEN => u_slot_to_token m | U_LRU_SLOTS => u_lru_slots m
  | U_CURRENT_SLOTS => u_current_slots m | U_MISS_TOKENS => u_miss_tokens m
  | U_TOKEN_MARK => u_token_mark m | U_TOKEN_POS => u_token_pos m
  | U_MISS_SLOTS => u_miss_slots m | U_SCAN_EVICT_A => u_scan_evict_a m
  | U_SCAN_EVICT_B => u_scan_evict_b m | U_SCAN_HIT_A => u_scan_hit_a m
  | U_SCAN_HIT_B => u_scan_hit_b m | U_CONTROL => u_control m
  end.

Definition ub_set (b : ub) (l : list Z) (m : UB) : UB :=
  let '(mkUB a0 a1 a2 a3 a4 a5 a6 a7 a8 a9 a10 a11 a12) := m in
  match b with
  | U_TOPK => mkUB l a1 a2 a3 a4 a5 a6 a7 a8 a9 a10 a11 a12
  | U_SLOT_TO_TOKEN => mkUB a0 l a2 a3 a4 a5 a6 a7 a8 a9 a10 a11 a12
  | U_LRU_SLOTS => mkUB a0 a1 l a3 a4 a5 a6 a7 a8 a9 a10 a11 a12
  | U_CURRENT_SLOTS => mkUB a0 a1 a2 l a4 a5 a6 a7 a8 a9 a10 a11 a12
  | U_MISS_TOKENS => mkUB a0 a1 a2 a3 l a5 a6 a7 a8 a9 a10 a11 a12
  | U_TOKEN_MARK => mkUB a0 a1 a2 a3 a4 l a6 a7 a8 a9 a10 a11 a12
  | U_TOKEN_POS => mkUB a0 a1 a2 a3 a4 a5 l a7 a8 a9 a10 a11 a12
  | U_MISS_SLOTS => mkUB a0 a1 a2 a3 a4 a5 a6 l a8 a9 a10 a11 a12
  | U_SCAN_EVICT_A => mkUB a0 a1 a2 a3 a4 a5 a6 a7 l a9 a10 a11 a12
  | U_SCAN_EVICT_B => mkUB a0 a1 a2 a3 a4 a5 a6 a7 a8 l a10 a11 a12
  | U_SCAN_HIT_A => mkUB a0 a1 a2 a3 a4 a5 a6 a7 a8 a9 l a11 a12
  | U_SCAN_HIT_B => mkUB a0 a1 a2 a3 a4 a5 a6 a7 a8 a9 a10 l a12
  | U_CONTROL => mkUB a0 a1 a2 a3 a4 a5 a6 a7 a8 a9 a10 a11 l
  end.

Record V3St := mkV3 { v_gm : GM; v_ub : UB }.

Definition v3_buf (b : v3) (s : V3St) : list Z :=
  match b with G b => gm_buf b (v_gm s) | U b => ub_buf b (v_ub s) end.
Definition v3_set (b : v3) (l : list Z) (s : V3St) : V3St :=
  match b with
  | G b => mkV3 (gm_set b l (v_gm s)) (v_ub s)
  | U b => mkV3 (v_gm s) (ub_set b l (v_ub s))
  end.

#[global] Program Instance v3_memory : Memory v3 V3St := {| buf := v3_buf; set_buf := v3_set |}.
Next Obligation. intros [[]|[]] l [[] []]; done. Qed.
Next Obligation.
  intros [b|b] [b'|b'] l [g u] H; try done; simpl.
  - destruct (decide (b = b')) as [->|Hne]; [done|]. by destruct b, b', g.
  - destruct (decide (b = b')) as [->|Hne]; [done|]. by destruct b, b', u.
Qed.

Section kernel.
Context {Sch : Scheduler} {I : Intrinsics}.
(** [clock()], the device cycle counter, as read at a stage. *)
Variable clock : Z -> Z.

Let threads : list Z := seqZ 0 LRU_FUSED_V3_THREADS.

Definition token_in_range (token : Z) : bool :=
  (0 <=? token) && (token <? LRU_FUSED_V3_MAX_TOKEN).
Definition slot_in_range (slot : Z) : bool :=
  (0 <=? slot) && (slot <? LRU_FUSED_V3_CAPACITY).

(** *** Collectives *)
(** The three phases of [WarpScanPair1024], up to its barriers: lane 31 of each warp
    publishes the warp's totals; warp 0 scans them; every lane adds its warp's base. *)
Definition scan_publish (tag : list Z) (evictInclusive hitInclusive : list Z) : M V3St unit :=
  par (0 :: tag) threads (fun thread =>
    when (lane_of thread =? LRU_FUSED_V3_WARP_SIZE - 1)
      (st (U U_SCAN_EVICT_A) (warp_of thread) evictInclusive.[thread];;
       st (U U_SCAN_HIT_A) (warp_of thread) hitInclusive.[thread])).

Definition scan_bases (tag : list Z) : M V3St unit :=
  warpEvict ← collect (seqZ 0 WARP_SIZE) (fun lane => ld (U U_SCAN_EVICT_A) lane);
  warpHit ← collect (seqZ 0 WARP_SIZE) (fun lane => ld (U U_SCAN_HIT_A) lane);
  let warpEvictInclusive := warp_scan warpEvict in
  let warpHitInclusive := warp_scan warpHit in
  par (1 :: tag) (seqZ 0 WARP_SIZE) (fun lane =>
    st (U U_SCAN_EVICT_B) lane (warpEvictInclusive.[lane] - warpEvict.[lane]);;
    st (U U_SCAN_HIT_B) lane (warpHitInclusive.[lane] - warpHit.[lane])).

Definition scan_combine (tag : list Z) (evictInclusive hitInclusive : list Z) : M V3St unit :=
  par (2 :: tag) threads (fun thread =>
    eb ← ld (U U_SCAN_EVICT_B) (warp_of thread);
    st (U U_SCAN_EVICT_A) thread (eb + evictInclusive.[thread]);;
    hb ← ld (U U_SCAN_HIT_B) (warp_of thread);
    st (U U_SCAN_HIT_A) thread (hb + hitInclusive.[thread])).

Definition WarpScanPair1024 (tag : list Z) (evictFlag hitFlag : list Z) : M V3St unit :=
  let evictInclusive := per_warp warp_scan evictFlag in
  let hitInclusive := per_warp warp_scan hitFlag in
  scan_publish tag evictInclusive hitInclusive;;
  scan_bases tag;;
  scan_combine tag evictInclusive hitInclusive.

Definition StableScanPair1024 (tag : list Z) (evictFlag hitFlag : list Z) : M V3St unit :=
  WarpScanPair1024 tag evictFlag hitFlag.

Definition BlockAny1024 (tag : list Z) (predicate : list Z) : M V3St Z :=
  let any := per_warp warp_any predicate in
  par (0 :: tag) threads (fun thread =>
    when (lane_of thread =? LRU_FUSED_V3_WARP_SIZE - 1)
      (st (U U_SCAN_EVICT_A) (warp_of thread) any.[thread]));;
  warpAny ← collect (seqZ 0 WARP_SIZE) (fun lane => ld (U U_SCAN_EVICT_A) lane);
  let blockAny := warp_any warpAny in
  par (1 :: tag) (seqZ 0 WARP_SIZE) (fun lane =>
    when (lane =? LRU_FUSED_V3_WARP_SIZE - 1) (st (U U_CONTROL) CONTROL_HAS_MISS blockAny.[lane]));;
  ld (U U_CONTROL) CONTROL_HAS_MISS.

(** [profile] indexes the mark workspace as 64-bit words; a stamp is its low and its
    high 32-bit half. *)
Definition RecordV3Stage (profile profileEnabled stage : Z) : M V3St unit :=
  when (negb (profileEnabled =? 0) && (stage <? V3_PROFILE_STAMPS))
    (st (G TOKEN_MARK) (2 * (profile + stage)) (i32 (clock stage));;
     st (G TOKEN_MARK) (2 * (profile + stage) + 1) (i32 (Z.shiftr (clock stage) 32))).

(** *** Reset and prepare *)
(** Thread 0 fills the control words before the first barrier. *)
Definition v3_control (row : Z) : M V3St unit :=
  st (U U_CONTROL) CONTROL_CURRENT_EPOCH LRU_FUSED_V3_EPOCH;;
  st (U U_CONTROL) CONTROL_EVICTABLE_COUNT 0;;
  st (U U_CONTROL) CONTROL_HIT_COUNT 0;;
  st (U U_CONTROL) CONTROL_MISS_COUNT 0;;
  lastReqId ← ld (G LAST_REQ_IDS) row;
  reqId ← ld (G REQ_IDS) row;
  st (U U_CONTROL) CONTROL_RESET_ROW (if negb (lastReqId =? reqId) then 1 else 0);;
  prefix ← ld (G STABLE_PREFIX_LENS) row;
  let prefix :=
    if prefix <? 0 then 0
    else if LRU_FUSED_V3_MAX_TOKEN <? prefix then LRU_FUSED_V3_MAX_TOKEN else prefix in
  st (U U_CONTROL) CONTROL_STABLE_PREFIX prefix.

Definition FusedV3ResetPrepareUb (row : Z) : M V3St unit :=
  v3_control row;;
  resetRow ← ld (U U_CONTROL) CONTROL_RESET_ROW;
  stablePrefixLen ← ld (U U_CONTROL) CONTROL_STABLE_PREFIX;
  par [row; 0]
    ((inl <$> strip_items LRU_FUSED_V3_THREADS LRU_FUSED_V3_TOPK) ++
     (inr <$> strip_items LRU_FUSED_V3_THREADS LRU_FUSED_V3_CAPACITY))
    (fun item : Z + Z =>
       match item with
       | inl pos =>
           st (U U_CURRENT_SLOTS) pos LRU_INVALID_TOKEN;;
           st (U U_MISS_TOKENS) pos LRU_INVALID_TOKEN;;
           st (U U_MISS_SLOTS) pos LRU_INVALID_TOKEN
       | inr slot =>
           if negb (resetRow =? 0) then
             st (U U_SLOT_TO_TOKEN) slot LRU_INVALID_TOKEN;;
             st (U U_LRU_SLOTS) slot slot
           else
             token ← ld (U U_SLOT_TO_TOKEN) slot;
             when (token_in_range token && (stablePrefixLen <=? token))
               (st (U U_SLOT_TO_TOKEN) slot LRU_INVALID_TOKEN)
       end).

(** *** Reset fast path *)
Definition v3_fast_tile (row tile missBase : Z) : M V3St Z :=
  validFlag ← collect threads (fun thread =>
    token ← ld (U U_TOPK) (tile + thread); mret (Z.b2z (token_in_range token)));
  StableScanPair1024 [row; 1; tile] validFlag (replicate (Z.to_nat LRU_FUSED_V3_THREADS) 0);;
  par [row; 2; tile] threads (fun thread =>
    let pos := tile + thread in
    token ← ld (U U_TOPK) pos;
    r ← ld (U U_SCAN_EVICT_A) thread;
    let rank := missBase + r - validFlag.[thread] in
    when (negb (validFlag.[thread] =? 0) && (rank <? LRU_FUSED_V3_CAPACITY))
      (st (U U_CURRENT_SLOTS) pos rank;;
       st (U U_MISS_TOKENS) rank token;;
       st (U U_MISS_SLOTS) rank rank;;
       st (U U_SLOT_TO_TOKEN) rank token));;
  total ← ld (U U_SCAN_EVICT_A) (LRU_FUSED_V3_THREADS - 1);
  mret (missBase + total).

Definition FusedV3ResetFastPath (row : Z) : M V3St unit :=
  missBase ← foldM (strip LRU_FUSED_V3_THREADS LRU_FUSED_V3_TOPK 0) (v3_fast_tile row) 0;
  let assignCount :=
    if LRU_FUSED_V3_CAPACITY <? missBase then LRU_FUSED_V3_CAPACITY else missBase in
  st (U U_CONTROL) CONTROL_MISS_COUNT assignCount;;
  let remainingCount := LRU_FUSED_V3_CAPACITY - assignCount in
  par [row; 3] (strip_items LRU_FUSED_V3_THREADS LRU_FUSED_V3_CAPACITY) (fun output =>
    st (U U_LRU_SLOTS) output
      (if output <? remainingCount then assignCount + output else output - remainingCount)).

(** *** The plan of the normal path, phase by phase *)
Definition v3_init_tables (row : Z) : M V3St unit :=
  par [row; 10] (strip_items LRU_FUSED_V3_THREADS LRU_FUSED_V3_MAX_TOKEN) (fun token =>
    st (U U_TOKEN_MARK) token LRU_INVALID_TOKEN;;
    st (U U_TOKEN_POS) token LRU_FUSED_V3_TOPK).

(** First Top-K occurrence of every token, by atomic minimum. *)
Definition v3_first_pos (row : Z) : M V3St unit :=
  par [row; 11] (strip_items LRU_FUSED_V3_THREADS LRU_FUSED_V3_TOPK) (fun pos =>
    token ← ld (U U_TOPK) pos;
    if token_in_range token then
      old ← ld (U U_TOKEN_POS) token;
      st (U U_TOKEN_POS) token (asc_atomic_min old pos)
    else mret tt).

(** Encode the old LRU row and elect, by atomic maximum, the last order of every
    resident token. *)
Definition v3_encode_item (order : Z) : M V3St unit :=
  slot ← ld (U U_LRU_SLOTS) order;
  encoded ←
    (if slot_in_range slot then
       token ← ld (U U_SLOT_TO_TOKEN) slot;
       hit ← (if token_in_range token then
                p ← ld (U U_TOKEN_POS) token; mret (p <? LRU_FUSED_V3_TOPK)
              else mret false);
       if hit : bool then
         old ← ld (U U_TOKEN_MARK) token;
         st (U U_TOKEN_MARK) token (asc_atomic_max old order);;
         mret (- slot - 2)
       else mret slot
     else mret LRU_INVALID_TOKEN);
  st (U U_LRU_SLOTS) order encoded.

Definition v3_encode (row : Z) : M V3St unit :=
  par [row; 12] (strip_items LRU_FUSED_V3_THREADS LRU_FUSED_V3_CAPACITY) v3_encode_item.

(** The elected order writes the slot of the token's first position. *)
Definition v3_owners (row : Z) : M V3St unit :=
  par [row; 13] (strip_items LRU_FUSED_V3_THREADS LRU_FUSED_V3_CAPACITY) (fun order =>
    encoded ← ld (U U_LRU_SLOTS) order;
    if encoded <=? -2 then
      let slot := - encoded - 2 in
      token ← ld (U U_SLOT_TO_TOKEN) slot;
      owner ← ld (U U_TOKEN_MARK) token;
      if owner =? order then
        p ← ld (U U_TOKEN_POS) token;
        st (U U_CURRENT_SLOTS) p slot
      else mret tt
    else mret tt).

(** Stable compaction of evictable and hit slots, tile by tile. *)
Definition v3_compact_tile (row tile : Z) (bases : Z * Z) : M V3St (Z * Z) :=
  let '(evictBase, hitBase) := bases in
  evictFlag ← collect threads (fun thread =>
    encoded ← ld (U U_LRU_SLOTS) (tile + thread); mret (Z.b2z (slot_in_range encoded)));
  hitFlag ← collect threads (fun thread =>
    encoded ← ld (U U_LRU_SLOTS) (tile + thread); mret (Z.b2z (encoded <=? -2)));
  StableScanPair1024 [row; 14; tile] evictFlag hitFlag;;
  par [row; 15; tile] threads (fun thread =>
    encoded ← ld (U U_LRU_SLOTS) (tile + thread);
    er ← ld (U U_SCAN_EVICT_A) thread;
    hr ← ld (U U_SCAN_HIT_A) thread;
    let evictRank := er - evictFlag.[thread] in
    let hitRank := hr - hitFlag.[thread] in
    when (negb (evictFlag.[thread] =? 0))
      (st (U U_TOKEN_MARK) (evictBase + evictRank) encoded);;
    when (negb (hitFlag.[thread] =? 0))
      (st (U U_TOKEN_MARK) (LRU_FUSED_V3_MAX_TOKEN - 1 - hitBase - hitRank) (- encoded - 2)));;
  et ← ld (U U_SCAN_EVICT_A) (LRU_FUSED_V3_THREADS - 1);
  htot ← ld (U U_SCAN_HIT_A) (LRU_FUSED_V3_THREADS - 1);
  mret (evictBase + et, hitBase + htot).

Definition v3_compact (row : Z) : M V3St (Z * Z) :=
  foldM (strip LRU_FUSED_V3_THREADS LRU_FUSED_V3_CAPACITY 0) (v3_compact_tile row) (0, 0).

(** [missFlag] of a position. *)
Definition v3_is_miss (pos : Z) : M V3St bool :=
  token ← ld (U U_TOPK) pos;
  if token_in_range token then
    cur ← ld (U U_CURRENT_SLOTS) pos; mret (cur <? 0)
  else mret false.

(** Each lane looks at its own positions; the block combines the lanes. *)
Definition v3_has_miss (row : Z) : M V3St Z :=
  localHasMiss ← collect threads (fun thread =>
    foldM (strip LRU_FUSED_V3_THREADS LRU_FUSED_V3_TOPK thread) (fun pos acc =>
      miss ← v3_is_miss pos; mret (if miss : bool then 1 else acc)) 0);
  BlockAny1024 [row; 16] localHasMiss.

Definition v3_miss_tile (row tile missBase : Z) : M V3St Z :=
  missFlag ← collect threads (fun thread =>
    miss ← v3_is_miss (tile + thread); mret (Z.b2z miss));
  StableScanPair1024 [row; 17; tile] missFlag (replicate (Z.to_nat LRU_FUSED_V3_THREADS) 0);;
  par [row; 18; tile] threads (fun thread =>
    let pos := tile + thread in
    token ← ld (U U_TOPK) pos;
    r ← ld (U U_SCAN_EVICT_A) thread;
    let missRank := r - missFlag.[thread] in
    when (negb (missFlag.[thread] =? 0))
      (st (U U_MISS_TOKENS) (missBase + missRank) token;;
       st (U U_TOKEN_POS) (missBase + missRank) pos));;
  total ← ld (U U_SCAN_EVICT_A) (LRU_FUSED_V3_THREADS - 1);
  mret (missBase + total).

Definition v3_misses (row : Z) : M V3St Z :=
  foldM (strip LRU_FUSED_V3_THREADS LRU_FUSED_V3_TOPK 0) (v3_miss_tile row) 0.

(** The token tables, the encoded order and the hit slots. *)
Definition v3_tables (row profile profileEnabled : Z) : M V3St unit :=
  v3_init_tables row;;
  v3_first_pos row;;
  RecordV3Stage profile profileEnabled 2;;
  v3_encode row;;
  v3_owners row.

Definition FusedV3NormalPlan (row profile profileEnabled : Z) : M V3St unit :=
  v3_tables row profile profileEnabled;;
  RecordV3Stage profile profileEnabled 3;;
  bases ← v3_compact row;
  let '(evictBase, hitBase) := bases in
  RecordV3Stage profile profileEnabled 4;;
  hasMiss ← v3_has_miss row;
  missBase ← (if negb (hasMiss =? 0) then v3_misses row else mret 0);
  st (U U_CONTROL) CONTROL_EVICTABLE_COUNT evictBase;;
  st (U U_CONTROL) CONTROL_HIT_COUNT hitBase;;
  st (U U_CONTROL) CONTROL_MISS_COUNT (if missBase <? evictBase then missBase else evictBase);;
  st (U U_TOKEN_POS) (LRU_FUSED_V3_MAX_TOKEN - 2) evictBase;;
  st (U U_TOKEN_POS) (LRU_FUSED_V3_MAX_TOKEN - 1) hitBase;;
  RecordV3Stage profile profileEnabled 5.

(** *** Assignment and rebuild *)
Definition v3_assign (row assignCount : Z) : M V3St unit :=
  par [row; 20] (strip_items LRU_FUSED_V3_THREADS assignCount) (fun missIndex =>
    slot ← ld (U U_TOKEN_MARK) missIndex;
    token ← ld (U U_MISS_TOKENS) missIndex;
    pos ← ld (U U_TOKEN_POS) missIndex;
    when (slot_in_range slot && (0 <=? pos) && (pos <? LRU_FUSED_V3_TOPK))
      (st (U U_SLOT_TO_TOKEN) slot token;;
       st (U U_CURRENT_SLOTS) pos slot;;
       st (U U_MISS_SLOTS) missIndex slot)).

Definition v3_rebuild (row assignCount : Z) : M V3St unit :=
  evictableCount ← ld (U U_TOKEN_POS) (LRU_FUSED_V3_MAX_TOKEN - 2);
  hitCount ← ld (U U_TOKEN_POS) (LRU_FUSED_V3_MAX_TOKEN - 1);
  let unassignedCount := evictableCount - assignCount in
  let validCount := evictableCount + hitCount in
  par [row; 21] (strip_items LRU_FUSED_V3_THREADS LRU_FUSED_V3_CAPACITY) (fun output =>
    slot ←
      (if output <? unassignedCount then ld (U U_TOKEN_MARK) (assignCount + output)
       else if output <? evictableCount then ld (U U_MISS_SLOTS) (output - unassignedCount)
       else if output <? validCount then
         ld (U U_TOKEN_MARK) (LRU_FUSED_V3_MAX_TOKEN - 1 - (output - evictableCount))
       else mret LRU_INVALID_TOKEN);
    st (U U_LRU_SLOTS) output slot).

Definition FusedV3AssignRebuildUb (row : Z) : M V3St unit :=
  assignCount ← ld (U U_CONTROL) CONTROL_MISS_COUNT;
  v3_assign row assignCount;;
  v3_rebuild row assignCount.

(** *** Publication *)
Definition PublishFusedV3StateDirectGm (row epoch : Z) : M V3St unit :=
  par [row; 30]
    ((inl <$> strip_items LRU_FUSED_V3_THREADS LRU_FUSED_V3_CAPACITY) ++
     (inr <$> strip_items LRU_FUSED_V3_THREADS LRU_FUSED_V3_TOPK))
    (fun item : Z + Z =>
       match item with
       | inl index =>
           a ← ld (U U_SLOT_TO_TOKEN) index;
           st (G SLOT_TO_TOKEN) (row * LRU_FUSED_V3_CAPACITY + index) a;;
           b ← ld (U U_LRU_SLOTS) index;
           st (G LRU_SLOTS) (row * LRU_FUSED_V3_CAPACITY + index) b
       | inr index =>
           a ← ld (U U_CURRENT_SLOTS) index;
           st (G CURRENT_SLOTS) (row * LRU_FUSED_V3_TOPK + index) a;;
           b ← ld (U U_MISS_TOKENS) index;
           st (G MISS_TOKENS) (row * LRU_FUSED_V3_TOPK + index) b;;
           c ← ld (U U_MISS_SLOTS) index;
           st (G MISS_SLOTS) (row * LRU_FUSED_V3_TOPK + index) c
       end);;
  reqId ← ld (G REQ_IDS) row;
  st (G LAST_REQ_IDS) row reqId;;
  count ← ld (U U_CONTROL) CONTROL_MISS_COUNT;
  st (G MISS_COUNT) row count;;
  st (G EPOCHS) epoch LRU_FUSED_V3_EPOCH.

Definition LruCompactFusedV3Body (row epoch profile profileEnabled : Z) : M V3St unit :=
  RecordV3Stage profile profileEnabled 0;;
  FusedV3ResetPrepareUb row;;
  RecordV3Stage profile profileEnabled 1;;
  reset ← ld (U U_CONTROL) CONTROL_RESET_ROW;
  (if negb (reset =? 0) then FusedV3ResetFastPath row
   else FusedV3NormalPlan row profile profileEnabled;; FusedV3AssignRebuildUb row);;
  RecordV3Stage profile profileEnabled 6;;
  PublishFusedV3StateDirectGm row epoch;;
  RecordV3Stage profile profileEnabled 7.

Definition CopyGmToUb (destination : ub) (source : gm) (base n blocks : Z) : M V3St unit :=
  fun s =>
    if decide (0 <= base /\ base + n <= len (G source) s) then
      Some (tt, set_buf (U destination)
                  (copy_gm_to_ubuf (buf (U destination) s) (slice (G source) base n s) blocks) s)
    else None.

Definition OffloadLruCompactFusedV3Kernel (row epoch profile profileEnabled : Z) : M V3St unit :=
  CopyGmToUb U_TOPK TOPK_INDICES (row * LRU_FUSED_V3_TOPK) LRU_FUSED_V3_TOPK
    LRU_FUSED_V3_TOPK_BLOCKS;;
  CopyGmToUb U_SLOT_TO_TOKEN SLOT_TO_TOKEN (row * LRU_FUSED_V3_CAPACITY) LRU_FUSED_V3_CAPACITY
    LRU_FUSED_V3_CAPACITY_BLOCKS;;
  CopyGmToUb U_LRU_SLOTS LRU_SLOTS (row * LRU_FUSED_V3_CAPACITY) LRU_FUSED_V3_CAPACITY
    LRU_FUSED_V3_CAPACITY_BLOCKS;;
  LruCompactFusedV3Body row epoch profile profileEnabled.

Definition LaunchFusedV3 (row topk capacity maxToken profileEnabled : Z) : M V3St unit :=
  if (row <? 0) || negb (topk =? LRU_FUSED_V3_TOPK) ||
     negb (capacity =? LRU_FUSED_V3_CAPACITY) || negb (maxToken =? LRU_FUSED_V3_MAX_TOKEN)
  then mret tt
  else
    let workspaceIndex := row mod LRU_FUSED_V3_WORKSPACE_THREADS in
    OffloadLruCompactFusedV3Kernel row workspaceIndex
      (workspaceIndex * (LRU_FUSED_V3_MAX_TOKEN / 2)) profileEnabled.

Definition OffloadOpsLruCompactFusedV3 (row topk capacity max_token profile_enabled : Z)
  : M V3St unit := LaunchFusedV3 row topk capacity max_token profile_enabled.
End kernel.
