(* ===== verification/LruFusedV3Proof.v ===== *)
(** * The fused V3 kernel refines [compact] at the production shape *)
From S2P Require Import Prelude Simt LruSpec WarpScan LruGeneric LruFusedV3.

(** Arithmetic with the kernel's constants. *)
Ltac v3lia :=
  unfold LRU_FUSED_V3_THREADS, LRU_FUSED_V3_TOPK, LRU_FUSED_V3_CAPACITY, LRU_FUSED_V3_MAX_TOKEN,
    WARP_SIZE, LRU_FUSED_V3_WARP_SIZE, CONTROL_CURRENT_EPOCH, CONTROL_EVICTABLE_COUNT,
    CONTROL_HIT_COUNT, CONTROL_MISS_COUNT, CONTROL_RESET_ROW, CONTROL_STABLE_PREFIX,
    CONTROL_HAS_MISS, CONTROL_ELEMENTS_ALIGNED, LRU_INVALID_TOKEN in *; lia.

(** The regions of the unified buffer have their layout sizes. *)
Definition ub_fits (s : V3St) : Prop := forall b, len (U b) s = ub_size b.

Lemma ub_fits_len s s' : (forall b, len b s' = len b s) -> ub_fits s -> ub_fits s'.
Proof. intros H Hf b. rewrite H. apply Hf. Qed.

Lemma ub_fits_writes W s s' : writes_only W s s' -> ub_fits s -> ub_fits s'.
Proof. intros [H _]. by apply ub_fits_len. Qed.

(** Bounds of an access to the unified buffer. *)
Ltac ubr :=
  lens;
  repeat match goal with
  | H : forall b, len b ?s' = len b ?s |- context [len ?b ?s'] => rewrite (H b)
  end;
  match goal with
  | H : ub_fits ?s |- context [len (U ?b) ?s] => rewrite (H b); unfold ub_size; v3lia
  | |- _ => v3lia
  end.

(** Read through the stores of the current state. *)
Ltac ureads :=
  repeat first
    [ rewrite val_upd_other by discriminate
    | rewrite val_upd_eq by ubr
    | rewrite val_upd_ne by v3lia
    | rewrite val_upd by ubr; case_decide ].

Section collectives.
Context {Sch : Scheduler} {I : Intrinsics}.

Definition scan_cells (b : v3) (_ : Z) : Prop :=
  match b with
  | U U_SCAN_EVICT_A | U U_SCAN_EVICT_B | U U_SCAN_HIT_A | U U_SCAN_HIT_B => True
  | _ => False
  end.

Lemma elem_of_threads t : t ∈ seqZ 0 LRU_FUSED_V3_THREADS <-> 0 <= t < 1024.
Proof. rewrite elem_of_seqZ. v3lia. Qed.

(** Solve a [touches] side condition by looking at the listed cells. *)
Local Ltac untouched :=
  intros; repeat case_match; simpl in *; intuition (congruence || subst; simpl in *; tauto).

Lemma scan_publish_spec tag (e h : list Z) s :
  ub_fits s ->
  wp (scan_publish tag (per_warp warp_scan e) (per_warp warp_scan h)) (fun _ s' =>
    writes_only scan_cells s s' /\
    forall w, 0 <= w < 32 ->
      val (U U_SCAN_EVICT_A) w s' = psum (fun i => e.[w * 32 + i]) 32 /\
      val (U U_SCAN_HIT_A) w s' = psum (fun i => h.[w * 32 + i]) 32) s.
Proof.
  intros Hf. unfold scan_publish. apply (wp_par_stores _ _ _ (fun t =>
    if lane_of t =? 31 then
      [(U U_SCAN_EVICT_A, warp_of t, (per_warp warp_scan e).[t]);
       (U U_SCAN_HIT_A, warp_of t, (per_warp warp_scan h).[t])] else [])).
  - apply NoDup_seqZ.
  - intros t Ht%elem_of_threads. pose proof (lane_warp t Ht). case_match; simpl; [|done].
    split_and!; try ubr; intuition congruence.
  - intros t u b k Ht%elem_of_threads Hu%elem_of_threads.
    pose proof (lane_warp t Ht). pose proof (lane_warp u Hu). repeat case_match; simpl; [|done..].
    intros; v3lia.
  - intros t s1 Ht%elem_of_threads HL HV. pose proof (lane_warp t Ht).
    change (LRU_FUSED_V3_WARP_SIZE - 1) with 31. wp_step; rewrite H0; [|done].
    wp_step. wp_step; [ubr|]. wp_step; [ubr|]. done.
  - intros s1 HL HH HV. split.
    { split; [done|]. intros b j Hj Hc. apply HV; [done|untouched]. }
    intros w Hw. destruct (last_lane w Hw) as [El Ew].
    specialize (HH (w * 32 + 31) ltac:(apply elem_of_threads; lia)).
    rewrite El, Ew in HH. simpl in HH. destruct HH as (-> & -> & _).
    rewrite !warp_inclusive_at by lia. by rewrite El, Ew.
Qed.

Lemma scan_bases_spec tag (e h : list Z) s :
  ub_fits s ->
  (forall w, 0 <= w < 32 ->
     val (U U_SCAN_EVICT_A) w s = psum (fun i => e.[w * 32 + i]) 32 /\
     val (U U_SCAN_HIT_A) w s = psum (fun i => h.[w * 32 + i]) 32) ->
  wp (scan_bases tag) (fun _ s' =>
    writes_only scan_cells s s' /\
    forall w, 0 <= w < 32 ->
      val (U U_SCAN_EVICT_B) w s' = psum (fun i => e.[i]) (w * 32) /\
      val (U U_SCAN_HIT_B) w s' = psum (fun i => h.[i]) (w * 32)) s.
Proof.
  intros Hf HT. unfold scan_bases.
  wp_step. apply (wp_collect _ _ (fun lane => val (U U_SCAN_EVICT_A) lane s)).
  { intros l Hl%elem_of_seqZ. wp_step; [ubr|done]. }
  wp_step. apply (wp_collect _ _ (fun lane => val (U U_SCAN_HIT_A) lane s)).
  { intros l Hl%elem_of_seqZ. wp_step; [ubr|done]. }
  fold (tab WARP_SIZE (fun lane => val (U U_SCAN_EVICT_A) lane s)).
  fold (tab WARP_SIZE (fun lane => val (U U_SCAN_HIT_A) lane s)).
  set (we := tab WARP_SIZE (fun lane => val (U U_SCAN_EVICT_A) lane s)).
  set (wh := tab WARP_SIZE (fun lane => val (U U_SCAN_HIT_A) lane s)).
  assert (HB : forall w, 0 <= w < 32 ->
    (warp_scan we).[w] - we.[w] = psum (fun i => e.[i]) (w * 32) /\
    (warp_scan wh).[w] - wh.[w] = psum (fun i => h.[i]) (w * 32)).
  { intros w Hw. split; apply warp_base; try done; intros v Hv; unfold we, wh;
      rewrite at_tab by v3lia; apply HT; done. }
  apply (wp_par_stores _ _ _ (fun lane =>
    [(U U_SCAN_EVICT_B, lane, psum (fun i => e.[i]) (lane * 32));
     (U U_SCAN_HIT_B, lane, psum (fun i => h.[i]) (lane * 32))])).
  - apply NoDup_seqZ.
  - intros t Ht%elem_of_seqZ. simpl. split_and!; try ubr; intuition congruence.
  - intros t u b k _ _. simpl. intuition congruence.
  - intros t s2 Ht%elem_of_seqZ HL HV. destruct (HB t ltac:(v3lia)) as [-> ->].
    wp_step. wp_step; [ubr|]. wp_step; [ubr|]. done.
  - intros s2 HL HH HV. split.
    { split; [done|]. intros b j Hj Hc. apply HV; [done|untouched]. }
    intros w Hw. specialize (HH w ltac:(apply elem_of_seqZ; v3lia)). simpl in HH. tauto.
Qed.

Lemma scan_combine_spec tag (e h : list Z) s :
  ub_fits s ->
  (forall w, 0 <= w < 32 ->
     val (U U_SCAN_EVICT_B) w s = psum (fun i => e.[i]) (w * 32) /\
     val (U U_SCAN_HIT_B) w s = psum (fun i => h.[i]) (w * 32)) ->
  wp (scan_combine tag (per_warp warp_scan e) (per_warp warp_scan h)) (fun _ s' =>
    writes_only scan_cells s s' /\
    forall t, 0 <= t < 1024 ->
      val (U U_SCAN_EVICT_A) t s' = psum (fun i => e.[i]) (t + 1) /\
      val (U U_SCAN_HIT_A) t s' = psum (fun i => h.[i]) (t + 1)) s.
Proof.
  intros Hf HB. unfold scan_combine. apply (wp_par_stores _ _ _ (fun t =>
    [(U U_SCAN_EVICT_A, t, psum (fun i => e.[i]) (t + 1));
     (U U_SCAN_HIT_A, t, psum (fun i => h.[i]) (t + 1))])).
  - apply NoDup_seqZ.
  - intros t Ht%elem_of_threads. simpl. split_and!; try ubr; intuition congruence.
  - intros t u b k _ _. simpl. intuition congruence.
  - intros t s3 Ht%elem_of_threads HL HV. destruct (lane_warp t Ht) as (Hl & Hw & _).
    destruct (HB (warp_of t) Hw) as [HE HH].
    wp_step. wp_step; [ubr|]. rewrite HV, HE by (try lia; untouched).
    wp_step. wp_step; [ubr|]. wp_step. wp_step; [ubr|]. reads.
    rewrite HV, HH by (try lia; untouched).
    wp_step; [ubr|]. simpl. rewrite !warp_inclusive_at by lia. by rewrite !block_inclusive.
  - intros s3 HL HH HV. split.
    { split; [done|]. intros b j Hj Hc. apply HV; [done|untouched]. }
    intros t Ht. specialize (HH t ltac:(by apply elem_of_threads)). simpl in HH. tauto.
Qed.

Lemma StableScanPair1024_spec tag (e h : list Z) s :
  ub_fits s ->
  wp (StableScanPair1024 tag e h) (fun _ s' =>
    writes_only scan_cells s s' /\
    forall t, 0 <= t < 1024 ->
      val (U U_SCAN_EVICT_A) t s' = psum (fun i => e.[i]) (t + 1) /\
      val (U U_SCAN_HIT_A) t s' = psum (fun i => h.[i]) (t + 1)) s.
Proof.
  intros Hf. unfold StableScanPair1024, WarpScanPair1024.
  wp_step. eapply wp_mono; [by apply scan_publish_spec|]. intros _ s1 [HW1 H1].
  assert (Hf1 : ub_fits s1) by (by eapply ub_fits_writes).
  wp_step. eapply wp_mono; [by eapply scan_bases_spec|]. intros _ s2 [HW2 H2].
  eapply wp_mono; [eapply scan_combine_spec; [by eapply ub_fits_writes|done]|].
  intros _ s3 [HW3 H3]. split; [|done].
  by do 2 (eapply writes_only_trans; [eassumption|]).
Qed.

Definition any_cells (b : v3) (j : Z) : Prop :=
  match b with U U_SCAN_EVICT_A => True | U U_CONTROL => j = CONTROL_HAS_MISS | _ => False end.

Lemma warp_any_at (p : list Z) w :
  0 <= w < 32 ->
  (per_warp warp_any p).[w * 32 + 31] <> 0 <-> exists i, 0 <= i < 32 /\ p.[w * 32 + i] <> 0.
Proof.
  intros Hw. destruct (last_lane w Hw) as [El Ew].
  rewrite per_warp_at by (auto using warp_any_length || lia). rewrite El, Ew.
  rewrite warp_any_last by (unfold warp_regs; by rewrite length_tab).
  split; intros (i & Hi & Hp); exists i; (split; [done|]); unfold warp_regs in *;
    by rewrite at_tab in * by v3lia.
Qed.

Lemma BlockAny1024_spec tag (p : list Z) s :
  ub_fits s ->
  wp (BlockAny1024 tag p) (fun v s' =>
    writes_only any_cells s s' /\ (v <> 0 <-> exists t, 0 <= t < 1024 /\ p.[t] <> 0)) s.
Proof.
  intros Hf. unfold BlockAny1024. change (LRU_FUSED_V3_WARP_SIZE - 1) with 31.
  wp_step. apply (wp_par_stores _ _ _ (fun t =>
    if lane_of t =? 31 then [(U U_SCAN_EVICT_A, warp_of t, (per_warp warp_any p).[t])] else [])).
  { apply NoDup_seqZ. }
  { intros t Ht%elem_of_threads. pose proof (lane_warp t Ht). case_match; simpl; [|done].
    split_and!; try ubr; intuition congruence. }
  { intros t u b k Ht%elem_of_threads Hu%elem_of_threads.
    pose proof (lane_warp t Ht). pose proof (lane_warp u Hu). repeat case_match; simpl; [|done..].
    intros; v3lia. }
  { intros t s1 Ht%elem_of_threads HL HV. pose proof (lane_warp t Ht).
    wp_step; rewrite H0; [|done]. wp_step; [ubr|]. done. }
  intros s1 HL1 HH1 HV1.
  wp_step. apply (wp_collect _ _ (fun lane => val (U U_SCAN_EVICT_A) lane s1)).
  { intros l Hl%elem_of_seqZ. wp_step; [ubr|done]. }
  fold (tab WARP_SIZE (fun lane => val (U U_SCAN_EVICT_A) lane s1)).
  set (wa := tab WARP_SIZE (fun lane => val (U U_SCAN_EVICT_A) lane s1)).
  wp_step. apply (wp_par_stores _ _ _ (fun lane =>
    if lane =? 31 then [(U U_CONTROL, CONTROL_HAS_MISS, (warp_any wa).[lane])] else [])).
  { apply NoDup_seqZ. }
  { intros t Ht%elem_of_seqZ. case_match; simpl; [|done]. split_and!; try ubr; tauto. }
  { intros t u b k _ _. repeat case_match; simpl; intros; v3lia. }
  { intros t s2 Ht%elem_of_seqZ HL HV. wp_step; rewrite H; [|done]. wp_step; [ubr|]. done. }
  intros s2 HL2 HH2 HV2. wp_step; [ubr|].
  specialize (HH2 31 ltac:(apply elem_of_seqZ; v3lia)). change (31 =? 31) with true in HH2. destruct HH2 as [-> _].
  split.
  - split; [intros b; by rewrite HL2, HL1|]. intros b j Hj Hc.
    rewrite HV2, HV1; [done|lia|untouched|lia|untouched].
  - rewrite warp_any_last by (unfold wa; by rewrite length_tab).
    assert (Hwa : forall w, 0 <= w < 32 -> wa.[w] = (per_warp warp_any p).[w * 32 + 31]).
    { intros w Hw. unfold wa. rewrite at_tab by v3lia. destruct (last_lane w Hw) as [El Ew].
      specialize (HH1 (w * 32 + 31) ltac:(apply elem_of_threads; lia)).
      rewrite El, Ew in HH1. simpl in HH1. tauto. }
    split.
    + intros (w & Hw & Hne). unfold WARP_SIZE in Hw.
      rewrite Hwa, warp_any_at in Hne by done. destruct Hne as (i & Hi & Hp).
      exists (w * 32 + i). split; [lia|done].
    + intros (t & Ht & Hp). destruct (lane_warp t Ht) as (Hl & Hw & E).
      exists (warp_of t). split; [done|]. rewrite Hwa, warp_any_at by done.
      exists (lane_of t). split; [done|]. by rewrite <- E.
Qed.
End collectives.

(** Two strip-mined loops in one phase. *)
Lemma NoDup_sum_items n a b :
  0 < n -> NoDup ((inl <$> strip_items n a) ++ (inr <$> strip_items n b) : list (Z + Z)).
Proof.
  intros Hn. apply NoDup_app. split_and!.
  - apply NoDup_fmap_2; [by intros ?? [=]|by apply NoDup_strip_items].
  - intros x Hx. apply list_elem_of_fmap in Hx as (p & -> & _). rewrite list_elem_of_fmap. naive_solver.
  - apply NoDup_fmap_2; [by intros ?? [=]|by apply NoDup_strip_items].
Qed.

Lemma elem_of_sum_items n a b (x : Z + Z) :
  0 < n ->
  x ∈ (inl <$> strip_items n a) ++ (inr <$> strip_items n b) <->
  match x with inl p => 0 <= p < a | inr j => 0 <= j < b end.
Proof.
  intros Hn. rewrite elem_of_app, !list_elem_of_fmap. destruct x;
    setoid_rewrite elem_of_strip_items; naive_solver.
Qed.

Local Abbreviation K := LRU_FUSED_V3_TOPK.
Local Abbreviation cap := LRU_FUSED_V3_CAPACITY.
Local Abbreviation T := LRU_FUSED_V3_MAX_TOKEN.

Ltac v3_frame := frames_with ltac:(first
  [ intros [[]|[]] ?; simpl; v3lia
  | simpl; v3lia ]).

(** Solve a [touches] side condition by looking at the listed cells. *)
Ltac untouched :=
  intros; repeat case_match; cbn [touches];
  repeat match goal with |- ~ _ => intros ? end;
  intuition (congruence || (subst; cbv beta iota in *; tauto) || v3lia).

(** The public results in the unified buffer, before they are published. *)
Definition v3_done (topk s2t lru : list Z) (s : V3St) : Prop :=
  slice (U U_SLOT_TO_TOKEN) 0 cap s = plan_s2t cap T topk s2t lru /\
  slice (U U_LRU_SLOTS) 0 cap s = plan_lru cap T topk s2t lru /\
  slice (U U_CURRENT_SLOTS) 0 K s = plan_cur cap T topk s2t lru /\
  slice (U U_MISS_TOKENS) 0 K s = plan_mtok cap T topk s2t lru /\
  slice (U U_MISS_SLOTS) 0 K s = plan_mslot cap T topk s2t lru /\
  val (U U_CONTROL) CONTROL_MISS_COUNT s = n_assign cap T topk s2t lru.

Section row.
Context {Sch : Scheduler} {I : Intrinsics}.
Context (row epoch profile : Z).

(** The device arrays hold the row, its epoch cell and its profile stamps. *)
Definition v3_gm_fits (s : V3St) : Prop :=
  (0 <= row /\ row < len (G REQ_IDS) s /\ row < len (G LAST_REQ_IDS) s /\
   row < len (G STABLE_PREFIX_LENS) s /\ row < len (G MISS_COUNT) s) /\
  (0 <= epoch < len (G EPOCHS) s) /\
  (row * K + K <= len (G TOPK_INDICES) s /\ row * K + K <= len (G CURRENT_SLOTS) s /\
   row * K + K <= len (G MISS_TOKENS) s /\ row * K + K <= len (G MISS_SLOTS) s) /\
  (row * cap + cap <= len (G SLOT_TO_TOKEN) s /\ row * cap + cap <= len (G LRU_SLOTS) s) /\
  (0 <= profile /\ 2 * (profile + V3_PROFILE_STAMPS) <= len (G TOKEN_MARK) s).

Lemma v3_gm_fits_writes W s s' : writes_only W s s' -> v3_gm_fits s -> v3_gm_fits s'.
Proof. intros H. unfold v3_gm_fits. lens. done. Qed.

Definition profile_cells (b : v3) (j : Z) : Prop :=
  match b with G TOKEN_MARK => 2 * profile <= j < 2 * (profile + V3_PROFILE_STAMPS) | _ => False end.

Lemma RecordV3Stage_spec clock en stage s :
  v3_gm_fits s -> 0 <= stage ->
  wp (RecordV3Stage clock profile en stage) (fun _ s' => writes_only profile_cells s s') s.
Proof.
  intros Hf Hs. unfold v3_gm_fits, V3_PROFILE_STAMPS in Hf. unfold RecordV3Stage, V3_PROFILE_STAMPS.
  wp_step; [|apply writes_only_refl]. wp_step. wp_step; [lia|]. wp_step; [side|].
  repeat (apply writes_only_upd; [|lia|cbn [profile_cells]; unfold V3_PROFILE_STAMPS; lia]).
  apply writes_only_refl.
Qed.

(** *** Reset and prepare *)
Context (r : row_in).

(** The kernel's inputs are those of the row [r]. *)
Definition loaded (s : V3St) : Prop :=
  (val (G REQ_IDS) row s = ri_req r /\ val (G LAST_REQ_IDS) row s = ri_last r /\
   val (G STABLE_PREFIX_LENS) row s = ri_prefix r) /\
  (forall i, 0 <= i < K -> val (U U_TOPK) i s = (ri_topk r).[i]) /\
  (forall j, 0 <= j < cap -> val (U U_SLOT_TO_TOKEN) j s = (ri_s2t r).[j] /\
                             val (U U_LRU_SLOTS) j s = (ri_lru r).[j]) /\
  (Z.of_nat (length (ri_topk r)) = K /\ Z.of_nat (length (ri_s2t r)) = cap /\
   Z.of_nat (length (ri_lru r)) = cap).

Definition prepare_cells (b : v3) (j : Z) : Prop :=
  match b with
  | U U_CURRENT_SLOTS | U U_MISS_TOKENS | U U_MISS_SLOTS | U U_SLOT_TO_TOKEN | U U_LRU_SLOTS
  | U U_CONTROL => True
  | _ => False
  end.

Lemma start_s2t_at j :
  Z.of_nat (length (ri_s2t r)) = cap -> 0 <= j < cap ->
  (start_s2t cap T r).[j] =
    if ri_last r =? ri_req r then invalidate T (clamp_prefix T (ri_prefix r)) (ri_s2t r).[j] else -1.
Proof.
  intros Hl Hj. unfold start_s2t. destruct (_ =? _).
  - by rewrite at_fmap by lia.
  - rewrite at_fmap by (rewrite length_tab; lia). by rewrite at_tab.
Qed.

Lemma start_lru_at o :
  0 <= o < cap -> (start_lru cap r).[o] = if ri_last r =? ri_req r then (ri_lru r).[o] else o.
Proof. intros Ho. unfold start_lru. destruct (_ =? _); [done|by rewrite at_tab]. Qed.

Lemma v3_control_spec s :
  ub_fits s -> v3_gm_fits s -> loaded s ->
  wp (v3_control row) (fun _ s' =>
    writes_only (fun b _ => b = U U_CONTROL) s s' /\
    val (U U_CONTROL) CONTROL_RESET_ROW s' = (if ri_last r =? ri_req r then 0 else 1) /\
    val (U U_CONTROL) CONTROL_STABLE_PREFIX s' = clamp_prefix T (ri_prefix r)) s.
Proof.
  intros Hf Hg ((Hreq & Hlast & Hpre) & _). unfold v3_gm_fits in Hg. unfold v3_control.
  unfold CONTROL_CURRENT_EPOCH, CONTROL_EVICTABLE_COUNT, CONTROL_HIT_COUNT, CONTROL_MISS_COUNT,
    CONTROL_RESET_ROW, CONTROL_STABLE_PREFIX.
  do 4 (wp_step; wp_step; [ubr|]).
  wp_step. wp_step; [ubr|]. wp_step. wp_step; [ubr|]. wp_step. wp_step; [ubr|].
  wp_step. wp_step; [ubr|]. reads. rewrite Hreq, Hlast, Hpre. fold (clamp_prefix T (ri_prefix r)).
  wp_step; [ubr|]. split_and!.
  - repeat (apply writes_only_upd; [|lia|done]). apply writes_only_refl.
  - rewrite val_upd_ne by lia. rewrite val_upd_eq by ubr. by destruct (_ =? _).
  - by rewrite val_upd_eq by ubr.
Qed.

Lemma FusedV3ResetPrepareUb_spec s :
  ub_fits s -> v3_gm_fits s -> loaded s ->
  wp (FusedV3ResetPrepareUb row) (fun _ s' =>
    writes_only prepare_cells s s' /\
    val (U U_CONTROL) CONTROL_RESET_ROW s' = (if ri_last r =? ri_req r then 0 else 1) /\
    (forall p, 0 <= p < K -> val (U U_CURRENT_SLOTS) p s' = -1 /\
       val (U U_MISS_TOKENS) p s' = -1 /\ val (U U_MISS_SLOTS) p s' = -1) /\
    (forall j, 0 <= j < cap -> val (U U_SLOT_TO_TOKEN) j s' = (start_s2t cap T r).[j] /\
       val (U U_LRU_SLOTS) j s' = (start_lru cap r).[j])) s.
Proof.
  intros Hf Hg Hld. unfold FusedV3ResetPrepareUb.
  wp_step. eapply wp_mono; [by apply v3_control_spec|]. intros _ s1 (HW1 & Hr1 & Hp1).
  destruct Hld as (_ & _ & HS & _ & Hls & _).
  assert (H1 : forall b j, 0 <= j -> b <> U U_CONTROL -> val b j s1 = val b j s)
    by (intros; by eapply writes_only_val).
  assert (Hf1 : ub_fits s1) by (by eapply ub_fits_writes).
  wp_step. wp_step; [ubr|]. wp_step. wp_step; [ubr|]. rewrite Hr1, Hp1.
  set (drop_tok := fun j => valid_tok T (ri_s2t r).[j] && (clamp_prefix T (ri_prefix r) <=? (ri_s2t r).[j])).
  apply (wp_par_stores _ _ _ (fun it : Z + Z => match it with
    | inl p => [(U U_CURRENT_SLOTS, p, -1); (U U_MISS_TOKENS, p, -1); (U U_MISS_SLOTS, p, -1)]
    | inr j => if ri_last r =? ri_req r then
                 if drop_tok j then [(U U_SLOT_TO_TOKEN, j, -1)] else []
               else [(U U_SLOT_TO_TOKEN, j, -1); (U U_LRU_SLOTS, j, j)] end)).
  { by apply NoDup_sum_items. }
  { intros [p|j] Hi%elem_of_sum_items; [|done| |done]; repeat case_match; simpl; try done;
      split_and!; try ubr; intuition congruence. }
  { intros [p|j] [p'|j'] b k _ _; repeat case_match; simpl; intuition congruence. }
  { intros [p|j] s2 Hi%elem_of_sum_items HL HV; [|done| |done].
    - wp_step. wp_step; [ubr|]. wp_step. wp_step; [ubr|]. wp_step; [ubr|]. done.
    - destruct (HS j Hi) as [HSj HLj].
      destruct (ri_last r =? ri_req r); cbv [negb Z.eqb Pos.eqb].
      + wp_step. wp_step; [ubr|].
        rewrite HV, H1, HSj by (done || lia || (intros [] _ ?; untouched)).
        fold (valid_tok T (ri_s2t r).[j]). fold (token_in_range (ri_s2t r).[j]).
        change (token_in_range (ri_s2t r).[j]) with (valid_tok T (ri_s2t r).[j]).
        fold (drop_tok j). wp_step; rewrite H; [|done]. wp_step; [ubr|done].
      + wp_step. wp_step; [ubr|]. wp_step; [ubr|done]. }
  intros s2 HL HH HV. split_and!.
  - eapply writes_only_trans; [eapply writes_only_weaken; [exact HW1|by intros b j ->]|].
    split; [done|]. intros b j Hj Hc.
    apply HV; [done|]. unfold prepare_cells in Hc. intros [] _; untouched.
  - rewrite HV; [done|v3lia|]. intros [] _; untouched.
  - intros p Hp. specialize (HH (inl p) ltac:(by apply elem_of_sum_items)). simpl in HH. tauto.
  - intros j Hj. rewrite start_s2t_at, start_lru_at by done. destruct (HS j Hj) as [HSj HLj].
    specialize (HH (inr j) ltac:(by apply elem_of_sum_items)). simpl in HH.
    destruct (ri_last r =? ri_req r); simpl in HH; [|tauto]. split.
    + unfold invalidate. fold (drop_tok j). destruct (drop_tok j) eqn:E; simpl in HH; [tauto|].
      rewrite HV, H1, HSj; [done|lia|done|lia|]. intros [|j'] _; untouched.
    + rewrite HV, H1, HLj; [done|lia|done|lia|]. intros [] _; untouched.
Qed.

(** *** Ranks of a tile *)
Lemma tile_scan (P : Z -> bool) tile n :
  0 <= tile -> 0 <= n <= 1024 ->
  psum (fun i => (tab LRU_FUSED_V3_THREADS (fun t => Z.b2z (P (tile + t)))).[i]) n =
    cnt P (tile + n) - cnt P tile.
Proof.
  intros Ht Hn. rewrite <- !psum_cnt by lia. rewrite psum_shift by lia.
  rewrite (psum_ext _ (fun i => Z.b2z (P (tile + i))) n); [lia|].
  intros i Hi. by rewrite at_tab by v3lia.
Qed.

Definition tile_flags (P : Z -> bool) (tile : Z) : list Z :=
  tab LRU_FUSED_V3_THREADS (fun t => Z.b2z (P (tile + t))).

Lemma tile_flags_at P tile t : 0 <= t < 1024 -> (tile_flags P tile).[t] = Z.b2z (P (tile + t)).
Proof. intros. unfold tile_flags. by rewrite at_tab by v3lia. Qed.

Lemma collect_flags P tile (body : Z -> M V3St Z) (Q : list Z -> V3St -> Prop) s :
  (forall t, 0 <= t < 1024 -> wp (body t) (fun v s' => v = Z.b2z (P (tile + t)) /\ s' = s) s) ->
  Q (tile_flags P tile) s -> wp (collect (seqZ 0 LRU_FUSED_V3_THREADS) body) Q s.
Proof.
  intros Hb HQ. apply (wp_collect _ _ (fun t => Z.b2z (P (tile + t)))); [|exact HQ].
  intros t Ht%elem_of_threads. by apply Hb.
Qed.

(** The scan gives every thread the rank of its element in the whole range. *)
Lemma scan_rank P tile (f : Z -> Z) :
  0 <= tile -> (forall t, 0 <= t < 1024 -> f t = psum (fun i => (tile_flags P tile).[i]) (t + 1)) ->
  (forall t, 0 <= t < 1024 -> cnt P tile + f t - (tile_flags P tile).[t] = cnt P (tile + t)) /\
  cnt P tile + f (LRU_FUSED_V3_THREADS - 1) = cnt P (tile + 1024).
Proof.
  intros Ht Hf. split.
  - intros t Hn. rewrite Hf, tile_flags_at by done. unfold tile_flags. rewrite tile_scan by lia.
    rewrite Z.add_assoc, cnt_snoc by lia. lia.
  - rewrite Hf by v3lia. unfold tile_flags. rewrite tile_scan by v3lia.
    change (LRU_FUSED_V3_THREADS - 1 + 1) with 1024. lia.
Qed.

Lemma tile_ranks P Q tag tile s :
  ub_fits s -> 0 <= tile ->
  wp (StableScanPair1024 tag (tile_flags P tile) (tile_flags Q tile)) (fun _ s' =>
    writes_only scan_cells s s' /\
    ((forall t, 0 <= t < 1024 ->
        cnt P tile + val (U U_SCAN_EVICT_A) t s' - (tile_flags P tile).[t] = cnt P (tile + t)) /\
     cnt P tile + val (U U_SCAN_EVICT_A) (LRU_FUSED_V3_THREADS - 1) s' = cnt P (tile + 1024)) /\
    ((forall t, 0 <= t < 1024 ->
        cnt Q tile + val (U U_SCAN_HIT_A) t s' - (tile_flags Q tile).[t] = cnt Q (tile + t)) /\
     cnt Q tile + val (U U_SCAN_HIT_A) (LRU_FUSED_V3_THREADS - 1) s' = cnt Q (tile + 1024))) s.
Proof.
  intros Hf Ht. eapply wp_mono; [by apply StableScanPair1024_spec|]. intros _ s' [HW HS].
  split_and!; [done|..].
  - apply (scan_rank P tile (fun t => val (U U_SCAN_EVICT_A) t s') Ht). apply HS.
  - apply (scan_rank P tile (fun t => val (U U_SCAN_EVICT_A) t s') Ht). apply HS.
  - apply (scan_rank Q tile (fun t => val (U U_SCAN_HIT_A) t s') Ht). apply HS.
  - apply (scan_rank Q tile (fun t => val (U U_SCAN_HIT_A) t s') Ht). apply HS.
Qed.

Lemma tile_flags_none tile : replicate (Z.to_nat LRU_FUSED_V3_THREADS) 0 = tile_flags (fun _ => false) tile.
Proof.
  symmetry. apply tab_eq; [rewrite length_replicate; v3lia|].
  intros i Hi. by rewrite at_replicate by v3lia.
Qed.

(** *** The reset fast path *)
Local Abbreviation topk := (ri_topk r).
Local Abbreviation s2t := (start_s2t cap T r).
Local Abbreviation lru := (start_lru cap r).

(** What the plan starts from, in the unified buffer. *)
Definition prepared (s : V3St) : Prop :=
  (forall i, 0 <= i < K -> val (U U_TOPK) i s = topk.[i]) /\
  (forall p, 0 <= p < K -> val (U U_CURRENT_SLOTS) p s = -1 /\
     val (U U_MISS_TOKENS) p s = -1 /\ val (U U_MISS_SLOTS) p s = -1) /\
  (forall j, 0 <= j < cap -> val (U U_SLOT_TO_TOKEN) j s = s2t.[j] /\
     val (U U_LRU_SLOTS) j s = lru.[j]) /\
  (Z.of_nat (length topk) = K /\ Z.of_nat (length (ri_s2t r)) = cap /\
   Z.of_nat (length (ri_lru r)) = cap).

Section reset.
Context (Hreset : (ri_last r =? ri_req r) = false).
Context (Htopk : Z.of_nat (length topk) = K) (Hls : Z.of_nat (length (ri_s2t r)) = cap).
Definition vt (p : Z) : bool := valid_tok T topk.[p].

Lemma reset_no_hit j : is_hit cap T topk s2t j = false.
Proof.
  unfold is_hit. destruct (valid_slot cap j) eqn:E; [|done]. unfold valid_slot in E.
  rewrite start_s2t_at, Hreset by (done || lia). done.
Qed.

Lemma reset_ev o : 0 <= o < cap -> evictable_at cap T topk s2t lru o = true.
Proof.
  intros Ho. unfold evictable_at. rewrite reset_no_hit, start_lru_at, Hreset by done.
  unfold valid_slot. lia.
Qed.

Lemma reset_evict_rank k : 0 <= k <= cap -> cnt (evictable_at cap T topk s2t lru) k = k.
Proof.
  intros Hk. rewrite (cnt_ext _ (fun _ => true)) by (intros; apply reset_ev; lia).
  destruct Hk as [Hk _]. revert k Hk.
  apply (natlike_ind (fun k => cnt (fun _ => true) k = k)); [by rewrite cnt_0|].
  intros k Hk IH. unfold Z.succ. by rewrite cnt_snoc, IH.
Qed.

Lemma reset_evict k : 0 <= k < cap -> (evict cap T topk s2t lru).[k] = k.
Proof.
  intros Hk. rewrite <- (reset_evict_rank k) at 1 by lia.
  rewrite evict_at_rank by (done || by apply reset_ev). by rewrite start_lru_at, Hreset.
Qed.

Lemma reset_hit_slot p : hit_slot cap T topk s2t lru p = -1.
Proof.
  destruct (hit_slot_cases cap T topk s2t lru p) as [E|(Hv & _ & o & Ho & Hvs & E & _)]; [done|].
  exfalso. unfold valid_slot in Hvs.
  rewrite start_s2t_at, Hreset in E by (done || lia). rewrite <- E in Hv. done.
Qed.

Lemma reset_miss p : miss_at cap T topk s2t lru p = vt p.
Proof. unfold miss_at, vt. rewrite reset_hit_slot. destruct (valid_tok T topk.[p]); done. Qed.

Lemma reset_cnt_miss n : cnt (miss_at cap T topk s2t lru) n = cnt vt n.
Proof. apply cnt_ext. intros. apply reset_miss. Qed.

Lemma reset_n_assign : n_assign cap T topk s2t lru = cnt vt K.
Proof.
  unfold n_assign. rewrite Htopk, reset_cnt_miss, reset_evict_rank by v3lia.
  pose proof (cnt_bounds vt K ltac:(v3lia)). v3lia.
Qed.

Lemma reset_cnt_hit : cnt (hit_at cap T topk s2t lru) cap = 0.
Proof.
  pose proof (cnt_ev_ht cap T topk s2t lru ltac:(v3lia)) as H.
  rewrite reset_evict_rank in H by v3lia.
  pose proof (cnt_bounds (hit_at cap T topk s2t lru) cap ltac:(v3lia)). lia.
Qed.

Lemma reset_lru_inj : lru_inj cap lru.
Proof. intros o1 o2 H1 H2 _. by rewrite !start_lru_at, Hreset. Qed.

Definition fast_cells (b : v3) (j : Z) : Prop :=
  match b with
  | U U_CURRENT_SLOTS | U U_MISS_TOKENS | U U_MISS_SLOTS | U U_SLOT_TO_TOKEN => True
  | _ => scan_cells b j
  end.

(** After the tiles below [n]: every valid position took the slot of its rank. *)
Definition fast_inv (s : V3St) (n c : Z) (s' : V3St) : Prop :=
  writes_only fast_cells s s' /\ c = cnt vt n /\
  (forall p, 0 <= p < n -> vt p = true ->
     val (U U_CURRENT_SLOTS) p s' = cnt vt p /\
     val (U U_MISS_TOKENS) (cnt vt p) s' = topk.[p] /\
     val (U U_MISS_SLOTS) (cnt vt p) s' = cnt vt p /\
     val (U U_SLOT_TO_TOKEN) (cnt vt p) s' = topk.[p]) /\
  (forall p, 0 <= p < K -> n <= p \/ vt p = false ->
     val (U U_CURRENT_SLOTS) p s' = -1) /\
  (forall j, c <= j < K -> val (U U_MISS_TOKENS) j s' = -1 /\ val (U U_MISS_SLOTS) j s' = -1) /\
  (forall j, c <= j < cap -> val (U U_SLOT_TO_TOKEN) j s' = -1).

Lemma vt_lt p q : 0 <= p < q -> vt p = true -> 0 <= cnt vt p < cnt vt q.
Proof. intros Hp Hv. pose proof (cnt_bounds vt p ltac:(lia)). pose proof (cnt_lt vt q p Hp Hv). lia. Qed.

Lemma fast_tile s tile c s1 :
  ub_fits s -> prepared s -> 0 <= tile -> tile + 1024 <= K -> fast_inv s tile c s1 ->
  wp (v3_fast_tile row tile c) (fast_inv s (tile + 1024)) s1.
Proof.
  intros Hf (Htk & _ & _) Ht0 Ht1 (HW & -> & H1 & H2 & H3 & H4).
  assert (Hf1 : ub_fits s1) by (by eapply ub_fits_writes).
  assert (Htk1 : forall i, 0 <= i < K -> val (U U_TOPK) i s1 = topk.[i]).
  { intros i Hi. rewrite (writes_only_val _ _ _ _ _ HW) by (simpl; tauto || lia). auto. }
  unfold v3_fast_tile.
  wp_step. apply (collect_flags vt tile).
  { intros t Ht. wp_step. wp_step; [ubr|]. wp_step. by rewrite Htk1 by v3lia. }
  wp_step. rewrite (tile_flags_none tile).
  eapply wp_mono; [by apply (tile_ranks vt)|]. intros _ s2 (HW2 & (Hrank & Htot) & _).
  assert (Hf2 : ub_fits s2) by (by eapply ub_fits_writes).
  assert (Hcap : forall t, 0 <= t < 1024 -> 0 <= cnt vt (tile + t) <= tile + t)
    by (intros; apply cnt_bounds; lia).
  assert (HT2 : forall i, 0 <= i < K -> val (U U_TOPK) i s2 = topk.[i]).
  { intros i Hi. rewrite (writes_only_val _ _ _ _ _ HW2) by (simpl; tauto || lia). auto. }
  wp_step. apply (wp_par_stores _ _ _ (fun t => if vt (tile + t) then
    [(U U_CURRENT_SLOTS, tile + t, cnt vt (tile + t));
     (U U_MISS_TOKENS, cnt vt (tile + t), topk.[tile + t]);
     (U U_MISS_SLOTS, cnt vt (tile + t), cnt vt (tile + t));
     (U U_SLOT_TO_TOKEN, cnt vt (tile + t), topk.[tile + t])] else [])).
  { apply NoDup_seqZ. }
  { intros t Ht%elem_of_threads. pose proof (Hcap t Ht). case_match; simpl; [|done].
    split_and!; try ubr; intuition congruence. }
  { intros t u b k Ht%elem_of_threads Hu%elem_of_threads.
    destruct (vt (tile + t)) eqn:E1, (vt (tile + u)) eqn:E2; cbn [touches]; [|tauto..].
    intros A1 A2. enough (tile + t = tile + u) by lia.
    assert (tile + t = tile + u \/ cnt vt (tile + t) = cnt vt (tile + u)) as [?|E]
      by (destruct_or?; destruct_and?; try done; first [left; congruence|right; congruence]);
      [done|]. by apply (cnt_inj vt); [lia|lia|..]. }
  { intros t s3 Ht%elem_of_threads HL HV. pose proof (Hcap t Ht).
    wp_step. wp_step; [ubr|]. rewrite HV by (try lia; untouched).
    wp_step. wp_step; [ubr|]. rewrite HV by (try lia; untouched).
    rewrite Hrank, tile_flags_at, HT2 by v3lia.
    wp_step; destruct (vt (tile + t)) eqn:E; try (simpl in *; v3lia); [|done].
    wp_step. wp_step; [ubr|]. wp_step. wp_step; [ubr|]. wp_step. wp_step; [ubr|].
    wp_step; [ubr|done]. }
  intros s3 HL HH HV. wp_step. wp_step; [ubr|]. wp_step. rewrite HV by (try v3lia; untouched).
  rewrite Htot.
  assert (H13 : forall b k, 0 <= k -> ~ scan_cells b k ->
    (forall t, 0 <= t < 1024 -> vt (tile + t) = true ->
       match b with
       | U U_CURRENT_SLOTS => k <> tile + t
       | U U_MISS_TOKENS | U U_MISS_SLOTS | U U_SLOT_TO_TOKEN => k <> cnt vt (tile + t)
       | _ => True
       end) -> val b k s3 = val b k s1).
  { intros b k Hk Hsc Hno. rewrite HV; [by apply (writes_only_val _ _ _ _ _ HW2)|done|].
    intros t Ht%elem_of_threads. specialize (Hno t Ht). destruct (vt (tile + t)); cbn [touches]; [|tauto].
    specialize (Hno eq_refl). intros Hx. destruct_or?; destruct_and?; subst; simpl in Hno; congruence. }
  assert (Hlt : forall t, 0 <= t < 1024 -> vt (tile + t) = true ->
    cnt vt tile <= cnt vt (tile + t) < cnt vt (tile + 1024)).
  { intros t Ht Hv. split; [apply cnt_mono; lia|apply cnt_lt; [lia|done]]. }
  pose proof (cnt_mono vt tile (tile + 1024) ltac:(lia)).
  pose proof (cnt_bounds vt tile ltac:(lia)).
  split_and!; [|done|..].
  - eapply writes_only_trans; [exact HW|]. split.
    { intros b. by rewrite HL, (writes_only_len _ _ _ b HW2). }
    intros b j Hj Hc. unfold fast_cells in Hc. apply H13; [done|..];
      destruct b as [[]|[]]; simpl in *; tauto.
  - intros p Hp Hv. destruct (Z.le_gt_cases tile p) as [Hge|Hlt'].
    + specialize (HH (p - tile) ltac:(apply elem_of_threads; lia)).
      replace (tile + (p - tile)) with p in HH by lia. rewrite Hv in HH. cbn [holds] in HH. tauto.
    + pose proof (vt_lt p tile ltac:(lia) Hv).
      rewrite !H13; [apply H1; [lia|done]|..]; try lia; try (simpl; tauto);
        intros t Ht Hv'; specialize (Hlt t Ht Hv'); lia.
  - intros p Hp Ho. rewrite H13; [apply H2; [done|]|lia|simpl; tauto|].
    + destruct Ho; [left; lia|by right].
    + intros t Ht Hv ->. destruct Ho; [lia|congruence].
  - intros j Hj. rewrite !H13; [apply H3; lia|..]; try lia; try (simpl; tauto);
      intros t Ht Hv; specialize (Hlt t Ht Hv); lia.
  - intros j Hj. rewrite !H13; [apply H4; lia|lia|simpl; tauto|];
      intros t Ht Hv; specialize (Hlt t Ht Hv); lia.
Qed.

Definition fast_path_cells (b : v3) (j : Z) : Prop :=
  match b with
  | U U_LRU_SLOTS | U U_CONTROL => True
  | _ => fast_cells b j
  end.

Lemma fast_done s1 s' :
  (forall p, 0 <= p < K -> vt p = true ->
     val (U U_CURRENT_SLOTS) p s1 = cnt vt p /\
     val (U U_MISS_TOKENS) (cnt vt p) s1 = topk.[p] /\
     val (U U_MISS_SLOTS) (cnt vt p) s1 = cnt vt p /\
     val (U U_SLOT_TO_TOKEN) (cnt vt p) s1 = topk.[p]) ->
  (forall p, 0 <= p < K -> K <= p \/ vt p = false -> val (U U_CURRENT_SLOTS) p s1 = -1) ->
  (forall j, cnt vt K <= j < K ->
     val (U U_MISS_TOKENS) j s1 = -1 /\ val (U U_MISS_SLOTS) j s1 = -1) ->
  (forall j, cnt vt K <= j < cap -> val (U U_SLOT_TO_TOKEN) j s1 = -1) ->
  (forall b j, 0 <= j -> b <> U U_LRU_SLOTS -> b <> U U_CONTROL -> val b j s' = val b j s1) ->
  (forall o, 0 <= o < cap -> val (U U_LRU_SLOTS) o s' =
     if o <? cap - cnt vt K then cnt vt K + o else o - (cap - cnt vt K)) ->
  val (U U_CONTROL) CONTROL_MISS_COUNT s' = cnt vt K ->
  v3_done topk s2t lru s'.
Proof.
  intros H1 H2 H3 H4 H31 HLRU Hcnt. pose proof (cnt_bounds vt K ltac:(v3lia)) as Hb.
  assert (HMS : forall k, 0 <= k < cnt vt K -> let p := (misses cap T topk s2t lru).[k] in
    0 <= p < K /\ vt p = true /\ cnt vt p = k).
  { intros k Hk. rewrite (misses_def _ _ _ _ _ K) by done. rewrite <- reset_cnt_miss in Hk.
    destruct (idx_rank _ _ _ Hk) as (A & B & C). rewrite reset_miss in B by done.
    rewrite reset_cnt_miss in C by done. done. }
  assert (Hsl : forall b n, b <> U U_LRU_SLOTS -> b <> U U_CONTROL ->
    slice b 0 n s' = tab n (fun j => val b j s1)).
  { intros b n Hb1 Hb2. apply tab_ext. intros j Hj. rewrite Z.add_0_l. apply H31; [lia|done|done]. }
  destruct (plan_assigned cap T topk s2t lru K Htopk
    (fun j => val (U U_SLOT_TO_TOKEN) j s1) (fun j => val (U U_CURRENT_SLOTS) j s1)
    (fun j => val (U U_MISS_SLOTS) j s1)) as (Hs & Hc & Hm);
    try (rewrite reset_n_assign by done); [v3lia|by apply reset_lru_inj| |..].
  { by apply length_start_s2t. }
  { intros k Hk. destruct (HMS k Hk) as (Hp & Hv & E). destruct (H1 _ Hp Hv) as (A1 & A2 & A3 & A4).
    rewrite E in *. rewrite reset_evict by (done || v3lia). auto. }
  { intros j Hj Hno. rewrite start_s2t_at, Hreset by done. apply H4.
    destruct (Z.le_gt_cases (cnt vt K) j); [lia|]. exfalso.
    apply (Hno j); [lia|]. by apply reset_evict. }
  { intros p Hp Hno. rewrite reset_hit_slot by done. apply H2; [done|]. right.
    destruct (vt p) eqn:Hv; [|done]. exfalso.
    pose proof (vt_lt p K Hp Hv). apply (Hno (cnt vt p)); [done|].
    rewrite (misses_def _ _ _ _ _ K) by done. rewrite <- reset_cnt_miss by done.
    apply idx_at_rank; [done|]. by rewrite reset_miss. }
  { intros j Hj. by apply H3. }
  unfold v3_done. rewrite (Hsl (U U_SLOT_TO_TOKEN)), (Hsl (U U_CURRENT_SLOTS)),
    (Hsl (U U_MISS_TOKENS)), (Hsl (U U_MISS_SLOTS)) by done. split_and!; try done.
  - rewrite <- (plan_lru_rebuilt _ _ _ _ _ K) by (done || v3lia). apply tab_ext. intros o Ho.
    rewrite Z.add_0_l, HLRU by done. unfold rebuilt.
    rewrite reset_n_assign, reset_evict_rank by (done || v3lia).
    destruct (Z.ltb_spec o (cap - cnt vt K)).
    + by rewrite reset_evict by (done || v3lia).
    + replace (o <? cap) with true by lia. by rewrite reset_evict by (done || v3lia).
  - unfold plan_mtok. rewrite Htopk. apply tab_ext. intros j Hj. rewrite reset_cnt_miss by done.
    destruct (Z.ltb_spec j (cnt vt K)); [|apply H3; lia].
    destruct (HMS j ltac:(lia)) as (Hp & Hv & E). destruct (H1 _ Hp Hv) as (_ & A & _).
    by rewrite E in A.
  - by rewrite reset_n_assign.
Qed.

Lemma FusedV3ResetFastPath_spec s :
  ub_fits s -> prepared s ->
  wp (FusedV3ResetFastPath row)
     (fun _ s' => writes_only fast_path_cells s s' /\ v3_done topk s2t lru s') s.
Proof.
  intros Hf HP. unfold FusedV3ResetFastPath.
  wp_step. apply (wp_tiles LRU_FUSED_V3_THREADS 2 _ (fast_inv s)); [v3lia|lia| | |].
  { destruct HP as (_ & H1 & H2 & _). split_and!; [apply writes_only_refl|by rewrite cnt_0|lia|..].
    - intros p Hp _. by apply H1.
    - intros j Hj. split; apply H1; lia.
    - intros j Hj. destruct (H2 j Hj) as [-> _]. by rewrite start_s2t_at, Hreset. }
  { intros tile a s1 Ht0 Ht1 HI. apply fast_tile; try done. }
  change (2 * LRU_FUSED_V3_THREADS) with K. intros c s1 (HW & -> & H1 & H2 & H3 & H4).
  pose proof (cnt_bounds vt K ltac:(v3lia)) as Hb.
  replace (cap <? cnt vt K) with false by v3lia. cbv iota zeta.
  wp_step. wp_step; [ubr|]. set (s2 := upd (U U_CONTROL) CONTROL_MISS_COUNT (cnt vt K) s1).
  assert (Hf2 : ub_fits s2)
    by (eapply ub_fits_len; [intros b; apply len_upd|by eapply ub_fits_writes]).
  apply (wp_par_stores _ _ _ (fun o => [(U U_LRU_SLOTS, o,
    if o <? cap - cnt vt K then cnt vt K + o else o - (cap - cnt vt K))])).
  { by apply NoDup_strip_items. }
  { intros o Ho%elem_of_strip_items; [|done]. simpl. split_and!; try ubr; tauto. }
  { intros t u b k _ _. simpl. intuition congruence. }
  { intros o s3 Ho%elem_of_strip_items HL HV; [|done]. wp_step; [ubr|done]. }
  intros s3 HL HH HV.
  assert (H31 : forall b j, 0 <= j -> b <> U U_LRU_SLOTS -> b <> U U_CONTROL ->
    val b j s3 = val b j s1).
  { intros b j Hj Hb1 Hb2. rewrite HV; [apply val_upd_other; congruence|done|untouched]. }
  split.
  { split; [intros b; rewrite HL; unfold s2; by rewrite len_upd, (writes_only_len _ _ _ b HW)|].
    intros b j Hj Hc. rewrite H31; [|done|by intros ->|by intros ->].
    apply (writes_only_val _ _ _ _ _ HW); [done|]. destruct b as [[]|[]]; simpl in *; tauto. }
  apply (fast_done s1); try done.
  - intros o Ho. specialize (HH o ltac:(by apply elem_of_strip_items)). simpl in HH. tauto.
  - rewrite HV by (try v3lia; untouched). unfold s2. rewrite val_upd_eq by ubr. done.
Qed.
End reset.
End row.
