(* ===== verification/LruFusedV3Plan.v ===== *)
(** * The normal path of the fused V3 kernel

    Phase-by-phase specifications of [FusedV3NormalPlan] and [FusedV3AssignRebuildUb]:
    the atomic elections do not depend on the schedule, the tile compactions are the
    stable selections of the reference plan. *)
From S2P Require Import Prelude Simt LruSpec WarpScan LruGeneric LruFusedV3 LruFusedV3Proof.

Local Abbreviation K := LRU_FUSED_V3_TOPK.
Local Abbreviation cap := LRU_FUSED_V3_CAPACITY.
Local Abbreviation T := LRU_FUSED_V3_MAX_TOKEN.

Section normal.
Context {Sch : Scheduler} {I : Intrinsics}.
Context (row : Z) (topk s2t lru : list Z).
Context (Htopk : Z.of_nat (length topk) = K).

Local Abbreviation ev := (evictable_at cap T topk s2t lru).
Local Abbreviation ht := (hit_at cap T topk s2t lru).
Local Abbreviation ms := (miss_at cap T topk s2t lru).
Local Abbreviation EV := (evict cap T topk s2t lru).
Local Abbreviation HT := (hits cap T topk s2t lru).
Local Abbreviation MS := (misses cap T topk s2t lru).
Local Abbreviation na := (n_assign cap T topk s2t lru).

Definition topk_loaded (s : V3St) : Prop := forall i, 0 <= i < K -> val (U U_TOPK) i s = topk.[i].

(** Frame of a phase that writes whole regions. *)
Fixpoint regions (l : list ub) (b : v3) (j : Z) : Prop :=
  match l with [] => False | x :: l => b = U x \/ regions l b j end.

(** The stores of a phase stay in its regions. *)
Local Ltac region_frame HL HV :=
  split; [exact HL|]; intros b j Hj Hc; apply HV; [exact Hj|]; intros i _ Ht; apply Hc;
  repeat case_match; cbn [touches app] in Ht; destruct_or?; destruct_and?; subst; simpl; tauto.

(** *** Tables *)
Lemma v3_init_tables_spec s :
  ub_fits s ->
  wp (v3_init_tables row) (fun _ s' =>
    writes_only (regions [U_TOKEN_MARK; U_TOKEN_POS]) s s' /\
    forall t, 0 <= t < T -> val (U U_TOKEN_MARK) t s' = -1 /\ val (U U_TOKEN_POS) t s' = K) s.
Proof.
  clear Htopk. intros Hf. unfold v3_init_tables.
  apply (wp_par_stores _ _ _ (fun t => [(U U_TOKEN_MARK, t, -1); (U U_TOKEN_POS, t, K)])).
  - by apply NoDup_strip_items.
  - intros t Ht%elem_of_strip_items; [|done]. simpl. split_and!; try ubr; intuition congruence.
  - intros t u b k _ _. simpl. intuition congruence.
  - intros t s1 Ht%elem_of_strip_items HL HV; [|done]. wp_step. wp_step; [ubr|]. wp_step; [ubr|done].
  - intros s1 HL HH HV. split.
    + region_frame HL HV.
    + intros t Ht. specialize (HH t ltac:(by apply elem_of_strip_items)). simpl in HH. tauto.
Qed.

(** The position table: the first position of every requested token, [K] otherwise. *)
Definition pos_table (s : V3St) : Prop := forall t, 0 <= t < T ->
  let p := val (U U_TOKEN_POS) t s in
  (0 <= p < K /\ topk.[p] = t /\ (forall i, 0 <= i < p -> topk.[i] <> t)) \/
  (p = K /\ (forall i, 0 <= i < K -> topk.[i] <> t)).

Definition first_inv (s : V3St) (ds : list Z) (s' : V3St) : Prop :=
  writes_only (regions [U_TOKEN_POS]) s s' /\
  forall t, 0 <= t < T -> let p := val (U U_TOKEN_POS) t s' in
    p <= K /\ (forall q, q ∈ ds -> topk.[q] = t -> p <= q) /\ (p < K -> 0 <= p /\ topk.[p] = t).

Lemma v3_first_pos_spec s :
  ub_fits s -> topk_loaded s -> (forall t, 0 <= t < T -> val (U U_TOKEN_POS) t s = K) ->
  wp (v3_first_pos row) (fun _ s' => writes_only (regions [U_TOKEN_POS]) s s' /\ pos_table s') s.
Proof.
  intros Hf Htk H0. unfold v3_first_pos. apply (wp_par _ _ _ (first_inv s)).
  - by apply NoDup_strip_items.
  - split; [apply writes_only_refl|]. intros t Ht. cbv zeta. rewrite H0 by done.
    split_and!; [lia|set_solver|lia].
  - intros ds p s1 Hp%elem_of_strip_items Hds Hsub [HW HI]; [|done].
    wp_step. wp_step; [ubr|]. rewrite (writes_only_val _ _ _ _ _ HW), Htk by (simpl; intuition congruence || lia).
    wp_step.
    + unfold token_in_range in *. wp_step. wp_step; [ubr|]. wp_step; [ubr|].
      rewrite asc_atomic_min_spec. split.
      { apply writes_only_upd; [done|lia|simpl; tauto]. }
      intros t Ht. cbv zeta. destruct (HI t Ht) as (A & B & C). ureads.
      * subst t. split_and!; [lia| |].
        { intros q [->|Hq]%elem_of_cons Eq; [lia|]. specialize (B q Hq Eq). lia. }
        { intros Hlt. destruct (Z.min_spec (val (U U_TOKEN_POS) topk.[p] s1) p) as [[? ->]|[? ->]];
            [apply C; lia|split; [lia|done]]. }
      * split_and!; [done| |done]. intros q [->|Hq]%elem_of_cons Eq; [congruence|auto].
    + wp_step. split; [done|]. intros t Ht. cbv zeta. destruct (HI t Ht) as (A & B & C).
      split_and!; [done| |done]. intros q [->|Hq]%elem_of_cons Eq; [|auto].
      unfold token_in_range in *. v3lia.
  - intros ds s1 Hall [HW HI]. split; [done|]. intros t Ht. cbv zeta.
    destruct (HI t Ht) as (A & B & C).
    assert (Hq : forall q, 0 <= q < K -> topk.[q] = t -> val (U U_TOKEN_POS) t s1 <= q).
    { intros q Hq. apply B, Hall. by apply elem_of_strip_items. }
    destruct (Z.lt_ge_cases (val (U U_TOKEN_POS) t s1) K) as [Hlt|Hge].
    + left. destruct (C Hlt) as [? ?]. split_and!; [done|done|done|].
      intros i Hi Ei. specialize (Hq i ltac:(lia) Ei). lia.
    + right. split; [lia|]. intros i Hi Ei. specialize (Hq i Hi Ei). lia.
Qed.

Lemma pos_table_hit s t :
  pos_table s -> 0 <= t < T -> (val (U U_TOKEN_POS) t s <? K) = bool_decide (t ∈ topk).
Proof.
  intros Hp Ht. destruct (Hp t Ht) as [(A & B & _)|(A & B)].
  - rewrite bool_decide_eq_true_2; [lia|]. rewrite <- B. apply elem_of_at_2. lia.
  - rewrite bool_decide_eq_false_2; [lia|]. rewrite elem_of_at. intros (i & Hi & E).
    apply (B i); [lia|done].
Qed.

(** *** Encoding and election *)

(** Order [o] of the old LRU row holds the requested token [t]. *)
Definition holder (o t : Z) : Prop := ht o = true /\ s2t.[lru.[o]] = t.

Definition tables_loaded (s : V3St) : Prop :=
  (forall j, 0 <= j < cap -> val (U U_SLOT_TO_TOKEN) j s = s2t.[j]) /\
  (forall o, 0 <= o < cap -> val (U U_LRU_SLOTS) o s = lru.[o]).

Definition encode_inv (s : V3St) (ds : list Z) (s' : V3St) : Prop :=
  writes_only (regions [U_LRU_SLOTS; U_TOKEN_MARK]) s s' /\
  (forall o, 0 <= o < cap -> val (U U_LRU_SLOTS) o s' =
     if decide (o ∈ ds) then encoded cap T topk s2t lru o else lru.[o]) /\
  (forall t, 0 <= t < T -> let m := val (U U_TOKEN_MARK) t s' in
     -1 <= m /\ (forall o, o ∈ ds -> holder o t -> o <= m) /\
     (0 <= m -> m < cap /\ holder m t)).

Lemma encode_inv_keep s ds o s' s'' :
  encode_inv s ds s' -> 0 <= o < cap -> (forall t, ~ holder o t) ->
  writes_only (regions [U_LRU_SLOTS]) s' s'' ->
  (forall o', 0 <= o' < cap -> val (U U_LRU_SLOTS) o' s'' =
     if decide (o = o') then encoded cap T topk s2t lru o else val (U U_LRU_SLOTS) o' s') ->
  encode_inv s (o :: ds) s''.
Proof.
  intros (HW & HL & HM) Ho Hno HW' HL'. split_and!.
  - eapply writes_only_trans; [exact HW|]. eapply writes_only_weaken; [exact HW'|].
    intros b j. simpl. tauto.
  - intros o' Ho'. rewrite HL' by done. case_decide as E.
    + subst. by rewrite decide_True by (by left).
    + rewrite HL by done. apply decide_ext. set_solver.
  - intros t Ht. rewrite (writes_only_val _ _ _ _ _ HW') by (simpl; intuition congruence || lia).
    destruct (HM t Ht) as (A & B & C). split_and!; [done| |done].
    intros q [->|Hq]%elem_of_cons Hh; [by destruct (Hno t)|auto].
Qed.

Lemma encode_inv_hit s ds o t s' s'' :
  encode_inv s ds s' -> 0 <= o < cap -> 0 <= t < T -> holder o t ->
  writes_only (regions [U_LRU_SLOTS; U_TOKEN_MARK]) s' s'' ->
  (forall o', 0 <= o' < cap -> val (U U_LRU_SLOTS) o' s'' =
     if decide (o = o') then encoded cap T topk s2t lru o else val (U U_LRU_SLOTS) o' s') ->
  (forall t', 0 <= t' < T -> val (U U_TOKEN_MARK) t' s'' =
     if decide (t = t') then Z.max (val (U U_TOKEN_MARK) t s') o else val (U U_TOKEN_MARK) t' s') ->
  encode_inv s (o :: ds) s''.
Proof.
  intros (HW & HL & HM) Ho Ht Hh HW' HL' HM'. split_and!.
  - by eapply writes_only_trans.
  - intros o' Ho'. rewrite HL' by done. case_decide as E.
    + subst. by rewrite decide_True by (by left).
    + rewrite HL by done. apply decide_ext. set_solver.
  - intros t' Ht'. cbv zeta. rewrite HM' by done. destruct (HM t' Ht') as (A & B & C).
    case_decide as E.
    + subst t'. split_and!; [lia| |].
      * intros q [->|Hq]%elem_of_cons Hq'; [lia|]. specialize (B q Hq Hq'). lia.
      * intros Hm. destruct (Z.max_spec (val (U U_TOKEN_MARK) t s') o) as [[? ->]|[? ->]];
          [split; [lia|done]|apply C; lia].
    + split_and!; [done| |done]. intros q [->|Hq]%elem_of_cons Hq'; [|auto].
      destruct Hh as [_ Hh], Hq' as [_ Hq']. congruence.
Qed.

Lemma v3_encode_step s ds o s' :
  ub_fits s -> tables_loaded s -> pos_table s -> 0 <= o < cap -> o ∉ ds -> encode_inv s ds s' ->
  wp (v3_encode_item o) (fun _ => encode_inv s (o :: ds)) s'.
Proof.
  intros Hf [HS HL0] Hp Ho Hds HI. pose proof HI as (HW & HL & HM).
  assert (Hf' : ub_fits s') by (by eapply ub_fits_writes).
  assert (HLst : forall v o' s1, writes_only (regions [U_TOKEN_MARK]) s' s1 -> 0 <= o' < cap ->
    val (U U_LRU_SLOTS) o' (upd (U U_LRU_SLOTS) o v s1) =
      if decide (o = o') then v else val (U U_LRU_SLOTS) o' s').
  { intros v o' s1 HW1 Ho'. rewrite val_upd by ubr.
    by rewrite (writes_only_val _ _ _ _ _ HW1) by (simpl; intuition congruence || lia). }
  unfold v3_encode_item. wp_step. wp_step; [ubr|]. rewrite HL, decide_False by done.
  change (slot_in_range lru.[o]) with (valid_slot cap lru.[o]).
  wp_step. wp_step.
  - wp_step. wp_step; [unfold valid_slot in *; ubr|].
    rewrite (writes_only_val _ _ _ _ _ HW), HS
      by (simpl; unfold valid_slot in *; intuition congruence || lia).
    change (token_in_range s2t.[lru.[o]]) with (valid_tok T s2t.[lru.[o]]).
    wp_step. apply (wp_mono _ (fun b s2 => b = ht o /\ s2 = s')).
    { assert (Hhit : ht o = valid_tok T s2t.[lru.[o]] && bool_decide (s2t.[lru.[o]] ∈ topk))
        by (unfold hit_at, is_hit; by rewrite Heqb).
      rewrite Hhit. wp_step; [|by wp_step]. unfold valid_tok in *. wp_step. wp_step; [ubr|]. wp_step.
      rewrite (writes_only_val _ _ _ _ _ HW) by (simpl; intuition congruence || lia).
      by rewrite pos_table_hit by (done || lia). }
    intros b s2 [-> ->]. wp_step.
    + assert (Ht : 0 <= s2t.[lru.[o]] < T) by (unfold hit_at, is_hit, valid_tok in *; lia).
      wp_step. wp_step; [ubr|]. wp_step. wp_step; [ubr|]. wp_step. wp_step; [ubr|].
      rewrite asc_atomic_max_spec.
      apply (encode_inv_hit s ds o s2t.[lru.[o]] s'); try done.
      * repeat (apply writes_only_upd; [|lia|simpl; tauto]). apply writes_only_refl.
      * intros o' Ho'. rewrite HLst; [|apply writes_only_upd; [apply writes_only_refl|lia|simpl; tauto]|done].
        unfold encoded. by rewrite Heqb, Heqb0.
      * intros t' Ht'. rewrite val_upd_other by discriminate. by rewrite val_upd by ubr.
    + wp_step. wp_step; [ubr|]. apply (encode_inv_keep s ds o s'); try done.
      * intros t [Hh _]. congruence.
      * apply writes_only_upd; [apply writes_only_refl|lia|simpl; tauto].
      * intros o' Ho'. rewrite HLst by (done || apply writes_only_refl).
        unfold encoded. by rewrite Heqb, Heqb0.
  - wp_step. wp_step; [ubr|]. apply (encode_inv_keep s ds o s'); try done.
    + intros t [Hh _]. unfold hit_at, is_hit in Hh. rewrite Heqb in Hh. done.
    + apply writes_only_upd; [apply writes_only_refl|lia|simpl; tauto].
    + intros o' Ho'. rewrite HLst by (done || apply writes_only_refl).
      unfold encoded. by rewrite Heqb.
Qed.

(** The elected order of every requested resident token is its most recent one. *)
Definition owner_table (s : V3St) : Prop := forall t, 0 <= t < T ->
  let m := val (U U_TOKEN_MARK) t s in
  (forall o, 0 <= o < cap -> holder o t -> o <= m) /\ (0 <= m -> m < cap /\ holder m t).

Lemma v3_encode_spec s :
  ub_fits s -> tables_loaded s -> pos_table s ->
  (forall t, 0 <= t < T -> val (U U_TOKEN_MARK) t s = -1) ->
  wp (v3_encode row) (fun _ s' =>
    writes_only (regions [U_LRU_SLOTS; U_TOKEN_MARK]) s s' /\
    (forall o, 0 <= o < cap -> val (U U_LRU_SLOTS) o s' = encoded cap T topk s2t lru o) /\
    owner_table s') s.
Proof.
  intros Hf HT Hp Hm. unfold v3_encode. apply (wp_par _ _ _ (encode_inv s)).
  - by apply NoDup_strip_items.
  - split_and!; [apply writes_only_refl| |].
    + intros o Ho. rewrite decide_False by set_solver. by apply HT.
    + intros t Ht. cbv zeta. rewrite Hm by done. split_and!; [lia|set_solver|lia].
  - intros ds o s1 Ho%elem_of_strip_items Hds _ HI; [|done]. by apply v3_encode_step.
  - intros ds s1 Hall (HW & HL & HM).
    assert (Hds : forall o, 0 <= o < cap -> o ∈ ds) by (intros; by apply Hall, elem_of_strip_items).
    split_and!; [done| |].
    + intros o Ho. rewrite HL, decide_True by auto. done.
    + intros t Ht. destruct (HM t Ht) as (A & B & C). split; [|done]. intros o Ho. auto.
Qed.

(** *** Owners *)
Lemma holder_facts o t :
  holder o t -> 0 <= lru.[o] < cap /\ 0 <= t < T /\ s2t.[lru.[o]] = t /\ t ∈ topk.
Proof.
  intros [Hh <-]. unfold hit_at, is_hit, valid_slot, valid_tok in Hh.
  split_and!; try lia. by apply andb_prop in Hh as [_ Hh%bool_decide_eq_true_1].
Qed.

Lemma pos_table_in s t :
  pos_table s -> 0 <= t < T -> t ∈ topk ->
  let p := val (U U_TOKEN_POS) t s in
  0 <= p < K /\ topk.[p] = t /\ first_pos topk p = true.
Proof.
  intros Hp Ht Hin. destruct (Hp t Ht) as [(A & B & C)|(_ & C)].
  - cbv zeta. split_and!; [lia|lia|done|]. apply first_pos_spec; [lia|]. by rewrite B.
  - exfalso. apply elem_of_at in Hin as (i & Hi & E). apply (C i); [lia|done].
Qed.

(** The slot the elected order writes is the hit slot of the reference plan. *)
Lemma owner_hit_slot s o t :
  pos_table s -> owner_table s -> 0 <= o < cap -> holder o t -> val (U U_TOKEN_MARK) t s = o ->
  hit_slot cap T topk s2t lru (val (U U_TOKEN_POS) t s) = lru.[o].
Proof.
  intros Hp Hm Ho Hh Em. destruct (holder_facts o t Hh) as (Hl & Ht & E & Hin).
  destruct (pos_table_in s t Hp Ht Hin) as (Hq & Eq & Hf).
  set (q := val (U U_TOKEN_POS) t s) in *. destruct (Hm t Ht) as [Hmax _].
  unfold hit_slot, hit_slot_upto. rewrite Eq, Hf.
  replace (valid_tok T t) with true by (unfold valid_tok; lia). simpl.
  unfold holders. rewrite (last_idx_intro _ _ o); [done|done| |].
  - unfold valid_slot. rewrite E. lia.
  - intros o' Ho'. apply not_true_is_false. intros Hv.
    assert (holder o' t) as Hh'; [|specialize (Hmax o' ltac:(lia) Hh'); lia].
    split; [|lia]. unfold hit_at, is_hit. rewrite (proj1 (andb_prop _ _ Hv)).
    replace (s2t.[lru.[o']]) with t by lia.
    replace (valid_tok T t) with true by (unfold valid_tok; lia). by rewrite bool_decide_eq_true_2.
Qed.

Lemma unowned_hit_slot s p :
  pos_table s -> owner_table s -> 0 <= p < K ->
  (forall o t, 0 <= o < cap -> holder o t -> val (U U_TOKEN_MARK) t s = o ->
     val (U U_TOKEN_POS) t s <> p) ->
  hit_slot cap T topk s2t lru p = -1.
Proof.
  intros Hp Hm Hpr Hno.
  destruct (hit_slot_cases cap T topk s2t lru p) as [E|(Hv & Hf & o & Ho & Hvs & E & _ & Hlast)]; [done|].
  exfalso. assert (Hin : topk.[p] ∈ topk) by (apply elem_of_at_2; lia).
  assert (Hh : holder o topk.[p]).
  { split; [|done]. unfold hit_at, is_hit. rewrite Hvs, E, Hv. by rewrite bool_decide_eq_true_2. }
  destruct (holder_facts _ _ Hh) as (_ & Ht & _).
  destruct (Hm _ Ht) as [Hmax Hel]. specialize (Hmax o Ho Hh).
  destruct (Hel ltac:(lia)) as [Hlt Hhm].
  set (m := val (U U_TOKEN_MARK) topk.[p] s) in *.
  assert (Em : m = o).
  { destruct (holder_facts _ _ Hhm) as (Hl & _ & Em & _).
    destruct (Z.le_gt_cases m o); [lia|]. exfalso. apply (Hlast m); [lia| |done].
    unfold valid_slot. lia. }
  apply (Hno o topk.[p] Ho Hh); [done|].
  destruct (pos_table_in s _ Hp Ht Hin) as (Hq & Eq & Hf').
  pose proof (proj1 (first_pos_spec topk p ltac:(lia)) Hf) as Hf1.
  set (q := val (U U_TOKEN_POS) topk.[p] s) in *.
  pose proof (proj1 (first_pos_spec topk q ltac:(lia)) Hf') as Hf2.
  destruct (Z.lt_total q p) as [Hqp|[?|Hqp]]; [|done|].
  - exfalso. apply (Hf1 q); [lia|done].
  - exfalso. apply (Hf2 p); [lia|congruence].
Qed.

Lemma v3_owners_spec s :
  ub_fits s -> pos_table s -> owner_table s ->
  (forall j, 0 <= j < cap -> val (U U_SLOT_TO_TOKEN) j s = s2t.[j]) ->
  (forall o, 0 <= o < cap -> val (U U_LRU_SLOTS) o s = encoded cap T topk s2t lru o) ->
  (forall p, 0 <= p < K -> val (U U_CURRENT_SLOTS) p s = -1) ->
  wp (v3_owners row) (fun _ s' =>
    writes_only (regions [U_CURRENT_SLOTS]) s s' /\
    forall p, 0 <= p < K -> val (U U_CURRENT_SLOTS) p s' = hit_slot cap T topk s2t lru p) s.
Proof.
  intros Hf Hp Hm HS HL HC. unfold v3_owners.
  set (tok o := s2t.[lru.[o]]).
  set (owns o := ht o && (val (U U_TOKEN_MARK) (tok o) s =? o)).
  assert (Hown : forall o, owns o = true -> holder o (tok o) /\ val (U U_TOKEN_MARK) (tok o) s = o)
    by (intros o; unfold owns, holder, tok; lia).
  apply (wp_par_stores _ _ _ (fun o =>
    if owns o then [(U U_CURRENT_SLOTS, val (U U_TOKEN_POS) (tok o) s, lru.[o])] else [])).
  - by apply NoDup_strip_items.
  - intros o Ho%elem_of_strip_items; [|done]. case_match; simpl; [|done].
    destruct (Hown o) as [Hh _]; [done|]. destruct (holder_facts _ _ Hh) as (_ & Ht & _ & Hin).
    destruct (pos_table_in s _ Hp Ht Hin) as (Hq & _). split_and!; [ubr..|tauto|done].
  - intros o o' b k Ho Ho'. destruct (owns o) eqn:E1, (owns o') eqn:E2; cbn [touches]; [|tauto..].
    destruct (Hown o E1) as [Hh1 Em1], (Hown o' E2) as [Hh2 Em2].
    destruct (holder_facts _ _ Hh1) as (_ & Ht1 & _ & Hin1).
    destruct (holder_facts _ _ Hh2) as (_ & Ht2 & _ & Hin2).
    destruct (pos_table_in s _ Hp Ht1 Hin1) as (_ & Eq1 & _).
    destruct (pos_table_in s _ Hp Ht2 Hin2) as (_ & Eq2 & _). intuition congruence.
  - intros o s1 Ho%elem_of_strip_items HL' HV; [|done].
    assert (HV' : forall b k, 0 <= k -> b <> U U_CURRENT_SLOTS -> val b k s1 = val b k s).
    { intros b k Hk Hb. apply HV; [done|]. intros j _ _. case_match; cbn [touches]; intuition congruence. }
    wp_step. wp_step; [ubr|]. rewrite HV', HL by (done || lia).
    destruct (encoded_cases cap T topk s2t lru o) as [(Eh & Ee & Hr & ->)|[(Eh & Ee & Hr & ->)|(Eh & Ee & ->)]].
    + replace (- lru.[o] - 2 <=? -2) with true by lia. cbv zeta.
      replace (- (- lru.[o] - 2) - 2) with lru.[o] by lia.
      assert (Hh : holder o (tok o)) by done. destruct (holder_facts _ _ Hh) as (_ & Ht & _ & Hin).
      destruct (pos_table_in s _ Hp Ht Hin) as (Hq & _).
      wp_step. wp_step; [ubr|]. rewrite HV', HS by (done || lia). fold (tok o).
      wp_step. wp_step; [ubr|]. rewrite HV' by (done || lia).
      assert (Eo : owns o = (val (U U_TOKEN_MARK) (tok o) s =? o)) by (unfold owns; by rewrite Eh).
      rewrite Eo. wp_step; [|by wp_step].
      wp_step. wp_step; [ubr|]. rewrite HV' by (done || lia). wp_step; [ubr|done].
    + replace (lru.[o] <=? -2) with false by lia. wp_step. unfold owns. by rewrite Eh.
    + simpl. wp_step. unfold owns. by rewrite Eh.
  - intros s1 HL' HH HV. split; [region_frame HL' HV|].
    intros p Hpr.
    destruct (decide (Exists (fun o => owns o = true /\ val (U U_TOKEN_POS) (tok o) s = p) (seqZ 0 cap)))
      as [(o & Ho%elem_of_seqZ & Hw & E)%Exists_exists|Hno].
    + destruct (Hown o Hw) as [Hh Em]. specialize (HH o ltac:(apply elem_of_strip_items; [done|lia])).
      rewrite Hw in HH. cbn [holds] in HH. rewrite E in HH. destruct HH as [-> _].
      rewrite <- E. symmetry. apply owner_hit_slot; (done || lia).
    + rewrite HV; [|lia|].
      * rewrite HC by done. symmetry. apply (unowned_hit_slot s); try done.
        intros o t Ho Hh Em E. apply Hno, Exists_exists. exists o.
        destruct (holder_facts _ _ Hh) as (_ & _ & Et & _). split; [apply elem_of_seqZ; lia|]. unfold owns, tok. rewrite Et. destruct Hh as [Hh _]. rewrite Hh, Em. lia.
      * intros o Ho%elem_of_strip_items; [|done]. case_match eqn:Hw; cbn [touches]; [|tauto].
        intros [[_ E]|[]]. apply Hno, Exists_exists. exists o.
        split; [apply elem_of_seqZ; lia|done].
Qed.

(** *** Stable compaction of the old LRU row *)
Definition scan_regions : list ub :=
  [U_SCAN_EVICT_A; U_SCAN_EVICT_B; U_SCAN_HIT_A; U_SCAN_HIT_B].

Lemma scan_cells_regions b j : scan_cells b j -> regions scan_regions b j.
Proof. destruct b as [[]|[]]; simpl; tauto. Qed.

Definition compact_inv (s : V3St) (n : Z) (c : Z * Z) (s' : V3St) : Prop :=
  writes_only (regions (U_TOKEN_MARK :: scan_regions)) s s' /\ c = (cnt ev n, cnt ht n) /\
  (forall o, 0 <= o < n -> ev o = true -> val (U U_TOKEN_MARK) (cnt ev o) s' = lru.[o]) /\
  (forall o, 0 <= o < n -> ht o = true -> val (U U_TOKEN_MARK) (T - 1 - cnt ht o) s' = lru.[o]).

(** Ranks of a prefix leave room for both lists in the table. *)
Lemma ranks_room n : 0 <= n <= cap -> 0 <= cnt ev n /\ 0 <= cnt ht n /\ cnt ev n + cnt ht n <= n.
Proof.
  intros Hn. pose proof (cnt_bounds ev n ltac:(lia)). pose proof (cnt_bounds ht n ltac:(lia)).
  split_and!; [lia..|]. apply cnt_disjoint; [lia|]. intros o _ Ho. by apply ev_ht_disjoint.
Qed.

Definition compact_outs (o : Z) : list (v3 * Z * Z) :=
  if ev o then [(U U_TOKEN_MARK, cnt ev o, lru.[o])]
  else if ht o then [(U U_TOKEN_MARK, T - 1 - cnt ht o, lru.[o])] else [].

Lemma compact_outs_range o b k :
  0 <= o < cap -> touches (compact_outs o) b k ->
  b = U U_TOKEN_MARK /\ 0 <= k < T /\
  ((ev o = true /\ k = cnt ev o) \/ (ht o = true /\ k = T - 1 - cnt ht o)).
Proof.
  intros Ho. pose proof (ranks_room o ltac:(lia)). unfold compact_outs.
  repeat case_match; cbn [touches]; intuition (congruence || v3lia || auto).
Qed.

Lemma compact_outs_inj o o' b k :
  0 <= o < cap -> 0 <= o' < cap ->
  touches (compact_outs o) b k -> touches (compact_outs o') b k -> o = o'.
Proof.
  intros Ho Ho' H1 H2. pose proof (ranks_room cap ltac:(v3lia)) as Hr.
  destruct (compact_outs_range _ _ _ Ho H1) as (_ & _ & [[E1 K1]|[E1 K1]]);
    destruct (compact_outs_range _ _ _ Ho' H2) as (_ & _ & [[E2 K2]|[E2 K2]]).
  - apply (cnt_inj ev); (lia || done).
  - pose proof (cnt_lt ev cap o Ho E1). pose proof (cnt_lt ht cap o' Ho' E2). v3lia.
  - pose proof (cnt_lt ht cap o Ho E1). pose proof (cnt_lt ev cap o' Ho' E2). v3lia.
  - apply (cnt_inj ht); (lia || done).
Qed.

Lemma encoded_flags o :
  slot_in_range (encoded cap T topk s2t lru o) = ev o /\ (encoded cap T topk s2t lru o <=? -2) = ht o.
Proof.
  unfold slot_in_range.
  destruct (encoded_cases cap T topk s2t lru o) as [(-> & -> & ? & ->)|[(-> & -> & ? & ->)|(-> & -> & ->)]];
    split; (done || lia).
Qed.

Lemma v3_compact_tile_spec s tile c s1 :
  ub_fits s ->
  (forall o, 0 <= o < cap -> val (U U_LRU_SLOTS) o s = encoded cap T topk s2t lru o) ->
  0 <= tile -> tile + 1024 <= cap -> compact_inv s tile c s1 ->
  wp (v3_compact_tile row tile c) (compact_inv s (tile + 1024)) s1.
Proof.
  intros Hf HL Ht0 Ht1 (HW & -> & HE & HH). assert (Hf1 : ub_fits s1) by (by eapply ub_fits_writes).
  assert (HL1 : forall o, 0 <= o < cap -> val (U U_LRU_SLOTS) o s1 = encoded cap T topk s2t lru o).
  { intros o Ho. rewrite (writes_only_val _ _ _ _ _ HW) by (simpl; intuition congruence || lia). auto. }
  unfold v3_compact_tile.
  wp_step. apply (collect_flags ev tile).
  { intros t Ht. wp_step. wp_step; [ubr|]. wp_step. rewrite HL1 by v3lia.
    by rewrite (proj1 (encoded_flags _)). }
  wp_step. apply (collect_flags ht tile).
  { intros t Ht. wp_step. wp_step; [ubr|]. wp_step. rewrite HL1 by v3lia.
    by rewrite (proj2 (encoded_flags _)). }
  wp_step. eapply wp_mono; [by apply (tile_ranks ev ht)|].
  intros _ s2 (HW2 & (HrE & HtE) & (HrH & HtH)).
  assert (Hf2 : ub_fits s2) by (by eapply ub_fits_writes).
  wp_step. apply (wp_par_stores _ _ _ (fun t => compact_outs (tile + t))).
  { apply NoDup_seqZ. }
  { intros t Ht%elem_of_threads. pose proof (ranks_room (tile + t) ltac:(lia)).
    unfold compact_outs. repeat case_match; simpl; [split_and!; try ubr; tauto..|done]. }
  { intros t u b k Ht%elem_of_threads Hu%elem_of_threads A1 A2.
    enough (tile + t = tile + u) by lia. by eapply compact_outs_inj; [lia|lia|..]. }
  { intros t s3 Ht%elem_of_threads HL3 HV.
    assert (HV' : forall b k, 0 <= k -> b <> U U_TOKEN_MARK -> val b k s3 = val b k s2).
    { intros b k Hk Hb. apply HV; [done|]. intros j Hj%elem_of_threads _ Ht'.
      apply compact_outs_range in Ht' as [? _]; [done|lia]. }
    pose proof (ranks_room (tile + t) ltac:(lia)).
    wp_step. wp_step; [ubr|]. rewrite HV' by (done || lia).
    rewrite (writes_only_val _ _ _ _ _ HW2), HL1 by (simpl; tauto || lia).
    wp_step. wp_step; [ubr|]. rewrite HV' by (done || lia).
    wp_step. wp_step; [ubr|]. rewrite HV' by (done || lia).
    specialize (HrE t Ht). specialize (HrH t Ht). rewrite !tile_flags_at in * by done.
    unfold compact_outs.
    destruct (encoded_cases cap T topk s2t lru (tile + t))
      as [(Eh & Ee & Hr & ->)|[(Eh & Ee & Hr & ->)|(Eh & Ee & ->)]]; rewrite Eh, Ee in *; simpl Z.b2z in *.
    - wp_step. wp_step; [done|]. wp_step; [|done]. wp_step; [ubr|]. cbn [stores]. f_equal; lia.
    - wp_step. wp_step; [|done]. wp_step; [ubr|]. wp_step; [done|]. cbn [stores]. f_equal; lia.
    - wp_step. wp_step; [done|]. wp_step; done. }
  intros s3 HL3 HH3 HV.
  assert (HV' : forall b k, 0 <= k -> b <> U U_TOKEN_MARK -> val b k s3 = val b k s2).
  { intros b k Hk Hb. apply HV; [done|]. intros j Hj%elem_of_threads Ht'.
    apply compact_outs_range in Ht' as [? _]; [done|lia]. }
  wp_step. wp_step; [ubr|]. wp_step. wp_step; [ubr|]. wp_step.
  rewrite !HV', HtE, HtH by (done || v3lia).
  assert (Hout : forall o, 0 <= o < tile + 1024 -> holds (compact_outs o) s3).
  { intros o Ho. destruct (Z.le_gt_cases tile o) as [Hge|Hlt].
    - specialize (HH3 (o - tile) ltac:(apply elem_of_threads; lia)).
      by replace (tile + (o - tile)) with o in HH3 by lia.
    - eapply (holds_ext _ s1).
      + intros b k Ht'. destruct (compact_outs_range o b k ltac:(lia) Ht') as (-> & Hk & _).
        rewrite HV; [apply (writes_only_val _ _ _ _ _ HW2); [lia|simpl; tauto]|lia|].
        intros j Hj%elem_of_threads Hj'.
        assert (o = tile + j); [|lia]. by eapply compact_outs_inj; [lia|lia|..].
      + unfold compact_outs. destruct (ev o) eqn:E; cbn [holds]; [split; [apply HE; [lia|done]|done]|].
        destruct (ht o) eqn:E'; cbn [holds]; [split; [apply HH; [lia|done]|done]|done]. }
  split_and!; [|done|..].
  - eapply writes_only_trans; [exact HW|]. split.
    { intros b. by rewrite HL3, (writes_only_len _ _ _ b HW2). }
    intros b j Hj Hc. rewrite HV'; [|done|intros ->; apply Hc; simpl; tauto].
    apply (writes_only_val _ _ _ _ _ HW2); [done|]. intros Hs%scan_cells_regions. apply Hc. by right.
  - intros o Ho E. specialize (Hout o Ho). unfold compact_outs in Hout. rewrite E in Hout.
    cbn [holds] in Hout. tauto.
  - intros o Ho E. specialize (Hout o Ho). unfold compact_outs in Hout.
    destruct (ev o) eqn:E'; [by rewrite (ev_ht_disjoint _ _ _ _ _ _ E') in E|].
    rewrite E in Hout. cbn [holds] in Hout. tauto.
Qed.

Lemma v3_compact_spec s :
  ub_fits s ->
  (forall o, 0 <= o < cap -> val (U U_LRU_SLOTS) o s = encoded cap T topk s2t lru o) ->
  wp (v3_compact row) (fun c s' =>
    writes_only (regions (U_TOKEN_MARK :: scan_regions)) s s' /\ c = (cnt ev cap, cnt ht cap) /\
    (forall k, 0 <= k < cnt ev cap -> val (U U_TOKEN_MARK) k s' = EV.[k]) /\
    (forall k, 0 <= k < cnt ht cap -> val (U U_TOKEN_MARK) (T - 1 - k) s' = HT.[k])) s.
Proof.
  intros Hf HL. unfold v3_compact.
  apply (wp_tiles LRU_FUSED_V3_THREADS 4 _ (compact_inv s)); [done|lia| | |].
  - split_and!; [apply writes_only_refl|by rewrite !cnt_0|lia|lia].
  - intros tile c s1 Ht0 Ht1 HI. by apply v3_compact_tile_spec.
  - change (4 * LRU_FUSED_V3_THREADS) with cap. intros c s1 (HW & -> & HE & HH). split_and!; try done.
    + intros k Hk. destruct (evict_at _ _ _ _ _ k Hk) as (o & Ho & Hev & <- & ->). auto.
    + intros k Hk. destruct (hits_at _ _ _ _ _ k Hk) as (o & Ho & Hev & <- & ->). auto.
Qed.

(** *** Misses *)
Definition miss_loaded (s : V3St) : Prop :=
  topk_loaded s /\
  (forall p, 0 <= p < K -> val (U U_CURRENT_SLOTS) p s = hit_slot cap T topk s2t lru p).

Lemma v3_is_miss_spec s p :
  ub_fits s -> miss_loaded s -> 0 <= p < K -> wp (v3_is_miss p) (fun b s' => b = ms p /\ s' = s) s.
Proof.
  intros Hf [Htk Hc] Hp. unfold v3_is_miss. wp_step. wp_step; [ubr|]. rewrite Htk by done.
  change (token_in_range topk.[p]) with (valid_tok T topk.[p]). unfold miss_at.
  wp_step; [|by wp_step]. wp_step. wp_step; [ubr|]. wp_step. by rewrite Hc.
Qed.

Lemma last_flag (l : list Z) : (forall p, p ∈ l -> 0 <= p < K) -> forall a s,
  ub_fits s -> miss_loaded s ->
  wp (foldM l (fun pos acc => miss ← v3_is_miss pos; mret (if miss : bool then 1 else acc)) a)
     (fun v s' => v = foldl (fun acc pos => if ms pos then 1 else acc) a l /\ s' = s) s.
Proof.
  intros Hl. induction l as [|p l IH]; intros a s Hf Hm; simpl; [by wp_step|].
  wp_step. wp_step. eapply wp_mono; [apply v3_is_miss_spec; [done|done|apply Hl; by left]|].
  intros b s' [-> ->]. wp_step. apply IH; [|done|done]. intros q Hq. apply Hl. by right.
Qed.

Lemma foldl_flag (l : list Z) a :
  foldl (fun acc pos => if ms pos then 1 else acc) a l <> 0 <-> a <> 0 \/ exists p, p ∈ l /\ ms p = true.
Proof.
  revert a. induction l as [|p l IH]; intros a; simpl.
  - split; [by left|]. intros [|(p & Hp & _)]; [done|]. by apply not_elem_of_nil in Hp.
  - rewrite IH. destruct (ms p) eqn:E; setoid_rewrite elem_of_cons; naive_solver lia.
Qed.

Lemma v3_has_miss_spec s :
  ub_fits s -> miss_loaded s ->
  wp (v3_has_miss row) (fun v s' =>
    writes_only any_cells s s' /\ (v <> 0 <-> exists p, 0 <= p < K /\ ms p = true)) s.
Proof.
  intros Hf Hm. unfold v3_has_miss.
  assert (Hst : forall t p, 0 <= t < 1024 ->
    p ∈ strip LRU_FUSED_V3_THREADS K t <-> 0 <= p < K /\ p mod LRU_FUSED_V3_THREADS = t)
    by (intros; apply elem_of_strip; v3lia).
  set (fl := fun t =>
    foldl (fun acc pos => if ms pos then 1 else acc) 0 (strip LRU_FUSED_V3_THREADS K t)).
  wp_step. apply (wp_collect _ _ fl).
  { intros t Ht%elem_of_threads. apply last_flag; [|done|done]. intros p Hp%Hst; lia. }
  eapply wp_mono; [by apply BlockAny1024_spec|]. intros v s' [HW HA]. split; [done|]. rewrite HA.
  change (fl <$> seqZ 0 LRU_FUSED_V3_THREADS) with (tab LRU_FUSED_V3_THREADS fl).
  split.
  - intros (t & Ht & Hne). rewrite at_tab in Hne by v3lia. apply foldl_flag in Hne as [|(p & Hp & E)]; [done|].
    exists p. split; [|done]. apply Hst in Hp; lia.
  - intros (p & Hp & E). exists (p mod LRU_FUSED_V3_THREADS).
    pose proof (Z.mod_pos_bound p LRU_FUSED_V3_THREADS ltac:(done)) as Hb.
    split; [done|]. rewrite at_tab by done. apply foldl_flag. right. exists p. split; [|done].
    by apply Hst.
Qed.

Definition misses_inv (s : V3St) (n c : Z) (s' : V3St) : Prop :=
  writes_only (regions (U_MISS_TOKENS :: U_TOKEN_POS :: scan_regions)) s s' /\ c = cnt ms n /\
  (forall p, 0 <= p < n -> ms p = true ->
     val (U U_MISS_TOKENS) (cnt ms p) s' = topk.[p] /\ val (U U_TOKEN_POS) (cnt ms p) s' = p) /\
  (forall j, c <= j < K -> val (U U_MISS_TOKENS) j s' = -1).

Definition miss_outs (p : Z) : list (v3 * Z * Z) :=
  if ms p then [(U U_MISS_TOKENS, cnt ms p, topk.[p]); (U U_TOKEN_POS, cnt ms p, p)] else [].

Lemma miss_outs_range p b k :
  touches (miss_outs p) b k ->
  (b = U U_MISS_TOKENS \/ b = U U_TOKEN_POS) /\ k = cnt ms p /\ ms p = true.
Proof. unfold miss_outs. case_match; cbn [touches]; intuition congruence. Qed.

Lemma miss_outs_inj p q b k :
  0 <= p -> 0 <= q -> touches (miss_outs p) b k -> touches (miss_outs q) b k -> p = q.
Proof.
  intros Hp Hq (_ & E1 & M1)%miss_outs_range (_ & E2 & M2)%miss_outs_range.
  apply (cnt_inj ms); (done || lia).
Qed.

Lemma v3_miss_tile_spec s tile c s1 :
  ub_fits s -> miss_loaded s -> 0 <= tile -> tile + 1024 <= K -> misses_inv s tile c s1 ->
  wp (v3_miss_tile row tile c) (misses_inv s (tile + 1024)) s1.
Proof.
  intros Hf [Htk Hc] Ht0 Ht1 (HW & -> & HM & HN). assert (Hf1 : ub_fits s1) by (by eapply ub_fits_writes).
  assert (Hm1 : miss_loaded s1).
  { split; [intros i Hi|intros p Hp];
      rewrite (writes_only_val _ _ _ _ _ HW) by (simpl; intuition congruence || lia); auto. }
  unfold v3_miss_tile. wp_step. apply (collect_flags ms tile).
  { intros t Ht. wp_step. eapply wp_mono; [apply v3_is_miss_spec; [done|done|v3lia]|].
    intros b s' [-> ->]. by wp_step. }
  wp_step. rewrite (tile_flags_none tile). eapply wp_mono; [by apply (tile_ranks ms)|].
  intros _ s2 (HW2 & (Hr & Htot) & _). assert (Hf2 : ub_fits s2) by (by eapply ub_fits_writes).
  assert (Htk2 : topk_loaded s2).
  { intros i Hi. rewrite (writes_only_val _ _ _ _ _ HW2) by (simpl; tauto || lia). by apply Hm1. }
  wp_step. apply (wp_par_stores _ _ _ (fun t => miss_outs (tile + t))).
  { apply NoDup_seqZ. }
  { intros t Ht%elem_of_threads. pose proof (cnt_bounds ms (tile + t) ltac:(lia)).
    unfold miss_outs. case_match; simpl; [split_and!; try ubr; intuition congruence|done]. }
  { intros t u b k Ht%elem_of_threads Hu%elem_of_threads A1 A2.
    enough (tile + t = tile + u) by lia. by eapply miss_outs_inj; [lia|lia|..]. }
  { intros t s3 Ht%elem_of_threads HL3 HV. pose proof (cnt_bounds ms (tile + t) ltac:(lia)).
    assert (HV' : forall b k, 0 <= k -> b <> U U_MISS_TOKENS -> b <> U U_TOKEN_POS ->
      val b k s3 = val b k s2).
    { intros b k Hk Hb1 Hb2. apply HV; [done|]. intros j _ _ Ht'.
      apply miss_outs_range in Ht' as ([|] & _); done. }
    wp_step. wp_step; [ubr|]. rewrite HV', Htk2 by (done || v3lia).
    wp_step. wp_step; [ubr|]. rewrite HV' by (done || lia).
    specialize (Hr t Ht). rewrite tile_flags_at in * by done. unfold miss_outs.
    wp_step; destruct (ms (tile + t)) eqn:E; try done; simpl Z.b2z in *.
    replace (cnt ms tile + (val (U U_SCAN_EVICT_A) t s2 - 1)) with (cnt ms (tile + t)) by lia.
    wp_step. wp_step; [ubr|]. wp_step; [ubr|]. done. }
  intros s3 HL3 HH3 HV.
  assert (HV' : forall b k, 0 <= k -> b <> U U_MISS_TOKENS -> b <> U U_TOKEN_POS ->
    val b k s3 = val b k s2).
  { intros b k Hk Hb1 Hb2. apply HV; [done|]. intros j _ Ht'.
    apply miss_outs_range in Ht' as ([|] & _); done. }
  wp_step. wp_step; [ubr|]. wp_step. rewrite HV', Htot by (done || v3lia).
  assert (Hout : forall p, 0 <= p < tile + 1024 -> holds (miss_outs p) s3).
  { intros p Hp. destruct (Z.le_gt_cases tile p) as [Hge|Hlt].
    - specialize (HH3 (p - tile) ltac:(apply elem_of_threads; lia)).
      by replace (tile + (p - tile)) with p in HH3 by lia.
    - eapply (holds_ext _ s1).
      + intros b k Ht'. destruct (miss_outs_range _ _ _ Ht') as (Hb & -> & _).
        pose proof (cnt_bounds ms p ltac:(lia)).
        rewrite HV; [apply (writes_only_val _ _ _ _ _ HW2); [lia|destruct Hb; subst; simpl; tauto]|lia|].
        intros j Hj%elem_of_threads Hj'.
        assert (p = tile + j); [|lia]. by eapply miss_outs_inj; [lia|lia|..].
      + unfold miss_outs. destruct (ms p) eqn:E; cbn [holds]; [|done].
        destruct (HM p ltac:(lia) E). auto. }
  split_and!; [|done|..].
  - eapply writes_only_trans; [exact HW|]. split.
    { intros b. by rewrite HL3, (writes_only_len _ _ _ b HW2). }
    intros b j Hj Hn. rewrite HV'; [|done|intros ->; apply Hn; simpl; tauto..].
    apply (writes_only_val _ _ _ _ _ HW2); [done|]. intros Hs%scan_cells_regions. apply Hn. by do 2 right.
  - intros p Hp E. specialize (Hout p Hp). unfold miss_outs in Hout. rewrite E in Hout.
    cbn [holds] in Hout. tauto.
  - intros j Hj. pose proof (cnt_mono ms tile (tile + 1024) ltac:(lia)).
    pose proof (cnt_bounds ms tile ltac:(lia)).
    rewrite HV; [rewrite (writes_only_val _ _ _ _ _ HW2) by (simpl; tauto || lia); apply HN; lia|lia|].
    intros t Ht%elem_of_threads (_ & E & M)%miss_outs_range.
    pose proof (cnt_lt ms (tile + 1024) (tile + t) ltac:(lia) M). lia.
Qed.

Lemma v3_misses_spec s hasMiss :
  ub_fits s -> miss_loaded s -> (forall p, 0 <= p < K -> val (U U_MISS_TOKENS) p s = -1) ->
  (hasMiss <> 0 <-> exists p, 0 <= p < K /\ ms p = true) ->
  wp (if negb (hasMiss =? 0) then v3_misses row else mret 0) (misses_inv s K) s.
Proof.
  intros Hf Hm Hn Hany. wp_step.
  - unfold v3_misses.
    apply (wp_tiles LRU_FUSED_V3_THREADS 2 _ (misses_inv s)); [done|lia| | |by auto].
    + split_and!; [apply writes_only_refl|by rewrite !cnt_0|lia|done].
    + intros tile c s1 Ht0 Ht1 HI. by apply v3_miss_tile_spec.
  - assert (Hno : forall p, 0 <= p < K -> ms p = false).
    { intros p Hp. destruct (ms p) eqn:E; [|done]. assert (hasMiss <> 0) by (apply Hany; eauto). lia. }
    wp_step. split_and!; [apply writes_only_refl| | |].
    + by rewrite cnt_none.
    + intros p Hp E. rewrite Hno in E by done. done.
    + intros j Hj. apply Hn. lia.
Qed.
End normal.
