(* ===== verification/LruFusedV3Refine.v ===== *)
(** * The fused V3 kernel, end to end

    Composition of the phases of [acc_offload_lru_compact_fused_v3.cpp]: the plan, the
    assignment and rebuild, the publication, the whole kernel and its launcher. *)
From S2P Require Import Prelude Simt LruSpec WarpScan LruGeneric LruGenericProof.
From S2P Require Import LruFusedV3 LruFusedV3Proof LruFusedV3Plan.

Local Abbreviation K := LRU_FUSED_V3_TOPK.
Local Abbreviation cap := LRU_FUSED_V3_CAPACITY.
Local Abbreviation T := LRU_FUSED_V3_MAX_TOKEN.

Definition v3_plan_cells (profile : Z) (b : v3) (j : Z) : Prop :=
  regions (U_CURRENT_SLOTS :: U_MISS_TOKENS :: U_LRU_SLOTS :: U_TOKEN_MARK :: U_TOKEN_POS ::
           U_CONTROL :: scan_regions) b j \/ profile_cells profile b j.

(** Pull the cells of the current state back through the phases that do not write them. *)
Ltac in_frame := first [v3lia | unfold v3_plan_cells; simpl; intuition (congruence || v3lia)].
Ltac back :=
  repeat match goal with
  | HW : writes_only _ ?s ?s' |- context [val ?b ?j ?s'] =>
      rewrite (writes_only_val _ s s' b j HW) by in_frame
  end.

Section plan.
Context {Sch : Scheduler} {I : Intrinsics}.
Context (row : Z) (topk s2t lru : list Z) (Htopk : Z.of_nat (length topk) = K).

Local Abbreviation ev := (evictable_at cap T topk s2t lru).
Local Abbreviation ht := (hit_at cap T topk s2t lru).
Local Abbreviation ms := (miss_at cap T topk s2t lru).
Local Abbreviation EV := (evict cap T topk s2t lru).
Local Abbreviation HT := (hits cap T topk s2t lru).
Local Abbreviation MS := (misses cap T topk s2t lru).
Local Abbreviation na := (n_assign cap T topk s2t lru).

Definition plan_start (s : V3St) : Prop :=
  topk_loaded topk s /\ tables_loaded s2t lru s /\
  (forall p, 0 <= p < K -> val (U U_CURRENT_SLOTS) p s = -1 /\ val (U U_MISS_TOKENS) p s = -1).

(** What the plan leaves for the assignment and the rebuild. *)
Definition plan_post (s' : V3St) : Prop :=
  (forall k, 0 <= k < cnt ev cap -> val (U U_TOKEN_MARK) k s' = EV.[k]) /\
  (forall k, 0 <= k < cnt ht cap -> val (U U_TOKEN_MARK) (T - 1 - k) s' = HT.[k]) /\
  (forall p, 0 <= p < K -> val (U U_CURRENT_SLOTS) p s' = hit_slot cap T topk s2t lru p) /\
  (forall k, 0 <= k < cnt ms K -> val (U U_MISS_TOKENS) k s' = topk.[MS.[k]] /\
                                  val (U U_TOKEN_POS) k s' = MS.[k]) /\
  (forall j, cnt ms K <= j < K -> val (U U_MISS_TOKENS) j s' = -1) /\
  val (U U_CONTROL) CONTROL_MISS_COUNT s' = na /\
  val (U U_TOKEN_POS) (T - 2) s' = cnt ev cap /\
  val (U U_TOKEN_POS) (T - 1) s' = cnt ht cap.

Local Ltac record s' HW :=
  wp_step; eapply wp_mono; [eapply (RecordV3Stage_spec row);
    [repeat (eapply v3_gm_fits_writes; [eassumption|]); eassumption|lia]|]; cbv beta; intros _ s' HW.
Local Ltac fits := by repeat (eapply ub_fits_writes; [eassumption|]).
Local Ltac plan_frame := frames_with
  ltac:(first [intros ? ?; unfold v3_plan_cells, any_cells; simpl; repeat case_match; intuition congruence|lia]).

Lemma v3_tables_spec clock epoch profile en s :
  ub_fits s -> v3_gm_fits row epoch profile s -> plan_start s ->
  wp (v3_tables clock row profile en) (fun _ s' =>
    writes_only (v3_plan_cells profile) s s' /\
    (forall p, 0 <= p < K -> val (U U_CURRENT_SLOTS) p s' = hit_slot cap T topk s2t lru p) /\
    (forall p, 0 <= p < K -> val (U U_MISS_TOKENS) p s' = -1) /\
    (forall o, 0 <= o < cap -> val (U U_LRU_SLOTS) o s' = encoded cap T topk s2t lru o)) s.
Proof.
  intros Hf Hg (Htk & [HS HL] & HC). unfold v3_tables.
  wp_step. eapply wp_mono; [by apply v3_init_tables_spec|]. intros _ s1 [HW1 H1].
  wp_step. eapply wp_mono; [apply (v3_first_pos_spec row topk); [done|fits| |apply H1]|].
  { intros i Hi. back. auto. }
  intros _ s2 [HW2 HP2]. record s3 HW3.
  wp_step. eapply wp_mono; [apply (v3_encode_spec row topk s2t lru); [done|fits|..]|].
  { split; intros i Hi; back; auto. }
  { intros t Ht. back. by apply HP2. }
  { intros t Ht. back. by apply H1. }
  intros _ s4 (HW4 & HL4 & HO4).
  eapply wp_mono; [apply (v3_owners_spec row topk s2t lru); [done|fits| |done|..]|].
  { intros t Ht. back. by apply HP2. }
  { intros j Hj. back. auto. }
  { done. }
  { intros p Hp. back. by apply HC. }
  intros _ s5 [HW5 HC5]. split_and!; [plan_frame|done|..]; intros o Ho; back; [by apply HC|auto].
Qed.

Lemma FusedV3NormalPlan_spec clock epoch profile en s :
  ub_fits s -> v3_gm_fits row epoch profile s -> plan_start s ->
  wp (FusedV3NormalPlan clock row profile en) (fun _ s' =>
    writes_only (v3_plan_cells profile) s s' /\ plan_post s') s.
Proof.
  intros Hf Hg Hst. unfold FusedV3NormalPlan.
  wp_step. eapply wp_mono; [by apply (v3_tables_spec _ epoch)|]. intros _ s1 (HW1 & HC1 & HM1 & HL1).
  record s2 HW2. wp_step. eapply wp_mono; [apply (v3_compact_spec row topk s2t lru); [fits|]|].
  { intros o Ho. back. auto. }
  intros c s3 (HW3 & -> & HE3 & HH3). record s4 HW4.
  destruct Hst as (Htk & _ & HC).
  assert (Hm4 : miss_loaded topk s2t lru s4).
  { split; [intros i Hi|intros p Hp]; back; auto. }
  wp_step. eapply wp_mono; [apply (v3_has_miss_spec row topk s2t lru); [fits|done]|].
  intros v s5 [HW5 Hv]. wp_step. eapply wp_mono; [apply (v3_misses_spec row topk s2t lru); [fits| | |done]|].
  { split; [intros i Hi|intros p Hp]; back; auto. }
  { intros p Hp. back. auto. }
  intros c s6 (HW6 & -> & HM6 & HN6).
  assert (Hf6 : ub_fits s6) by fits. assert (Hg6 : v3_gm_fits row epoch profile s6).
  { by repeat (eapply v3_gm_fits_writes; [eassumption|]). }
  pose proof (cnt_bounds ms K ltac:(v3lia)). pose proof (ranks_room topk s2t lru cap ltac:(v3lia)).
  do 5 (wp_step; wp_step; [ubr|]).
  match goal with |- wp _ _ ?x => set (s7 := x) end.
  assert (HW7 : writes_only (regions [U_CONTROL; U_TOKEN_POS]) s6 s7).
  { repeat (apply writes_only_upd; [|v3lia|simpl; tauto]). apply writes_only_refl. }
  eapply wp_mono; [apply (RecordV3Stage_spec row epoch); [by eapply v3_gm_fits_writes|lia]|].
  cbv beta. intros _ s8 HW8.
  assert (Hp7 : forall j, 0 <= j < T - 2 -> val (U U_TOKEN_POS) j s7 = val (U U_TOKEN_POS) j s6).
  { intros j Hj. unfold s7. by rewrite !val_upd_ne, !val_upd_other by (discriminate || v3lia). }
  assert (Hp1 : val (U U_TOKEN_POS) (T - 2) s7 = cnt ev cap).
  { unfold s7. by rewrite val_upd_ne, val_upd_eq by (v3lia || ubr). }
  assert (Hp2 : val (U U_TOKEN_POS) (T - 1) s7 = cnt ht cap).
  { unfold s7. by rewrite val_upd_eq by ubr. }
  assert (Hc7 : val (U U_CONTROL) CONTROL_MISS_COUNT s7 = na).
  { unfold s7. rewrite !val_upd_other, val_upd_eq by (discriminate || ubr).
    unfold n_assign. rewrite Htopk. destruct (Z.ltb_spec (cnt ms K) (cnt ev cap)); lia. }
  clearbody s7. split; [plan_frame|]. split_and!; try (intros; back; auto; fail).
  - intros k Hk. rewrite (misses_def _ _ _ _ _ K) by done.
    destruct (idx_rank ms K k Hk) as (Hp & Hms & Ek).
    destruct (HM6 _ Hp Hms) as [Ha Hb]. rewrite Ek in Ha, Hb.
    split; back; [done|]. rewrite Hp7 by v3lia. done.
Qed.

(** *** Assignment and rebuild *)
Context (Hinj : lru_inj cap lru).

Lemma v3_assign_spec s :
  Z.of_nat (length s2t) = cap -> ub_fits s -> plan_post s ->
  (forall j, 0 <= j < cap -> val (U U_SLOT_TO_TOKEN) j s = s2t.[j]) ->
  (forall p, 0 <= p < K -> val (U U_MISS_SLOTS) p s = -1) ->
  wp (v3_assign row na) (fun _ s' =>
    writes_only (regions [U_SLOT_TO_TOKEN; U_CURRENT_SLOTS; U_MISS_SLOTS]) s s' /\
    slice (U U_SLOT_TO_TOKEN) 0 cap s' = plan_s2t cap T topk s2t lru /\
    slice (U U_CURRENT_SLOTS) 0 K s' = plan_cur cap T topk s2t lru /\
    slice (U U_MISS_SLOTS) 0 K s' = plan_mslot cap T topk s2t lru) s.
Proof.
  intros Hls2t Hf (HE & _ & HC & HM & _) HS HMS. unfold v3_assign.
  pose proof (n_assign_le cap T topk s2t lru K Htopk ltac:(v3lia)) as Hna.
  assert (HEr : forall k, 0 <= k < na -> 0 <= EV.[k] < cap) by (intros; apply evict_valid; lia).
  assert (HMr : forall k, 0 <= k < na -> 0 <= MS.[k] < K)
    by (intros; eapply misses_range; [done|lia]).
  assert (HEi : forall i j, 0 <= i < na -> 0 <= j < na -> EV.[i] = EV.[j] -> i = j)
    by (intros i j Hi Hj; apply evict_inj; (done || lia)).
  assert (HMi : forall i j, 0 <= i < na -> 0 <= j < na -> MS.[i] = MS.[j] -> i = j)
    by (intros i j Hi Hj; eapply misses_inj'; (done || lia)).
  apply (wp_par_stores _ _ _ (fun k => [(U U_SLOT_TO_TOKEN, EV.[k], topk.[MS.[k]]);
    (U U_CURRENT_SLOTS, MS.[k], EV.[k]); (U U_MISS_SLOTS, k, EV.[k])])).
  - by apply NoDup_strip_items.
  - intros k Hk%elem_of_strip_items; [|done]. specialize (HEr k Hk). specialize (HMr k Hk). simpl.
    split_and!; try ubr; intuition congruence.
  - intros i j b k Hi%elem_of_strip_items Hj%elem_of_strip_items; [|done..]. cbn [touches].
    intros A1 A2. destruct_or?; destruct_and?; try done; try congruence;
      [apply HEi|apply HMi]; (done || congruence).
  - intros k s1 Hk%elem_of_strip_items HL HV; [|done].
    specialize (HEr k Hk). specialize (HMr k Hk). destruct (HM k ltac:(lia)) as [HM1 HM2].
    assert (HV' : forall b j, 0 <= j -> b = U U_TOKEN_MARK \/ b = U U_MISS_TOKENS \/ b = U U_TOKEN_POS ->
      val b j s1 = val b j s).
    { intros b j Hj Hb. apply HV; [done|]. intros i _ _. cbn [touches].
      intros A. destruct_or?; destruct_and?; try done; congruence. }
    wp_step. wp_step; [ubr|]. rewrite HV', HE by (auto || lia).
    wp_step. wp_step; [ubr|]. rewrite HV', HM1 by (auto || lia).
    wp_step. wp_step; [ubr|]. rewrite HV', HM2 by (auto || lia).
    wp_step; [|unfold slot_in_range in *; lia].
    wp_step. wp_step; [ubr|]. wp_step. wp_step; [ubr|]. wp_step; [ubr|done].
  - intros s1 HL HH HV.
    assert (HH' : forall k, 0 <= k < na -> val (U U_SLOT_TO_TOKEN) EV.[k] s1 = topk.[MS.[k]] /\
      val (U U_CURRENT_SLOTS) MS.[k] s1 = EV.[k] /\ val (U U_MISS_SLOTS) k s1 = EV.[k]).
    { intros k Hk. specialize (HH k ltac:(by apply elem_of_strip_items)). cbn [holds] in HH. tauto. }
    split.
    { split; [done|]. intros b j Hj Hc. apply HV; [done|]. intros i _ A. apply Hc.
      cbn [touches] in A. destruct_or?; destruct_and?; subst; simpl; tauto. }
    apply (plan_assigned _ _ _ _ _ K Htopk); [v3lia|done|done|exact HH'|..].
    + intros j Hj Hno. rewrite Z.add_0_l, HV; [by apply HS|lia|].
      intros i Hi%elem_of_strip_items; [|done]. specialize (Hno i Hi). cbn [touches]. intuition congruence.
    + intros p Hp Hno. rewrite Z.add_0_l, HV; [by apply HC|lia|].
      intros i Hi%elem_of_strip_items; [|done]. specialize (Hno i Hi). cbn [touches]. intuition congruence.
    + intros j Hj. rewrite Z.add_0_l, HV; [apply HMS; lia|lia|].
      intros i Hi%elem_of_strip_items; [|done]. cbn [touches]. intuition (congruence || lia).
Qed.

Lemma v3_rebuild_spec s :
  ub_fits s ->
  (forall k, 0 <= k < cnt ev cap -> val (U U_TOKEN_MARK) k s = EV.[k]) ->
  (forall k, 0 <= k < cnt ht cap -> val (U U_TOKEN_MARK) (T - 1 - k) s = HT.[k]) ->
  (forall k, 0 <= k < na -> val (U U_MISS_SLOTS) k s = EV.[k]) ->
  val (U U_TOKEN_POS) (T - 2) s = cnt ev cap -> val (U U_TOKEN_POS) (T - 1) s = cnt ht cap ->
  wp (v3_rebuild row na) (fun _ s' =>
    writes_only (regions [U_LRU_SLOTS]) s s' /\
    slice (U U_LRU_SLOTS) 0 cap s' = plan_lru cap T topk s2t lru) s.
Proof.
  intros Hf HE HH HM He Hh. unfold v3_rebuild.
  pose proof (n_assign_le cap T topk s2t lru K Htopk ltac:(v3lia)) as Hna.
  pose proof (ranks_room topk s2t lru cap ltac:(v3lia)) as Hr.
  wp_step. wp_step; [ubr|]. wp_step. wp_step; [ubr|]. rewrite He, Hh.
  apply (wp_par_stores _ _ _ (fun o => [(U U_LRU_SLOTS, o, rebuilt cap T topk s2t lru o)])).
  - by apply NoDup_strip_items.
  - intros o Ho%elem_of_strip_items; [|done]. simpl. split_and!; try ubr; tauto.
  - intros i j b k _ _. simpl. intuition congruence.
  - intros o s1 Ho%elem_of_strip_items HL HV; [|done].
    assert (HV' : forall b j, 0 <= j -> b <> U U_LRU_SLOTS -> val b j s1 = val b j s).
    { intros b j Hj Hb. apply HV; [done|]. intros i _ _. cbn [touches]. intuition congruence. }
    wp_step. apply (wp_mono _ (fun v s2 => v = rebuilt cap T topk s2t lru o /\ s2 = s1)).
    { unfold rebuilt. wp_step; [wp_step; [ubr|by rewrite HV', HE by (done || lia)]|].
      wp_step; [wp_step; [ubr|by rewrite HV', HM by (done || lia)]|].
      wp_step; [wp_step; [ubr|by rewrite HV', HH by (done || v3lia)]|by wp_step]. }
    intros v s2 [-> ->]. wp_step; [ubr|done].
  - intros s1 HL HH' HV. split.
    { split; [done|]. intros b j Hj Hc. apply HV; [done|]. intros i _ A. apply Hc.
      cbn [touches] in A. destruct_or?; destruct_and?; subst; simpl; tauto. }
    rewrite <- (plan_lru_rebuilt _ _ _ _ _ K) by (done || v3lia). apply tab_ext. intros o Ho.
    specialize (HH' o ltac:(by apply elem_of_strip_items)). cbn [holds] in HH'.
    rewrite Z.add_0_l. tauto.
Qed.

Lemma FusedV3AssignRebuildUb_spec s :
  Z.of_nat (length s2t) = cap -> ub_fits s -> plan_post s ->
  (forall j, 0 <= j < cap -> val (U U_SLOT_TO_TOKEN) j s = s2t.[j]) ->
  (forall p, 0 <= p < K -> val (U U_MISS_SLOTS) p s = -1) ->
  wp (FusedV3AssignRebuildUb row) (fun _ s' =>
    writes_only (regions [U_SLOT_TO_TOKEN; U_CURRENT_SLOTS; U_MISS_SLOTS; U_LRU_SLOTS]) s s' /\
    v3_done topk s2t lru s') s.
Proof.
  intros Hls2t Hf HP HS HMS. pose proof HP as (HE & HH & HC & HM & HN & Hc & He & Hh).
  pose proof (n_assign_le cap T topk s2t lru K Htopk ltac:(v3lia)) as Hna.
  pose proof (ranks_room topk s2t lru cap ltac:(v3lia)) as Hr.
  unfold FusedV3AssignRebuildUb. wp_step. wp_step; [ubr|]. rewrite Hc.
  wp_step. eapply wp_mono; [by apply v3_assign_spec|]. intros _ s1 (HW1 & HS1 & HC1 & HM1).
  eapply wp_mono; [apply v3_rebuild_spec; [fits|..]|].
  { intros k Hk. back. auto. }
  { intros k Hk. back. auto. }
  { intros k Hk. replace (val (U U_MISS_SLOTS) k s1) with (slice (U U_MISS_SLOTS) 0 K s1).[k]
      by (by rewrite slice_at by lia).
    rewrite HM1. unfold plan_mslot. rewrite Htopk, at_tab by lia. by replace (k <? na) with true by lia. }
  { back. done. }
  { back. done. }
  intros _ s2 [HW2 HL2]. split.
  { frames_with ltac:(first [intros ? ?; simpl; tauto|lia]). }
  split_and!; [|done|..].
  - rewrite <- HS1. apply slice_ext. intros j Hj. by back.
  - rewrite <- HC1. apply slice_ext. intros j Hj. by back.
  - unfold plan_mtok. rewrite Htopk. apply tab_ext. intros j Hj. rewrite Z.add_0_l. back.
    destruct (Z.ltb_spec j (cnt ms K)); [apply HM|apply HN]; lia.
  - rewrite <- HM1. apply slice_ext. intros j Hj. by back.
  - by back.
Qed.
End plan.

(** ** Publication, the whole kernel, the launcher *)
Section kernel.
Context {Sch : Scheduler} {I : Intrinsics}.
Context (clock : Z -> Z) (row epoch profile en : Z).

Definition publish_cells (b : v3) (j : Z) : Prop :=
  match b with
  | G SLOT_TO_TOKEN | G LRU_SLOTS => row * cap <= j < row * cap + cap
  | G CURRENT_SLOTS | G MISS_TOKENS | G MISS_SLOTS => row * K <= j < row * K + K
  | G LAST_REQ_IDS | G MISS_COUNT => j = row
  | G EPOCHS => j = epoch
  | _ => False
  end.

Lemma PublishFusedV3StateDirectGm_spec s :
  ub_fits s -> v3_gm_fits row epoch profile s ->
  wp (PublishFusedV3StateDirectGm row epoch) (fun _ s' =>
    writes_only publish_cells s s' /\
    (forall j, 0 <= j < cap ->
       val (G SLOT_TO_TOKEN) (row * cap + j) s' = val (U U_SLOT_TO_TOKEN) j s /\
       val (G LRU_SLOTS) (row * cap + j) s' = val (U U_LRU_SLOTS) j s) /\
    (forall j, 0 <= j < K ->
       val (G CURRENT_SLOTS) (row * K + j) s' = val (U U_CURRENT_SLOTS) j s /\
       val (G MISS_TOKENS) (row * K + j) s' = val (U U_MISS_TOKENS) j s /\
       val (G MISS_SLOTS) (row * K + j) s' = val (U U_MISS_SLOTS) j s) /\
    val (G LAST_REQ_IDS) row s' = val (G REQ_IDS) row s /\
    val (G MISS_COUNT) row s' = val (U U_CONTROL) CONTROL_MISS_COUNT s /\
    val (G EPOCHS) epoch s' = LRU_FUSED_V3_EPOCH) s.
Proof.
  intros Hf Hg. unfold v3_gm_fits in Hg. unfold PublishFusedV3StateDirectGm.
  wp_step. apply (wp_par_stores _ _ _ (fun it : Z + Z => match it with
    | inl j => [(G SLOT_TO_TOKEN, row * cap + j, val (U U_SLOT_TO_TOKEN) j s);
                (G LRU_SLOTS, row * cap + j, val (U U_LRU_SLOTS) j s)]
    | inr j => [(G CURRENT_SLOTS, row * K + j, val (U U_CURRENT_SLOTS) j s);
                (G MISS_TOKENS, row * K + j, val (U U_MISS_TOKENS) j s);
                (G MISS_SLOTS, row * K + j, val (U U_MISS_SLOTS) j s)] end)).
  { by apply NoDup_sum_items. }
  { intros [j|j] Hj%elem_of_sum_items; [|done| |done]; simpl; split_and!; try v3lia; intuition congruence. }
  { intros [i|i] [j|j] b k _ _; cbn [touches]; intros A1 A2; destruct_or?; destruct_and?; try done;
      try congruence; f_equal; lia. }
  { intros it s1 Hit%elem_of_sum_items HL HV; [|done].
    assert (HV' : forall b j, 0 <= j -> val (U b) j s1 = val (U b) j s).
    { intros b j Hj. apply HV; [done|]. intros [i|i] _ _; cbn [touches]; intuition congruence. }
    destruct it as [j|j].
    - wp_step. wp_step; [ubr|]. wp_step. wp_step; [ubr|]. wp_step. wp_step; [ubr|]. wp_step; [ubr|].
      rewrite val_upd_other by discriminate. by rewrite !HV' by lia.
    - wp_step. wp_step; [ubr|]. wp_step. wp_step; [ubr|]. wp_step. wp_step; [ubr|].
      wp_step. wp_step; [ubr|]. wp_step. wp_step; [ubr|]. wp_step; [ubr|].
      rewrite !val_upd_other by discriminate. by rewrite !HV' by lia. }
  intros s1 HL HH HV.
  assert (HV' : forall b j, 0 <= j ->
    match b with G SLOT_TO_TOKEN | G LRU_SLOTS | G CURRENT_SLOTS | G MISS_TOKENS | G MISS_SLOTS => False
               | _ => True end -> val b j s1 = val b j s).
  { intros b j Hj Hb. apply HV; [done|]. intros [i|i] _; cbn [touches]; intros A;
      destruct_or?; destruct_and?; subst; done. }
  wp_step. wp_step; [ubr|]. wp_step. wp_step; [ubr|]. wp_step. wp_step; [ubr|].
  wp_step. wp_step; [ubr|]. wp_step; [ubr|].
  rewrite val_upd_other, !HV' by (done || v3lia).
  split_and!.
  - repeat (apply writes_only_upd; [|lia|simpl; lia]). split; [done|]. intros b j Hj Hc.
    apply HV; [done|]. intros [i|i] Hi%elem_of_sum_items A; try done; apply Hc; cbn [touches] in A;
      destruct_or?; destruct_and?; subst; simpl; try done; lia.
  - intros j Hj. rewrite !val_upd_other by discriminate.
    specialize (HH (inl j) ltac:(by apply elem_of_sum_items)). simpl in HH. tauto.
  - intros j Hj. rewrite !val_upd_other by discriminate.
    specialize (HH (inr j) ltac:(by apply elem_of_sum_items)). simpl in HH. tauto.
  - rewrite !val_upd_other by discriminate. by rewrite val_upd_eq by ubr.
  - rewrite val_upd_other by discriminate. by rewrite val_upd_eq by ubr.
  - by rewrite val_upd_eq by ubr.
Qed.

Lemma CopyGmToUb_spec d src base n blocks s :
  0 <= base -> base + n <= len (G src) s -> len (U d) s = n -> n = blocks * 8 ->
  wp (CopyGmToUb d src base n blocks) (fun _ s' =>
    writes_only (regions [d]) s s' /\
    forall j, 0 <= j < n -> val (U d) j s' = val (G src) (base + j) s) s.
Proof.
  intros Hb Hn Hl E. unfold wp, CopyGmToUb. rewrite decide_True by done.
  assert (Hc : copy_gm_to_ubuf (buf (U d) s) (slice (G src) base n s) blocks = slice (G src) base n s).
  { rewrite copy_gm_to_ubuf_spec by (rewrite ?length_slice; unfold len in *; lia).
    rewrite <- E, take_ge by (rewrite length_slice; lia).
    rewrite drop_ge by (unfold len in *; lia). apply app_nil_r. }
  rewrite Hc. split; [split|].
  - intros b. unfold len in *. destruct (decide (b = U d)) as [->|Hne].
    + rewrite buf_set_eq, length_slice. lia.
    + by rewrite buf_set_ne by done.
  - intros b j Hj Hr. unfold val. rewrite buf_set_ne; [done|]. intros <-. apply Hr. simpl. tauto.
  - intros j Hj. unfold val at 1. rewrite buf_set_eq. by apply slice_at.
Qed.

(** The cells a launch may write: the unified buffer, the row's persistent and output
    cells, its epoch cell, its profile stamps. *)
Definition v3_cells (b : v3) (j : Z) : Prop :=
  match b with
  | U _ => True
  | G TOKEN_MARK => profile_cells profile b j
  | G _ => publish_cells b j
  end.

Lemma regions_ub l b j : regions l b j -> exists u, b = U u.
Proof. induction l as [|u l IH]; simpl; [done|]. intros [->|]; [eauto|auto]. Qed.

Local Ltac v3_side := first
  [ intros b j; unfold v3_plan_cells, prepare_cells, profile_cells, fast_path_cells, fast_cells, scan_cells;
    intros Hc; try (apply regions_ub in Hc as [? ->]; done);
    repeat (destruct Hc as [Hc|Hc]; [apply regions_ub in Hc as [? ->]; done|]);
    destruct b as [[]|[]]; simpl in *; done
  | lia ].

(** Both paths of the body leave the plan's results in the unified buffer. *)
Lemma v3_paths_spec r s1 :
  ub_fits s1 -> v3_gm_fits row epoch profile s1 -> prepared r s1 ->
  lru_inj cap (start_lru cap r) ->
  wp (if negb ((if ri_last r =? ri_req r then 0 else 1) =? 0) then FusedV3ResetFastPath row
      else FusedV3NormalPlan clock row profile en;; FusedV3AssignRebuildUb row)
    (fun _ s' => writes_only v3_cells s1 s' /\
       (forall b j, b <> TOKEN_MARK -> 0 <= j -> val (G b) j s' = val (G b) j s1) /\
       v3_done (ri_topk r) (start_s2t cap T r) (start_lru cap r) s') s1.
Proof.
  intros Hf Hg HP Hinj. pose proof HP as (Htk & HC & HS & Htopk & Hls & _).
  destruct (ri_last r =? ri_req r) eqn:Er; cbv [negb Z.eqb].
  - wp_step. eapply wp_mono.
    { apply (FusedV3NormalPlan_spec row (ri_topk r) (start_s2t cap T r) (start_lru cap r)) with (epoch := epoch);
        [done|done|done|]. split_and!; [done| |].
      - split; intros j Hj; by apply HS.
      - intros p Hp. split; by apply HC. }
    intros _ s2 [HW2 HP2].
    eapply wp_mono.
    { eapply (FusedV3AssignRebuildUb_spec) with (topk := ri_topk r) (s2t := start_s2t cap T r) (lru := start_lru cap r);
        [done|done|by apply length_start_s2t|by eapply ub_fits_writes|done|..].
      - intros j Hj. back. by apply HS.
      - intros p Hp. back. by apply HC. }
    intros _ s3 [HW3 HD]. split_and!; [frames_with v3_side|intros b j Hb Hj; destruct b; try done; by back|done].
  - eapply wp_mono; [by apply (FusedV3ResetFastPath_spec row r)|].
    intros _ s2 [HW2 HD]. split_and!; [frames_with v3_side|intros b j Hb Hj; destruct b; try done; by back|done].
Qed.

Local Ltac record s' HW :=
  wp_step; eapply wp_mono; [eapply (RecordV3Stage_spec row);
    [repeat (eapply v3_gm_fits_writes; [eassumption|]); eassumption|lia]|]; cbv beta; intros _ s' HW.

Lemma LruCompactFusedV3Body_spec r s :
  ub_fits s -> v3_gm_fits row epoch profile s -> loaded row r s -> lru_inj cap (start_lru cap r) ->
  wp (LruCompactFusedV3Body clock row epoch profile en) (fun _ s' =>
    writes_only v3_cells s s' /\ row_out_of row K cap (v_gm s') = compact cap T r /\
    val (G EPOCHS) epoch s' = LRU_FUSED_V3_EPOCH) s.
Proof.
  intros Hf Hg Hl Hinj. unfold LruCompactFusedV3Body.
  assert (Hrow : 0 <= row) by (unfold v3_gm_fits in Hg; lia).
  record s1 HW1. wp_step. eapply wp_mono.
  { apply (FusedV3ResetPrepareUb_spec row epoch profile r); [by eapply ub_fits_writes|by eapply v3_gm_fits_writes|].
    destruct Hl as ((A1 & A2 & A3) & B & C & D). split_and!; try apply D.
    1-3: by back. all: intros j Hj; repeat split; back; (by apply C) || by apply B. }
  intros _ s2 (HW2 & Hr2 & HC2 & HS2). record s3 HW3.
  assert (Hf3 : ub_fits s3) by (by repeat (eapply ub_fits_writes; [eassumption|])).
  wp_step. wp_step; [ubr|]. rewrite (writes_only_val _ _ _ _ _ HW3), Hr2 by in_frame.
  destruct Hl as ((A1 & A2 & A3) & B & C & D).
  wp_step. eapply wp_mono.
  { apply (v3_paths_spec r); [done|by repeat (eapply v3_gm_fits_writes; [eassumption|])| |done].
    split_and!; try apply D; intros j Hj; repeat split; back; (by apply B) || (by apply HC2) || by apply HS2. }
  intros _ s4 (HW4 & HG4 & HD). record s5 HW5. wp_step. eapply wp_mono.
  { apply PublishFusedV3StateDirectGm_spec; repeat (first
      [eapply ub_fits_writes; [eassumption|]|eapply v3_gm_fits_writes; [eassumption|]]); done. }
  intros _ s6 (HW6 & HP6 & HQ6 & HR6 & HN6 & HE6).
  eapply wp_mono; [eapply (RecordV3Stage_spec row);
    [repeat (eapply v3_gm_fits_writes; [eassumption|]); eassumption|lia]|].
  cbv beta. intros _ s7 HW7. split_and!; [frames_with v3_side| |]. 2: { assert (0 <= epoch) by (unfold v3_gm_fits in Hg; lia). by back. }
  destruct HD as (D1 & D2 & D3 & D4 & D5 & D6).
  unfold row_out_of, compact. f_equal.
  - change (val (G LAST_REQ_IDS) row s7 = ri_req r). back. rewrite HR6. by back.
  - rewrite <- D1. apply tab_ext. intros j Hj.
    change (val (G SLOT_TO_TOKEN) (row * cap + j) s7 = val (U U_SLOT_TO_TOKEN) (0 + j) s4).
    rewrite Z.add_0_l. destruct (HP6 j Hj) as (E1 & E2). back. rewrite ?E1, ?E2. by back.
  - rewrite <- D2. apply tab_ext. intros j Hj.
    change (val (G LRU_SLOTS) (row * cap + j) s7 = val (U U_LRU_SLOTS) (0 + j) s4).
    rewrite Z.add_0_l. destruct (HP6 j Hj) as (E1 & E2). back. rewrite ?E1, ?E2. by back.
  - rewrite <- D3. apply tab_ext. intros j Hj.
    change (val (G CURRENT_SLOTS) (row * K + j) s7 = val (U U_CURRENT_SLOTS) (0 + j) s4).
    rewrite Z.add_0_l. destruct (HQ6 j Hj) as (E1 & E2 & E3). back. rewrite ?E1, ?E2, ?E3. by back.
  - change (val (G MISS_COUNT) row s7 = n_assign cap T (ri_topk r) (start_s2t cap T r) (start_lru cap r)).
    back. rewrite HN6. by back.
  - rewrite <- D4. apply tab_ext. intros j Hj.
    change (val (G MISS_TOKENS) (row * K + j) s7 = val (U U_MISS_TOKENS) (0 + j) s4).
    rewrite Z.add_0_l. destruct (HQ6 j Hj) as (E1 & E2 & E3). back. rewrite ?E1, ?E2, ?E3. by back.
  - rewrite <- D5. apply tab_ext. intros j Hj.
    change (val (G MISS_SLOTS) (row * K + j) s7 = val (U U_MISS_SLOTS) (0 + j) s4).
    rewrite Z.add_0_l. destruct (HQ6 j Hj) as (E1 & E2 & E3). back. rewrite ?E1, ?E2, ?E3. by back.
Qed.

Lemma v3_kernel_spec s :
  ub_fits s -> v3_gm_fits row epoch profile s ->
  lru_inj cap (start_lru cap (row_in_of row K cap (v_gm s))) ->
  wp (OffloadLruCompactFusedV3Kernel clock row epoch profile en) (fun _ s' =>
    writes_only v3_cells s s' /\
    row_out_of row K cap (v_gm s') = compact cap T (row_in_of row K cap (v_gm s)) /\
    val (G EPOCHS) epoch s' = LRU_FUSED_V3_EPOCH) s.
Proof.
  intros Hf Hg Hinj. pose proof Hg as Hg'. unfold v3_gm_fits in Hg'.
  unfold OffloadLruCompactFusedV3Kernel.
  wp_step. eapply wp_mono; [apply CopyGmToUb_spec; [v3lia|lia|apply Hf|done]|]. intros _ s1 [HW1 H1].
  wp_step. eapply wp_mono; [apply CopyGmToUb_spec; [v3lia|lens; lia|ubr|done]|]. intros _ s2 [HW2 H2].
  wp_step. eapply wp_mono; [apply CopyGmToUb_spec; [v3lia|lens; lia|ubr|done]|]. intros _ s3 [HW3 H3].
  eapply wp_mono.
  { apply (LruCompactFusedV3Body_spec (row_in_of row K cap (v_gm s))).
    - by repeat (eapply ub_fits_writes; [eassumption|]).
    - by repeat (eapply v3_gm_fits_writes; [eassumption|]).
    - unfold loaded. cbn [ri_req ri_last ri_prefix ri_topk ri_s2t ri_lru row_in_of].
      rewrite !length_slice. split_and!; try v3lia.
      1-3: by back.
      all: intros j Hj; rewrite !slice_at by done; repeat split; back;
        rewrite ?H1, ?H2, ?H3 by done; by back.
    - done. }
  intros _ s4 [HW4 HD]. split; [frames_with v3_side|apply HD].
Qed.
End kernel.
