(* ===== verification/LruLegacy.v ===== *)
(** * The legacy thread-per-row LRU Compact and the generic entry point

    Model of [OffloadLruCompactLegacySimtOps], [LaunchLegacyLruCompact] and
    [OffloadOpsLruCompact] of [acc_offload_lru_compact_simt.cpp].  The legacy kernel
    runs only for shapes the phased kernels refuse.  A loop with a [break] is a fold
    that carries the value decided so far; [while (j >= 0)] runs on fuel [j + 1]. *)
From S2P Require Import Prelude Simt LruSpec LruGeneric LruGenericProof.

(** [for (i = lo; i < hi; ++i) if (p(i)) { found = true; break; }]: the first [i]. *)
Fixpoint find_first {S} (fuel : nat) (i : Z) (p : Z -> M S bool) : M S (option Z) :=
  match fuel with
  | O => mret None
  | Datatypes.S fuel => b ← p i; if b : bool then mret (Some i) else find_first fuel (i + 1) p
  end.
Definition find_range {S} (lo hi : Z) (p : Z -> M S bool) : M S (option Z) :=
  find_first (Z.to_nat (hi - lo)) lo p.

Definition is_some_b {A} (o : option A) : bool := match o with Some _ => true | None => false end.

Section row.
Context (row topk capacity max_token scratch : Z) (has_scratch : bool).
Let topk_base := row * topk.
Let slot_base := row * capacity.

Definition legacy_prepare : M GM unit :=
  for_ 0 topk (fun pos =>
    st CURRENT_SLOTS (topk_base + pos) LRU_INVALID_TOKEN;;
    st MISS_TOKENS (topk_base + pos) LRU_INVALID_TOKEN;;
    st MISS_SLOTS (topk_base + pos) LRU_INVALID_TOKEN);;
  req_id ← ld REQ_IDS row;
  last ← ld LAST_REQ_IDS row;
  when (negb (last =? req_id))
    (for_ 0 capacity (fun slot =>
       st SLOT_TO_TOKEN (slot_base + slot) LRU_INVALID_TOKEN;;
       st LRU_SLOTS (slot_base + slot) (i32 slot));;
     st LAST_REQ_IDS row req_id);;
  stable_prefix_len ← ld STABLE_PREFIX_LENS row;
  let stable_prefix_len :=
    if stable_prefix_len <? 0 then 0
    else if max_token <? stable_prefix_len then max_token else stable_prefix_len in
  for_ 0 capacity (fun slot =>
    token ← ld SLOT_TO_TOKEN (slot_base + slot);
    when ((0 <=? token) && (token <? max_token) && (stable_prefix_len <=? token))
      (st SLOT_TO_TOKEN (slot_base + slot) LRU_INVALID_TOKEN)).

(** Resolve hits in old LRU order; the number of evictable slots. *)
Definition legacy_hits : M GM Z :=
  for_range 0 capacity (fun order evictable_count =>
    slot ← ld LRU_SLOTS (slot_base + order);
    if (slot <? 0) || (capacity <=? slot) then mret evictable_count else
    resident_token ← ld SLOT_TO_TOKEN (slot_base + slot);
    hit ← (if (0 <=? resident_token) && (resident_token <? max_token) then
             for_range 0 topk (fun pos (hit : bool) =>
               t ← ld TOPK_INDICES (topk_base + pos);
               if t =? resident_token then
                 st CURRENT_SLOTS (topk_base + pos) slot;; mret true
               else mret hit) false
           else mret false);
    if hit : bool then mret evictable_count
    else when has_scratch (st TOKEN_MARK (scratch + evictable_count) slot);;
         mret (evictable_count + 1)) 0.

Definition legacy_misses : M GM Z :=
  for_range 0 topk (fun pos local_miss_count =>
    token ← ld TOPK_INDICES (topk_base + pos);
    skip ← (if (token <? 0) || (max_token <=? token) then mret true
            else cur ← ld CURRENT_SLOTS (topk_base + pos); mret (0 <=? cur));
    if skip : bool then mret local_miss_count else
    duplicate ← find_range 0 pos (fun prior =>
      t ← ld TOPK_INDICES (topk_base + prior); mret (t =? token));
    if is_some_b duplicate then mret local_miss_count else
    st MISS_TOKENS (topk_base + local_miss_count) token;;
    st MISS_SLOTS (topk_base + local_miss_count) (i32 pos);;
    mret (local_miss_count + 1)) 0.

(** The oldest slot not protected by a hit or an earlier assignment. *)
Definition legacy_choose (miss_idx evictable_count : Z) : M GM Z :=
  if has_scratch then
    if miss_idx <? evictable_count then ld TOKEN_MARK (scratch + miss_idx)
    else mret LRU_INVALID_TOKEN
  else
    order ← find_range 0 capacity (fun order =>
      candidate ← ld LRU_SLOTS (slot_base + order);
      if (candidate <? 0) || (capacity <=? candidate) then mret false else
      protected_slot ← find_range 0 topk (fun pos =>
        cur ← ld CURRENT_SLOTS (topk_base + pos); mret (cur =? candidate));
      mret (negb (is_some_b protected_slot)));
    match order with
    | Some order => ld LRU_SLOTS (slot_base + order)
    | None => mret LRU_INVALID_TOKEN
    end.

(** The loop leaves at the first miss without a slot. *)
Definition legacy_assign (local_miss_count evictable_count : Z) : M GM Z :=
  r ← for_range 0 local_miss_count (fun miss_idx '(assign_count, stopped) =>
    if stopped : bool then mret (assign_count, true) else
    chosen_slot ← legacy_choose miss_idx evictable_count;
    if chosen_slot <? 0 then mret (assign_count, true) else
    _ ← ld MISS_TOKENS (topk_base + miss_idx);
    pos ← ld MISS_SLOTS (topk_base + miss_idx);
    st CURRENT_SLOTS (topk_base + pos) chosen_slot;;
    st MISS_SLOTS (topk_base + miss_idx) chosen_slot;;
    mret (assign_count + 1, false)) (0, false);
  mret (fst r).

Definition legacy_propagate : M GM unit :=
  for_ 0 topk (fun pos =>
    cur ← ld CURRENT_SLOTS (topk_base + pos);
    if 0 <=? cur then mret tt else
    token ← ld TOPK_INDICES (topk_base + pos);
    prior ← find_range 0 pos (fun prior =>
      t ← ld TOPK_INDICES (topk_base + prior);
      if t =? token then c ← ld CURRENT_SLOTS (topk_base + prior); mret (0 <=? c)
      else mret false);
    match prior with
    | Some prior =>
        c ← ld CURRENT_SLOTS (topk_base + prior); st CURRENT_SLOTS (topk_base + pos) c
    | None => mret tt
    end).

Definition legacy_rebuild_scratch (assign_count evictable_count : Z) : M GM unit :=
  for_range 0 capacity (fun i write_pos =>
    let order := capacity - 1 - i in
    slot ← ld LRU_SLOTS (slot_base + order);
    if (slot <? 0) || (capacity <=? slot) then mret write_pos else
    token ← ld SLOT_TO_TOKEN (slot_base + slot);
    hit ← find_range 0 topk (fun pos =>
      if 0 <=? token then t ← ld TOPK_INDICES (topk_base + pos); mret (token =? t)
      else mret false);
    if is_some_b hit then st LRU_SLOTS (slot_base + write_pos) slot;; mret (write_pos - 1)
    else mret write_pos) (capacity - 1);;
  output ← for_range assign_count evictable_count (fun i output =>
    slot ← ld TOKEN_MARK (scratch + i);
    st LRU_SLOTS (slot_base + output) slot;;
    mret (output + 1)) 0;
  for_range 0 assign_count (fun i output =>
    slot ← ld MISS_SLOTS (topk_base + i);
    st LRU_SLOTS (slot_base + output) slot;;
    mret (output + 1)) output;;
  mret tt.

(** 0 untouched, 1 assigned to a miss, 2 serving the request. *)
Definition legacy_category (assign_count slot : Z) : M GM Z :=
  assigned ← find_range 0 assign_count (fun m =>
    s ← ld MISS_SLOTS (topk_base + m); mret (s =? slot));
  if is_some_b assigned then mret 1 else
  current ← find_range 0 topk (fun pos =>
    c ← ld CURRENT_SLOTS (topk_base + pos); mret (c =? slot));
  mret (if is_some_b current then 2 else 0).

(** One pass of the insertion sort: the position at which the key is inserted. *)
Fixpoint legacy_shift (fuel : nat) (assign_count key_category j : Z) : M GM Z :=
  match fuel with
  | O => mret j
  | S fuel =>
      if j <? 0 then mret j else
      prior_slot ← ld LRU_SLOTS (slot_base + j);
      prior_category ← legacy_category assign_count prior_slot;
      if prior_category <=? key_category then mret j else
      st LRU_SLOTS (slot_base + j + 1) prior_slot;;
      legacy_shift fuel assign_count key_category (j - 1)
  end.

Definition legacy_rebuild_sort (assign_count : Z) : M GM unit :=
  for_ 1 capacity (fun i =>
    key_slot ← ld LRU_SLOTS (slot_base + i);
    key_category ← legacy_category assign_count key_slot;
    j ← legacy_shift (Z.to_nat i) assign_count key_category (i - 1);
    st LRU_SLOTS (slot_base + j + 1) key_slot).

Definition legacy_row : M GM unit :=
  legacy_prepare;;
  evictable_count ← legacy_hits;
  local_miss_count ← legacy_misses;
  assign_count ← legacy_assign local_miss_count evictable_count;
  legacy_propagate;;
  for_ assign_count topk (fun i =>
    st MISS_TOKENS (topk_base + i) LRU_INVALID_TOKEN;;
    st MISS_SLOTS (topk_base + i) LRU_INVALID_TOKEN);;
  (if has_scratch then legacy_rebuild_scratch assign_count evictable_count
   else legacy_rebuild_sort assign_count);;
  for_ 0 assign_count (fun i =>
    slot ← ld MISS_SLOTS (topk_base + i);
    token ← ld MISS_TOKENS (topk_base + i);
    st SLOT_TO_TOKEN (slot_base + slot) token);;
  st MISS_COUNT row assign_count.
End row.

(** ** The kernel: the rows [row, row + row_stride, ...] of one thread *)
Definition legacy_scratch (max_token capacity blockIdx threadIdx : Z) : Z :=
  blockIdx * max_token + threadIdx * capacity.

Definition OffloadLruCompactLegacySimtOps (num_reqs topk capacity max_token : Z)
    (gridDim blockDim blockIdx threadIdx : Z) : M GM unit :=
  let row_stride := gridDim * blockDim in
  let rows := strip row_stride num_reqs (blockIdx + threadIdx * gridDim) in
  if (topk <=? 0) || (capacity <=? 0) || (max_token <=? 0) then
    foldM rows (fun row _ => st MISS_COUNT row 0) tt
  else
    foldM rows (fun row _ =>
      legacy_row row topk capacity max_token (legacy_scratch max_token capacity blockIdx threadIdx)
        (capacity <=? max_token)) tt.

Definition legacy_grid_dim (num_reqs : Z) : Z :=
  if LRU_COMPACT_MAX_GRID_DIM <? num_reqs then LRU_COMPACT_MAX_GRID_DIM
  else if 0 <? num_reqs then u32 num_reqs else 1.

Definition legacy_threads_per_block (capacity max_token : Z) : Z :=
  if (0 <? capacity) && (capacity <=? max_token) then
    let workspace_threads := max_token / capacity in
    u32 (if LRU_COMPACT_MAX_THREADS_PER_BLOCK <? workspace_threads
         then LRU_COMPACT_MAX_THREADS_PER_BLOCK else workspace_threads)
  else 1.

Section launch.
Context {Sch : Scheduler}.

Definition LaunchLegacyLruCompact (num_reqs topk capacity max_token : Z) : M GM unit :=
  let grid_dim := legacy_grid_dim num_reqs in
  let threads_per_block := legacy_threads_per_block capacity max_token in
  par_grid [3] grid_dim threads_per_block
    (OffloadLruCompactLegacySimtOps num_reqs topk capacity max_token grid_dim threads_per_block).

Definition OffloadOpsLruCompact (num_reqs topk capacity max_token : Z) : M GM unit :=
  if negb (CanUseProductionPhasedLru num_reqs topk capacity max_token)
  then LaunchLegacyLruCompact num_reqs topk capacity max_token
  else LaunchProductionPhasedLru num_reqs topk capacity max_token.
End launch.

(** ** Laws of the launch *)
Lemma legacy_grid_dim_range num_reqs : 1 <= legacy_grid_dim num_reqs <= 8.
Proof.
  unfold legacy_grid_dim, LRU_COMPACT_MAX_GRID_DIM.
  destruct (Z.ltb_spec 8 num_reqs); [lia|]. destruct (Z.ltb_spec 0 num_reqs); [|lia].
  unwrap. lia.
Qed.

Lemma legacy_threads_scratch capacity max_token :
  0 < capacity <= max_token ->
  1 <= legacy_threads_per_block capacity max_token <= 128 /\
  legacy_threads_per_block capacity max_token * capacity <= max_token.
Proof.
  intros Hc. unfold legacy_threads_per_block, LRU_COMPACT_MAX_THREADS_PER_BLOCK.
  replace ((0 <? capacity) && (capacity <=? max_token)) with true by lia. cbv zeta.
  pose proof (Z.mul_div_le max_token capacity ltac:(lia)) as Hm.
  assert (1 <= max_token / capacity) by (apply Z.div_le_lower_bound; lia).
  destruct (Z.ltb_spec 128 (max_token / capacity)); unwrap; nia.
Qed.

(** Every row is run by exactly one thread of the grid. *)
Lemma legacy_rows_cover num_reqs grid threads row :
  0 < grid -> 0 < threads -> 0 <= row < num_reqs ->
  exists b t, 0 <= b < grid /\ 0 <= t < threads /\
    row ∈ strip (grid * threads) num_reqs (b + t * grid).
Proof.
  intros Hg Ht Hr. set (lin := row mod (grid * threads)).
  assert (Hl : 0 <= lin < grid * threads) by (apply Z.mod_pos_bound; nia).
  exists (lin mod grid), (lin / grid).
  pose proof (Z.mod_pos_bound lin grid Hg). pose proof (Z.div_mod lin grid ltac:(lia)) as E.
  split_and!; [lia|lia| | |].
  - apply Z.div_pos; lia.
  - apply Z.div_lt_upper_bound; lia.
  - replace (lin mod grid + lin / grid * grid) with lin by lia.
    apply elem_of_strip; [nia|done|]. done.
Qed.
