(* ===== verification/ResidentAddrs.v ===== *)
(** * ComputeLruResidentAddrs: packed copy descriptors for the misses

    Models of [acc_offload_lru_resident_addrs_simt.cpp] (one lane per request row) and
    [acc_offload_lru_resident_addrs_mixed_parallel.cpp] (one lane per miss, for a
    single request).  Both write, for every valid miss, one K and one V descriptor
    (source global address, destination device address, size) in the packed layout
    [all K][all V].  Address arithmetic is 64-bit signed in the source; the models
    compute the exact value. *)
From S2P Require Import Prelude Simt WarpScan.

Inductive ra :=
  | R_MISS_COUNT | R_MISS_TOKENS | R_MISS_SLOTS | R_BLOCK_TABLE
  | R_GVAS | R_ADDR | R_SIZE | R_NUM_TOKENS
  | R_WARP_TOTALS | R_WARP_BASES | R_CONTROL.

#[global] Instance ra_eq_dec : EqDecision ra.
Proof. solve_decision. Defined.

Definition RA : Type := Store ra.

(** The scalar arguments of both kernels. *)
Record ra_cfg := {
  block_size : Z; token_size_bytes_k : Z; token_size_bytes_v : Z;
  gvas_k_base : Z; gvas_v_base : Z; addr_k_base : Z; addr_v_base : Z;
  resident_capacity : Z; num_reqs : Z; topk : Z; max_num_blocks : Z;
}.

Definition LRU_ADDRS_MAX_GRID_DIM : Z := 8.
Definition LRU_ADDRS_THREADS_PER_BLOCK : Z := 128.
Definition RESIDENT_ADDRS_THREADS : Z := 1024.
Definition RESIDENT_ADDRS_WARP_SIZE : Z := 32.
Definition RESIDENT_ADDRS_WARP_COUNT : Z := RESIDENT_ADDRS_THREADS / RESIDENT_ADDRS_WARP_SIZE.
Definition RESIDENT_ADDRS_MAX_TOPK : Z := 2048.
Definition CONTROL_COUNT : Z := 0.
Definition CONTROL_TOTAL : Z := 1.
Definition CONTROL_ELEMENTS : Z := 8.

Section kernels.
Context (c : ra_cfg).

(** [count] clamped to the row. *)
Definition clamp_count (count : Z) : Z :=
  if count <? 0 then 0 else if topk c <? count then i32 (topk c) else count.

(** The checks of one miss entry: its slot, block index and token when it is valid. *)
Definition resident_item (r i : Z) : M RA (option (Z * Z * Z)) :=
  token ← ld R_MISS_TOKENS (r * topk c + i);
  slot ← ld R_MISS_SLOTS (r * topk c + i);
  if (token <? 0) || (slot <? 0) || (resident_capacity c <=? slot) then mret None else
  let block_id := Z.quot token (block_size c) in
  if (block_id <? 0) || (max_num_blocks c <=? block_id) then mret None else
  block_index ← ld R_BLOCK_TABLE (r * max_num_blocks c + block_id);
  if block_index <? 0 then mret None else mret (Some (slot, block_index, token)).

(** The six stores of one descriptor pair. *)
Definition publish_item (k_pos v_pos slot block_index offset_in_block : Z) : M RA unit :=
  let block_bytes_k := block_size c * token_size_bytes_k c in
  let block_bytes_v := block_size c * token_size_bytes_v c in
  st R_GVAS k_pos (gvas_k_base c + block_index * block_bytes_k +
                   offset_in_block * token_size_bytes_k c);;
  st R_GVAS v_pos (gvas_v_base c + block_index * block_bytes_v +
                   offset_in_block * token_size_bytes_v c);;
  st R_ADDR k_pos (addr_k_base c + slot * token_size_bytes_k c);;
  st R_ADDR v_pos (addr_v_base c + slot * token_size_bytes_v c);;
  st R_SIZE k_pos (token_size_bytes_k c);;
  st R_SIZE v_pos (token_size_bytes_v c).

(** *** One lane per request row *)
Definition count_valid (r count : Z) : M RA Z :=
  for_range 0 count (fun i valid_count =>
    o ← resident_item r i;
    mret (match o with Some _ => valid_count + 1 | None => valid_count end)) 0.

(** Valid entries of the rows below [bound]. *)
Definition count_rows (bound : Z) : M RA Z :=
  for_range 0 bound (fun r start =>
    count ← ld R_MISS_COUNT r;
    valid_count ← count_valid r (clamp_count count);
    mret (start + valid_count)) 0.

Definition serial_totals (req : Z) : M RA (Z * Z) :=
  for_range 0 (num_reqs c) (fun r '(total_valid, req_start) =>
    count ← ld R_MISS_COUNT r;
    valid_count ← count_valid r (clamp_count count);
    mret (total_valid + valid_count, if r <? req then req_start + valid_count else req_start))
    (0, 0).

Definition serial_row (req total_valid req_start : Z) : M RA unit :=
  count ← ld R_MISS_COUNT req;
  for_range 0 (clamp_count count) (fun i packed_index =>
    o ← resident_item req i;
    match o with
    | Some (slot, block_index, token) =>
        publish_item packed_index (total_valid + packed_index)
          (req * resident_capacity c + slot) block_index (Z.rem token (block_size c));;
        mret (packed_index + 1)
    | None => mret packed_index
    end) req_start;;
  mret tt.

Definition OffloadComputeLruResidentAddrsSimtOps (gridDim blockDim blockIdx threadIdx : Z)
  : M RA unit :=
  let row_stride := gridDim * blockDim in
  let req := blockIdx + threadIdx * gridDim in
  if (num_reqs c <=? 0) || (block_size c <=? 0) || (resident_capacity c <=? 0) ||
     (topk c <=? 0) || (max_num_blocks c <=? 0) then
    when ((blockIdx =? 0) && (threadIdx =? 0)) (st R_NUM_TOKENS 0 0)
  else if num_reqs c <=? req then mret tt
  else
    totals ← serial_totals req;
    let '(total_valid, req_start) := totals in
    when ((blockIdx =? 0) && (threadIdx =? 0)) (st R_NUM_TOKENS 0 (i32 (total_valid * 2)));;
    foldM (strip row_stride (num_reqs c) req) (fun req req_start =>
      serial_row req total_valid req_start;;
      let next_req := req + row_stride in
      if next_req <? num_reqs c then count_rows next_req else mret req_start) req_start;;
    mret tt.

Definition serial_grid_dim : Z :=
  if LRU_ADDRS_MAX_GRID_DIM <? num_reqs c then LRU_ADDRS_MAX_GRID_DIM
  else if 0 <? num_reqs c then u32 (num_reqs c) else 1.

Definition OffloadOpsComputeLruResidentAddrs `{Scheduler} : M RA unit :=
  par_grid [0] serial_grid_dim LRU_ADDRS_THREADS_PER_BLOCK
    (OffloadComputeLruResidentAddrsSimtOps serial_grid_dim LRU_ADDRS_THREADS_PER_BLOCK).

(** *** One lane per miss *)
Section parallel.
Context {Sch : Scheduler} {I : Intrinsics}.
Let threads : list Z := seqZ 0 RESIDENT_ADDRS_THREADS.

(** The exclusive ranks of the lanes; the total is left in the control words. *)
Definition WarpExclusiveScan1024 (tag : list Z) (flag : list Z) : M RA (list Z) :=
  let inclusive := per_warp warp_scan flag in
  par (0 :: tag) threads (fun thread =>
    when (lane_of thread =? RESIDENT_ADDRS_WARP_SIZE - 1)
      (st R_WARP_TOTALS (warp_of thread) inclusive.[thread]));;
  warpValue ← collect (seqZ 0 WARP_SIZE) (fun lane => ld R_WARP_TOTALS lane);
  let warpInclusive := warp_scan warpValue in
  par (1 :: tag) (seqZ 0 WARP_SIZE) (fun lane =>
    st R_WARP_BASES lane (warpInclusive.[lane] - warpValue.[lane]));;
  exclusive ← collect threads (fun thread =>
    base ← ld R_WARP_BASES (warp_of thread);
    mret (base + inclusive.[thread] - flag.[thread]));
  base ← ld R_WARP_BASES (RESIDENT_ADDRS_WARP_COUNT - 1);
  last ← ld R_WARP_TOTALS (RESIDENT_ADDRS_WARP_COUNT - 1);
  st R_CONTROL CONTROL_TOTAL (base + last);;
  mret exclusive.

(** The registers of one lane for input [index]: (valid, slot, block, offset). *)
Definition load_item (count index : Z) : M RA (option (Z * Z * Z)) :=
  if index <? count then resident_item 0 index else mret None.

Definition flag_of (o : option (Z * Z * Z)) : Z := match o with Some _ => 1 | None => 0 end.

Definition PublishResidentAddressItem (rank totalValid : Z) (o : option (Z * Z * Z))
  : M RA unit :=
  match o with
  | Some (slot, blockIndex, token) =>
      publish_item rank (totalValid + rank) slot blockIndex (Z.rem token (block_size c))
  | None => mret tt
  end.

Definition ResidentAddrsParallelVf : M RA unit :=
  count0 ←
    (if (0 <? topk c) && (topk c <=? RESIDENT_ADDRS_MAX_TOPK) && (0 <? block_size c) &&
        (0 <? resident_capacity c) && (0 <? max_num_blocks c)
     then count ← ld R_MISS_COUNT 0; mret (clamp_count count)
     else mret 0);
  st R_CONTROL CONTROL_COUNT count0;;
  count ← ld R_CONTROL CONTROL_COUNT;
  item0 ← collect threads (fun thread => load_item count thread);
  item1 ← collect threads (fun thread => load_item count (thread + RESIDENT_ADDRS_THREADS));
  rank0 ← WarpExclusiveScan1024 [0] (flag_of <$> item0);
  total0 ← ld R_CONTROL CONTROL_TOTAL;
  rank1Local ← WarpExclusiveScan1024 [1] (flag_of <$> item1);
  total1 ← ld R_CONTROL CONTROL_TOTAL;
  let totalValid := total0 + total1 in
  par [2] threads (fun thread =>
    when (thread =? 0) (st R_NUM_TOKENS 0 (totalValid * 2));;
    PublishResidentAddressItem rank0.[thread] totalValid (item0 !!! Z.to_nat thread);;
    PublishResidentAddressItem (total0 + rank1Local.[thread]) totalValid
      (item1 !!! Z.to_nat thread)).

Definition OffloadOpsComputeLruResidentAddrsMixedParallel : M RA unit :=
  if negb (num_reqs c =? 1) || (topk c <=? 0) || (RESIDENT_ADDRS_MAX_TOPK <? topk c)
  then mret tt else ResidentAddrsParallelVf.
End parallel.
End kernels.
