(* ===== verification/ResidentAddrsProof.v ===== *)
(** * Both ResidentAddrs kernels write the packed descriptor table *)
From S2P Require Import Prelude Simt WarpScan ResidentAddrs.

(** The descriptor table: what both kernels are specified by. *)
Section spec.
Context (c : ra_cfg) (s : RA).

(** The entry [i] of row [r]: slot, block index and token, when the entry is valid. *)
Definition item (r i : Z) : option (Z * Z * Z) :=
  let token := val R_MISS_TOKENS (r * topk c + i) s in
  let slot := val R_MISS_SLOTS (r * topk c + i) s in
  let block_id := Z.quot token (block_size c) in
  let block_index := val R_BLOCK_TABLE (r * max_num_blocks c + block_id) s in
  if (token <? 0) || (slot <? 0) || (resident_capacity c <=? slot) then None
  else if (block_id <? 0) || (max_num_blocks c <=? block_id) then None
  else if block_index <? 0 then None else Some (slot, block_index, token).

Definition row_count (r : Z) : Z := clamp_count c (val R_MISS_COUNT r s).

(** Entries are numbered row by row: [q = r * topk + i]. *)
Definition selected (q : Z) : bool :=
  (q mod topk c <? row_count (q / topk c)) &&
  match item (q / topk c) (q mod topk c) with Some _ => true | None => false end.
Definition total : Z := cnt selected (num_reqs c * topk c).

Definition item_outs (k_pos v_pos slot block_index offset : Z) : list (ra * Z * Z) :=
  [(R_GVAS, k_pos, gvas_k_base c + block_index * (block_size c * token_size_bytes_k c) +
                   offset * token_size_bytes_k c);
   (R_GVAS, v_pos, gvas_v_base c + block_index * (block_size c * token_size_bytes_v c) +
                   offset * token_size_bytes_v c);
   (R_ADDR, k_pos, addr_k_base c + slot * token_size_bytes_k c);
   (R_ADDR, v_pos, addr_v_base c + slot * token_size_bytes_v c);
   (R_SIZE, k_pos, token_size_bytes_k c);
   (R_SIZE, v_pos, token_size_bytes_v c)].

(** The stores of entry [q]: its K descriptor at its rank, its V descriptor behind all
    K descriptors. *)
Definition entry_outs (q : Z) : list (ra * Z * Z) :=
  if selected q then
    match item (q / topk c) (q mod topk c) with
    | Some (slot, block_index, token) =>
        item_outs (cnt selected q) (total + cnt selected q)
          (q / topk c * resident_capacity c + slot) block_index (Z.rem token (block_size c))
    | None => []
    end
  else [].

Definition table_outs : list (ra * Z * Z) :=
  (R_NUM_TOKENS, 0, total * 2) :: (seqZ 0 (num_reqs c * topk c) ≫= entry_outs).

(** [s'] is [s] with the table written, and nothing else changed outside [W]. *)
Definition table_written (W : ra -> Z -> Prop) (s' : RA) : Prop :=
  (forall b, len b s' = len b s) /\ holds table_outs s' /\
  (forall b k, 0 <= k -> ~ W b k -> ~ touches table_outs b k -> val b k s' = val b k s).
End spec.

(** The shape the host passes, and arrays large enough for it. *)
Definition ra_shape (c : ra_cfg) : Prop :=
  0 < num_reqs c /\ 0 < topk c <= INT32_MAX /\ 0 < block_size c /\ 0 < resident_capacity c /\
  0 < max_num_blocks c.

Definition ra_fits (c : ra_cfg) (s : RA) : Prop :=
  num_reqs c <= len R_MISS_COUNT s /\ num_reqs c * topk c <= len R_MISS_TOKENS s /\
  num_reqs c * topk c <= len R_MISS_SLOTS s /\
  num_reqs c * max_num_blocks c <= len R_BLOCK_TABLE s /\
  total c s * 2 <= len R_GVAS s /\ total c s * 2 <= len R_ADDR s /\ total c s * 2 <= len R_SIZE s /\
  1 <= len R_NUM_TOKENS s.

Definition ra_input (b : ra) : Prop :=
  match b with R_MISS_COUNT | R_MISS_TOKENS | R_MISS_SLOTS | R_BLOCK_TABLE => True | _ => False end.

(** [s'] still holds the inputs of [s]. *)
Definition same_inputs (s s' : RA) : Prop :=
  (forall b, len b s' = len b s) /\ (forall b k, 0 <= k -> ra_input b -> val b k s' = val b k s).

Section laws.
Context (c : ra_cfg) (s : RA) (Hsh : ra_shape c) (Hfit : ra_fits c s).
Local Abbreviation sel := (selected c s).
Local Abbreviation N := (num_reqs c).
Local Abbreviation K := (topk c).

Lemma row_count_range r : 0 <= row_count c s r <= K.
Proof.
  unfold ra_shape in Hsh. unfold row_count, clamp_count.
  destruct (Z.ltb_spec (val R_MISS_COUNT r s) 0); [lia|].
  destruct (Z.ltb_spec K (val R_MISS_COUNT r s)); [|lia].
  unwrap. lia.
Qed.

Lemma entry_div r i : 0 <= i < K -> (r * K + i) / K = r /\ (r * K + i) mod K = i.
Proof.
  intros Hi. split.
  - rewrite Z.add_comm, Z.div_add by lia. rewrite Z.div_small by lia. lia.
  - rewrite Z.add_comm, Z.mod_add by lia. apply Z.mod_small. lia.
Qed.

Lemma selected_at r i :
  0 <= i < K -> sel (r * K + i) =
    (i <? row_count c s r) && match item c s r i with Some _ => true | None => false end.
Proof. intros Hi. unfold selected. by destruct (entry_div r i Hi) as [-> ->]. Qed.

(** The valid entries of a row are the selected ones of its range. *)
Lemma cnt_row r :
  0 <= r ->
  cnt sel (r * K) + cnt (fun i => match item c s r i with Some _ => true | None => false end)
                        (row_count c s r) = cnt sel ((r + 1) * K).
Proof.
  intros Hr. pose proof (row_count_range r) as Hc. unfold ra_shape in Hsh.
  replace ((r + 1) * K) with (r * K + (row_count c s r + (K - row_count c s r))) by lia.
  rewrite cnt_add by nia. f_equal. rewrite cnt_add by lia.
  rewrite (cnt_none (fun i => sel (r * K + (row_count c s r + i)))).
  - rewrite Z.add_0_r. apply cnt_ext. intros i Hi. rewrite selected_at by lia.
    by replace (i <? row_count c s r) with true by lia.
  - intros i Hi. rewrite selected_at by lia. by replace (_ <? _) with false by lia.
Qed.

Lemma cnt_total q : 0 <= q <= N * K -> 0 <= cnt sel q <= total c s.
Proof.
  intros Hq. split; [apply cnt_bounds; lia|]. apply cnt_mono. lia.
Qed.

Lemma rank_total q : 0 <= q < N * K -> sel q = true -> 0 <= cnt sel q < total c s.
Proof.
  intros Hq Hs. split; [apply cnt_bounds; lia|]. by apply cnt_lt.
Qed.

Lemma item_outs_touch k v a b' o b z :
  touches (item_outs c k v a b' o) b z ->
  (z = k \/ z = v) /\ (b = R_GVAS \/ b = R_ADDR \/ b = R_SIZE).
Proof. cbn [touches item_outs]. intros H. destruct_or?; destruct_and?; subst; auto. Qed.

Lemma entry_touch q b z :
  touches (entry_outs c s q) b z ->
  sel q = true /\ (z = cnt sel q \/ z = total c s + cnt sel q) /\
  (b = R_GVAS \/ b = R_ADDR \/ b = R_SIZE).
Proof.
  unfold entry_outs. destruct (sel q); [|done].
  destruct (item c s (q / K) (q mod K)) as [[[slot bi] tok]|]; [|done].
  intros H%item_outs_touch. tauto.
Qed.

Lemma entry_inj q q' b z :
  0 <= q < N * K -> 0 <= q' < N * K ->
  touches (entry_outs c s q) b z -> touches (entry_outs c s q') b z -> q = q'.
Proof.
  intros Hq Hq' (H1 & E1 & _)%entry_touch (H2 & E2 & _)%entry_touch.
  pose proof (rank_total q Hq H1). pose proof (rank_total q' Hq' H2).
  apply (cnt_inj sel); (done || lia).
Qed.

Lemma item_outs_storable k v a b o (s1 : RA) :
  (forall x : ra, len x s1 = len x s) -> 0 <= k < total c s -> v = total c s + k ->
  storable (item_outs c k v a b o) s1.
Proof.
  intros HL Hk ->. unfold ra_fits in Hfit. cbn [storable item_outs touches]. rewrite !HL.
  split_and!; try lia; intuition (congruence || lia).
Qed.

Lemma entry_storable q : 0 <= q < N * K -> storable (entry_outs c s q) s.
Proof.
  intros Hq. unfold entry_outs. destruct (sel q) eqn:E; [|done].
  destruct (item c s (q / K) (q mod K)) as [[[slot bi] tok]|]; [|done].
  by apply item_outs_storable; [| apply rank_total|].
Qed.

(** *** Reading an entry *)
Lemma resident_item_spec r i s1 :
  same_inputs s s1 -> 0 <= r < N -> 0 <= i < K ->
  wp (resident_item c r i) (fun o s' => o = item c s r i /\ s' = s1) s1.
Proof.
  intros [HL HV] Hr Hi. unfold ra_shape in Hsh. unfold ra_fits in Hfit. unfold resident_item, item.
  assert (0 <= r * K + i < N * K) by nia.
  wp_step. wp_step; [rewrite HL; lia|]. wp_step. wp_step; [rewrite HL; lia|].
  rewrite !HV by (done || lia). wp_step; [by wp_step|]. wp_step; [by wp_step|].
  assert (0 <= r * max_num_blocks c + Z.quot (val R_MISS_TOKENS (r * K + i) s) (block_size c)
          < N * max_num_blocks c) by nia.
  wp_step. wp_step; [rewrite HL; lia|]. rewrite HV by (done || lia). by wp_step; wp_step.
Qed.

Lemma publish_item_spec k v a b o (s1 : RA) :
  (forall x : ra, len x s1 = len x s) -> 0 <= k < total c s -> v = total c s + k ->
  wp (publish_item c k v a b o) (fun _ s' => s' = stores (item_outs c k v a b o) s1) s1.
Proof.
  intros HL Hk ->. unfold ra_fits in Hfit. unfold publish_item.
  do 5 (wp_step; wp_step; [rewrite ?len_upd, HL; lia|]).
  wp_step; [rewrite ?len_upd, HL; lia|]. done.
Qed.

(** *** One lane per request row *)
Local Abbreviation valid r := (fun i : Z => match item c s r i with Some _ => true | None => false end).

Lemma count_valid_spec r s1 :
  same_inputs s s1 -> 0 <= r < N ->
  wp (count_valid c r (row_count c s r))
     (fun v s' => v = cnt (valid r) (row_count c s r) /\ s' = s1) s1.
Proof.
  intros HI Hr. pose proof (row_count_range r). unfold count_valid.
  apply (wp_for_range _ _ _ (fun n v s' => v = cnt (valid r) n /\ s' = s1)); [lia|by rewrite cnt_0| |auto].
  intros k a s2 Hk [-> ->]. wp_step.
  eapply wp_mono; [apply (resident_item_spec r k s1); (done || lia)|]. intros o s2 [-> ->]. wp_step.
  split; [|done]. rewrite cnt_snoc by lia. cbv beta. destruct (item c s r k); simpl; lia.
Qed.

Lemma load_count r s1 (Q : Z -> RA -> Prop) :
  same_inputs s s1 -> 0 <= r < N -> Q (val R_MISS_COUNT r s) s1 -> wp (ld R_MISS_COUNT r) Q s1.
Proof.
  intros [HL HV] Hr HQ. unfold ra_fits in Hfit. wp_step; [rewrite HL; lia|].
  by rewrite HV by (done || lia).
Qed.

Lemma count_rows_spec bound s1 :
  same_inputs s s1 -> 0 <= bound <= N ->
  wp (count_rows c bound) (fun v s' => v = cnt sel (bound * K) /\ s' = s1) s1.
Proof.
  intros HI Hb. unfold count_rows.
  apply (wp_for_range _ _ _ (fun n v s' => v = cnt sel (n * K) /\ s' = s1)); [lia|by rewrite cnt_0| |auto].
  intros r a s2 Hr [-> ->]. wp_step. apply load_count; [done|lia|].
  wp_step. eapply wp_mono; [apply count_valid_spec; (done || lia)|]. intros v s2 [-> ->]. wp_step.
  split; [|done]. apply cnt_row. lia.
Qed.

Lemma serial_totals_spec req s1 :
  same_inputs s s1 -> 0 <= req < N ->
  wp (serial_totals c req) (fun v s' => v = (total c s, cnt sel (req * K)) /\ s' = s1) s1.
Proof.
  intros HI Hb. unfold serial_totals.
  apply (wp_for_range _ _ _ (fun n v s' =>
    v = (cnt sel (n * K), cnt sel (Z.min n req * K)) /\ s' = s1)); [lia|by rewrite Z.min_l, !cnt_0 by lia| |].
  - intros r [a b] s2 Hr [[= -> ->] ->]. wp_step. apply load_count; [done|lia|].
    wp_step. eapply wp_mono; [apply count_valid_spec; (done || lia)|]. intros v s2 [-> ->]. wp_step.
    split; [|done]. f_equal; [apply cnt_row; lia|].
    destruct (Z.ltb_spec r req).
    + replace (Z.min r req) with r by lia. replace (Z.min (r + 1) req) with (r + 1) by lia.
      apply cnt_row. lia.
    + by replace (Z.min (r + 1) req) with (Z.min r req) by lia.
  - intros v s2 [-> ->]. by replace (Z.min N req) with req by lia.
Qed.

Definition row_outs (r : Z) : list (ra * Z * Z) :=
  seqZ 0 (row_count c s r) ≫= (fun i => entry_outs c s (r * K + i)).

Lemma same_inputs_item s1 k v a b o :
  same_inputs s s1 -> 0 <= k < total c s -> v = total c s + k ->
  same_inputs s (stores (item_outs c k v a b o) s1).
Proof.
  intros [HL HV] Hk Hv. split; [intros x; by rewrite len_stores|].
  intros x z Hz Hx. rewrite stores_miss; [by apply HV| |done|].
  - by apply item_outs_storable.
  - intros (_ & Hb)%item_outs_touch. destruct Hb as [->|[->| ->]]; done.
Qed.

Lemma serial_row_spec r s1 :
  same_inputs s s1 -> 0 <= r < N ->
  wp (serial_row c r (total c s) (cnt sel (r * K)))
     (fun _ s' => s' = stores (row_outs r) s1 /\ same_inputs s s') s1.
Proof.
  intros HI Hr. pose proof (row_count_range r) as Hc. unfold ra_shape in Hsh. unfold serial_row.
  wp_step. apply load_count; [done|done|]. fold (row_count c s r). wp_step.
  apply (wp_for_range _ _ _ (fun n v s' => v = cnt sel (r * K + n) /\ same_inputs s s' /\
    s' = stores (seqZ 0 n ≫= (fun i => entry_outs c s (r * K + i))) s1)); [lia| | |].
  - by rewrite Z.add_0_r.
  - intros i v s2 Hi (-> & HI2 & E2). assert (Hq : 0 <= r * K + i < N * K) by nia.
    wp_step. eapply wp_mono; [apply (resident_item_spec r i s2); (done || lia)|]. intros o s3 [-> ->].
    rewrite seqZ_snoc, bind_app by lia. rewrite stores_app, <- E2.
    assert (Es : sel (r * K + i) = valid r i).
    { rewrite selected_at by lia. by replace (i <? row_count c s r) with true by lia. }
    assert (Eo : ([i] ≫= (fun i => entry_outs c s (r * K + i))) = entry_outs c s (r * K + i))
      by (simpl; by rewrite app_nil_r).
    rewrite Eo, Z.add_assoc. unfold entry_outs.
    destruct (entry_div r i ltac:(lia)) as [-> ->].
    destruct (item c s r i) as [[[slot bi] tok]|] eqn:Ei; cbv beta in Es; rewrite Ei in Es.
    + assert (Hrk : 0 <= cnt sel (r * K + i) < total c s) by (apply rank_total; done).
      wp_step. eapply wp_mono; [apply publish_item_spec; [apply HI2|done|done]|].
      intros _ s3 ->. wp_step. rewrite Es. split_and!; [rewrite cnt_snoc, Es by lia; done| |done].
      by apply same_inputs_item.
    + wp_step. rewrite Es. split_and!; [rewrite cnt_snoc, Es by lia; simpl; lia|done|done].
  - intros v s2 (-> & HI2 & ->). wp_step. done.
Qed.

(** The stores of a thread: the rows it owns, and the counter for thread 0. *)
Definition thread_outs (stride lin : Z) : list (ra * Z * Z) :=
  (if lin =? 0 then [(R_NUM_TOKENS, 0, total c s * 2)] else []) ++
  (strip stride N lin ≫= row_outs).

Lemma strip_next stride lin ds i :
  0 < stride -> ds ++ [i] `prefix_of` strip stride N lin ->
  i = lin + Z.of_nat (length ds) * stride /\ i < N.
Proof.
  intros Hst [l Hl]. unfold strip in Hl.
  assert (((fun k => lin + k * stride) <$> seqZ 0 ((N - lin + stride - 1) / stride)) !! length ds = Some i)
    as Hi by (rewrite Hl, <- app_assoc; by apply list_lookup_middle).
  apply list_lookup_fmap_Some in Hi as (k & -> & Hk). apply lookup_seqZ in Hk as [-> Hk].
  split; [lia|].
  assert (stride * ((N - lin + stride - 1) / stride) <= N - lin + stride - 1)
    by (apply Z.mul_div_le; lia). nia.
Qed.

Lemma serial_rows_spec stride lin s1 :
  0 < stride -> 0 <= lin -> same_inputs s s1 ->
  wp (foldM (strip stride N lin) (fun req req_start =>
        serial_row c req (total c s) req_start;;
        let next_req := req + stride in
        if next_req <? N then count_rows c next_req else mret req_start) (cnt sel (lin * K)))
     (fun _ s' => s' = stores (strip stride N lin ≫= row_outs) s1) s1.
Proof.
  intros Hst Hlin HI.
  apply (wp_foldM _ _ (fun ds start s' => same_inputs s s' /\ s' = stores (ds ≫= row_outs) s1 /\
    (lin + Z.of_nat (length ds) * stride < N \/ ds = [] ->
     start = cnt sel ((lin + Z.of_nat (length ds) * stride) * K)))).
  - split_and!; [done|done|]. intros _. simpl. by rewrite Z.add_0_r.
  - intros ds i a s2 Hp (HI2 & E2 & Ha). destruct (strip_next _ _ _ _ Hst Hp) as [-> Hi].
    rewrite Ha by (left; lia). wp_step.
    eapply wp_mono; [apply serial_row_spec; [done|lia]|]. intros _ s3 [E3 HI3]. cbv zeta.
    assert (Eo : forall r, ([r] ≫= row_outs) = row_outs r) by (intros; simpl; by rewrite app_nil_r).
    rewrite length_app, bind_app, stores_app, <- E2, Eo, <- E3. simpl length.
    replace (lin + Z.of_nat (length ds + 1) * stride)
      with (lin + Z.of_nat (length ds) * stride + stride) by lia.
    wp_step.
    + eapply wp_mono; [apply count_rows_spec; [done|lia]|]. intros v s4 [-> ->]. by split_and!.
    + wp_step. split_and!; [done|done|]. intros [|[]%app_nil]; [lia|done].
  - intros a s2 (_ & -> & _). done.
Qed.

Lemma serial_thread_spec g n lin s1 :
  0 < g -> 0 < n -> 0 <= lin < g * n -> same_inputs s s1 -> total c s * 2 <= INT32_MAX ->
  wp (OffloadComputeLruResidentAddrsSimtOps c g n (lin mod g) (lin / g))
     (fun _ s' => s' = stores (thread_outs (g * n) lin) s1) s1.
Proof.
  intros Hg Hn Hlin HI Hmax. pose proof Hsh as Hs. unfold ra_shape in Hs.
  assert (Elin : lin mod g + lin / g * g = lin) by (pose proof (Z.div_mod lin g); lia).
  pose proof (cnt_total 0 ltac:(nia)) as Ht0.
  assert (E0 : (lin mod g =? 0) && (lin / g =? 0) = (lin =? 0)).
  { pose proof (Z.mod_pos_bound lin g Hg). pose proof (Z.div_pos lin g ltac:(lia) Hg). nia. }
  unfold OffloadComputeLruResidentAddrsSimtOps. cbv zeta. rewrite Elin, E0.
  replace (_ || _) with false by lia.
  wp_step.
  { wp_step. unfold thread_outs. replace (lin =? 0) with false by lia.
    unfold strip. rewrite seqZ_nil; [done|].
    enough ((N - lin + g * n - 1) / (g * n) < 1) by lia.
    apply Z.div_lt_upper_bound; nia. }
  wp_step. eapply wp_mono; [apply serial_totals_spec; [done|lia]|]. intros v s2 [-> ->].
  unfold thread_outs. rewrite stores_app, i32_small by lia.
  wp_step. apply (wp_mono _ (fun _ s' => same_inputs s s' /\
    s' = stores (if lin =? 0 then [(R_NUM_TOKENS, 0, total c s * 2)] else []) s1)).
  { wp_step; rewrite H; [|by split]. unfold ra_fits in Hfit. destruct HI as [HL HV].
    wp_step; [rewrite HL; lia|]. split; [|done]. split; [intros b; by rewrite len_upd|].
    intros b k Hk Hb. rewrite val_upd_other; [by apply HV|]. by intros <-. }
  intros _ s2 [HI2 E2]. rewrite <- E2. wp_step.
  eapply wp_mono; [apply serial_rows_spec; [nia|lia|done]|]. intros _ s3 ->. by wp_step.
Qed.

(** Cells of a row are cells of its entries. *)
Lemma row_touch r b z :
  touches (row_outs r) b z -> 0 <= r ->
  exists q, q / K = r /\ r * K <= q < (r + 1) * K /\ touches (entry_outs c s q) b z.
Proof.
  intros (i & Hi%elem_of_seqZ & Ht)%touches_bind Hr. pose proof (row_count_range r).
  exists (r * K + i). destruct (entry_div r i ltac:(lia)) as [E _]. split_and!; [done|lia|nia|done].
Qed.

Lemma row_inj r r' b z :
  0 <= r < N -> 0 <= r' < N -> touches (row_outs r) b z -> touches (row_outs r') b z -> r = r'.
Proof.
  intros Hr Hr' H1 H2. unfold ra_shape in Hsh.
  apply row_touch in H1 as (q & E1 & Hq & T1); [|lia].
  apply row_touch in H2 as (q' & E2 & Hq' & T2); [|lia].
  enough (q = q') by congruence. eapply entry_inj; [| |done|done]; nia.
Qed.

Lemma row_storable r : 0 <= r < N -> storable (row_outs r) s.
Proof.
  intros Hr. pose proof (row_count_range r). unfold ra_shape in Hsh.
  apply storable_bind; [apply NoDup_seqZ| |].
  - intros i Hi%elem_of_seqZ. apply entry_storable. nia.
  - intros i j b k Hi%elem_of_seqZ Hj%elem_of_seqZ T1 T2.
    enough (r * K + i = r * K + j) by lia. eapply entry_inj; [| |done|done]; nia.
Qed.

Lemma row_holds r s' :
  0 <= r < N -> holds (row_outs r) s' ->
  forall i, 0 <= i < K -> holds (entry_outs c s (r * K + i)) s'.
Proof.
  intros Hr H i Hi. destruct (Z.lt_ge_cases i (row_count c s r)).
  - apply (proj1 (holds_bind _ _ _) H). apply elem_of_seqZ. lia.
  - unfold entry_outs. rewrite selected_at by done. by replace (i <? row_count c s r) with false by lia.
Qed.

Lemma thread_touch stride lin b z :
  0 < stride -> 0 <= lin < stride -> touches (thread_outs stride lin) b z ->
  (lin = 0 /\ b = R_NUM_TOKENS /\ z = 0) \/
  (exists r, 0 <= r < N /\ r mod stride = lin /\ touches (row_outs r) b z).
Proof.
  intros Hst Hl [T|(r & Hr & T)%touches_bind]%touches_app.
  - left. destruct (Z.eqb_spec lin 0); [|done]. simpl in T. intuition congruence.
  - right. apply elem_of_strip in Hr; [|done|done]. exists r. tauto.
Qed.

Lemma row_touch_out r b z : touches (row_outs r) b z -> b <> R_NUM_TOKENS.
Proof.
  intros (i & _ & (_ & _ & Hb)%entry_touch)%touches_bind. destruct Hb as [->|[->| ->]]; done.
Qed.

Lemma thread_inj stride lin lin' b z :
  0 < stride -> 0 <= lin < stride -> 0 <= lin' < stride ->
  touches (thread_outs stride lin) b z -> touches (thread_outs stride lin') b z -> lin = lin'.
Proof.
  intros Hst Hl Hl' T1 T2.
  destruct (thread_touch _ _ _ _ Hst Hl T1) as [(-> & E1 & _)|(r & Hr & <- & R1)];
    destruct (thread_touch _ _ _ _ Hst Hl' T2) as [(-> & E2 & _)|(r' & Hr' & <- & R2)].
  - done.
  - by apply row_touch_out in R2.
  - by apply row_touch_out in R1.
  - by rewrite (row_inj r r' b z).
Qed.

Lemma thread_storable stride lin :
  0 < stride -> 0 <= lin < stride -> storable (thread_outs stride lin) s.
Proof.
  intros Hst Hl. pose proof Hfit as Hf. unfold ra_fits in Hf. apply storable_app.
  - destruct (lin =? 0); simpl; [|done]. split_and!; [lia|lia|tauto|done].
  - apply storable_bind; [by apply NoDup_strip| |].
    + intros r Hr. apply elem_of_strip in Hr as [Hr _]; [|done|done]. by apply row_storable.
    + intros r r' b k Hr Hr'. apply elem_of_strip in Hr as [Hr _]; [|done..].
      apply elem_of_strip in Hr' as [Hr' _]; [|done..]. by apply row_inj.
  - intros b k T1 (r & _ & T2)%touches_bind. apply row_touch_out in T2.
    destruct (lin =? 0); simpl in T1; intuition congruence.
Qed.

(** The serial kernel writes the table, for every schedule of the grid. *)
Lemma serial_kernel_spec `{Scheduler} :
  total c s * 2 <= INT32_MAX ->
  wp (OffloadOpsComputeLruResidentAddrs c) (fun _ s' => table_written c s (fun _ _ => False) s') s.
Proof.
  intros Hmax. pose proof Hsh as Hs. unfold ra_shape in Hs.
  unfold OffloadOpsComputeLruResidentAddrs, par_grid.
  assert (Hg : 0 < serial_grid_dim c).
  { unfold serial_grid_dim, LRU_ADDRS_MAX_GRID_DIM. destruct (Z.ltb_spec 8 N); [lia|].
    replace (0 <? N) with true by lia. unwrap. lia. }
  set (g := serial_grid_dim c) in *. set (n := LRU_ADDRS_THREADS_PER_BLOCK).
  assert (Hst : 0 < g * n) by (unfold n, LRU_ADDRS_THREADS_PER_BLOCK; lia).
  apply (wp_par_stores _ _ _ (thread_outs (g * n))).
  - apply NoDup_seqZ.
  - intros lin Hl%elem_of_seqZ. by apply thread_storable.
  - intros i j b k Hi%elem_of_seqZ Hj%elem_of_seqZ. by apply thread_inj.
  - intros lin s1 Hl%elem_of_seqZ HL HV. apply serial_thread_spec; try done.
    split; [done|]. intros b k Hk Hb. apply HV; [done|]. intros j Hj%elem_of_seqZ _ T.
    destruct (thread_touch _ _ _ _ Hst Hj T) as [(_ & -> & _)|(r & _ & _ & R)]; [done|].
    apply touches_bind in R as (i & _ & (_ & _ & Hb')%entry_touch). destruct Hb' as [->|[->| ->]]; done.
  - intros s1 HL HH HV. split_and!; [done| |].
    + split.
      * specialize (HH 0 ltac:(apply elem_of_seqZ; lia)). apply holds_app in HH as [HH _]. apply HH.
      * apply holds_bind. intros q Hq%elem_of_seqZ.
        pose proof (Z.div_mod q K ltac:(lia)) as E. pose proof (Z.mod_pos_bound q K ltac:(lia)) as Hm.
        assert (Hr : 0 <= q / K < N) by (split; [apply Z.div_pos; lia|apply Z.div_lt_upper_bound; lia]).
        pose proof (Z.mod_pos_bound (q / K) (g * n) Hst) as Hlin.
        specialize (HH ((q / K) mod (g * n)) ltac:(apply elem_of_seqZ; lia)).
        apply holds_app in HH as [_ HH].
        assert (R : holds (row_outs (q / K)) s1).
        { apply (proj1 (holds_bind _ _ _) HH). by apply elem_of_strip. }
        replace q with (q / K * K + q mod K) by lia. by apply row_holds.
    + intros b k Hk _ Hno. apply HV; [done|]. intros lin Hl%elem_of_seqZ T. apply Hno.
      destruct (thread_touch _ _ _ _ Hst Hl T) as [(-> & -> & ->)|(r & Hr & _ & R)]; [by left|].
      right. apply row_touch in R as (q & _ & Hq & R); [|lia]. apply touches_bind. exists q.
      split; [apply elem_of_seqZ; nia|done].
Qed.
End laws.

(** ** One lane per miss *)
Definition ra_ub_fits (s : RA) : Prop :=
  len R_WARP_TOTALS s = RESIDENT_ADDRS_WARP_COUNT /\ len R_WARP_BASES s = RESIDENT_ADDRS_WARP_COUNT /\
  len R_CONTROL s = CONTROL_ELEMENTS.

(** The unified-buffer scratch of the parallel kernel. *)
Definition ra_scratch (b : ra) (_ : Z) : Prop :=
  match b with R_WARP_TOTALS | R_WARP_BASES | R_CONTROL => True | _ => False end.

Section parallel.
Context {Sch : Scheduler} {I : Intrinsics}.

Local Ltac ral := unfold ra_ub_fits, RESIDENT_ADDRS_WARP_COUNT, RESIDENT_ADDRS_THREADS,
  RESIDENT_ADDRS_WARP_SIZE, CONTROL_ELEMENTS, CONTROL_COUNT, CONTROL_TOTAL, WARP_SIZE in *;
  change (1024 / 32) with 32 in *; lia.

Lemma elem_of_lanes t : t ∈ seqZ 0 RESIDENT_ADDRS_THREADS <-> 0 <= t < 1024.
Proof. rewrite elem_of_seqZ. ral. Qed.

Lemma WarpExclusiveScan1024_spec tag (flag : list Z) s :
  ra_ub_fits s ->
  wp (WarpExclusiveScan1024 tag flag) (fun ex s' =>
    writes_only ra_scratch s s' /\
    (forall t, 0 <= t < 1024 -> ex.[t] = psum (fun i => flag.[i]) t) /\
    val R_CONTROL CONTROL_TOTAL s' = psum (fun i => flag.[i]) 1024) s.
Proof.
  intros Hf. unfold WarpExclusiveScan1024. change (RESIDENT_ADDRS_WARP_SIZE - 1) with 31.
  wp_step. apply (wp_par_stores _ _ _ (fun t =>
    if lane_of t =? 31 then [(R_WARP_TOTALS, warp_of t, (per_warp warp_scan flag).[t])] else [])).
  { apply NoDup_seqZ. }
  { intros t Ht%elem_of_lanes. pose proof (lane_warp t Ht). case_match; simpl; [|done].
    split_and!; try ral; tauto. }
  { intros t u b k Ht%elem_of_lanes Hu%elem_of_lanes.
    pose proof (lane_warp t Ht). pose proof (lane_warp u Hu). repeat case_match; simpl; intuition lia. }
  { intros t s1 Ht%elem_of_lanes HL HV. pose proof (lane_warp t Ht).
    wp_step; rewrite H0; [|done]. wp_step; [rewrite HL; ral|done]. }
  intros s1 HL1 HH1 HV1.
  assert (HT : forall w, 0 <= w < 32 ->
    val R_WARP_TOTALS w s1 = psum (fun i => flag.[w * 32 + i]) 32).
  { intros w Hw. destruct (last_lane w Hw) as [El Ew].
    specialize (HH1 (w * 32 + 31) ltac:(apply elem_of_lanes; lia)). rewrite El, Ew in HH1.
    cbn [holds Z.eqb Pos.eqb] in HH1. destruct HH1 as [-> _]. by apply warp_total_at. }
  wp_step. apply (wp_collect _ _ (fun lane => val R_WARP_TOTALS lane s1)).
  { intros l Hl%elem_of_seqZ. wp_step; [rewrite HL1; ral|done]. }
  fold (tab WARP_SIZE (fun lane => val R_WARP_TOTALS lane s1)).
  set (wv := tab WARP_SIZE (fun lane => val R_WARP_TOTALS lane s1)).
  assert (HB : forall w, 0 <= w < 32 -> (warp_scan wv).[w] - wv.[w] = psum (fun i => flag.[i]) (w * 32)).
  { intros w Hw. apply warp_base; try done. intros v Hv. unfold wv. rewrite at_tab by ral. by apply HT. }
  wp_step. apply (wp_par_stores _ _ _ (fun lane =>
    [(R_WARP_BASES, lane, psum (fun i => flag.[i]) (lane * 32))])).
  { apply NoDup_seqZ. }
  { intros t Ht%elem_of_seqZ. simpl. rewrite HL1. split_and!; try ral; tauto. }
  { intros t u b k _ _. simpl. intuition lia. }
  { intros t s2 Ht%elem_of_seqZ HL HV. rewrite HB by ral. wp_step; [rewrite HL, HL1; ral|done]. }
  intros s2 HL2 HH2 HV2.
  assert (HB2 : forall w, 0 <= w < 32 -> val R_WARP_BASES w s2 = psum (fun i => flag.[i]) (w * 32)).
  { intros w Hw. specialize (HH2 w ltac:(apply elem_of_seqZ; ral)). simpl in HH2. tauto. }
  wp_step. apply (wp_collect _ _ (fun t => psum (fun i => flag.[i]) t)).
  { intros t Ht%elem_of_lanes. destruct (lane_warp t Ht) as (Hl & Hw & _).
    wp_step. wp_step; [rewrite HL2, HL1; ral|]. wp_step. split; [|done].
    rewrite HB2, warp_inclusive_at by lia. rewrite block_inclusive, psum_snoc by lia. lia. }
  change (RESIDENT_ADDRS_WARP_COUNT - 1) with 31.
  wp_step. wp_step; [rewrite HL2, HL1; ral|]. wp_step. wp_step; [rewrite HL2, HL1; ral|].
  rewrite HB2, (HV2 R_WARP_TOTALS), HT by (try lia; intros i _; simpl; intuition congruence).
  wp_step. wp_step; [rewrite HL2, HL1; ral|]. wp_step. split_and!.
  - apply writes_only_upd; [|ral|done]. split; [intros b; by rewrite HL2, HL1|]. intros b j Hj Hc.
    rewrite HV2, HV1; [done|lia| |lia|]; intros i _ T; repeat case_match; simpl in T;
      intuition (subst; simpl in Hc; tauto).
  - intros t Ht. change ((fun t => psum (fun i => flag.[i]) t) <$> seqZ 0 RESIDENT_ADDRS_THREADS)
      with (tab RESIDENT_ADDRS_THREADS (fun t => psum (fun i => flag.[i]) t)).
    by rewrite at_tab by ral.
  - rewrite val_upd_eq by (rewrite HL2, HL1; ral).
    change 1024 with (31 * 32 + 32). by rewrite psum_shift by lia.
Qed.

Context (c : ra_cfg) (s : RA) (Hsh : ra_shape c) (Hfit : ra_fits c s) (Hub : ra_ub_fits s).
Context (Hone : num_reqs c = 1) (Hk : topk c <= RESIDENT_ADDRS_MAX_TOPK).
Local Abbreviation K := (topk c).
Local Abbreviation count := (row_count c s 0).

(** The entry a lane holds for input [q]. *)
Definition lane_item (q : Z) : option (Z * Z * Z) := if q <? count then item c s 0 q else None.
Definition lane_valid (q : Z) : bool := match lane_item q with Some _ => true | None => false end.

Lemma lane_selected q : 0 <= q < K -> selected c s q = lane_valid q.
Proof.
  intros Hq. replace q with (0 * K + q) by lia. rewrite selected_at by (done || lia).
  unfold lane_valid, lane_item. rewrite Z.mul_0_l, Z.add_0_l. by destruct (q <? count).
Qed.

Lemma lane_cnt q : 0 <= q <= K -> cnt lane_valid q = cnt (selected c s) q.
Proof. intros Hq. apply cnt_ext. intros i Hi. symmetry. apply lane_selected. lia. Qed.

Lemma lane_none q : K <= q -> lane_item q = None.
Proof.
  intros Hq. pose proof (row_count_range c s Hsh 0). unfold lane_item.
  by replace (q <? count) with false by lia.
Qed.

Lemma lane_total : cnt lane_valid 2048 = total c s.
Proof.
  unfold ra_shape in Hsh. unfold RESIDENT_ADDRS_MAX_TOPK in Hk.
  replace 2048 with (K + (2048 - K)) by lia. rewrite cnt_add by lia.
  rewrite (cnt_none (fun i => lane_valid (K + i))), lane_cnt by
    (try (intros i Hi; unfold lane_valid; rewrite lane_none); (done || lia)).
  unfold total. rewrite Hone, Z.mul_1_l. lia.
Qed.

Lemma load_item_spec q s1 :
  same_inputs s s1 -> 0 <= q ->
  wp (load_item c count q) (fun o s' => o = lane_item q /\ s' = s1) s1.
Proof.
  intros HI Hq. pose proof (row_count_range c s Hsh 0) as Hc. unfold load_item, lane_item.
  wp_step; [|by wp_step]. apply resident_item_spec; (done || lia).
Qed.

(** The flags of one tile of lanes, and what its scan yields. *)
Lemma tile_psum tile n :
  0 <= tile -> 0 <= n <= 1024 ->
  psum (fun i => (flag_of <$> ((fun t => lane_item (t + tile)) <$> seqZ 0 RESIDENT_ADDRS_THREADS)).[i]) n
  = cnt (fun i => lane_valid (tile + i)) n.
Proof.
  intros Ht Hn. rewrite <- psum_cnt by lia. apply psum_ext. intros i Hi.
  rewrite <- list_fmap_compose.
  change ((flag_of ∘ (fun t => lane_item (t + tile))) <$> seqZ 0 RESIDENT_ADDRS_THREADS)
    with (tab RESIDENT_ADDRS_THREADS (fun t => flag_of (lane_item (t + tile)))).
  rewrite at_tab by ral. rewrite (Z.add_comm i tile). unfold lane_valid.
  by destruct (lane_item (tile + i)).
Qed.

Definition lane_outs (q : Z) : list (ra * Z * Z) :=
  match lane_item q with
  | Some (slot, bi, tok) =>
      item_outs c (cnt lane_valid q) (total c s + cnt lane_valid q) slot bi (Z.rem tok (block_size c))
  | None => []
  end.

Lemma lane_outs_entry q : 0 <= q < K -> lane_outs q = entry_outs c s q.
Proof.
  intros Hq. unfold lane_outs, entry_outs. rewrite lane_selected, lane_cnt by lia.
  rewrite Z.div_small, Z.mod_small by lia. unfold lane_valid, lane_item.
  destruct (q <? count); [|done]. by destruct (item c s 0 q) as [[[]]|].
Qed.

Lemma lane_outs_none q : K <= q -> lane_outs q = [].
Proof. intros Hq. unfold lane_outs. by rewrite lane_none. Qed.

Lemma lane_touch q b z :
  0 <= q -> touches (lane_outs q) b z -> 0 <= q < K /\ touches (entry_outs c s q) b z.
Proof.
  intros Hq T. destruct (Z.lt_ge_cases q K); [|by rewrite lane_outs_none in T].
  by rewrite lane_outs_entry in T by lia.
Qed.

Lemma PublishResidentAddressItem_spec q s1 :
  (forall x : ra, len x s1 = len x s) -> 0 <= q ->
  wp (PublishResidentAddressItem c (cnt lane_valid q) (total c s) (lane_item q))
     (fun _ s' => s' = stores (lane_outs q) s1) s1.
Proof.
  intros HL Hq. unfold PublishResidentAddressItem, lane_outs.
  destruct (lane_item q) as [[[slot bi] tok]|] eqn:E; [|by wp_step].
  apply publish_item_spec with (s := s); [done|done| |done].
  destruct (Z.lt_ge_cases q K); [|by rewrite lane_none in E].
  rewrite lane_cnt by lia. apply rank_total; [rewrite Hone; lia|].
  rewrite lane_selected by lia. unfold lane_valid. by rewrite E.
Qed.

Definition lane_thread_outs (t : Z) : list (ra * Z * Z) :=
  (if t =? 0 then [(R_NUM_TOKENS, 0, total c s * 2)] else []) ++ lane_outs t ++ lane_outs (t + 1024).

Lemma lane_thread_touch t b z :
  0 <= t < 1024 -> touches (lane_thread_outs t) b z ->
  (t = 0 /\ b = R_NUM_TOKENS /\ z = 0) \/
  (exists q, 0 <= q < K /\ (q = t \/ q = t + 1024) /\ touches (entry_outs c s q) b z).
Proof.
  intros Ht [T|[T|T]%touches_app]%touches_app.
  - left. destruct (Z.eqb_spec t 0); [|done]. simpl in T. intuition congruence.
  - right. apply lane_touch in T as [? ?]; [|lia]. eauto.
  - right. apply lane_touch in T as [? ?]; [|lia]. eauto.
Qed.

Lemma lane_entry_inj q q' b z :
  0 <= q < K -> 0 <= q' < K ->
  touches (entry_outs c s q) b z -> touches (entry_outs c s q') b z -> q = q'.
Proof. intros Hq Hq'. apply entry_inj; rewrite Hone; lia. Qed.

Lemma lane_thread_inj t u b z :
  0 <= t < 1024 -> 0 <= u < 1024 ->
  touches (lane_thread_outs t) b z -> touches (lane_thread_outs u) b z -> t = u.
Proof.
  intros Ht Hu T1 T2.
  destruct (lane_thread_touch _ _ _ Ht T1) as [(-> & E1 & _)|(q & Hq & Eq & R1)];
    destruct (lane_thread_touch _ _ _ Hu T2) as [(-> & E2 & _)|(q' & Hq' & Eq' & R2)].
  - done.
  - apply entry_touch in R2 as (_ & _ & Hb). subst. destruct Hb as [|[|]]; done.
  - apply entry_touch in R1 as (_ & _ & Hb). subst. destruct Hb as [|[|]]; done.
  - assert (q = q') by (by eapply lane_entry_inj). lia.
Qed.

Lemma lane_storable q : 0 <= q -> storable (lane_outs q) s.
Proof.
  intros Hq. destruct (Z.lt_ge_cases q K); [|by rewrite lane_outs_none].
  rewrite lane_outs_entry by lia. apply entry_storable; [done|]. rewrite Hone. lia.
Qed.

Lemma lane_thread_storable t : 0 <= t < 1024 -> storable (lane_thread_outs t) s.
Proof.
  intros Ht. pose proof Hfit as Hf. unfold ra_fits in Hf. apply storable_app; [|apply storable_app|].
  - destruct (t =? 0); simpl; [|done]. split_and!; [lia|lia|tauto|done].
  - apply lane_storable. lia.
  - apply lane_storable. lia.
  - intros b k T1 T2. apply lane_touch in T1 as [H1 T1]; [|lia]. apply lane_touch in T2 as [H2 T2]; [|lia].
    assert (t = t + 1024) by (by eapply lane_entry_inj). lia.
  - intros b k T1 T2. destruct (t =? 0); simpl in T1; [|done].
    apply touches_app in T2 as [T2|T2]; apply lane_touch in T2 as [_ (_ & _ & Hb)%entry_touch];
      [|lia| |lia]; destruct T1 as [[<- _]|[]]; destruct Hb as [|[|]]; done.
Qed.

Lemma publish_phase (rank0 rank1 : list Z) (total0 total1 : Z) (s3 : RA) :
  same_inputs s s3 ->
  (forall t, 0 <= t < 1024 -> rank0.[t] = cnt lane_valid t) ->
  (forall t, 0 <= t < 1024 -> total0 + rank1.[t] = cnt lane_valid (1024 + t)) ->
  total0 + total1 = total c s ->
  let item0 := (fun t => lane_item (t + 0)) <$> seqZ 0 RESIDENT_ADDRS_THREADS in
  let item1 := (fun t => lane_item (t + 1024)) <$> seqZ 0 RESIDENT_ADDRS_THREADS in
  wp (par [2] (seqZ 0 RESIDENT_ADDRS_THREADS) (fun thread =>
        when (thread =? 0) (st R_NUM_TOKENS 0 ((total0 + total1) * 2));;
        PublishResidentAddressItem c rank0.[thread] (total0 + total1) (item0 !!! Z.to_nat thread);;
        PublishResidentAddressItem c (total0 + rank1.[thread]) (total0 + total1)
          (item1 !!! Z.to_nat thread)))
     (fun _ s' => (forall b, len b s' = len b s) /\ holds (table_outs c s) s' /\
        (forall b k, 0 <= k -> ~ touches (table_outs c s) b k -> val b k s' = val b k s3)) s3.
Proof.
  intros [HL3 HV3] H0 H1 Ht item0 item1. pose proof Hsh as Hs. unfold ra_shape in Hs.
  unfold RESIDENT_ADDRS_MAX_TOPK in Hk. pose proof Hfit as Hf. unfold ra_fits in Hf.
  apply (wp_par_stores _ _ _ lane_thread_outs).
  - apply NoDup_seqZ.
  - intros t Ht'%elem_of_lanes. eapply storable_len; [exact HL3|]. by apply lane_thread_storable.
  - intros t u b k Ht'%elem_of_lanes Hu%elem_of_lanes. by apply lane_thread_inj.
  - intros t s1 Ht'%elem_of_lanes HL _.
    assert (HLs : forall x : ra, len x s1 = len x s) by (intros x; by rewrite HL, HL3).
    assert (E0 : item0 !!! Z.to_nat t = lane_item t).
    { apply list_lookup_total_correct. unfold item0. rewrite list_lookup_fmap, lookup_seqZ_lt by ral.
      simpl. do 2 f_equal. lia. }
    assert (E1 : item1 !!! Z.to_nat t = lane_item (t + 1024)).
    { apply list_lookup_total_correct. unfold item1. rewrite list_lookup_fmap, lookup_seqZ_lt by ral.
      simpl. do 2 f_equal. lia. }
    rewrite E0, E1, H0, H1, Ht, (Z.add_comm 1024 t) by done.
    unfold lane_thread_outs. rewrite !stores_app.
    wp_step. apply (wp_mono _ (fun _ s' =>
      s' = stores (if t =? 0 then [(R_NUM_TOKENS, 0, total c s * 2)] else []) s1)).
    { wp_step; rewrite H; [|done]. wp_step; [rewrite HLs; lia|done]. }
    intros _ s2 ->. wp_step. eapply wp_mono; [apply PublishResidentAddressItem_spec;
      [intros x; by rewrite len_stores, HLs|lia]|]. intros _ s4 ->.
    apply PublishResidentAddressItem_spec; [intros x; by rewrite !len_stores, HLs|lia].
  - intros s4 HL4 HH HV. split_and!; [intros b; by rewrite HL4, HL3| |].
    + split.
      * specialize (HH 0 ltac:(apply elem_of_lanes; lia)). apply holds_app in HH as [HH _]. apply HH.
      * apply holds_bind. intros q Hq%elem_of_seqZ. rewrite Hone in Hq.
        destruct (Z.lt_ge_cases q 1024).
        { specialize (HH q ltac:(apply elem_of_lanes; lia)).
          apply holds_app in HH as [_ [HH _]%holds_app]. by rewrite lane_outs_entry in HH by lia. }
        { specialize (HH (q - 1024) ltac:(apply elem_of_lanes; lia)).
          apply holds_app in HH as [_ [_ HH]%holds_app].
          replace (q - 1024 + 1024) with q in HH by lia. by rewrite lane_outs_entry in HH by lia. }
    + intros b k Hk' Hno. apply HV; [done|]. intros t Ht'%elem_of_lanes T. apply Hno.
      destruct (lane_thread_touch _ _ _ Ht' T) as [(_ & -> & ->)|(q & Hq & _ & R)]; [by left|].
      right. apply touches_bind. exists q. split; [apply elem_of_seqZ; rewrite Hone; lia|done].
Qed.

(** The parallel kernel writes the table, for every schedule of the lanes. *)
Lemma parallel_kernel_spec :
  wp (OffloadOpsComputeLruResidentAddrsMixedParallel c)
     (fun _ s' => table_written c s ra_scratch s') s.
Proof.
  pose proof Hsh as Hs. unfold ra_shape in Hs. pose proof Hfit as Hf. unfold ra_fits in Hf.
  pose proof Hk as Hk'. unfold RESIDENT_ADDRS_MAX_TOPK in Hk'.
  unfold OffloadOpsComputeLruResidentAddrsMixedParallel, ResidentAddrsParallelVf, RESIDENT_ADDRS_MAX_TOPK.
  replace (_ || _) with false by (rewrite Hone; lia). replace (_ && _) with true by lia.
  wp_step. wp_step. wp_step; [lia|]. wp_step. fold count.
  wp_step. wp_step; [ral|]. set (s1 := upd R_CONTROL CONTROL_COUNT count s).
  assert (HW1 : writes_only ra_scratch s s1).
  { apply writes_only_upd; [apply writes_only_refl|ral|done]. }
  assert (Hin : forall s', writes_only ra_scratch s s' -> same_inputs s s').
  { intros s' HW. split; [apply HW|]. intros b k Hk1 Hb. apply (writes_only_val _ _ _ _ _ HW); [done|].
    destruct b; simpl in *; tauto. }
  assert (Hub' : forall s', writes_only ra_scratch s s' -> ra_ub_fits s').
  { intros s' HW. unfold ra_ub_fits. by rewrite !(writes_only_len _ _ _ _ HW). }
  wp_step. wp_step; [rewrite (writes_only_len _ _ _ _ HW1); ral|].
  assert (Ec : val R_CONTROL CONTROL_COUNT s1 = count) by (unfold s1; rewrite val_upd_eq by ral; done).
  rewrite Ec. clearbody s1.
  wp_step. apply (wp_collect _ _ (fun t => lane_item (t + 0))).
  { intros t Ht%elem_of_lanes. rewrite Z.add_0_r. apply load_item_spec; [auto|lia]. }
  wp_step. apply (wp_collect _ _ (fun t => lane_item (t + 1024))).
  { intros t Ht%elem_of_lanes. change (t + RESIDENT_ADDRS_THREADS) with (t + 1024).
    apply load_item_spec; [auto|lia]. }
  wp_step. eapply wp_mono; [apply WarpExclusiveScan1024_spec; by apply Hub'|].
  intros rank0 s2 (HW2 & Hr0 & Ht0). assert (HW02 : writes_only ra_scratch s s2)
    by (by eapply writes_only_trans).
  wp_step. wp_step; [rewrite (writes_only_len _ _ _ _ HW02); ral|]. rewrite Ht0.
  wp_step. eapply wp_mono; [apply WarpExclusiveScan1024_spec; by apply Hub'|].
  intros rank1 s3 (HW3 & Hr1 & Ht1). assert (HW03 : writes_only ra_scratch s s3)
    by (by eapply writes_only_trans).
  wp_step. wp_step; [rewrite (writes_only_len _ _ _ _ HW03); ral|]. rewrite Ht1.
  rewrite !tile_psum by lia. cbv zeta. eapply wp_mono.
  { apply publish_phase; [by apply Hin|..].
    - intros t Ht. rewrite Hr0, tile_psum by lia. apply cnt_ext. intros i Hi. by rewrite Z.add_0_l.
    - intros t Ht. rewrite Hr1, tile_psum by lia. rewrite cnt_add by lia. f_equal.
    - rewrite <- lane_total. change 2048 with (1024 + 1024). rewrite cnt_add by lia. f_equal. }
  intros _ s4 (HL4 & HH4 & HV4). split_and!; [done|done|]. intros b k Hk1 HW Hno.
  rewrite HV4 by done. by apply (writes_only_val _ _ _ _ _ HW03).
Qed.
End parallel.
