(* ===== verification/SparseCopy.v ===== *)
(** * SparseCopy: scattered copies between global memories

    Model of [acc_offload_sparse_copy.h] and [acc_offload_sparse_copy.cpp]: the split of
    the descriptor table over the vector cores and the chunked copy of one descriptor
    through the unified buffer.  Global memory is a function from byte addresses to
    bytes.  [AscendC::DataCopyPad] is a parameter with its documented effect. *)
From S2P Require Import Prelude Simt.

Definition mem : Type := Z -> Z.
Definition UB_ONCE_SIZE : Z := 176 * 1024.
Definition SPARSE_COPY_BLOCK_DIM : Z := 32.

(** The two directions of [DataCopyPad] with one block of [n] bytes and no stride. *)
Class DataCopy := {
  copy_in : mem -> Z -> Z -> list Z;
  copy_out : mem -> Z -> list Z -> Z -> mem;
  copy_in_spec : forall m src n i, 0 <= i < n -> n <= UB_ONCE_SIZE -> (copy_in m src n).[i] = m (src + i);
  copy_out_spec : forall m dst l n x, 0 <= n <= UB_ONCE_SIZE ->
    copy_out m dst l n x = if decide (dst <= x < dst + n) then l.[x - dst] else m x;
}.

Program Definition ref_data_copy : DataCopy := {|
  copy_in := fun m src n => tab n (fun i => m (src + i));
  copy_out := fun m dst l n x => if decide (dst <= x < dst + n) then l.[x - dst] else m x;
|}.
Next Obligation. intros m src n i Hi _. cbv beta. by rewrite at_tab. Qed.
Next Obligation. done. Qed.

Section kernel.
Context {DC : DataCopy}.

(** [CpGM2GM(len)] for [T = uint8_t]; every iteration copies at least one byte, so
    [len] rounds of fuel are enough. *)
Fixpoint CpGM2GM_loop (fuel : nat) (src dst leftLen times : Z) (m : mem) : option mem :=
  match fuel with
  | O => if 0 <? leftLen then None else Some m
  | S fuel =>
      if 0 <? leftLen then
        let curCopySize := if UB_ONCE_SIZE <? leftLen then UB_ONCE_SIZE else leftLen in
        let offset := u32 (times * UB_ONCE_SIZE) in
        let local := copy_in m (src + offset) curCopySize in
        let m := copy_out m (dst + offset) local curCopySize in
        CpGM2GM_loop fuel src dst
          (if UB_ONCE_SIZE <? leftLen then leftLen - UB_ONCE_SIZE else 0) (u32 (times + 1)) m
      else Some m
  end.
Definition CpGM2GM (src dst len : Z) : M mem unit := fun m =>
  match CpGM2GM_loop (Z.to_nat len) src dst len 0 m with Some m' => Some (tt, m') | None => None end.

Section table.
(** The descriptor table: [inputs_], [outputs_], [lens_] and [*size]. *)
Context (inputs outputs lens : list Z) (oriSize : Z).
Definition size_ : Z := u32 (oriSize / 2).

Definition copy_one (i : Z) : M mem unit :=
  match inputs !! Z.to_nat i, outputs !! Z.to_nat i, lens !! Z.to_nat i with
  | Some inputPtr, Some outputPtr, Some len => CpGM2GM inputPtr outputPtr len
  | _, _, _ => fun _ => None
  end.

(** The K range and the V range of one core. *)
Definition core_start (aivNum aivIndex : Z) : Z := u32 (aivIndex * (size_ / aivNum)).
Definition core_count (aivNum aivIndex : Z) : Z :=
  let perCoreSize := size_ / aivNum in
  let lastAivIdx := aivNum - 1 in
  if aivIndex =? lastAivIdx then u32 (size_ - u32 (lastAivIdx * perCoreSize)) else perCoreSize.

Definition Process (aivNum aivIndex : Z) : M mem unit :=
  let kStart := core_start aivNum aivIndex in
  let vStart := u32 (size_ + kStart) in
  let kEnd := u32 (kStart + core_count aivNum aivIndex) in
  let vEnd := u32 (vStart + core_count aivNum aivIndex) in
  for_ kStart kEnd copy_one;;
  for_ vStart vEnd copy_one.

Definition OffloadOpsSparseCopy `{Scheduler} : M mem unit :=
  par [0] (seqZ 0 SPARSE_COPY_BLOCK_DIM) (fun core => Process SPARSE_COPY_BLOCK_DIM core).
End table.
End kernel.

(** ** One descriptor *)
Section copy.
Context {DC : DataCopy}.

(** [m'] is [m] with the first [c] bytes of the range copied. *)
Definition copied_upto (m : mem) (src dst c : Z) (m' : mem) : Prop :=
  forall x, m' x = if decide (dst <= x < dst + c) then m (src + (x - dst)) else m x.

Lemma copied_upto_chunk m src dst len c n m' :
  copied_upto m src dst c m' -> 0 <= c -> 0 <= n <= UB_ONCE_SIZE -> c + n <= len ->
  (forall i j, 0 <= i < len -> 0 <= j < len -> src + i <> dst + j) ->
  copied_upto m src dst (c + n) (copy_out m' (dst + c) (copy_in m' (src + c) n) n).
Proof.
  intros H Hc Hn Hl Hd x. rewrite copy_out_spec by done. case_decide as E.
  - rewrite copy_in_spec by lia. rewrite H, decide_False.
    + rewrite decide_True by lia. f_equal. lia.
    + intros [? ?]. apply (Hd (x - dst) (src + (x - dst) - dst)); lia.
  - rewrite H. apply decide_ext. lia.
Qed.

Lemma CpGM2GM_loop_spec m src dst len :
  0 <= len < 4294967296 ->
  (forall i j, 0 <= i < len -> 0 <= j < len -> src + i <> dst + j) ->
  forall fuel leftLen times c m',
  leftLen <= Z.of_nat fuel -> leftLen = len - c -> 0 <= c <= len ->
  (0 < leftLen -> c = times * UB_ONCE_SIZE /\ 0 <= times) ->
  copied_upto m src dst c m' ->
  exists m'', CpGM2GM_loop fuel src dst leftLen times m' = Some m'' /\ copied_upto m src dst len m''.
Proof.
  intros Hlen Hd. assert (HU : UB_ONCE_SIZE = 180224) by done.
  induction fuel as [|fuel IH]; intros leftLen times c m' Hf El Hc Ht Hm.
  - simpl. replace (0 <? leftLen) with false by lia. eexists. split; [done|].
    by replace len with c by lia.
  - cbn [CpGM2GM_loop]. destruct (Z.ltb_spec 0 leftLen) as [Hpos|Hz].
    2: { eexists. split; [done|]. by replace len with c by lia. }
    destruct (Ht Hpos) as [Ec Htm]. cbv zeta. rewrite (u32_small (times * UB_ONCE_SIZE)) by lia. rewrite <- Ec.
    destruct (Z.ltb_spec UB_ONCE_SIZE leftLen).
    + rewrite (u32_small (times + 1)) by lia.
      apply (IH _ _ (c + UB_ONCE_SIZE)); [lia|lia|lia|lia|].
      eapply copied_upto_chunk; [done|lia|lia| |exact Hd]. lia.
    + apply (IH _ _ (c + leftLen)); [lia|lia|lia|lia|].
      eapply copied_upto_chunk; [done|lia|lia| |exact Hd]. lia.
Qed.

(** The chunked copy terminates and copies the whole range. *)
Lemma CpGM2GM_spec src dst len m :
  0 <= len < 4294967296 ->
  (forall i j, 0 <= i < len -> 0 <= j < len -> src + i <> dst + j) ->
  wp (CpGM2GM src dst len) (fun _ m' => copied_upto m src dst len m') m.
Proof.
  intros Hlen Hd. unfold wp, CpGM2GM.
  destruct (CpGM2GM_loop_spec m src dst len Hlen Hd (Z.to_nat len) len 0 0 m) as (m'' & -> & H);
    [lia..| |done].
  intros x. rewrite decide_False by lia. done.
Qed.
End copy.

(** ** The whole table *)
Section table.
Context {DC : DataCopy} (inputs outputs lens : list Z) (oriSize : Z).
Local Abbreviation size := (size_ oriSize).

Definition table_fits : Prop :=
  0 <= oriSize < 4294967296 /\ size * 2 <= Z.of_nat (length inputs) /\
  size * 2 <= Z.of_nat (length outputs) /\ size * 2 <= Z.of_nat (length lens).

(** Destination ranges do not overlap each other, nor any source range. *)
Definition table_disjoint : Prop :=
  (forall i, 0 <= i < size * 2 -> 0 <= lens.[i] < 4294967296) /\
  (forall i j x y, 0 <= i < size * 2 -> 0 <= j < size * 2 ->
     0 <= x < lens.[i] -> 0 <= y < lens.[j] -> inputs.[i] + x <> outputs.[j] + y) /\
  (forall i j x y, 0 <= i < size * 2 -> 0 <= j < size * 2 -> i <> j ->
     0 <= x < lens.[i] -> 0 <= y < lens.[j] -> outputs.[i] + x <> outputs.[j] + y).

(** [m'] is [m] with the descriptors of [D] copied. *)
Definition copied (D : Z -> Prop) (m m' : mem) : Prop :=
  (forall i x, D i -> 0 <= x < lens.[i] -> m' (outputs.[i] + x) = m (inputs.[i] + x)) /\
  (forall a, (forall i, D i -> ~ (outputs.[i] <= a < outputs.[i] + lens.[i])) -> m' a = m a).

Context (Hfit : table_fits) (Hdis : table_disjoint).

Lemma size_small : 0 <= size /\ size * 2 <= oriSize.
Proof.
  unfold table_fits in Hfit. unfold size_. pose proof (Z.mul_div_le oriSize 2 ltac:(lia)).
  pose proof (Z.div_pos oriSize 2 ltac:(lia) ltac:(lia)). unwrap. lia.
Qed.

Lemma copy_one_spec D i m m1 :
  (forall j, D j -> 0 <= j < size * 2) -> 0 <= i < size * 2 -> copied D m m1 ->
  wp (copy_one inputs outputs lens i) (fun _ m' => copied (fun j => D j \/ j = i) m m') m1.
Proof.
  intros HD Hi [H1 H2]. destruct Hfit as (_ & F1 & F2 & F3), Hdis as (D0 & D1 & D2).
  unfold copy_one. rewrite !(list_lookup_lookup_total_lt) by lia. 
  eapply wp_mono; [apply CpGM2GM_spec; [by apply D0|]|].
  { intros x y Hx Hy. by apply D1. }
  cbv beta. intros _ m' Hm. split.
  - intros j x Hj Hx. rewrite Hm. case_decide as E.
    + destruct (decide (j = i)) as [->|Hne].
      * replace (outputs.[i] + x - outputs.[i]) with x by lia. apply H2. intros k Hk [? ?].
        apply (D1 i k x (inputs.[i] + x - outputs.[k])); (auto || lia).
      * destruct Hj as [Hj|]; [|done]. exfalso.
        apply (D2 j i x (outputs.[j] + x - outputs.[i])); (auto || lia).
    + destruct Hj as [Hj| ->]; [by apply H1|]. exfalso. apply E. lia.
  - intros a Ha. rewrite Hm, decide_False by (apply Ha; by right). apply H2. intros j Hj. apply Ha. by left.
Qed.

Lemma copy_range_spec D lo hi m m1 :
  (forall j, D j -> 0 <= j < size * 2) -> 0 <= lo <= hi -> hi <= size * 2 -> copied D m m1 ->
  wp (for_ lo hi (copy_one inputs outputs lens))
     (fun _ m' => copied (fun j => D j \/ lo <= j < hi) m m') m1.
Proof.
  intros HD Hlo Hhi HC.
  apply (wp_for_ _ _ _ (fun k => copied (fun j => D j \/ lo <= j < k) m)); [lia| | |done].
  - destruct HC as [H1 H2]. split; [intros i x [|] Hx; [auto|lia]|]. intros a Ha. apply H2. auto.
  - intros k m2 Hk HC2. eapply wp_mono; [apply (copy_one_spec (fun j => D j \/ lo <= j < k)); [|lia|done]|].
    { intros j [|]; [auto|lia]. }
    cbv beta. intros _ m3 [H1 H2]. split.
    + intros i x Hi Hx. apply H1; [|done]. destruct Hi as [|Hi]; [auto|].
      destruct (decide (i = k)); [by right|left; right; lia].
    + intros a Ha. apply H2. intros i [[|]|]; apply Ha; [by left|right; lia|right; lia].
Qed.

(** *** The cores share the table *)
Lemma core_range num idx :
  0 < num < 65536 -> 0 <= idx < num ->
  core_start oriSize num idx = idx * (size / num) /\
  0 <= core_start oriSize num idx /\ 0 <= core_count oriSize num idx /\
  core_start oriSize num idx + core_count oriSize num idx =
    (if idx =? num - 1 then size else (idx + 1) * (size / num)) /\
  (idx + 1) * (size / num) <= size.
Proof.
  intros Hn Hi. pose proof size_small as Hs. destruct Hfit as (F0 & _).
  pose proof (Z.mul_div_le size num ltac:(lia)) as Hm.
  pose proof (Z.div_pos size num ltac:(lia) ltac:(lia)) as Hp.
  assert (0 <= idx * (size / num)) by nia. assert ((idx + 1) * (size / num) <= num * (size / num)) by nia.
  unfold core_start, core_count. rewrite (u32_small (idx * _)) by nia.
  destruct (Z.eqb_spec idx (num - 1)) as [->|].
  - rewrite (u32_small ((num - 1) * _)), u32_small by nia. split_and!; nia.
  - split_and!; nia.
Qed.

(** The descriptors of a core. *)
Definition core_items (num idx i : Z) : Prop :=
  let lo := core_start oriSize num idx in
  let hi := lo + core_count oriSize num idx in
  lo <= i < hi \/ size + lo <= i < size + hi.

Lemma core_items_cover num i :
  0 < num < 65536 -> 0 <= i < size * 2 -> exists idx, 0 <= idx < num /\ core_items num idx i.
Proof.
  intros Hn Hi. pose proof size_small as Hs.
  assert (Hk : forall k, 0 <= k < size -> exists idx, 0 <= idx < num /\
    core_start oriSize num idx <= k < core_start oriSize num idx + core_count oriSize num idx).
  { intros k Hk. destruct (Z.le_gt_cases ((num - 1) * (size / num)) k) as [Hle|Hgt].
    - exists (num - 1). destruct (core_range num (num - 1) ltac:(lia) ltac:(lia)) as (E & _ & _ & -> & _).
      rewrite E, Z.eqb_refl. lia.
    - assert (Hp : 0 < size / num) by nia.
      assert (Hq : 0 <= k / (size / num) < num - 1).
      { split; [apply Z.div_pos; lia|]. apply Z.div_lt_upper_bound; lia. }
      exists (k / (size / num)). split; [lia|].
      destruct (core_range num (k / (size / num)) ltac:(lia) ltac:(lia)) as (E & _ & _ & -> & _).
      rewrite E. replace (_ =? _) with false by lia.
      pose proof (Z.div_mod k (size / num) ltac:(lia)).
      pose proof (Z.mod_pos_bound k (size / num) ltac:(lia)). lia. }
  destruct (Z.lt_ge_cases i size).
  - destruct (Hk i ltac:(lia)) as (idx & ? & ?). exists idx. split; [done|]. by left.
  - destruct (Hk (i - size) ltac:(lia)) as (idx & ? & ?). exists idx. split; [done|]. right. lia.
Qed.

Lemma Process_spec num idx D m m1 :
  0 < num < 65536 -> 0 <= idx < num -> (forall j, D j -> 0 <= j < size * 2) -> copied D m m1 ->
  wp (Process inputs outputs lens oriSize num idx)
     (fun _ m' => copied (fun j => D j \/ core_items num idx j) m m') m1.
Proof.
  intros Hn Hi HD HC. pose proof size_small as Hs. destruct Hfit as (F0 & _).
  destruct (core_range num idx Hn Hi) as (E & H0 & H1 & E2 & H2).
  assert (Hend : core_start oriSize num idx + core_count oriSize num idx <= size).
  { rewrite E2. destruct (idx =? num - 1); lia. }
  unfold Process. cbv zeta. unwrap.
  wp_step. eapply wp_mono; [apply (copy_range_spec D); (done || lia)|]. cbv beta. intros _ m2 HC2.
  eapply wp_mono; [eapply copy_range_spec; [|lia|lia|exact HC2]|].
  { intros j [|]; [auto|lia]. }
  cbv beta. intros _ m3 [G1 G2]. unfold core_items. split.
  - intros i x Hx. apply G1. destruct Hx as [|[|]]; [by left; left|by left; right|right; lia].
  - intros a Ha. apply G2. intros i [[|]|]; apply Ha; [by left|right; by left|right; right; lia].
Qed.

(** Every descriptor is copied, nothing else changes, for every order of the cores. *)
Lemma sparse_copy_spec `{Scheduler} m :
  wp (OffloadOpsSparseCopy inputs outputs lens oriSize)
     (fun _ m' => copied (fun i => 0 <= i < size * 2) m m') m.
Proof.
  unfold OffloadOpsSparseCopy, SPARSE_COPY_BLOCK_DIM.
  assert (Hin : forall idx j, 0 <= idx < 32 -> core_items 32 idx j -> 0 <= j < size * 2).
  { intros idx j Hi [Hj|Hj]; destruct (core_range 32 idx ltac:(lia) Hi) as (E & H0 & H1 & E2 & H2);
      pose proof size_small; destruct (idx =? 32 - 1); lia. }
  apply (wp_par _ _ _ (fun ds m' => copied (fun i => exists idx, idx ∈ ds /\ core_items 32 idx i) m m')).
  - apply NoDup_seqZ.
  - split; [intros i x (idx & []%not_elem_of_nil & _)|done].
  - intros ds idx m1 Hi%elem_of_seqZ Hds Hsub HC. eapply wp_mono.
    { eapply Process_spec; [lia|lia| |exact HC]. intros j (k & Hk & Hj).
      apply Hsub, elem_of_seqZ in Hk. apply (Hin k); (done || lia). }
    cbv beta. intros _ m2 [G1 G2]. split.
    + intros i x (k & [->|Hk]%elem_of_cons & Hj) Hx; apply G1; eauto.
    + intros a Ha. apply G2. intros i [(k & Hk & Hj)|Hj]; apply Ha; [|exists idx; split; [by left|done]].
      exists k. split; [by right|done].
  - intros ds m1 Hall [G1 G2]. split.
    + intros i x Hi Hx. apply G1; [|done].
      destruct (core_items_cover 32 i ltac:(lia) Hi) as (idx & Hidx & Hc).
      exists idx. split; [apply Hall, elem_of_seqZ; lia|done].
    + intros a Ha. apply G2. intros i (idx & Hidx & Hc). apply Ha. apply Hall, elem_of_seqZ in Hidx.
      apply (Hin idx); (done || lia).
Qed.
End table.
