(* ===== verification/Launch.v ===== *)
(** * Launch: the host entry points of the operators

    Model of [launch/acc_offload_operators_launch.cpp]: the shape tests, the profile
    switch and the dispatch of the three operators to their kernels, in stream order.
    [RunOpApiV2] enqueues the callback on the device stream; the model runs it. *)
From Stdlib Require Import String.
From S2P Require Import Prelude Simt LruSpec WarpScan LruGeneric LruGenericProof.
From S2P Require Import LruFusedV3 LruFusedV3Proof LruFusedV3Refine LruLegacy.
From S2P Require Import ResidentAddrs ResidentAddrsProof SparseCopy.

Definition IsCompactV3Shape (numReqs topk capacity maxToken : Z) : bool :=
  (0 <? numReqs) && (topk =? 2048) && (capacity =? 4096) && (maxToken =? 4096).

Definition IsResidentAddrsParallelShape (numReqs topk : Z) : bool :=
  (numReqs =? 1) && (0 <? topk) && (topk <=? 2048).

(** [value] is [getenv("MF_LRU_COMPACT_V3_PROFILE")]; the result is computed once. *)
Definition GetLruV3ProfileEnabled (value : option string) : Z :=
  match value with Some v => if String.eqb v "1" then 1 else 0 | None => 0 end.

(** A kernel on the device arrays, beside the unified buffer. *)
Definition lift_gm {A} (m : M GM A) : M V3St A := fun s =>
  match m (v_gm s) with Some (a, g) => Some (a, mkV3 g (v_ub s)) | None => None end.

Section launch.
Context {Sch : Scheduler} {I : Intrinsics}.
(** The cycle counter of the launch of a row, as read at a stage. *)
Variable clock : Z -> Z -> Z.

Definition AccOffloadLruCompact (profile : option string)
    (num_reqs topk capacity max_token : Z) : M V3St unit :=
  if IsCompactV3Shape num_reqs topk capacity max_token then
    for_ 0 num_reqs (fun row =>
      OffloadOpsLruCompactFusedV3 (clock row) row topk capacity max_token
        (GetLruV3ProfileEnabled profile))
  else lift_gm (OffloadOpsLruCompact num_reqs topk capacity max_token).

Definition AccOffloadComputeLruResidentAddrs (c : ra_cfg) : M RA unit :=
  if IsResidentAddrsParallelShape (num_reqs c) (topk c)
  then OffloadOpsComputeLruResidentAddrsMixedParallel c
  else OffloadOpsComputeLruResidentAddrs c.

Definition AccOffloadSparseCopy {DC : DataCopy} (srcPtrs dstPtrs lenPtrs : list Z) (size : Z)
  : M mem unit := OffloadOpsSparseCopy srcPtrs dstPtrs lenPtrs size.
End launch.

(** ** Lru compact *)
Lemma wp_lift_gm {A} (m : M GM A) Q s :
  wp m (fun a g => Q a (mkV3 g (v_ub s))) (v_gm s) -> wp (lift_gm m) Q s.
Proof. unfold wp, lift_gm. by destruct (m (v_gm s)) as [[a g]|]. Qed.

Section compact.
Context {Sch : Scheduler} {I : Intrinsics} (clock : Z -> Z -> Z).

(** What a launch needs of the device arrays and of the unified buffer. *)
Definition launch_fits (N K cap T : Z) (s : V3St) : Prop :=
  batch_fits N K cap T (v_gm s) /\ ub_fits s.

Lemma launch_v3_fits N K cap T s row :
  IsCompactV3Shape N K cap T = true -> launch_fits N K cap T s -> 0 <= row < N ->
  let ws := row mod LRU_FUSED_V3_WORKSPACE_THREADS in
  v3_gm_fits row ws (ws * (LRU_FUSED_V3_MAX_TOKEN / 2)) s.
Proof.
  unfold IsCompactV3Shape, launch_fits, batch_fits, v3_gm_fits, LRU_COMPACT_WORKSPACE_THREADS,
    LRU_FUSED_V3_WORKSPACE_THREADS, LRU_FUSED_V3_TOPK, LRU_FUSED_V3_CAPACITY, V3_PROFILE_STAMPS.
  change (LRU_FUSED_V3_MAX_TOKEN / 2) with 2048.
  intros Hs ((H1 & H2 & H3 & H4) & _) Hr. pose proof (Z.mod_pos_bound row 8 ltac:(lia)).
  assert (K = 2048 /\ cap = 4096 /\ T = 4096) as (-> & -> & ->) by lia.
  change (len (G ?b) s) with (len b (v_gm s)). lia.
Qed.

(** The device arrays after a V3 launch, seen as the arrays of the generic kernels. *)
Lemma v3_cells_gm row ws s s' :
  writes_only (v3_cells row ws (ws * (LRU_FUSED_V3_MAX_TOKEN / 2))) s s' ->
  writes_only (row_cells row LRU_FUSED_V3_TOPK LRU_FUSED_V3_CAPACITY LRU_FUSED_V3_MAX_TOKEN ws)
    (v_gm s) (v_gm s').
Proof.
  intros [HL HV]. split; [exact (fun b => HL (G b))|]. intros b j Hj Hn. apply (HV (G b) j Hj).
  intros Hc. apply Hn. revert Hc. unfold v3_cells, publish_cells, profile_cells, V3_PROFILE_STAMPS.
  change (LRU_FUSED_V3_MAX_TOKEN / 2) with 2048. change LRU_FUSED_V3_MAX_TOKEN with 4096.
  destruct b; simpl; lia.
Qed.

Lemma launch_fits_writes N K cap T W s s' :
  writes_only W s s' -> launch_fits N K cap T s -> launch_fits N K cap T s'.
Proof.
  intros HW [Hb Hu]. split; [|by eapply ub_fits_writes].
  unfold batch_fits in *. change (len ?b (v_gm s')) with (len (G b) s').
  rewrite !(writes_only_len _ _ _ _ HW). exact Hb.
Qed.

(** One call of the V3 launcher at the production shape. *)
Lemma launch_v3_row N K cap T en s row :
  IsCompactV3Shape N K cap T = true -> launch_fits N K cap T s -> 0 <= row < N ->
  lru_inj cap (start_lru cap (row_in_of row K cap (v_gm s))) ->
  let ws := row mod LRU_FUSED_V3_WORKSPACE_THREADS in
  wp (OffloadOpsLruCompactFusedV3 (clock row) row K cap T en) (fun _ s' =>
    writes_only (v3_cells row ws (ws * (LRU_FUSED_V3_MAX_TOKEN / 2))) s s' /\
    row_out_of row K cap (v_gm s') = compact cap T (row_in_of row K cap (v_gm s)) /\
    val (G EPOCHS) ws s' = LRU_FUSED_V3_EPOCH) s.
Proof.
  intros Hs Hf Hr Hinj ws. pose proof (launch_v3_fits N K cap T s row Hs Hf Hr) as Hg.
  unfold IsCompactV3Shape in Hs.
  assert (K = 2048 /\ cap = 4096 /\ T = 4096) as (-> & -> & ->) by lia.
  unfold OffloadOpsLruCompactFusedV3, LaunchFusedV3. replace (row <? 0) with false by lia.
  apply v3_kernel_spec; [apply Hf|done|done].
Qed.

Lemma launch_v3_spec en N K cap T s :
  IsCompactV3Shape N K cap T = true -> launch_fits N K cap T s ->
  (forall row, 0 <= row < N -> lru_inj cap (start_lru cap (row_in_of row K cap (v_gm s)))) ->
  wp (for_ 0 N (fun row => OffloadOpsLruCompactFusedV3 (clock row) row K cap T en)) (fun _ s' =>
    launch_fits N K cap T s' /\
    forall row, 0 <= row < N ->
      row_out_of row K cap (v_gm s') = compact cap T (row_in_of row K cap (v_gm s))) s.
Proof.
  intros Hs Hf Hinj. pose proof Hs as Hs'. unfold IsCompactV3Shape in Hs'.
  apply (wp_rows v_gm (launch_fits N K cap T)); [lia|lia|lia|done|].
  intros k s1 Hk Hf1 Hin. eapply wp_mono; [apply (launch_v3_row N); [done|done|done|rewrite Hin; auto]|].
  cbv beta. intros _ s2 (HW & Hout & _). split_and!; [by eapply launch_fits_writes|done|].
  apply v3_cells_gm in HW. by assert (K = 2048 /\ cap = 4096 /\ T = 4096) as (-> & -> & ->) by lia.
Qed.

(** The dispatcher: on every shape that reaches a parallel kernel, all rows hold the
    reference result.  The mark workspace matters on the generic shapes only. *)
Lemma AccOffloadLruCompact_spec profile N K cap T s :
  IsCompactV3Shape N K cap T = true \/ CanUseProductionPhasedLru N K cap T = true ->
  launch_fits N K cap T s ->
  (IsCompactV3Shape N K cap T = false -> epochs_ok T (v_gm s)) ->
  (forall row, 0 <= row < N -> lru_inj cap (start_lru cap (row_in_of row K cap (v_gm s)))) ->
  wp (AccOffloadLruCompact clock profile N K cap T) (fun _ s' =>
    (launch_fits N K cap T s' /\ (IsCompactV3Shape N K cap T = false -> epochs_ok T (v_gm s'))) /\
    forall row, 0 <= row < N ->
      row_out_of row K cap (v_gm s') = compact cap T (row_in_of row K cap (v_gm s))) s.
Proof.
  intros Hs Hf He Hinj. unfold AccOffloadLruCompact.
  destruct (IsCompactV3Shape N K cap T) eqn:E3.
  { eapply wp_mono; [by apply launch_v3_spec|]. cbv beta. by intros _ s' []. }
  destruct Hs as [|Hs]; [done|]. apply wp_lift_gm. unfold OffloadOpsLruCompact. rewrite Hs.
  eapply wp_mono; [apply launch_phased_spec; [done|apply Hf|by apply He|done]|].
  cbv beta. intros _ g (Hout & Hfit & Hep). split; [|done]. by split; [split; [|apply Hf]|].
Qed.
End compact.

(** ** Resident addresses *)
Section addrs.
Context {Sch : Scheduler} {I : Intrinsics} (c : ra_cfg) (s : RA).

Lemma AccOffloadComputeLruResidentAddrs_spec :
  ra_shape c -> ra_fits c s -> ra_ub_fits s -> total c s * 2 <= INT32_MAX ->
  wp (AccOffloadComputeLruResidentAddrs c) (fun _ s' => table_written c s ra_scratch s') s.
Proof.
  intros Hsh Hf Hu Ht. unfold AccOffloadComputeLruResidentAddrs, IsResidentAddrsParallelShape.
  destruct (_ && _) eqn:E.
  - apply parallel_kernel_spec; try done; [lia|unfold RESIDENT_ADDRS_MAX_TOPK; lia].
  - eapply wp_mono; [by apply serial_kernel_spec|]. cbv beta. intros _ s' (HL & HH & HV).
    split_and!; [done|done|]. intros b k Hk _. apply HV; [done|tauto].
Qed.
End addrs.
