(* ===== verification/EndToEnd.v ===== *)
(** * EndToEnd: one decode step keeps the device cache coherent

    The three operators in the order their interface prescribes ([acc_offload.h]):
    [LruResidentCompact] plans the misses, [ComputeLruResidentAddrs] turns them into
    copy descriptors, [SparseCopy] moves the bytes.  The cache is the device memory at
    [addr_k_base] and [addr_v_base], one K and one V vector per slot; it is coherent
    when every slot that claims a token holds the bytes of that token in the host pool. *)
From Stdlib Require Import String.
From S2P Require Import Prelude Simt LruSpec LruInvariant WarpScan LruGeneric LruGenericProof.
From S2P Require Import LruFusedV3 LruFusedV3Proof LruLegacy.
From S2P Require Import ResidentAddrs ResidentAddrsProof SparseCopy Launch.

(** ** Reading the descriptor table back *)
Section addresses.
Context (c : ra_cfg).

(** [kv] selects the K ([true]) or the V ([false]) half of the geometry. *)
Definition tok_size (kv : bool) : Z := if kv then token_size_bytes_k c else token_size_bytes_v c.
Definition host_addr (kv : bool) (block_index token : Z) : Z :=
  (if kv then gvas_k_base c else gvas_v_base c) + block_index * (block_size c * tok_size kv) +
  Z.rem token (block_size c) * tok_size kv.
Definition cache_addr (kv : bool) (slot : Z) : Z :=
  (if kv then addr_k_base c else addr_v_base c) + slot * tok_size kv.
End addresses.

Section table.
Context (c : ra_cfg) (s : RA) (Hsh : ra_shape c).
Local Abbreviation N := (num_reqs c).
Local Abbreviation K := (topk c).

(** The descriptor of entry [k] of row [r] is at [i] (K half) or [total + i] (V half). *)
Definition table_pos (kv : bool) (i : Z) : Z := if kv then i else total c s + i.

Definition desc_at (s' : RA) (i r slot block_index token : Z) : Prop := forall kv,
  val R_GVAS (table_pos kv i) s' = host_addr c kv block_index token /\
  val R_ADDR (table_pos kv i) s' = cache_addr c kv (r * resident_capacity c + slot) /\
  val R_SIZE (table_pos kv i) s' = tok_size c kv.

Lemma table_entry s' r k slot block_index token :
  holds (table_outs c s) s' -> 0 <= r < N -> 0 <= k < row_count c s r ->
  item c s r k = Some (slot, block_index, token) ->
  selected c s (r * K + k) = true /\ desc_at s' (cnt (selected c s) (r * K + k)) r slot block_index token.
Proof.
  intros [_ HH] Hr Hk Hi. pose proof (row_count_range c s Hsh r) as Hc.
  assert (Hq : selected c s (r * K + k) = true).
  { rewrite selected_at by lia. rewrite Hi. lia. }
  split; [done|]. assert (Hin : r * K + k ∈ seqZ 0 (N * K)) by (apply elem_of_seqZ; nia).
  pose proof (proj1 (holds_bind _ _ _) HH _ Hin) as HE. unfold entry_outs in HE. rewrite Hq in HE.
  destruct (entry_div c r k ltac:(lia)) as [E1 E2]. rewrite E1, E2, Hi in HE.
  cbn [holds item_outs] in HE. destruct HE as (? & ? & ? & ? & ? & ? & _). by intros [].
Qed.

Lemma table_index s' i :
  holds (table_outs c s) s' -> 0 <= i < total c s ->
  exists r k slot block_index token, 0 <= r < N /\ 0 <= k < row_count c s r /\
    item c s r k = Some (slot, block_index, token) /\ i = cnt (selected c s) (r * K + k) /\
    desc_at s' i r slot block_index token.
Proof.
  intros HH Hi. destruct (idx_rank (selected c s) (N * K) i Hi) as (Hq & Hs & Ei).
  set (q := (idx (selected c s) (N * K)).[i]) in *. unfold ra_shape in Hsh.
  assert (Hr : 0 <= q / K < N).
  { split; [apply Z.div_pos; lia|]. apply Z.div_lt_upper_bound; lia. }
  pose proof (Z.mod_pos_bound q K ltac:(lia)). pose proof (Z.div_mod q K ltac:(lia)) as Eq.
  pose proof Hs as Hs'. unfold selected in Hs'. apply andb_true_iff in Hs' as [Hk Hit].
  destruct (item c s (q / K) (q mod K)) as [[[slot bi] tok]|] eqn:E; [|done].
  replace q with (q / K * K + q mod K) in Ei by lia.
  exists (q / K), (q mod K), slot, bi, tok. split_and!; [lia..|done|done|].
  rewrite <- Ei. apply (table_entry s'); [done|lia|lia|done].
Qed.

Lemma item_slot r k slot block_index token :
  item c s r k = Some (slot, block_index, token) ->
  slot = val R_MISS_SLOTS (r * K + k) s /\ token = val R_MISS_TOKENS (r * K + k) s /\
  0 <= slot < resident_capacity c /\ 0 <= token /\
  block_index = val R_BLOCK_TABLE (r * max_num_blocks c + Z.quot token (block_size c)) s.
Proof.
  unfold item. cbv zeta. repeat case_match; intros E; simplify_eq; split_and!; (done || lia).
Qed.
End table.

(** ** The copy of the table *)
Section copy.
Context {Sch : Scheduler} {DC : DataCopy} (c : ra_cfg) (s : RA) (Hsh : ra_shape c).
Local Abbreviation N := (num_reqs c).
Local Abbreviation K := (topk c).
Local Abbreviation cap := (resident_capacity c).

Definition in_cache (kv : bool) (a : Z) : Prop :=
  cache_addr c kv 0 <= a < cache_addr c kv (N * cap).

(** Token [t] of row [r] has a block of the host pool. *)
Definition block_of (r t : Z) : Z :=
  val R_BLOCK_TABLE (r * max_num_blocks c + Z.quot t (block_size c)) s.
Definition mapped (r t : Z) : Prop :=
  0 <= t /\ 0 <= Z.quot t (block_size c) < max_num_blocks c /\ 0 <= block_of r t.

(** The K cache, the V cache and the mapped blocks of the host pool do not overlap. *)
Definition layout : Prop :=
  (forall kv, 0 < tok_size c kv < 4294967296) /\
  (forall a, ~ (in_cache true a /\ in_cache false a)) /\
  (forall kv kv' r t x, 0 <= r < N -> mapped r t -> 0 <= x < tok_size c kv ->
     ~ in_cache kv' (host_addr c kv (block_of r t) t + x)).

(** A miss of a row has a slot of its own. *)
Definition slots_distinct : Prop := forall r k k' e e',
  0 <= r < N -> 0 <= k < row_count c s r -> 0 <= k' < row_count c s r ->
  item c s r k = Some e -> item c s r k' = Some e' -> e.1.1 = e'.1.1 -> k = k'.

Context (Hlay : layout) (Hdist : slots_distinct).

Lemma in_cache_slot kv r slot x :
  0 <= r < N -> 0 <= slot < cap -> 0 <= x < tok_size c kv ->
  in_cache kv (cache_addr c kv (r * cap + slot) + x).
Proof.
  intros Hr Hs Hx. unfold in_cache, cache_addr.
  assert (Hq : 0 <= r * cap + slot /\ r * cap + slot + 1 <= N * cap) by nia.
  revert Hq. generalize (r * cap + slot) (N * cap). intros q n Hq. nia.
Qed.

(** Two cached vectors that meet are the same vector. *)
Lemma cache_addr_inj kv kv' r r' slot slot' x x' :
  0 <= r < N -> 0 <= r' < N -> 0 <= slot < cap -> 0 <= slot' < cap ->
  0 <= x < tok_size c kv -> 0 <= x' < tok_size c kv' ->
  cache_addr c kv (r * cap + slot) + x = cache_addr c kv' (r' * cap + slot') + x' ->
  kv = kv' /\ r = r' /\ slot = slot' /\ x = x'.
Proof.
  intros Hr Hr' Hs Hs' Hx Hx' E. destruct Hlay as (_ & Hd & _).
  pose proof (in_cache_slot kv r slot x Hr Hs Hx) as I1.
  pose proof (in_cache_slot kv' r' slot' x' Hr' Hs' Hx') as I2. rewrite E in I1.
  destruct (bool_decide (kv = kv')) eqn:Ek.
  - apply bool_decide_eq_true in Ek as ->. unfold cache_addr in E.
    assert (Eq : r * cap + slot = r' * cap + slot').
    { revert E. generalize (r * cap + slot) (r' * cap + slot'). intros. nia. }
    assert (r = r') as <- by nia. split_and!; (done || nia).
  - apply bool_decide_eq_false in Ek. exfalso.
    destruct kv, kv'; try done; by eapply Hd.
Qed.

(** The bytes of entry [k] of row [r] arrive at its slot; other cells stay. *)
Definition misses_copied (m m' : mem) : Prop :=
  (forall r k slot block_index token kv x, 0 <= r < N -> 0 <= k < row_count c s r ->
     item c s r k = Some (slot, block_index, token) -> 0 <= x < tok_size c kv ->
     m' (cache_addr c kv (r * cap + slot) + x) = m (host_addr c kv block_index token + x)) /\
  (forall a, (forall r k slot block_index token kv x, 0 <= r < N -> 0 <= k < row_count c s r ->
     item c s r k = Some (slot, block_index, token) -> 0 <= x < tok_size c kv ->
     a <> cache_addr c kv (r * cap + slot) + x) -> m' a = m a).

Context (s' : RA) (Hfit : ra_fits c s) (Hlen : forall b, len b s' = len b s)
  (HH : holds (table_outs c s) s') (Hmax : total c s * 2 <= INT32_MAX).

Local Abbreviation SRC := (buf R_GVAS s').
Local Abbreviation DST := (buf R_ADDR s').
Local Abbreviation LEN := (buf R_SIZE s').

Lemma total_nonneg : 0 <= total c s.
Proof. unfold ra_shape in Hsh. apply cnt_bounds. nia. Qed.

Lemma table_size : size_ (total c s * 2) = total c s.
Proof.
  unfold size_. rewrite Z.div_mul by done. apply u32_small.
  pose proof total_nonneg. unfold INT32_MAX in Hmax. lia.
Qed.

(** Every index of the table is the K or the V half of a valid entry. *)
Lemma table_all i :
  0 <= i < total c s * 2 ->
  exists kv r k slot bi tok, 0 <= r < N /\ 0 <= k < row_count c s r /\
    item c s r k = Some (slot, bi, tok) /\
    i = table_pos c s kv (cnt (selected c s) (r * K + k)) /\
    SRC.[i] = host_addr c kv bi tok /\ DST.[i] = cache_addr c kv (r * cap + slot) /\
    LEN.[i] = tok_size c kv.
Proof.
  intros Hi. destruct (Z.lt_ge_cases i (total c s)) as [Hl|Hg].
  - destruct (table_index c s Hsh s' i HH ltac:(lia)) as (r & k & slot & bi & tok & Hr & Hk & Hit & Ei & HD).
    exists true, r, k, slot, bi, tok. split_and!; (done || lia || apply (HD true)).
  - destruct (table_index c s Hsh s' (i - total c s) HH ltac:(lia))
      as (r & k & slot & bi & tok & Hr & Hk & Hit & Ei & HD).
    exists false, r, k, slot, bi, tok. specialize (HD false). unfold table_pos in *.
    replace (total c s + (i - total c s)) with i in HD by lia. split_and!; (done || lia || apply HD).
Qed.

Lemma item_mapped r k slot bi tok :
  item c s r k = Some (slot, bi, tok) -> mapped r tok /\ bi = block_of r tok.
Proof.
  unfold item, mapped, block_of. cbv zeta. repeat case_match; intros E; simplify_eq; split_and!; (done || lia).
Qed.

Lemma table_layout : table_disjoint SRC DST LEN (total c s * 2).
Proof.
  destruct Hlay as (Hsz & _ & Hhost). unfold table_disjoint. rewrite table_size. split_and!.
  - intros i Hi. destruct (table_all i Hi) as (kv & r & k & slot & bi & tok & _ & _ & _ & _ & _ & _ & ->).
    specialize (Hsz kv). lia.
  - intros i j x y Hi Hj.
    destruct (table_all i Hi) as (kv & r & k & slot & bi & tok & Hr & Hk & Hit & _ & -> & _ & ->).
    destruct (table_all j Hj) as (kv' & r' & k' & slot' & bi' & tok' & Hr' & Hk' & Hit' & _ & _ & -> & ->).
    intros Hx Hy E. destruct (item_mapped _ _ _ _ _ Hit) as [Hm ->].
    apply (Hhost kv kv' r tok x Hr Hm Hx). rewrite E.
    apply item_slot in Hit' as (_ & _ & Hs' & _). by apply in_cache_slot.
  - intros i j x y Hi Hj Hne.
    destruct (table_all i Hi) as (kv & r & k & slot & bi & tok & Hr & Hk & Hit & -> & _ & -> & ->).
    destruct (table_all j Hj) as (kv' & r' & k' & slot' & bi' & tok' & Hr' & Hk' & Hit' & -> & _ & -> & ->).
    intros Hx Hy E. pose proof (item_slot _ _ _ _ _ _ _ Hit) as (_ & _ & Hs1 & _).
    pose proof (item_slot _ _ _ _ _ _ _ Hit') as (_ & _ & Hs2 & _).
    apply cache_addr_inj in E as (<- & <- & <- & _); [|done..].
    apply Hne. do 2 f_equal. assert (k = k'); [by eapply (Hdist r)|lia].
Qed.

Lemma copy_table_spec m :
  wp (AccOffloadSparseCopy SRC DST LEN (val R_NUM_TOKENS 0 s')) (fun _ m' => misses_copied m m') m.
Proof.
  pose proof total_nonneg. unfold INT32_MAX in Hmax. unfold ra_fits in Hfit.
  assert (En : val R_NUM_TOKENS 0 s' = total c s * 2) by apply HH. rewrite En.
  unfold AccOffloadSparseCopy. eapply wp_mono; [apply sparse_copy_spec; [|apply table_layout]|].
  { unfold table_fits. rewrite table_size. change (Z.of_nat (length (buf ?b s'))) with (len b s').
    rewrite !Hlen. lia. }
  cbv beta. rewrite table_size. intros _ m' [H1 H2]. split.
  - intros r k slot bi tok kv x Hr Hk Hit Hx.
    destruct (table_entry c s Hsh s' r k slot bi tok HH Hr Hk Hit) as [Hs HD].
    pose proof (row_count_range c s Hsh r).
    pose proof (rank_total c s (r * K + k) ltac:(nia) Hs).
    destruct (HD kv) as (E1 & E2 & E3). unfold val in *. rewrite <- E2, <- E1. apply H1.
    + unfold table_pos. destruct kv; lia.
    + by rewrite E3.
  - intros a Ha. apply H2. intros i Hi Hin.
    destruct (table_all i Hi) as (kv & r & k & slot & bi & tok & Hr & Hk & Hit & _ & _ & E & E3).
    rewrite E, E3 in Hin.
    apply (Ha r k slot bi tok kv (a - cache_addr c kv (r * cap + slot))); (done || lia).
Qed.
End copy.

(** ** One decode step *)
Record Pipe := mkPipe { p_dev : V3St; p_ra : RA; p_mem : mem }.

(** The miss lists are device arrays shared by the first two operators. *)
Definition bind_misses (g : GM) (r : RA) : RA :=
  set_buf R_MISS_COUNT (gm_buf MISS_COUNT g)
    (set_buf R_MISS_TOKENS (gm_buf MISS_TOKENS g)
       (set_buf R_MISS_SLOTS (gm_buf MISS_SLOTS g) r)).

Section step.
Context {Sch : Scheduler} {I : Intrinsics} {DC : DataCopy}.
Context (clock : Z -> Z -> Z) (profile : option string) (c : ra_cfg) (T : Z).
Local Abbreviation N := (num_reqs c).
Local Abbreviation K := (topk c).
Local Abbreviation cap := (resident_capacity c).

Definition decode_step (p : Pipe) : option Pipe :=
  match AccOffloadLruCompact clock profile N K cap T (p_dev p) with
  | Some (_, dev) =>
      match AccOffloadComputeLruResidentAddrs c (bind_misses (v_gm dev) (p_ra p)) with
      | Some (_, r) =>
          match AccOffloadSparseCopy (buf R_GVAS r) (buf R_ADDR r) (buf R_SIZE r)
                  (val R_NUM_TOKENS 0 r) (p_mem p) with
          | Some (_, m) => Some (mkPipe dev r m)
          | None => None
          end
      | None => None
      end
  | None => None
  end.

Definition row_of (p : Pipe) (r : Z) : row_in := row_in_of r K cap (v_gm (p_dev p)).

(** Slot [slot] of row [r] holds the bytes of token [t]. *)
Definition holds_token (ra : RA) (m : mem) (r slot t : Z) : Prop :=
  forall kv x, 0 <= x < tok_size c kv ->
    m (cache_addr c kv (r * cap + slot) + x) = m (host_addr c kv (block_of c ra r t) t + x).

Definition coherent (ra : RA) (m : mem) (s2t : Z -> list Z) : Prop := forall r slot,
  0 <= r < N -> 0 <= slot < cap -> valid_tok T (s2t r).[slot] = true ->
  mapped c ra r (s2t r).[slot] -> holds_token ra m r slot (s2t r).[slot].

(** What a step needs: a supported shape, arrays that fit it, well-formed rows, and
    requested tokens that the host pool holds. *)
Definition step_shape : Prop :=
  (IsCompactV3Shape N K cap T = true \/ CanUseProductionPhasedLru N K cap T = true) /\
  ra_shape c /\ K <= cap /\ N * K * 2 <= INT32_MAX.
Definition step_fits (p : Pipe) : Prop :=
  launch_fits N K cap T (p_dev p) /\
  (IsCompactV3Shape N K cap T = false -> epochs_ok T (v_gm (p_dev p))) /\
  N * max_num_blocks c <= len R_BLOCK_TABLE (p_ra p) /\
  N * K * 2 <= len R_GVAS (p_ra p) /\ N * K * 2 <= len R_ADDR (p_ra p) /\
  N * K * 2 <= len R_SIZE (p_ra p) /\ 1 <= len R_NUM_TOKENS (p_ra p) /\ ra_ub_fits (p_ra p).
Definition step_rows (p : Pipe) : Prop := forall r, 0 <= r < N ->
  row_wf cap T (row_of p r) /\ topk_distinct T (ri_topk (row_of p r)) /\
  forall i, 0 <= i < K -> valid_tok T (ri_topk (row_of p r)).[i] = true ->
            mapped c (p_ra p) r (ri_topk (row_of p r)).[i].
Definition step_ready (p : Pipe) : Prop :=
  step_shape /\ step_fits p /\ step_rows p /\ layout c (p_ra p).

(** *** The miss lists of a compacted batch, as the descriptor kernels read them *)
Section misses.
Context (p : Pipe) (g : GM) (Hready : step_ready p).
Context (Hfit' : batch_fits N K cap T g).
Context (Hout : forall r, 0 <= r < N -> row_out_of r K cap g = compact cap T (row_of p r)).
Let ra0 := bind_misses g (p_ra p).
Local Abbreviation out r := (compact cap T (row_of p r)).

Lemma length_topk r : Z.of_nat (length (ri_topk (row_of p r))) = K.
Proof.
  destruct Hready as ((_ & Hs & _) & _). unfold ra_shape in Hs. simpl. rewrite length_slice. lia.
Qed.

Lemma misses_bound r :
  0 <= r < N ->
  val R_MISS_COUNT r ra0 = ro_count (out r) /\
  forall k, 0 <= k < K -> val R_MISS_TOKENS (r * K + k) ra0 = (ro_mtok (out r)).[k] /\
                          val R_MISS_SLOTS (r * K + k) ra0 = (ro_mslot (out r)).[k].
Proof.
  intros Hr. rewrite <- Hout by done. split; [done|]. intros k Hk. simpl.
  rewrite !slice_at by done. done.
Qed.

Lemma miss_row_count r : 0 <= r < N -> row_count c ra0 r = ro_count (out r).
Proof.
  intros Hr. unfold row_count. destruct (misses_bound r Hr) as [-> _].
  destruct Hready as ((_ & Hs & _) & _ & Hrows & _). unfold ra_shape in Hs.
  destruct (Hrows r Hr) as (Hwf & _).
  pose proof (na_bounds cap T (ri_topk (row_of p r)) (start_s2t cap T (row_of p r))
    (start_lru cap (row_of p r)) (wf_cap _ _ _ Hwf)) as Hna. rewrite length_topk in Hna.
  unfold clamp_count. cbn [ro_count compact].
  replace (_ <? 0) with false by lia. by replace (K <? _) with false by lia.
Qed.

(** Every assigned miss is a valid entry. *)
Lemma miss_item r k :
  0 <= r < N -> 0 <= k < ro_count (out r) ->
  item c ra0 r k = Some ((ro_mslot (out r)).[k], block_of c (p_ra p) r (ro_mtok (out r)).[k],
                         (ro_mtok (out r)).[k]).
Proof.
  intros Hr Hk. destruct Hready as (_ & _ & Hrows & _). destruct (Hrows r Hr) as (Hwf & _ & Hmap).
  destruct (compact_miss_entry cap T _ Hwf k Hk) as (HK & Hs & Hv & _). rewrite length_topk in HK.
  destruct (compact_miss_requested cap T _ Hwf k Hk) as (i & Hi & Ei). rewrite length_topk in Hi.
  rewrite Ei in Hv. destruct (Hmap i Hi Hv) as (H0 & Hq & Hb).
  destruct (misses_bound r Hr) as [_ HB]. destruct (HB k ltac:(lia)) as [Et Es].
  unfold item. rewrite Et, Es. rewrite Ei in *. cbv zeta.
  change (val R_BLOCK_TABLE ?j ra0) with (val R_BLOCK_TABLE j (p_ra p)). fold (block_of c (p_ra p) r (ri_topk (row_of p r)).[i]).
  do 3 (case_match; [lia|]). done.
Qed.

Lemma miss_slots_distinct : slots_distinct c ra0.
Proof.
  intros r k k' e e' Hr Hk Hk' He He' E. rewrite miss_row_count in Hk, Hk' by done.
  rewrite miss_item in He, He' by done. simplify_eq.
  destruct Hready as (_ & _ & Hrows & _). destruct (Hrows r Hr) as (Hwf & _).
  by apply (compact_miss_slots_inj cap T _ Hwf).
Qed.

Lemma miss_fits : total c ra0 <= N * K /\ ra_fits c ra0.
Proof.
  destruct Hready as ((_ & Hs & _) & Hf & _). unfold ra_shape in Hs. unfold step_fits in Hf.
  pose proof (cnt_bounds (selected c ra0) (N * K) ltac:(nia)) as Ht. fold (total c ra0) in Ht.
  split; [lia|]. unfold ra_fits. unfold batch_fits in Hfit'.
  change (len R_MISS_COUNT ra0) with (len MISS_COUNT g).
  change (len R_MISS_TOKENS ra0) with (len MISS_TOKENS g).
  change (len R_MISS_SLOTS ra0) with (len MISS_SLOTS g).
  change (len R_BLOCK_TABLE ra0) with (len R_BLOCK_TABLE (p_ra p)).
  change (len R_GVAS ra0) with (len R_GVAS (p_ra p)).
  change (len R_ADDR ra0) with (len R_ADDR (p_ra p)).
  change (len R_SIZE ra0) with (len R_SIZE (p_ra p)).
  change (len R_NUM_TOKENS ra0) with (len R_NUM_TOKENS (p_ra p)). lia.
Qed.

(** *** What the copy leaves in memory *)
Context (m m' : mem) (Hcopy : misses_copied c ra0 m m').

Lemma outside_unchanged a : (forall kv, ~ in_cache c kv a) -> m' a = m a.
Proof.
  intros Ha. apply Hcopy. intros r k slot bi tok kv x Hr _ Hit Hx ->.
  apply item_slot in Hit as (_ & _ & Hs & _). destruct Hready as ((_ & Hsh & _) & _).
  by eapply Ha, in_cache_slot.
Qed.

Lemma host_unchanged r t kv x :
  0 <= r < N -> mapped c (p_ra p) r t -> 0 <= x < tok_size c kv ->
  m' (host_addr c kv (block_of c (p_ra p) r t) t + x) = m (host_addr c kv (block_of c (p_ra p) r t) t + x).
Proof.
  intros Hr Hm Hx. apply outside_unchanged. intros kv'.
  destruct Hready as (_ & _ & _ & _ & _ & Hl). by apply Hl.
Qed.

Lemma step_coherent :
  coherent (p_ra p) m (fun r => start_s2t cap T (row_of p r)) ->
  coherent (p_ra p) m' (fun r => ro_s2t (out r)).
Proof.
  intros Hcoh r slot Hr Hs Hv Hmap kv x Hx. rewrite host_unchanged by done.
  destruct Hready as ((_ & Hsh & _) & _ & Hrows & Hlay). destruct (Hrows r Hr) as (Hwf & _).
  destruct (decide (slot ∈ (fun k => (ro_mslot (out r)).[k]) <$> seqZ 0 (ro_count (out r)))) as [Hin|Hin].
  - apply list_elem_of_fmap in Hin as (k & -> & Hk). apply elem_of_seqZ in Hk.
    destruct (compact_miss_entry cap T _ Hwf k ltac:(lia)) as (_ & _ & _ & E). rewrite E.
    destruct Hcopy as [H1 _]. apply (H1 r k); [done| | |done].
    + rewrite miss_row_count by done. lia.
    + apply miss_item; [done|lia].
  - assert (Hno : forall k, 0 <= k < ro_count (out r) -> slot <> (ro_mslot (out r)).[k]).
    { intros k Hk ->. apply Hin, list_elem_of_fmap. exists k. rewrite elem_of_seqZ. split; [done|lia]. }
    destruct (compact_slot_cases cap T _ Hwf slot Hs) as [(k & Hk & E & _)|E]; [by destruct (Hno k Hk)|].
    rewrite E in *. rewrite <- Hcoh by done. apply Hcopy.
    intros r' k' slot' bi' tok' kv' x' Hr' Hk' Hit' Hx' Ea.
    pose proof (item_slot _ _ _ _ _ _ _ Hit') as (_ & _ & Hs' & _).
    apply (cache_addr_inj c ra0 Hlay) in Ea as (<- & <- & <- & <-); [|done..].
    rewrite miss_row_count in Hk' by done. rewrite miss_item in Hit' by done. simplify_eq.
    by eapply Hno.
Qed.
End misses.

Lemma decode_step_spec p :
  step_ready p -> coherent (p_ra p) (p_mem p) (fun r => start_s2t cap T (row_of p r)) ->
  exists p', decode_step p = Some p' /\
    (forall r, 0 <= r < N -> row_out_of r K cap (v_gm (p_dev p')) = compact cap T (row_of p r)) /\
    coherent (p_ra p) (p_mem p') (fun r => ri_s2t (row_of p' r)) /\
    (forall a, (forall kv, ~ in_cache c kv a) -> p_mem p' a = p_mem p a) /\
    step_fits p' /\ (forall k, 0 <= k -> val R_BLOCK_TABLE k (p_ra p') = val R_BLOCK_TABLE k (p_ra p)).
Proof.
  intros Hready Hcoh. pose proof Hready as ((Hshape & Hsh & _ & Hmax) & (Hf & He & Hf') & Hrows & Hlay).
  unfold decode_step.
  assert (Hc : wp (AccOffloadLruCompact clock profile N K cap T) (fun _ s' =>
    (launch_fits N K cap T s' /\ (IsCompactV3Shape N K cap T = false -> epochs_ok T (v_gm s'))) /\
    forall r, 0 <= r < N ->
      row_out_of r K cap (v_gm s') = compact cap T (row_of p r)) (p_dev p)).
  { apply AccOffloadLruCompact_spec; try done. intros r Hr. destruct (Hrows r Hr) as (Hwf & _).
    apply (lru_perm_inj cap [] []); [apply Hwf|by apply (start_lru_perm cap T)]. }
  unfold wp in Hc. destruct (AccOffloadLruCompact _ _ _ _ _ _ _) as [[[] dev]|]; [|done].
  destruct Hc as [[Hb' He'] Hout]. pose proof Hb' as [Hb _].
  destruct (miss_fits p (v_gm dev) Hready Hb) as [Ht Hrf].
  pose proof (AccOffloadComputeLruResidentAddrs_spec c (bind_misses (v_gm dev) (p_ra p)) Hsh Hrf
    ltac:(apply Hf') ltac:(lia)) as Ha.
  unfold wp in Ha. destruct (AccOffloadComputeLruResidentAddrs _ _) as [[[] r]|]; [|done].
  destruct Ha as (HL & HH & HV).
  pose proof (copy_table_spec c (bind_misses (v_gm dev) (p_ra p)) Hsh Hlay (miss_slots_distinct p (v_gm dev) Hready Hout)
    r Hrf HL HH ltac:(lia) (p_mem p)) as Hm.
  unfold wp in Hm. destruct (AccOffloadSparseCopy _ _ _ _ _) as [[[] m]|]; [|done].
  exists (mkPipe dev r m). split_and!; [done|done| | | |].
  - pose proof (step_coherent p (v_gm dev) Hready Hout _ m Hm Hcoh) as H'.
    intros r' slot Hr' Hs. specialize (H' r' slot Hr' Hs). cbv beta in H'. rewrite <- (Hout r' Hr') in H'. exact H'.
  - intros a Ha. by eapply (outside_unchanged p (v_gm dev)).
  - unfold step_fits, ra_ub_fits in *. cbn [p_dev p_ra]. rewrite !HL.
    change (len ?b (bind_misses _ _)) with (len b (p_ra p)). done.
  - intros k Hk. apply HV; [done|by intros []|]. intros [[? _]|(q & _ & (_ & _ & Hb'')%entry_touch)%touches_bind].
    + done.
    + by destruct Hb'' as [|[|]].
Qed.

(** *** Many steps *)

(** What holds between two steps. *)
Definition pipe_inv (p : Pipe) : Prop :=
  step_shape /\ step_fits p /\ (forall r, 0 <= r < N -> row_wf cap T (row_of p r)) /\
  coherent (p_ra p) (p_mem p) (fun r => ri_s2t (row_of p r)).

Definition request_array (b : gm) : bool :=
  match b with REQ_IDS | TOPK_INDICES | STABLE_PREFIX_LENS => true | _ => false end.

(** What the caller may do between two steps: write the three request arrays and the
    block table, and rewrite host memory, except the bytes of tokens below the stable
    prefix of a row that stays with its request.  The requested tokens are distinct and
    have a block. *)
Definition new_request (p q : Pipe) : Prop :=
  (v_ub (p_dev q) = v_ub (p_dev p) /\
   (forall b, request_array b = false -> gm_buf b (v_gm (p_dev q)) = gm_buf b (v_gm (p_dev p))) /\
   (forall b, len b (v_gm (p_dev q)) = len b (v_gm (p_dev p))) /\
   (forall b, len b (p_ra q) = len b (p_ra p))) /\
  (forall kv a, in_cache c kv a -> p_mem q a = p_mem p a) /\
  (forall r t, 0 <= r < N -> ri_last (row_of q r) = ri_req (row_of q r) ->
     t < clamp_prefix T (ri_prefix (row_of q r)) -> mapped c (p_ra q) r t ->
     mapped c (p_ra p) r t /\ forall kv x, 0 <= x < tok_size c kv ->
       p_mem q (host_addr c kv (block_of c (p_ra q) r t) t + x) =
       p_mem p (host_addr c kv (block_of c (p_ra p) r t) t + x)) /\
  (forall r, 0 <= r < N -> topk_distinct T (ri_topk (row_of q r)) /\
     forall i, 0 <= i < K -> valid_tok T (ri_topk (row_of q r)).[i] = true ->
               mapped c (p_ra q) r (ri_topk (row_of q r)).[i]) /\
  layout c (p_ra q).

Inductive decode_run : Pipe -> Pipe -> Prop :=
  | run_done p : decode_run p p
  | run_step p q q' p' :
      new_request p q -> decode_step q = Some q' -> decode_run q' p' -> decode_run p p'.

Lemma start_s2t_kept r slot t :
  Z.of_nat (length (ri_s2t r)) = cap -> 0 <= slot < cap -> (start_s2t cap T r).[slot] = t ->
  valid_tok T t = true -> ri_last r = ri_req r /\ t < clamp_prefix T (ri_prefix r) /\ (ri_s2t r).[slot] = t.
Proof.
  intros Hl Hs <-. unfold start_s2t. destruct (Z.eqb_spec (ri_last r) (ri_req r)) as [E|E].
  - rewrite at_fmap by lia. unfold invalidate. case_match eqn:Hi; [done|]. intros Hv.
    rewrite Hv in Hi. split_and!; [done|simpl in Hi; lia|done].
  - rewrite at_fmap by (rewrite length_tab; lia). rewrite at_tab by lia. unfold invalidate. by case_match.
Qed.

Lemma new_request_ready p q :
  pipe_inv p -> new_request p q ->
  step_ready q /\ coherent (p_ra q) (p_mem q) (fun r => start_s2t cap T (row_of q r)).
Proof.
  intros (Hshape & Hfits & Hwf & Hcoh) ((Hu & Hb & Hl & Hr) & Hcache & Hstable & Hreq & Hlay).
  assert (Hv : forall b j, request_array b = false -> val b j (v_gm (p_dev q)) = val b j (v_gm (p_dev p))).
  { intros b j E. unfold val. change (buf b ?g) with (gm_buf b g). by rewrite Hb. }
  assert (Hrow : forall r, ri_s2t (row_of q r) = ri_s2t (row_of p r) /\ ri_lru (row_of q r) = ri_lru (row_of p r)).
  { intros r. split; apply slice_ext; intros j _; by apply Hv. }
  assert (Hwq : forall r, 0 <= r < N -> row_wf cap T (row_of q r)).
  { intros r H0. destruct (Hrow r) as [E1 E2]. specialize (Hwf r H0). unfold row_wf in *. by rewrite E1, E2. }
  split.
  - split_and!; [done..| | |done].
    + destruct Hfits as ([Hf1 Hf2] & He & Hf3). split; [|split].
      * split; [unfold batch_fits in *; rewrite !Hl; done|].
        intros b. specialize (Hf2 b). unfold len in *. simpl in *. by rewrite Hu.
      * intros E ws Hw. specialize (He E ws Hw). unfold epoch_ok in *. rewrite (Hv EPOCHS) by done.
        destruct He as [|[|He]]; [by left|by right; left|right; right]. intros t Ht.
        rewrite (Hv TOKEN_MARK) by done. by apply He.
      * unfold ra_ub_fits in *. rewrite !Hr. done.
    + intros r H0. split; [auto|]. by apply Hreq.
  - intros r slot H0 Hs Hval Hm kv x Hx. specialize (Hwq r H0).
    destruct (start_s2t_kept _ slot _ (proj1 (proj2 Hwq)) Hs eq_refl Hval) as (E1 & E2 & E3).
    set (t := (start_s2t cap T (row_of q r)).[slot]) in *.
    destruct (Hstable r t H0 E1 E2 Hm) as [Hm' ->]; [|done].
    rewrite (proj1 (Hrow r)) in E3. pose proof Hshape as (_ & Hsh & _).
    rewrite (Hcache kv) by (by apply in_cache_slot).
    specialize (Hcoh r slot H0 Hs). cbv beta in Hcoh. rewrite E3 in Hcoh. by apply Hcoh.
Qed.

(** One round: the step does not fail, serves the request and restores the invariant. *)
Lemma decode_round p q :
  pipe_inv p -> new_request p q ->
  exists q', decode_step q = Some q' /\ pipe_inv q' /\
    (forall r, 0 <= r < N -> row_out_of r K cap (v_gm (p_dev q')) = compact cap T (row_of q r)) /\
    (forall r i, 0 <= r < N -> 0 <= i < K -> valid_tok T (ri_topk (row_of q r)).[i] = true ->
       let slot := val CURRENT_SLOTS (r * K + i) (v_gm (p_dev q')) in
       0 <= slot < cap /\ holds_token (p_ra q) (p_mem q') r slot (ri_topk (row_of q r)).[i]) /\
    (forall a, (forall kv, ~ in_cache c kv a) -> p_mem q' a = p_mem q a).
Proof.
  intros Hp Hq. destruct (new_request_ready p q Hp Hq) as [Hready Hcoh].
  destruct (decode_step_spec q Hready Hcoh) as (q' & E & Hout & Hc' & Ho & Hf & Hbt).
  pose proof Hready as ((Hs & Hsh & HKc & HN) & _ & Hrows & _).
  assert (Hb : forall r t, 0 <= r < N -> mapped c (p_ra q') r t ->
    block_of c (p_ra q') r t = block_of c (p_ra q) r t).
  { intros r t Hr (Ht & Hq0 & _). apply Hbt. unfold ra_shape in Hsh. nia. }
  exists q'. split_and!; [done| |done| |done].
  - split_and!; try done.
    + intros r Hr. destruct (Hrows r Hr) as (Hwf & Hd & _).
      pose proof (next_row_wf cap T _ Hwf 0 0 [] Hd) as Hn. rewrite <- (Hout r Hr) in Hn. exact Hn.
    + intros r slot Hr Hsl Hv Hm kv x Hx. rewrite Hb by done. apply Hc'; try done.
      destruct Hm as (? & ? & Hm). pose proof (Hb r (ri_s2t (row_of q' r)).[slot] Hr) as E'.
      unfold mapped in *. rewrite <- E'; done.
  - intros r i Hr Hi Hv slot. destruct (Hrows r Hr) as (Hwf & _ & Hmap).
    assert (Ec : slot = (ro_cur (compact cap T (row_of q r))).[i]).
    { rewrite <- (Hout r Hr). cbn [ro_cur row_out_of]. by rewrite slice_at. }
    destruct (compact_resolves cap T _ Hwf i ltac:(rewrite length_topk; done || lia)
      ltac:(rewrite length_topk; done || lia) Hv) as [Hsl Et].
    rewrite <- Ec in *. split; [done|]. pose proof (Hc' r slot Hr Hsl) as H'. cbv beta in H'.
    change (ri_s2t (row_of q' r)) with (ro_s2t (row_out_of r K cap (v_gm (p_dev q')))) in H'.
    rewrite (Hout r Hr), Et in H'. auto.
Qed.
End step.
