(* ===== verification/RangeTree.v ===== *)
(** * RangeTree: best-fit range bookkeeping with two ordered trees

    [AccOffloadMemManager] (acc_offload) and [RbtreeRangePool] (hybm) keep their idle
    ranges twice: in a [std::map] from offset to size and in a [std::set] ordered by
    size, then offset.  This file models the container operations both classes use, the
    two moves on the trees (take the smallest idle range that fits; give a range back
    and merge it with its neighbours), and the invariant that ties the trees to the
    ranges handed out. *)
From stdpp Require Import gmap.
From S2P Require Import Prelude.

(** ** Ordered containers *)
Section best.
Context {A : Type} (better : A -> A -> bool).

Fixpoint best (l : list A) : option A :=
  match l with
  | [] => None
  | a :: l => match best l with
              | None => Some a
              | Some b => if better a b then Some a else Some b
              end
  end.

Context (irrefl : forall a, better a a = false).
Context (ntrans : forall a b c, better a b = false -> better b c = false -> better a c = false).
Context (asym : forall a b, better a b = true -> better b a = false).

Lemma best_None l : best l = None <-> l = [].
Proof. destruct l as [|a l]; simpl; [done|]. by destruct (best l); [destruct (better a a0)|]. Qed.

Lemma best_Some l b : best l = Some b -> b ∈ l /\ forall a, a ∈ l -> better a b = false.
Proof.
  revert b. induction l as [|a l IH]; intros b; simpl; [done|].
  destruct (best l) as [b'|] eqn:E.
  - destruct (IH b' eq_refl) as [Hin Hmin]. destruct (better a b') eqn:Eb; intros [= <-].
    + split; [by left|]. intros x [->|Hx]%elem_of_cons; [done|]. eapply ntrans; [by apply Hmin|]. auto.
    + split; [by right|]. intros x [->|Hx]%elem_of_cons; [done|auto].
  - apply best_None in E as ->. intros [= <-]. split; [by left|].
    intros x [->|[]%not_elem_of_nil]%elem_of_cons. done.
Qed.
End best.

(** [std::set<MemoryRange, RangeSizeFirstComparator>]: elements are (size, offset). *)
Definition RangeSizeFirstComparator (mr1 mr2 : Z * Z) : bool :=
  if negb (mr1.1 =? mr2.1) then mr1.1 <? mr2.1 else mr1.2 <? mr2.2.

Definition set_lower_bound (s : gset (Z * Z)) (anchor : Z * Z) : option (Z * Z) :=
  best RangeSizeFirstComparator
    (filter (fun r => RangeSizeFirstComparator r anchor = false) (elements s)).

(** [std::map]: [emplace] keeps an existing binding; [map_prev m k] is the binding the
    iterator [--lower_bound(k)] denotes. *)
Definition map_emplace (k v : Z) (m : gmap Z Z) : gmap Z Z :=
  match m !! k with Some _ => m | None => <[k := v]> m end.

Definition map_prev (m : gmap Z Z) (k : Z) : option (Z * Z) :=
  best (fun a b : Z * Z => b.1 <? a.1) (filter (fun kv => kv.1 < k) (map_to_list m)).

Lemma set_lower_bound_Some s anchor r :
  set_lower_bound s anchor = Some r ->
  r ∈ s /\ RangeSizeFirstComparator r anchor = false /\
  forall r', r' ∈ s -> RangeSizeFirstComparator r' anchor = false -> RangeSizeFirstComparator r' r = false.
Proof.
  intros H. apply best_Some in H as [Hin Hmin].
  - apply list_elem_of_filter in Hin as [Hf Hin]. apply elem_of_elements in Hin. split_and!; [done|done|].
    intros r' Hr' Hf'. apply Hmin, list_elem_of_filter. by rewrite elem_of_elements.
  - intros [a1 a2]. unfold RangeSizeFirstComparator. simpl. repeat case_match; lia.
  - intros [a1 a2] [b1 b2] [c1 c2]. unfold RangeSizeFirstComparator. simpl. repeat case_match; lia.
  - intros [a1 a2] [b1 b2]. unfold RangeSizeFirstComparator. simpl. repeat case_match; lia.
Qed.

Lemma set_lower_bound_None s anchor :
  set_lower_bound s anchor = None -> forall r, r ∈ s -> RangeSizeFirstComparator r anchor = true.
Proof.
  intros H%best_None r Hr. destruct (RangeSizeFirstComparator r anchor) eqn:E; [done|]. exfalso.
  assert (Hin : r ∈ filter (fun r => RangeSizeFirstComparator r anchor = false) (elements s)).
  { apply list_elem_of_filter. by rewrite elem_of_elements. }
  rewrite H in Hin. by apply not_elem_of_nil in Hin.
Qed.

Lemma map_prev_Some m k p :
  map_prev m k = Some p ->
  m !! p.1 = Some p.2 /\ p.1 < k /\ forall k', is_Some (m !! k') -> k' < k -> k' <= p.1.
Proof.
  intros H. apply best_Some in H as [Hin Hmin].
  - apply list_elem_of_filter in Hin as [Hk Hin]. destruct p as [a b]. apply elem_of_map_to_list in Hin.
    split_and!; [done|done|]. intros k' [v Hv] Hlt. specialize (Hmin (k', v)). simpl in *.
    apply elem_of_map_to_list in Hv. specialize (Hmin ltac:(by apply list_elem_of_filter)). lia.
  - intros [a1 a2]. simpl. lia.
  - intros [a1 a2] [b1 b2] [c1 c2]. simpl. lia.
  - intros [a1 a2] [b1 b2]. simpl. lia.
Qed.

Lemma map_prev_None m k : map_prev m k = None -> forall k', is_Some (m !! k') -> k <= k'.
Proof.
  intros H%best_None k' [v Hv]. apply elem_of_map_to_list in Hv.
  destruct (Z.le_gt_cases k k') as [|Hlt]; [done|]. exfalso.
  assert (Hin : (k', v) ∈ filter (fun kv : Z * Z => kv.1 < k) (map_to_list m)) by (by apply list_elem_of_filter).
  rewrite H in Hin. by apply not_elem_of_nil in Hin.
Qed.

Lemma map_emplace_fresh k v m : m !! k = None -> map_emplace k v m = <[k := v]> m.
Proof. unfold map_emplace. by intros ->. Qed.

(** ** Tilings: a map from offset to size whose ranges cut [0, size) into pieces *)
Section tiling.
Context (size : Z).

Definition tiling (m : gmap Z Z) : Prop :=
  is_Some (m !! 0) /\
  (forall off sz, m !! off = Some sz -> 0 <= off /\ 0 < sz /\ off + sz <= size) /\
  (forall off sz, m !! off = Some sz -> off + sz = size \/ is_Some (m !! (off + sz))) /\
  (forall off sz k, m !! off = Some sz -> is_Some (m !! k) -> off < k -> off + sz <= k).

(** Every byte lies in exactly one range. *)
Lemma tiling_covers m x :
  tiling m -> 0 <= x < size -> exists off sz, m !! off = Some sz /\ off <= x < off + sz.
Proof.
  intros (H0 & Hr & Hn & _) Hx.
  assert (Hgo : forall n k, x - k < Z.of_nat n -> k <= x -> is_Some (m !! k) ->
    exists off sz, m !! off = Some sz /\ off <= x < off + sz).
  { induction n as [|n IH]; intros k Hk Hle [sz Hsz]; [lia|].
    destruct (Hr _ _ Hsz). destruct (Z.lt_ge_cases x (k + sz)); [by eauto|].
    destruct (Hn _ _ Hsz) as [?|Hs]; [lia|]. apply (IH (k + sz)); [lia|lia|done]. }
  apply (Hgo (S (Z.to_nat x)) 0); [lia|lia|done].
Qed.

Lemma tiling_disjoint m off1 sz1 off2 sz2 x :
  tiling m -> m !! off1 = Some sz1 -> m !! off2 = Some sz2 ->
  off1 <= x < off1 + sz1 -> off2 <= x < off2 + sz2 -> off1 = off2.
Proof.
  intros (_ & _ & _ & Hd) H1 H2 Hx1 Hx2. destruct (Z.lt_total off1 off2) as [|[|]]; [|done|].
  - pose proof (Hd _ _ off2 H1 ltac:(by eexists)). lia.
  - pose proof (Hd _ _ off1 H2 ltac:(by eexists)). lia.
Qed.

Lemma tiling_split m off sz a :
  tiling m -> m !! off = Some sz -> 0 < a < sz -> tiling (<[off := a]> (<[off + a := sz - a]> m)).
Proof.
  intros (H0 & Hr & Hn & Hd) Ho Ha.
  assert (Hf : m !! (off + a) = None).
  { destruct (m !! (off + a)) eqn:E; [|done]. specialize (Hd _ _ (off + a) Ho ltac:(by eexists)). lia. }
  destruct (Hr _ _ Ho) as (? & ? & ?).
  assert (Hsome : forall k, is_Some (m !! k) -> is_Some (<[off := a]> (<[off + a := sz - a]> m) !! k)).
  { intros k Hk. rewrite !lookup_insert_is_Some'. auto. }
  split_and!.
  - by apply Hsome.
  - intros o s. rewrite !lookup_insert_Some. intros [[<- <-]|[? [[<- <-]|[? Hs]]]]; [lia|lia|]. by apply Hr.
  - intros o s. rewrite !lookup_insert_Some. intros [[<- <-]|[? [[<- <-]|[? Hs]]]].
    + right. rewrite lookup_insert_ne, lookup_insert_eq by lia. eauto.
    + replace (off + a + (sz - a)) with (off + sz) by lia. destruct (Hn _ _ Ho); auto.
    + destruct (Hn _ _ Hs); auto.
  - intros o s k. rewrite !lookup_insert_Some, !lookup_insert_is_Some'.
    intros [[<- <-]|[? [[<- <-]|[? Hs]]]] Hk Hlt; destruct Hk as [<-|[<-|Hk]]; try lia.
    + specialize (Hd _ _ k Ho Hk). lia.
    + specialize (Hd _ _ k Ho Hk). lia.
    + apply (Hd _ _ off Hs); [by eexists|lia].
    + destruct (Z.lt_trichotomy o off) as [|[|]]; [|lia|].
      * pose proof (Hd _ _ off Hs ltac:(by eexists)). lia.
      * pose proof (Hd _ _ o Ho ltac:(by eexists)). lia.
    + by apply (Hd _ _ k Hs).
Qed.

Lemma tiling_join m off s1 s2 :
  tiling m -> m !! off = Some s1 -> m !! (off + s1) = Some s2 ->
  tiling (<[off := s1 + s2]> (delete (off + s1) m)).
Proof.
  intros (H0 & Hr & Hn & Hd) H1 H2. destruct (Hr _ _ H1) as (? & ? & ?), (Hr _ _ H2) as (? & ? & ?).
  assert (Hsome : forall k, is_Some (m !! k) -> k <> off + s1 ->
    is_Some (<[off := s1 + s2]> (delete (off + s1) m) !! k)).
  { intros k Hk Hne. rewrite lookup_insert_is_Some', lookup_delete_ne by done. auto. }
  assert (Hbound : forall o s, m !! o = Some s -> o <> off -> o + s <> off + s1).
  { intros o s Hs Hne E. destruct (Z.lt_total o off) as [|[|]]; [|done|].
    - pose proof (Hd _ _ off Hs ltac:(by eexists)). lia.
    - pose proof (Hd _ _ o H1 ltac:(by eexists)). destruct (Hr _ _ Hs). lia. }
  split_and!.
  - apply Hsome; [done|lia].
  - intros o s. rewrite lookup_insert_Some, lookup_delete_Some. intros [[<- <-]|[? [? Hs]]]; [lia|]. by apply Hr.
  - intros o s. rewrite lookup_insert_Some, lookup_delete_Some. intros [[<- <-]|[? [? Hs]]].
    + replace (off + (s1 + s2)) with (off + s1 + s2) by lia.
      destruct (Hn _ _ H2); [auto|right]. apply Hsome; [done|lia].
    + destruct (Hn _ _ Hs); [auto|right]. apply Hsome; auto.
  - intros o s k. rewrite lookup_insert_Some, lookup_delete_Some, lookup_insert_is_Some', lookup_delete_is_Some.
    intros [[<- <-]|[? [? Hs]]] Hk Hlt.
    + destruct Hk as [?|[? Hk]]; [lia|]. pose proof (Hd _ _ k H1 Hk Hlt).
      pose proof (Hd _ _ k H2 Hk). lia.
    + destruct Hk as [<-|[? Hk]]; [|by apply (Hd _ _ k Hs)]. apply (Hd _ _ off Hs); [by eexists|done].
Qed.
End tiling.

(** ** The two trees and their moves *)
Record Trees := mkTrees { addr_tree : gmap Z Z; size_tree : gset (Z * Z) }.

Definition init_trees (size : Z) : Trees := mkTrees {[0 := size]} {[(size, 0)]}.

Definition erase_range (t : Trees) (offset size : Z) : Trees :=
  mkTrees (delete offset (addr_tree t)) (size_tree t ∖ {[(size, offset)]}).
Definition emplace_range (t : Trees) (offset size : Z) : Trees :=
  mkTrees (map_emplace offset size (addr_tree t)) ({[(size, offset)]} ∪ size_tree t).

(** Take the smallest idle range that holds [alignedSize] bytes; the rest stays idle. *)
Definition take_range (t : Trees) (alignedSize : Z) : option (Z * Trees) :=
  match set_lower_bound (size_tree t) (alignedSize, 0) with
  | None => None
  | Some (targetSize, targetOffset) =>
      match addr_tree t !! targetOffset with
      | None => None
      | Some _ =>
          let t := erase_range t targetOffset targetSize in
          Some (targetOffset,
                if alignedSize <? targetSize
                then emplace_range t (u64 (targetOffset + alignedSize)) (u64 (targetSize - alignedSize))
                else t)
      end
  end.

(** Return a range and merge it with the idle ranges that end or start at its bounds. *)
Definition merge_prev (t : Trees) (offset size : Z) : Z * Z * Trees :=
  match map_prev (addr_tree t) offset with
  | Some (prevOffset, prevSize) =>
      if u64 (prevOffset + prevSize) =? offset
      then (prevOffset, u64 (size + prevSize), erase_range t prevOffset prevSize)
      else (offset, size, t)
  | None => (offset, size, t)
  end.
Definition merge_next (t : Trees) (nextOffset finalSize : Z) : Z * Trees :=
  match addr_tree t !! nextOffset with
  | Some nextSize => (u64 (finalSize + nextSize), erase_range t nextOffset nextSize)
  | None => (finalSize, t)
  end.
Definition give_range (t : Trees) (offset size : Z) : Trees :=
  let '(finalOffset, finalSize, t) := merge_prev t offset size in
  let '(finalSize, t) := merge_next t (u64 (offset + size)) finalSize in
  emplace_range t finalOffset finalSize.

Definition trees_agree (t : Trees) : Prop :=
  forall off sz, (sz, off) ∈ size_tree t <-> addr_tree t !! off = Some sz.

(** ** The invariant: idle and used ranges tile the pool, idle ranges are coalesced *)
Record pool_inv (size : Z) (t : Trees) (used : gmap Z Z) : Prop := {
  pi_size : 0 < size < 18446744073709551616;
  pi_agree : trees_agree t;
  pi_disj : addr_tree t ##ₘ used;
  pi_tile : tiling size (addr_tree t ∪ used);
  pi_coal : forall off sz, addr_tree t !! off = Some sz -> addr_tree t !! (off + sz) = None;
}.

Lemma init_trees_inv size : 0 < size < 18446744073709551616 -> pool_inv size (init_trees size) ∅.
Proof.
  intros Hs. split; simpl; [done| | | |].
  - intros off sz. simpl. rewrite elem_of_singleton, lookup_singleton_Some. naive_solver.
  - apply map_disjoint_empty_r.
  - rewrite (right_id_L ∅ (∪)). split_and!.
    + rewrite lookup_singleton_eq. eauto.
    + intros off sz. rewrite lookup_singleton_Some. lia.
    + intros off sz. rewrite lookup_singleton_Some. lia.
    + intros off sz k. rewrite lookup_singleton_Some, lookup_singleton_is_Some. lia.
  - intros off sz. rewrite lookup_singleton_Some, lookup_singleton_None. lia.
Qed.

Section pool.
Context (size : Z) (t : Trees) (used : gmap Z Z) (Hinv : pool_inv size t used).
Local Abbreviation all := (addr_tree t ∪ used).

Lemma idle_all off sz : addr_tree t !! off = Some sz -> all !! off = Some sz.
Proof. intros H. by rewrite lookup_union_l by (eapply map_disjoint_Some_l; [apply Hinv|done]). Qed.
Lemma used_all off sz : used !! off = Some sz -> all !! off = Some sz.
Proof. intros H. by rewrite lookup_union_r by (eapply map_disjoint_Some_r; [apply Hinv|done]). Qed.

Lemma all_range off sz : all !! off = Some sz -> 0 <= off /\ 0 < sz /\ off + sz <= size.
Proof. apply Hinv. Qed.
Lemma all_apart off sz k : all !! off = Some sz -> is_Some (all !! k) -> off < k -> off + sz <= k.
Proof. apply Hinv. Qed.

(** No idle range ends inside another range. *)
Lemma all_ends o s off sz :
  all !! o = Some s -> all !! off = Some sz -> o <> off -> ~ (off < o + s < off + sz).
Proof.
  intros H1 H2 Hne ?. destruct (Z.lt_total o off) as [|[|]]; [|done|].
  - pose proof (all_apart _ _ off H1 ltac:(by eexists)). lia.
  - pose proof (all_apart _ _ o H2 ltac:(by eexists)). pose proof (all_range _ _ H1). lia.
Qed.
End pool.

Lemma agree_erase t off sz :
  trees_agree t -> addr_tree t !! off = Some sz -> trees_agree (erase_range t off sz).
Proof.
  intros Ha H o s. simpl. rewrite elem_of_difference, elem_of_singleton, lookup_delete_Some, (Ha o s).
  split.
  - intros [Hs Hne]. split; [|done]. intros <-. congruence.
  - intros [Hne Hs]. split; [done|]. congruence.
Qed.

Lemma agree_emplace t off sz :
  trees_agree t -> addr_tree t !! off = None -> trees_agree (emplace_range t off sz).
Proof.
  intros Ha Hf o s. simpl. rewrite map_emplace_fresh by done.
  rewrite elem_of_union, elem_of_singleton, lookup_insert_Some, (Ha o s).
  split.
  - intros [[= -> ->]|Hs]; [auto|]. right. split; [congruence|done].
  - intros [[-> ->]|[? Hs]]; auto.
Qed.

(** ** Taking a range *)
Section take.
Context (size : Z) (t : Trees) (used : gmap Z Z) (Hinv : pool_inv size t used).

(** A failed search means that no idle range is large enough. *)
Lemma take_range_None a :
  take_range t a = None -> forall off sz, addr_tree t !! off = Some sz -> sz < a.
Proof.
  unfold take_range. destruct (set_lower_bound _ _) as [[sz0 off0]|] eqn:E.
  - apply set_lower_bound_Some in E as (Hin & _). apply (pi_agree _ _ _ Hinv) in Hin. by rewrite Hin.
  - intros _ off sz Hs. pose proof (all_range _ _ _ Hinv _ _ (idle_all _ _ _ Hinv _ _ Hs)).
    apply (pi_agree _ _ _ Hinv) in Hs. pose proof (set_lower_bound_None _ _ E _ Hs) as H'.
    unfold RangeSizeFirstComparator in H'. simpl in H'. case_match; lia.
Qed.

Lemma take_range_target a off t' :
  take_range t a = Some (off, t') ->
  exists sz, addr_tree t !! off = Some sz /\ a <= sz /\
    (forall o s, addr_tree t !! o = Some s -> a <= s -> sz <= s) /\
    t' = if a <? sz then emplace_range (erase_range t off sz) (u64 (off + a)) (u64 (sz - a))
         else erase_range t off sz.
Proof.
  unfold take_range. destruct (set_lower_bound _ _) as [[sz0 off0]|] eqn:E; [|done].
  apply set_lower_bound_Some in E as (Hin & Hge & Hmin). apply (pi_agree _ _ _ Hinv) in Hin as Hs.
  rewrite Hs. intros [= <- <-]. exists sz0. split_and!; [done| | |done].
  - unfold RangeSizeFirstComparator in Hge. simpl in Hge. case_match; lia.
  - intros o s Ho Hle. pose proof (all_range _ _ _ Hinv _ _ (idle_all _ _ _ Hinv _ _ Ho)).
    apply (pi_agree _ _ _ Hinv) in Ho. specialize (Hmin _ Ho).
    unfold RangeSizeFirstComparator in Hmin. simpl in Hmin. repeat case_match; lia.
Qed.

Lemma take_range_inv a off t' :
  0 < a -> take_range t a = Some (off, t') -> pool_inv size t' (<[off := a]> used).
Proof.
  intros Ha Ht. destruct (take_range_target a off t' Ht) as (sz & Hs & Hle & _ & ->).
  pose proof (idle_all _ _ _ Hinv _ _ Hs) as Hall.
  pose proof (all_range _ _ _ Hinv _ _ Hall) as Hr. pose proof (pi_size _ _ _ Hinv) as Hsz.
  assert (Hu : used !! off = None) by (eapply map_disjoint_Some_l; [apply Hinv|done]).
  assert (Hdel : delete off (addr_tree t) ∪ used = delete off (addr_tree t ∪ used)).
  { by rewrite delete_union, (delete_id used). }
  destruct (Z.ltb_spec a sz) as [Hlt|Hge].
  - unwrap.
    assert (Hfree : (addr_tree t ∪ used) !! (off + a) = None).
    { destruct ((addr_tree t ∪ used) !! (off + a)) eqn:E; [|done]. exfalso.
      pose proof (all_apart _ _ _ Hinv _ _ (off + a) Hall ltac:(by eexists)). lia. }
    apply lookup_union_None in Hfree as [Hf1 Hf2].
    assert (Hf : addr_tree (erase_range t off sz) !! (off + a) = None)
      by (simpl; by rewrite lookup_delete_ne by lia).
    split; [done|apply agree_emplace; [apply agree_erase; [apply Hinv|done]|done]|..]; simpl in *;
      rewrite ?map_emplace_fresh by done.
    + apply map_disjoint_insert_l; split; [by rewrite lookup_insert_ne by lia|].
      apply map_disjoint_insert_r. split; [apply lookup_delete_eq|]. apply map_disjoint_delete_l, Hinv.
    + rewrite <- insert_union_r by (rewrite lookup_insert_ne, lookup_delete_eq by lia; done).
      rewrite <- insert_union_l, Hdel, insert_insert_ne by lia.
      rewrite insert_delete_eq, insert_insert_ne by lia.
      apply (tiling_split size _ off sz a); [apply Hinv|done|lia].
    + intros o s. rewrite lookup_insert_Some, lookup_delete_Some, lookup_insert_None, lookup_delete_None.
      intros [[<- <-]|[? [? Ho]]].
      * replace (off + a + (sz - a)) with (off + sz) by lia. split; [|lia].
        right. by apply (pi_coal _ _ _ Hinv).
      * split; [right; by apply (pi_coal _ _ _ Hinv)|]. intros E.
        apply (all_ends _ _ _ Hinv o s off sz (idle_all _ _ _ Hinv _ _ Ho) Hall); [done|lia].
  - assert (a = sz) as -> by lia. split; [done|apply agree_erase; [apply Hinv|done]|..]; simpl.
    + apply map_disjoint_insert_r. split; [apply lookup_delete_eq|]. apply map_disjoint_delete_l, Hinv.
    + rewrite <- insert_union_r by apply lookup_delete_eq.
      rewrite Hdel, insert_delete_eq, insert_id by done. apply Hinv.
    + intros o s. rewrite lookup_delete_Some, lookup_delete_None. intros [? Ho]. right.
      by apply (pi_coal _ _ _ Hinv).
Qed.
End take.

(** ** Giving a range back *)
(** The trees while the returned range [fo, fo + fs) is on its way: it belongs to neither
    tree and is no longer used. *)
Record pending (size : Z) (t : Trees) (fo fs : Z) (used : gmap Z Z) : Prop := {
  pd_size : 0 < size < 18446744073709551616;
  pd_agree : trees_agree t;
  pd_fresh : addr_tree t !! fo = None /\ used !! fo = None;
  pd_disj : addr_tree t ##ₘ used;
  pd_tile : tiling size (<[fo := fs]> (addr_tree t ∪ used));
  pd_coal : forall off sz, addr_tree t !! off = Some sz -> addr_tree t !! (off + sz) = None;
}.

Lemma pending_start size t used off sz :
  pool_inv size t used -> used !! off = Some sz -> pending size t off sz (delete off used).
Proof.
  intros [] Hu. assert (Hn : addr_tree t !! off = None) by (by eapply map_disjoint_Some_r).
  split; try done.
  - split; [done|apply lookup_delete_eq].
  - by apply map_disjoint_delete_r.
  - by rewrite insert_union_r, insert_delete_eq, insert_id by done.
Qed.

Lemma pending_prev size t po ps fs used :
  pending size t (po + ps) fs used -> addr_tree t !! po = Some ps ->
  pending size (erase_range t po ps) po (ps + fs) used.
Proof.
  intros [] Hp. destruct pd_fresh0 as [Hf1 Hf2].
  assert (Hu : used !! po = None) by (by eapply map_disjoint_Some_l).
  assert (Hne : po <> po + ps) by (intros E; rewrite <- E in Hf1; congruence).
  split; simpl; [done|by apply agree_erase| | | |].
  - split; [apply lookup_delete_eq|done].
  - by apply map_disjoint_delete_l.
  - replace (delete po (addr_tree t) ∪ used) with (delete po (addr_tree t ∪ used))
      by (by rewrite delete_union, (delete_id used)).
    rewrite insert_delete_eq. pose proof (tiling_join size _ po ps fs pd_tile0) as HJ.
    rewrite delete_insert_id in HJ by (by apply lookup_union_None). apply HJ.
    + rewrite lookup_insert_ne, lookup_union_l by done. done.
    + by rewrite lookup_insert_eq.
  - intros o s. rewrite lookup_delete_Some, lookup_delete_None. intros [_ Ho]. eauto.
Qed.

Lemma pending_next size t fo fs ns used :
  pending size t fo fs used -> addr_tree t !! (fo + fs) = Some ns ->
  pending size (erase_range t (fo + fs) ns) fo (fs + ns) used.
Proof.
  intros [] Hp. destruct pd_fresh0 as [Hf1 Hf2].
  assert (Hu : used !! (fo + fs) = None) by (by eapply map_disjoint_Some_l).
  assert (Hne : fo <> fo + fs) by (intros E; rewrite <- E in Hp; congruence).
  split; simpl; [done|by apply agree_erase| | | |].
  - split; [by rewrite lookup_delete_ne by done|done].
  - by apply map_disjoint_delete_l.
  - replace (delete (fo + fs) (addr_tree t) ∪ used) with (delete (fo + fs) (addr_tree t ∪ used))
      by (by rewrite delete_union, (delete_id used)).
    pose proof (tiling_join size _ fo fs ns pd_tile0) as HJ.
    rewrite delete_insert_ne, insert_insert_eq in HJ by done. apply HJ.
    + by rewrite lookup_insert_eq.
    + by rewrite lookup_insert_ne, lookup_union_l by done.
  - intros o s. rewrite lookup_delete_Some, lookup_delete_None. intros [_ Ho]. eauto.
Qed.

Lemma pending_finish size t fo fs used :
  pending size t fo fs used -> addr_tree t !! (fo + fs) = None ->
  (forall o s, addr_tree t !! o = Some s -> o + s <> fo) ->
  pool_inv size (emplace_range t fo fs) used.
Proof.
  intros [] Hn Hp. destruct pd_fresh0 as [Hf1 Hf2].
  split; [done|by apply agree_emplace|..]; simpl; rewrite map_emplace_fresh by done.
  - by apply map_disjoint_insert_l.
  - by rewrite <- insert_union_l.
  - intros o s. rewrite lookup_insert_Some, lookup_insert_None.
    pose proof pd_tile0 as (_ & Hr & _). destruct (Hr fo fs) as (_ & ? & _); [by rewrite lookup_insert_eq|].
    intros [[<- <-]|[Hne Ho]]; [split; [done|lia]|]. split; [eauto|]. intros E. by apply (Hp o s).
Qed.

Section give.
Context (size : Z) (used : gmap Z Z).

Lemma pending_range t fo fs : pending size t fo fs used -> 0 <= fo /\ 0 < fs /\ fo + fs <= size.
Proof. intros []. destruct pd_tile0 as (_ & Hr & _). apply Hr. by rewrite lookup_insert_eq. Qed.

Lemma pending_all t fo fs o s :
  pending size t fo fs used -> addr_tree t !! o = Some s -> <[fo := fs]> (addr_tree t ∪ used) !! o = Some s.
Proof.
  intros [] Ho. rewrite lookup_insert_ne by (intros ->; destruct pd_fresh0; congruence).
  by rewrite lookup_union_l by (by eapply map_disjoint_Some_l).
Qed.

(** Only the idle range just below the returned one can end where it starts. *)
Lemma prev_only t fo fs p o s :
  pending size t fo fs used -> map_prev (addr_tree t) fo = Some p ->
  addr_tree t !! o = Some s -> o + s = fo -> p = (o, s).
Proof.
  intros HP Hp%map_prev_Some Ho E. destruct p as [k v], Hp as (Hk & Hlt & Hmax). simpl in *.
  pose proof (pending_all t fo fs _ _ HP Ho) as A1. pose proof (pending_all t fo fs _ _ HP Hk) as A2.
  pose proof (pd_tile _ _ _ _ _ HP) as (_ & Hr & _ & Hd).
  destruct (Hr _ _ A1) as (_ & ? & _). pose proof (Hmax o ltac:(by eexists) ltac:(lia)).
  assert (o = k) as -> by (pose proof (Hd _ _ k A1 ltac:(by eexists)); lia). congruence.
Qed.

Lemma merge_prev_pending t off sz fo fs t1 :
  pending size t off sz used -> merge_prev t off sz = (fo, fs, t1) ->
  pending size t1 fo fs used /\ fo + fs = off + sz /\
  (forall o s, addr_tree t1 !! o = Some s -> o + s <> fo).
Proof.
  intros HP. pose proof (pending_range _ _ _ HP) as Hr. pose proof (pd_size _ _ _ _ _ HP) as Hsz.
  unfold merge_prev. destruct (map_prev (addr_tree t) off) as [[po ps]|] eqn:Ep.
  - pose proof (map_prev_Some _ _ _ Ep) as (Hp & Hlt & _). simpl in *.
    pose proof (pending_all t off sz _ _ HP Hp) as Ha. pose proof (pd_tile _ _ _ _ _ HP) as (_ & Hrg & _ & _).
    destruct (Hrg _ _ Ha) as (? & ? & ?). unwrap.
    destruct (Z.eqb_spec (po + ps) off) as [<-|Hne]; intros [= <- <- <-].
    + unwrap. replace (sz + ps) with (ps + sz) by lia. split_and!; [by apply pending_prev|lia|].
      intros o s. simpl. rewrite lookup_delete_Some. intros [Hne Ho] E.
      pose proof (pd_coal _ _ _ _ _ HP o s Ho). congruence.
    + split_and!; [done|done|]. intros o s Ho E.
      pose proof (prev_only _ _ _ _ _ _ HP Ep Ho E). congruence.
  - intros [= <- <- <-]. split_and!; [done|done|]. intros o s Ho E.
    pose proof (map_prev_None _ _ Ep o ltac:(by eexists)). pose proof (pending_all _ _ _ _ _ HP Ho) as Ha.
    pose proof (pd_tile _ _ _ _ _ HP) as (_ & Hrg & _ & _). destruct (Hrg _ _ Ha). lia.
Qed.

Lemma give_range_inv t off sz :
  pending size t off sz used -> pool_inv size (give_range t off sz) used.
Proof.
  intros HP. pose proof (pending_range _ _ _ HP) as Hr. pose proof (pd_size _ _ _ _ _ HP) as Hsz.
  unfold give_range. destruct (merge_prev t off sz) as [[fo fs] t1] eqn:E1.
  destruct (merge_prev_pending _ _ _ _ _ _ HP E1) as (HP1 & Ee & Hno).
  pose proof (pending_range _ _ _ HP1) as Hr1. unwrap. rewrite <- Ee.
  unfold merge_next. destruct (addr_tree t1 !! (fo + fs)) as [ns|] eqn:En; [|by apply pending_finish].
  pose proof (pending_next _ _ _ _ _ _ HP1 En) as HP2. pose proof (pending_range _ _ _ HP2) as Hr2.
  assert (Hns : 0 < ns).
  { pose proof (pending_all _ _ _ _ _ HP1 En) as Ha. pose proof (pd_tile _ _ _ _ _ HP1) as (_ & Hrg & _).
    apply (Hrg _ _ Ha). }
  unwrap. apply pending_finish; [done|..]; simpl.
  - rewrite lookup_delete_ne by lia. replace (fo + (fs + ns)) with (fo + fs + ns) by lia.
    by apply (pd_coal _ _ _ _ _ HP1).
  - intros o s. rewrite lookup_delete_Some. intros [_ Ho]. eauto.
Qed.
End give.

(** A used range that is given back becomes idle, whatever its neighbours. *)
Lemma give_used_inv size t used off sz :
  pool_inv size t used -> used !! off = Some sz ->
  pool_inv size (give_range t off sz) (delete off used).
Proof. intros Hinv Hu. by apply give_range_inv, pending_start. Qed.

(** ** Idle space *)
Section idle.
Context (size : Z) (t : Trees) (used : gmap Z Z) (Hinv : pool_inv size t used).

Definition covered (m : gmap Z Z) (x : Z) : Prop :=
  exists off sz, m !! off = Some sz /\ off <= x < off + sz.

(** Every byte of the pool is idle or used, and never both. *)
Lemma idle_or_used x :
  0 <= x < size -> (covered (addr_tree t) x \/ covered used x) /\
                   ~ (covered (addr_tree t) x /\ covered used x).
Proof.
  intros Hx. split.
  - destruct (tiling_covers size _ x (pi_tile _ _ _ Hinv) Hx) as (off & sz & Ha & Hin).
    apply lookup_union_Some in Ha as [Ha|Ha]; [| |apply Hinv]; [left|right]; by exists off, sz.
  - intros [(o1 & s1 & H1 & Hx1) (o2 & s2 & H2 & Hx2)].
    pose proof (tiling_disjoint size _ o1 s1 o2 s2 x (pi_tile _ _ _ Hinv)
      (idle_all _ _ _ Hinv _ _ H1) (used_all _ _ _ Hinv _ _ H2) Hx1 Hx2) as ->.
    pose proof (map_disjoint_Some_l _ _ _ _ (pi_disj _ _ _ Hinv) H1). congruence.
Qed.

(** Every byte of the pool is in exactly one range. *)
Lemma one_range x :
  0 <= x < size -> exists! r : bool * Z * Z,
    (if r.1.1 then addr_tree t else used) !! r.1.2 = Some r.2 /\ r.1.2 <= x < r.1.2 + r.2.
Proof.
  intros Hx. destruct (tiling_covers size _ x (pi_tile _ _ _ Hinv) Hx) as (off & sz & Ha & Hin).
  assert (Huniq : forall b o s, (if b : bool then addr_tree t else used) !! o = Some s -> o <= x < o + s -> off = o /\ sz = s).
  { intros b o s Ho Hox. assert (Ho' : (addr_tree t ∪ used) !! o = Some s) by (destruct b; [by apply (idle_all _ _ _ Hinv)|by apply (used_all _ _ _ Hinv)]).
    pose proof (tiling_disjoint size _ off sz o s x (pi_tile _ _ _ Hinv) Ha Ho' Hin Hox) as ->. split; congruence. }
  assert (Hb : exists b : bool, (if b then addr_tree t else used) !! off = Some sz).
  { apply lookup_union_Some in Ha as [Ha|Ha]; [by exists true|by exists false|apply Hinv]. }
  destruct Hb as [b Hb]. exists (b, off, sz). split; [done|]. intros [[b' o] s] [Ho Hox]. cbn [fst snd] in *.
  destruct (Huniq b' o s Ho Hox) as [<- <-]. do 2 f_equal.
  destruct b, b'; try done; pose proof (pi_disj _ _ _ Hinv) as Hd; exfalso;
    [pose proof (map_disjoint_Some_l _ _ _ _ Hd Hb)|pose proof (map_disjoint_Some_l _ _ _ _ Hd Ho)]; congruence.
Qed.

Lemma used_disjoint o1 s1 o2 s2 x :
  used !! o1 = Some s1 -> used !! o2 = Some s2 ->
  o1 <= x < o1 + s1 -> o2 <= x < o2 + s2 -> o1 = o2.
Proof.
  intros H1 H2. eapply tiling_disjoint; [apply Hinv|by eapply used_all|by eapply used_all].
Qed.
End idle.

(** When nothing is used the idle ranges have merged into the initial one. *)
Lemma all_given_back size t : pool_inv size t ∅ -> t = init_trees size.
Proof.
  intros [Hsz Ha _ Ht Hc]. rewrite (right_id_L ∅ (∪)) in Ht. destruct Ht as ([s0 H0] & Hr & Hn & Hd).
  assert (s0 = size) as ->.
  { destruct (Hn _ _ H0) as [|[s1 H1]]; [lia|]. pose proof (Hc _ _ H0). congruence. }
  assert (Hm : addr_tree t = {[0 := size]}).
  { apply map_eq. intros k. destruct (decide (k = 0)) as [->|Hne]; [by rewrite lookup_singleton_eq|].
    rewrite lookup_singleton_ne by done. destruct (addr_tree t !! k) as [s|] eqn:E; [|done]. exfalso.
    destruct (Hr _ _ E). pose proof (Hd _ _ k H0 ltac:(by eexists)). lia. }
  destruct t as [m st]. simpl in *. subst m. unfold init_trees. f_equal. apply set_eq. intros [s o].
  rewrite (Ha o s). simpl. rewrite lookup_singleton_Some, elem_of_singleton. naive_solver.
Qed.

(** ** Alignment *)
Section aligned.
Context (al : Z).
Definition offsets_aligned (m : gmap Z Z) : Prop := forall off, is_Some (m !! off) -> (al | off).

Lemma init_aligned size : offsets_aligned (addr_tree (init_trees size)).
Proof. intros off. simpl. rewrite lookup_singleton_is_Some. intros <-. apply Z.divide_0_r. Qed.

Lemma erase_aligned t o s : offsets_aligned (addr_tree t) -> offsets_aligned (addr_tree (erase_range t o s)).
Proof. intros H off. simpl. rewrite lookup_delete_is_Some. intros [_ ?]. auto. Qed.

Lemma emplace_aligned t o s :
  offsets_aligned (addr_tree t) -> (al | o) -> offsets_aligned (addr_tree (emplace_range t o s)).
Proof.
  intros H Ho off. simpl. unfold map_emplace. destruct (addr_tree t !! o) eqn:E; [auto|].
  rewrite lookup_insert_is_Some'. intros [<-|?]; auto.
Qed.

Lemma take_aligned size t used a off t' :
  pool_inv size t used -> 0 < a -> (al | a) -> offsets_aligned (addr_tree t) ->
  take_range t a = Some (off, t') -> (al | off) /\ offsets_aligned (addr_tree t').
Proof.
  intros Hinv Ha Hd Ho Ht. destruct (take_range_target _ _ _ Hinv _ _ _ Ht) as (sz & Hs & Hle & _ & ->).
  pose proof (all_range _ _ _ Hinv _ _ (idle_all _ _ _ Hinv _ _ Hs)). pose proof (pi_size _ _ _ Hinv).
  assert (Hoff : (al | off)) by (apply Ho; by eexists). split; [done|].
  destruct (a <? sz); [|by apply erase_aligned].
  apply emplace_aligned; [by apply erase_aligned|]. unwrap. by apply Z.divide_add_r.
Qed.

Lemma give_aligned t off sz :
  offsets_aligned (addr_tree t) -> (al | off) -> offsets_aligned (addr_tree (give_range t off sz)).
Proof.
  intros Ho Hoff. unfold give_range.
  destruct (merge_prev t off sz) as [[fo fs] t1] eqn:E1.
  assert (Hp : (al | fo) /\ offsets_aligned (addr_tree t1)).
  { revert E1. unfold merge_prev. destruct (map_prev (addr_tree t) off) as [[po ps]|] eqn:Ep; [|by intros [= <- _ <-]].
    apply map_prev_Some in Ep as (Hp & _). case_match; intros [= <- _ <-]; [|done].
    split; [apply Ho; by eexists|by apply erase_aligned]. }
  unfold merge_next. destruct (addr_tree t1 !! _); (apply emplace_aligned; [|tauto]);
    [apply erase_aligned|]; tauto.
Qed.
End aligned.

(** ** The idle ranges are determined by the used ones *)
Section unique.
Context (size : Z) (used : gmap Z Z).

Lemma idle_start t t' off sz :
  pool_inv size t used -> pool_inv size t' used ->
  addr_tree t !! off = Some sz -> exists sz', addr_tree t' !! off = Some sz'.
Proof.
  intros Hi Hi' Ho. pose proof (idle_all _ _ _ Hi _ _ Ho) as Ha.
  pose proof (all_range _ _ _ Hi _ _ Ha) as Hr.
  destruct (idle_or_used _ _ _ Hi off ltac:(lia)) as [_ Hx].
  destruct (idle_or_used _ _ _ Hi' off ltac:(lia)) as [[(o' & s' & Ho' & Hin')|Hu] _].
  2: { destruct Hx. split; [|done]. exists off, sz. split; [done|lia]. }
  destruct (decide (o' = off)) as [->|Hne]; [by eexists|exfalso].
  pose proof (all_range _ _ _ Hi' _ _ (idle_all _ _ _ Hi' _ _ Ho')) as Hr'.
  destruct (idle_or_used _ _ _ Hi' (off - 1) ltac:(lia)) as [_ Hx'].
  destruct (idle_or_used _ _ _ Hi (off - 1) ltac:(lia)) as [[(o1 & s1 & Ho1 & Hin1)|Hu] _].
  2: { destruct Hx'. split; [|done]. exists o', s'. split; [done|lia]. }
  pose proof (all_apart _ _ _ Hi _ _ off (idle_all _ _ _ Hi _ _ Ho1) ltac:(by eexists)).
  pose proof (pi_coal _ _ _ Hi _ _ Ho1) as Hc. replace (o1 + s1) with off in Hc by lia. congruence.
Qed.

Lemma idle_size t t' off sz sz' :
  pool_inv size t used -> pool_inv size t' used ->
  addr_tree t !! off = Some sz -> addr_tree t' !! off = Some sz' -> sz <= sz'.
Proof.
  intros Hi Hi' Ho Ho'. destruct (Z.le_gt_cases sz sz') as [|Hlt]; [done|exfalso].
  pose proof (all_range _ _ _ Hi _ _ (idle_all _ _ _ Hi _ _ Ho)) as Hr.
  pose proof (idle_all _ _ _ Hi' _ _ Ho') as Ha'.
  pose proof (all_range _ _ _ Hi' _ _ Ha') as Hr'.
  destruct (idle_or_used _ _ _ Hi (off + sz') ltac:(lia)) as [_ Hx].
  destruct (idle_or_used _ _ _ Hi' (off + sz') ltac:(lia)) as [[(o2 & s2 & Ho2 & Hin2)|Hu] _].
  2: { destruct Hx. split; [|done]. exists off, sz. split; [done|lia]. }
  pose proof (pi_coal _ _ _ Hi' _ _ Ho') as Hc.
  destruct (Z.lt_total o2 (off + sz')) as [Hl|[->|Hl]]; [|congruence|lia].
  destruct (Z.lt_total o2 off) as [Hl2|[->|Hl2]].
  - pose proof (all_apart _ _ _ Hi' _ _ off (idle_all _ _ _ Hi' _ _ Ho2) ltac:(by eexists)). lia.
  - assert (s2 = sz') by congruence. lia.
  - pose proof (idle_all _ _ _ Hi' _ _ Ho2) as Ha2.
    pose proof (all_apart _ _ _ Hi' _ _ o2 Ha' ltac:(by eexists)). lia.
Qed.

Lemma pool_canonical t t' : pool_inv size t used -> pool_inv size t' used -> t = t'.
Proof.
  intros Hi Hi'. assert (Hm : addr_tree t = addr_tree t').
  { apply map_eq. intros k. destruct (addr_tree t !! k) as [s|] eqn:E.
    - destruct (idle_start _ _ _ _ Hi Hi' E) as [s' E']. rewrite E'. f_equal.
      pose proof (idle_size _ _ _ _ _ Hi Hi' E E'). pose proof (idle_size _ _ _ _ _ Hi' Hi E' E). lia.
    - destruct (addr_tree t' !! k) as [s'|] eqn:E'; [|done].
      destruct (idle_start _ _ _ _ Hi' Hi E') as [s ?]. congruence. }
  destruct t as [m st], t' as [m' st']. simpl in *. subst m'. f_equal. apply set_eq. intros [s o].
  by rewrite (pi_agree _ _ _ Hi o s), (pi_agree _ _ _ Hi' o s).
Qed.
End unique.
