(* ===== verification/MemManager.v ===== *)
(** * AccOffloadMemManager: the host memory pool of the offload entries

    Model of [allocator/acc_offload_mem_manager.h].  Addresses are integers, [nullptr] is
    0.  The two idle trees are a [Trees]; the used tree is a finite map. *)
From stdpp Require Import gmap.
From S2P Require Import Prelude RangeTree.

Record AccOffloadMemManager := mkMM {
  mm_base : Z; mm_size : Z; mm_idle : Trees; addressUsedTree_ : gmap Z Z;
}.

Definition new_mem_manager (base size : Z) : AccOffloadMemManager :=
  mkMM base size (init_trees size) ∅.

Definition AllocatedSizeAlignUp (inputSize : Z) : Z := align_up64 inputSize 16.

Definition Allocate (mm : AccOffloadMemManager) (size : Z) : Z * AccOffloadMemManager :=
  if (size =? 0) || (mm_size mm <? size) || (mm_base mm =? 0) then (0, mm)
  else
    let aligned_size := AllocatedSizeAlignUp size in
    match take_range (mm_idle mm) aligned_size with
    | None => (0, mm)
    | Some (targetOffset, idle) =>
        (mm_base mm + targetOffset,
         mkMM (mm_base mm) (mm_size mm) idle
           (map_emplace targetOffset aligned_size (addressUsedTree_ mm)))
    end.

Definition Release (mm : AccOffloadMemManager) (address : Z) : Z * AccOffloadMemManager :=
  if (address <? mm_base mm) || (mm_base mm + mm_size mm <=? address) then (-1, mm)
  else
    let offset := address - mm_base mm in
    match addressUsedTree_ mm !! offset with
    | None => (-1, mm)
    | Some size =>
        (0, mkMM (mm_base mm) (mm_size mm) (give_range (mm_idle mm) offset size)
              (delete offset (addressUsedTree_ mm)))
    end.

(** A call of the pool's interface, and a sequence of them. *)
Inductive mm_call := CallAllocate (size : Z) | CallRelease (address : Z).
Definition mm_run (mm : AccOffloadMemManager) (call : mm_call) : Z * AccOffloadMemManager :=
  match call with CallAllocate size => Allocate mm size | CallRelease a => Release mm a end.
Definition mm_runs (mm : AccOffloadMemManager) (calls : list mm_call) : AccOffloadMemManager :=
  foldl (fun mm call => (mm_run mm call).2) mm calls.

(** ** Invariant *)
Record mm_inv (mm : AccOffloadMemManager) : Prop := {
  mi_base : 0 < mm_base mm /\ mm_base mm + mm_size mm < 18446744073709551616;
  mi_room : mm_size mm + 15 < 18446744073709551616;
  mi_pool : pool_inv (mm_size mm) (mm_idle mm) (addressUsedTree_ mm);
  mi_idle : offsets_aligned 16 (addr_tree (mm_idle mm));
  mi_used : forall off sz, addressUsedTree_ mm !! off = Some sz -> (16 | off) /\ (16 | sz);
}.

Definition call_ok (call : mm_call) : Prop :=
  match call with CallAllocate size => 0 <= size | CallRelease _ => True end.

Lemma new_mem_manager_inv base size :
  0 < base -> 0 < size -> base + size < 18446744073709551616 -> size + 15 < 18446744073709551616 ->
  mm_inv (new_mem_manager base size).
Proof.
  intros. split; simpl; [done|done|apply init_trees_inv; lia|apply init_aligned|].
  intros off sz. by rewrite lookup_empty.
Qed.

Section laws.
Context (mm : AccOffloadMemManager) (Hinv : mm_inv mm).

(** The three outcomes of a well-formed request. *)
Lemma Allocate_cases size :
  0 <= size ->
  (Allocate mm size = (0, mm) /\
   (size = 0 \/ mm_size mm < size \/
    forall off sz, addr_tree (mm_idle mm) !! off = Some sz -> sz < AllocatedSizeAlignUp size)) \/
  (exists off idle, 0 < size <= mm_size mm /\
     take_range (mm_idle mm) (AllocatedSizeAlignUp size) = Some (off, idle) /\
     Allocate mm size = (mm_base mm + off,
       mkMM (mm_base mm) (mm_size mm) idle (<[off := AllocatedSizeAlignUp size]> (addressUsedTree_ mm)))).
Proof.
  intros Hs. destruct Hinv as [[Hb _] Hroom Hp _ _]. unfold Allocate.
  destruct (_ || _) eqn:E; [left; split; [done|]; lia|].
  destruct (take_range _ _) as [[off idle]|] eqn:Et.
  - right. exists off, idle. split_and!; [lia|lia|done|]. rewrite map_emplace_fresh; [done|].
    destruct (take_range_target _ _ _ Hp _ _ _ Et) as (sz & Ho & _).
    eapply map_disjoint_Some_l; [apply Hp|done].
  - left. split; [done|]. right; right. by eapply take_range_None.
Qed.

Lemma aligned_size size :
  0 < size <= mm_size mm ->
  size <= AllocatedSizeAlignUp size < size + 16 /\ (16 | AllocatedSizeAlignUp size).
Proof.
  intros Hs. destruct Hinv as [_ Hroom _ _ _]. unfold AllocatedSizeAlignUp.
  change 16 with (2 ^ 4). apply align_up64_spec; change (2 ^ 4) with 16; lia.
Qed.

Lemma Allocate_inv size : 0 <= size -> mm_inv (Allocate mm size).2.
Proof.
  intros Hs. destruct (Allocate_cases size Hs) as [[-> _]|(off & idle & Hsz & Et & ->)]; [done|].
  destruct (aligned_size size Hsz) as [Ha Hd]. destruct Hinv as [Hb Hroom Hp Hi Hu].
  destruct (take_aligned 16 _ _ _ (AllocatedSizeAlignUp size) off idle Hp ltac:(lia) Hd Hi Et) as [Ho Hi'].
  split; simpl; [done|done|apply (take_range_inv _ (mm_idle mm)); [done|lia|done]|done|].
  intros o s. rewrite lookup_insert_Some. intros [[<- <-]|[_ ?]]; [done|by apply Hu].
Qed.

Lemma Release_cases address :
  (Release mm address = (-1, mm) /\ addressUsedTree_ mm !! (address - mm_base mm) = None) \/
  (exists sz, addressUsedTree_ mm !! (address - mm_base mm) = Some sz /\
     Release mm address = (0, mkMM (mm_base mm) (mm_size mm)
       (give_range (mm_idle mm) (address - mm_base mm) sz)
       (delete (address - mm_base mm) (addressUsedTree_ mm)))).
Proof.
  unfold Release. destruct (addressUsedTree_ mm !! (address - mm_base mm)) as [sz|] eqn:E.
  - right. exists sz. split; [done|].
    pose proof (all_range _ _ _ (mi_pool _ Hinv) _ _ (used_all _ _ _ (mi_pool _ Hinv) _ _ E)).
    by replace (_ || _) with false by lia.
  - left. split; [|done]. by destruct (_ || _).
Qed.

Lemma Release_inv address : mm_inv (Release mm address).2.
Proof.
  destruct (Release_cases address) as [[-> _]|(sz & Hs & ->)]; [done|].
  destruct Hinv as [Hb Hroom Hp Hi Hu]. split; simpl; [done|done|by apply give_used_inv| |].
  - apply give_aligned; [done|]. by apply (Hu _ _ Hs).
  - intros o s. rewrite lookup_delete_Some. intros [_ ?]. by apply Hu.
Qed.
End laws.

Lemma mm_runs_inv mm calls : mm_inv mm -> Forall call_ok calls -> mm_inv (mm_runs mm calls).
Proof.
  revert mm. induction calls as [|call calls IH]; intros mm Hinv Hok; [done|].
  inversion Hok; subst. apply IH; [|done].
  destruct call; [by apply Allocate_inv|by apply Release_inv].
Qed.

Lemma mm_run_fields mm call :
  mm_base (mm_run mm call).2 = mm_base mm /\ mm_size (mm_run mm call).2 = mm_size mm.
Proof.
  destruct call; simpl; unfold Allocate, Release; repeat case_match; done.
Qed.

Lemma mm_runs_fields mm calls :
  mm_base (mm_runs mm calls) = mm_base mm /\ mm_size (mm_runs mm calls) = mm_size mm.
Proof.
  revert mm. induction calls as [|call calls IH]; intros mm; [done|].
  destruct (IH (mm_run mm call).2) as [E1 E2], (mm_run_fields mm call) as [F1 F2].
  cbn [mm_runs foldl] in *. unfold mm_runs in *. split; congruence.
Qed.

(** ** What a client sees *)
Section client.
Context (mm : AccOffloadMemManager) (Hinv : mm_inv mm).

(** The live block at [p]. *)
Definition live (mm : AccOffloadMemManager) (p sz : Z) : Prop :=
  addressUsedTree_ mm !! (p - mm_base mm) = Some sz.

Lemma Allocate_success size p mm' :
  0 <= size -> Allocate mm size = (p, mm') -> p <> 0 ->
  let n := AllocatedSizeAlignUp size in
  size <= n /\ mm_base mm <= p /\ p + n <= mm_base mm + mm_size mm /\ (16 | p - mm_base mm) /\
  (forall q sz, live mm q sz -> p + n <= q \/ q + sz <= p) /\
  (forall q sz, live mm' q sz <-> (q = p /\ sz = n) \/ live mm q sz).
Proof.
  intros Hs HA Hp n. pose proof (mi_pool _ Hinv) as Hpool.
  destruct (Allocate_cases mm Hinv size Hs) as [[E _]|(off & idle & Hsz & Et & E)]; rewrite E in HA;
    simplify_eq.
  destruct (aligned_size mm Hinv size Hsz) as [Ha Hd]. fold n in Ha, Hd, Et.
  pose proof (take_range_inv _ _ _ Hpool n off idle ltac:(lia) Et) as Hnew.
  destruct (take_range_target _ _ _ Hpool _ _ _ Et) as (sz0 & Ho & _).
  assert (Hfresh : addressUsedTree_ mm !! off = None).
  { eapply map_disjoint_Some_l; [apply Hpool|done]. }
  assert (Hoff : (<[off := n]> (addressUsedTree_ mm)) !! off = Some n) by (by rewrite lookup_insert_eq).
  pose proof (used_all _ _ _ Hnew _ _ Hoff) as Hall. pose proof (all_range _ _ _ Hnew _ _ Hall).
  replace (mm_base mm + off - mm_base mm) with off by lia. split_and!; [lia..| | |].
  - exact (proj1 (take_aligned 16 _ _ _ n off idle Hpool ltac:(lia) Hd (mi_idle _ Hinv) Et)).
  - intros q sz Hq. unfold live in Hq.
    assert (Hne : off <> q - mm_base mm) by congruence.
    assert (Hq' : (<[off := n]> (addressUsedTree_ mm)) !! (q - mm_base mm) = Some sz)
      by (by rewrite lookup_insert_ne).
    pose proof (used_all _ _ _ Hnew _ _ Hq') as Hallq.
    destruct (Z.lt_total off (q - mm_base mm)) as [|[|]]; [|done|].
    + pose proof (all_apart _ _ _ Hnew _ _ _ Hall ltac:(by eexists) ltac:(done)). lia.
    + pose proof (all_apart _ _ _ Hnew _ _ off Hallq ltac:(by eexists) ltac:(lia)). lia.
  - intros q sz. unfold live. simpl. rewrite lookup_insert_Some. split.
    + intros [[? ?]|[? ?]]; [left; lia|auto].
    + intros [[-> ->]|Hq]; [left; lia|]. right. split; [congruence|done].
Qed.

(** The pool refuses only when no idle range is large enough. *)
Lemma Allocate_failure size mm' :
  0 < size <= mm_size mm -> Allocate mm size = (0, mm') ->
  mm' = mm /\ forall off sz, addr_tree (mm_idle mm) !! off = Some sz -> sz < AllocatedSizeAlignUp size.
Proof.
  intros Hs HA. destruct (Allocate_cases mm Hinv size ltac:(lia)) as [[E Hc]|(off & idle & _ & Et & E)].
  - rewrite E in HA. simplify_eq. split; [done|]. destruct Hc as [?|[?|?]]; [lia|lia|done].
  - rewrite E in HA. simplify_eq. pose proof (mi_base _ Hinv).
    destruct (take_range_target _ _ _ (mi_pool _ Hinv) _ _ _ Et) as (sz & Ho & _).
    pose proof (all_range _ _ _ (mi_pool _ Hinv) _ _ (idle_all _ _ _ (mi_pool _ Hinv) _ _ Ho)). lia.
Qed.

(** Freeing what was just allocated restores the manager. *)
Lemma Allocate_Release size p mm' :
  0 <= size -> Allocate mm size = (p, mm') -> p <> 0 -> Release mm' p = (0, mm).
Proof.
  intros Hs HA Hp. pose proof (Allocate_inv mm Hinv size Hs) as Hinv'. rewrite HA in Hinv'. simpl in Hinv'.
  destruct (Allocate_cases mm Hinv size Hs) as [[E _]|(off & idle & Hsz & Et & E)]; rewrite E in HA;
    simplify_eq.
  pose proof (Release_inv _ Hinv' (mm_base mm + off)) as Hinv2.
  destruct (take_range_target _ _ _ (mi_pool _ Hinv) _ _ _ Et) as (sz0 & Ho & _).
  assert (Hfresh : addressUsedTree_ mm !! off = None).
  { eapply map_disjoint_Some_l; [apply (mi_pool _ Hinv)|done]. }
  destruct (Release_cases _ Hinv' (mm_base mm + off)) as [[_ Hn]|(sz & _ & E2)]; simpl in *;
    replace (mm_base mm + off - mm_base mm) with off in * by lia.
  { by rewrite lookup_insert_eq in Hn. }
  rewrite E2 in Hinv2 |- *. simpl in Hinv2. rewrite delete_insert_id in Hinv2 |- * by done.
  f_equal. pose proof (pool_canonical _ _ _ _ (mi_pool _ Hinv2) (mi_pool _ Hinv)) as Ec. simpl in Ec.
  rewrite Ec. by destruct mm.
Qed.
End client.
