(* ===== verification/RangePool.v ===== *)
(** * RbtreeRangePool: the range allocator of the hybrid memory manager

    Model of [hybm/csrc/common/hybm_rbtree_range_pool.cpp] and of the owning handle
    [AllocatedElement] of [hybm_space_allocator.h].  The spin lock makes every operation
    atomic; the pool does not record the ranges it hands out, so the invariant carries
    them as a ghost map. *)
From stdpp Require Import gmap.
From S2P Require Import Prelude RangeTree.

Record RbtreeRangePool := mkPool { baseAddress : Z; totalSize : Z; pool_trees : Trees }.

Definition new_pool (address size : Z) : RbtreeRangePool := mkPool address size (init_trees size).

(** [allocator] is the owning pool or [nullptr]. *)
Record AllocatedElement := mkElem { startAddress : Z; elem_size : Z; allocator : bool }.
Definition null_elem : AllocatedElement := mkElem 0 0 false.

Definition AllocateSizeAlignUp (inputSize : Z) : Z := align_up64 inputSize 4096.

Definition CanAllocate (pool : RbtreeRangePool) (size : Z) : bool :=
  match set_lower_bound (size_tree (pool_trees pool)) (AllocateSizeAlignUp size, 0) with
  | Some _ => true | None => false
  end.

Definition PoolAllocate (pool : RbtreeRangePool) (size : Z) : AllocatedElement * RbtreeRangePool :=
  let alignedSize := AllocateSizeAlignUp size in
  match set_lower_bound (size_tree (pool_trees pool)) (alignedSize, 0) with
  | None => (null_elem, pool)
  | Some _ =>
      if baseAddress pool =? 0 then (null_elem, pool)
      else match take_range (pool_trees pool) alignedSize with
           | None => (null_elem, pool)
           | Some (targetOffset, trees) =>
               (mkElem (baseAddress pool + targetOffset) size true,
                mkPool (baseAddress pool) (totalSize pool) trees)
           end
  end.

Definition PoolRelease (pool : RbtreeRangePool) (element : AllocatedElement) : bool * RbtreeRangePool :=
  let alignedSize := AllocateSizeAlignUp (elem_size element) in
  let elemAddr := startAddress element in
  if (baseAddress pool =? 0) || (elemAddr =? 0) then (false, pool)
  else if (elemAddr <? baseAddress pool) || (baseAddress pool + totalSize pool <=? elemAddr) then (false, pool)
  else (true, mkPool (baseAddress pool) (totalSize pool)
                (give_range (pool_trees pool) (elemAddr - baseAddress pool) alignedSize)).

(** The destructor, the move constructor and the move assignment of the handle. *)
Definition destroy_elem (pool : RbtreeRangePool) (element : AllocatedElement) : RbtreeRangePool :=
  if allocator element then (PoolRelease pool element).2 else pool.
Definition move_elem (another : AllocatedElement) : AllocatedElement * AllocatedElement :=
  (another, null_elem).
Definition move_assign_elem (this another : AllocatedElement) : AllocatedElement * AllocatedElement :=
  (another, null_elem).

(** ** Invariant, with the live ranges [used] as ghost state *)
Record rp_inv (pool : RbtreeRangePool) (used : gmap Z Z) : Prop := {
  ri_base : 0 < baseAddress pool /\ baseAddress pool + totalSize pool < 18446744073709551616;
  ri_pool : pool_inv (totalSize pool) (pool_trees pool) used;
  ri_idle : offsets_aligned 4096 (addr_tree (pool_trees pool));
}.

(** The element owns the range [off] of the pool. *)
Definition owns (pool : RbtreeRangePool) (e : AllocatedElement) (off : Z) (used : gmap Z Z) : Prop :=
  allocator e = true /\ startAddress e = baseAddress pool + off /\
  used !! off = Some (AllocateSizeAlignUp (elem_size e)).

Lemma new_pool_inv base size :
  0 < base -> 0 < size -> base + size < 18446744073709551616 -> rp_inv (new_pool base size) ∅.
Proof. intros. split; simpl; [done|apply init_trees_inv; lia|apply init_aligned]. Qed.

Section laws.
Context (pool : RbtreeRangePool) (used : gmap Z Z) (Hinv : rp_inv pool used).

Lemma pool_aligned size :
  0 < size -> size + 4095 < 18446744073709551616 ->
  size <= AllocateSizeAlignUp size < size + 4096 /\ (4096 | AllocateSizeAlignUp size).
Proof.
  intros Hs Hb. unfold AllocateSizeAlignUp. change 4096 with (2 ^ 12).
  apply align_up64_spec; change (2 ^ 12) with 4096; lia.
Qed.

(** [CanAllocate] predicts [Allocate]. *)
Lemma PoolAllocate_cases size :
  (CanAllocate pool size = false /\ PoolAllocate pool size = (null_elem, pool)) \/
  (CanAllocate pool size = true /\ exists off trees,
     take_range (pool_trees pool) (AllocateSizeAlignUp size) = Some (off, trees) /\
     PoolAllocate pool size = (mkElem (baseAddress pool + off) size true,
                               mkPool (baseAddress pool) (totalSize pool) trees)).
Proof.
  destruct Hinv as [[Hb _] Hp _]. unfold CanAllocate, PoolAllocate.
  destruct (set_lower_bound _ _) as [[sz off]|] eqn:E; [right|by left].
  replace (baseAddress pool =? 0) with false by lia. split; [done|].
  destruct (take_range _ _) as [[o t']|] eqn:Et; [by exists o, t'|]. exfalso.
  unfold take_range in Et. rewrite E in Et. apply set_lower_bound_Some in E as (Hin & _).
  apply (pi_agree _ _ _ Hp) in Hin. by rewrite Hin in Et.
Qed.

Lemma PoolAllocate_inv size e pool' :
  0 < size -> size + 4095 < 18446744073709551616 ->
  PoolAllocate pool size = (e, pool') -> allocator e = true ->
  exists off, let used' := <[off := AllocateSizeAlignUp size]> used in
    used !! off = None /\ owns pool' e off used' /\ rp_inv pool' used' /\ (4096 | off) /\ elem_size e = size.
Proof.
  intros Hs Hb HA Ha. destruct (pool_aligned size Hs Hb) as [Hsz Hd].
  destruct (PoolAllocate_cases size) as [[_ E]|(_ & off & t' & Et & E)]; rewrite E in HA; simplify_eq.
  destruct Hinv as [Hbase Hp Hi]. set (n := AllocateSizeAlignUp size) in *.
  destruct (take_aligned 4096 _ _ _ n off t' Hp ltac:(lia) Hd Hi Et) as [Ho Hi'].
  exists off. split_and!; [| |split|done|done]; simpl.
  - destruct (take_range_target _ _ _ Hp _ _ _ Et) as (sz & Hoff & _).
    eapply map_disjoint_Some_l; [apply Hp|done].
  - split_and!; simpl; [done|done|]. by rewrite lookup_insert_eq.
  - done.
  - apply (take_range_inv _ (pool_trees pool)); [done|lia|done].
  - done.
Qed.

Lemma PoolRelease_inv e off :
  owns pool e off used -> (4096 | off) ->
  exists pool', PoolRelease pool e = (true, pool') /\ destroy_elem pool e = pool' /\
    rp_inv pool' (delete off used).
Proof.
  intros (Ha & Hs & Hu) Hd. destruct Hinv as [Hbase Hp Hi].
  pose proof (all_range _ _ _ Hp _ _ (used_all _ _ _ Hp _ _ Hu)) as Hr.
  unfold destroy_elem. rewrite Ha. unfold PoolRelease. rewrite Hs.
  replace (_ || _) with false by lia. replace (_ || _) with false by lia.
  replace (baseAddress pool + off - baseAddress pool) with off by lia.
  eexists. split_and!; [done|done|]. split; simpl; [done|by apply give_used_inv|by apply give_aligned].
Qed.
End laws.

(** Two elements of a pool never share a byte. *)
Lemma owned_disjoint pool used e1 e2 off1 off2 x :
  rp_inv pool used -> owns pool e1 off1 used -> owns pool e2 off2 used ->
  startAddress e1 <= x < startAddress e1 + AllocateSizeAlignUp (elem_size e1) ->
  startAddress e2 <= x < startAddress e2 + AllocateSizeAlignUp (elem_size e2) -> off1 = off2.
Proof.
  intros [_ Hp _] (_ & S1 & U1) (_ & S2 & U2) H1 H2.
  eapply (used_disjoint _ _ _ Hp _ _ _ _ (x - baseAddress pool) U1 U2); lia.
Qed.

(** ** A client: elements are allocated and destroyed in any order *)
Inductive rp_step : RbtreeRangePool * list AllocatedElement ->
                    RbtreeRangePool * list AllocatedElement -> Prop :=
  | rp_alloc pool es size e pool' :
      0 < size -> size + 4095 < 18446744073709551616 -> PoolAllocate pool size = (e, pool') ->
      rp_step (pool, es) (pool', if allocator e then e :: es else es)
  | rp_destroy pool es1 e es2 : rp_step (pool, es1 ++ e :: es2) (destroy_elem pool e, es1 ++ es2).

Definition elem_range (base : Z) (e : AllocatedElement) : Z * Z :=
  (startAddress e - base, AllocateSizeAlignUp (elem_size e)).

(** The live ranges are those of the elements. *)
Record rp_state_inv (base size : Z) (st : RbtreeRangePool * list AllocatedElement) : Prop := {
  rs_base : baseAddress st.1 = base; rs_total : totalSize st.1 = size;
  rs_inv : rp_inv st.1 (list_to_map (elem_range base <$> st.2));
  rs_nodup : NoDup ((elem_range base <$> st.2).*1);
  rs_elems : Forall (fun e => allocator e = true /\ (4096 | startAddress e - base)) st.2;
}.

Lemma PoolAllocate_fields pool size e pool' :
  PoolAllocate pool size = (e, pool') ->
  baseAddress pool' = baseAddress pool /\ totalSize pool' = totalSize pool /\
  (allocator e = false -> pool' = pool).
Proof.
  unfold PoolAllocate. intros H. repeat case_match; by simplify_eq.
Qed.

Lemma rp_step_inv base size st st' :
  rp_state_inv base size st -> rp_step st st' -> rp_state_inv base size st'.
Proof.
  intros [Hb Ht Hinv Hnd Hel] Hstep. destruct Hstep as [pool es n e pool' Hn Hb64 HA|pool es1 e es2]; simpl in *.
  - destruct (PoolAllocate_fields _ _ _ _ HA) as (Eb & Et & En). destruct (allocator e) eqn:Ea.
    + destruct (PoolAllocate_inv pool _ Hinv n e pool' Hn Hb64 HA Ea)
        as (off & Hfresh & (_ & Es & _) & Hinv' & Hd & Esz).
      assert (Er : elem_range base e = (off, AllocateSizeAlignUp n)).
      { unfold elem_range. rewrite Es, Esz, Eb, Hb. f_equal. lia. }
      split; cbn [fst snd]; [congruence|congruence|by rewrite fmap_cons, Er| |].
      * rewrite fmap_cons, Er. constructor; [|done]. by apply not_elem_of_list_to_map_2.
      * constructor; [|done]. split; [done|]. rewrite Es, Eb, Hb. by replace (base + off - base) with off by lia.
    + rewrite (En eq_refl). by split.
  - assert (Hp : elem_range base <$> es1 ++ e :: es2 ≡ₚ elem_range base e :: (elem_range base <$> es1 ++ es2)).
    { rewrite !fmap_app, fmap_cons. by rewrite Permutation_middle. }
    assert (Hel' : Forall (fun e => allocator e = true /\ (4096 | startAddress e - base)) (e :: es1 ++ es2)).
    { by rewrite Permutation_middle. }
    inversion Hel' as [|? ? [Ha Hd] Hrest]; subst.
    assert (Hnd' : NoDup (elem_range (baseAddress pool) e :: (elem_range (baseAddress pool) <$> es1 ++ es2)).*1).
    { by rewrite <- Hp. }
    rewrite (list_to_map_proper _ _ Hnd Hp) in Hinv. inversion Hnd' as [|? ? Hni Hnd2]; subst.
    simpl in Hinv.
    destruct (PoolRelease_inv pool _ Hinv e (startAddress e - baseAddress pool)) as (pool' & ER & -> & Hinv').
    + split_and!; [done|lia|]. by rewrite lookup_insert_eq.
    + done.
    + rewrite delete_insert_id in Hinv' by (by apply not_elem_of_list_to_map_1).
      assert (Hf : baseAddress pool' = baseAddress pool /\ totalSize pool' = totalSize pool).
      { unfold PoolRelease in ER. repeat case_match; by simplify_eq. }
      destruct Hf as [F1 F2]. by split.
Qed.

Lemma rp_reachable_inv base size pool es :
  0 < base -> 0 < size -> base + size < 18446744073709551616 ->
  rtc rp_step (new_pool base size, []) (pool, es) -> rp_state_inv base size (pool, es).
Proof.
  intros Hb Hs H64 Hrtc. apply (rtc_ind_r (R := rp_step) (rp_state_inv base size) (new_pool base size, [])); [| |exact Hrtc].
  - split; simpl; [done|done|by apply new_pool_inv|constructor|constructor].
  - intros st st' _ Hstep HI. by eapply rp_step_inv.
Qed.
