(* ===== verification/VaManager.v ===== *)
(** * VaManager: virtual addresses of the hybrid memory

    Model of [hybm/csrc/mm/hybm_va_manager.{h,cpp}].  The manager keeps, for each of the
    three kinds of address (global, device, host), the allocated ranges and the reserved
    ranges, ordered by start address.  The mutex makes every operation atomic.  Addresses
    and sizes are 64-bit integers; sums wrap as in the code. *)
From stdpp Require Import gmap sorting.
From S2P Require Import Prelude RangeTree.

Inductive HybmVaMgrType := HVM_GVA | HVM_DVA | HVM_HVA.
#[global] Instance va_type_eq_dec : EqDecision HybmVaMgrType.
Proof. solve_decision. Defined.

Definition HVM_BUTT : Z := 3.
Definition all_types : list HybmVaMgrType := [HVM_GVA; HVM_DVA; HVM_HVA].
(** A [uint32_t] type argument below [HVM_BUTT]. *)
Definition va_type (t : Z) : option HybmVaMgrType :=
  if t =? 0 then Some HVM_GVA else if t =? 1 then Some HVM_DVA else if t =? 2 then Some HVM_HVA else None.

(** The arrays indexed by an address kind. *)
Record PerType (A : Type) := mkPer { on_gva : A; on_dva : A; on_hva : A }.
Arguments mkPer {A}. Arguments on_gva {A}. Arguments on_dva {A}. Arguments on_hva {A}.
Definition per_get {A} (p : PerType A) (t : HybmVaMgrType) : A :=
  match t with HVM_GVA => on_gva p | HVM_DVA => on_dva p | HVM_HVA => on_hva p end.
Definition per_set {A} (p : PerType A) (t : HybmVaMgrType) (a : A) : PerType A :=
  match t with
  | HVM_GVA => mkPer a (on_dva p) (on_hva p)
  | HVM_DVA => mkPer (on_gva p) a (on_hva p)
  | HVM_HVA => mkPer (on_gva p) (on_dva p) a
  end.

Lemma per_get_set {A} (p : PerType A) t t' a :
  per_get (per_set p t a) t' = if decide (t = t') then a else per_get p t'.
Proof. by destruct t, t'. Qed.

Definition HYBM_MEM_TYPE_DEVICE : Z := 1.
Definition HYBM_MEM_TYPE_HOST : Z := 2.
Definition HYBM_MEM_TYPE_BUTT : Z := 3.
Definition INVALID_RANK_ID : Z := 0xffffffff.
Definition BM_OK : Z := 0.
Definition BM_ERROR : Z := -1.
Definition BM_INVALID_PARAM : Z := -2.

Inductive AscendSocType := ASCEND_UNKNOWN | ASCEND_910B | ASCEND_910C | ASCEND_950.
#[global] Instance soc_eq_dec : EqDecision AscendSocType.
Proof. solve_decision. Defined.

Record ReservedGvaInfo := mkReserved {
  r_va : PerType Z; r_size : Z; r_memType : Z; r_localRankId : Z;
}.
Definition no_reserved : ReservedGvaInfo := mkReserved (mkPer 0 0 0) 0 HYBM_MEM_TYPE_BUTT 0.

Record BaseAllocatedGvaInfo := mkBase { b_va : PerType Z; b_size : Z; b_memType : Z }.
Record AllocatedGvaInfo := mkAlloc { a_base : BaseAllocatedGvaInfo; localRankId : Z; importedRankId : Z }.
Definition no_alloc : AllocatedGvaInfo :=
  mkAlloc (mkBase (mkPer 0 0 0) 0 HYBM_MEM_TYPE_DEVICE) INVALID_RANK_ID INVALID_RANK_ID.

Definition a_va (info : AllocatedGvaInfo) (t : HybmVaMgrType) : Z := per_get (b_va (a_base info)) t.
Definition a_size (info : AllocatedGvaInfo) : Z := b_size (a_base info).

Definition Contains (info : AllocatedGvaInfo) (addr : Z) (t : HybmVaMgrType) : bool :=
  (a_va info t <=? addr) && (addr <? u64 (a_va info t + a_size info)).
Definition RankId (info : AllocatedGvaInfo) : Z :=
  if negb (importedRankId info =? INVALID_RANK_ID) then importedRankId info else localRankId info.
Definition info_eqb (lhs rhs : AllocatedGvaInfo) : bool :=
  (a_va lhs HVM_GVA =? a_va rhs HVM_GVA) && (a_va lhs HVM_DVA =? a_va rhs HVM_DVA) &&
  (a_va lhs HVM_HVA =? a_va rhs HVM_HVA) && (a_size lhs =? a_size rhs) && (RankId lhs =? RankId rhs).

(** ** Ordered maps: the element after the upper bound of [k], and the one before it *)
Definition map_after {A} (m : gmap Z A) (k : Z) : option (Z * A) :=
  best (fun a b : Z * A => a.1 <? b.1) (filter (fun kv : Z * A => k < kv.1) (map_to_list m)).
Definition map_upto {A} (m : gmap Z A) (k : Z) : option (Z * A) :=
  best (fun a b : Z * A => b.1 <? a.1) (filter (fun kv : Z * A => kv.1 <= k) (map_to_list m)).
(** [it = upper_bound(k); if (it != begin()) --it;] on a map that is not empty. *)
Definition map_near {A} (m : gmap Z A) (k : Z) : option (Z * A) :=
  match map_upto m k with Some kv => Some kv | None => map_after m k end.

Record HybmVaManager := mkVm {
  soc_ : AscendSocType;
  allocatedMap_ : PerType (gmap Z AllocatedGvaInfo);
  reservedMap_ : PerType (gmap Z ReservedGvaInfo);
}.
Definition vm_init : HybmVaManager := mkVm ASCEND_UNKNOWN (mkPer ∅ ∅ ∅) (mkPer ∅ ∅ ∅).

(** The build for Ascend NPUs. *)
Definition VmInitialize (vm : HybmVaManager) (socType : AscendSocType) : Z * HybmVaManager :=
  if bool_decide (socType = ASCEND_UNKNOWN) then (BM_INVALID_PARAM, vm)
  else (BM_OK, mkVm socType (allocatedMap_ vm) (reservedMap_ vm)).

(** ** Allocated ranges *)
Definition alloc_of (vm : HybmVaManager) (t : HybmVaMgrType) : gmap Z AllocatedGvaInfo := per_get (allocatedMap_ vm) t.
Definition set_alloc (vm : HybmVaManager) (t : HybmVaMgrType) (m : gmap Z AllocatedGvaInfo) : HybmVaManager :=
  mkVm (soc_ vm) (per_set (allocatedMap_ vm) t m) (reservedMap_ vm).

Definition meets (st ed va end_ : Z) : bool :=
  ((st <=? va) && (va <? ed)) || ((va <=? st) && (st <? end_)).

Definition CheckOverlap (vm : HybmVaManager) (va size : Z) (t : HybmVaMgrType) : bool * AllocatedGvaInfo :=
  let end_ := u64 (va + size) in
  let hit kv := match kv with
    | Some (st, info) => if meets st (u64 (a_size info + st)) va end_ then Some info else None
    | None => None
    end in
  match hit (map_after (alloc_of vm t) va) with
  | Some info => (true, info)
  | None => match hit (map_upto (alloc_of vm t) va) with
            | Some info => (true, info)
            | None => (false, no_alloc)
            end
  end.

(** The kinds [AddVaInfo] works on. *)
Definition add_types (info : AllocatedGvaInfo) (onlyGva : bool) : list HybmVaMgrType :=
  filter (fun t => (onlyGva = false \/ t = HVM_GVA) /\ a_va info t <> 0) all_types.

Definition AddVaInfo (vm : HybmVaManager) (info : AllocatedGvaInfo) (onlyGva : bool) : Z * HybmVaManager :=
  if a_size info =? 0 then (BM_OK, vm)
  else if HYBM_MEM_TYPE_BUTT <=? b_memType (a_base info) then (BM_ERROR, vm)
  else if existsb (fun t => let '(found, old) := CheckOverlap vm (a_va info t) (a_size info) t in
                            found && negb (info_eqb old info)) (add_types info onlyGva)
  then (BM_ERROR, vm)
  else (BM_OK, foldl (fun vm t => set_alloc vm t (<[a_va info t := info]> (alloc_of vm t))) vm
                 (add_types info onlyGva)).

Definition AddVaInfoLocal (vm : HybmVaManager) (baseInfo : BaseAllocatedGvaInfo) (localRank : Z)
  (onlyGva : bool) : Z * HybmVaManager :=
  AddVaInfo vm (mkAlloc baseInfo localRank INVALID_RANK_ID) onlyGva.
Definition AddVaInfoFromExternal (vm : HybmVaManager) (baseInfo : BaseAllocatedGvaInfo)
  (localRank importedRank : Z) : Z * HybmVaManager :=
  AddVaInfo vm (mkAlloc baseInfo localRank importedRank) false.

(** The loop body that removes the view of kind [i] of an entry found under kind [t]. *)
Definition remove_view (info : AllocatedGvaInfo) (t : HybmVaMgrType) (vm : HybmVaManager) (i : HybmVaMgrType)
  : HybmVaManager :=
  if bool_decide (i = t) then vm else
  match alloc_of vm i !! a_va info i with
  | Some other => if a_va other i =? a_va info i
                  then set_alloc vm i (delete (a_va info i) (alloc_of vm i)) else vm
  | None => vm
  end.

Definition RemoveOneVaInfo (vm : HybmVaManager) (va type : Z) : HybmVaManager :=
  match va_type type with
  | None => vm
  | Some t =>
      if va =? 0 then vm else
      match alloc_of vm t !! va with
      | None => vm
      | Some info =>
          let vm := foldl (remove_view info t) vm all_types in
          set_alloc vm t (delete va (alloc_of vm t))
      end
  end.

Definition TransformVa (vm : HybmVaManager) (va inputType outputType : Z) : Z :=
  match va_type inputType, va_type outputType with
  | Some i, Some o =>
      if va =? 0 then 0
      else if bool_decide (i = o) then va
      else match map_upto (alloc_of vm i) va with
           | Some (_, info) =>
               if Contains info va i && negb (a_va info o =? 0)
               then u64 (a_va info o + u64 (va - a_va info i)) else 0
           | None => 0
           end
  | _, _ => 0
  end.

Definition FindAllocByVa (vm : HybmVaManager) (va : Z) (t : HybmVaMgrType) : AllocatedGvaInfo * bool :=
  match map_near (alloc_of vm t) va with
  | Some (_, info) => if Contains info va t then (info, true) else (no_alloc, false)
  | None => (no_alloc, false)
  end.

Definition GetGvaMemType (vm : HybmVaManager) (va : Z) : Z :=
  match map_near (alloc_of vm HVM_GVA) va with
  | Some (_, info) => if Contains info va HVM_GVA then b_memType (a_base info) else HYBM_MEM_TYPE_BUTT
  | None => HYBM_MEM_TYPE_BUTT
  end.

Definition GetRank (vm : HybmVaManager) (gva : Z) : Z * bool :=
  if gva =? 0 then (0, false)
  else match map_near (alloc_of vm HVM_GVA) gva with
       | Some (_, info) => if Contains info gva HVM_GVA then (RankId info, true) else (0, false)
       | None => (0, false)
       end.

Definition IsValidAddr (vm : HybmVaManager) (va : Z) : bool :=
  existsb (fun t => match map_near (alloc_of vm t) va with
                    | Some (_, info) => Contains info va t
                    | None => false
                    end) all_types.

(** *** Copy directions *)
Definition HYBM_DEVICE_VA_START : Z := 0x100000000000.
Definition HYBM_DEVICE_VA_SIZE : Z := 0x80000000000.

Inductive AddressCategory := GLOBAL_DEVICE | GLOBAL_HOST | LOCAL_DEVICE | LOCAL_HOST.
Definition HYBM_DATA_COPY_DIRECTION_BUTT : Z := 13.

Definition COPY_DIRECTION_TABLE (src dst : AddressCategory) : Z :=
  match src, dst with
  | GLOBAL_DEVICE, GLOBAL_DEVICE => 9 | GLOBAL_DEVICE, GLOBAL_HOST => 8
  | GLOBAL_DEVICE, LOCAL_DEVICE => 11 | GLOBAL_DEVICE, LOCAL_HOST => 10
  | GLOBAL_HOST, GLOBAL_DEVICE => 5 | GLOBAL_HOST, GLOBAL_HOST => 4
  | GLOBAL_HOST, LOCAL_DEVICE => 7 | GLOBAL_HOST, LOCAL_HOST => 6
  | LOCAL_DEVICE, GLOBAL_DEVICE => 3 | LOCAL_DEVICE, GLOBAL_HOST => 2
  | LOCAL_HOST, GLOBAL_DEVICE => 1 | LOCAL_HOST, GLOBAL_HOST => 0
  | _, _ => HYBM_DATA_COPY_DIRECTION_BUTT
  end.

Definition ClassifyAddress (vm : HybmVaManager) (va : Z) : AddressCategory :=
  let gvaType := GetGvaMemType vm va in
  if gvaType =? HYBM_MEM_TYPE_DEVICE then GLOBAL_DEVICE
  else if gvaType =? HYBM_MEM_TYPE_HOST then GLOBAL_HOST
  else if (HYBM_DEVICE_VA_START <=? va) && (va <? HYBM_DEVICE_VA_START + HYBM_DEVICE_VA_SIZE)
  then LOCAL_DEVICE else LOCAL_HOST.

Definition InferCopyDirection (vm : HybmVaManager) (srcVa dstVa : Z) : Z :=
  COPY_DIRECTION_TABLE (ClassifyAddress vm srcVa) (ClassifyAddress vm dstVa).

(** ** Reserved ranges *)
Definition HYBM_GVM_MAX_POOL_SIZE : Z := Z.shiftl 128 40.
Definition HYBM_GVM_START_ADDR : Z := 0x280040000000.
Definition HYBM_GVM_END_ADDR : Z := HYBM_GVM_START_ADDR + HYBM_GVM_MAX_POOL_SIZE.
Definition HYBM_GVM_START_ADDR_A5 : Z := 0x340000000000.
Definition HYBM_GVM_END_ADDR_A5 : Z := HYBM_GVM_START_ADDR_A5 + HYBM_GVM_MAX_POOL_SIZE.
Definition HYBM_56BITS_GVA_START_ADDR : Z := Z.shiftl 64 50.
Definition HYBM_56BITS_GVA_END_ADDR : Z := Z.shiftl 128 50.
Definition HYBM_TRANS_GVA_START_ADDR : Z := Z.shiftl 1 60.
Definition HYBM_TRANS_GVA_END_ADDR : Z := Z.shiftl 1 61.

Definition reserved_of (vm : HybmVaManager) (t : HybmVaMgrType) : gmap Z ReservedGvaInfo := per_get (reservedMap_ vm) t.
Definition set_reserved (vm : HybmVaManager) (t : HybmVaMgrType) (m : gmap Z ReservedGvaInfo) : HybmVaManager :=
  mkVm (soc_ vm) (allocatedMap_ vm) (per_set (reservedMap_ vm) t m).

(** [std::pair]'s order. *)
Definition pair_le (a b : Z * Z) : Prop := a.1 < b.1 \/ (a.1 = b.1 /\ a.2 <= b.2).
#[global] Instance pair_le_dec : RelDecision pair_le.
Proof. intros a b. unfold pair_le. apply _. Defined.

(** The used ranges that start in the window, in order. *)
Definition used_ranges (vm : HybmVaManager) (start end_ : Z) (t : HybmVaMgrType) : list (Z * Z) :=
  merge_sort pair_le
    ((fun kv : Z * ReservedGvaInfo => (per_get (r_va kv.2) t, u64 (per_get (r_va kv.2) t + r_size kv.2))) <$>
       filter (fun kv : Z * ReservedGvaInfo => start <= per_get (r_va kv.2) t < end_)
         (map_to_list (reserved_of vm t))).

(** The scan for the first gap: the gap, or where the last used range ends. *)
Fixpoint first_gap (size current : Z) (used : list (Z * Z)) : Z * bool :=
  match used with
  | [] => (current, false)
  | range :: used =>
      if (current <? range.1) && (size <=? range.1 - current) then (current, true)
      else first_gap size (if current <? range.2 then range.2 else current) used
  end.

Definition FindFreeSpace (vm : HybmVaManager) (start end_ size : Z) (t : HybmVaMgrType) : Z * bool :=
  if (size =? 0) || (end_ <=? start) || (end_ - start <? size) then (0, false)
  else match used_ranges vm start end_ t with
       | [] => (start, true)
       | used =>
           let '(current, found) := first_gap size start used in
           if found then (current, true)
           else if (current <=? end_) && (size <=? end_ - current) then (current, true) else (0, false)
       end.

(** The window device and host addresses are taken from. *)
Definition lva_window (vm : HybmVaManager) : Z * Z :=
  if bool_decide (soc_ vm = ASCEND_950) then (HYBM_GVM_START_ADDR_A5, HYBM_GVM_END_ADDR_A5)
  else (HYBM_GVM_START_ADDR, HYBM_GVM_END_ADDR).

Definition AllocReserveLvaInner (vm : HybmVaManager) (size : Z) (t : HybmVaMgrType) : Z :=
  if size =? 0 then 0 else
  let '(startAddr, endAddr) := lva_window vm in
  if endAddr - startAddr <? size then 0 else
  let '(freeAddr, found) := FindFreeSpace vm startAddr endAddr size t in
  if found then freeAddr else 0.

Definition AllocReserveLva (vm : HybmVaManager) (localRank size : Z) (t : HybmVaMgrType) (memType : Z)
  : ReservedGvaInfo * HybmVaManager :=
  if size =? 0 then (no_reserved, vm) else
  let lva := AllocReserveLvaInner vm size t in
  if lva =? 0 then (no_reserved, vm) else
  let result := mkReserved (per_set (mkPer 0 0 0) t lva) size memType localRank in
  (result, set_reserved vm t (<[lva := result]> (reserved_of vm t))).

(** The window a 56-bit global address is taken from. *)
Definition gva_window (isTrans : bool) : Z * Z :=
  if isTrans then (HYBM_TRANS_GVA_START_ADDR, HYBM_TRANS_GVA_END_ADDR)
  else (HYBM_56BITS_GVA_START_ADDR, HYBM_56BITS_GVA_END_ADDR).

Definition AllocReserveGva (vm : HybmVaManager) (localRank size localSize memType : Z)
  (enable56BitsGva isTrans : bool) : ReservedGvaInfo * HybmVaManager :=
  if size =? 0 then (no_reserved, vm)
  else if (localSize =? 0) && negb enable56BitsGva then (no_reserved, vm)
  else
    let lva := if 0 <? localSize then AllocReserveLvaInner vm localSize HVM_DVA else 0 in
    if (0 <? localSize) && (lva =? 0) then (no_reserved, vm)
    else
      let '(startAddr, endAddr) := gva_window isTrans in
      let gva :=
        if enable56BitsGva then
          if endAddr - startAddr <? size then None
          else let '(freeAddr, found) := FindFreeSpace vm startAddr endAddr size HVM_GVA in
               if found then Some freeAddr else None
        else Some lva in
      match gva with
      | None => (no_reserved, vm)
      | Some gva =>
          let result := mkReserved (mkPer gva lva 0) size memType localRank in
          let vm := set_reserved vm HVM_GVA (<[gva := result]> (reserved_of vm HVM_GVA)) in
          let lvaResult := mkReserved (mkPer gva lva 0) localSize memType localRank in
          (result, set_reserved vm HVM_DVA (<[lva := lvaResult]> (reserved_of vm HVM_DVA)))
      end.

Definition FreeReserveGva (vm : HybmVaManager) (addr : Z) : HybmVaManager :=
  if addr =? 0 then vm else
  match reserved_of vm HVM_GVA !! addr with
  | None => vm
  | Some info =>
      let t := if negb (per_get (r_va info) HVM_DVA =? 0) then HVM_DVA else HVM_HVA in
      let vm := set_reserved vm t (delete (per_get (r_va info) t) (reserved_of vm t)) in
      set_reserved vm HVM_GVA (delete addr (reserved_of vm HVM_GVA))
  end.

Definition FreeReserveLva (vm : HybmVaManager) (addr type : Z) : HybmVaManager :=
  match va_type type with
  | Some t =>
      if (addr =? 0) || bool_decide (t = HVM_GVA) then vm
      else match reserved_of vm t !! addr with
           | None => vm
           | Some _ => set_reserved vm t (delete addr (reserved_of vm t))
           end
  | None => vm
  end.

Definition GetAllocCount (vm : HybmVaManager) : nat := size (alloc_of vm HVM_GVA).
Definition GetReservedCount (vm : HybmVaManager) : nat := size (reserved_of vm HVM_GVA).
Definition ClearAll (vm : HybmVaManager) : HybmVaManager := mkVm (soc_ vm) (mkPer ∅ ∅ ∅) (mkPer ∅ ∅ ∅).
