(* ===== verification/VaManagerProof.v ===== *)
(** * Laws of the virtual address manager

    Allocated ranges of a kind never overlap and the three views of an allocation agree;
    the search for free space is sound and complete; reserved ranges never overlap. *)
From stdpp Require Import gmap sorting.
From S2P Require Import Prelude RangeTree VaManager.

(** ** Ordered maps *)
Section maps.
Context {A : Type} (m : gmap Z A).

Lemma map_after_Some k k' a :
  map_after m k = Some (k', a) ->
  m !! k' = Some a /\ k < k' /\ forall k2, is_Some (m !! k2) -> k < k2 -> k' <= k2.
Proof.
  intros Hb. apply best_Some in Hb as [Hin Hmin].
  - apply list_elem_of_filter in Hin as [Hk Hin]. apply elem_of_map_to_list in Hin. simpl in Hk.
    split_and!; [done|done|]. intros k2 [a2 H2] Hlt.
    specialize (Hmin (k2, a2)). simpl in Hmin. apply Z.ltb_ge, Hmin, list_elem_of_filter.
    split; [done|]. by apply elem_of_map_to_list.
  - intros x. apply Z.ltb_irrefl.
  - intros x y z. rewrite !Z.ltb_ge. lia.
  - intros x y. rewrite Z.ltb_lt, Z.ltb_ge. lia.
Qed.

Lemma map_after_None k k2 : map_after m k = None -> is_Some (m !! k2) -> k2 <= k.
Proof.
  intros Hb [a H2]. apply best_None in Hb. apply Z.nlt_ge. intros Hlt.
  assert (Hin : (k2, a) ∈ filter (fun kv : Z * A => k < kv.1) (map_to_list m)).
  { apply list_elem_of_filter. split; [done|]. by apply elem_of_map_to_list. }
  rewrite Hb in Hin. by apply not_elem_of_nil in Hin.
Qed.

Lemma map_upto_Some k k' a :
  map_upto m k = Some (k', a) ->
  m !! k' = Some a /\ k' <= k /\ forall k2, is_Some (m !! k2) -> k2 <= k -> k2 <= k'.
Proof.
  intros Hb. apply best_Some in Hb as [Hin Hmin].
  - apply list_elem_of_filter in Hin as [Hk Hin]. apply elem_of_map_to_list in Hin. simpl in Hk.
    split_and!; [done|done|]. intros k2 [a2 H2] Hlt.
    specialize (Hmin (k2, a2)). simpl in Hmin. apply Z.ltb_ge, Hmin, list_elem_of_filter.
    split; [done|]. by apply elem_of_map_to_list.
  - intros x. apply Z.ltb_irrefl.
  - intros x y z. rewrite !Z.ltb_ge. lia.
  - intros x y. rewrite Z.ltb_lt, Z.ltb_ge. lia.
Qed.

Lemma map_upto_None k k2 : map_upto m k = None -> is_Some (m !! k2) -> k < k2.
Proof.
  intros Hb [a H2]. apply best_None in Hb. apply Z.nle_gt. intros Hlt.
  assert (Hin : (k2, a) ∈ filter (fun kv : Z * A => kv.1 <= k) (map_to_list m)).
  { apply list_elem_of_filter. split; [done|]. by apply elem_of_map_to_list. }
  rewrite Hb in Hin. by apply not_elem_of_nil in Hin.
Qed.
End maps.

(** ** Allocated ranges of one kind *)
Section ranges.
Context (t : HybmVaMgrType).

Record ranges_ok (m : gmap Z AllocatedGvaInfo) : Prop := {
  ro_key : forall k info, m !! k = Some info -> a_va info t = k /\ 0 < k;
  ro_size : forall k info, m !! k = Some info -> 0 < a_size info /\ k + a_size info < 18446744073709551616;
  ro_apart : forall k info k', m !! k = Some info -> is_Some (m !! k') -> k < k' -> k + a_size info <= k';
}.

Lemma Contains_spec m k info addr :
  ranges_ok m -> m !! k = Some info ->
  Contains info addr t = true <-> k <= addr < k + a_size info.
Proof.
  intros Hok Hk. destruct (ro_key _ Hok _ _ Hk) as [Ek H0], (ro_size _ Hok _ _ Hk) as [Hs Hb].
  unfold Contains. rewrite Ek, u64_small by lia. lia.
Qed.

(** The range of [m] that holds [addr] is the one [map_upto] and [map_near] look at. *)
Lemma containing_upto m k info addr :
  ranges_ok m -> m !! k = Some info -> k <= addr < k + a_size info -> map_upto m addr = Some (k, info).
Proof.
  intros Hok Hk Hin. destruct (map_upto m addr) as [[k' info']|] eqn:E.
  - apply map_upto_Some in E as (H' & Hle & Hmax). specialize (Hmax k ltac:(by eexists) ltac:(lia)).
    destruct (Z.eq_dec k k') as [<-|Hne]; [congruence|].
    pose proof (ro_apart _ Hok _ _ k' Hk ltac:(by eexists) ltac:(lia)). lia.
  - pose proof (map_upto_None m addr k E ltac:(by eexists)). lia.
Qed.

Lemma near_contains m addr k info :
  ranges_ok m -> map_near m addr = Some (k, info) -> Contains info addr t = true ->
  m !! k = Some info /\ k <= addr < k + a_size info.
Proof.
  intros Hok Hn HC. unfold map_near in Hn.
  assert (Hk : m !! k = Some info).
  { destruct (map_upto m addr) as [kv|] eqn:E; [simplify_eq; by apply map_upto_Some in E as (? & _)|].
    by apply map_after_Some in Hn as (? & _). }
  split; [done|]. by apply (Contains_spec m).
Qed.

Lemma near_complete m addr :
  ranges_ok m ->
  match map_near m addr with
  | Some (_, info) => Contains info addr t = false
  | None => True
  end -> forall k info, m !! k = Some info -> ~ (k <= addr < k + a_size info).
Proof.
  intros Hok Hn k info Hk Hin. unfold map_near in Hn.
  rewrite (containing_upto m k info addr Hok Hk Hin) in Hn.
  apply (Contains_spec m k info addr Hok Hk) in Hin. congruence.
Qed.

(** Inserting a range that only meets its own key. *)
Lemma ranges_insert m info :
  ranges_ok m -> 0 < a_va info t -> 0 < a_size info -> a_va info t + a_size info < 18446744073709551616 ->
  (forall k old, m !! k = Some old -> k <> a_va info t ->
     k + a_size old <= a_va info t \/ a_va info t + a_size info <= k) ->
  ranges_ok (<[a_va info t := info]> m).
Proof.
  intros Hok Hv Hs Hb Hd. split.
  - intros k i. rewrite lookup_insert_Some. intros [[<- <-]|[_ Hk]]; [done|]. by apply (ro_key _ Hok).
  - intros k i. rewrite lookup_insert_Some. intros [[<- <-]|[_ Hk]]; [done|]. by apply (ro_size _ Hok).
  - intros k i k'. rewrite lookup_insert_Some, lookup_insert_is_Some'.
    intros [[<- <-]|[Hne Hk]] [<-|[o Ho]] Hlt; try lia.
    + destruct (Hd k' o Ho ltac:(lia)); [|done]. pose proof (ro_size _ Hok _ _ Ho). lia.
    + destruct (Hd k i Hk ltac:(lia)); [done|]. pose proof (ro_size _ Hok _ _ Hk). lia.
    + by apply (ro_apart _ Hok k i k').
Qed.

Lemma ranges_delete m k : ranges_ok m -> ranges_ok (delete k m).
Proof.
  intros Hok. split.
  - intros k' i [_ H]%lookup_delete_Some. by apply (ro_key _ Hok).
  - intros k' i [_ H]%lookup_delete_Some. by apply (ro_size _ Hok).
  - intros k' i k2 [_ H]%lookup_delete_Some [_ H2]%lookup_delete_is_Some. by apply (ro_apart _ Hok).
Qed.
End ranges.

Lemma info_eqb_same old info t :
  info_eqb old info = true -> a_va old t = a_va info t /\ a_size old = a_size info.
Proof. unfold info_eqb. rewrite !andb_true_iff, !Z.eqb_eq. destruct t; tauto. Qed.

(** ** Adding and removing an allocation *)
Section add.
Context (vm : HybmVaManager).

Lemma CheckOverlap_clear t info :
  ranges_ok t (alloc_of vm t) -> 0 < a_va info t -> 0 < a_size info ->
  a_va info t + a_size info < 18446744073709551616 ->
  (let '(found, old) := CheckOverlap vm (a_va info t) (a_size info) t in found && negb (info_eqb old info)) = false ->
  forall k old, alloc_of vm t !! k = Some old ->
    (k <> a_va info t -> k + a_size old <= a_va info t \/ a_va info t + a_size info <= k) /\
    (k = a_va info t -> info_eqb old info = true).
Proof.
  intros Hok Hv Hs Hb. unfold CheckOverlap. set (m := alloc_of vm t) in *. set (va := a_va info t) in *.
  rewrite (u64_small (va + a_size info)) by lia.
  assert (Hu : forall k o, m !! k = Some o -> u64 (a_size o + k) = k + a_size o).
  { intros k o Ho. destruct (ro_key _ _ Hok _ _ Ho), (ro_size _ _ Hok _ _ Ho). rewrite u64_small; lia. }
  (* keys above [va] *)
  assert (Habove : (forall k, is_Some (m !! k) -> va < k -> va + a_size info <= k) \/
                   exists st o, map_after m va = Some (st, o) /\ m !! st = Some o /\ va < st /\ st < va + a_size info).
  { destruct (map_after m va) as [[st o]|] eqn:E.
    - destruct (map_after_Some _ _ _ _ E) as (Ho & Hlt & Hmin).
      destruct (Z.lt_ge_cases st (va + a_size info)); [right; by exists st, o|left].
      intros k Hk Hvk. specialize (Hmin k Hk Hvk). lia.
    - left. intros k Hk Hvk. pose proof (map_after_None _ _ _ E Hk). lia. }
  destruct Habove as [Habove|(st & o & E & Ho & Hlt & Hend)].
  2: { rewrite E. unfold meets. rewrite (Hu _ _ Ho). replace (_ || _) with true by lia.
       intros Heq k old _. exfalso. destruct (info_eqb o info) eqn:Ee; [|done].
       destruct (info_eqb_same _ _ t Ee) as [Ea _]. destruct (ro_key _ _ Hok _ _ Ho). fold va in Ea. lia. }
  match goal with |- context [match ?x with Some info => (true, info) | None => _ end] =>
    assert (Hn : x = None) end.
  { destruct (map_after m va) as [[st o]|] eqn:E; [|done].
    destruct (map_after_Some _ _ _ _ E) as (Ho & Hlt & _). pose proof (Habove st ltac:(by eexists) Hlt).
    unfold meets. rewrite (Hu _ _ Ho). by replace (_ || _) with false by lia. }
  rewrite Hn. clear Hn. destruct (map_upto m va) as [[st o]|] eqn:E.
  - destruct (map_upto_Some _ _ _ _ E) as (Ho & Hle & Hmax). unfold meets. rewrite (Hu _ _ Ho).
    destruct (ro_size _ _ Hok _ _ Ho) as [Hso _].
    assert (Hbelow : forall k old, m !! k = Some old -> k < st -> k + a_size old <= va).
    { intros k old Hk Hlt. pose proof (ro_apart _ _ Hok _ _ st Hk ltac:(by eexists) Hlt). lia. }
    destruct (_ || _) eqn:Em.
    + intros Heq k old Hk. destruct (info_eqb o info) eqn:Ee; [|done].
      destruct (info_eqb_same _ _ t Ee) as [Ea _]. destruct (ro_key _ _ Hok _ _ Ho) as [Eo _]. fold va in Ea.
      split; [|intros ->; by replace old with o by congruence]. intros Hne.
      destruct (Z.lt_total k va) as [Hlt|[|Hgt]]; [left; apply (Hbelow k old Hk); lia|done|].
      right. apply Habove; [by eexists|done].
    + intros _ k old Hk. split; [|intros ->; specialize (Hmax va ltac:(by eexists) ltac:(lia)); exfalso; lia].
      intros Hne. destruct (Z.lt_ge_cases va k); [right; apply Habove; [by eexists|done]|left].
      specialize (Hmax k ltac:(by eexists) ltac:(lia)).
      destruct (Z.eq_dec k st) as [->|]; [|apply (Hbelow k old Hk); lia]. replace old with o by congruence. lia.
  - intros _ k old Hk. pose proof (map_upto_None _ _ _ E ltac:(by eexists)). split; [|lia].
    intros _. right. apply Habove; [by eexists|done].
Qed.
End add.

Definition info_wf (info : AllocatedGvaInfo) : Prop :=
  0 <= a_size info /\ forall t, 0 <= a_va info t /\ a_va info t + a_size info < 18446744073709551616.

(** The invariant of the allocated maps: no overlap, and the views of an entry agree. *)
Record va_inv (vm : HybmVaManager) : Prop := {
  vi_ranges : forall t, ranges_ok t (alloc_of vm t);
  vi_linked : forall t k info t', alloc_of vm t !! k = Some info -> a_va info t' <> 0 ->
    alloc_of vm t' !! a_va info t' = Some info;
}.

Lemma vm_init_inv : va_inv vm_init.
Proof. split; [intros []; split|intros []]; intros *; cbn; by rewrite lookup_empty. Qed.

Lemma alloc_set_alloc vm t m t' : alloc_of (set_alloc vm t m) t' = if decide (t = t') then m else alloc_of vm t'.
Proof. apply per_get_set. Qed.
Lemma reserved_set_alloc vm t m t' : reserved_of (set_alloc vm t m) t' = reserved_of vm t'.
Proof. done. Qed.
Lemma alloc_set_reserved vm t m t' : alloc_of (set_reserved vm t m) t' = alloc_of vm t'.
Proof. done. Qed.
Lemma reserved_set_reserved vm t m t' :
  reserved_of (set_reserved vm t m) t' = if decide (t = t') then m else reserved_of vm t'.
Proof. apply per_get_set. Qed.

Lemma add_fold_alloc info ts vm t :
  alloc_of (foldl (fun vm t => set_alloc vm t (<[a_va info t := info]> (alloc_of vm t))) vm ts) t =
  if decide (t ∈ ts) then <[a_va info t := info]> (alloc_of vm t) else alloc_of vm t.
Proof.
  revert vm. induction ts as [|t0 ts IH]; intros vm; [done|]. cbn [foldl]. rewrite IH, alloc_set_alloc.
  destruct (decide (t0 = t)) as [->|Hne].
  - rewrite (decide_True (P := t ∈ t :: ts)) by (by left). case_decide; [by rewrite insert_insert_eq|done].
  - assert (t ∈ t0 :: ts <-> t ∈ ts) as Hiff by (rewrite elem_of_cons; naive_solver).
    by rewrite (decide_ext _ _ _ _ Hiff).
Qed.

Lemma elem_of_all_types t : t ∈ all_types.
Proof. apply list_elem_of_In. destruct t; cbn; tauto. Qed.

Lemma elem_of_add_types info t : t ∈ add_types info false <-> a_va info t <> 0.
Proof.
  unfold add_types. rewrite list_elem_of_filter. pose proof (elem_of_all_types t). naive_solver.
Qed.

Section alloc.
Context (vm : HybmVaManager) (Hinv : va_inv vm).

(** What a call of [AddVaInfo] with all three views does. *)
Lemma AddVaInfo_cases info :
  info_wf info ->
  (AddVaInfo vm info false).2 = vm \/
  ((AddVaInfo vm info false).1 = BM_OK /\ 0 < a_size info /\
   (forall t, a_va info t <> 0 -> forall k old, alloc_of vm t !! k = Some old ->
      (k <> a_va info t -> k + a_size old <= a_va info t \/ a_va info t + a_size info <= k) /\
      (k = a_va info t -> info_eqb old info = true)) /\
   forall t, alloc_of (AddVaInfo vm info false).2 t =
     if decide (a_va info t <> 0) then <[a_va info t := info]> (alloc_of vm t) else alloc_of vm t).
Proof.
  intros [Hs Hv]. unfold AddVaInfo. destruct (Z.eqb_spec (a_size info) 0); [by left|].
  destruct (_ <=? _); [by left|]. destruct (existsb _ _) eqn:Ex; [by left|right]. cbn [fst snd].
  split_and!; [done|lia| |].
  - intros t Ht. specialize (Hv t). apply CheckOverlap_clear; [apply Hinv|lia|lia|lia|].
    apply not_true_is_false. intros Hc. apply not_true_iff_false in Ex. apply Ex, existsb_exists. exists t.
    split; [|exact Hc]. by apply list_elem_of_In, elem_of_add_types.
  - intros t. rewrite add_fold_alloc. by apply decide_ext, elem_of_add_types.
Qed.

Lemma AddVaInfo_inv info : info_wf info -> va_inv (AddVaInfo vm info false).2.
Proof.
  intros Hw. destruct (AddVaInfo_cases info Hw) as [->|(_ & Hs & Hc & Ha)]; [done|]. destruct Hw as [_ Hv]. split.
  - intros t. rewrite Ha. case_decide as Ht; [|apply Hinv]. specialize (Hv t).
    apply ranges_insert; [apply Hinv|lia|lia|lia|]. intros k old Hk. by apply (Hc t Ht k old).
  - intros t k i t' Hk Ht'. rewrite Ha in Hk. rewrite Ha.
    assert (Hcase : i = info \/ (alloc_of vm t !! k = Some i /\ (a_va info t <> 0 -> k <> a_va info t))).
    { case_decide; [|auto]. apply lookup_insert_Some in Hk as [[_ ->]|[? ?]]; auto. }
    destruct Hcase as [->|[Hk0 Hne]].
    + rewrite decide_True by done. by rewrite lookup_insert_eq.
    + pose proof (vi_linked _ Hinv _ _ _ t' Hk0 Ht') as Hl. destruct (decide (a_va info t' <> 0)) as [Hi|Hi]; [|exact Hl].
      rewrite lookup_insert_ne; [done|]. intros Eq. rewrite <- Eq in Hl.
      destruct (Hc t' Hi _ _ Hl) as [_ He]. specialize (He eq_refl).
      destruct (info_eqb_same _ _ t He) as [Et _]. destruct (ro_key _ _ (vi_ranges _ Hinv t) _ _ Hk0) as [Ek H0].
      apply Hne; lia.
Qed.

Lemma remove_view_alloc info t vm' i j :
  ranges_ok i (alloc_of vm' i) ->
  alloc_of (remove_view info t vm' i) j =
  if decide (i = j /\ i <> t) then delete (a_va info i) (alloc_of vm' i) else alloc_of vm' j.
Proof.
  intros Hok. unfold remove_view. case_bool_decide as E; [by rewrite decide_False by naive_solver|].
  destruct (alloc_of vm' i !! a_va info i) as [other|] eqn:El.
  - destruct (ro_key _ _ Hok _ _ El) as [-> _]. rewrite Z.eqb_refl, alloc_set_alloc.
    apply decide_ext. naive_solver.
  - case_decide as E'; [|done]. destruct E' as [<- _]. by rewrite delete_id.
Qed.

Lemma remove_views_alloc info t ts vm' j :
  (forall i, ranges_ok i (alloc_of vm' i)) ->
  alloc_of (foldl (remove_view info t) vm' ts) j =
  if decide (j ∈ ts /\ j <> t) then delete (a_va info j) (alloc_of vm' j) else alloc_of vm' j.
Proof.
  revert vm'. induction ts as [|i ts IH]; intros vm' Hr; cbn [foldl].
  { rewrite decide_False; [done|]. intros [[]%not_elem_of_nil _]. }
  rewrite IH.
  2: { intros i'. rewrite remove_view_alloc by done.
       destruct (decide (i = i' /\ i <> t)) as [[<- _]|_]; [by apply ranges_delete|apply Hr]. }
  rewrite remove_view_alloc by done. destruct (decide (i = j /\ i <> t)) as [[-> Hne]|Hn].
  - rewrite (decide_True (P := j ∈ j :: ts /\ j <> t)) by (split; [by left|done]).
    destruct (decide (j ∈ ts /\ j <> t)); [by rewrite delete_delete_eq|done].
  - apply decide_ext. rewrite elem_of_cons. naive_solver.
Qed.

(** The entry leaves all three maps. *)
Lemma RemoveOneVaInfo_alloc va type t info :
  va_type type = Some t -> alloc_of vm t !! va = Some info ->
  forall i k, alloc_of (RemoveOneVaInfo vm va type) i !! k =
              if decide (k = a_va info i) then None else alloc_of vm i !! k.
Proof.
  intros Et Hk. destruct (ro_key _ _ (vi_ranges _ Hinv t) _ _ Hk) as [Ek H0].
  assert (Hd : forall i, alloc_of (RemoveOneVaInfo vm va type) i = delete (a_va info i) (alloc_of vm i)).
  { intros i. unfold RemoveOneVaInfo. rewrite Et, Hk. rewrite (proj2 (Z.eqb_neq va 0)) by lia.
    rewrite alloc_set_alloc, !remove_views_alloc by apply Hinv. pose proof (elem_of_all_types i).
    destruct (decide (t = i)) as [<-|Hne]; [|by rewrite decide_True by done].
    rewrite decide_False by naive_solver. by rewrite Ek. }
  intros i k. rewrite Hd. case_decide as E; [subst; by rewrite lookup_delete_eq|].
  by rewrite lookup_delete_ne.
Qed.

Lemma RemoveOneVaInfo_inv va type : va_inv (RemoveOneVaInfo vm va type).
Proof.
  destruct (va_type type) as [t|] eqn:Et; [|unfold RemoveOneVaInfo; by rewrite Et].
  destruct (alloc_of vm t !! va) as [info|] eqn:Hk.
  2: { unfold RemoveOneVaInfo. rewrite Et, Hk. by destruct (va =? 0). }
  pose proof (RemoveOneVaInfo_alloc va type t info Et Hk) as Ha.
  assert (Hd : forall i, alloc_of (RemoveOneVaInfo vm va type) i = delete (a_va info i) (alloc_of vm i)).
  { intros i. apply map_eq. intros k. rewrite Ha. case_decide; [subst; by rewrite lookup_delete_eq|].
    by rewrite lookup_delete_ne. }
  split; [intros i; rewrite Hd; apply ranges_delete, Hinv|].
  intros i k e i' He Hne. rewrite Ha in He |- *. case_decide as Eki; [done|].
  pose proof (vi_linked _ Hinv _ _ _ i' He Hne) as Hl. case_decide as E'; [|done]. exfalso.
  assert (Hi : alloc_of vm i' !! a_va info i' = Some info) by (apply (vi_linked _ Hinv _ _ _ i' Hk); lia).
  rewrite <- E' in Hi. rewrite Hl in Hi. simplify_eq.
  destruct (ro_key _ _ (vi_ranges _ Hinv i) _ _ He). lia.
Qed.
End alloc.

(** ** Look-ups *)
Section lookups.
Context (vm : HybmVaManager) (Hinv : va_inv vm).

Lemma FindAllocByVa_spec va t :
  let '(info, found) := FindAllocByVa vm va t in
  if found then alloc_of vm t !! a_va info t = Some info /\ a_va info t <= va < a_va info t + a_size info
  else forall k info, alloc_of vm t !! k = Some info -> ~ (k <= va < k + a_size info).
Proof.
  pose proof (vi_ranges _ Hinv t) as Hok. unfold FindAllocByVa.
  destruct (map_near (alloc_of vm t) va) as [[k info]|] eqn:E.
  - destruct (Contains info va t) eqn:HC.
    + destruct (near_contains t _ _ _ _ Hok E HC) as [Hk Hin]. destruct (ro_key _ _ Hok _ _ Hk) as [-> _]. done.
    + apply (near_complete t _ _ Hok). by rewrite E.
  - apply (near_complete t _ _ Hok). by rewrite E.
Qed.

Lemma GetRank_spec va t info :
  t = HVM_GVA -> alloc_of vm t !! a_va info t = Some info -> a_va info t <= va < a_va info t + a_size info ->
  GetRank vm va = (RankId info, true) /\ GetGvaMemType vm va = b_memType (a_base info).
Proof.
  intros -> Hk Hin. pose proof (vi_ranges _ Hinv HVM_GVA) as Hok. unfold GetRank, GetGvaMemType, map_near.
  destruct (ro_key _ _ Hok _ _ Hk) as [_ H0]. rewrite (proj2 (Z.eqb_neq va 0)) by lia.
  rewrite (containing_upto _ _ _ _ _ Hok Hk Hin).
  by rewrite (proj2 (Contains_spec _ _ _ _ va Hok Hk) Hin).
Qed.

Lemma TransformVa_hit va it ot i o info :
  va_type it = Some i -> va_type ot = Some o -> i <> o ->
  alloc_of vm i !! a_va info i = Some info -> a_va info i <= va < a_va info i + a_size info -> a_va info o <> 0 ->
  TransformVa vm va it ot = a_va info o + (va - a_va info i).
Proof.
  intros Ei Eo Hne Hk Hin Ho. pose proof (vi_ranges _ Hinv i) as Hok. unfold TransformVa. rewrite Ei, Eo.
  destruct (ro_key _ _ Hok _ _ Hk) as [_ H0], (ro_size _ _ Hok _ _ Hk) as [Hs Hb].
  rewrite (proj2 (Z.eqb_neq va 0)) by lia. rewrite bool_decide_eq_false_2 by done.
  rewrite (containing_upto _ _ _ _ _ Hok Hk Hin), (proj2 (Contains_spec _ _ _ _ va Hok Hk) Hin).
  rewrite (proj2 (Z.eqb_neq _ 0) Ho). cbn [negb andb].
  pose proof (vi_linked _ Hinv _ _ _ o Hk Ho) as Hko.
  destruct (ro_key _ _ (vi_ranges _ Hinv o) _ _ Hko) as [_ H0'], (ro_size _ _ (vi_ranges _ Hinv o) _ _ Hko) as [_ Hb'].
  rewrite (u64_small (va - _)), u64_small by lia. done.
Qed.

Lemma TransformVa_Some va it ot i o :
  va_type it = Some i -> va_type ot = Some o -> i <> o -> TransformVa vm va it ot <> 0 ->
  exists info, alloc_of vm i !! a_va info i = Some info /\ a_va info i <= va < a_va info i + a_size info /\
    a_va info o <> 0.
Proof.
  intros Ei Eo Hne. pose proof (vi_ranges _ Hinv i) as Hok. unfold TransformVa. rewrite Ei, Eo.
  destruct (va =? 0); [done|]. rewrite bool_decide_eq_false_2 by done.
  destruct (map_upto _ va) as [[k info]|] eqn:E; [|done]. destruct (_ && _) eqn:HC; [|done]. intros _.
  apply andb_true_iff in HC as [HC Ho]. apply map_upto_Some in E as (Hk & _).
  exists info. destruct (ro_key _ _ Hok _ _ Hk) as [-> _]. split; [done|split].
  - by apply (Contains_spec _ _ _ _ va Hok Hk).
  - by apply Z.eqb_neq, negb_true_iff.
Qed.
End lookups.

(** ** Searching for free space *)
Record reserved_ok (t : HybmVaMgrType) (m : gmap Z ReservedGvaInfo) : Prop := {
  rk_key : forall k info, m !! k = Some info -> per_get (r_va info) t = k /\ 0 <= k;
  rk_size : forall k info, m !! k = Some info -> 0 <= r_size info /\ k + r_size info < 18446744073709551616;
  rk_pos : forall k info, m !! k = Some info -> 0 < k <-> 0 < r_size info;
  rk_apart : forall k info k', m !! k = Some info -> is_Some (m !! k') -> k < k' -> k + r_size info <= k';
}.

Lemma first_gap_spec size used current :
  0 < size -> StronglySorted pair_le used ->
  let '(r, found) := first_gap size current used in
  current <= r /\ (forall a, current <= a < r -> exists range, range ∈ used /\ a < range.2 /\ range.1 < a + size) /\
  if found then (forall range, range ∈ used -> range.2 <= r \/ r + size <= range.1) /\
                exists range, range ∈ used /\ r + size <= range.1
  else forall range, range ∈ used -> range.2 <= r.
Proof.
  intros Hs. revert current. induction used as [|[f e] used IH]; intros current Hsort; cbn [first_gap fst snd].
  { split_and!; [lia|lia|]. by intros range ?%not_elem_of_nil. }
  inversion Hsort as [|? ? Hsort' Hle]; subst. rewrite Forall_forall in Hle.
  destruct (_ && _) eqn:Eg.
  { split; [lia|split; [lia|split]].
    - intros range [->|Hin]%elem_of_cons; [simpl; lia|]. destruct (Hle range Hin) as [?|[? _]]; simpl in *; lia.
    - exists (f, e). split; [by left|simpl; lia]. }
  specialize (IH (if current <? e then e else current) Hsort'). destruct (first_gap _ _ used) as [r found].
  destruct IH as (H1 & H2 & H3). assert (Hm : current <= r /\ e <= r) by (destruct (Z.ltb_spec current e); lia).
  split_and!; [lia| |].
  - intros a Ha. destruct (Z.lt_ge_cases a (if current <? e then e else current)) as [Hlt|Hge].
    + exists (f, e). split; [by left|]. destruct (Z.ltb_spec current e); simpl; lia.
    + destruct (H2 a ltac:(lia)) as (range & Hin & Hr). exists range. split; [by right|done].
  - destruct found.
    + destruct H3 as [H3 (range & Hin & Hr)]. split.
      * intros range' [->|Hin']%elem_of_cons; [left; simpl; lia|by apply H3].
      * exists range. split; [by right|done].
    + intros range' [->|Hin']%elem_of_cons; [simpl; lia|by apply H3].
Qed.

#[global] Instance pair_le_total : Total pair_le.
Proof. intros [a1 a2] [b1 b2]. unfold pair_le. simpl. lia. Qed.
#[global] Instance pair_le_trans : Transitive pair_le.
Proof. intros [a1 a2] [b1 b2] [c1 c2]. unfold pair_le. simpl. lia. Qed.

Section free_space.
Context (vm : HybmVaManager) (t : HybmVaMgrType) (Hok : reserved_ok t (reserved_of vm t)).
Context (start end_ size : Z) (Hstart : 0 < start).

Lemma elem_of_used_ranges range :
  range ∈ used_ranges vm start end_ t <->
  exists info, reserved_of vm t !! range.1 = Some info /\ start <= range.1 < end_ /\ range.2 = range.1 + r_size info.
Proof.
  unfold used_ranges. rewrite (merge_sort_Permutation pair_le), list_elem_of_fmap. split.
  - intros ([k info] & -> & [Hw Hin%elem_of_map_to_list]%list_elem_of_filter). simpl in *.
    destruct (rk_key _ _ Hok _ _ Hin) as [Ek H0], (rk_size _ _ Hok _ _ Hin). rewrite Ek in *.
    exists info. unwrap. done.
  - intros (info & Hin & Hw & E2). destruct (rk_key _ _ Hok _ _ Hin) as [Ek H0], (rk_size _ _ Hok _ _ Hin).
    exists (range.1, info). simpl. rewrite Ek, u64_small by lia. split; [destruct range; simpl in *; congruence|].
    apply list_elem_of_filter. simpl. rewrite Ek. split; [done|]. by apply elem_of_map_to_list.
Qed.

Lemma FindFreeSpace_spec :
  0 < size <= end_ - start ->
  let '(r, found) := FindFreeSpace vm start end_ size t in
  if found then start <= r /\ r + size <= end_ /\
    (forall k info, reserved_of vm t !! k = Some info -> start <= k < end_ -> k + r_size info <= r \/ r + size <= k) /\
    (forall a, start <= a < r -> exists k info, reserved_of vm t !! k = Some info /\ a < k + r_size info /\ k < a + size)
  else forall a, start <= a -> a + size <= end_ ->
    exists k info, reserved_of vm t !! k = Some info /\ a < k + r_size info /\ k < a + size.
Proof.
  intros Hsz. unfold FindFreeSpace. replace (_ || _) with false by lia.
  pose proof elem_of_used_ranges as Hin.
  assert (Hsort : StronglySorted pair_le (used_ranges vm start end_ t)) by apply (StronglySorted_merge_sort pair_le _).
  pose proof (first_gap_spec size _ start ltac:(lia) Hsort) as Hg.
  destruct (used_ranges vm start end_ t) as [|range0 used] eqn:Eu.
  { split_and!; [lia|lia| |lia]. intros k info Hk Hw. exfalso.
    assert (Hn : (k, k + r_size info) ∈ @nil (Z * Z)) by (apply Hin; by exists info). by apply not_elem_of_nil in Hn. }
  destruct (first_gap size start (range0 :: used)) as [r found]. destruct Hg as (H1 & H2 & H3).
  assert (Hhit : forall a, start <= a < r ->
    exists k info, reserved_of vm t !! k = Some info /\ a < k + r_size info /\ k < a + size).
  { intros a Ha. destruct (H2 a Ha) as (range & (info & Hk & _ & E2)%Hin & Hr). exists range.1, info. rewrite <- E2. done. }
  destruct found.
  - destruct H3 as [H3 (range & (info & _ & Hw & _)%Hin & Hr)]. split_and!; [lia|lia| |done].
    intros k i Hk Hwk. apply (H3 (k, k + r_size i)). apply Hin. by exists i.
  - destruct (_ && _) eqn:Ee.
    + split_and!; [lia|lia| |done]. intros k i Hk Hwk. left. apply (H3 (k, k + r_size i)). apply Hin. by exists i.
    + intros a Ha Hb. apply Hhit. lia.
Qed.
End free_space.

(** ** Reserving and freeing *)
Lemma reserved_insert t m info :
  reserved_ok t m -> 0 < per_get (r_va info) t -> 0 < r_size info ->
  per_get (r_va info) t + r_size info < 18446744073709551616 ->
  (forall k old, m !! k = Some old ->
     k + r_size old <= per_get (r_va info) t \/ per_get (r_va info) t + r_size info <= k) ->
  m !! per_get (r_va info) t = None /\ reserved_ok t (<[per_get (r_va info) t := info]> m).
Proof.
  intros Hok Hv Hs Hb Hd. assert (Hf : m !! per_get (r_va info) t = None).
  { destruct (m !! _) as [old|] eqn:E; [|done]. pose proof (rk_pos _ _ Hok _ _ E). destruct (Hd _ _ E); lia. }
  split; [done|]. split.
  - intros k i. rewrite lookup_insert_Some. intros [[<- <-]|[_ Hk]]; [lia|]. by apply (rk_key _ _ Hok).
  - intros k i. rewrite lookup_insert_Some. intros [[<- <-]|[_ Hk]]; [lia|]. by apply (rk_size _ _ Hok).
  - intros k i. rewrite lookup_insert_Some. intros [[<- <-]|[_ Hk]]; [lia|]. by apply (rk_pos _ _ Hok).
  - intros k i k'. rewrite lookup_insert_Some, lookup_insert_is_Some'.
    intros [[<- <-]|[Hne Hk]] [<-|[o Ho]] Hlt; try lia.
    + destruct (Hd k' o Ho); [|done]. pose proof (rk_size _ _ Hok _ _ Ho). lia.
    + destruct (Hd k i Hk); [done|]. pose proof (rk_pos _ _ Hok _ _ Hk). pose proof (rk_key _ _ Hok _ _ Hk).
      pose proof (rk_size _ _ Hok _ _ Hk). lia.
    + by apply (rk_apart _ _ Hok k i k').
Qed.

Lemma reserved_delete t m k : reserved_ok t m -> reserved_ok t (delete k m).
Proof.
  intros Hok. split.
  - intros k' i [_ H]%lookup_delete_Some. by apply (rk_key _ _ Hok).
  - intros k' i [_ H]%lookup_delete_Some. by apply (rk_size _ _ Hok).
  - intros k' i [_ H]%lookup_delete_Some. by apply (rk_pos _ _ Hok).
  - intros k' i k2 [_ H]%lookup_delete_Some [_ H2]%lookup_delete_is_Some. by apply (rk_apart _ _ Hok).
Qed.

(** The reservation of no device memory is recorded under address 0. *)
Lemma reserved_insert_zero t m info :
  reserved_ok t m -> per_get (r_va info) t = 0 -> r_size info = 0 -> reserved_ok t (<[0 := info]> m).
Proof.
  intros Hok Hv Hs. split.
  - intros k i. rewrite lookup_insert_Some. intros [[<- <-]|[_ Hk]]; [lia|]. by apply (rk_key _ _ Hok).
  - intros k i. rewrite lookup_insert_Some. intros [[<- <-]|[_ Hk]]; [lia|]. by apply (rk_size _ _ Hok).
  - intros k i. rewrite lookup_insert_Some. intros [[<- <-]|[_ Hk]]; [lia|]. by apply (rk_pos _ _ Hok).
  - intros k i k'. rewrite lookup_insert_Some, lookup_insert_is_Some'.
    intros [[<- <-]|[Hne Hk]] [<-|Hk'] Hlt; try lia.
    + pose proof (rk_key _ _ Hok _ _ Hk). lia.
    + by apply (rk_apart _ _ Hok k i k').
Qed.

(** A global reservation is in a 56-bit window, or it is its device reservation. *)
Definition global_place (vm : HybmVaManager) (g : Z) (info : ReservedGvaInfo) : Prop :=
  (exists tr, (gva_window tr).1 <= g /\ g + r_size info <= (gva_window tr).2) \/
  (per_get (r_va info) HVM_DVA = g /\
   exists dev, reserved_of vm HVM_DVA !! g = Some dev /\ r_size info <= r_size dev).

Record rsv_inv (vm : HybmVaManager) : Prop := {
  rv_ok : forall t, reserved_ok t (reserved_of vm t);
  rv_window : forall t k info, t <> HVM_GVA -> reserved_of vm t !! k = Some info -> k <> 0 ->
    (lva_window vm).1 <= k /\ k + r_size info <= (lva_window vm).2;
  rv_global : forall g info, reserved_of vm HVM_GVA !! g = Some info -> 0 < g /\ global_place vm g info;
  rv_device : forall g info, reserved_of vm HVM_GVA !! g = Some info -> per_get (r_va info) HVM_DVA <> 0 ->
    exists dev, reserved_of vm HVM_DVA !! per_get (r_va info) HVM_DVA = Some dev /\ per_get (r_va dev) HVM_GVA = g;
}.

Lemma windows vm :
  0 < (lva_window vm).1 /\ (lva_window vm).2 < 4503599627370496 /\
  forall tr, 4503599627370496 <= (gva_window tr).1 /\ (gva_window tr).1 < (gva_window tr).2 < 18446744073709551616.
Proof.
  split_and!; [unfold lva_window; case_bool_decide; by vm_compute..|]. intros []; split; by vm_compute.
Qed.

Section reserve.
Context (vm : HybmVaManager) (Hinv : rsv_inv vm).

(** A device or host address the search returns is fresh in its map. *)
Lemma AllocReserveLvaInner_spec size t :
  t <> HVM_GVA -> 0 <= size -> AllocReserveLvaInner vm size t <> 0 ->
  let lva := AllocReserveLvaInner vm size t in
  0 < size /\ (lva_window vm).1 <= lva /\ lva + size <= (lva_window vm).2 /\
  forall k old, reserved_of vm t !! k = Some old -> k + r_size old <= lva \/ lva + size <= k.
Proof.
  intros Ht Hs. unfold AllocReserveLvaInner. destruct (Z.eqb_spec size 0); [done|].
  pose proof (windows vm) as (W1 & W2 & _). pose proof (rv_window _ Hinv t) as Hw. revert W1 W2 Hw.
  destruct (lva_window vm) as [ws we]. cbn [fst snd]. intros W1 W2 Hw.
  destruct (Z.ltb_spec (we - ws) size); [done|].
  pose proof (FindFreeSpace_spec vm t (rv_ok _ Hinv t) ws we size ltac:(lia) ltac:(lia)) as Hf.
  destruct (FindFreeSpace vm ws we size t) as [r []]; [|done]. intros _. destruct Hf as (F1 & F2 & F3 & _).
  split_and!; [lia|lia|lia|]. intros k old Hk. destruct (rk_key _ _ (rv_ok _ Hinv t) _ _ Hk) as [_ Hk0].
  pose proof (rk_pos _ _ (rv_ok _ Hinv t) _ _ Hk) as Hp. destruct (rk_size _ _ (rv_ok _ Hinv t) _ _ Hk) as [Hsz _].
  destruct (Z.eq_dec k 0) as [->|Hne]; [left; lia|].
  destruct (Hw k old Ht Hk Hne). apply F3; [done|]. lia.
Qed.

Lemma AllocReserveLva_inv localRank size t memType :
  t <> HVM_GVA -> 0 <= size -> rsv_inv (AllocReserveLva vm localRank size t memType).2.
Proof.
  intros Ht Hs. unfold AllocReserveLva. destruct (size =? 0); [done|].
  destruct (Z.eqb_spec (AllocReserveLvaInner vm size t) 0) as [|Hl]; [done|]. cbn [snd].
  destruct (AllocReserveLvaInner_spec size t Ht Hs Hl) as (Hp & L1 & L2 & Hd).
  set (lva := AllocReserveLvaInner vm size t) in *. set (info := mkReserved _ _ _ _).
  pose proof (windows vm) as (W1 & W2 & _).
  assert (Ev : per_get (r_va info) t = lva) by (cbn; rewrite per_get_set; by rewrite decide_True).
  destruct (reserved_insert t (reserved_of vm t) info (rv_ok _ Hinv t)) as [Hf Hok]; rewrite ?Ev in *;
    [lia|done|cbn; lia|done|].
  split.
  - intros t'. rewrite reserved_set_reserved. destruct (decide (t = t')) as [<-|]; [done|]. apply Hinv.
  - intros t' k i Ht'. rewrite reserved_set_reserved. destruct (decide (t = t')) as [<-|]; [|by apply (rv_window _ Hinv t')].
    rewrite lookup_insert_Some. intros [[<- <-]|[_ Hk]]; [intros _; done|by apply (rv_window _ Hinv t)].
  - intros g i. rewrite reserved_set_reserved, decide_False by done. intros Hg.
    destruct (rv_global _ Hinv g i Hg) as [H0 Hpl]. split; [done|]. destruct Hpl as [?|(E & dev & Hdev & Hle)]; [by left|right].
    split; [done|]. exists dev. split; [|done]. rewrite reserved_set_reserved.
    destruct (decide (t = HVM_DVA)) as [->|]; [|done]. rewrite lookup_insert_ne; [done|congruence].
  - intros g i. rewrite reserved_set_reserved, decide_False by done. intros Hg Hne.
    destruct (rv_device _ Hinv g i Hg Hne) as (dev & Hdev & E). exists dev. split; [|done].
    rewrite reserved_set_reserved. destruct (decide (t = HVM_DVA)) as [->|]; [|done].
    rewrite lookup_insert_ne; [done|congruence].
Qed.
(** A new pair of reservations, global at [g] and device at [d] (or none, at 0). *)
Lemma insert_pair g d gi di :
  r_va gi = mkPer g d 0 -> r_va di = mkPer g d 0 -> 0 < g -> 0 < r_size gi -> g + r_size gi < 18446744073709551616 ->
  (forall k old, reserved_of vm HVM_GVA !! k = Some old -> k + r_size old <= g \/ g + r_size gi <= k) ->
  (d = 0 /\ r_size di = 0 \/
   (lva_window vm).1 <= d /\ d + r_size di <= (lva_window vm).2 /\ 0 < r_size di /\
   forall k old, reserved_of vm HVM_DVA !! k = Some old -> k + r_size old <= d \/ d + r_size di <= k) ->
  ((exists tr, (gva_window tr).1 <= g /\ g + r_size gi <= (gva_window tr).2) \/ d = g /\ r_size gi <= r_size di) ->
  rsv_inv (set_reserved (set_reserved vm HVM_GVA (<[g := gi]> (reserved_of vm HVM_GVA))) HVM_DVA
             (<[d := di]> (reserved_of vm HVM_DVA))).
Proof.
  intros Eg Ed Hg Hgs Hgb Hgd Hd Hplace. pose proof (windows vm) as (W1 & W2 & _).
  assert (Vg : per_get (r_va gi) HVM_GVA = g) by (by rewrite Eg).
  assert (Vd : per_get (r_va di) HVM_DVA = d) by (by rewrite Ed).
  destruct (reserved_insert HVM_GVA (reserved_of vm HVM_GVA) gi (rv_ok _ Hinv HVM_GVA)) as [Fg Og];
    rewrite ?Vg in *; [done|done|done|done|].
  assert (HD : reserved_ok HVM_DVA (<[d := di]> (reserved_of vm HVM_DVA)) /\
    (forall k old, reserved_of vm HVM_DVA !! k = Some old -> k <> 0 -> k <> d)).
  { destruct Hd as [[-> Hz]|(D1 & D2 & D3 & Dd)].
    - split; [|done]. apply reserved_insert_zero; [apply Hinv|done|done].
    - destruct (reserved_insert HVM_DVA (reserved_of vm HVM_DVA) di (rv_ok _ Hinv HVM_DVA)) as [Fd Od];
        rewrite ?Vd in *; [lia|done|lia|done|]. split; [done|]. intros k old Hk _ ->. congruence. }
  destruct HD as [Od Hfresh]. set (vm' := set_reserved _ _ _).
  assert (RG : reserved_of vm' HVM_GVA = <[g := gi]> (reserved_of vm HVM_GVA)) by done.
  assert (RD : reserved_of vm' HVM_DVA = <[d := di]> (reserved_of vm HVM_DVA)) by done.
  assert (Hkeep : forall k old, reserved_of vm HVM_DVA !! k = Some old -> k <> 0 -> reserved_of vm' HVM_DVA !! k = Some old).
  { intros k old Hk Hne. rewrite RD, lookup_insert_ne; [done|]. symmetry. by eapply Hfresh. }
  split.
  - intros []; [by rewrite RG|by rewrite RD|]. apply (rv_ok _ Hinv HVM_HVA).
  - intros [] k i Ht Hk Hne; [done| |by apply (rv_window _ Hinv HVM_HVA)]. rewrite RD in Hk.
    apply lookup_insert_Some in Hk as [[<- <-]|[_ Hk]]; [|by apply (rv_window _ Hinv HVM_DVA)].
    destruct Hd as [[? _]|(D1 & D2 & _)]; done.
  - intros k i Hk. rewrite RG in Hk. apply lookup_insert_Some in Hk as [[<- <-]|[_ Hk]].
    + split; [done|]. destruct Hplace as [?|[-> Hle]]; [by left|right]. split; [by rewrite Eg|].
      exists di. rewrite RD. by rewrite lookup_insert_eq.
    + destruct (rv_global _ Hinv k i Hk) as [H0 [?|(E & dev & Hdev & Hle)]]; (split; [done|]); [by left|right].
      split; [done|]. exists dev. split; [|done]. apply Hkeep; [done|lia].
  - intros k i Hk Hne. rewrite RG in Hk. apply lookup_insert_Some in Hk as [[<- <-]|[_ Hk]].
    + rewrite Eg. exists di. rewrite RD. cbn. rewrite lookup_insert_eq. by rewrite Ed.
    + destruct (rv_device _ Hinv k i Hk Hne) as (dev & Hdev & E). exists dev. split; [|done]. by apply Hkeep.
Qed.

(** A global address is clear of the other global reservations. *)
Lemma global_clear g size k old :
  reserved_of vm HVM_GVA !! k = Some old ->
  (exists tr, (gva_window tr).1 <= g /\ g + size <= (gva_window tr).2 /\
     ((gva_window tr).1 <= k < (gva_window tr).2 -> k + r_size old <= g \/ g + size <= k)) \/
  (g + size <= (lva_window vm).2 /\
   forall dev, reserved_of vm HVM_DVA !! k = Some dev -> k + r_size dev <= g \/ g + size <= k) ->
  k + r_size old <= g \/ g + size <= k.
Proof.
  intros Hk Hc. destruct (rv_global _ Hinv k old Hk) as [H0 Hpl].
  pose proof (rk_pos _ _ (rv_ok _ Hinv _) _ _ Hk) as Hp. pose proof (windows vm) as (_ & W2 & W3).
  assert (HT : (gva_window false).2 <= (gva_window true).1) by (by vm_compute).
  destruct Hc as [(tr & G1 & G2 & Hin)|[G2 Hdev]], Hpl as [(tr' & P1 & P2)|(_ & dev & Hd & Hle)].
  - destruct tr, tr'; [apply Hin; lia|left; lia|right; lia|apply Hin; lia].
  - left. destruct (rv_window _ Hinv HVM_DVA k dev) as [_ Hw]; [done|done|lia|]. pose proof (W3 tr). lia.
  - right. pose proof (W3 tr'). lia.
  - destruct (Hdev dev Hd); lia.
Qed.

Lemma AllocReserveGva_inv localRank size localSize memType en56 isTrans :
  0 <= size -> 0 <= localSize -> (en56 = false -> size <= localSize) ->
  rsv_inv (AllocReserveGva vm localRank size localSize memType en56 isTrans).2.
Proof.
  intros Hs Hl Hle. unfold AllocReserveGva. destruct (Z.eqb_spec size 0); [done|].
  destruct ((localSize =? 0) && negb en56) eqn:E0; [done|]. cbv zeta.
  set (lva := if 0 <? localSize then AllocReserveLvaInner vm localSize HVM_DVA else 0) in *.
  destruct ((0 <? localSize) && (lva =? 0)) eqn:E1; [done|].
  assert (HD : lva = 0 /\ localSize = 0 \/
    (lva_window vm).1 <= lva /\ lva + localSize <= (lva_window vm).2 /\ 0 < localSize /\
    forall k old, reserved_of vm HVM_DVA !! k = Some old -> k + r_size old <= lva \/ lva + localSize <= k).
  { unfold lva in *. destruct (Z.ltb_spec 0 localSize); [right|left; lia]. cbn [andb] in E1.
    apply Z.eqb_neq in E1. destruct (AllocReserveLvaInner_spec localSize HVM_DVA ltac:(done) ltac:(lia) E1); tauto. }
  destruct (gva_window isTrans) as [ws we] eqn:Ew. pose proof (windows vm) as (W1 & W2 & W3).
  specialize (W3 isTrans). rewrite Ew in W3. cbn [fst snd] in W3. destruct en56.
  - destruct (Z.ltb_spec (we - ws) size); [done|].
    pose proof (FindFreeSpace_spec vm HVM_GVA (rv_ok _ Hinv _) ws we size ltac:(lia) ltac:(lia)) as Hf.
    destruct (FindFreeSpace vm ws we size HVM_GVA) as [r []]; [|done]. destruct Hf as (F1 & F2 & F3 & _). cbn [snd].
    apply insert_pair; cbn [r_size r_va]; [done|done|lia|lia|lia| |done|left; exists isTrans; rewrite Ew; simpl; lia].
    intros k old Hk. apply (global_clear r size k old Hk). left. exists isTrans. rewrite Ew. cbn [fst snd]. auto.
  - specialize (Hle eq_refl). cbn [snd]. destruct HD as [[? ?]|HD]; [lia|]. pose proof HD as (D1 & D2 & D3 & Dd).
    apply insert_pair; cbn [r_size r_va]; [done|done|lia|lia|lia| |by right|by right].
    intros k old Hk. apply (global_clear lva size k old Hk). right. split; [lia|].
    intros dev Hdev. destruct (Dd k dev Hdev); lia.
Qed.

(** *** Freeing *)
Lemma delete_device d gone :
  (forall g info, reserved_of vm HVM_GVA !! g = Some info -> g <> gone -> per_get (r_va info) HVM_DVA <> d) ->
  rsv_inv (set_reserved (set_reserved vm HVM_DVA (delete d (reserved_of vm HVM_DVA))) HVM_GVA
             (delete gone (reserved_of vm HVM_GVA))).
Proof.
  intros Hother. set (vm' := set_reserved _ _ _).
  assert (RG : reserved_of vm' HVM_GVA = delete gone (reserved_of vm HVM_GVA)) by done.
  assert (RD : reserved_of vm' HVM_DVA = delete d (reserved_of vm HVM_DVA)) by done. split.
  - intros []; [rewrite RG|rewrite RD|]; [apply reserved_delete, Hinv|apply reserved_delete, Hinv|].
    apply (rv_ok _ Hinv HVM_HVA).
  - intros [] k i Ht Hk Hne; [done| |by apply (rv_window _ Hinv HVM_HVA)]. rewrite RD in Hk.
    apply lookup_delete_Some in Hk as [_ Hk]. by apply (rv_window _ Hinv HVM_DVA).
  - intros g i Hg. rewrite RG in Hg. apply lookup_delete_Some in Hg as [Hne Hg].
    destruct (rv_global _ Hinv g i Hg) as [H0 [?|(E & dev & Hdev & Hle)]]; (split; [done|]); [by left|right].
    split; [done|]. exists dev. split; [|done]. rewrite RD, lookup_delete_ne; [done|].
    specialize (Hother g i Hg ltac:(done)). congruence.
  - intros g i Hg Hd. rewrite RG in Hg. apply lookup_delete_Some in Hg as [Hne Hg].
    destruct (rv_device _ Hinv g i Hg Hd) as (dev & Hdev & E). exists dev. split; [|done].
    rewrite RD, lookup_delete_ne; [done|]. specialize (Hother g i Hg ltac:(done)). congruence.
Qed.

Lemma delete_host k gone :
  rsv_inv (set_reserved (set_reserved vm HVM_HVA (delete k (reserved_of vm HVM_HVA))) HVM_GVA
             (delete gone (reserved_of vm HVM_GVA))).
Proof.
  set (vm' := set_reserved _ _ _).
  assert (RG : reserved_of vm' HVM_GVA = delete gone (reserved_of vm HVM_GVA)) by done.
  assert (RH : reserved_of vm' HVM_HVA = delete k (reserved_of vm HVM_HVA)) by done. split.
  - intros []; [rewrite RG| |rewrite RH]; [apply reserved_delete, Hinv| |apply reserved_delete, Hinv].
    apply (rv_ok _ Hinv HVM_DVA).
  - intros [] k' i Ht Hk Hne; [done|by apply (rv_window _ Hinv HVM_DVA)|]. rewrite RH in Hk.
    apply lookup_delete_Some in Hk as [_ Hk]. by apply (rv_window _ Hinv HVM_HVA).
  - intros g i Hg. rewrite RG in Hg. apply lookup_delete_Some in Hg as [_ Hg]. by apply (rv_global _ Hinv).
  - intros g i Hg. rewrite RG in Hg. apply lookup_delete_Some in Hg as [_ Hg]. by apply (rv_device _ Hinv).
Qed.

Lemma FreeReserveGva_inv addr : rsv_inv (FreeReserveGva vm addr).
Proof.
  unfold FreeReserveGva. destruct (addr =? 0); [done|].
  destruct (reserved_of vm HVM_GVA !! addr) as [info|] eqn:E; [|done].
  destruct (Z.eqb_spec (per_get (r_va info) HVM_DVA) 0) as [|Hne]; cbn [negb].
  - apply delete_host.
  - apply delete_device. intros g i Hg Hga Eq.
    destruct (rv_device _ Hinv g i Hg ltac:(congruence)) as (dev & Hdev & E1).
    destruct (rv_device _ Hinv addr info E Hne) as (dev' & Hdev' & E2). congruence.
Qed.

(** The address of a device reservation that belongs to a global one is not freed alone. *)
Definition device_alone (addr : Z) : Prop := forall g info,
  reserved_of vm HVM_GVA !! g = Some info -> per_get (r_va info) HVM_DVA <> addr.

Lemma FreeReserveLva_inv addr type :
  (va_type type = Some HVM_DVA -> device_alone addr) -> rsv_inv (FreeReserveLva vm addr type).
Proof.
  intros Ha. unfold FreeReserveLva. destruct (va_type type) as [t|] eqn:Et; [|done].
  destruct (_ || _) eqn:Eb; [done|]. destruct (reserved_of vm t !! addr) as [info|] eqn:E; [|done].
  assert (Hg : reserved_of vm HVM_GVA !! 0 = None).
  { destruct (reserved_of vm HVM_GVA !! 0) eqn:E0; [|done]. destruct (rv_global _ Hinv _ _ E0). lia. }
  assert (Hid : forall t', t' <> HVM_GVA -> forall m, set_reserved vm t' m =
    set_reserved (set_reserved vm t' m) HVM_GVA (delete 0 (reserved_of vm HVM_GVA))).
  { intros t' Ht' m. rewrite delete_id by done. unfold set_reserved, reserved_of. f_equal. by destruct t', vm as [? ? []]. }
  destruct t; [by rewrite bool_decide_eq_true_2, orb_true_r in Eb| |]; rewrite Hid by done.
  - apply delete_device. intros g i Hgi _. by apply (Ha eq_refl g i).
  - apply delete_host.
Qed.
End reserve.

(** ** Any sequence of calls *)
Inductive vm_op :=
  | VmAdd (info : AllocatedGvaInfo)
  | VmRemove (va type : Z)
  | VmAllocGva (localRank size localSize memType : Z) (enable56BitsGva isTrans : bool)
  | VmAllocLva (localRank size : Z) (t : HybmVaMgrType) (memType : Z)
  | VmFreeGva (addr : Z)
  | VmFreeLva (addr type : Z).

Definition vm_step (vm : HybmVaManager) (op : vm_op) : HybmVaManager :=
  match op with
  | VmAdd info => (AddVaInfo vm info false).2
  | VmRemove va type => RemoveOneVaInfo vm va type
  | VmAllocGva rank size localSize memType en56 tr => (AllocReserveGva vm rank size localSize memType en56 tr).2
  | VmAllocLva rank size t memType => (AllocReserveLva vm rank size t memType).2
  | VmFreeGva addr => FreeReserveGva vm addr
  | VmFreeLva addr type => FreeReserveLva vm addr type
  end.

(** What the callers guarantee: ranges do not wrap, a reservation without a 56-bit
    address is no larger than its device part, and that part is not freed alone. *)
Definition vm_pre (vm : HybmVaManager) (op : vm_op) : Prop :=
  match op with
  | VmAdd info => info_wf info
  | VmAllocGva _ size localSize _ en56 _ => 0 <= size /\ 0 <= localSize /\ (en56 = false -> size <= localSize)
  | VmAllocLva _ size t _ => 0 <= size /\ t <> HVM_GVA
  | VmFreeLva addr type => va_type type = Some HVM_DVA -> device_alone vm addr
  | VmRemove _ _ | VmFreeGva _ => True
  end.

Inductive vm_reach : HybmVaManager -> Prop :=
  | reach_init soc : vm_reach (mkVm soc (mkPer ∅ ∅ ∅) (mkPer ∅ ∅ ∅))
  | reach_step vm op : vm_reach vm -> vm_pre vm op -> vm_reach (vm_step vm op).

Lemma va_inv_ext vm vm' : (forall t, alloc_of vm' t = alloc_of vm t) -> va_inv vm -> va_inv vm'.
Proof.
  intros E [H1 H2]. split; [intros t; rewrite E; apply H1|]. intros t k info t'. rewrite !E. by apply H2.
Qed.

Lemma rsv_inv_ext vm vm' :
  soc_ vm' = soc_ vm -> (forall t, reserved_of vm' t = reserved_of vm t) -> rsv_inv vm -> rsv_inv vm'.
Proof.
  intros Es E [H1 H2 H3 H4]. assert (Ew : lva_window vm' = lva_window vm) by (unfold lva_window; by rewrite Es). split.
  - intros t. rewrite E. apply H1.
  - intros t k info. rewrite E, Ew. apply H2.
  - intros g info. unfold global_place. rewrite !E. apply H3.
  - intros g info. rewrite !E. apply H4.
Qed.

Lemma AddVaInfo_frame vm info onlyGva :
  soc_ (AddVaInfo vm info onlyGva).2 = soc_ vm /\
  forall t, reserved_of (AddVaInfo vm info onlyGva).2 t = reserved_of vm t.
Proof.
  unfold AddVaInfo. repeat (destruct (_ : bool); [done|]). cbn [snd].
  generalize (add_types info onlyGva) as ts. intros ts. revert vm.
  induction ts as [|t ts IH]; intros vm; [done|]. cbn [foldl].
  destruct (IH (set_alloc vm t (<[a_va info t := info]> (alloc_of vm t)))) as [-> Hr]. split; [done|].
  intros t'. by rewrite Hr.
Qed.

Lemma RemoveOneVaInfo_frame vm va type :
  soc_ (RemoveOneVaInfo vm va type) = soc_ vm /\
  forall t, reserved_of (RemoveOneVaInfo vm va type) t = reserved_of vm t.
Proof.
  unfold RemoveOneVaInfo. destruct (va_type type) as [t|]; [|done]. destruct (va =? 0); [done|].
  destruct (alloc_of vm t !! va) as [info|]; [|done].
  assert (H : forall ts vm', soc_ (foldl (remove_view info t) vm' ts) = soc_ vm' /\
    forall t', reserved_of (foldl (remove_view info t) vm' ts) t' = reserved_of vm' t').
  { induction ts as [|i ts IH]; intros vm'; [done|]. cbn [foldl]. destruct (IH (remove_view info t vm' i)) as [-> Hr].
    assert (Hv : soc_ (remove_view info t vm' i) = soc_ vm' /\
      forall t', reserved_of (remove_view info t vm' i) t' = reserved_of vm' t').
    { unfold remove_view. case_bool_decide; [done|]. destruct (alloc_of vm' i !! _) as [o|]; [|done].
      by destruct (_ =? _). }
    destruct Hv as [-> Hv]. split; [done|]. intros t'. by rewrite Hr, Hv. }
  destruct (H all_types vm) as [Hs Hr]. split; [done|]. intros t'. rewrite <- Hr. done.
Qed.

Lemma vm_reach_inv vm : vm_reach vm -> va_inv vm /\ rsv_inv vm.
Proof.
  induction 1 as [soc|vm op _ [IA IR] Hp].
  - split; [apply (va_inv_ext vm_init), vm_init_inv; by intros []|].
    split; [intros []; split|intros []|..]; intros *; cbn; rewrite ?lookup_empty; done.
  - destruct op as [info|va type|rank size localSize memType en56 tr|rank size t memType|addr|addr type]; cbn [vm_step vm_pre] in *.
    + destruct (AddVaInfo_frame vm info false). split; [by apply AddVaInfo_inv|by eapply rsv_inv_ext].
    + destruct (RemoveOneVaInfo_frame vm va type). split; [by apply RemoveOneVaInfo_inv|by eapply rsv_inv_ext].
    + split; [|apply AllocReserveGva_inv; tauto]. eapply va_inv_ext; [|exact IA]. intros t. unfold AllocReserveGva.
      repeat case_match; done.
    + split; [|by apply AllocReserveLva_inv; [|tauto|tauto]]. eapply va_inv_ext; [|exact IA]. intros t'.
      unfold AllocReserveLva. repeat case_match; done.
    + split; [|by apply FreeReserveGva_inv]. eapply va_inv_ext; [|exact IA]. intros t'. unfold FreeReserveGva.
      repeat case_match; done.
    + split; [|by apply FreeReserveLva_inv]. eapply va_inv_ext; [|exact IA]. intros t'. unfold FreeReserveLva.
      repeat case_match; done.
Qed.
(** The allocated ranges need no contract but that the added ranges do not wrap. *)
Definition add_ok (op : vm_op) : Prop := match op with VmAdd info => info_wf info | _ => True end.
Lemma vm_step_va_inv vm op : va_inv vm -> add_ok op -> va_inv (vm_step vm op).
Proof.
  intros IA Hp. destruct op as [info|va type|rank size localSize memType en56 tr|rank size t memType|addr|addr type]; cbn [vm_step add_ok] in *.
  - by apply AddVaInfo_inv.
  - by apply RemoveOneVaInfo_inv.
  - eapply va_inv_ext; [|exact IA]. intros t. unfold AllocReserveGva. repeat case_match; done.
  - eapply va_inv_ext; [|exact IA]. intros t'. unfold AllocReserveLva. repeat case_match; done.
  - eapply va_inv_ext; [|exact IA]. intros t'. unfold FreeReserveGva. repeat case_match; done.
  - eapply va_inv_ext; [|exact IA]. intros t'. unfold FreeReserveLva. repeat case_match; done.
Qed.
Lemma vm_steps_va_inv soc ops : Forall add_ok ops -> va_inv (foldl vm_step (mkVm soc (mkPer ∅ ∅ ∅) (mkPer ∅ ∅ ∅)) ops).
Proof.
  intros Hops. assert (H0 : va_inv (mkVm soc (mkPer ∅ ∅ ∅) (mkPer ∅ ∅ ∅))) by (apply (va_inv_ext vm_init), vm_init_inv; by intros []).
  revert H0. generalize (mkVm soc (mkPer ∅ ∅ ∅) (mkPer ∅ ∅ ∅)). induction Hops as [|op ops Hop _ IH]; intros vm H0; [done|].
  apply IH. by apply vm_step_va_inv.
Qed.
