(* ===== verification/StrUtil.v ===== *)
(** * StrUtil: decimal numbers and separated lists as text

    [mf_str_util.h], with [std::to_string], [strtoll] and [strtoull] of the C++ library in
    the C locale.  A string is the list of its bytes. *)
From Stdlib Require Import String Ascii.
From S2P Require Import Prelude.

(** A string literal of the source. *)
Definition lit (s : string) : list Z := (fun c => Z.of_N (N_of_ascii c)) <$> list_ascii_of_string s.
Arguments lit s%_string_scope.

(** ** [std::to_string]: 20 digits are enough for 64 bits. *)
Fixpoint dec_digits (fuel : nat) (n : Z) (acc : list Z) : list Z :=
  match fuel with
  | O => acc
  | S fuel => let acc := 48 + n mod 10 :: acc in
              if n <? 10 then acc else dec_digits fuel (n / 10) acc
  end.
Definition to_string (n : Z) : list Z :=
  if n <? 0 then 45 :: dec_digits 20 (- n) [] else dec_digits 20 n [].

(** ** [strtoll] and [strtoull] *)
Definition is_space (c : Z) : bool := (c =? 32) || ((9 <=? c) && (c <=? 13)).
Definition is_digit (c : Z) : bool := (48 <=? c) && (c <=? 57).

Fixpoint span (p : Z -> bool) (s : list Z) : list Z * list Z :=
  match s with
  | [] => ([], [])
  | c :: s' => if p c then let '(a, b) := span p s' in (c :: a, b) else ([], s)
  end.
Definition skip_space (s : list Z) : list Z := (span is_space s).2.
Definition c_str (s : list Z) : list Z := (span (fun c => negb (c =? 0)) s).1.
Definition dec_value (ds : list Z) : Z := foldl (fun a c => a * 10 + (c - 48)) 0 ds.
Arguments dec_value : simpl never.

(** Sign, digits and the text behind them; no digits means [end == str]. *)
Definition scan_number (s : list Z) : option (bool * Z * list Z) :=
  let s := skip_space s in
  let '(neg, s) := match s with
                   | c :: s' => if c =? 45 then (true, s') else if c =? 43 then (false, s') else (false, s)
                   | [] => (false, s)
                   end in
  let '(ds, rest) := span is_digit s in
  match ds with [] => None | _ => Some (neg, dec_value ds, rest) end.

Definition String2Int (str : list Z) : option Z :=
  match str with
  | [] => None
  | _ =>
      match scan_number (c_str str) with
      | None => None
      | Some (neg, v, rest) =>
          match skip_space rest with
          | _ :: _ => None
          | [] => let result := if neg : bool then - v else v in
                  if (- 2 ^ 63 <=? result) && (result <? 2 ^ 63) then Some result else None
          end
      end
  end.

Definition String2Uint (max : Z) (str : list Z) : option Z :=
  match str with
  | [] => None
  | c :: _ =>
      if c =? 45 then None else
      match scan_number (c_str str) with
      | None => None
      | Some (neg, v, rest) =>
          match skip_space rest with
          | _ :: _ => None
          | [] => let result := u64 (if neg : bool then - v else v) in
                  if (v <? 2 ^ 64) && (result <=? max) then Some result else None
          end
      end
  end.

(** [getline] until the stream is empty: a delimiter at the end adds no item. *)
Fixpoint split_from (delimiter : Z) (item : list Z) (s : list Z) : list (list Z) :=
  match s with
  | [] => match item with [] => [] | _ => [item] end
  | c :: s => if c =? delimiter then item :: split_from delimiter [] s
              else split_from delimiter (item ++ [c]) s
  end.
Definition Split (str : list Z) (delimiter : Z) : list (list Z) := split_from delimiter [] str.

(** ** Numbers survive the text form *)
Lemma dec_value_snoc ds c : dec_value (ds ++ [c]) = dec_value ds * 10 + (c - 48).
Proof. unfold dec_value. by rewrite foldl_app. Qed.

Definition all_digits (ds : list Z) : Prop := Forall (fun c => is_digit c = true) ds.

Lemma digit_char n : is_digit (48 + n mod 10) = true.
Proof. unfold is_digit. pose proof (Z.mod_pos_bound n 10). lia. Qed.

(** The digits of [n] in front of [acc]. *)
Lemma dec_digits_spec fuel n acc :
  0 <= n < 10 ^ Z.of_nat fuel -> (0 < fuel)%nat ->
  exists ds, dec_digits fuel n acc = ds ++ acc /\ ds <> [] /\ all_digits ds /\ dec_value ds = n.
Proof.
  revert n acc. induction fuel as [|fuel IH]; intros n acc Hn Hf; [lia|]. cbn [dec_digits].
  rewrite Nat2Z.inj_succ, Z.pow_succ_r in Hn by lia. destruct (Z.ltb_spec n 10) as [Hs|Hs].
  - exists [48 + n mod 10]. split_and!; [done|done|by repeat constructor; apply digit_char|].
    unfold dec_value. simpl. rewrite Z.mod_small; lia.
  - assert (Hf' : (0 < fuel)%nat) by (destruct fuel; [simpl in Hn; lia|lia]).
    destruct (IH (n / 10) (48 + n mod 10 :: acc)) as (ds & E & Hne & Hd & Hv); [|done|].
    { split; [apply Z.div_pos; lia|apply Z.div_lt_upper_bound; lia]. }
    exists (ds ++ [48 + n mod 10]). split_and!.
    + by rewrite E, <- app_assoc.
    + by destruct ds.
    + apply Forall_app. split; [done|]. repeat constructor. apply digit_char.
    + rewrite dec_value_snoc, Hv. pose proof (Z.div_mod n 10). lia.
Qed.

Lemma span_all p ds rest :
  Forall (fun c => p c = true) ds -> match rest with c :: _ => p c = false | [] => True end ->
  span p (ds ++ rest) = (ds, rest).
Proof.
  intros Hd Hr. induction Hd as [|c ds Hc _ IH]; simpl.
  - destruct rest as [|c rest]; [done|]. simpl. by rewrite Hr.
  - by rewrite Hc, IH.
Qed.
Lemma span_all_nil p ds : Forall (fun c => p c = true) ds -> span p ds = (ds, []).
Proof. intros Hd. rewrite <- (app_nil_r ds) at 1. by apply span_all. Qed.

Lemma digits_no_nul ds : all_digits ds -> Forall (fun c => negb (c =? 0) = true) ds.
Proof. intros Hd. eapply Forall_impl; [exact Hd|]. intros c. simpl. unfold is_digit. lia. Qed.
Lemma c_str_id s : Forall (fun c => negb (c =? 0) = true) s -> c_str s = s.
Proof. intros Hs. unfold c_str. by rewrite span_all_nil. Qed.
Lemma digits_no_space ds : all_digits ds -> skip_space ds = ds.
Proof.
  unfold skip_space. destruct 1 as [|c ds Hc _]; [done|]. simpl.
  replace (is_space c) with false; [done|]. unfold is_space, is_digit in *. lia.
Qed.
Lemma scan_digits ds : all_digits ds -> ds <> [] -> scan_number ds = Some (false, dec_value ds, []).
Proof.
  intros Hd Hne. unfold scan_number. rewrite digits_no_space by done.
  destruct ds as [|c ds]; [done|]. pose proof Hd as Hd'. apply Forall_cons in Hd' as [Hc _].
  unfold is_digit in Hc. rewrite !(proj2 (Z.eqb_neq _ _)) by lia. by rewrite span_all_nil.
Qed.
Lemma scan_neg_digits ds :
  all_digits ds -> ds <> [] -> scan_number (45 :: ds) = Some (true, dec_value ds, []).
Proof. intros Hd Hne. unfold scan_number. simpl. rewrite span_all_nil by done. by destruct ds. Qed.

Lemma dec_text n :
  0 <= n < 2 ^ 64 -> exists ds, dec_digits 20 n [] = ds /\ ds <> [] /\ all_digits ds /\ dec_value ds = n.
Proof.
  intros Hn. assert (Hf : n < 10 ^ Z.of_nat 20) by (change (10 ^ Z.of_nat 20) with 100000000000000000000; lia).
  assert (H0 : (0 < 20)%nat) by lia. revert Hf H0. generalize 20%nat. intros fuel Hf H0.
  destruct (dec_digits_spec fuel n [] ltac:(lia) H0) as (ds & E & ?). exists ds. by rewrite E, app_nil_r.
Qed.
Lemma to_string_nonneg n :
  0 <= n < 2 ^ 64 -> exists ds, to_string n = ds /\ ds <> [] /\ all_digits ds /\ dec_value ds = n.
Proof. intros Hn. unfold to_string. rewrite (proj2 (Z.ltb_ge _ _)) by lia. by apply dec_text. Qed.

Lemma String2Int_to_string n : - 2 ^ 63 <= n < 2 ^ 63 -> String2Int (to_string n) = Some n.
Proof.
  intros Hn. unfold String2Int. destruct (decide (0 <= n)).
  - destruct (to_string_nonneg n ltac:(lia)) as (ds & -> & Hne & Hd & Hv).
    destruct ds as [|c ds]; [done|]. rewrite c_str_id, scan_digits by auto using digits_no_nul.
    cbn [skip_space span snd]. rewrite Hv. by rewrite (proj2 (Z.leb_le _ _)), (proj2 (Z.ltb_lt _ _)) by lia.
  - destruct (dec_text (- n) ltac:(lia)) as (ds & E & Hne & Hd & Hv).
    unfold to_string. rewrite (proj2 (Z.ltb_lt _ _)), E by lia. clear E.
    rewrite c_str_id, scan_neg_digits by (auto using digits_no_nul).
    cbn [skip_space span snd]. rewrite Hv. by rewrite (proj2 (Z.leb_le _ _)), (proj2 (Z.ltb_lt _ _)), Z.opp_involutive by lia.
Qed.
Lemma String2Uint_to_string max n :
  0 <= n <= max -> n < 2 ^ 64 -> String2Uint max (to_string n) = Some n.
Proof.
  intros Hn Hm. unfold String2Uint.
  destruct (to_string_nonneg n ltac:(lia)) as (ds & -> & Hne & Hd & Hv).
  destruct ds as [|c ds]; [done|]. pose proof Hd as Hd'. apply Forall_cons in Hd' as [Hc _].
  unfold is_digit in Hc. rewrite (proj2 (Z.eqb_neq _ _)) by lia.
  rewrite c_str_id, scan_digits by auto using digits_no_nul. cbn [skip_space span snd]. rewrite Hv, u64_small by lia.
  by rewrite (proj2 (Z.ltb_lt _ _)), (proj2 (Z.leb_le _ _)) by lia.
Qed.

(** ** Lists survive the separated form *)
Fixpoint join (delimiter : Z) (l : list (list Z)) : list Z :=
  match l with
  | [] => []
  | [s] => s
  | s :: l => s ++ delimiter :: join delimiter l
  end.
Definition free_of (d : Z) (s : list Z) : Prop := Forall (fun c => c <> d) s.

Lemma split_from_app d item s rest :
  free_of d s -> split_from d item (s ++ rest) = split_from d (item ++ s) rest.
Proof.
  intros Hs. revert item. induction Hs as [|c s Hc _ IH]; intros item; simpl; [by rewrite app_nil_r|].
  rewrite (proj2 (Z.eqb_neq _ _)) by done. by rewrite IH, <- app_assoc.
Qed.
Lemma Split_join d l : Forall (fun s => free_of d s /\ s <> []) l -> Split (join d l) d = l.
Proof.
  unfold Split. induction 1 as [|s l [Hs Hne] Hl IH]; [done|]. destruct l as [|s' l].
  - change (join d [s]) with s. rewrite <- (app_nil_r s) at 1. rewrite split_from_app by done. simpl. by destruct s.
  - change (join d (s :: s' :: l)) with (s ++ d :: join d (s' :: l)).
    rewrite split_from_app by done. cbn [split_from]. rewrite Z.eqb_refl, IH. done.
Qed.
