(* ===== verification/MessagePacker.v ===== *)
(** * MessagePacker: the wire format of the config store

    [smem_message_packer.h/.cpp].  A message is packed as
    [totalSize, userDef, mt, #keys, (size, bytes)*, #values, (size, bytes)*] with the
    integers in the byte order of the machine, which is little endian on every target of
    the build.  Bytes are integers, strings and vectors are lists of them.  The reader is
    a parser over a buffer and an offset that distinguishes an access outside the buffer
    ([Fault]) from the [-1] the code returns ([Reject]). *)
From S2P Require Import Prelude.

Abbreviation bytes := (list Z).
Definition blen (b : bytes) : Z := Z.of_nat (length b).
Definition byte_ok (x : Z) : Prop := 0 <= x < 256.

Inductive MessageType :=
| SET | GET | PREFIX | WATCH | ADD | REMOVE | APPEND | CAS | WRITE | QUERY_ALIVE
| WATCH_RANK_STATE | HEARTBEAT | INVALID_MSG.
#[global] Instance message_type_eq_dec : EqDecision MessageType.
Proof. solve_decision. Defined.

Definition all_message_types : list MessageType :=
  [SET; GET; PREFIX; WATCH; ADD; REMOVE; APPEND; CAS; WRITE; QUERY_ALIVE;
   WATCH_RANK_STATE; HEARTBEAT; INVALID_MSG].

Definition mt_code (t : MessageType) : Z :=
  match t with
  | SET => 0 | GET => 1 | PREFIX => 2 | WATCH => 3 | ADD => 4 | REMOVE => 5 | APPEND => 6
  | CAS => 7 | WRITE => 8 | QUERY_ALIVE => 9 | WATCH_RANK_STATE => 10 | HEARTBEAT => 11
  | INVALID_MSG => 12
  end.

(** The check [SET <= mt <= INVALID_MSG] on the 16-bit value that was read. *)
Definition mt_of_code (c : Z) : option MessageType :=
  if (0 <=? c) && (c <=? 12) then all_message_types !! Z.to_nat c else None.

Record SmemMessage := mkMsg {
  mt : MessageType; userDef : Z; keys : list bytes; values : list bytes }.

Definition MAX_KEY_COUNT : Z := 1024.
Definition MAX_KEY_SIZE : Z := 2048.
Definition MAX_VALUE_COUNT : Z := 1024.
Definition MAX_VALUE_SIZE : Z := 64 * 1024 * 1024.

(** ** Packing *)
Definition PackValue (n v : Z) (dest : bytes) : bytes := dest ++ Z_to_little_endian n 8 v.
Definition PackString (dest str : bytes) : bytes := PackValue 8 (blen str) dest ++ str.
Definition PackBytes (dest b : bytes) : bytes := PackValue 8 (blen b) dest ++ b.

Definition BASE_SIZE : Z := 4 * 8 + 2.
Definition total_size (message : SmemMessage) : Z :=
  foldl (fun n v => u64 (n + (8 + blen v)))
    (foldl (fun n k => u64 (n + (8 + blen k))) BASE_SIZE (keys message)) (values message).

Definition Pack (message : SmemMessage) : bytes :=
  let result := PackValue 8 (total_size message) [] in
  let result := PackValue 8 (userDef message) result in
  let result := PackValue 2 (mt_code (mt message)) result in
  let result := PackValue 8 (Z.of_nat (length (keys message))) result in
  let result := foldl PackString result (keys message) in
  let result := PackValue 8 (Z.of_nat (length (values message))) result in
  foldl PackBytes result (values message).

(** ** Reading *)
Inductive outcome (A : Type) := Fault | Reject | Ok (a : A).
Arguments Fault {A}.
Arguments Reject {A}.
Arguments Ok {A} a.

Definition Reader (A : Type) : Type := bytes -> Z -> outcome (A * Z).
#[global] Instance Reader_ret : MRet Reader := fun A a buf off => Ok (a, off).
#[global] Instance Reader_bind : MBind Reader := fun A B f m buf off =>
  match m buf off with
  | Fault => Fault
  | Reject => Reject
  | Ok (a, off) => f a buf off
  end.

Definition demand (c : bool) : Reader unit := fun _ off => if c then Ok (tt, off) else Reject.
Definition get_offset : Reader Z := fun _ off => Ok (off, off).
Definition buffer_len : Reader Z := fun buf off => Ok (blen buf, off).

(** [n] bytes at the offset, without moving it: [memcpy] and the string constructors. *)
Definition copy_bytes (n : Z) : Reader bytes := fun buf off =>
  if (0 <=? off) && (0 <=? n) && (off + n <=? blen buf)
  then Ok (take (Z.to_nat n) (drop (Z.to_nat off) buf), off) else Fault.
Definition advance (n : Z) : Reader unit := fun _ off => Ok (tt, u64 (off + n)).

(** The pattern of both readers: check, copy [n] bytes, move the offset behind them. *)
Definition take_checked (test : Z -> Z -> bool) (n : Z) : Reader bytes :=
  off ← get_offset;
  bufferLen ← buffer_len;
  demand (test off bufferLen);;
  b ← copy_bytes n;
  advance n;;
  mret b.

Definition ReadScalar (n : Z) : Reader Z :=
  b ← take_checked (fun off bufferLen => u64 (off + n) <=? bufferLen) n;
  mret (little_endian_to_Z 8 b).

(** One key or value: its size, then its bytes. *)
Definition read_sized (limit : Z) : Reader bytes :=
  size ← ReadScalar 8;
  take_checked (fun length bufferLen => (size <=? limit) && (u64 (length + size) <=? bufferLen)) size.

Fixpoint read_many {A} (n : nat) (m : Reader A) : Reader (list A) :=
  match n with
  | O => mret []
  | S n => a ← m; l ← read_many n m; mret (a :: l)
  end.

Definition Full (buffer : option bytes) : bool :=
  match buffer with
  | None => false
  | Some buf =>
      if blen buf <? BASE_SIZE then false else
      match ReadScalar 8 buf 0 with
      | Ok (totalSize, _) => totalSize <=? blen buf
      | _ => false
      end
  end.

Definition MessageSize (buffer : bytes) : Z :=
  if blen buffer <? BASE_SIZE then -1 else i64 (little_endian_to_Z 8 (take 8 buffer)).

Definition i16 (x : Z) : Z := (x + 32768) mod 65536 - 32768.

Definition unpack_fields : Reader (Z * SmemMessage) :=
  totalSize ← ReadScalar 8;
  userDef ← ReadScalar 8;
  code ← ReadScalar 2;
  demand (bool_decide (is_Some (mt_of_code (i16 code))));;
  keyCount ← ReadScalar 8;
  demand (keyCount <=? MAX_KEY_COUNT);;
  keys ← read_many (Z.to_nat keyCount) (read_sized MAX_KEY_SIZE);
  valueCount ← ReadScalar 8;
  demand (valueCount <=? MAX_VALUE_COUNT);;
  values ← read_many (Z.to_nat valueCount) (read_sized MAX_VALUE_SIZE);
  mret (totalSize, mkMsg (default INVALID_MSG (mt_of_code (i16 code))) (i64 userDef) keys values).

Definition unpack_body : Reader (Z * SmemMessage) :=
  r ← unpack_fields;
  length ← get_offset;
  demand (r.1 =? length);;
  mret (i64 r.1, r.2).

(** The size consumed and the message, from a fresh message object. *)
Definition Unpack (buffer : option bytes) : outcome (Z * SmemMessage) :=
  match buffer with
  | None => Reject
  | Some buf =>
      if negb (Full (Some buf)) then Reject else
      match unpack_body buf 0 with
      | Ok (r, _) => Ok r
      | Reject => Reject
      | Fault => Fault
      end
  end.

(** What a sender may put into a message. *)
Definition sized_ok (limit : Z) (b : bytes) : Prop := Forall byte_ok b /\ blen b <= limit.
Record message_wf (m : SmemMessage) : Prop := {
  wf_userDef : - 2 ^ 63 <= userDef m < 2 ^ 63;
  wf_nkeys : Z.of_nat (length (keys m)) <= MAX_KEY_COUNT;
  wf_keys : Forall (sized_ok MAX_KEY_SIZE) (keys m);
  wf_nvalues : Z.of_nat (length (values m)) <= MAX_VALUE_COUNT;
  wf_values : Forall (sized_ok MAX_VALUE_SIZE) (values m);
}.
