(* ===== verification/MessagePackerProof.v ===== *)
(** * The wire format is a canonical encoding and its reader is memory safe *)
From S2P Require Import Prelude MessagePacker.

Abbreviation enc n v := (Z_to_little_endian n 8 v).

Lemma blen_nonneg b : 0 <= blen b.
Proof. unfold blen. lia. Qed.
Lemma blen_app b b' : blen (b ++ b') = blen b + blen b'.
Proof. unfold blen. rewrite length_app. lia. Qed.
Lemma blen_nil : blen [] = 0.
Proof. done. Qed.
Lemma blen_enc n v : 0 <= n -> blen (enc n v) = n.
Proof. intros. unfold blen. by apply length_Z_to_little_endian. Qed.
Lemma take_blen (a b : bytes) : take (Z.to_nat (blen a)) (a ++ b) = a.
Proof. unfold blen. rewrite Nat2Z.id. apply take_app_length. Qed.
Lemma drop_blen (a b : bytes) : drop (Z.to_nat (blen a)) (a ++ b) = b.
Proof. unfold blen. rewrite Nat2Z.id. apply drop_app_length. Qed.
Lemma enc_bytes n v : 0 <= n -> Forall byte_ok (enc n v).
Proof. intros. apply (Z_to_little_endian_bound n 8 v); lia. Qed.
Lemma dec_enc n v : 0 <= n -> little_endian_to_Z 8 (enc n v) = v mod 2 ^ (n * 8).
Proof. intros. apply little_endian_to_Z_to_little_endian; lia. Qed.
Lemma enc_dec n b : blen b = n -> Forall byte_ok b -> enc n (little_endian_to_Z 8 b) = b.
Proof. intros H Hb. apply Z_to_little_endian_to_Z; [done|lia|done]. Qed.
Lemma enc_mod n v : 0 <= n -> enc n (v mod 2 ^ (n * 8)) = enc n v.
Proof.
  intros Hn. rewrite <- dec_enc by done. apply enc_dec; [by apply blen_enc|by apply enc_bytes].
Qed.

(** ** The packed message as a concatenation *)
Definition sized (b : bytes) : bytes := enc 8 (blen b) ++ b.
Definition sized_all (l : list bytes) : bytes := concat (sized <$> l).
Arguments sized : simpl never.
Arguments sized_all : simpl never.

Lemma blen_sized b : blen (sized b) = 8 + blen b.
Proof. unfold sized. rewrite blen_app, blen_enc; lia. Qed.
Lemma blen_sized_cons b l : blen (sized_all (b :: l)) = 8 + blen b + blen (sized_all l).
Proof. change (sized_all (b :: l)) with (sized b ++ sized_all l). by rewrite blen_app, blen_sized. Qed.

Lemma foldl_pack l dest : foldl PackString dest l = dest ++ sized_all l.
Proof.
  revert dest. induction l as [|b l IH]; intros dest; simpl; [by rewrite app_nil_r|].
  rewrite IH. unfold PackString, PackValue, sized_all, sized. simpl. by rewrite <- !app_assoc.
Qed.

Definition header (total : Z) (m : SmemMessage) : bytes :=
  enc 8 total ++ enc 8 (userDef m) ++ enc 2 (mt_code (mt m)).
Definition body (m : SmemMessage) : bytes :=
  enc 8 (Z.of_nat (length (keys m))) ++ sized_all (keys m) ++
  enc 8 (Z.of_nat (length (values m))) ++ sized_all (values m).

Lemma Pack_eq m : Pack m = header (total_size m) m ++ body m.
Proof.
  unfold Pack, header, body. change PackBytes with PackString. rewrite !foldl_pack.
  unfold PackValue. simpl. by rewrite <- !app_assoc.
Qed.
Lemma blen_header total m : blen (header total m) = 18.
Proof. unfold header. rewrite !blen_app, !blen_enc by lia. done. Qed.
Lemma blen_body m :
  blen (body m) = 16 + blen (sized_all (keys m)) + blen (sized_all (values m)).
Proof. unfold body. rewrite !blen_app, !blen_enc by lia. lia. Qed.

Lemma foldl_total l n :
  0 <= n -> n + blen (sized_all l) < 2 ^ 64 ->
  foldl (fun n v => u64 (n + (8 + blen v))) n l = n + blen (sized_all l).
Proof.
  revert n. induction l as [|b l IH]; intros n Hn Hb; simpl; [rewrite Z.add_0_r; done|].
  rewrite blen_sized_cons in *. pose proof (blen_nonneg b). pose proof (blen_nonneg (sized_all l)).
  unwrap. rewrite IH by lia. lia.
Qed.
Lemma sized_all_bound limit l :
  0 <= limit -> Forall (sized_ok limit) l ->
  blen (sized_all l) <= Z.of_nat (length l) * (8 + limit).
Proof.
  intros Hl. induction 1 as [|b l [_ Hb] _ IH]; [done|]. rewrite blen_sized_cons. simpl length. nia.
Qed.
Lemma sized_all_room m :
  message_wf m -> 34 + blen (sized_all (keys m)) + blen (sized_all (values m)) < 2 ^ 63.
Proof.
  intros [_ H1 H2 H3 H4]. unfold MAX_KEY_COUNT, MAX_VALUE_COUNT in *.
  pose proof (sized_all_bound MAX_KEY_SIZE _ ltac:(done) H2).
  pose proof (sized_all_bound MAX_VALUE_SIZE _ ltac:(done) H4).
  unfold MAX_KEY_SIZE, MAX_VALUE_SIZE in *. lia.
Qed.
Lemma total_size_eq m : message_wf m -> total_size m = blen (Pack m).
Proof.
  intros Hm. pose proof (sized_all_room m Hm). unfold total_size.
  pose proof (blen_nonneg (sized_all (keys m))). pose proof (blen_nonneg (sized_all (values m))).
  rewrite Pack_eq, blen_app, blen_header, blen_body. unfold BASE_SIZE.
  rewrite (foldl_total (keys m)) by lia. rewrite foldl_total by lia. lia.
Qed.

(** ** Readers that recognise an encoding *)
Definition parses_at {A} (k : Z) (p : Reader A) (e : bytes) (a : A) : Prop :=
  forall pre post, blen pre = k -> blen (pre ++ e ++ post) < 2 ^ 63 ->
    p (pre ++ e ++ post) k = Ok (a, k + blen e).

Lemma parses_ret {A} k (a : A) : parses_at k (mret a) [] a.
Proof. intros pre post Hk _. unfold mret, Reader_ret. rewrite blen_nil. do 2 f_equal. lia. Qed.
Lemma parses_offset k : parses_at k get_offset [] k.
Proof. intros pre post Hk _. unfold get_offset. rewrite blen_nil. do 2 f_equal. lia. Qed.
Lemma parses_demand k c : c = true -> parses_at k (demand c) [] tt.
Proof. intros -> pre post Hk _. unfold demand. rewrite blen_nil. do 2 f_equal. lia. Qed.
Lemma parses_bind {A B} k (p : Reader A) (f : A -> Reader B) e1 e2 a b :
  parses_at k p e1 a -> parses_at (k + blen e1) (f a) e2 b -> parses_at k (p ≫= f) (e1 ++ e2) b.
Proof.
  intros Hp Hf pre post Hk Hb. unfold mbind, Reader_bind. rewrite <- app_assoc in *.
  rewrite (Hp pre (e2 ++ post)) by done. rewrite app_assoc.
  rewrite (Hf (pre ++ e1) post); [|by rewrite blen_app, Hk|by rewrite <- app_assoc].
  rewrite blen_app. do 2 f_equal. lia.
Qed.
Lemma parses_bind_nil {A B} k (p : Reader A) (f : A -> Reader B) e a b :
  parses_at k p [] a -> parses_at k (f a) e b -> parses_at k (p ≫= f) e b.
Proof.
  intros Hp Hf. change e with ([] ++ e). eapply parses_bind; [done|]. by rewrite blen_nil, Z.add_0_r.
Qed.
Lemma parses_bind_end {A B} k (p : Reader A) (f : A -> Reader B) e a b :
  parses_at k p e a -> parses_at (k + blen e) (f a) [] b -> parses_at k (p ≫= f) e b.
Proof. intros Hp Hf. rewrite <- (app_nil_r e). by eapply parses_bind. Qed.

Lemma parses_take k n e (test : Z -> Z -> bool) :
  blen e = n -> 0 <= k -> (forall l, k + n <= l < 2 ^ 63 -> test k l = true) ->
  parses_at k (take_checked test n) e e.
Proof.
  intros Hn H0 Ht pre post Hk Hb. pose proof (blen_nonneg e). pose proof (blen_nonneg post).
  rewrite !blen_app in Hb.
  unfold take_checked, mbind, Reader_bind, get_offset, buffer_len, demand, copy_bytes, advance.
  rewrite !blen_app, Ht by lia. rewrite !(proj2 (Z.leb_le _ _)) by lia. simpl.
  rewrite <- Hk, drop_blen, <- Hn, take_blen. unfold mret, Reader_ret.
  unwrap. done.
Qed.
Lemma parses_scalar k n v : 0 <= k -> 0 <= n -> parses_at k (ReadScalar n) (enc n v) (v mod 2 ^ (n * 8)).
Proof.
  intros Hk Hn. unfold ReadScalar. eapply parses_bind_end; [apply parses_take|].
  - by apply blen_enc.
  - done.
  - intros l Hl. unwrap. lia.
  - rewrite dec_enc by done. apply parses_ret.
Qed.
Lemma parses_scalar_small k n v :
  0 <= k -> 0 <= n -> 0 <= v < 2 ^ (n * 8) -> parses_at k (ReadScalar n) (enc n v) v.
Proof. intros Hk Hn Hv. rewrite <- (Z.mod_small v (2 ^ (n * 8))) at 2 by done. by apply parses_scalar. Qed.
Lemma parses_sized k limit b :
  0 <= k -> limit < 2 ^ 63 -> blen b <= limit -> parses_at k (read_sized limit) (sized b) b.
Proof.
  intros Hk Hl Hb. pose proof (blen_nonneg b). unfold read_sized, sized.
  eapply parses_bind; [apply parses_scalar_small; lia|]. rewrite blen_enc by lia.
  apply parses_take; [done|lia|]. intros l Hl'. unwrap. lia.
Qed.
Lemma read_many_cons {A B} (b : B) l (m : Reader A) :
  read_many (length (b :: l)) m = (a ← m; r ← read_many (length l) m; mret (a :: r)).
Proof. done. Qed.
Lemma parses_many k limit l :
  0 <= k -> limit < 2 ^ 63 -> Forall (fun b => blen b <= limit) l ->
  parses_at k (read_many (length l) (read_sized limit)) (sized_all l) l.
Proof.
  intros Hk Hl H. revert k Hk. induction H as [|b l Hb _ IH]; intros k Hk; [apply parses_ret|].
  change (sized_all (b :: l)) with (sized b ++ sized_all l). rewrite read_many_cons.
  eapply parses_bind; [by apply parses_sized|]. pose proof (blen_nonneg (sized b)).
  eapply parses_bind_end; [apply IH; lia|apply parses_ret].
Qed.
Lemma sized_ok_blen limit l : Forall (sized_ok limit) l -> Forall (fun b => blen b <= limit) l.
Proof. intros H. eapply Forall_impl; [exact H|]. by intros b []. Qed.

(** ** Readers stay inside the buffer, and what they accept is an encoding *)
Definition sound {A} (p : Reader A) (Enc : A -> bytes -> Prop) : Prop :=
  forall buf off, Forall byte_ok buf -> 0 <= off <= blen buf -> blen buf < 2 ^ 63 ->
    match p buf off with
    | Fault => False
    | Reject => True
    | Ok (a, off') => exists e, Enc a e /\ Forall byte_ok e /\ blen e = off' - off /\ off' <= blen buf /\
        drop (Z.to_nat off) buf = e ++ drop (Z.to_nat off') buf
    end.

Lemma sound_weaken {A} (p : Reader A) (E E' : A -> bytes -> Prop) :
  sound p E -> (forall a e, Forall byte_ok e -> E a e -> E' a e) -> sound p E'.
Proof.
  intros Hp HE buf off Hk Ho Hb. specialize (Hp buf off Hk Ho Hb).
  destruct (p buf off) as [| |[a off']]; [done|done|]. destruct Hp as (e & ? & ? & ?). exists e. auto.
Qed.
Lemma sound_nil {A} (a : A) buf off (E : A -> bytes -> Prop) :
  0 <= off <= blen buf -> E a [] ->
  exists e, E a e /\ Forall byte_ok e /\ blen e = off - off /\ off <= blen buf /\
    drop (Z.to_nat off) buf = e ++ drop (Z.to_nat off) buf.
Proof. intros Ho HE. exists []. split_and!; auto; [rewrite blen_nil; lia|lia]. Qed.
Lemma sound_ret {A} (a : A) : sound (mret a) (fun a' e => a' = a /\ e = []).
Proof. intros buf off Hk Ho Hb. by apply (sound_nil a buf off (fun a' e => a' = a /\ e = [])). Qed.
Lemma sound_demand c : sound (demand c) (fun _ e => c = true /\ e = []).
Proof. intros buf off Hk Ho Hb. unfold demand. destruct c; [|done].
  by apply (sound_nil tt buf off (fun _ e => true = true /\ e = [])).
Qed.
Lemma sound_bind {A B} (p : Reader A) (f : A -> Reader B) (E : A -> bytes -> Prop) (F : A -> B -> bytes -> Prop) :
  sound p E -> (forall a e, Forall byte_ok e -> E a e -> sound (f a) (F a)) ->
  sound (p ≫= f) (fun b e => exists a e1 e2, e = e1 ++ e2 /\ E a e1 /\ F a b e2).
Proof.
  intros Hp Hf buf off Hk Ho Hb. unfold mbind, Reader_bind. specialize (Hp buf off Hk Ho Hb).
  destruct (p buf off) as [| |[a off1]]; [done|done|]. destruct Hp as (e1 & HE & Hk1 & Hl1 & Hm1 & Hd1).
  pose proof (blen_nonneg e1). specialize (Hf a e1 Hk1 HE buf off1 Hk ltac:(lia) Hb).
  destruct (f a buf off1) as [| |[b off2]]; [done|done|].
  destruct Hf as (e2 & HF & Hk2 & Hl2 & Hm2 & Hd2).
  exists (e1 ++ e2). split_and!; [by exists a, e1, e2|by apply Forall_app|rewrite blen_app; lia|lia|].
  by rewrite Hd1, Hd2, <- app_assoc.
Qed.
Lemma sound_take test n :
  (forall off l, 0 <= off <= l -> l < 2 ^ 63 -> test off l = true -> 0 <= n /\ off + n <= l) ->
  sound (take_checked test n) (fun b e => b = e /\ blen e = n).
Proof.
  intros Ht buf off Hk Ho Hb.
  unfold take_checked, mbind, Reader_bind, get_offset, buffer_len, demand, copy_bytes, advance.
  destruct (test off (blen buf)) eqn:E; [|done]. destruct (Ht _ _ Ho Hb E) as [Hn Hm].
  rewrite !(proj2 (Z.leb_le _ _)) by lia. simpl. unfold mret, Reader_ret.
  assert (Hl : blen (take (Z.to_nat n) (drop (Z.to_nat off) buf)) = n).
  { unfold blen in *. rewrite length_take, length_drop. lia. }
  eexists. unwrap. split_and!; [reflexivity|exact Hl| |lia|lia|].
  - by apply Forall_take, Forall_drop.
  - replace (Z.to_nat (off + n)) with (Z.to_nat off + Z.to_nat n)%nat by lia.
    rewrite <- drop_drop. symmetry. apply take_drop.
Qed.
Lemma sound_scalar n :
  0 <= n < 2 ^ 32 ->
  sound (ReadScalar n) (fun v e => e = enc n v /\ 0 <= v < 2 ^ (n * 8)).
Proof.
  intros Hn. unfold ReadScalar. eapply sound_weaken.
  - eapply sound_bind; [apply sound_take|intros a e _ _; apply sound_ret].
    intros off l Ho Hl. unwrap. lia.
  - intros v e Hk (a & e1 & e2 & -> & [-> He] & -> & ->). rewrite app_nil_r in *.
    split; [by rewrite enc_dec|]. rewrite <- He. apply (little_endian_to_Z_bound 8 e1); [lia|done].
Qed.
Lemma sound_sized limit :
  0 <= limit < 2 ^ 63 -> sound (read_sized limit) (fun b e => e = sized b /\ sized_ok limit b).
Proof.
  intros Hl. unfold read_sized. eapply sound_weaken.
  - apply (sound_bind _ _ _ (fun size b e => b = e /\ blen e = size /\ size <= limit) (sound_scalar 8 ltac:(done))).
    intros size e _ [_ Hs].
    destruct (Z.leb_spec size limit).
    + eapply sound_weaken; [apply sound_take|].
      * intros off l Ho Hb Ht. simpl in Ht. rewrite u64_small in Ht by lia. lia.
      * by intros b e' _ [-> ->].
    + by intros buf off _ _ _; unfold take_checked, mbind, Reader_bind, get_offset, buffer_len, demand; simpl.
  - intros b e Hk (size & e1 & e2 & -> & [-> Hs] & -> & <- & Hb). apply Forall_app in Hk as [_ Hk].
    split; [done|]. by split.
Qed.
Lemma sound_many limit n :
  0 <= limit < 2 ^ 63 ->
  sound (read_many n (read_sized limit))
    (fun l e => e = sized_all l /\ length l = n /\ Forall (sized_ok limit) l).
Proof.
  intros Hl. induction n as [|n IH].
  - eapply sound_weaken; [apply sound_ret|]. by intros l e _ [-> ->].
  - change (read_many (S n) (read_sized limit)) with
      (a ← read_sized limit; l ← read_many n (read_sized limit); mret (a :: l)).
    eapply sound_weaken.
    + eapply sound_bind; [by apply sound_sized|]. intros a _ _ _.
      eapply sound_bind; [exact IH|]. intros l _ _ _. apply sound_ret.
    + intros l e _ (b & e1 & e2 & -> & [-> Hb] & l' & e3 & e4 & -> & (-> & Hn & Hl') & -> & ->).
      rewrite app_nil_r. simpl. auto.
Qed.

(** ** The message types and the signed fields *)
Lemma i16_small x : -32768 <= x < 32768 -> i16 x = x.
Proof. unfold i16. intros. rewrite Z.mod_small; lia. Qed.
Lemma i64_mod x : - 2 ^ 63 <= x < 2 ^ 63 -> i64 (x mod 2 ^ 64) = x.
Proof.
  intros Hx. unfold i64. change 18446744073709551616 with (2 ^ 64).
  rewrite Zplus_mod_idemp_l, Z.mod_small; lia.
Qed.
Lemma i64_range x : - 2 ^ 63 <= i64 x < 2 ^ 63.
Proof. unfold i64. pose proof (Z.mod_pos_bound (x + 9223372036854775808) 18446744073709551616). lia. Qed.
Lemma enc_i64 x : enc 8 (i64 x) = enc 8 x.
Proof.
  rewrite <- (enc_mod 8 (i64 x)), <- (enc_mod 8 x) by lia. f_equal. change (2 ^ (8 * 8)) with 18446744073709551616.
  unfold i64. rewrite Zminus_mod, Zmod_mod, <- Zminus_mod. f_equal. lia.
Qed.
Lemma enc_i16 x : enc 2 (i16 x) = enc 2 x.
Proof.
  rewrite <- (enc_mod 2 (i16 x)), <- (enc_mod 2 x) by lia. f_equal. change (2 ^ (2 * 8)) with 65536.
  unfold i16. rewrite Zminus_mod, Zmod_mod, <- Zminus_mod. f_equal. lia.
Qed.
Lemma mt_code_range t : 0 <= mt_code t <= 12.
Proof. by destruct t. Qed.
Lemma mt_of_mt_code t : mt_of_code (mt_code t) = Some t.
Proof. by destruct t. Qed.
Lemma mt_of_code_inv c t : mt_of_code c = Some t -> mt_code t = c.
Proof.
  unfold mt_of_code. destruct (Z.leb_spec 0 c), (Z.leb_spec c 12); simpl; try done.
  intros Ht. assert (Hc : c ∈ seqZ 0 13) by (apply elem_of_seqZ; lia).
  vm_compute in Hc. repeat (apply elem_of_cons in Hc as [->|Hc]; [simpl in Ht; by simplify_eq|]).
  by apply elem_of_nil in Hc.
Qed.

(** ** The whole message *)
Lemma parses_fields total m :
  message_wf m -> 0 <= total < 2 ^ 64 -> parses_at 0 unpack_fields (header total m ++ body m) (total, m).
Proof.
  intros [Hu Hnk Hks Hnv Hvs] Ht. pose proof (mt_code_range (mt m)).
  unfold MAX_KEY_COUNT, MAX_VALUE_COUNT in *. pose proof (blen_nonneg (sized_all (keys m))).
  unfold header, body. rewrite <- !app_assoc. unfold unpack_fields.
  eapply parses_bind; [by apply parses_scalar_small|]. rewrite blen_enc by lia.
  eapply parses_bind; [by apply parses_scalar|]. rewrite blen_enc by lia.
  eapply parses_bind; [by apply (parses_scalar_small _ 2); [|lia|lia]|]. rewrite blen_enc by lia.
  rewrite i16_small by lia. rewrite mt_of_mt_code.
  eapply parses_bind_nil; [by apply parses_demand|].
  eapply parses_bind; [apply parses_scalar_small; lia|]. rewrite blen_enc by lia.
  eapply parses_bind_nil; [apply parses_demand; unfold MAX_KEY_COUNT; lia|]. rewrite Nat2Z.id.
  eapply parses_bind; [apply parses_many; [lia|done|by apply sized_ok_blen]|].
  eapply parses_bind; [apply parses_scalar_small; lia|]. rewrite blen_enc by lia.
  eapply parses_bind_nil; [apply parses_demand; unfold MAX_VALUE_COUNT; lia|]. rewrite Nat2Z.id.
  eapply parses_bind_end; [apply parses_many; [lia|done|by apply sized_ok_blen]|].
  simpl. change (8 * 8) with 64. rewrite i64_mod by done. destruct m. apply parses_ret.
Qed.

Lemma sound_fields :
  sound unpack_fields (fun r e => e = header r.1 r.2 ++ body r.2 /\ message_wf r.2 /\ 0 <= r.1 < 2 ^ 64).
Proof.
  unfold unpack_fields. eapply sound_weaken.
  - eapply sound_bind; [by apply sound_scalar|]. intros total ? ? ?.
    eapply sound_bind; [by apply sound_scalar|]. intros ud ? ? ?.
    eapply sound_bind; [by apply sound_scalar|]. intros code ? ? ?.
    eapply sound_bind; [apply sound_demand|]. intros u0 ? ? ?.
    eapply sound_bind; [by apply sound_scalar|]. intros nk ? ? ?.
    eapply sound_bind; [apply sound_demand|]. intros u1 ? ? ?.
    eapply sound_bind; [by apply sound_many|]. intros ks ? ? ?.
    eapply sound_bind; [by apply sound_scalar|]. intros nv ? ? ?.
    eapply sound_bind; [apply sound_demand|]. intros u2 ? ? ?.
    eapply sound_bind; [by apply sound_many|]. intros vs ? ? ?. apply sound_ret.
  - intros r e _ H.
    destruct H as (total & ? & ? & -> & [-> Ht] & ud & ? & ? & -> & [-> Hu] & code & ? & ? & -> & [-> Hc] & H).
    destruct H as ([] & ? & ? & -> & [Hm ->] & nk & ? & ? & -> & [-> Hk] & [] & ? & ? & -> & [Hk' ->] & H).
    destruct H as (ks & ? & ? & -> & (-> & Hnk & Hks) & nv & ? & ? & -> & [-> Hv] & [] & ? & ? & -> & [Hv' ->] & H).
    destruct H as (vs & ? & ? & -> & (-> & Hnv & Hvs) & -> & ->). cbn [fst snd].
    apply bool_decide_eq_true in Hm as [t Hm]. rewrite Hm. cbn [default id].
    unfold header, body. cbn [mt userDef keys values]. rewrite app_nil_r, <- !app_assoc, !app_nil_l.
    rewrite (mt_of_code_inv _ _ Hm), enc_i16, enc_i64, Hnk, Hnv, !Z2Nat.id by lia.
    split_and!; [done| |lia|lia]. split; simpl; [apply i64_range|lia|done|lia|done].
Qed.

Lemma parses_start {A} (p : Reader A) e a post :
  parses_at 0 p e a -> blen (e ++ post) < 2 ^ 63 -> p (e ++ post) 0 = Ok (a, blen e).
Proof. intros Hp Hb. exact (Hp [] post eq_refl Hb). Qed.
Lemma Pack_room m : message_wf m -> 34 <= blen (Pack m) < 2 ^ 63.
Proof.
  intros Hm. pose proof (sized_all_room m Hm). rewrite Pack_eq, blen_app, blen_header, blen_body.
  pose proof (blen_nonneg (sized_all (keys m))). pose proof (blen_nonneg (sized_all (values m))). lia.
Qed.
Lemma Full_Pack m rest :
  message_wf m -> blen (Pack m ++ rest) < 2 ^ 63 -> Full (Some (Pack m ++ rest)) = true.
Proof.
  intros Hm Hb. pose proof (Pack_room m Hm). pose proof (total_size_eq m Hm) as Ht.
  pose proof (blen_nonneg rest). unfold Full.
  rewrite (proj2 (Z.ltb_ge _ _)) by (rewrite blen_app; unfold BASE_SIZE; lia).
  assert (exists tail, Pack m ++ rest = enc 8 (total_size m) ++ tail) as [tail Etail].
  { rewrite Pack_eq. unfold header. rewrite <- !app_assoc. eauto. }
  rewrite Etail in Hb |- *. rewrite (parses_start _ _ (total_size m)); [|apply parses_scalar_small; lia|done].
  rewrite <- Etail, Ht, blen_app. lia.
Qed.

Lemma Unpack_Pack m rest :
  message_wf m -> blen (Pack m ++ rest) < 2 ^ 63 -> Unpack (Some (Pack m ++ rest)) = Ok (blen (Pack m), m).
Proof.
  intros Hm Hb. pose proof (total_size_eq m Hm) as Ht. pose proof (Pack_room m Hm).
  unfold Unpack. rewrite Full_Pack by done. cbn [negb]. unfold unpack_body, mbind, Reader_bind.
  rewrite Pack_eq in Hb |- * at 1. rewrite (parses_start _ _ _ rest (parses_fields (total_size m) m Hm ltac:(lia)) Hb).
  unfold get_offset, demand. cbn [fst snd]. rewrite <- Pack_eq, Ht, Z.eqb_refl.
  unfold mret, Reader_ret. rewrite <- (Z.mod_small (blen (Pack m)) (2 ^ 64)) at 1 by lia.
  by rewrite i64_mod by lia.
Qed.

Lemma unpack_body_sound buf :
  Forall byte_ok buf -> blen buf < 2 ^ 63 ->
  match unpack_body buf 0 with
  | Fault => False
  | Reject => True
  | Ok (n, m, _) => message_wf m /\ blen (Pack m) = n /\ n <= blen buf /\ take (Z.to_nat n) buf = Pack m
  end.
Proof.
  intros Hk Hb. unfold unpack_body, mbind, Reader_bind.
  pose proof (sound_fields buf 0 Hk ltac:(pose proof (blen_nonneg buf); lia) Hb) as Hs.
  destruct (unpack_fields buf 0) as [| |[[total m] off]]; [done|done|].
  destruct Hs as (e & (-> & Hm & Ht) & _ & Hl & Ho & Hd). cbn [fst snd] in *.
  unfold get_offset, demand. destruct (Z.eqb_spec total off) as [->|]; [|done].
  unfold mret, Reader_ret. rewrite Z.sub_0_r in Hl.
  assert (Hp : blen (Pack m) = off).
  { rewrite Pack_eq, blen_app, blen_header, <- Hl, blen_app, blen_header. done. }
  pose proof (total_size_eq m Hm) as Et. rewrite Hp in Et. rewrite <- Et in Hd at 1. rewrite <- Pack_eq in Hd.
  pose proof (Pack_room m Hm).
  assert (Hi : i64 off = off).
  { rewrite <- (Z.mod_small off (2 ^ 64)) at 1 by lia. apply i64_mod. lia. }
  rewrite Hi. split_and!; [done|done|done|].
  change (drop (Z.to_nat 0) buf) with buf in Hd. rewrite Hd, <- Hp. apply take_blen.
Qed.
