(* ===== verification/StoreBackend.v ===== *)
(** * StoreBackend: what the config store server asks of its storage

    The abstract class of [smem_config_store_backend.h] as a type class, the documented
    meaning of its operations as a second class against a finite map, and the in-memory
    implementation of [smem_local_memory_backend.h/.cpp] as the instance of both.  The
    etcd implementation is a client of an external service and has no instance. *)
From stdpp Require Import gmap sorting.
From S2P Require Import Prelude StrUtil MessagePacker.

Definition SUCCESS : Z := 0.
Definition ERROR : Z := -1.
Definition INVALID_MESSAGE : Z := -400.
Definition INVALID_KEY : Z := -401.
Definition NOT_EXIST : Z := -404.
Definition TIMEOUT : Z := -601.

(** [outValue] is a reference: [Get] receives the caller's vector and returns it. *)
Class ConfigStoreBackend (B : Type) := {
  Get : bytes -> bytes -> B -> Z * bytes;
  PrefixGet : bytes -> B -> Z * gmap bytes bytes;
  Put : bytes -> bytes -> Z -> B -> Z * B;
  Delete : bytes -> B -> Z * B;
  Exist : bytes -> B -> Z;
  Clear : B -> B;
  IsDistributed : B -> bool;
}.

Definition starts_with (prefix s : bytes) : Prop := take (length prefix) s = prefix.
#[global] Instance starts_with_dec prefix s : Decision (starts_with prefix s).
Proof. unfold starts_with. apply _. Defined.

(** The contract in the comments of the interface, for a backend that forgets nothing: a
    failing [Put] or [Delete] changes nothing. *)
Class ReliableBackend (B : Type) `{ConfigStoreBackend B} := {
  contents : B -> gmap bytes bytes;
  Get_law k out b :
    Get k out b = match contents b !! k with Some v => (SUCCESS, v) | None => (NOT_EXIST, out) end;
  Exist_law k b :
    Exist k b = match contents b !! k with Some _ => SUCCESS | None => NOT_EXIST end;
  PrefixGet_law k b :
    PrefixGet k b = (SUCCESS, filter (fun kv => starts_with k kv.1) (contents b));
  Put_law k v ttl b :
    let '(ret, b') := Put k v ttl b in
    IsDistributed b' = IsDistributed b /\
    contents b' = if decide (ret = SUCCESS) then <[k := v]> (contents b) else contents b;
  Delete_law k b :
    let '(ret, b') := Delete k b in
    IsDistributed b' = IsDistributed b /\
    contents b' = (if decide (ret = SUCCESS) then delete k (contents b) else contents b) /\
    (contents b !! k = None -> ret <> SUCCESS);
  Clear_law b : contents (Clear b) = ∅ /\ IsDistributed (Clear b) = IsDistributed b;
}.

(** ** The order of [std::map<std::string, ...>]: bytewise *)
Fixpoint bytes_leb (a b : bytes) : bool :=
  match a, b with
  | [], _ => true
  | _ :: _, [] => false
  | x :: a, y :: b => if x <? y then true else if x =? y then bytes_leb a b else false
  end.
Definition entry_le (a b : bytes * bytes) : Prop := bytes_leb a.1 b.1 = true.
#[global] Instance entry_le_dec : RelDecision entry_le.
Proof. intros a b. unfold entry_le. apply _. Defined.

Definition ordered_entries (m : gmap bytes bytes) : list (bytes * bytes) :=
  merge_sort entry_le (map_to_list m).
Fixpoint take_while {A} (p : A -> bool) (l : list A) : list A :=
  match l with [] => [] | a :: l => if p a then a :: take_while p l else [] end.
(** The entries from the first one whose key is not below [key]. *)
Fixpoint lower_bound (key : bytes) (l : list (bytes * bytes)) : list (bytes * bytes) :=
  match l with
  | [] => []
  | kv :: l' => if bytes_leb key kv.1 then l else lower_bound key l'
  end.

Lemma bytes_leb_total a b : bytes_leb a b = true \/ bytes_leb b a = true.
Proof.
  revert b. induction a as [|x a IH]; intros [|y b]; simpl; auto.
  destruct (Z.ltb_spec x y), (Z.ltb_spec y x), (Z.eqb_spec x y), (Z.eqb_spec y x); auto; lia.
Qed.
Lemma bytes_leb_trans a b c : bytes_leb a b = true -> bytes_leb b c = true -> bytes_leb a c = true.
Proof.
  revert b c. induction a as [|x a IH]; intros [|y b] [|z c]; simpl; try done.
  destruct (Z.ltb_spec x y), (Z.ltb_spec y z), (Z.ltb_spec x z), (Z.eqb_spec x y), (Z.eqb_spec y z),
    (Z.eqb_spec x z); try done; try lia. apply IH.
Qed.
#[global] Instance entry_le_total : Total entry_le.
Proof. intros a b. apply bytes_leb_total. Qed.
#[global] Instance entry_le_trans : Transitive entry_le.
Proof. intros a b c. apply bytes_leb_trans. Qed.

Lemma prefix_leb k s : starts_with k s -> bytes_leb k s = true.
Proof.
  unfold starts_with. revert s. induction k as [|x k IH]; intros [|y s]; simpl; try done.
  intros [= -> Hs]. rewrite Z.ltb_irrefl, Z.eqb_refl. by apply IH.
Qed.
(** Above [k], the keys with prefix [k] come first. *)
Lemma prefix_segment k s s' :
  bytes_leb k s = true -> ~ starts_with k s -> bytes_leb s s' = true -> ~ starts_with k s'.
Proof.
  unfold starts_with. revert s s'. induction k as [|x k IH]; intros s s'.
  { intros _ H. by destruct H. }
  destruct s as [|y s], s' as [|z s']; simpl; try done. intros H1 H2 H3 H4. injection H4 as -> H4.
  destruct (Z.ltb_spec x y), (Z.ltb_spec y x), (Z.eqb_spec x y), (Z.eqb_spec y x); subst; try done; try lia.
  apply (IH s s'); [done| |done|done]. intros E. by rewrite E in H2.
Qed.

Lemma take_while_all k (l : list (bytes * bytes)) s :
  Forall (fun kv => bytes_leb s kv.1 = true) l -> bytes_leb k s = true -> ~ starts_with k s ->
  filter (fun kv => starts_with k kv.1) l = [].
Proof.
  intros Hl Hk Hs. induction Hl as [|kv l Hkv _ IH]; [done|]. rewrite filter_cons_False; [done|].
  by apply (prefix_segment k s).
Qed.
Lemma lower_bound_prefix k l :
  StronglySorted entry_le l ->
  take_while (fun kv => bool_decide (starts_with k kv.1)) (lower_bound k l) =
  filter (fun kv => starts_with k kv.1) l.
Proof.
  induction 1 as [|kv l Hs IH Hkv]; [done|]. cbn [lower_bound].
  destruct (decide (starts_with k kv.1)) as [Hp|Hp].
  - rewrite filter_cons_True, prefix_leb by done. cbn [take_while]. rewrite bool_decide_true by done. f_equal.
    rewrite <- IH. f_equal. destruct l as [|kv' l]; [done|]. cbn [lower_bound].
    apply Forall_cons in Hkv as [Hkv _]. by rewrite (bytes_leb_trans k kv.1 kv'.1) by auto using prefix_leb.
  - rewrite filter_cons_False by done. destruct (bytes_leb k kv.1) eqn:E; [|done].
    cbn [take_while]. rewrite bool_decide_false by done. symmetry. by apply (take_while_all k l kv.1).
Qed.

Lemma ordered_prefix k m :
  list_to_map (take_while (fun kv => bool_decide (starts_with k kv.1)) (lower_bound k (ordered_entries m)))
  =@{gmap bytes bytes} filter (fun kv => starts_with k kv.1) m.
Proof.
  rewrite lower_bound_prefix by (apply StronglySorted_merge_sort; apply _).
  rewrite map_filter_alt. symmetry. apply list_to_map_proper.
  - eapply sublist_NoDup; [apply (NoDup_fst_map_to_list m)|]. apply fmap_sublist, sublist_filter.
  - unfold ordered_entries. by rewrite merge_sort_Permutation.
Qed.

(** ** The local backend *)
Record SmemLocalMemoryBackend := mkLocalStore { kvStore_ : gmap bytes bytes }.

Definition local_Get (key outValue : bytes) (b : SmemLocalMemoryBackend) : Z * bytes :=
  match kvStore_ b !! key with
  | None => (NOT_EXIST, outValue)
  | Some v => (SUCCESS, v)
  end.
(** [lower_bound(key)], then as long as the key has the prefix. *)
Definition local_PrefixGet (key : bytes) (b : SmemLocalMemoryBackend) : Z * gmap bytes bytes :=
  (SUCCESS, list_to_map (take_while (fun kv => bool_decide (starts_with key kv.1))
              (lower_bound key (ordered_entries (kvStore_ b))))).
Definition local_Put (key value : bytes) (ttlSeconds : Z) (b : SmemLocalMemoryBackend)
  : Z * SmemLocalMemoryBackend :=
  (SUCCESS, mkLocalStore (<[key := value]> (kvStore_ b))).
Definition local_Delete (key : bytes) (b : SmemLocalMemoryBackend) : Z * SmemLocalMemoryBackend :=
  (match kvStore_ b !! key with Some _ => SUCCESS | None => NOT_EXIST end,
   mkLocalStore (delete key (kvStore_ b))).
Definition local_Exist (key : bytes) (b : SmemLocalMemoryBackend) : Z :=
  match kvStore_ b !! key with Some _ => SUCCESS | None => NOT_EXIST end.
Definition local_Clear (b : SmemLocalMemoryBackend) : SmemLocalMemoryBackend := mkLocalStore ∅.

#[global] Instance local_backend : ConfigStoreBackend SmemLocalMemoryBackend := {|
  Get := local_Get; PrefixGet := local_PrefixGet; Put := local_Put; Delete := local_Delete;
  Exist := local_Exist; Clear := local_Clear; IsDistributed := fun _ => false |}.

#[global, refine] Instance local_reliable : ReliableBackend SmemLocalMemoryBackend := {|
  contents := kvStore_ |}.
Proof.
  - done.
  - done.
  - intros k b. simpl. unfold local_PrefixGet. by rewrite ordered_prefix.
  - intros k v ttl b. simpl. done.
  - intros k b. simpl. destruct (kvStore_ b !! k) eqn:E.
    + by rewrite decide_True.
    + rewrite decide_False by done. by rewrite delete_id.
  - done.
Defined.
