(* ===== verification/StoreServer.v ===== *)
(** * StoreServer: the config store server

    [smem_tcp_config_store_server.h/.cpp].  The server keeps the key-value contents in a
    backend, the requests that wait for a key (with or without a timeout), the watchers of
    keys and of rank failures, and the set of ranks that are alive.  Every handler runs
    under [storeMutex_], so a handler is one transition of the state; the timer, checker
    and rank-state threads contribute one transition per round.  Replies are appended to a
    log, [None] is an access outside an object.  The backend is any instance of
    [ConfigStoreBackend].  A request context carries its link: the TCP server creates it
    for one, so the two assertions on a null link are not modelled, and neither is a
    failing allocation of a reply buffer.  Sets and maps of the C++ library are iterated in
    the order of [elements] and [map_to_list]; [timedWaiters_.begin()] is a parameter. *)
From Stdlib Require Import String.
From stdpp Require Import gmap.
From S2P Require Import Prelude Simt StrUtil MessagePacker StoreBackend.

Definition SM_OK : Z := 0.
Definition SM_ERROR : Z := -1.
Definition SM_INVALID_PARAM : Z := -2000.
Definition SM_REPEAT_CALL : Z := -2005.
Definition SM_RECONNECT : Z := -2010.

Definition MAX_KEY_LEN_SERVER : Z := 2048.
Definition MAX_U16_INDEX : Z := 65535.
Definition SERVER_RECOVER_TIME : Z := 5 * 1000 * 1000.
Definition HEARTBEAT_INTERVAL : Z := 2000.
Definition HEARTBEAT_TIMEOUT : Z := 3.
Definition EPHEMERAL_KEY_TTL_SEC : Z := 5.
Definition MAX_WRITE_TOTAL_SIZE : Z := MAX_VALUE_SIZE * 16.
Definition UINT32_MAX : Z := 4294967295.
Definition SIZE_MAX : Z := 18446744073709551615.
Definition LONG_MAX : Z := 9223372036854775807.
Definition LONG_MIN : Z := -9223372036854775808.

Definition autoRankingStr_ : bytes := lit "AutoRanking#".
Definition WATCH_RANK_DOWN_KEY : bytes := lit "WATCH_RANK_DOWN_KEY".
Definition KEY_LEADER_STATUS : bytes := lit "/memfabric_hybrid/config_store/meta/leader_status".
Definition KEY_WORLD_SIZE : bytes := lit "/memfabric_hybrid/config_store/data/world_size".
Definition KEY_ALIVE_RANK_LIST : bytes := lit "/memfabric_hybrid/config_store/data/alive_rank_list".

(** ** State *)
Record ReqCtx := mkCtx { SeqNo : Z; LinkId : Z }.
Record StoreWaitContext := mkWait { id_ : Z; timeoutMs_ : Z; key_ : bytes; reqCtx_ : ReqCtx }.
Record Reply := mkReply { r_ctx : ReqCtx; r_code : Z; r_body : bytes }.

Inductive StoreServerState := SS_INITED | SS_RECOVER | SS_NORMAL | SS_EXITED.

Record Waiting := mkWaiting {
  waitCtx_ : gmap Z StoreWaitContext; keyWaiters_ : gmap bytes (gset Z);
  timedWaiters_ : gmap Z (gset Z); idGen_ : Z }.
Record Watching := mkWatching {
  watchWaiters_ : gmap bytes (gmap Z StoreWaitContext); linkWatchList_ : gmap Z (list bytes);
  rankStateWaiters_ : gmap Z StoreWaitContext }.
Record Ranks := mkRanks {
  aliveRankSet_ : gset Z; rankIndex_ : Z; worldSize_ : Z; rankStateTaskQueue_ : list Z;
  aliveRankFromBackend_ : gset Z }.
Record Life := mkLife {
  state_ : StoreServerState; skipRecover_ : bool; startT : option Z; heartBeatMap_ : gmap Z Z }.

Record Server (B : Type) := mkServer {
  backend_ : B; waiting : Waiting; watching : Watching; ranks : Ranks; life : Life;
  externalBrokenHandler_ : option (Z -> B -> B); replies : list Reply }.
Arguments mkServer {B}.
Arguments backend_ {B}.
Arguments waiting {B}.
Arguments watching {B}.
Arguments ranks {B}.
Arguments life {B}.
Arguments externalBrokenHandler_ {B}.
Arguments replies {B}.

(** What a handler reads from its surroundings: the clocks, whether a link is still
    established, the answers to the repeated reads of the leader status, and the first
    entry of an unordered map. *)
Class StoreEnv := {
  steady_ms : Z;
  wall_ms : Z;
  monotonic_us : Z;
  Established : Z -> bool;
  leader_status : nat -> Z * bytes;
  timed_begin : gmap Z (gset Z) -> option (Z * gset Z);
  timed_begin_law m :
    match timed_begin m with Some (t, ids) => m !! t = Some ids | None => m = ∅ end;
}.

Section server.
Context {B : Type} `{ConfigStoreBackend B} {E : StoreEnv}.

Definition SM (A : Type) : Type := M (Server B) A.

(** *** Access to the state *)
Definition gets {A} (f : Server B -> A) : SM A := fun s => Some (f s, s).
Definition put_backend (b : B) : SM unit := fun s =>
  Some (tt, mkServer b (waiting s) (watching s) (ranks s) (life s) (externalBrokenHandler_ s) (replies s)).
Definition put_waiting (w : Waiting) : SM unit := fun s =>
  Some (tt, mkServer (backend_ s) w (watching s) (ranks s) (life s) (externalBrokenHandler_ s) (replies s)).
Definition put_watching (w : Watching) : SM unit := fun s =>
  Some (tt, mkServer (backend_ s) (waiting s) w (ranks s) (life s) (externalBrokenHandler_ s) (replies s)).
Definition put_ranks (r : Ranks) : SM unit := fun s =>
  Some (tt, mkServer (backend_ s) (waiting s) (watching s) r (life s) (externalBrokenHandler_ s) (replies s)).
Definition put_life (l : Life) : SM unit := fun s =>
  Some (tt, mkServer (backend_ s) (waiting s) (watching s) (ranks s) l (externalBrokenHandler_ s) (replies s)).
Definition fault {A} : SM A := fun _ => None.

Definition bGet (key out : bytes) : SM (Z * bytes) := gets (fun s => Get key out (backend_ s)).
Definition bPut (key value : bytes) (ttl : Z) : SM Z :=
  r ← gets (fun s => Put key value ttl (backend_ s)); put_backend r.2;; mret r.1.
Definition bDelete (key : bytes) : SM Z :=
  r ← gets (fun s => Delete key (backend_ s)); put_backend r.2;; mret r.1.
Definition distributed : SM bool := gets (fun s => IsDistributed (backend_ s)).

(** [ReplyWithMessage], both overloads. *)
Definition ReplyWithMessage (ctx : ReqCtx) (code : Z) (message : bytes) : SM unit := fun s =>
  Some (tt, mkServer (backend_ s) (waiting s) (watching s) (ranks s) (life s) (externalBrokenHandler_ s)
              (replies s ++ [mkReply ctx code message])).

(** [StoreWaitContext]'s constructor draws a fresh id. *)
Definition new_wait (timeout : Z) (key : bytes) (ctx : ReqCtx) : SM StoreWaitContext :=
  w ← gets waiting;
  put_waiting (mkWaiting (waitCtx_ w) (keyWaiters_ w) (timedWaiters_ w) (u64 (idGen_ w + 1)));;
  mret (mkWait (idGen_ w) timeout key ctx).

Definition response (t : MessageType) (vs : list bytes) : bytes := Pack (mkMsg t (-1) [] vs).

(** *** Waking up *)
Definition drop_timed (timeout id : Z) (timed : gmap Z (gset Z)) : gmap Z (gset Z) :=
  match timed !! timeout with
  | None => timed
  | Some ids => let ids := ids ∖ {[id]} in
                if decide (ids = ∅) then delete timeout timed else <[timeout := ids]> timed
  end.
Definition out_waiter (acc : list ReqCtx * Waiting) (id : Z) : list ReqCtx * Waiting :=
  let '(reqCtx, w) := acc in
  match waitCtx_ w !! id with
  | None => acc
  | Some c => (reqCtx ++ [reqCtx_ c],
               mkWaiting (delete id (waitCtx_ w)) (keyWaiters_ w)
                 (drop_timed (timeoutMs_ c) (id_ c) (timedWaiters_ w)) (idGen_ w))
  end.
Definition GetOutWaitersInLock (ids : gset Z) (w : Waiting) : list ReqCtx * Waiting :=
  foldl out_waiter ([], w) (elements ids).

Definition take_waiters (key : bytes) (w : Waiting) : list ReqCtx * Waiting :=
  match keyWaiters_ w !! key with
  | None => ([], w)
  | Some ids =>
      let '(out, w) := GetOutWaitersInLock ids w in
      (out, mkWaiting (waitCtx_ w) (delete key (keyWaiters_ w)) (timedWaiters_ w) (idGen_ w))
  end.
Definition watchers_of (key : bytes) (w : Watching) : list ReqCtx :=
  match watchWaiters_ w !! key with
  | None => []
  | Some links => (fun kv => reqCtx_ kv.2) <$> map_to_list links
  end.
Definition GetWakeupList (key : bytes) : SM (list ReqCtx * list ReqCtx) :=
  w ← gets waiting;
  let '(waiters, w) := take_waiters key w in
  put_waiting w;;
  wt ← gets watching;
  mret (waiters, watchers_of key wt).

Definition reply_all (code : Z) (body : bytes) (ctxs : list ReqCtx) : SM unit :=
  foldM ctxs (fun ctx _ => if Established (LinkId ctx) then ReplyWithMessage ctx code body else mret tt) tt.
Definition WakeupWaiters (waiters watchers : list ReqCtx) (value : bytes) : SM unit :=
  reply_all SUCCESS (response GET [value]) waiters;;
  reply_all SUCCESS (response WATCH [value]) watchers.
Definition wakeup (l : list ReqCtx * list ReqCtx) (value : bytes) : SM unit :=
  match l with
  | ([], []) => mret tt
  | (waiters, watchers) => WakeupWaiters waiters watchers value
  end.

(** *** Persistent ranks *)
Definition PersistWorldSize (size : Z) : SM Z :=
  d ← distributed;
  if negb d then mret SUCCESS else bPut KEY_WORLD_SIZE (to_string size) EPHEMERAL_KEY_TTL_SEC.

Definition rank_text (rs : gset Z) : bytes := join 44 (to_string <$> elements rs).
Definition PersistAliveRankIds (rs : gset Z) : SM Z :=
  d ← distributed;
  if negb d then mret SUCCESS else
  if decide (rs = ∅) then bDelete KEY_ALIVE_RANK_LIST
  else bPut KEY_ALIVE_RANK_LIST (rank_text rs) 0.

(** The ranks of the list, or [None] when an item is no 32-bit number. *)
Fixpoint parse_ranks (items : list bytes) (acc : gset Z) : option (gset Z) :=
  match items with
  | [] => Some acc
  | [] :: items => parse_ranks items acc
  | item :: items =>
      match String2Uint UINT32_MAX item with
      | None => None
      | Some val => parse_ranks items ({[val]} ∪ acc)
      end
  end.
Definition put_recovered (rs : gset Z) : SM unit :=
  r ← gets ranks;
  put_ranks (mkRanks (aliveRankSet_ r) (rankIndex_ r) (worldSize_ r) (rankStateTaskQueue_ r) rs).
Definition RecoverAliveRankIds : SM Z :=
  d ← distributed;
  if negb d then mret SUCCESS else
  put_recovered ∅;;
  g ← bGet KEY_ALIVE_RANK_LIST [];
  if negb (g.1 =? 0) then mret SUCCESS else
  if decide (g.2 = []) then mret SUCCESS else
  match parse_ranks (Split g.2 44) ∅ with
  | None => mret ERROR
  | Some rs => put_recovered rs;; _ ← bDelete KEY_ALIVE_RANK_LIST; mret SUCCESS
  end.
Definition RestoreFromBackend : SM Z :=
  d ← distributed;
  if negb d then mret SM_OK else _ ← RecoverAliveRankIds; mret SM_OK.

Definition GetStatus : SM bool :=
  d ← distributed;
  mret (if negb d then true else
        existsb (fun attempt => let '(ret, status) := leader_status attempt in
                                (ret =? 0) && bool_decide (status = lit "true")) (seq 0 6)).
Definition UpdateStatus (status : bool) : SM Z :=
  d ← distributed;
  if negb d then mret SM_OK else
  if status then bPut KEY_LEADER_STATUS (lit "true") EPHEMERAL_KEY_TTL_SEC
  else bDelete KEY_LEADER_STATUS.

(** *** Request handlers *)
Definition bad_body (ctx : ReqCtx) (text : bytes) : SM Z :=
  ReplyWithMessage ctx INVALID_MESSAGE text;; mret SM_INVALID_PARAM.
Definition key_too_long (key : bytes) : bool := MAX_KEY_LEN_SERVER <? blen key.

Definition SetHandler (ctx : ReqCtx) (request : SmemMessage) : SM Z :=
  match keys request, values request with
  | [key], [value] =>
      if key_too_long key then mret INVALID_KEY else
      g ← bGet key [];
      wake ← (if negb (g.1 =? SUCCESS) || negb (bool_decide (g.2 = value))
              then GetWakeupList key else mret ([], []));
      ret ← bPut key value EPHEMERAL_KEY_TTL_SEC;
      ReplyWithMessage ctx ret (if ret =? SUCCESS then lit "success" else lit "error");;
      wakeup wake value;;
      mret SM_OK
  | _, _ => bad_body ctx (lit "invalid request: key value should be one")
  end.

(** The search for a free rank; [worldSize + 1] rounds are enough. *)
Fixpoint find_rank (fuel : nat) (worldSize rankIndex : Z) (alive : gset Z) : option Z :=
  match fuel with
  | O => None
  | S fuel =>
      let rankIndex := rankIndex mod worldSize in
      if decide (rankIndex ∈ alive) then find_rank fuel worldSize (u32 (rankIndex + 1)) alive
      else Some rankIndex
  end.
Definition put_alive (rankIndex : Z) (alive : gset Z) : SM unit :=
  r ← gets ranks;
  put_ranks (mkRanks alive rankIndex (worldSize_ r) (rankStateTaskQueue_ r) (aliveRankFromBackend_ r)).
Definition rank_bytes (rankId : Z) : bytes := Z_to_little_endian 4 8 rankId.

Definition FindOrInsertRank (ctx : ReqCtx) (request : SmemMessage) (key : bytes) : SM Z :=
  let rankingKey := key ++ to_string (LinkId ctx) in
  g ← bGet rankingKey [];
  if g.1 =? SUCCESS then
    ReplyWithMessage ctx SUCCESS (response (mt request) [g.2]);; mret SM_OK
  else
    r ← gets ranks;
    if worldSize_ r <=? Z.of_nat (size (aliveRankSet_ r)) then
      ReplyWithMessage ctx ERROR (lit "error: worldSize rankSize bigger than worldSize.");; mret SM_ERROR
    else
      match find_rank (S (Z.to_nat (worldSize_ r))) (worldSize_ r) (rankIndex_ r) (aliveRankSet_ r) with
      | None => fault
      | Some rankIndex =>
          put_alive rankIndex ({[rankIndex]} ∪ aliveRankSet_ r);;
          persisted ← PersistAliveRankIds ({[rankIndex]} ∪ aliveRankSet_ r);
          if negb (persisted =? SUCCESS) then
            put_alive rankIndex (({[rankIndex]} ∪ aliveRankSet_ r) ∖ {[rankIndex]});; mret SM_ERROR
          else
            ret ← bPut rankingKey (rank_bytes rankIndex) EPHEMERAL_KEY_TTL_SEC;
            ReplyWithMessage ctx ret (response (mt request) [rank_bytes rankIndex]);;
            mret 0
      end.

Definition insert_id {K} `{Countable K} (k : K) (id : Z) (m : gmap K (gset Z)) : gmap K (gset Z) :=
  match m !! k with
  | Some ids => <[k := {[id]} ∪ ids]> m
  | None => <[k := {[id]}]> m
  end.
(** [emplace] keeps an entry that is already there. *)
Definition emplace_ctx (c : StoreWaitContext) (m : gmap Z StoreWaitContext) : gmap Z StoreWaitContext :=
  match m !! id_ c with Some _ => m | None => <[id_ c := c]> m end.
Definition add_waiter (c : StoreWaitContext) (timed : bool) (w : Waiting) : Waiting :=
  mkWaiting (emplace_ctx c (waitCtx_ w)) (insert_id (key_ c) (id_ c) (keyWaiters_ w))
    (if timed then insert_id (timeoutMs_ c) (id_ c) (timedWaiters_ w) else timedWaiters_ w) (idGen_ w).

Definition GetHandler (ctx : ReqCtx) (request : SmemMessage) : SM Z :=
  match keys request, values request with
  | [key], [] =>
      if key_too_long key then mret INVALID_KEY else
      if decide (starts_with autoRankingStr_ key) then
        active ← GetStatus;
        if negb active then
          ReplyWithMessage ctx ERROR (lit "leader status inactive");; mret SM_ERROR
        else FindOrInsertRank ctx request key
      else
        g ← bGet key [];
        if g.1 =? SUCCESS then
          ReplyWithMessage ctx SUCCESS (response (mt request) [g.2]);; mret SM_OK
        else if userDef request =? 0 then
          ReplyWithMessage ctx NOT_EXIST (lit "<not exist>");; mret SM_ERROR
        else
          c ← new_wait (steady_ms + userDef request) key ctx;
          w ← gets waiting;
          put_waiting (add_waiter c (0 <? userDef request) w);;
          mret SM_OK
  | _, _ => bad_body ctx (lit "invalid request: key should be one and no values.")
  end.

Definition PrefixGetHandler (ctx : ReqCtx) (request : SmemMessage) : SM Z :=
  match keys request, values request with
  | [key], [] =>
      if key_too_long key then mret INVALID_KEY else
      g ← gets (fun s => PrefixGet key (backend_ s));
      if g.1 =? SUCCESS then
        let entries := map_to_list (g.2) in
        ReplyWithMessage ctx SUCCESS (Pack (mkMsg (mt request) (-1) entries.*1 entries.*2));; mret SM_OK
      else
        ReplyWithMessage ctx ERROR (Pack (mkMsg (mt request) (-1) [] []));; mret SM_OK
  | _, _ => bad_body ctx (lit "invalid request: key should be one and no values.")
  end.

Definition WatchHandler (ctx : ReqCtx) (request : SmemMessage) : SM Z :=
  match keys request, values request with
  | [key], [] =>
      if key_too_long key then mret INVALID_KEY else
      g ← bGet key [];
      c ← new_wait (-1) key ctx;
      w ← gets watching;
      let linkId := LinkId ctx in
      let links := default ∅ (watchWaiters_ w !! key) in
      let links := match links !! linkId with Some _ => links | None => <[linkId := c]> links end in
      put_watching (mkWatching (<[key := links]> (watchWaiters_ w))
        (<[linkId := default [] (linkWatchList_ w !! linkId) ++ [key]]> (linkWatchList_ w))
        (rankStateWaiters_ w));;
      (if g.1 =? SUCCESS then ReplyWithMessage ctx SUCCESS (response (mt request) [g.2]) else mret tt);;
      mret SM_OK
  | _, _ => bad_body ctx (lit "invalid request: key should be one and has values.")
  end.

Definition add_overflows (valueNum storedValueNum : Z) : bool :=
  ((0 <? valueNum) && (LONG_MAX - valueNum <? storedValueNum)) ||
  ((valueNum <? 0) && (storedValueNum <? LONG_MIN - valueNum)).

Definition AddHandler (ctx : ReqCtx) (request : SmemMessage) : SM Z :=
  match keys request, values request with
  | [key], [value] =>
      if key_too_long key then mret INVALID_KEY else
      match String2Int value with
      | None => mret SM_ERROR
      | Some valueNum =>
          if negb (bool_decide (value = to_string valueNum)) then
            ReplyWithMessage ctx INVALID_MESSAGE (lit "invalid request: value should be a number.");;
            mret SM_ERROR
          else
            g ← bGet key [];
            if negb (g.1 =? SUCCESS) then
              ret ← bPut key value EPHEMERAL_KEY_TTL_SEC;
              wake ← GetWakeupList key;
              ReplyWithMessage ctx ret (to_string valueNum);;
              wakeup wake value;;
              mret SM_OK
            else
              let parsed := String2Int g.2 in
              let storedValueNum := default 0 parsed in
              if ((storedValueNum =? 0) && negb (bool_decide (g.2 = lit "0"))) || negb (bool_decide (is_Some parsed))
              then ReplyWithMessage ctx INVALID_MESSAGE (lit "oldValueStr should be a number.");; mret SM_ERROR
              else if add_overflows valueNum storedValueNum
              then ReplyWithMessage ctx INVALID_MESSAGE (lit "add result overflow.");; mret SM_ERROR
              else
                let sum := to_string (storedValueNum + valueNum) in
                _ ← bPut key sum EPHEMERAL_KEY_TTL_SEC;
                wake ← GetWakeupList key;
                ReplyWithMessage ctx g.1 sum;;
                wakeup wake sum;;
                mret SM_OK
      end
  | _, _ => bad_body ctx (lit "invalid request: key value should be one.")
  end.

Definition RemoveHandler (ctx : ReqCtx) (request : SmemMessage) : SM Z :=
  match keys request, values request with
  | [key], [] =>
      if key_too_long key then mret INVALID_KEY else
      ret ← gets (fun s => Exist key (backend_ s));
      if ret =? SUCCESS then
        _ ← bDelete key;
        ReplyWithMessage ctx SUCCESS (lit "success");; mret SM_OK
      else ReplyWithMessage ctx NOT_EXIST (lit "not exist");; mret SM_OK
  | _, _ => bad_body ctx (lit "invalid request: key should be one and no values.")
  end.

(** Waiters and watchers are sent [value], the appended part. *)
Definition AppendHandler (ctx : ReqCtx) (request : SmemMessage) : SM Z :=
  match keys request, values request with
  | [key], [value] =>
      if key_too_long key then mret INVALID_KEY else
      g ← bGet key [];
      let newValue := if g.1 =? SUCCESS then g.2 ++ value else value in
      ret ← bPut key newValue EPHEMERAL_KEY_TTL_SEC;
      wake ← GetWakeupList key;
      ReplyWithMessage ctx ret (to_string (blen newValue));;
      wakeup wake value;;
      mret SM_OK
  | _, _ => bad_body ctx (lit "invalid request: key & value should be one.")
  end.

(** [resize] and [copy_n] of a write at [offset]. *)
Definition write_at (cur : bytes) (offset : Z) (data : bytes) : bytes :=
  let totalSize := offset + blen data in
  let cur := if blen cur <? totalSize then cur ++ replicate (Z.to_nat (totalSize - blen cur)) 0 else cur in
  take (Z.to_nat offset) cur ++ data ++ drop (Z.to_nat totalSize) cur.

Definition WriteHandler (ctx : ReqCtx) (request : SmemMessage) : SM Z :=
  match keys request, values request with
  | [key], [value] =>
      if key_too_long key then mret INVALID_KEY else
      if blen value <? 4 then bad_body ctx (lit "value size too small.") else
      let offset := little_endian_to_Z 8 (take 4 value) in
      let data := drop 4 value in
      let realValSize := blen data in
      if SIZE_MAX / MAX_U16_INDEX <? realValSize then bad_body ctx (lit "value size too large.") else
      if negb (offset <=? MAX_U16_INDEX * realValSize) then mret INVALID_KEY else
      let totalSize := u64 (offset + realValSize) in
      if totalSize <? realValSize then bad_body ctx (lit "offset plus value size overflow.") else
      if MAX_WRITE_TOTAL_SIZE <? totalSize then bad_body ctx (lit "write total size exceeds limit.") else
      g ← bGet key [];
      ret ← (if negb (g.1 =? SUCCESS)
             then bPut key (replicate (Z.to_nat totalSize) 0) EPHEMERAL_KEY_TTL_SEC else mret SUCCESS);
      if negb (ret =? SUCCESS) then
        ReplyWithMessage ctx ERROR (lit "failed");; mret ERROR
      else
        g ← bGet key g.2;
        ret ← bPut key (write_at g.2 offset data) EPHEMERAL_KEY_TTL_SEC;
        if negb (ret =? SUCCESS) then ReplyWithMessage ctx ERROR (lit "failed");; mret ERROR
        else ReplyWithMessage ctx SUCCESS (lit "success");; mret SM_OK
  | _, _ => bad_body ctx (lit "invalid request: key & value should be one.")
  end.

Definition CasHandler (ctx : ReqCtx) (request : SmemMessage) : SM Z :=
  match keys request, values request with
  | [key], [expected; exchange] =>
      if key_too_long key then mret INVALID_KEY else
      g ← bGet key [];
      if g.1 =? SUCCESS then
        if decide (expected = g.2) then
          wake ← GetWakeupList key;
          ret ← bPut key exchange EPHEMERAL_KEY_TTL_SEC;
          ReplyWithMessage ctx ret (response (mt request) [exchange]);;
          wakeup wake exchange;;
          mret SM_OK
        else
          ReplyWithMessage ctx g.1 (response (mt request) [g.2; g.2]);; mret SM_OK
      else
        ret ← bPut key exchange EPHEMERAL_KEY_TTL_SEC;
        wake ← GetWakeupList key;
        ReplyWithMessage ctx ret (response (mt request) [exchange]);;
        wakeup wake exchange;;
        mret SM_OK
  | _, _ => bad_body ctx (lit "invalid request: count(key)=1 & count(value)=2")
  end.

Definition QueryAliveHandler (ctx : ReqCtx) (request : SmemMessage) : SM Z :=
  match keys request, values request with
  | [key], [] =>
      match String2Uint UINT32_MAX key with
      | None => bad_body ctx (lit "invalid input")
      | Some rank =>
          r ← gets ranks;
          ReplyWithMessage ctx 0
            (response (mt request) (if decide (rank ∈ aliveRankSet_ r) then [ [1] ] else []));;
          mret SM_OK
      end
  | _, _ => bad_body ctx (lit "invalid request: key should be one and no values.")
  end.

Definition WatchRankStateHandler (ctx : ReqCtx) (request : SmemMessage) : SM Z :=
  if decide (keys request = [WATCH_RANK_DOWN_KEY]) then
    c ← new_wait (-1) WATCH_RANK_DOWN_KEY ctx;
    w ← gets watching;
    match rankStateWaiters_ w !! LinkId ctx with
    | Some _ => mret SM_REPEAT_CALL
    | None =>
        put_watching (mkWatching (watchWaiters_ w) (linkWatchList_ w)
          (<[LinkId ctx := c]> (rankStateWaiters_ w)));;
        mret SM_OK
    end
  else bad_body ctx (lit "invalid request: key should be").

Definition put_heartbeats (h : gmap Z Z) : SM unit :=
  l ← gets life; put_life (mkLife (state_ l) (skipRecover_ l) (startT l) h).
Definition HeartbeatHandler (ctx : ReqCtx) (request : SmemMessage) : SM Z :=
  match keys request, values request with
  | [], [] =>
      l ← gets life;
      put_heartbeats (<[LinkId ctx := wall_ms]> (heartBeatMap_ l));;
      mret SM_OK
  | _, _ => mret SM_INVALID_PARAM
  end.

(** [requestHandlers_] *)
Definition handler_of (t : MessageType) : option (ReqCtx -> SmemMessage -> SM Z) :=
  match t with
  | SET => Some SetHandler
  | GET => Some GetHandler
  | PREFIX => Some PrefixGetHandler
  | WATCH => Some WatchHandler
  | ADD => Some AddHandler
  | REMOVE => Some RemoveHandler
  | APPEND => Some AppendHandler
  | CAS => Some CasHandler
  | WRITE => Some WriteHandler
  | QUERY_ALIVE => Some QueryAliveHandler
  | WATCH_RANK_STATE => Some WatchRankStateHandler
  | HEARTBEAT => Some HeartbeatHandler
  | INVALID_MSG => None
  end.
Definition ReceiveMessageHandler (ctx : ReqCtx) (data : option bytes) : SM Z :=
  match data with
  | None => bad_body ctx (lit "request no body")
  | Some _ =>
      match Unpack data with
      | Fault => fault
      | Reject => ReplyWithMessage ctx INVALID_MESSAGE (lit "invalid request");; mret SM_ERROR
      | Ok (_, request) =>
          match handler_of (mt request) with
          | None => ReplyWithMessage ctx INVALID_MESSAGE (lit "invalid request message type");; mret SM_ERROR
          | Some handler => handler ctx request
          end
      end
  end.

(** *** Links *)
Definition put_state (st : StoreServerState) : SM unit :=
  l ← gets life; put_life (mkLife st (skipRecover_ l) (startT l) (heartBeatMap_ l)).
(** The static [startT] is initialised by the first call. *)
Definition CanReceiveNewLink : SM bool :=
  l ← gets life;
  let start := default monotonic_us (startT l) in
  put_life (mkLife (state_ l) (skipRecover_ l) (Some start) (heartBeatMap_ l));;
  (match state_ l with
   | SS_INITED => put_state (if skipRecover_ l then SS_NORMAL else SS_RECOVER)
   | SS_RECOVER => when (u64 (start + SERVER_RECOVER_TIME) <? monotonic_us) (put_state SS_NORMAL)
   | _ => mret tt
   end);;
  l ← gets life;
  mret (match state_ l with SS_NORMAL => true | _ => false end).

Definition put_world_size (n : Z) : SM unit :=
  r ← gets ranks;
  put_ranks (mkRanks (aliveRankSet_ r) (rankIndex_ r) n (rankStateTaskQueue_ r) (aliveRankFromBackend_ r)).

Definition LinkConnectedHandler (reqRankId reconnect linkId : Z) : SM Z :=
  let worldSize := u32 (Z.shiftr reqRankId 32) in
  let rankId := Z.land reqRankId 0xFFFFFFFF in
  r ← gets ranks;
  fixed ← (if worldSize_ r =? UINT32_MAX then
             ret ← PersistWorldSize worldSize;
             if negb (ret =? SUCCESS) then mret (Some SM_ERROR)
             else put_world_size worldSize;; mret None
           else if negb (worldSize_ r =? worldSize) then mret (Some SM_INVALID_PARAM) else mret None);
  match fixed with
  | Some ret => mret ret
  | None =>
      l ← gets life;
      when ((reconnect =? 1) && skipRecover_ l)
        (put_life (mkLife (state_ l) false (startT l) (heartBeatMap_ l)));;
      can ← CanReceiveNewLink;
      if negb can && (reconnect =? 0) then mret SM_RECONNECT else
      if UINT32_MAX <=? rankId then mret SM_OK else
      r ← gets ranks;
      if decide (rankId ∈ aliveRankSet_ r) then mret SM_ERROR else
      ret ← bPut (autoRankingStr_ ++ to_string linkId) (rank_bytes rankId) EPHEMERAL_KEY_TTL_SEC;
      if negb (ret =? SUCCESS) then mret ret else
      put_alive (rankIndex_ r) ({[rankId]} ∪ aliveRankSet_ r);;
      persisted ← PersistAliveRankIds ({[rankId]} ∪ aliveRankSet_ r);
      mret (if negb (persisted =? SUCCESS) then SM_ERROR else SM_OK)
  end.

(** [std::copy] of the stored value into the four bytes of the union. *)
Definition copy_rank (outValue : bytes) : SM Z :=
  if 4 <? blen outValue then fault
  else mret (little_endian_to_Z 8 outValue).

Definition clear_all : SM unit :=
  r ← gets ranks;
  put_ranks (mkRanks (aliveRankSet_ r) 0 (worldSize_ r) (rankStateTaskQueue_ r) (aliveRankFromBackend_ r));;
  b ← gets backend_;
  put_backend (Clear b);;
  w ← gets waiting;
  put_waiting (mkWaiting ∅ ∅ ∅ (idGen_ w));;
  put_watching (mkWatching ∅ ∅ ∅);;
  r ← gets ranks;
  put_ranks (mkRanks (aliveRankSet_ r) (rankIndex_ r) (worldSize_ r) [] (aliveRankFromBackend_ r));;
  _ ← bDelete KEY_ALIVE_RANK_LIST;
  mret tt.

Definition unwatch (linkId : Z) (w : Watching) : Watching :=
  mkWatching
    (foldl (fun m key => <[key := delete linkId (default ∅ (m !! key))]> m) (watchWaiters_ w)
       (default [] (linkWatchList_ w !! linkId)))
    (delete linkId (linkWatchList_ w)) (delete linkId (rankStateWaiters_ w)).

(** The rank of the broken link, when the backend knows one; its removal may fail. *)
Definition forget_rank (linkId : Z) : SM (option Z * bool) :=
  let autoRankingStr := autoRankingStr_ ++ to_string linkId in
  g ← bGet autoRankingStr [];
  if negb (g.1 =? SUCCESS) then mret (None, true) else
  rankId ← copy_rank g.2;
  r ← gets ranks;
  put_alive (rankIndex_ r) (aliveRankSet_ r ∖ {[rankId]});;
  deleted ← bDelete autoRankingStr;
  if negb (deleted =? SUCCESS) then mret (Some rankId, false) else
  _ ← PersistAliveRankIds (aliveRankSet_ r ∖ {[rankId]});
  mret (Some rankId, true).

Definition LinkBrokenHandler (linkId : Z) : SM Z :=
  k ← forget_rank linkId;
  let '(known, deleted) := k in
  if negb deleted then mret SM_ERROR else
  l ← gets life;
  put_heartbeats (delete linkId (heartBeatMap_ l));;
  h ← gets externalBrokenHandler_;
  r ← gets ranks;
  (match h with
   | Some handler => b ← gets backend_; put_backend (handler linkId b)
   | None => if decide (aliveRankSet_ r = ∅) then clear_all else mret tt
   end);;
  w ← gets watching;
  put_watching (unwatch linkId w);;
  match known with
  | Some rankId =>
      if rankId =? UINT32_MAX then mret SM_OK else
      r ← gets ranks;
      put_ranks (mkRanks (aliveRankSet_ r) (rankIndex_ r) (worldSize_ r) (rankStateTaskQueue_ r ++ [rankId])
                   (aliveRankFromBackend_ r));;
      mret SM_OK
  | None => mret SM_OK
  end.

(** The overload the checker thread calls. *)
Definition LinkBrokenInner (linkId : Z) : SM Z :=
  h ← gets externalBrokenHandler_;
  (match h with Some handler => b ← gets backend_; put_backend (handler linkId b) | None => mret tt end);;
  l ← gets life;
  put_heartbeats (delete linkId (heartBeatMap_ l));;
  mret SM_OK.

(** *** One round of each thread *)
Fixpoint timer_collect (fuel : nat) (timestamp : Z) (timed : gmap Z (gset Z)) (ids : gset Z)
  : gset Z * gmap Z (gset Z) :=
  match fuel with
  | O => (ids, timed)
  | S fuel =>
      match timed_begin timed with
      | None => (ids, timed)
      | Some (t, s) => if timestamp <? t then (ids, timed)
                       else timer_collect fuel timestamp (delete t timed) (ids ∪ s)
      end
  end.
Definition timer_wakeup (w : Waiting) : list ReqCtx * Waiting :=
  let '(ids, timed) := timer_collect (size (timedWaiters_ w)) steady_ms (timedWaiters_ w) ∅ in
  GetOutWaitersInLock ids (mkWaiting (waitCtx_ w) (keyWaiters_ w) timed (idGen_ w)).
Definition TimerThreadTask : SM unit :=
  w ← gets waiting;
  let '(timeoutContexts, w) := timer_wakeup w in
  put_waiting w;;
  reply_all TIMEOUT (lit "<timeout>") timeoutContexts.

Definition RankStateTask : SM unit :=
  r ← gets ranks;
  match rankStateTaskQueue_ r with
  | [] => mret tt
  | rankId :: queue =>
      put_ranks (mkRanks (aliveRankSet_ r) (rankIndex_ r) (worldSize_ r) queue (aliveRankFromBackend_ r));;
      w ← gets watching;
      reply_all SUCCESS (response WATCH_RANK_STATE [rank_bytes rankId])
        ((fun kv => reqCtx_ kv.2) <$> map_to_list (rankStateWaiters_ w))
  end.

Definition link_late (last : Z) : bool :=
  HEARTBEAT_TIMEOUT <? Z.quot (wall_ms - last) HEARTBEAT_INTERVAL.
Definition CheckerThreadTask : SM unit :=
  l ← gets life;
  let broken := filter (fun kv => link_late kv.2 = true) (heartBeatMap_ l) in
  put_heartbeats (filter (fun kv => link_late kv.2 = false) (heartBeatMap_ l));;
  foldM (map_to_list broken).*1 (fun linkId _ => _ ← LinkBrokenInner linkId; mret tt) tt.

(** The critical sections of [CleanupStaleRanks], in their order; [stopFirst] and [stopSecond]
    say whether the server is being shut down at the end of either wait. *)
Definition cleanup_collect : SM (gset Z) :=
  r ← gets ranks;
  let stale := aliveRankFromBackend_ r ∖ aliveRankSet_ r in
  put_recovered stale;;
  mret stale.
Definition cleanup_push (rankId : Z) : SM unit :=
  r ← gets ranks;
  put_ranks (mkRanks (aliveRankSet_ r) (rankIndex_ r) (worldSize_ r) (rankStateTaskQueue_ r ++ [rankId])
               (aliveRankFromBackend_ r)).
Definition CleanupStaleRanks (stopFirst stopSecond : bool) : SM unit :=
  if stopFirst then mret tt else
  stale ← cleanup_collect;
  foldM (elements stale) (fun rankId _ => cleanup_push rankId) tt;;
  if stopSecond then mret tt else
  _ ← UpdateStatus true;
  mret tt.
(** The result, and whether the clean-up thread has been started. *)
Definition LaunchCleanupThread : SM (Z * bool) :=
  r ← gets ranks;
  let isFirstUpdate := bool_decide (aliveRankFromBackend_ r = ∅) in
  ret ← UpdateStatus isFirstUpdate;
  mret (if negb (ret =? SM_OK) then (SM_ERROR, false) else (SM_OK, negb isFirstUpdate)).

Definition RegisterBrokenLinkCHandler (handler : option (Z -> B -> B)) : SM unit := fun s =>
  Some (tt, mkServer (backend_ s) (waiting s) (watching s) (ranks s) (life s) handler (replies s)).
End server.

(** A server that has just been started on an empty or given backend. *)
Definition new_server {B} (b : B) (worldSize : Z) (skipRecover : bool) : Server B :=
  mkServer b (mkWaiting ∅ ∅ ∅ 1) (mkWatching ∅ ∅ ∅) (mkRanks ∅ 0 worldSize [] ∅)
    (mkLife SS_INITED skipRecover None ∅) None [].
