(* ===== verification/StoreWaiting.v ===== *)
(** * The waiting requests of the config store server

    Bookkeeping of [waitCtx_], [keyWaiters_] and [timedWaiters_]: the invariant that ties
    the three maps together, and what taking waiters out of them yields. *)
From stdpp Require Import gmap.
From S2P Require Import Prelude StrUtil MessagePacker StoreBackend StoreServer.

Lemma NoDup_omap_inj {A C} (f : A -> option C) (l : list A) :
  NoDup l -> (forall x y c, f x = Some c -> f y = Some c -> x = y) -> NoDup (omap f l).
Proof.
  intros Hl Hf. induction Hl as [|x l Hx Hl IH]; simpl; [constructor|].
  destruct (f x) as [c|] eqn:E; [|done]. constructor; [|done].
  intros (y & Hy & Hc)%list_elem_of_omap. by rewrite (Hf x y c) in Hx.
Qed.

(** A waiter is registered under its key and, when it is in a timer bucket, the bucket is
    that of its deadline.  A key may still list ids whose request timed out; such ids are
    never drawn again. *)
Record wait_inv (w : Waiting) : Prop := {
  wi_ctx i c : waitCtx_ w !! i = Some c ->
    id_ c = i /\ i < idGen_ w /\ exists ids, keyWaiters_ w !! key_ c = Some ids /\ i ∈ ids;
  wi_key k ids i : keyWaiters_ w !! k = Some ids -> i ∈ ids ->
    i < idGen_ w /\ forall c, waitCtx_ w !! i = Some c -> key_ c = k;
  wi_timed t ids : timedWaiters_ w !! t = Some ids ->
    ids <> ∅ /\ forall i, i ∈ ids -> exists c, waitCtx_ w !! i = Some c /\ timeoutMs_ c = t;
}.

Lemma wait_inv_empty n : wait_inv (mkWaiting ∅ ∅ ∅ n).
Proof. split; simpl; intros *; rewrite lookup_empty; done. Qed.

Lemma wait_inv_idGen w n :
  wait_inv w -> idGen_ w <= n -> wait_inv (mkWaiting (waitCtx_ w) (keyWaiters_ w) (timedWaiters_ w) n).
Proof.
  intros [H1 H2 H3] Hn. split; simpl.
  - intros i c Hc. destruct (H1 i c Hc) as (? & ? & ?). split_and!; [done|lia|done].
  - intros k ids i Hk Hi. destruct (H2 k ids i Hk Hi). split; [lia|done].
  - done.
Qed.

(** ** Adding a waiter *)
Lemma insert_id_lookup {K} `{Countable K} (k k' : K) id (m : gmap K (gset Z)) ids :
  insert_id k id m !! k' = Some ids ->
  (k' = k /\ ids = {[id]} ∪ default ∅ (m !! k)) \/ (k' <> k /\ m !! k' = Some ids).
Proof.
  unfold insert_id. destruct (m !! k) as [old|] eqn:E; simpl;
    (destruct (decide (k' = k)) as [->|Hne];
      [rewrite lookup_insert_eq; intros [= <-]; left; split; [done|set_solver]
      |rewrite lookup_insert_ne by done; auto]).
Qed.
Lemma insert_id_eq {K} `{Countable K} (k : K) id (m : gmap K (gset Z)) :
  exists ids, insert_id k id m !! k = Some ids /\ id ∈ ids.
Proof.
  unfold insert_id. destruct (m !! k) as [old|]; rewrite lookup_insert_eq; eexists; split; set_solver.
Qed.
Lemma insert_id_mono {K} `{Countable K} (k k' : K) id (m : gmap K (gset Z)) ids i :
  m !! k' = Some ids -> i ∈ ids -> exists ids', insert_id k id m !! k' = Some ids' /\ i ∈ ids'.
Proof.
  intros Hk Hi. unfold insert_id. destruct (decide (k' = k)) as [->|Hne].
  - rewrite Hk, lookup_insert_eq. eexists. split; [done|set_solver].
  - destruct (m !! k); rewrite lookup_insert_ne by done; eauto.
Qed.

Lemma emplace_fresh w c :
  wait_inv w -> id_ c = idGen_ w -> emplace_ctx c (waitCtx_ w) = <[id_ c := c]> (waitCtx_ w).
Proof.
  intros [H1 _ _] Hid. unfold emplace_ctx. destruct (waitCtx_ w !! id_ c) as [c'|] eqn:Ec; [|done].
  destruct (H1 _ _ Ec) as (_ & Hlt & _). lia.
Qed.
Lemma add_waiter_inv w c timed :
  wait_inv w -> id_ c = idGen_ w ->
  wait_inv (add_waiter c timed (mkWaiting (waitCtx_ w) (keyWaiters_ w) (timedWaiters_ w) (idGen_ w + 1))).
Proof.
  intros Hw Hid. unfold add_waiter. cbn [waitCtx_ keyWaiters_ timedWaiters_ idGen_].
  rewrite emplace_fresh by done. destruct Hw as [H1 H2 H3]. split; simpl.
  - intros i c'. destruct (decide (i = id_ c)) as [->|Hne].
    + rewrite lookup_insert_eq. intros [= <-]. split_and!; [done|lia|apply insert_id_eq].
    + rewrite lookup_insert_ne by done. intros Hc. destruct (H1 i c' Hc) as (? & ? & ids & ? & ?).
      split_and!; [done|lia|]. by eapply insert_id_mono.
  - intros k ids i Hk Hi. destruct (insert_id_lookup _ _ _ _ _ Hk) as [[-> ->]|[Hne Hk']].
    + apply elem_of_union in Hi as [->%elem_of_singleton|Hi].
      * split; [lia|]. intros c'. rewrite lookup_insert_eq. by intros [= <-].
      * destruct (keyWaiters_ w !! key_ c) as [old|] eqn:E; simpl in Hi; [|set_solver].
        destruct (H2 _ _ _ E Hi) as [Hlt Hall]. split; [lia|].
        intros c'. rewrite lookup_insert_ne by lia. apply Hall.
    + destruct (H2 _ _ _ Hk' Hi) as [Hlt Hall]. split; [lia|].
      intros c'. rewrite lookup_insert_ne by lia. apply Hall.
  - intros t ids Ht.
    assert (Hold : forall t ids, timedWaiters_ w !! t = Some ids ->
      ids <> ∅ /\ forall i, i ∈ ids -> exists c', <[id_ c := c]> (waitCtx_ w) !! i = Some c' /\ timeoutMs_ c' = t).
    { intros t' ids' Ht'. destruct (H3 _ _ Ht') as [Hne Hall]. split; [done|]. intros i Hi.
      destruct (Hall i Hi) as (c' & Hc' & ?). exists c'. split; [|done].
      rewrite lookup_insert_ne; [done|]. destruct (H1 _ _ Hc') as (? & ? & ?). lia. }
    destruct timed; [|by apply Hold].
    destruct (insert_id_lookup _ _ _ _ _ Ht) as [[-> ->]|[Hne Ht']]; [|by apply Hold].
    split; [set_solver|]. intros i [->%elem_of_singleton|Hi]%elem_of_union.
    + exists c. by rewrite lookup_insert_eq.
    + destruct (timedWaiters_ w !! timeoutMs_ c) as [old|] eqn:E; simpl in Hi; [|set_solver].
      by apply (proj2 (Hold _ _ E)).
Qed.

(** ** Taking waiters out *)
Lemma drop_timed_lookup timeout id timed t ids :
  drop_timed timeout id timed !! t = Some ids ->
  (t <> timeout /\ timed !! t = Some ids) \/
  (t = timeout /\ exists old, timed !! t = Some old /\ ids = old ∖ {[id]} /\ ids <> ∅).
Proof.
  unfold drop_timed. destruct (timed !! timeout) as [old|] eqn:E.
  - destruct (decide (old ∖ {[id]} = ∅)), (decide (t = timeout)) as [->|Hne];
      rewrite ?lookup_delete_eq, ?lookup_insert_eq, ?lookup_delete_ne, ?lookup_insert_ne by done; try done; auto.
    intros [= <-]. right. eauto.
  - intros Ht. left. split; [congruence|done].
Qed.

Lemma out_waiter_inv acc w i : wait_inv w -> wait_inv (out_waiter (acc, w) i).2.
Proof.
  intros [H1 H2 H3]. unfold out_waiter. destruct (waitCtx_ w !! i) as [c|] eqn:E; [|by split].
  destruct (H1 i c E) as (Hid & _ & _). split; simpl.
  - intros j c' Hj. apply lookup_delete_Some in Hj as [_ Hj]. by apply H1.
  - intros k ids j Hk Hj. destruct (H2 k ids j Hk Hj) as [? Hall]. split; [done|].
    intros c' Hc'. apply lookup_delete_Some in Hc' as [_ Hc']. by apply Hall.
  - intros t ids Ht. destruct (drop_timed_lookup _ _ _ _ _ Ht) as [[Hne Ht']|(-> & old & Hold & -> & Hne)].
    + destruct (H3 t ids Ht') as [? Hall]. split; [done|]. intros j Hj.
      destruct (Hall j Hj) as (c' & Hc' & Ht2). exists c'. split; [|done].
      rewrite lookup_delete_ne; [done|]. intros ->. rewrite E in Hc'. by simplify_eq.
    + split; [done|]. intros j Hj. apply elem_of_difference in Hj as [Hj Hji].
      destruct (H3 _ old Hold) as [_ Hall]. destruct (Hall j Hj) as (c' & Hc' & Ht2). exists c'. split; [|done].
      rewrite lookup_delete_ne; [done|]. rewrite Hid in Hji. set_solver.
Qed.

Lemma out_waiters_inv l acc w : wait_inv w -> wait_inv (foldl out_waiter (acc, w) l).2.
Proof.
  revert acc w. induction l as [|i l IH]; intros acc w Hw; [done|].
  change (foldl out_waiter (acc, w) (i :: l)) with (foldl out_waiter (out_waiter (acc, w) i) l).
  pose proof (out_waiter_inv acc w i Hw) as Hi. destruct (out_waiter (acc, w) i) as [acc' w']. by apply IH.
Qed.

(** What is taken, and what stays. *)
Lemma out_waiters_spec l acc w :
  NoDup l ->
  let r := foldl out_waiter (acc, w) l in
  r.1 = acc ++ (reqCtx_ <$> omap (fun i => waitCtx_ w !! i) l) /\
  (forall i, waitCtx_ r.2 !! i = if decide (i ∈ l) then None else waitCtx_ w !! i) /\
  keyWaiters_ r.2 = keyWaiters_ w /\ idGen_ r.2 = idGen_ w.
Proof.
  intros Hl. revert acc w. induction Hl as [|i l Hi Hl IH]; intros acc w.
  { simpl. rewrite app_nil_r. auto. }
  change (foldl out_waiter (acc, w) (i :: l)) with (foldl out_waiter (out_waiter (acc, w) i) l).
  unfold out_waiter at 2. destruct (waitCtx_ w !! i) as [c|] eqn:E; cbv zeta in *.
  - destruct (IH (acc ++ [reqCtx_ c]) (mkWaiting (delete i (waitCtx_ w)) (keyWaiters_ w)
      (drop_timed (timeoutMs_ c) (id_ c) (timedWaiters_ w)) (idGen_ w))) as (-> & H2 & -> & ->).
    simpl. rewrite E. simpl. split_and!; [|  |done|done].
    + rewrite <- app_assoc. do 3 f_equal. apply list_omap_ext, Forall2_same_length_lookup_2; [done|].
      intros k j ? Hj ?. simplify_eq. rewrite lookup_delete_ne; [done|]. intros ->. apply Hi. by eapply list_elem_of_lookup_2.
    + intros j. rewrite H2. simpl. destruct (decide (j = i)) as [->|Hne].
      * rewrite lookup_delete_eq. destruct (decide (i ∈ i :: l)); [by destruct (decide (i ∈ l))|set_solver].
      * rewrite lookup_delete_ne by done. destruct (decide (j ∈ l)), (decide (j ∈ i :: l)); set_solver.
  - destruct (IH acc w) as (-> & H2 & -> & ->). simpl. rewrite E. split_and!; [done| |done|done].
    intros j. rewrite H2. destruct (decide (j ∈ l)) as [|Hj], (decide (j ∈ i :: l)) as [Hj'|]; try set_solver.
Qed.

Lemma GetOutWaitersInLock_spec ids w :
  let r := GetOutWaitersInLock ids w in
  r.1 = (reqCtx_ <$> omap (fun i => waitCtx_ w !! i) (elements ids)) /\
  (forall i, waitCtx_ r.2 !! i = if decide (i ∈ ids) then None else waitCtx_ w !! i) /\
  keyWaiters_ r.2 = keyWaiters_ w /\ idGen_ r.2 = idGen_ w /\ (wait_inv w -> wait_inv r.2).
Proof.
  cbv zeta. unfold GetOutWaitersInLock.
  destruct (out_waiters_spec (elements ids) [] w (NoDup_elements ids)) as (H1 & H2 & H3 & H4).
  split_and!; [done| |done|done|by apply out_waiters_inv].
  intros i. rewrite H2. destruct (decide (i ∈ elements ids)), (decide (i ∈ ids)); set_solver.
Qed.

(** The requests that wait for [key]. *)
Definition waiters_of (key : bytes) (w : Waiting) : list StoreWaitContext :=
  (filter (fun kv => key_ kv.2 = key) (map_to_list (waitCtx_ w))).*2.
Lemma elem_of_waiters key w c :
  c ∈ waiters_of key w <-> exists i, waitCtx_ w !! i = Some c /\ key_ c = key.
Proof.
  unfold waiters_of. rewrite list_elem_of_fmap. split.
  - intros ([i c'] & -> & Hin). apply list_elem_of_filter in Hin as [Hk Hin].
    apply elem_of_map_to_list in Hin. by exists i.
  - intros (i & Hi & Hk). exists (i, c). split; [done|]. apply list_elem_of_filter. split; [done|].
    by apply elem_of_map_to_list.
Qed.

Lemma take_waiters_inv key w : wait_inv w -> wait_inv (take_waiters key w).2.
Proof.
  intros Hw. unfold take_waiters. destruct (keyWaiters_ w !! key) as [ids|] eqn:E; [|done].
  pose proof (GetOutWaitersInLock_spec ids w) as (_ & H2 & H3 & H4 & H5). specialize (H5 Hw).
  destruct (GetOutWaitersInLock ids w) as [out w']. simpl in *. destruct H5 as [K1 K2 K3]. split; simpl.
  - intros i c Hc. destruct (K1 i c Hc) as (? & ? & ids' & Hk & Hi). split_and!; [done|done|].
    exists ids'. split; [|done]. rewrite lookup_delete_ne; [done|]. intros ->. rewrite H3, E in Hk.
    simplify_eq. rewrite H2, decide_True in Hc by done. done.
  - intros k ids' i Hk. apply lookup_delete_Some in Hk as [_ Hk]. by apply K2.
  - done.
Qed.
Lemma take_waiters_left key w i :
  wait_inv w ->
  waitCtx_ (take_waiters key w).2 !! i =
  match waitCtx_ w !! i with Some c => if decide (key_ c = key) then None else Some c | None => None end.
Proof.
  intros [K1 K2 K3]. unfold take_waiters. destruct (keyWaiters_ w !! key) as [ids|] eqn:E.
  - pose proof (GetOutWaitersInLock_spec ids w) as (_ & H2 & _).
    destruct (GetOutWaitersInLock ids w) as [out w']. simpl in *. rewrite H2.
    destruct (waitCtx_ w !! i) as [c|] eqn:Ec; [|by destruct (decide _)].
    destruct (K1 i c Ec) as (_ & _ & ids' & Hk & Hi). destruct (decide (key_ c = key)) as [<-|Hne].
    + rewrite E in Hk. simplify_eq. by rewrite decide_True.
    + rewrite decide_False; [done|]. intros Hin. by apply Hne, (proj2 (K2 key ids i E Hin)).
  - simpl. destruct (waitCtx_ w !! i) as [c|] eqn:Ec; [|done]. rewrite decide_False; [done|]. intros <-.
    destruct (K1 i c Ec) as (_ & _ & ids' & Hk & _). congruence.
Qed.
Lemma take_waiters_idGen key w : idGen_ (take_waiters key w).2 = idGen_ w.
Proof.
  unfold take_waiters. destruct (keyWaiters_ w !! key) as [ids|]; [|done].
  pose proof (GetOutWaitersInLock_spec ids w) as (_ & _ & _ & H & _).
  by destruct (GetOutWaitersInLock ids w).
Qed.
(** Every waiter of the key is taken, each once. *)
Lemma take_waiters_out key w :
  wait_inv w -> (take_waiters key w).1 ≡ₚ reqCtx_ <$> waiters_of key w.
Proof.
  intros [K1 K2 K3]. unfold take_waiters. destruct (keyWaiters_ w !! key) as [ids|] eqn:E.
  - pose proof (GetOutWaitersInLock_spec ids w) as (H1 & _).
    destruct (GetOutWaitersInLock ids w) as [out w']. simpl in *. rewrite H1. apply fmap_Permutation.
    assert (Hinj : forall i j c, waitCtx_ w !! i = Some c -> waitCtx_ w !! j = Some c -> i = j).
    { intros i j c Hi Hj. destruct (K1 _ _ Hi) as [<- _], (K1 _ _ Hj) as [<- _]. done. }
    apply NoDup_Permutation.
    + apply NoDup_omap_inj; [apply NoDup_elements|done].
    + unfold waiters_of. apply NoDup_fmap_2_strong; [|by apply NoDup_filter, NoDup_map_to_list].
      intros [i c] [j c'] Hi Hj ?. simplify_eq/=. apply list_elem_of_filter in Hi as [_ Hi], Hj as [_ Hj].
      apply elem_of_map_to_list in Hi, Hj. by rewrite (Hinj i j c').
    + intros c. rewrite elem_of_waiters, list_elem_of_omap. split.
      * intros (i & Hi & Hc). apply elem_of_elements in Hi. exists i. split; [done|].
        by apply (proj2 (K2 key ids i E Hi)).
      * intros (i & Hc & Hk). exists i. split; [|done]. apply elem_of_elements.
        destruct (K1 i c Hc) as (_ & _ & ids' & Hk' & Hi). congruence.
  - replace (waiters_of key w) with (@nil StoreWaitContext); [done|]. symmetry. apply elem_of_nil_inv. intros c.
    rewrite elem_of_waiters. intros (i & Hc & <-). destruct (K1 i c Hc) as (_ & _ & ids' & Hk' & _). congruence.
Qed.

(** ** The timer *)
Section timer.
Context {E : StoreEnv}.

Lemma timer_collect_spec fuel now timed ids :
  let r := timer_collect fuel now timed ids in
  (forall t s, r.2 !! t = Some s -> timed !! t = Some s) /\
  (forall i, i ∈ r.1 -> i ∈ ids \/ exists t s, timed !! t = Some s /\ i ∈ s /\ t <= now).
Proof.
  revert timed ids. induction fuel as [|fuel IH]; intros timed ids; simpl; [auto|].
  pose proof (timed_begin_law timed) as Hb. destruct (timed_begin timed) as [[t s]|]; simpl; [|auto].
  destruct (Z.ltb_spec now t) as [|Ht]; simpl; [auto|].
  destruct (IH (delete t timed) (ids ∪ s)) as [H1 H2]. split.
  - intros t' s' Hs'. apply H1 in Hs'. by apply lookup_delete_Some in Hs' as [_ Hs'].
  - intros i Hi. destruct (H2 i Hi) as [[|]%elem_of_union|(t' & s' & Hs' & ? & ?)]; [by left|right|right].
    + by exists t, s.
    + apply lookup_delete_Some in Hs' as [_ Hs']. by exists t', s'.
Qed.

(** Only requests whose deadline has passed are answered, and they leave the maps. *)
Lemma timer_wakeup_spec w :
  wait_inv w ->
  let r := timer_wakeup w in
  wait_inv r.2 /\ idGen_ r.2 = idGen_ w /\
  (forall i c, waitCtx_ r.2 !! i = Some c -> waitCtx_ w !! i = Some c) /\
  (forall ctx, ctx ∈ r.1 -> exists i c, waitCtx_ w !! i = Some c /\ reqCtx_ c = ctx /\
     timeoutMs_ c <= steady_ms /\ waitCtx_ r.2 !! i = None).
Proof.
  intros Hw. cbv zeta. unfold timer_wakeup.
  pose proof (timer_collect_spec (size (timedWaiters_ w)) steady_ms (timedWaiters_ w) ∅) as [H1 H2].
  destruct (timer_collect _ _ _ _) as [ids timed]. simpl in H1, H2. destruct Hw as [K1 K2 K3].
  pose proof (GetOutWaitersInLock_spec ids (mkWaiting (waitCtx_ w) (keyWaiters_ w) timed (idGen_ w)))
    as (G1 & G2 & G3 & G4 & G5). destruct (GetOutWaitersInLock _ _) as [out w']. simpl in *. split_and!.
  - apply G5. split; simpl; [done|done|]. intros t s Ht. by apply K3, H1.
  - done.
  - intros i c. rewrite G2. by destruct (decide (i ∈ ids)).
  - intros ctx Hctx. subst out. apply list_elem_of_fmap in Hctx as (c & -> & Hc).
    apply list_elem_of_omap in Hc as (i & Hi & Hc). apply elem_of_elements in Hi.
    destruct (H2 i Hi) as [?%elem_of_empty|(t & s & Ht & His & Hle)]; [done|].
    destruct (K3 t s Ht) as [_ Hall]. destruct (Hall i His) as (c' & Hc' & <-).
    rewrite Hc in Hc'. simplify_eq. exists i, c'. split_and!; [done|done|done|]. by rewrite G2, decide_True.
Qed.
(** A request whose deadline has not passed stays. *)
Lemma timer_keeps w i c :
  wait_inv w -> waitCtx_ w !! i = Some c -> steady_ms < timeoutMs_ c ->
  waitCtx_ (timer_wakeup w).2 !! i = Some c.
Proof.
  intros [K1 K2 K3] Hc Hlt. unfold timer_wakeup.
  pose proof (timer_collect_spec (size (timedWaiters_ w)) steady_ms (timedWaiters_ w) ∅) as [_ H2].
  destruct (timer_collect _ _ _ _) as [ids timed]. simpl in H2.
  destruct (GetOutWaitersInLock_spec ids (mkWaiting (waitCtx_ w) (keyWaiters_ w) timed (idGen_ w)))
    as (_ & G2 & _). rewrite G2. simpl. rewrite decide_False; [done|]. intros Hi.
  destruct (H2 i Hi) as [?%elem_of_empty|(t & s & Ht & His & Hle)]; [done|].
  destruct (K3 t s Ht) as [_ Hall]. destruct (Hall i His) as (c' & Hc' & <-).
  rewrite Hc in Hc'. simplify_eq. lia.
Qed.
(** A request that a timer round takes out is handed over for its answer, and is late. *)
Lemma timer_takes w i c :
  wait_inv w -> waitCtx_ w !! i = Some c ->
  waitCtx_ (timer_wakeup w).2 !! i = Some c \/ (reqCtx_ c ∈ (timer_wakeup w).1 /\ timeoutMs_ c <= steady_ms).
Proof.
  intros Hw Hc. destruct (Z_lt_le_dec steady_ms (timeoutMs_ c)) as [Hlt|Hle]; [left; by apply timer_keeps|].
  unfold timer_wakeup. destruct (timer_collect _ _ _ _) as [ids timed].
  destruct (GetOutWaitersInLock_spec ids (mkWaiting (waitCtx_ w) (keyWaiters_ w) timed (idGen_ w))) as (G1 & G2 & _).
  rewrite G2. cbn [waitCtx_] in *. destruct (decide (i ∈ ids)) as [Hi|]; [right|by left]. split; [|done].
  rewrite G1. apply list_elem_of_fmap. exists c. split; [done|]. apply list_elem_of_omap. exists i. by rewrite elem_of_elements.
Qed.
End timer.
