(* ===== verification/StoreServerProof.v ===== *)
(** * Invariants of the config store server *)
From Stdlib Require Import String.
From stdpp Require Import gmap.
From S2P Require Import Prelude Simt StrUtil MessagePacker MessagePackerProof StoreBackend StoreServer StoreWaiting.

(** ** Symbolic execution of handlers

    [wlp m Q s]: if [m] runs without an access outside an object, [Q] holds afterwards. *)
Definition wlp {S A} (m : M S A) (Q : A -> S -> Prop) (s : S) : Prop :=
  match m s with Some (a, s') => Q a s' | None => True end.

Section rules.
Context {S : Type}.
Lemma wlp_ret {A} (a : A) (Q : A -> S -> Prop) s : Q a s -> wlp (mret a) Q s.
Proof. done. Qed.
Lemma wlp_bind {A C} (m : M S A) (f : A -> M S C) Q s :
  wlp m (fun a => wlp (f a) Q) s -> wlp (m ≫= f) Q s.
Proof. unfold wlp, mbind, M_bind. by destruct (m s) as [[a s']|]. Qed.
Lemma wlp_some {A} (m : M S A) (a : A) s' Q s : m s = Some (a, s') -> Q a s' -> wlp m Q s.
Proof. unfold wlp. by intros ->. Qed.
Lemma wlp_mono {A} (m : M S A) (Q R : A -> S -> Prop) s :
  wlp m Q s -> (forall a s', Q a s' -> R a s') -> wlp m R s.
Proof. unfold wlp. destruct (m s) as [[a s']|]; auto. Qed.
Lemma wlp_when (c : bool) (m : M S unit) Q s :
  (c = true -> wlp m Q s) -> (c = false -> Q tt s) -> wlp (when c m) Q s.
Proof. destruct c; simpl; intros H1 H2; [by apply H1|by apply wlp_ret, H2]. Qed.
Lemma wlp_foldM {J A} (l : list J) (body : J -> A -> M S A) (I : S -> Prop) a s :
  I s -> (forall i a s, I s -> wlp (body i a) (fun _ => I) s) -> wlp (foldM l body a) (fun _ => I) s.
Proof.
  intros Hs Hb. revert a s Hs. induction l as [|i l IH]; intros a s Hs; simpl; [by apply wlp_ret|].
  apply wlp_bind. eapply wlp_mono; [by apply Hb|]. intros a' s' Hs'. by apply IH.
Qed.
End rules.

(** The lemmas by which a step of a handler keeps the invariant. *)
Create HintDb store_inv.

Section server.
Context {B : Type} {CB : ConfigStoreBackend B} {RB : ReliableBackend B}.
Implicit Types s : Server B.

Definition add_replies (l : list Reply) (s : Server B) : Server B :=
  mkServer (backend_ s) (waiting s) (watching s) (ranks s) (life s) (externalBrokenHandler_ s) (replies s ++ l).

Section env.
Context {E : StoreEnv}.

(** The replies that reach the contexts whose link is still established. *)
Definition sent (code : Z) (body : bytes) (ctxs : list ReqCtx) : list Reply :=
  (fun ctx => mkReply ctx code body) <$> filter (fun ctx => Established (LinkId ctx) = true) ctxs.
Definition woken (l : list ReqCtx * list ReqCtx) (value : bytes) : list Reply :=
  sent SUCCESS (response GET [value]) l.1 ++ sent SUCCESS (response WATCH [value]) l.2.

Lemma reply_all_run code body ctxs s :
  reply_all code body ctxs s = Some (tt, add_replies (sent code body ctxs) s).
Proof.
  unfold reply_all. revert s. induction ctxs as [|ctx ctxs IH]; intros s.
  - destruct s. unfold add_replies, sent. simpl. by rewrite app_nil_r.
  - cbn [foldM]. unfold mbind, M_bind. unfold sent. rewrite filter_cons.
    destruct (Established (LinkId ctx)) eqn:El.
    + rewrite decide_True by done. unfold ReplyWithMessage. rewrite IH. unfold add_replies, sent. simpl.
      by rewrite <- app_assoc.
    + rewrite decide_False by done. unfold mret, M_ret. by rewrite IH.
Qed.
Lemma wakeup_run l value s : wakeup l value s = Some (tt, add_replies (woken l value) s).
Proof.
  assert (H : WakeupWaiters l.1 l.2 value s = Some (tt, add_replies (woken l value) s)).
  { unfold WakeupWaiters, mbind, M_bind. rewrite !reply_all_run. unfold add_replies, woken. simpl.
    by rewrite <- app_assoc. }
  destruct l as [[|w ws] [|x xs]]; [|exact H..]. destruct s. unfold add_replies. simpl. by rewrite app_nil_r.
Qed.

Lemma wlp_gets {A} (f : Server B -> A) Q s : Q (f s) s -> wlp (gets f) Q s.
Proof. done. Qed.
Lemma wlp_fault {A} (Q : A -> Server B -> Prop) s : wlp fault Q s.
Proof. done. Qed.
Lemma wlp_reply_all code body ctxs Q s :
  Q tt (add_replies (sent code body ctxs) s) -> wlp (reply_all code body ctxs) Q s.
Proof. intros HQ. unfold wlp. by rewrite reply_all_run. Qed.
Lemma wlp_wakeup l value Q s : Q tt (add_replies (woken l value) s) -> wlp (wakeup l value) Q s.
Proof. intros HQ. unfold wlp. by rewrite wakeup_run. Qed.
End env.

(** ** The invariant

    [strict] asks besides that nobody waits for a key that exists.  It is kept by every
    handler but [WriteHandler], which creates keys without waking anybody. *)
Definition absent (m : gmap bytes bytes) (w : Waiting) : Prop := forall i c,
  waitCtx_ w !! i = Some c -> m !! key_ c = None /\ ~ starts_with autoRankingStr_ (key_ c).
Definition waits_ok (strict : bool) (b : B) (w : Waiting) : Prop :=
  wait_inv w /\ IsDistributed b = false /\ (strict = true -> absent (contents b) w).

Lemma put_contents key v ttl b :
  contents (Put key v ttl b).2 = <[key := v]> (contents b) \/ contents (Put key v ttl b).2 = contents b.
Proof. pose proof (Put_law key v ttl b) as H. destruct (Put key v ttl b) as [ret b']. simpl. destruct H as [_ ->].
  destruct (decide (ret = SUCCESS)); auto. Qed.
Lemma put_distributed key v ttl b : IsDistributed (Put key v ttl b).2 = IsDistributed b.
Proof. pose proof (Put_law key v ttl b) as H. destruct (Put key v ttl b) as [ret b']. apply H. Qed.

Lemma delete_distributed key b : IsDistributed (Delete key b).2 = IsDistributed b.
Proof. pose proof (Delete_law key b) as H. destruct (Delete key b) as [ret b']. apply H. Qed.

(** A store under [key] keeps the invariant when no request waits for the key. *)
Lemma waits_put strict key v ttl b w :
  waits_ok strict b w ->
  (strict = true -> forall i c, waitCtx_ w !! i = Some c -> key_ c <> key) ->
  waits_ok strict (Put key v ttl b).2 w.
Proof.
  intros (Hw & Hd & Ha) Hk. split_and!; [done|by rewrite put_distributed|]. intros Hs i c Hc.
  destruct (Ha Hs i c Hc) as [Hn Hr]. split; [|done]. destruct (put_contents key v ttl b) as [->| ->]; [|done].
  rewrite lookup_insert_ne; [done|]. intros E. by apply (Hk Hs i c Hc).
Qed.
Lemma waits_put_known strict key out v ttl b w :
  waits_ok strict b w -> (Get key out b).1 = SUCCESS -> waits_ok strict (Put key v ttl b).2 w.
Proof.
  intros Hw Hg. apply waits_put; [done|]. intros Hs i c Hc <-. destruct Hw as (_ & _ & Ha).
  destruct (Ha Hs i c Hc) as [Hn _]. by rewrite Get_law, Hn in Hg.
Qed.
Lemma waits_put_rank strict key v ttl b w :
  waits_ok strict b w -> starts_with autoRankingStr_ key -> waits_ok strict (Put key v ttl b).2 w.
Proof.
  intros Hw Hr. apply waits_put; [done|]. intros Hs i c Hc <-. destruct Hw as (_ & _ & Ha).
  by destruct (Ha Hs i c Hc).
Qed.
Lemma waits_take strict key b w : waits_ok strict b w -> waits_ok strict b (take_waiters key w).2.
Proof.
  intros (Hw & Hd & Ha). split_and!; [by apply take_waiters_inv|done|]. intros Hs i c.
  rewrite take_waiters_left by done. destruct (waitCtx_ w !! i) as [c'|] eqn:Ec; [|done].
  destruct (decide (key_ c' = key)); [done|]. intros [= <-]. by apply (Ha Hs i).
Qed.
Lemma waits_put_taken strict key v ttl b w :
  waits_ok strict b w -> waits_ok strict (Put key v ttl b).2 (take_waiters key w).2.
Proof.
  intros Hw. apply waits_put; [by apply waits_take|]. intros _ i c. rewrite take_waiters_left by apply Hw.
  destruct (waitCtx_ w !! i) as [c'|]; [|done]. destruct (decide (key_ c' = key)); [done|]. by intros [= <-].
Qed.
Lemma waits_delete strict key b w : waits_ok strict b w -> waits_ok strict (Delete key b).2 w.
Proof.
  intros (Hw & Hd & Ha). pose proof (Delete_law key b) as H. destruct (Delete key b) as [ret b'].
  destruct H as (Hd' & Hc & _). simpl. split_and!; [done|by rewrite Hd'|]. intros Hs i c Hi.
  destruct (Ha Hs i c Hi) as [Hn Hr]. split; [|done]. rewrite Hc. destruct (decide (ret = SUCCESS)); [|done].
  by rewrite lookup_delete_None; right.
Qed.
Lemma waits_clear strict b n : IsDistributed b = false -> waits_ok strict (Clear b) (mkWaiting ∅ ∅ ∅ n).
Proof.
  intros Hd. destruct (Clear_law b) as [Hc Hd']. split_and!; [apply wait_inv_empty|by rewrite Hd'|].
  intros _ i c Hi. simpl in Hi. by rewrite lookup_empty in Hi.
Qed.
Lemma waits_idGen strict b w n :
  waits_ok strict b w -> idGen_ w <= n ->
  waits_ok strict b (mkWaiting (waitCtx_ w) (keyWaiters_ w) (timedWaiters_ w) n).
Proof. intros (Hw & Hd & Ha) Hn. split_and!; [by apply wait_inv_idGen|done|done]. Qed.
Lemma waits_add strict b w c timed :
  waits_ok strict b w -> id_ c = idGen_ w ->
  (strict = true -> contents b !! key_ c = None /\ ~ starts_with autoRankingStr_ (key_ c)) ->
  waits_ok strict b
    (add_waiter c timed (mkWaiting (waitCtx_ w) (keyWaiters_ w) (timedWaiters_ w) (idGen_ w + 1))).
Proof.
  intros (Hw & Hd & Ha) Hid Hk. split_and!; [by apply add_waiter_inv|done|]. intros Hs i c'. simpl.
  rewrite emplace_fresh by done.
  destruct (decide (i = id_ c)) as [->|Hne].
  - rewrite lookup_insert_eq. intros [= <-]. auto.
  - rewrite lookup_insert_ne by done. by apply Ha.
Qed.
Lemma waits_timer {E : StoreEnv} strict b w : waits_ok strict b w -> waits_ok strict b (timer_wakeup w).2.
Proof.
  intros (Hw & Hd & Ha). destruct (timer_wakeup_spec w Hw) as (H1 & _ & H3 & _).
  split_and!; [done|done|]. intros Hs i c Hc. by apply (Ha Hs i), H3.
Qed.

(** *** Every transition keeps it

    [n] bounds the number of ids drawn so far: an id is not drawn twice before the 64-bit
    generator wraps. *)
Definition ID_LIMIT : Z := 18446744073709551615.
Definition store_ok (strict : bool) (n : Z) (s : Server B) : Prop :=
  waits_ok strict (backend_ s) (waiting s) /\ 1 <= idGen_ (waiting s) <= n /\ externalBrokenHandler_ s = None.

Inductive event :=
| EvReceive (ctx : ReqCtx) (data : option bytes)
| EvConnected (reqRankId reconnect linkId : Z)
| EvBroken (linkId : Z)
| EvTimer
| EvRankState
| EvChecker.

Lemma starts_with_app p k x : starts_with p k -> starts_with p (k ++ x).
Proof.
  unfold starts_with. intros H. rewrite take_app_le; [done|].
  apply (f_equal length) in H. rewrite length_take in H. lia.
Qed.
Lemma ranking_key x : starts_with autoRankingStr_ (autoRankingStr_ ++ x).
Proof. by apply starts_with_app. Qed.

Section env.
Context {E : StoreEnv}.

Definition run (ev : event) : SM Z :=
  match ev with
  | EvReceive ctx data => ReceiveMessageHandler ctx data
  | EvConnected reqRankId reconnect linkId => LinkConnectedHandler reqRankId reconnect linkId
  | EvBroken linkId => LinkBrokenHandler linkId
  | EvTimer => TimerThreadTask;; mret SM_OK
  | EvRankState => RankStateTask;; mret SM_OK
  | EvChecker => CheckerThreadTask;; mret SM_OK
  end.

Lemma wlp_GetWakeupList key Q s :
  Q ((take_waiters key (waiting s)).1, watchers_of key (watching s))
    (mkServer (backend_ s) (take_waiters key (waiting s)).2 (watching s) (ranks s) (life s)
       (externalBrokenHandler_ s) (replies s)) ->
  wlp (GetWakeupList key) Q s.
Proof.
  intros HQ. unfold GetWakeupList. apply wlp_bind, wlp_gets.
  by destruct (take_waiters key (waiting s)) as [out w'].
Qed.
Lemma wlp_new_wait timeout key ctx n Q s :
  1 <= idGen_ (waiting s) <= n -> n < ID_LIMIT ->
  Q (mkWait (idGen_ (waiting s)) timeout key ctx)
    (mkServer (backend_ s)
       (mkWaiting (waitCtx_ (waiting s)) (keyWaiters_ (waiting s)) (timedWaiters_ (waiting s)) (idGen_ (waiting s) + 1))
       (watching s) (ranks s) (life s) (externalBrokenHandler_ s) (replies s)) ->
  wlp (new_wait timeout key ctx) Q s.
Proof.
  intros Hi Hn HQ. unfold new_wait. apply wlp_bind, wlp_gets, wlp_bind. unfold wlp at 1, put_waiting.
  unfold u64. rewrite Z.mod_small by (unfold ID_LIMIT in Hn; lia). exact HQ.
Qed.

Lemma wlp_PersistAliveRankIds rs Q s :
  IsDistributed (backend_ s) = false -> Q SUCCESS s -> wlp (PersistAliveRankIds rs) Q s.
Proof. intros Hd HQ. unfold PersistAliveRankIds, distributed. apply wlp_bind, wlp_gets. by rewrite Hd. Qed.

Ltac sx_step :=
  lazymatch goal with
  | |- wlp (mbind _ _) _ _ => apply wlp_bind
  | |- wlp (_ ≫= _) _ _ => apply wlp_bind
  | |- wlp (mret _) _ _ => apply wlp_ret
  | |- wlp (gets _) _ _ => apply wlp_gets
  | |- wlp fault _ _ => apply wlp_fault
  | |- wlp (wakeup _ _) _ _ => apply wlp_wakeup
  | |- wlp (reply_all _ _ _) _ _ => apply wlp_reply_all
  | |- wlp (GetWakeupList _) _ _ => apply wlp_GetWakeupList
  | |- wlp (new_wait _ _ _) _ _ => eapply wlp_new_wait; [eassumption|eassumption|]
  | |- wlp (PersistAliveRankIds _) _ _ =>
      apply wlp_PersistAliveRankIds; [cbn [backend_]; rewrite ?put_distributed, ?delete_distributed; assumption|]
  | |- wlp (bGet _ _) _ _ => unfold bGet
  | |- wlp (bPut _ _ _) _ _ => unfold bPut
  | |- wlp (bDelete _) _ _ => unfold bDelete
  | |- wlp distributed _ _ => unfold distributed
  | |- wlp (bad_body _ _) _ _ => unfold bad_body
  | |- wlp (ReplyWithMessage _ _ _) _ _ => eapply wlp_some; [reflexivity|]
  | |- wlp (put_backend _) _ _ => eapply wlp_some; [reflexivity|]
  | |- wlp (put_waiting _) _ _ => eapply wlp_some; [reflexivity|]
  | |- wlp (put_watching _) _ _ => eapply wlp_some; [reflexivity|]
  | |- wlp (put_ranks _) _ _ => eapply wlp_some; [reflexivity|]
  | |- wlp (put_life _) _ _ => eapply wlp_some; [reflexivity|]
  | |- wlp (put_alive _ _) _ _ => unfold put_alive
  | |- wlp (put_heartbeats _) _ _ => unfold put_heartbeats
  | |- wlp (when _ _) _ _ => apply wlp_when; intros
  | |- wlp (if ?c then _ else _) _ _ => destruct c eqn:?
  | |- wlp (match ?c with _ => _ end) _ _ => destruct c eqn:?
  end; cbv beta; cbn [backend_ waiting watching ranks life externalBrokenHandler_ replies fst snd negb add_replies].
Ltac sx := repeat sx_step.
Lemma id_same x n : 1 <= x <= n -> 1 <= x <= n + 1.
Proof. lia. Qed.
Lemma id_next x n : 1 <= x <= n -> 1 <= x + 1 <= n + 1.
Proof. lia. Qed.
Ltac bounded := first [apply id_same; assumption | apply id_next; assumption | assumption].
(** A handler that keeps the invariant step by step. *)
#[local] Hint Resolve waits_put_taken waits_take waits_delete waits_put_rank starts_with_app ranking_key : store_inv.
Ltac store_solve :=
  unfold store_ok; cbn [backend_ waiting watching ranks life externalBrokenHandler_ replies fst snd add_replies];
  rewrite ?take_waiters_idGen; cbn [idGen_ add_waiter];
  split; [|split; [bounded|done]];
  auto with store_inv.

Section handlers.
Context (strict : bool) (n : Z) (Hn : n < ID_LIMIT).
Implicit Types req : SmemMessage.

(** Handlers whose steps keep the invariant without further argument. *)
Ltac plain := sx; store_solve.

Lemma SetHandler_ok ctx req s :
  store_ok strict n s -> wlp (SetHandler ctx req) (fun _ => store_ok strict (n + 1)) s.
Proof.
  intros (Hw & Hi & He). unfold SetHandler. plain. apply waits_put_known with []; [done|]. lia.
Qed.
Lemma FindOrInsertRank_ok ctx req key s :
  starts_with autoRankingStr_ key ->
  store_ok strict n s -> wlp (FindOrInsertRank ctx req key) (fun _ => store_ok strict (n + 1)) s.
Proof.
  intros Hk (Hw & Hi & He). pose proof Hw as (_ & Hd & _). unfold FindOrInsertRank. by plain.
Qed.
Lemma GetHandler_ok ctx req s :
  store_ok strict n s -> wlp (GetHandler ctx req) (fun _ => store_ok strict (n + 1)) s.
Proof.
  intros H. pose proof H as (Hw & Hi & He). unfold GetHandler, GetStatus. sx; try by store_solve.
  - by apply FindOrInsertRank_ok.
  - store_solve. apply waits_add; [done|done|]. intros _. cbn [key_]. split; [|done].
    rewrite Get_law in *. destruct (contents _ !! _); [|done]. simpl in *. lia.
Qed.
Lemma PrefixGetHandler_ok ctx req s :
  store_ok strict n s -> wlp (PrefixGetHandler ctx req) (fun _ => store_ok strict (n + 1)) s.
Proof. intros (Hw & Hi & He). unfold PrefixGetHandler. by plain. Qed.
Lemma WatchHandler_ok ctx req s :
  store_ok strict n s -> wlp (WatchHandler ctx req) (fun _ => store_ok strict (n + 1)) s.
Proof. intros (Hw & Hi & He). unfold WatchHandler. plain; apply waits_idGen; (done || lia). Qed.
Lemma AddHandler_ok ctx req s :
  store_ok strict n s -> wlp (AddHandler ctx req) (fun _ => store_ok strict (n + 1)) s.
Proof. intros (Hw & Hi & He). unfold AddHandler. by plain. Qed.
Lemma RemoveHandler_ok ctx req s :
  store_ok strict n s -> wlp (RemoveHandler ctx req) (fun _ => store_ok strict (n + 1)) s.
Proof. intros (Hw & Hi & He). unfold RemoveHandler. by plain. Qed.
Lemma AppendHandler_ok ctx req s :
  store_ok strict n s -> wlp (AppendHandler ctx req) (fun _ => store_ok strict (n + 1)) s.
Proof. intros (Hw & Hi & He). unfold AppendHandler. by plain. Qed.
Lemma CasHandler_ok ctx req s :
  store_ok strict n s -> wlp (CasHandler ctx req) (fun _ => store_ok strict (n + 1)) s.
Proof. intros (Hw & Hi & He). unfold CasHandler. by plain. Qed.
Lemma QueryAliveHandler_ok ctx req s :
  store_ok strict n s -> wlp (QueryAliveHandler ctx req) (fun _ => store_ok strict (n + 1)) s.
Proof. intros (Hw & Hi & He). unfold QueryAliveHandler. by plain. Qed.
Lemma WatchRankStateHandler_ok ctx req s :
  store_ok strict n s -> wlp (WatchRankStateHandler ctx req) (fun _ => store_ok strict (n + 1)) s.
Proof. intros (Hw & Hi & He). unfold WatchRankStateHandler. plain; apply waits_idGen; (done || lia). Qed.
Lemma HeartbeatHandler_ok ctx req s :
  store_ok strict n s -> wlp (HeartbeatHandler ctx req) (fun _ => store_ok strict (n + 1)) s.
Proof. intros (Hw & Hi & He). unfold HeartbeatHandler. by plain. Qed.
Definition unawaited (key : bytes) (s : Server B) : Prop :=
  forall i c, waitCtx_ (waiting s) !! i = Some c -> key_ c <> key.
Lemma WriteHandler_ok ctx req s :
  (strict = true -> forall key, keys req = [key] -> unawaited key s) ->
  store_ok strict n s -> wlp (WriteHandler ctx req) (fun _ => store_ok strict (n + 1)) s.
Proof.
  intros Hq (Hw & Hi & He). unfold WriteHandler. plain.
  all: repeat (apply waits_put; [|by intros Hs; apply (Hq Hs)]); done.
Qed.
Lemma LinkConnectedHandler_ok reqRankId reconnect linkId s :
  store_ok strict n s -> wlp (LinkConnectedHandler reqRankId reconnect linkId) (fun _ => store_ok strict (n + 1)) s.
Proof.
  intros (Hw & Hi & He). pose proof Hw as (_ & Hd & _).
  unfold LinkConnectedHandler, PersistWorldSize, CanReceiveNewLink, put_world_size, put_state.
  sx; rewrite ?Hd in *; try done; store_solve.
Qed.
Lemma forget_rank_ok linkId s :
  store_ok strict n s -> wlp (forget_rank linkId) (fun _ => store_ok strict n) s.
Proof.
  intros (Hw & Hi & He). pose proof Hw as (_ & Hd & _). unfold forget_rank, copy_rank. by plain.
Qed.
Lemma LinkBrokenHandler_ok linkId s :
  store_ok strict n s -> wlp (LinkBrokenHandler linkId) (fun _ => store_ok strict (n + 1)) s.
Proof.
  intros H. unfold LinkBrokenHandler. sx_step. eapply wlp_mono; [by apply forget_rank_ok|].
  intros [known deleted] s' (Hw & Hi & He). pose proof Hw as (_ & Hd & _). unfold clear_all.
  sx; try congruence; store_solve. all: by apply waits_delete, waits_clear.
Qed.
Lemma TimerThreadTask_ok s :
  store_ok strict n s -> wlp TimerThreadTask (fun _ => store_ok strict (n + 1)) s.
Proof.
  intros (Hw & Hi & He). unfold TimerThreadTask. sx_step. sx_step.
  destruct (timer_wakeup (waiting s)) as [out w'] eqn:Ew.
  pose proof (waits_timer _ _ _ Hw) as Hw'. pose proof (timer_wakeup_spec _ (proj1 Hw)) as (_ & Hg & _).
  rewrite Ew in Hw', Hg. simpl in Hw', Hg. rewrite <- Hg in Hi. by plain.
Qed.
Lemma RankStateTask_ok s :
  store_ok strict n s -> wlp RankStateTask (fun _ => store_ok strict (n + 1)) s.
Proof. intros (Hw & Hi & He). unfold RankStateTask. by plain. Qed.
Lemma CheckerThreadTask_ok s :
  store_ok strict n s -> wlp CheckerThreadTask (fun _ => store_ok strict (n + 1)) s.
Proof.
  intros (Hw & Hi & He). unfold CheckerThreadTask. do 6 sx_step.
  apply wlp_foldM; [by store_solve|]. clear. intros linkId [] s (Hw & Hi & He). unfold LinkBrokenInner.
  sx; [congruence|by store_solve].
Qed.

#[local] Hint Resolve SetHandler_ok GetHandler_ok PrefixGetHandler_ok WatchHandler_ok AddHandler_ok RemoveHandler_ok
  AppendHandler_ok CasHandler_ok QueryAliveHandler_ok WatchRankStateHandler_ok HeartbeatHandler_ok
  LinkConnectedHandler_ok LinkBrokenHandler_ok TimerThreadTask_ok RankStateTask_ok CheckerThreadTask_ok : store_inv.

(** No request that writes a key somebody waits for. *)
Definition quiet (ev : event) (s : Server B) : Prop :=
  match ev with
  | EvReceive ctx data => forall size req key,
      Unpack data = Ok (size, req) -> mt req = WRITE -> keys req = [key] -> unawaited key s
  | _ => True
  end.
Lemma run_ok ev s :
  (strict = true -> quiet ev s) -> store_ok strict n s -> wlp (run ev) (fun _ => store_ok strict (n + 1)) s.
Proof.
  intros Hq H. pose proof H as (Hw & Hi & He).
  destruct ev as [ctx data|r rc l|l| | |]; cbn [run].
  - unfold ReceiveMessageHandler. destruct data as [data|]; [|by plain].
    destruct (Unpack (Some data)) as [| |[size req]] eqn:Eu; [by plain..|].
    destruct (mt req) eqn:Em; cbn [handler_of]; [..|by plain]; auto with store_inv.
    apply WriteHandler_ok; [|done]. intros Hs key Hk. by apply (Hq Hs size req key).
  - auto with store_inv.
  - auto with store_inv.
  - apply wlp_bind. eapply wlp_mono; [eauto with store_inv|done].
  - apply wlp_bind. eapply wlp_mono; [eauto with store_inv|done].
  - apply wlp_bind. eapply wlp_mono; [eauto with store_inv|done].
Qed.
End handlers.

(** *** Nobody is forgotten

    What a transition does to the requests that wait: each still waits, or was sent an
    answer, unless its link is gone.  The answer is the value its key has now (the backend may
    have refused to store it), or a timeout when it is late. *)
Definition answered (m : gmap bytes bytes) (c : StoreWaitContext) (r : Reply) : Prop :=
  r_ctx r = reqCtx_ c /\
  ((exists value, r_code r = SUCCESS /\ r_body r = response GET [value] /\ (m !! key_ c = Some value \/ m !! key_ c = None)) \/
   (r_code r = TIMEOUT /\ timeoutMs_ c <= steady_ms)).
Definition accounted (s s' : Server B) : Prop := exists l, replies s' = replies s ++ l /\
  forall i c, waitCtx_ (waiting s) !! i = Some c ->
    waitCtx_ (waiting s') !! i = Some c \/ Established (LinkId (reqCtx_ c)) = false \/ exists r, r ∈ l /\ answered (contents (backend_ s')) c r.

Lemma accounted_same s s' l :
  replies s' = replies s ++ l -> waitCtx_ (waiting s') = waitCtx_ (waiting s) -> accounted s s'.
Proof. intros Hr Hw. exists l. split; [done|]. intros i c Hc. left. by rewrite Hw. Qed.
Lemma accounted_add s s' l c :
  replies s' = replies s ++ l -> waitCtx_ (waiting s') = emplace_ctx c (waitCtx_ (waiting s)) -> accounted s s'.
Proof.
  intros Hr Hw. exists l. split; [done|]. intros i c' Hc. left. rewrite Hw. unfold emplace_ctx.
  destruct (waitCtx_ (waiting s) !! id_ c) eqn:Ec; [done|]. by rewrite lookup_insert_ne by congruence.
Qed.
Lemma accounted_take key value stored ttl l links s s' :
  wait_inv (waiting s) -> absent (contents (backend_ s)) (waiting s) -> waiting s' = (take_waiters key (waiting s)).2 ->
  backend_ s' = (Put key stored ttl (backend_ s)).2 -> (contents (backend_ s) !! key = None -> stored = value) ->
  replies s' = replies s ++ l ++ woken ((take_waiters key (waiting s)).1, links) value -> accounted s s'.
Proof.
  intros Hw Ha Ew Eb Hv Hr. eexists. split; [exact Hr|]. intros i c Hc. rewrite Ew, take_waiters_left, Hc by done.
  destruct (decide (key_ c = key)) as [Hk|]; [right|by left]. destruct (Established (LinkId (reqCtx_ c))) eqn:El; [right|by left].
  exists (mkReply (reqCtx_ c) SUCCESS (response GET [value])). split.
  2: { split; [done|]. left. exists value. split_and!; [done..|]. destruct (Ha i c Hc) as [Hnone _]. rewrite Hk in *. rewrite Eb, <- (Hv Hnone).
       destruct (put_contents key stored ttl (backend_ s)) as [->| ->]; [left; by rewrite lookup_insert_eq|by right]. }
  apply elem_of_app. right. apply elem_of_app. left. cbn [fst]. apply list_elem_of_fmap. exists (reqCtx_ c). split; [done|].
  apply list_elem_of_filter. split; [done|]. rewrite take_waiters_out by done. apply list_elem_of_fmap. exists c. split; [done|].
  apply elem_of_waiters. by exists i.
Qed.

(** The last step of a handler: what it replied, and whom it took out. *)
Ltac account_simpl := cbn [waiting replies waitCtx_ add_waiter fst snd add_replies].
Ltac account :=
  account_simpl;
  first [ apply accounted_same with []; [account_simpl; symmetry; apply app_nil_r|reflexivity]
        | eapply accounted_same; [account_simpl; rewrite <- ?app_assoc; reflexivity|reflexivity]
        | eapply (accounted_add _ _ []); [account_simpl; symmetry; apply app_nil_r|account_simpl; reflexivity]
        | eapply accounted_take;
            [eassumption|by auto|reflexivity|reflexivity| |account_simpl; rewrite <- app_assoc; reflexivity];
            let Hnone := fresh in intros Hnone; first [reflexivity|rewrite Get_law, Hnone; reflexivity] ].
Section accounts.
Context (n : Z) (Hn : n < ID_LIMIT).
Lemma SetHandler_accounts ctx req s : store_ok true n s -> wlp (SetHandler ctx req) (fun _ => accounted s) s.
Proof. intros (Hw & Hi & He). pose proof Hw as (Hinv & Hd & Ha). unfold SetHandler. sx; account. Qed.
Lemma FindOrInsertRank_accounts ctx req key s : store_ok true n s -> wlp (FindOrInsertRank ctx req key) (fun _ => accounted s) s.
Proof. intros (Hw & Hi & He). pose proof Hw as (Hinv & Hd & Ha). unfold FindOrInsertRank. sx; account. Qed.
Lemma GetHandler_accounts ctx req s : store_ok true n s -> wlp (GetHandler ctx req) (fun _ => accounted s) s.
Proof.
  intros H. pose proof H as (Hw & Hi & He). pose proof Hw as (Hinv & Hd & Ha). unfold GetHandler, GetStatus. sx.
  all: first [by apply FindOrInsertRank_accounts|account].
Qed.
Lemma PrefixGetHandler_accounts ctx req s : store_ok true n s -> wlp (PrefixGetHandler ctx req) (fun _ => accounted s) s.
Proof. intros (Hw & Hi & He). pose proof Hw as (Hinv & Hd & Ha). unfold PrefixGetHandler. sx; account. Qed.
Lemma WatchHandler_accounts ctx req s : store_ok true n s -> wlp (WatchHandler ctx req) (fun _ => accounted s) s.
Proof. intros (Hw & Hi & He). pose proof Hw as (Hinv & Hd & Ha). unfold WatchHandler. sx; account. Qed.
Lemma AddHandler_accounts ctx req s : store_ok true n s -> wlp (AddHandler ctx req) (fun _ => accounted s) s.
Proof. intros (Hw & Hi & He). pose proof Hw as (Hinv & Hd & Ha). unfold AddHandler. sx; account. Qed.
Lemma RemoveHandler_accounts ctx req s : store_ok true n s -> wlp (RemoveHandler ctx req) (fun _ => accounted s) s.
Proof. intros (Hw & Hi & He). pose proof Hw as (Hinv & Hd & Ha). unfold RemoveHandler. sx; account. Qed.
Lemma AppendHandler_accounts ctx req s : store_ok true n s -> wlp (AppendHandler ctx req) (fun _ => accounted s) s.
Proof. intros (Hw & Hi & He). pose proof Hw as (Hinv & Hd & Ha). unfold AppendHandler. sx; account. Qed.
Lemma CasHandler_accounts ctx req s : store_ok true n s -> wlp (CasHandler ctx req) (fun _ => accounted s) s.
Proof. intros (Hw & Hi & He). pose proof Hw as (Hinv & Hd & Ha). unfold CasHandler. sx; account. Qed.
Lemma WriteHandler_accounts ctx req s : store_ok true n s -> wlp (WriteHandler ctx req) (fun _ => accounted s) s.
Proof. intros (Hw & Hi & He). pose proof Hw as (Hinv & Hd & Ha). unfold WriteHandler. sx; account. Qed.
Lemma QueryAliveHandler_accounts ctx req s : store_ok true n s -> wlp (QueryAliveHandler ctx req) (fun _ => accounted s) s.
Proof. intros (Hw & Hi & He). pose proof Hw as (Hinv & Hd & Ha). unfold QueryAliveHandler. sx; account. Qed.
Lemma WatchRankStateHandler_accounts ctx req s : store_ok true n s -> wlp (WatchRankStateHandler ctx req) (fun _ => accounted s) s.
Proof. intros (Hw & Hi & He). pose proof Hw as (Hinv & Hd & Ha). unfold WatchRankStateHandler. sx; account. Qed.
Lemma HeartbeatHandler_accounts ctx req s : store_ok true n s -> wlp (HeartbeatHandler ctx req) (fun _ => accounted s) s.
Proof. intros (Hw & Hi & He). pose proof Hw as (Hinv & Hd & Ha). unfold HeartbeatHandler. sx; account. Qed.
Lemma LinkConnectedHandler_accounts reqRankId reconnect linkId s :
  store_ok true n s -> wlp (LinkConnectedHandler reqRankId reconnect linkId) (fun _ => accounted s) s.
Proof.
  intros (Hw & Hi & He). pose proof Hw as (Hinv & Hd & Ha).
  unfold LinkConnectedHandler, PersistWorldSize, CanReceiveNewLink, put_world_size, put_state. sx; account.
Qed.
Lemma forget_rank_waiting linkId s :
  IsDistributed (backend_ s) = false ->
  wlp (forget_rank linkId) (fun _ s' => waiting s' = waiting s /\ replies s' = replies s /\ externalBrokenHandler_ s' = externalBrokenHandler_ s) s.
Proof. intros Hd. unfold forget_rank, copy_rank. sx; done. Qed.
Lemma LinkBrokenHandler_accounts linkId s :
  store_ok true n s -> wlp (LinkBrokenHandler linkId) (fun _ s' => accounted s s' \/ aliveRankSet_ (ranks s') = ∅) s.
Proof.
  intros (Hw & Hi & He). pose proof Hw as (Hinv & Hd & Ha). unfold LinkBrokenHandler. sx_step. eapply wlp_mono; [by apply forget_rank_waiting|].
  intros [known deleted] s1 (E1 & E2 & E3). unfold clear_all.
  sx; try congruence; cbn [ranks aliveRankSet_]; try (by right); left; (apply accounted_same with []; account_simpl; [by rewrite E2, app_nil_r|by rewrite E1]).
Qed.
Lemma TimerThreadTask_accounts s : store_ok true n s -> wlp TimerThreadTask (fun _ => accounted s) s.
Proof.
  intros (Hw & _). pose proof Hw as (Hinv & _). unfold TimerThreadTask. sx_step. sx_step.
  pose proof (fun i c => timer_takes (waiting s) i c Hinv) as Ht. destruct (timer_wakeup (waiting s)) as [out w']. cbn [fst snd] in Ht. sx.
  exists (sent TIMEOUT (lit "<timeout>") out). split; [done|]. intros i c Hc. account_simpl.
  destruct (Ht i c Hc) as [?|[Ho Hl]]; [by left|right]. destruct (Established (LinkId (reqCtx_ c))) eqn:El; [right|by left].
  exists (mkReply (reqCtx_ c) TIMEOUT (lit "<timeout>")). split; [|split; [done|by right]].
  apply list_elem_of_fmap. exists (reqCtx_ c). split; [done|]. by apply list_elem_of_filter.
Qed.
Lemma RankStateTask_accounts s : wlp RankStateTask (fun _ => accounted s) s.
Proof. unfold RankStateTask. sx; account. Qed.
Lemma CheckerThreadTask_accounts s : store_ok true n s -> wlp CheckerThreadTask (fun _ => accounted s) s.
Proof.
  intros (Hw & Hi & He). unfold CheckerThreadTask. do 7 sx_step.
  eapply wlp_mono; [apply (wlp_foldM _ _ (fun s' => waiting s' = waiting s /\ replies s' = replies s /\ externalBrokenHandler_ s' = None)); [done|]|].
  - intros linkId [] s1 (E1 & E2 & E3). unfold LinkBrokenInner. sx; [congruence|done].
  - intros _ s1 (E1 & E2 & _). apply accounted_same with []; [by rewrite E2, app_nil_r|by rewrite E1].
Qed.
Lemma run_accounts ev s :
  store_ok true n s ->
  wlp (run ev) (fun _ s' => accounted s s' \/ ((exists linkId, ev = EvBroken linkId) /\ aliveRankSet_ (ranks s') = ∅)) s.
Proof.
  intros H. assert (Hl : forall m, wlp m (fun _ => accounted s) s -> wlp m (fun (_ : Z) s' => accounted s s' \/ ((exists linkId, ev = EvBroken linkId) /\ aliveRankSet_ (ranks s') = ∅)) s).
  { intros m Hm. eapply wlp_mono; [exact Hm|]. auto. }
  assert (Ht : forall (m : SM unit), wlp m (fun _ => accounted s) s -> wlp (m ;; mret SM_OK) (fun _ => accounted s) s).
  { intros m Hm. apply wlp_bind. eapply wlp_mono; [exact Hm|]. intros [] s' Hs. by apply wlp_ret. }
  destruct ev as [ctx data|r rc l|l| | |]; cbn [run].
  - apply Hl. unfold ReceiveMessageHandler. destruct data as [data|]; [|sx; account]. destruct (Unpack (Some data)) as [| |[size req]]; [sx; account..|].
    destruct (mt req); cbn [handler_of]; [..|sx; account]; auto using SetHandler_accounts, GetHandler_accounts, PrefixGetHandler_accounts, WatchHandler_accounts,
      AddHandler_accounts, RemoveHandler_accounts, AppendHandler_accounts, CasHandler_accounts, WriteHandler_accounts, QueryAliveHandler_accounts,
      WatchRankStateHandler_accounts, HeartbeatHandler_accounts.
  - by apply Hl, LinkConnectedHandler_accounts.
  - eapply wlp_mono; [by apply LinkBrokenHandler_accounts|]. intros _ s' [?|?]; eauto.
  - by apply Hl, Ht, TimerThreadTask_accounts.
  - by apply Hl, Ht, RankStateTask_accounts.
  - by apply Hl, Ht, CheckerThreadTask_accounts.
Qed.
End accounts.

(** *** What the operations return *)
Lemma GetWakeupList_run key s :
  GetWakeupList key s =
  Some (((take_waiters key (waiting s)).1, watchers_of key (watching s)),
        mkServer (backend_ s) (take_waiters key (waiting s)).2 (watching s) (ranks s) (life s)
          (externalBrokenHandler_ s) (replies s)).
Proof.
  unfold GetWakeupList, gets, mbind, M_bind. by destruct (take_waiters key (waiting s)) as [out w'].
Qed.
(** The state after a store: the backend, the waiters and the replies have changed. *)
Definition stored (b : B) (w : Waiting) (l : list Reply) (s : Server B) : Server B :=
  mkServer b w (watching s) (ranks s) (life s) (externalBrokenHandler_ s) (replies s ++ l).

Lemma SetHandler_run ctx u key value s :
  key_too_long key = false ->
  let '(ret, b) := Put key value EPHEMERAL_KEY_TTL_SEC (backend_ s) in
  let answer := mkReply ctx ret (if ret =? SUCCESS then lit "success" else lit "error") in
  SetHandler ctx (mkMsg SET u [key] [value]) s =
  Some (SM_OK,
    if decide (contents (backend_ s) !! key = Some value) then stored b (waiting s) [answer] s
    else stored b (take_waiters key (waiting s)).2
           (answer :: woken ((take_waiters key (waiting s)).1, watchers_of key (watching s)) value) s).
Proof.
  intros Hk. destruct (Put key value _ (backend_ s)) as [ret b] eqn:Ep.
  unfold SetHandler. cbn [keys values]. rewrite Hk.
  unfold bGet, bPut, gets, put_backend, ReplyWithMessage, mbind, M_bind, mret, M_ret. rewrite Get_law.
  destruct (contents (backend_ s) !! key) as [old|]; simpl.
  - destruct (decide (old = value)) as [->|Hne].
    + rewrite bool_decide_true by done. simpl. rewrite Ep. simpl. by rewrite decide_True.
    + rewrite bool_decide_false by done. simpl. rewrite GetWakeupList_run. cbn [backend_]. rewrite Ep. cbn [fst snd].
      rewrite wakeup_run. rewrite decide_False by congruence. unfold add_replies, stored. simpl.
      by rewrite <- app_assoc.
  - rewrite GetWakeupList_run. cbn [backend_]. rewrite Ep. cbn [fst snd].
    rewrite wakeup_run. unfold add_replies, stored. simpl. by rewrite <- app_assoc.
Qed.

(** GET of a key that is there answers with its value and changes nothing. *)
Lemma GetHandler_hit ctx u key value s :
  key_too_long key = false -> ~ starts_with autoRankingStr_ key ->
  contents (backend_ s) !! key = Some value ->
  GetHandler ctx (mkMsg GET u [key] []) s =
  Some (SM_OK, add_replies [mkReply ctx SUCCESS (response GET [value])] s).
Proof.
  intros Hk Hr Hc. unfold GetHandler. cbn [keys values]. rewrite Hk, decide_False by done.
  unfold bGet, gets, mbind, M_bind. by rewrite Get_law, Hc.
Qed.

Lemma Unpack_packed m :
  message_wf m -> Unpack (Some (Pack m)) = Ok (blen (Pack m), m).
Proof.
  intros Hm. pose proof (Pack_room m Hm). pose proof (Unpack_Pack m [] Hm) as Hu.
  rewrite app_nil_r in Hu. apply Hu. lia.
Qed.
(** A request that arrives packed reaches its handler unpacked. *)
Lemma receive_packed ctx m s :
  message_wf m ->
  ReceiveMessageHandler ctx (Some (Pack m)) s =
  match handler_of (mt m) with
  | Some handler => handler ctx m s
  | None => Some (SM_ERROR, add_replies [mkReply ctx INVALID_MESSAGE (lit "invalid request message type")] s)
  end.
Proof.
  intros Hm. unfold ReceiveMessageHandler. rewrite Unpack_packed by done. by destruct (handler_of (mt m)).
Qed.

(** *** Ranks *)
Lemma find_rank_None fuel W i alive :
  0 < W < 2 ^ 32 -> 0 <= i -> find_rank fuel W i alive = None ->
  forall j, 0 <= j < Z.of_nat fuel -> (i + j) mod W ∈ alive.
Proof.
  intros HW. revert i. induction fuel as [|fuel IH]; intros i Hi; simpl; [intros; lia|].
  pose proof (Z.mod_pos_bound i W ltac:(lia)) as Hm.
  destruct (decide (i mod W ∈ alive)) as [Ha|]; [|done]. intros Hf j Hj.
  rewrite u32_small in Hf by lia.
  destruct (decide (j = 0)) as [->|Hj0]; [by rewrite Z.add_0_r|].
  specialize (IH (i mod W + 1) ltac:(lia) Hf (j - 1) ltac:(lia)).
  replace ((i + j) mod W) with ((i mod W + 1 + (j - 1)) mod W); [done|].
  replace (i mod W + 1 + (j - 1)) with (i mod W + j) by lia. by rewrite Zplus_mod_idemp_l.
Qed.
Lemma find_rank_Some fuel W i alive r :
  0 < W -> find_rank fuel W i alive = Some r -> 0 <= r < W /\ r ∉ alive.
Proof.
  intros HW. revert i. induction fuel as [|fuel IH]; intros i; simpl; [done|].
  destruct (decide (i mod W ∈ alive)); [apply IH|]. intros [= <-]. split; [by apply Z.mod_pos_bound|done].
Qed.
(** With fewer ranks alive than there are, the search ends, at a free rank. *)
Lemma find_rank_total W i (alive : gset Z) :
  W < 2 ^ 32 -> 0 <= i -> Z.of_nat (size alive) < W ->
  exists r, find_rank (S (Z.to_nat W)) W i alive = Some r /\ 0 <= r < W /\ r ∉ alive.
Proof.
  intros HW Hi Hs. destruct (find_rank _ _ _ _) as [r|] eqn:Ef.
  { exists r. split; [done|]. apply find_rank_Some in Ef; [done|lia]. }
  pose proof (find_rank_None _ W _ _ ltac:(lia) Hi Ef) as Hall. exfalso.
  assert (Hsub : list_to_set (seqZ 0 W) ⊆ alive).
  { intros x Hx%elem_of_list_to_set%elem_of_seqZ.
    destruct (Z_le_gt_dec (i mod W) x).
    - replace x with ((i + (x - i mod W)) mod W); [apply Hall; pose proof (Z.mod_pos_bound i W); lia|].
      rewrite <- Zplus_mod_idemp_l. replace (i mod W + (x - i mod W)) with x by lia. apply Z.mod_small. lia.
    - replace x with ((i + (x + W - i mod W)) mod W); [apply Hall; pose proof (Z.mod_pos_bound i W); lia|].
      rewrite <- Zplus_mod_idemp_l. replace (i mod W + (x + W - i mod W)) with (x + 1 * W) by lia.
      rewrite Z.mod_add by lia. apply Z.mod_small. lia. }
  apply subseteq_size in Hsub. rewrite size_list_to_set in Hsub by apply NoDup_seqZ.
  rewrite length_seqZ in Hsub. lia.
Qed.

(** *** The rank list in a distributed backend *)
Definition rank_ok (r : Z) : Prop := 0 <= r <= UINT32_MAX.
Lemma parse_ranks_text l acc :
  Forall rank_ok l -> parse_ranks (to_string <$> l) acc = Some (list_to_set l ∪ acc).
Proof.
  intros Hl. revert acc. induction Hl as [|r l Hr Hl IH]; intros acc; [f_equal; set_solver|].
  unfold rank_ok, UINT32_MAX in Hr. destruct (to_string_nonneg r ltac:(lia)) as (ds & Ed & Hne & _).
  rewrite fmap_cons. rewrite Ed. cbn [parse_ranks]. destruct ds as [|c ds]; [done|]. rewrite <- Ed.
  rewrite String2Uint_to_string by (unfold UINT32_MAX; lia). rewrite IH. f_equal. set_solver.
Qed.
Lemma rank_text_parse (rs : gset Z) :
  set_Forall rank_ok rs -> parse_ranks (Split (rank_text rs) 44) ∅ = Some rs.
Proof.
  intros Hrs. assert (Hl : Forall rank_ok (elements rs)).
  { apply Forall_forall. intros r Hr. apply Hrs. by apply elem_of_elements. }
  unfold rank_text. rewrite Split_join.
  - rewrite parse_ranks_text by done. f_equal. rewrite list_to_set_elements_L. set_solver.
  - apply Forall_fmap. apply (Forall_impl _ _ _ Hl). intros r Hr. unfold rank_ok, UINT32_MAX in Hr. simpl.
    destruct (to_string_nonneg r ltac:(lia)) as (ds & -> & Hne & Hd & _). split; [|done].
    apply (Forall_impl _ _ _ Hd). unfold is_digit. intros c Hc. lia.
Qed.
Lemma rank_text_nonempty (rs : gset Z) : set_Forall rank_ok rs -> rs <> ∅ -> rank_text rs <> [].
Proof. intros Hrs Hne Et. pose proof (rank_text_parse rs Hrs) as H. rewrite Et in H. simpl in H. congruence. Qed.

Lemma RecoverAliveRankIds_run rs s1 s2 s :
  set_Forall rank_ok rs -> IsDistributed (backend_ s) = true ->
  PersistAliveRankIds rs s = Some (SUCCESS, s1) -> backend_ s2 = backend_ s1 ->
  exists b, RecoverAliveRankIds s2 =
    Some (SUCCESS, mkServer b (waiting s2) (watching s2)
      (mkRanks (aliveRankSet_ (ranks s2)) (rankIndex_ (ranks s2)) (worldSize_ (ranks s2))
         (rankStateTaskQueue_ (ranks s2)) rs)
      (life s2) (externalBrokenHandler_ s2) (replies s2)) /\ IsDistributed b = true.
Proof.
  intros Hrs Hd Hp Hb. unfold PersistAliveRankIds, distributed, gets, mbind, M_bind in Hp. rewrite Hd in Hp.
  cbn [negb] in Hp. unfold RecoverAliveRankIds, distributed, bGet, put_recovered, put_ranks, gets, mbind, M_bind.
  cbn [backend_]. rewrite Hb. destruct (decide (rs = ∅)) as [->|Hne].
  - unfold bDelete, gets, put_backend, mbind, M_bind, mret, M_ret in Hp.
    pose proof (Delete_law KEY_ALIVE_RANK_LIST (backend_ s)) as Hl.
    destruct (Delete _ _) as [ret b]. simpl in Hp. injection Hp as -> <-. cbn [backend_].
    destruct Hl as (Hd' & Hc & _). rewrite Hd', Hd. cbn [negb backend_ ranks]. rewrite Hb. cbn [backend_]. rewrite Get_law, Hc, decide_True, lookup_delete_eq by done.
    eexists. split; [reflexivity|congruence].
  - unfold bPut, gets, put_backend, mbind, M_bind, mret, M_ret in Hp.
    pose proof (Put_law KEY_ALIVE_RANK_LIST (rank_text rs) 0 (backend_ s)) as Hl.
    destruct (Put _ _ _ _) as [ret b]. simpl in Hp. injection Hp as -> <-. cbn [backend_].
    destruct Hl as (Hd' & Hc). rewrite Hd', Hd. cbn [negb backend_ ranks]. rewrite Hb. cbn [backend_].
    rewrite Get_law, Hc, decide_True, lookup_insert_eq by done. cbn [fst snd].
    rewrite decide_False by (by apply rank_text_nonempty). rewrite rank_text_parse by done.
    eexists. split; [reflexivity|]. cbn [backend_]. rewrite delete_distributed. congruence.
Qed.

Lemma cleanup_pushes l s :
  foldM l (fun rankId _ => cleanup_push rankId) tt s =
  Some (tt, mkServer (backend_ s) (waiting s) (watching s)
    (mkRanks (aliveRankSet_ (ranks s)) (rankIndex_ (ranks s)) (worldSize_ (ranks s))
       (rankStateTaskQueue_ (ranks s) ++ l) (aliveRankFromBackend_ (ranks s)))
    (life s) (externalBrokenHandler_ s) (replies s)).
Proof.
  revert s. induction l as [|r l IH]; intros s; cbn [foldM].
  - destruct s as [b w wt [a i ws q f] lf h rep]. unfold mret, M_ret. simpl. by rewrite app_nil_r.
  - unfold mbind, M_bind, cleanup_push, gets, put_ranks. simpl. rewrite IH. simpl. by rewrite <- app_assoc.
Qed.
(** The clean-up queues the recovered ranks that have not come back, each once. *)
Lemma CleanupStaleRanks_queue stopSecond s :
  exists s', CleanupStaleRanks false stopSecond s = Some (tt, s') /\
    rankStateTaskQueue_ (ranks s') =
    rankStateTaskQueue_ (ranks s) ++ elements (aliveRankFromBackend_ (ranks s) ∖ aliveRankSet_ (ranks s)).
Proof.
  unfold CleanupStaleRanks, cleanup_collect, put_recovered, UpdateStatus, distributed, gets, put_ranks, mbind, M_bind.
  cbn [ranks]. unfold mret, M_ret. rewrite cleanup_pushes. cbn [backend_ ranks].
  destruct stopSecond; [eexists; split; [reflexivity|done]|]. cbn [backend_].
  destruct (IsDistributed (backend_ s)); cbn [negb]; eexists; (split; [reflexivity|done]).
Qed.
(** With recovered ranks the leader stays inactive and the clean-up starts. *)
Lemma LaunchCleanupThread_run s :
  IsDistributed (backend_ s) = true -> aliveRankFromBackend_ (ranks s) <> ∅ ->
  (Delete KEY_LEADER_STATUS (backend_ s)).1 = SUCCESS ->
  exists s', LaunchCleanupThread s = Some ((SM_OK, true), s') /\ ranks s' = ranks s.
Proof.
  intros Hd Hne Hdel. unfold LaunchCleanupThread, UpdateStatus, distributed, bDelete, gets, put_backend, mbind, M_bind.
  rewrite bool_decide_false by done. rewrite Hd. cbn [negb]. unfold mret, M_ret. rewrite Hdel. by eexists.
Qed.
Lemma LinkConnectedHandler_keeps_stale reqRankId reconnect linkId s :
  wlp (LinkConnectedHandler reqRankId reconnect linkId)
    (fun _ s' => aliveRankFromBackend_ (ranks s') = aliveRankFromBackend_ (ranks s) /\
                 rankStateTaskQueue_ (ranks s') = rankStateTaskQueue_ (ranks s)) s.
Proof.
  unfold LinkConnectedHandler, PersistWorldSize, PersistAliveRankIds, CanReceiveNewLink, put_world_size, put_state.
  by sx.
Qed.
Lemma PersistAliveRankIds_distributed rs ret s s' :
  PersistAliveRankIds rs s = Some (ret, s') -> IsDistributed (backend_ s') = IsDistributed (backend_ s).
Proof.
  assert (H : wlp (PersistAliveRankIds rs)
                (fun _ s' => IsDistributed (backend_ s') = IsDistributed (backend_ s)) s).
  { unfold PersistAliveRankIds. apply wlp_bind, wlp_gets.
    sx; cbn [backend_]; rewrite ?put_distributed, ?delete_distributed; done. }
  intros Hp. unfold wlp in H. by rewrite Hp in H.
Qed.
End env.

Lemma reconnects_keep_stale (conns : list (StoreEnv * (Z * Z * Z))) a ret s s' :
  foldM conns (fun '(E', (reqRankId, reconnect, linkId)) _ =>
    LinkConnectedHandler (E := E') reqRankId reconnect linkId) a s = Some (ret, s') ->
  aliveRankFromBackend_ (ranks s') = aliveRankFromBackend_ (ranks s) /\
  rankStateTaskQueue_ (ranks s') = rankStateTaskQueue_ (ranks s).
Proof.
  revert a s. induction conns as [|[E' [[r rc] l]] conns IH]; intros a s; cbn [foldM].
  { by intros [= _ <-]. }
  unfold mbind, M_bind. pose proof (LinkConnectedHandler_keeps_stale (E := E') r rc l s) as H. unfold wlp in H.
  destruct (LinkConnectedHandler r rc l s) as [[ret' s1]|]; [|done].
  intros Hf%IH. destruct H, Hf. split; congruence.
Qed.

(** ** Runs of the server

    The clocks, the links and the order of an unordered map may change from one
    transition to the next.  With [strict], no request writes a key somebody waits for. *)
Inductive store_run (strict : bool) (b : B) (worldSize : Z) (skipRecover : bool) : list event -> Server B -> Prop :=
| run_start : store_run strict b worldSize skipRecover [] (new_server b worldSize skipRecover)
| run_next evs ev (E : StoreEnv) ret s s' :
    store_run strict b worldSize skipRecover evs s -> (strict = true -> quiet ev s) ->
    run ev s = Some (ret, s') -> store_run strict b worldSize skipRecover (evs ++ [ev]) s'.

Lemma store_run_ok strict b worldSize skipRecover evs s :
  IsDistributed b = false -> store_run strict b worldSize skipRecover evs s ->
  Z.of_nat (length evs) < ID_LIMIT - 1 -> store_ok strict (1 + Z.of_nat (length evs)) s.
Proof.
  intros Hd. induction 1 as [|evs ev E ret s s' Hrun IH Hq Hev].
  - intros _. split; [split; [apply wait_inv_empty|split; [done|]]|split; [simpl; lia|done]].
    intros _ i c. simpl. by rewrite lookup_empty.
  - rewrite length_app. simpl. intros Hn.
    pose proof (run_ok strict (1 + Z.of_nat (length evs)) ltac:(lia) ev s Hq ltac:(apply IH; lia)) as H.
    unfold wlp in H. rewrite Hev in H. by replace (1 + Z.of_nat (length evs + 1)) with (1 + Z.of_nat (length evs) + 1) by lia.
Qed.
End server.
