(* ===== verification/StoreScenario.v ===== *)
(** * StoreScenario: sequences of requests to a config store on the local backend

    A counter that clients add to, and the ranks a group of clients obtains: what a whole
    sequence of requests leaves behind and answers. *)
From Stdlib Require Import String.
From stdpp Require Import gmap.
From S2P Require Import Prelude Simt StrUtil MessagePacker MessagePackerProof StoreBackend StoreServer StoreWaiting.
From S2P Require Import StoreServerProof.

Section scenario.
Context {E : StoreEnv}.
Implicit Types s : Server SmemLocalMemoryBackend.

(** ** Counters *)
Definition long_ok (n : Z) : Prop := LONG_MIN <= n <= LONG_MAX.
Definition counter_at (key : bytes) (total : Z) s : Prop :=
  match kvStore_ (backend_ s) !! key with
  | None => total = 0
  | Some v => v =@{bytes} to_string total
  end.
Lemma counter_absent key s : kvStore_ (backend_ s) !! key = None -> counter_at key 0 s.
Proof. unfold counter_at. by intros ->. Qed.
Definition add_request (u : Z) (key : bytes) (v : Z) : SmemMessage := mkMsg ADD u [key] [to_string v].

Lemma add_overflows_iff v t : long_ok v -> long_ok t -> add_overflows v t = false <-> long_ok (t + v).
Proof. unfold long_ok, add_overflows, LONG_MIN, LONG_MAX. intros Hv Ht. lia. Qed.
Lemma to_string_0 : to_string 0 = lit "0".
Proof. reflexivity. Qed.
Lemma to_string_inj n m : long_ok n -> long_ok m -> to_string n = to_string m -> n = m.
Proof.
  unfold long_ok, LONG_MIN, LONG_MAX. intros Hn Hm He. pose proof (String2Int_to_string n ltac:(lia)) as H.
  rewrite He, String2Int_to_string in H by lia. congruence.
Qed.

Lemma zero_text t : (t =? 0) && negb (bool_decide (to_string t = lit "0")) = false.
Proof. destruct (Z.eqb_spec t 0) as [->|]; [|done]. by rewrite to_string_0, bool_decide_true. Qed.

(** One ADD: the sum is stored and answered; what the key's waiters and watchers are sent
    follows the answer. *)
Lemma AddHandler_run ctx u key v t s :
  key_too_long key = false -> long_ok v -> long_ok t -> long_ok (t + v) -> counter_at key t s ->
  exists w l, AddHandler ctx (add_request u key v) s =
    Some (SM_OK, stored (mkLocalStore (<[key := to_string (t + v)]> (kvStore_ (backend_ s)))) w
                   (mkReply ctx SUCCESS (to_string (t + v)) :: l) s).
Proof.
  intros Hk Hv Ht Hs Hc. unfold AddHandler, add_request. cbn [keys values]. rewrite Hk.
  rewrite String2Int_to_string by (unfold long_ok, LONG_MIN, LONG_MAX in Hv; lia).
  rewrite bool_decide_true by done. cbn [negb]. unfold bGet, gets, mbind, M_bind. cbn [Get local_backend].
  unfold local_Get, counter_at in *. destruct (kvStore_ (backend_ s) !! key) as [old|] eqn:Eo; subst.
  - cbn [fst snd negb]. rewrite String2Int_to_string by (unfold long_ok, LONG_MIN, LONG_MAX in Ht; lia).
    change (SUCCESS =? SUCCESS) with true. cbn [negb]. rewrite (bool_decide_true (is_Some _)) by done.
    cbn [default from_option]. unfold id. rewrite zero_text. cbn [orb negb]. rewrite (proj2 (add_overflows_iff v t Hv Ht) Hs).
    unfold bPut, gets, put_backend, mbind, M_bind, mret, M_ret. cbn [Put local_backend local_Put fst snd].
    rewrite GetWakeupList_run. unfold ReplyWithMessage. rewrite wakeup_run.
    eexists _, _. unfold add_replies, stored. simpl. by rewrite <- app_assoc.
  - cbn [fst snd]. change (NOT_EXIST =? SUCCESS) with false. cbn [negb].
    unfold bPut, gets, put_backend, mbind, M_bind, mret, M_ret. cbn [Put local_backend local_Put fst snd].
    rewrite GetWakeupList_run. unfold ReplyWithMessage. rewrite wakeup_run.
    eexists _, _. unfold add_replies, stored. simpl. by rewrite <- app_assoc.
Qed.

(** The totals a sequence of additions runs through. *)
Fixpoint totals (t : Z) (vs : list Z) : list Z :=
  match vs with [] => [] | v :: vs => (t + v) :: totals (t + v) vs end.

Definition sum_Z (vs : list Z) : Z := foldr Z.add 0 vs.
Lemma totals_last t vs : default t (last (totals t vs)) = t + sum_Z vs.
Proof.
  revert t. induction vs as [|v vs IH]; intros t; simpl; [unfold sum_Z; simpl; lia|].
  rewrite last_cons. specialize (IH (t + v)). unfold sum_Z in *. simpl.
  destruct (last (totals (t + v) vs)); simpl in *; lia.
Qed.

Lemma add_sequence ctx u key vs t s :
  key_too_long key = false -> long_ok t -> Forall long_ok vs -> Forall long_ok (totals t vs) -> counter_at key t s ->
  exists s' l, foldM vs (fun v _ => AddHandler ctx (add_request u key v)) SM_OK s = Some (SM_OK, s') /\
    counter_at key (default t (last (totals t vs))) s' /\
    (forall k, k <> key -> kvStore_ (backend_ s') !! k = kvStore_ (backend_ s) !! k) /\
    (vs <> [] \/ kvStore_ (backend_ s) !! key <> None -> kvStore_ (backend_ s') !! key <> None) /\
    replies s' = replies s ++ l /\
    ((fun t' => mkReply ctx SUCCESS (to_string t')) <$> totals t vs) `sublist_of` l.
Proof.
  intros Hk Ht Hvs. revert t s Ht. induction Hvs as [|v vs Hv Hvs IH]; intros t s Ht Htot Hc.
  { exists s, []. simpl. rewrite app_nil_r. split_and!; try done. intros [?|?]; done. }
  cbn [totals] in Htot. apply Forall_cons in Htot as [Hs Htot].
  destruct (AddHandler_run ctx u key v t s Hk Hv Ht Hs Hc) as (w & l1 & H1).
  cbn [foldM]. unfold mbind, M_bind. rewrite H1. clear H1.
  match goal with |- context [foldM vs _ _ ?st] => set (s1 := st) end.
  assert (Hc1 : counter_at key (t + v) s1).
  { unfold counter_at, s1. simpl. by rewrite lookup_insert_eq. }
  destruct (IH (t + v) s1 Hs Htot Hc1) as (s' & l & -> & Hc' & Hk' & Hn' & Hr & Hsub).
  exists s', (mkReply ctx SUCCESS (to_string (t + v)) :: l1 ++ l). split_and!.
  - done.
  - cbn [totals]. rewrite last_cons. by destruct (last (totals (t + v) vs)).
  - intros k Hne. rewrite Hk' by done. simpl. by rewrite lookup_insert_ne.
  - intros _. apply Hn'. right. simpl. by rewrite lookup_insert_eq.
  - rewrite Hr. simpl. by rewrite <- app_assoc.
  - cbn [totals]. rewrite fmap_cons. apply sublist_skip. by apply sublist_inserts_l.
Qed.

(** ** Ranks *)
Definition rank_request (u : Z) : SmemMessage := mkMsg GET u [autoRankingStr_] [].
Definition rank_key (ctx : ReqCtx) : bytes := autoRankingStr_ ++ to_string (LinkId ctx).
Definition with_rank (ctx : ReqCtx) (r : Z) s : Server SmemLocalMemoryBackend :=
  mkServer (mkLocalStore (<[rank_key ctx := rank_bytes r]> (kvStore_ (backend_ s)))) (waiting s) (watching s)
    (mkRanks ({[r]} ∪ aliveRankSet_ (ranks s)) r (worldSize_ (ranks s)) (rankStateTaskQueue_ (ranks s))
       (aliveRankFromBackend_ (ranks s)))
    (life s) (externalBrokenHandler_ s)
    (replies s ++ [mkReply ctx SUCCESS (response GET [rank_bytes r])]).

Lemma FindOrInsertRank_run ctx u s :
  kvStore_ (backend_ s) !! rank_key ctx = None ->
  worldSize_ (ranks s) < 2 ^ 32 -> 0 <= rankIndex_ (ranks s) ->
  Z.of_nat (size (aliveRankSet_ (ranks s))) < worldSize_ (ranks s) ->
  exists r, 0 <= r < worldSize_ (ranks s) /\ (r ∉ aliveRankSet_ (ranks s)) /\
    FindOrInsertRank ctx (rank_request u) autoRankingStr_ s = Some (0, with_rank ctx r s).
Proof.
  intros Hk HW Hi Hs. destruct (find_rank_total _ _ _ HW Hi Hs) as (r & Hf & Hr & Hn).
  exists r. split_and!; [lia..|done|]. unfold FindOrInsertRank. fold (rank_key ctx).
  unfold bGet, gets, mbind, M_bind. cbn [Get local_backend]. unfold local_Get. rewrite Hk. cbn [fst].
  change (NOT_EXIST =? SUCCESS) with false. cbv beta iota. rewrite (proj2 (Z.leb_gt _ _)) by lia. rewrite Hf. done.
Qed.
Lemma GetHandler_rank ctx u s :
  GetHandler ctx (rank_request u) s = FindOrInsertRank ctx (rank_request u) autoRankingStr_ s.
Proof. done. Qed.

(** Each client of a group, each on a link of its own, obtains a rank of its own. *)
Lemma rank_sequence ctxs s :
  NoDup (LinkId <$> ctxs) -> Forall (fun ctx => 0 <= LinkId ctx <= UINT32_MAX) ctxs ->
  Forall (fun ctx => kvStore_ (backend_ s) !! rank_key ctx = None) ctxs ->
  worldSize_ (ranks s) < 2 ^ 32 -> 0 <= rankIndex_ (ranks s) ->
  Z.of_nat (size (aliveRankSet_ (ranks s)) + length ctxs) <= worldSize_ (ranks s) ->
  exists rs s', foldM ctxs (fun ctx _ => GetHandler ctx (rank_request (-1))) 0 s = Some (0, s') /\
    NoDup rs /\ Forall (fun r => 0 <= r < worldSize_ (ranks s) /\ r ∉ aliveRankSet_ (ranks s)) rs /\
    length rs = length ctxs /\
    aliveRankSet_ (ranks s') = list_to_set rs ∪ aliveRankSet_ (ranks s) /\
    replies s' = replies s ++ zip_with (fun ctx r => mkReply ctx SUCCESS (response GET [rank_bytes r])) ctxs rs /\
    worldSize_ (ranks s') = worldSize_ (ranks s).
Proof.
  revert s. induction ctxs as [|ctx ctxs IH]; intros s Hnd Hl Hk HW Hi Hs.
  { exists [], s. simpl. rewrite app_nil_r. split_and!; try done; set_solver. }
  apply NoDup_cons in Hnd as [Hni Hnd]. apply Forall_cons in Hl as [Hl1 Hl]. apply Forall_cons in Hk as [Hk1 Hk].
  cbn [length] in Hs. destruct (FindOrInsertRank_run ctx (-1) s Hk1 HW Hi ltac:(lia)) as (r & Hr & Hn & Hf).
  cbn [foldM]. unfold mbind, M_bind. rewrite GetHandler_rank, Hf. clear Hf.
  assert (Hsz : size ({[r]} ∪ aliveRankSet_ (ranks s)) = S (size (aliveRankSet_ (ranks s)))).
  { rewrite size_union by set_solver. by rewrite size_singleton. }
  destruct (IH (with_rank ctx r s)) as (rs & s' & -> & Hnd' & Hrs & Hlen & Ha & Hrep & Hws); try done.
  - apply Forall_forall. intros ctx' Hin. rewrite Forall_forall in Hk, Hl. simpl. rewrite lookup_insert_ne; [by apply Hk|].
    intros Heq%(inj (app autoRankingStr_)). apply to_string_inj in Heq;
      [|specialize (Hl ctx' Hin); unfold long_ok, LONG_MIN, LONG_MAX, UINT32_MAX in *; lia..].
    apply Hni. rewrite Heq. by apply list_elem_of_fmap_2.
  - simpl. lia.
  - simpl. rewrite Hsz. lia.
  - exists (r :: rs), s'. simpl in Hrs. split_and!; [done| | | | | |done].
    + constructor; [|done]. intros Hin. rewrite Forall_forall in Hrs. apply Hrs in Hin. set_solver.
    + constructor; [done|]. apply (Forall_impl _ _ _ Hrs). set_solver.
    + simpl. by rewrite Hlen.
    + rewrite Ha. simpl. set_solver.
    + rewrite Hrep. simpl. by rewrite <- app_assoc.
Qed.
(** When every rank is taken the next client is refused. *)
Lemma FindOrInsertRank_full ctx u s :
  kvStore_ (backend_ s) !! rank_key ctx = None ->
  worldSize_ (ranks s) <= Z.of_nat (size (aliveRankSet_ (ranks s))) ->
  FindOrInsertRank ctx (rank_request u) autoRankingStr_ s =
  Some (SM_ERROR, add_replies [mkReply ctx ERROR (lit "error: worldSize rankSize bigger than worldSize.")] s).
Proof.
  intros Hk Hs. unfold FindOrInsertRank. fold (rank_key ctx).
  unfold bGet, gets, mbind, M_bind. cbn [Get local_backend]. unfold local_Get. rewrite Hk. cbn [fst].
  change (NOT_EXIST =? SUCCESS) with false. cbv beta iota. by rewrite (proj2 (Z.leb_le _ _)).
Qed.
End scenario.
