(* ===== verification/StoreClient.v ===== *)
(** * StoreClient: the config store client

    The request methods of [smem_tcp_config_store.cpp] and the key prefixes of
    [smem_prefix_config_store.h].  A method packs a request, sends it and interprets the
    response; sending is a class, and [server_transport] is its instance in which the
    request is handled by the server of [StoreServer].  [None] is a call that does not
    return: the server keeps the request waiting, or memory is accessed out of bounds.
    [kv_step] is what a call means on the contents of the store.  [errno] is taken to be
    clear when the body of a response is empty. *)
From Stdlib Require Import String.
From stdpp Require Import gmap.
From S2P Require Import Prelude Simt StrUtil MessagePacker StoreBackend StoreServer.

Definition RESTORE : Z := -405.
Definition IO_ERROR : Z := -602.
Definition SM_MALLOC_FAILED : Z := -2001.
Definition MAX_KEY_LEN_CLIENT : Z := 1024.

(** [AccTcpRequestContext] of a response: the result of its header and its body. *)
Record Response := mkResp { resp_result : Z; resp_data : option bytes }.
Class Transport (S : Type) := SendMessageBlocked : bytes -> M S (option Response).

Section client.
Context {S : Type} {T : Transport S}.

Definition bad_key (key : bytes) : bool := bool_decide (key = []) || (MAX_KEY_LEN_CLIENT <? blen key).
(** [Unpack] of the body; a negative size means that it was refused. *)
Definition unpack_response (data : bytes) : M S (option SmemMessage) := fun s =>
  match Unpack (Some data) with
  | Fault => None
  | Reject => Some (None, s)
  | Ok (size, m) => Some (if size <? 0 then None else Some m, s)
  end.

Definition client_Set (key value : bytes) : M S Z :=
  if bad_key key then mret INVALID_KEY else
  response ← SendMessageBlocked (Pack (mkMsg SET (-1) [key] [value]));
  match response with
  | None => mret IO_ERROR
  | Some r => mret (resp_result r)
  end.

(** [value] is the caller's vector. *)
Definition client_GetReal (key value : bytes) (timeoutMs : Z) : M S (Z * bytes) :=
  if bad_key key then mret (INVALID_KEY, value) else
  response ← SendMessageBlocked (Pack (mkMsg GET timeoutMs [key] []));
  match response with
  | None => mret (IO_ERROR, value)
  | Some r =>
      if negb (resp_result r =? 0) && negb (resp_result r =? RESTORE) then mret (resp_result r, value) else
      match resp_data r with
      | None => mret (SM_MALLOC_FAILED, value)
      | Some data =>
          body ← unpack_response data;
          match body with
          | None => mret (-1, value)
          | Some m => match values m with
                      | [] => mret (-1, value)
                      | v :: _ => mret (resp_result r, v)
                      end
          end
      end
  end.

(** [strtoll] sets [errno] to [ERANGE]. *)
Definition int_range_error (data : bytes) : bool :=
  match scan_number (c_str data) with
  | None => false
  | Some (neg, v, _) => let n := if neg : bool then - v else v in
                        negb ((- 2 ^ 63 <=? n) && (n <? 2 ^ 63))
  end.
Definition client_Add (key : bytes) (increment value : Z) : M S (Z * Z) :=
  if bad_key key then mret (INVALID_KEY, value) else
  response ← SendMessageBlocked (Pack (mkMsg ADD (-1) [key] [to_string increment]));
  match response with
  | None => mret (IO_ERROR, value)
  | Some r =>
      if negb (resp_result r =? 0) then mret (resp_result r, value) else
      match resp_data r with
      | None => mret (IO_ERROR, value)
      | Some data =>
          let parsed := String2Int data in
          let value := default 0 parsed in
          if int_range_error data then mret (IO_ERROR, value) else
          if ((value =? 0) && negb (bool_decide (data = lit "0"))) || negb (bool_decide (is_Some parsed))
          then mret (ERROR, value) else mret (SUCCESS, value)
      end
  end.

Definition client_Remove (key : bytes) : M S Z :=
  if bad_key key then mret INVALID_KEY else
  response ← SendMessageBlocked (Pack (mkMsg REMOVE (-1) [key] []));
  match response with
  | None => mret IO_ERROR
  | Some r => mret (resp_result r)
  end.

Definition client_Append (key value : bytes) (newSize : Z) : M S (Z * Z) :=
  if bad_key key then mret (INVALID_KEY, newSize) else
  response ← SendMessageBlocked (Pack (mkMsg APPEND (-1) [key] [value]));
  match response with
  | None => mret (IO_ERROR, newSize)
  | Some r =>
      if negb (resp_result r =? 0) then mret (resp_result r, newSize) else
      match resp_data r with
      | None => mret (IO_ERROR, newSize)
      | Some data => match String2Int data with
                     | None => mret (ERROR, newSize)
                     | Some n => mret (SUCCESS, u64 n)
                     end
      end
  end.

Definition client_Write (key value : bytes) (offset : Z) : M S Z :=
  if bad_key key then mret INVALID_KEY else
  response ← SendMessageBlocked (Pack (mkMsg WRITE (-1) [key] [Z_to_little_endian 4 8 offset ++ value]));
  match response with
  | None => mret IO_ERROR
  | Some r => mret (resp_result r)
  end.

Definition client_QueryAlive (rank : Z) (alive : bool) : M S (Z * bool) :=
  response ← SendMessageBlocked (Pack (mkMsg QUERY_ALIVE (-1) [to_string rank] []));
  match response with
  | None => mret (IO_ERROR, alive)
  | Some r =>
      if negb (resp_result r =? 0) then mret (resp_result r, alive) else
      match resp_data r with
      | None => mret (SM_MALLOC_FAILED, alive)
      | Some data =>
          body ← unpack_response data;
          match body with
          | None => mret (-1, alive)
          | Some m => mret (0, negb (bool_decide (values m = [])))
          end
      end
  end.

Definition client_Cas (key expect value exists_ : bytes) : M S (Z * bytes) :=
  if bad_key key then mret (INVALID_KEY, exists_) else
  response ← SendMessageBlocked (Pack (mkMsg CAS (-1) [key] [expect; value]));
  match response with
  | None => mret (IO_ERROR, exists_)
  | Some r =>
      if negb (resp_result r =? 0) then mret (resp_result r, exists_) else
      match resp_data r with
      | None => mret (SM_MALLOC_FAILED, exists_)
      | Some data =>
          body ← unpack_response data;
          match body with
          | None => mret (-1, exists_)
          | Some m => match values m with
                      | [] => mret (-1, exists_)
                      | [v] => mret (0, v)
                      | v :: _ => mret (RESTORE, v)
                      end
          end
      end
  end.

(** ** Calls as values, with the out-parameters of the caller empty *)
Inductive kv_op :=
| KSet (key value : bytes)
| KGet (key : bytes) (timeoutMs : Z)
| KAdd (key : bytes) (increment : Z)
| KRemove (key : bytes)
| KAppend (key value : bytes)
| KCas (key expect value : bytes).
Record kv_ans := mkAns { a_ret : Z; a_data : bytes; a_num : Z }.

Definition client_call (op : kv_op) : M S kv_ans :=
  match op with
  | KSet k v => r ← client_Set k v; mret (mkAns r [] 0)
  | KGet k t => r ← client_GetReal k [] t; mret (mkAns r.1 r.2 0)
  | KAdd k i => r ← client_Add k i 0; mret (mkAns r.1 [] r.2)
  | KRemove k => r ← client_Remove k; mret (mkAns r [] 0)
  | KAppend k v => r ← client_Append k v 0; mret (mkAns r.1 [] r.2)
  | KCas k e v => r ← client_Cas k e v []; mret (mkAns r.1 r.2 0)
  end.
End client.

(** ** [PrefixConfigStore] *)
Definition prefix_op (keyPrefix : bytes) (op : kv_op) : kv_op :=
  match op with
  | KSet k v => KSet (keyPrefix ++ k) v
  | KGet k t => KGet (keyPrefix ++ k) t
  | KAdd k i => KAdd (keyPrefix ++ k) i
  | KRemove k => KRemove (keyPrefix ++ k)
  | KAppend k v => KAppend (keyPrefix ++ k) v
  | KCas k e v => KCas (keyPrefix ++ k) e v
  end.
Definition prefix_call {S} {T : Transport S} (keyPrefix : bytes) (op : kv_op) : M S kv_ans :=
  client_call (prefix_op keyPrefix op).

(** ** The server as transport *)
#[global] Instance ctx_eq_dec : EqDecision ReqCtx.
Proof. solve_decision. Defined.
Definition answer (ctx : ReqCtx) (l : list Reply) : option Reply :=
  snd <$> list_find (fun r => r_ctx r = ctx) l.
Definition server_transport {B} {CB : ConfigStoreBackend B} {E : StoreEnv} (ctx : ReqCtx) : Transport (Server B) :=
  fun body s =>
    match ReceiveMessageHandler ctx (Some body) s with
    | None => None
    | Some (_, s') =>
        match answer ctx (drop (length (replies s)) (replies s')) with
        | None => None
        | Some r => Some (Some (mkResp (r_code r) (Some (r_body r))), s')
        end
    end.

(** ** What a call means on the contents of the store *)
Abbreviation kv := (gmap bytes bytes).
Definition kv_step (op : kv_op) (m : kv) : kv_ans * kv :=
  match op with
  | KSet k v => (mkAns SUCCESS [] 0, <[k := v]> m)
  | KGet k t => match m !! k with
                | Some v => (mkAns SUCCESS v 0, m)
                | None => (mkAns NOT_EXIST [] 0, m)
                end
  | KAdd k i => match m !! k with
                | None => (mkAns SUCCESS [] i, <[k := to_string i]> m)
                | Some v =>
                    match String2Int v with
                    | None => (mkAns INVALID_MESSAGE [] 0, m)
                    | Some t =>
                        if ((t =? 0) && negb (bool_decide (v = lit "0"))) || add_overflows i t
                        then (mkAns INVALID_MESSAGE [] 0, m)
                        else (mkAns SUCCESS [] (t + i), <[k := to_string (t + i)]> m)
                    end
                end
  | KRemove k => (mkAns (if decide (is_Some (m !! k)) then SUCCESS else NOT_EXIST) [] 0, delete k m)
  | KAppend k v => let new := default [] (m !! k) ++ v in
                   (mkAns SUCCESS [] (blen new), <[k := new]> m)
  | KCas k e v => match m !! k with
                  | None => (mkAns SUCCESS v 0, <[k := v]> m)
                  | Some cur => if decide (e = cur) then (mkAns SUCCESS v 0, <[k := v]> m)
                                else (mkAns RESTORE cur 0, m)
                  end
  end.
