(* ===== verification/StoreClientProof.v ===== *)
(** * A client call has the meaning [kv_step] *)
From Stdlib Require Import String.
From stdpp Require Import gmap.
From S2P Require Import Prelude Simt StrUtil MessagePacker MessagePackerProof StoreBackend StoreServer StoreWaiting.
From S2P Require Import StoreServerProof StoreScenario StoreClient.

Section client.
Context {E : StoreEnv} (ctx : ReqCtx).
Implicit Types s : Server SmemLocalMemoryBackend.
Let T : Transport (Server SmemLocalMemoryBackend) := server_transport ctx.
#[local] Existing Instance T.
Definition contents_of s : kv := kvStore_ (backend_ s).

Lemma local_Get_Some k v out b : kvStore_ b !! k = Some v -> local_Get k out b = (SUCCESS, v).
Proof. unfold local_Get. intros H. by setoid_rewrite H. Qed.
Lemma local_Get_None k out b : kvStore_ b !! k = None -> local_Get k out b = (NOT_EXIST, out).
Proof. unfold local_Get. intros H. by setoid_rewrite H. Qed.
Lemma local_Exist_eq k b : local_Exist k b = if decide (is_Some (kvStore_ b !! k)) then SUCCESS else NOT_EXIST.
Proof.
  unfold local_Exist. destruct (kvStore_ b !! k) as [v|] eqn:H.
  - by rewrite decide_True by (by eexists).
  - by rewrite decide_False by (by intros [? ?]).
Qed.

(** The handler answers the sender first, and leaves the contents [m']. *)
Definition handled (m : SmemMessage) s (code : Z) (body : bytes) (m' : kv) : Prop :=
  exists ret s' l, ReceiveMessageHandler ctx (Some (Pack m)) s = Some (ret, s') /\
    replies s' = replies s ++ mkReply ctx code body :: l /\ contents_of s' = m'.

Lemma send_run m s code body m' :
  handled m s code body m' ->
  exists s', SendMessageBlocked (Pack m) s = Some (Some (mkResp code (Some body)), s') /\ contents_of s' = m'.
Proof.
  intros (ret & s' & l & Hr & Hl & Hm). exists s'. split; [|done].
  unfold SendMessageBlocked, T, server_transport. rewrite Hr, Hl, drop_app_length. unfold answer. simpl.
  by rewrite decide_True.
Qed.

(** Running a handler on a message the server accepts. *)
Ltac enter := unfold handled; rewrite receive_packed by done; cbn [mt handler_of];
  unfold contents_of in *.
Ltac handler := unfold bGet, bPut, bDelete, gets, put_backend, mbind, M_bind, mret, M_ret;
  cbn [Get Put Delete Exist local_backend local_Put fst snd].
Ltac settle := change (SUCCESS =? SUCCESS) with true; change (NOT_EXIST =? SUCCESS) with false; cbn [negb]; cbv beta iota.
Ltac answered := settle; rewrite ?GetWakeupList_run; unfold ReplyWithMessage; rewrite ?wakeup_run;
  eexists _, _, _; (split; [reflexivity|]); cbn [replies add_replies backend_ kvStore_];
  rewrite <- ?app_assoc; split; reflexivity.

Lemma Set_handled k v s :
  message_wf (mkMsg SET (-1) [k] [v]) -> key_too_long k = false ->
  handled (mkMsg SET (-1) [k] [v]) s SUCCESS (lit "success") (<[k := v]> (contents_of s)).
Proof.
  intros Hm Hk. enter. pose proof (SetHandler_run ctx (-1) k v s Hk) as H. simpl in H. rewrite H.
  destruct (decide _); eexists _, _, _; (split; [reflexivity|]); by split.
Qed.
Lemma Get_handled k t s v :
  message_wf (mkMsg GET t [k] []) -> key_too_long k = false -> ~ starts_with autoRankingStr_ k ->
  contents_of s !! k = Some v ->
  handled (mkMsg GET t [k] []) s SUCCESS (response GET [v]) (contents_of s).
Proof.
  intros Hm Hk Hr Hv. enter. rewrite (GetHandler_hit (RB := local_reliable) ctx t k v s Hk Hr Hv).
  eexists _, _, _. split; [reflexivity|]. by split.
Qed.
Lemma Get_missing k s :
  message_wf (mkMsg GET 0 [k] []) -> key_too_long k = false -> ~ starts_with autoRankingStr_ k ->
  contents_of s !! k = None ->
  handled (mkMsg GET 0 [k] []) s NOT_EXIST (lit "<not exist>") (contents_of s).
Proof.
  intros Hm Hk Hr Hv. enter. unfold GetHandler. cbn [keys values userDef]. rewrite Hk, decide_False by done.
  handler. rewrite local_Get_None by done. by answered.
Qed.
Lemma Remove_handled k s :
  message_wf (mkMsg REMOVE (-1) [k] []) -> key_too_long k = false ->
  handled (mkMsg REMOVE (-1) [k] []) s (if decide (is_Some (contents_of s !! k)) then SUCCESS else NOT_EXIST)
    (if decide (is_Some (contents_of s !! k)) then lit "success" else lit "not exist") (delete k (contents_of s)).
Proof.
  intros Hm Hk. enter. unfold RemoveHandler. cbn [keys values]. rewrite Hk. handler.
  rewrite local_Exist_eq. destruct (decide (is_Some (kvStore_ (backend_ s) !! k))) as [Hs|Hs].
  - rewrite ?decide_True by done. by answered.
  - rewrite ?decide_False by done. eexists _, _, _. split; [reflexivity|]. split; [reflexivity|].
    symmetry. by apply delete_id, eq_None_not_Some.
Qed.
Lemma Append_handled k v s :
  message_wf (mkMsg APPEND (-1) [k] [v]) -> key_too_long k = false ->
  let new := default [] (contents_of s !! k) ++ v in
  handled (mkMsg APPEND (-1) [k] [v]) s SUCCESS (to_string (blen new)) (<[k := new]> (contents_of s)).
Proof.
  intros Hm Hk. enter. unfold AppendHandler. cbn [keys values]. rewrite Hk. handler.
  destruct (kvStore_ (backend_ s) !! k) as [old|] eqn:Ev.
  - rewrite (local_Get_Some _ _ _ _ Ev). cbn [fst snd default from_option id]. by answered.
  - rewrite (local_Get_None _ _ _ Ev). cbn [fst snd default from_option id]. by answered.
Qed.
Lemma Cas_handled k e v s :
  message_wf (mkMsg CAS (-1) [k] [e; v]) -> key_too_long k = false ->
  let '(ans, m') := kv_step (KCas k e v) (contents_of s) in
  handled (mkMsg CAS (-1) [k] [e; v]) s SUCCESS
    (response CAS (if decide (a_ret ans = SUCCESS) then [a_data ans] else [a_data ans; a_data ans])) m'.
Proof.
  intros Hm Hk. cbn [kv_step]. unfold contents_of at 1 2.
  destruct (kvStore_ (backend_ s) !! k) as [cur|] eqn:Ev; [destruct (decide (e = cur)) as [->|Hne]|];
    enter; unfold CasHandler; cbn [keys values a_ret a_data]; rewrite Hk; handler;
    rewrite (local_Get_Some _ _ _ _ Ev) || rewrite (local_Get_None _ _ _ Ev); cbn [fst snd].
  - settle. rewrite !decide_True by done. by answered.
  - settle. rewrite !decide_False by done. by answered.
  - settle. rewrite decide_True by done. by answered.
Qed.
Lemma Add_handled k i s :
  message_wf (mkMsg ADD (-1) [k] [to_string i]) -> key_too_long k = false -> long_ok i ->
  let '(ans, m') := kv_step (KAdd k i) (contents_of s) in
  exists body, handled (mkMsg ADD (-1) [k] [to_string i]) s (a_ret ans) body m' /\
    (a_ret ans = SUCCESS -> body = to_string (a_num ans)).
Proof.
  intros Hm Hk Hi. cbn [kv_step]. unfold contents_of at 1 2 3 4.
  assert (Hs : String2Int (to_string i) = Some i).
  { apply String2Int_to_string. unfold long_ok, LONG_MIN, LONG_MAX in Hi. lia. }
  destruct (kvStore_ (backend_ s) !! k) as [v|] eqn:Ev; [destruct (String2Int v) as [t|] eqn:Et|].
  2-3: eexists; (split; [|intros Hok; first [discriminate Hok|reflexivity]]).
  1: destruct ((t =? 0) && negb (bool_decide (v = lit "0"))) eqn:Ez; [|destruct (add_overflows i t) eqn:Eo];
    cbn [orb]; eexists; (split; [|intros Hok; first [discriminate Hok|reflexivity]]).
  all: enter; unfold AddHandler; cbn [keys values a_ret a_num]; rewrite Hk, Hs; rewrite bool_decide_true by done; cbn [negb];
    handler; (rewrite (local_Get_Some _ _ _ _ Ev) || rewrite (local_Get_None _ _ _ Ev)); cbn [fst snd]; settle.
  all: rewrite ?Et; cbn [default from_option]; unfold id; rewrite ?Ez, ?Eo;
    try (rewrite (bool_decide_true (is_Some (Some t))) by done); cbn [orb negb]; try by answered.
  rewrite (bool_decide_false (is_Some None)) by (by intros [? ?]). rewrite orb_true_r. by answered.
Qed.
(** ** The calls *)
Definition key_ok (k : bytes) : Prop := k <> [] /\ Forall byte_ok k /\ blen k <= MAX_KEY_LEN_CLIENT.
Definition value_ok (v : bytes) : Prop := sized_ok MAX_VALUE_SIZE v.
Definition op_ok (op : kv_op) (m : kv) : Prop :=
  match op with
  | KSet k v => key_ok k /\ value_ok v
  | KGet k t => key_ok k /\ - 2 ^ 63 <= t < 2 ^ 63 /\ ~ starts_with autoRankingStr_ k /\
                match m !! k with Some v => value_ok v | None => t = 0 end
  | KAdd k i => key_ok k /\ long_ok i
  | KRemove k => key_ok k
  | KAppend k v => key_ok k /\ value_ok v /\ blen (default [] (m !! k) ++ v) < 2 ^ 63
  | KCas k e v => key_ok k /\ value_ok e /\ value_ok v /\ forall cur, m !! k = Some cur -> value_ok cur
  end.

Lemma dec_digits_ok fuel n acc :
  0 <= n -> Forall byte_ok acc -> Forall byte_ok (dec_digits fuel n acc) /\
  (length (dec_digits fuel n acc) <= fuel + length acc)%nat.
Proof.
  revert n acc. induction fuel as [|fuel IH]; intros n acc Hn Ha; simpl; [split; [done|lia]|].
  assert (Hd : Forall byte_ok (48 + n mod 10 :: acc)).
  { constructor; [|done]. pose proof (Z.mod_pos_bound n 10). unfold byte_ok. lia. }
  destruct (n <? 10); [split; [done|simpl; lia]|].
  destruct (IH (n / 10) (48 + n mod 10 :: acc) ltac:(apply Z.div_pos; lia) Hd) as [H1 H2].
  split; [done|]. simpl in H2. lia.
Qed.
Lemma to_string_value n : value_ok (to_string n).
Proof.
  unfold value_ok, sized_ok, to_string, blen, MAX_VALUE_SIZE. destruct (Z.ltb_spec n 0).
  - destruct (dec_digits_ok 20 (- n) [] ltac:(lia) ltac:(constructor)) as [H1 H2].
    split; [by constructor|]. cbn [length] in *. lia.
  - destruct (dec_digits_ok 20 n [] ltac:(lia) ltac:(constructor)) as [H1 H2].
    split; [done|]. cbn [length] in *. lia.
Qed.

Lemma key_ok_good k : key_ok k -> bad_key k = false /\ key_too_long k = false.
Proof.
  intros (Hne & _ & Hl). unfold bad_key, key_too_long, MAX_KEY_LEN_SERVER, MAX_KEY_LEN_CLIENT in *.
  rewrite bool_decide_false by done. simpl. lia.
Qed.
Lemma request_wf t u k vs :
  - 2 ^ 63 <= u < 2 ^ 63 -> key_ok k -> Forall value_ok vs -> (length vs <= 2)%nat -> message_wf (mkMsg t u [k] vs).
Proof.
  intros Hu (_ & Hb & Hl) Hvs Hn. unfold MAX_KEY_LEN_CLIENT in Hl. split; simpl; try done.
  - constructor; [|constructor]. split; [done|]. unfold MAX_KEY_SIZE. lia.
  - unfold MAX_VALUE_COUNT. lia.
Qed.
Lemma unpack_answer t vs s :
  Forall value_ok vs -> (length vs <= 2)%nat ->
  unpack_response (response t vs) s = Some (Some (mkMsg t (-1) [] vs), s).
Proof.
  intros Hvs Hn. assert (Hm : message_wf (mkMsg t (-1) [] vs)).
  { split; simpl; try done; unfold MAX_VALUE_COUNT; lia. }
  unfold unpack_response, response. rewrite Unpack_packed by done.
  pose proof (Pack_room _ Hm). by rewrite (proj2 (Z.ltb_ge _ _)) by lia.
Qed.
Lemma int_range_ok data n : String2Int data = Some n -> int_range_error data = false.
Proof.
  unfold String2Int, int_range_error. destruct data as [|c data]; [done|].
  destruct (scan_number _) as [[[neg v] rest]|]; [|done]. destruct (skip_space rest); [|done].
  by destruct (_ && _).
Qed.

(** Every call that returns has the meaning [kv_step]. *)
Definition calls (op : kv_op) s : Prop :=
  exists s', client_call op s = Some ((kv_step op (contents_of s)).1, s') /\ contents_of s' = (kv_step op (contents_of s)).2.
Ltac all_values := repeat (apply List.Forall_cons; [first [assumption|apply to_string_value]|]); apply List.Forall_nil.
Ltac request := apply request_wf; [lia|assumption|all_values|simpl; lia].
Ltac call k := destruct (key_ok_good k) as [Hb Hl]; [done|]; unfold calls, client_call; unfold mbind, M_bind.

Lemma call_Set k v s : op_ok (KSet k v) (contents_of s) -> calls (KSet k v) s.
Proof.
  intros [Hk Hv]. call k. unfold client_Set. rewrite Hb. unfold mbind, M_bind.
  destruct (send_run _ _ _ _ _ (Set_handled k v s ltac:(request) Hl))
    as (s' & -> & Hc). by exists s'.
Qed.
Lemma call_Get k t s : op_ok (KGet k t) (contents_of s) -> calls (KGet k t) s.
Proof.
  intros (Hk & Ht & Hr & Hv). call k. unfold client_GetReal. rewrite Hb. unfold mbind, M_bind.
  assert (Hw : message_wf (mkMsg GET t [k] [])) by (apply request_wf; [done|done|constructor|simpl; lia]).
  cbn [kv_step]. destruct (contents_of s !! k) as [v|] eqn:Ev.
  - destruct (send_run _ _ _ _ _ (Get_handled k t s v Hw Hl Hr Ev)) as (s' & -> & Hc). cbn [resp_result resp_data].
    change (negb (SUCCESS =? 0)) with false. cbn [andb]. cbv beta iota.
    rewrite unpack_answer by (first [all_values|simpl; lia]). by exists s'.
  - subst t. destruct (send_run _ _ _ _ _ (Get_missing k s Hw Hl Hr Ev)) as (s' & -> & Hc). by exists s'.
Qed.
Lemma String2Int_range v n : String2Int v = Some n -> long_ok n.
Proof.
  unfold String2Int. destruct v as [|c v]; [done|]. destruct (scan_number _) as [[[neg x] rest]|]; [|done].
  destruct (skip_space rest); [|done]. cbv zeta. destruct (_ && _) eqn:Er; [|done]. intros [= <-].
  unfold long_ok, LONG_MIN, LONG_MAX. lia.
Qed.
Lemma kv_add_cases k i m :
  long_ok i ->
  let ans := (kv_step (KAdd k i) m).1 in
  ans = mkAns SUCCESS [] (a_num ans) /\ long_ok (a_num ans) \/ ans = mkAns INVALID_MESSAGE [] 0.
Proof.
  intros Hi. cbv zeta. cbn [kv_step]. destruct (m !! k) as [v|]; [|by left].
  destruct (String2Int v) as [t|] eqn:Et; [|by right]. destruct (_ || _) eqn:Eo; [by right|].
  left. split; [done|]. simpl. apply orb_false_iff in Eo as [_ Eo].
  apply add_overflows_iff; [done|by apply String2Int_range in Et|done].
Qed.
Lemma add_text_parse n :
  long_ok n -> String2Int (to_string n) = Some n /\ int_range_error (to_string n) = false.
Proof.
  intros Hn. assert (H : String2Int (to_string n) = Some n).
  { apply String2Int_to_string. unfold long_ok, LONG_MIN, LONG_MAX in Hn. lia. }
  split; [done|]. by apply (int_range_ok _ n).
Qed.
Lemma call_Add k i s : op_ok (KAdd k i) (contents_of s) -> calls (KAdd k i) s.
Proof.
  intros [Hk Hi]. call k. unfold client_Add. rewrite Hb. unfold mbind, M_bind.
  pose proof (Add_handled k i s ltac:(request) Hl Hi) as H.
  pose proof (kv_add_cases k i (contents_of s) Hi) as Hcase. cbv zeta in Hcase.
  destruct (kv_step (KAdd k i) (contents_of s)) as [ans m'] eqn:Ek. destruct H as (body & Hh & Hbody).
  destruct (send_run _ _ _ _ _ Hh) as (s' & -> & Hc). cbn [resp_result resp_data fst snd] in *.
  exists s'. split; [|done]. destruct Hcase as [[Ha Hn]| ->]; [|done].
  destruct ans as [r d total]. cbn [a_ret a_data a_num] in *. injection Ha as -> ->.
  rewrite (Hbody eq_refl). destruct (add_text_parse _ Hn) as [Hp He]. change (negb (SUCCESS =? 0)) with false. cbv iota. rewrite Hp, He.
  cbn [default from_option]. unfold id. by rewrite zero_text, bool_decide_true.
Qed.
Lemma call_Remove k s : op_ok (KRemove k) (contents_of s) -> calls (KRemove k) s.
Proof.
  intros Hk. call k. unfold client_Remove. rewrite Hb. unfold mbind, M_bind.
  destruct (send_run _ _ _ _ _ (Remove_handled k s ltac:(request) Hl))
    as (s' & -> & Hc). by exists s'.
Qed.
Lemma call_Append k v s : op_ok (KAppend k v) (contents_of s) -> calls (KAppend k v) s.
Proof.
  intros (Hk & Hv & Hn). call k. unfold client_Append. rewrite Hb. unfold mbind, M_bind.
  destruct (send_run _ _ _ _ _ (Append_handled k v s ltac:(request) Hl))
    as (s' & -> & Hc). cbn [resp_result resp_data]. change (negb (SUCCESS =? 0)) with false. cbv iota.
  pose proof (blen_nonneg (default [] (contents_of s !! k) ++ v)).
  rewrite String2Int_to_string by lia. exists s'. split; [|done]. unfold mret, M_ret. cbn [fst snd kv_step].
  by rewrite u64_small by lia.
Qed.
Lemma call_Cas k e v s : op_ok (KCas k e v) (contents_of s) -> calls (KCas k e v) s.
Proof.
  intros (Hk & He & Hv & Hcur). call k. unfold client_Cas. rewrite Hb. unfold mbind, M_bind.
  pose proof (Cas_handled k e v s ltac:(request) Hl) as H.
  assert (Hd : value_ok (a_data (kv_step (KCas k e v) (contents_of s)).1)).
  { cbn [kv_step]. destruct (contents_of s !! k) as [cur|] eqn:Ec; [destruct (decide (e = cur))|]; simpl; auto. }
  destruct (kv_step (KCas k e v) (contents_of s)) as [ans m'] eqn:Ek. cbn [fst snd] in *.
  destruct (send_run _ _ _ _ _ H) as (s' & -> & Hc). cbn [resp_result resp_data].
  change (negb (SUCCESS =? 0)) with false. cbv iota. exists s'. split; [|done]. rewrite unpack_answer.
  - cbn [kv_step] in Ek. destruct (contents_of s !! k) as [cur|]; [destruct (decide (e = cur))|];
      injection Ek as <- _; done.
  - destruct (decide _); all_values.
  - destruct (decide _); simpl; lia.
Qed.

Lemma client_call_refines op s : op_ok op (contents_of s) -> calls op s.
Proof.
  destruct op; [apply call_Set|apply call_Get|apply call_Add|apply call_Remove|apply call_Append|apply call_Cas].
Qed.
End client.
