(* ===== verification/GroupEngine.v ===== *)
(** * GroupEngine: barriers, all-gathers and numbers of a process group

    The static operations of [smem_net_group_engine.h/.cpp].  An operation is a program
    over calls of the config store ([kv_op] of [StoreClient]), so that the calls of several
    processes can be interleaved.  The state of the engine is passed explicitly.  Sizes of
    a gathered value stay below 2^32, which the 64 MiB limit of the store enforces, so the
    32-bit sums in [SortGatherRecv] do not wrap; time measurement and logging are left
    out. *)
From Stdlib Require Import String.
From stdpp Require Import gmap sorting.
From S2P Require Import Prelude StrUtil MessagePacker StoreBackend StoreServer StoreClient.

(** ** Programs over store calls *)
Inductive prog (A : Type) := Ret (a : A) | Call (op : kv_op) (k : kv_ans -> prog A).
Arguments Ret {A} a.
Arguments Call {A} op k.
Fixpoint prog_bind {A C} (f : A -> prog C) (p : prog A) : prog C :=
  match p with
  | Ret a => f a
  | Call op k => Call op (fun ans => prog_bind f (k ans))
  end.
#[global] Instance prog_mret : MRet prog := fun A a => Ret a.
#[global] Instance prog_mbind : MBind prog := fun A C f p => prog_bind f p.
Definition call (op : kv_op) : prog kv_ans := Call op Ret.

Definition SMEM_GROUP_SET_STR : bytes := lit "ok".
Definition SMEM_GROUP_CAS_ALLOC_NUM_KEY : bytes := lit "AT_NUM".
Definition SMEM_ALLOC_NUM_SIZE : Z := 1024.
Definition SMEM_ALLOC_NUM_BUF_LEN : Z := (SMEM_ALLOC_NUM_SIZE + 7) / 8.
Definition SMEM_GATHER_PREFIX_SIZE : Z := 4.
Definition UINT_BIT : Z := 8.
Definition USER_GROUP_KEY_LEN_MAX : Z := 64.
Definition REMOVE_INTERVAL : Z := 2.
Definition DEFAULT_STORE_KEY_DELAY_CLEAN_COUNT : nat := 10.
Definition SM_OBJECT_NOT_EXISTS : Z := -2007.

Record SmemGroupOption := mkOption { rank : Z; timeoutMs : Z; dynamic : bool }.
Record SmemGroupInfo := mkInfo {
  version : Z; info_size : Z; curEvent : Z; targetRank : Z; submitRank : Z; joinedRanksBitmap : list Z }.
(** The members of the engine the operations on a group use; what dynamic groups add to them
    is in [GroupDynamic]. *)
Record SmemNetGroupEngine := mkEngine {
  option_ : SmemGroupOption; groupInfo_ : SmemGroupInfo; groupVersion_ : Z; allGatherGroupSn_ : Z; barrierGroupSn_ : Z;
  userGroupGatherSn_ : gmap bytes Z; userGroupBarrierSn_ : gmap bytes Z; allocedSet_ : gset Z;
  delayCleanKeyList_ : list bytes }.
Implicit Types e : SmemNetGroupEngine.
Definition groupSize e : Z := info_size (groupInfo_ e).

Definition set_barrier_sn (sn : Z) e : SmemNetGroupEngine :=
  mkEngine (option_ e) (groupInfo_ e) (groupVersion_ e) (allGatherGroupSn_ e) sn (userGroupGatherSn_ e)
    (userGroupBarrierSn_ e) (allocedSet_ e) (delayCleanKeyList_ e).
Definition set_gather_sn (sn : Z) e : SmemNetGroupEngine :=
  mkEngine (option_ e) (groupInfo_ e) (groupVersion_ e) sn (barrierGroupSn_ e) (userGroupGatherSn_ e)
    (userGroupBarrierSn_ e) (allocedSet_ e) (delayCleanKeyList_ e).
Definition set_user_barrier_sn (key : bytes) (sn : Z) e : SmemNetGroupEngine :=
  mkEngine (option_ e) (groupInfo_ e) (groupVersion_ e) (allGatherGroupSn_ e) (barrierGroupSn_ e) (userGroupGatherSn_ e)
    (<[key := sn]> (userGroupBarrierSn_ e)) (allocedSet_ e) (delayCleanKeyList_ e).
Definition set_user_gather_sn (key : bytes) (sn : Z) e : SmemNetGroupEngine :=
  mkEngine (option_ e) (groupInfo_ e) (groupVersion_ e) (allGatherGroupSn_ e) (barrierGroupSn_ e)
    (<[key := sn]> (userGroupGatherSn_ e)) (userGroupBarrierSn_ e) (allocedSet_ e) (delayCleanKeyList_ e).
Definition set_clean_list (q : list bytes) e : SmemNetGroupEngine :=
  mkEngine (option_ e) (groupInfo_ e) (groupVersion_ e) (allGatherGroupSn_ e) (barrierGroupSn_ e) (userGroupGatherSn_ e)
    (userGroupBarrierSn_ e) (allocedSet_ e) q.
Definition set_alloced (a : gset Z) e : SmemNetGroupEngine :=
  mkEngine (option_ e) (groupInfo_ e) (groupVersion_ e) (allGatherGroupSn_ e) (barrierGroupSn_ e) (userGroupGatherSn_ e)
    (userGroupBarrierSn_ e) a (delayCleanKeyList_ e).

(** ** Old keys *)
Fixpoint clean_keys (delayCount : nat) (q : list bytes) : prog (list bytes) :=
  match q with
  | [] => mret []
  | key :: q' => if decide (delayCount < length q)%nat
                 then _ ← call (KRemove key); clean_keys delayCount q'
                 else mret q
  end.
Definition GroupOldKeyDelayClean (prefix suffix : bytes) (snStart snEnd : Z) e : prog SmemNetGroupEngine :=
  let keys := (fun i => prefix ++ to_string i ++ suffix) <$> seqZ snStart (snEnd - snStart + 1) in
  q ← clean_keys DEFAULT_STORE_KEY_DELAY_CLEAN_COUNT (delayCleanKeyList_ e ++ keys);
  mret (set_clean_list q e).
(** The first process of a round removes the keys of an earlier round. *)
Definition clean_round (first : bool) (sn : Z) (prefix add wait : bytes) e : prog SmemNetGroupEngine :=
  if first && (REMOVE_INTERVAL <? sn) then
    let delSn := sn - REMOVE_INTERVAL in
    e ← GroupOldKeyDelayClean prefix add delSn delSn e;
    GroupOldKeyDelayClean prefix wait delSn delSn e
  else mret e.

(** The last process of a round sets the status. *)
Definition set_status (last : bool) (waitKey : bytes) : prog Z :=
  if last then a ← call (KSet waitKey SMEM_GROUP_SET_STR); mret (a_ret a) else mret SM_OK.

(** ** Barriers

    The part both overloads share; they differ in what they return when the wait fails. *)
Definition barrier_round (wait_failed : Z -> Z) (prefix : bytes) (sn size : Z) e : prog (Z * SmemNetGroupEngine) :=
  let idx := prefix ++ to_string sn in
  let addKey := idx ++ lit "_BA" in
  let waitKey := idx ++ lit "_BW" in
  a ← call (KAdd addKey 1);
  if negb (a_ret a =? SM_OK) then mret (SM_ERROR, e) else
  e ← clean_round (a_num a =? 1) sn prefix (lit "_BA") (lit "_BW") e;
  ret ← set_status (a_num a =? size) waitKey;
  if negb (ret =? SM_OK) then mret (SM_ERROR, e) else
  g ← call (KGet waitKey (timeoutMs (option_ e)));
  if negb (a_ret g =? SM_OK) then mret (wait_failed (a_ret g), e) else
  if negb (bool_decide (a_data g = SMEM_GROUP_SET_STR)) then mret (SM_ERROR, e) else
  mret (SM_OK, e).

Definition GroupBarrier e : prog (Z * SmemNetGroupEngine) :=
  if dynamic (option_ e) then mret (SM_ERROR, e) else
  let prefix := to_string (groupVersion_ e) ++ lit "_" in
  let sn := u32 (barrierGroupSn_ e + 1) in
  barrier_round (fun ret => ret) prefix sn (groupSize e) (set_barrier_sn sn e).

Definition GroupBarrierUser (key : bytes) (rankSize rankId : Z) e : prog (Z * SmemNetGroupEngine) :=
  if dynamic (option_ e) then mret (SM_ERROR, e) else
  if negb (blen key <? USER_GROUP_KEY_LEN_MAX) then mret (SM_INVALID_PARAM, e) else
  if negb (rankSize <=? groupSize e) then mret (SM_INVALID_PARAM, e) else
  if negb (rankId <? rankSize) then mret (SM_INVALID_PARAM, e) else
  let sn := u32 (default 0 (userGroupBarrierSn_ e !! key) + 1) in
  barrier_round (fun _ => SM_ERROR) (key ++ lit "_") sn rankSize (set_user_barrier_sn key sn e).

(** ** All-gathers *)
Definition GatherFillRank (r : Z) : bytes := Z_to_little_endian 4 8 r.
Definition offset_le (a b : Z * Z) : Prop := a.1 < b.1 \/ (a.1 = b.1 /\ a.2 <= b.2).
#[global] Instance offset_le_dec : RelDecision offset_le.
Proof. intros a b. unfold offset_le. apply _. Defined.
Definition piece (off len : Z) (vec : bytes) : bytes := take (Z.to_nat len) (drop (Z.to_nat off) vec).
Definition SortGatherRecv (vec : bytes) (preSize rankSize : Z) : bytes :=
  let unitSize := preSize + SMEM_GATHER_PREFIX_SIZE in
  let offset := (fun i => (little_endian_to_Z 8 (piece (i * unitSize) 4 vec), i * unitSize + SMEM_GATHER_PREFIX_SIZE))
                <$> seqZ 0 rankSize in
  concat ((fun p : Z * Z => piece p.2 preSize vec) <$> merge_sort offset_le offset).

(** [recvBuf] is returned; it keeps its contents on every failure. *)
Definition gather_round (prefix : bytes) (sn size rankId : Z) (sendBuf recvBuf : bytes) e
  : prog (Z * bytes * SmemNetGroupEngine) :=
  let idx := prefix ++ to_string sn in
  let addKey := idx ++ lit "_GA" in
  let waitKey := idx ++ lit "_GW" in
  let input := GatherFillRank rankId ++ sendBuf in
  a ← call (KAppend addKey input);
  if negb (a_ret a =? SM_OK) then mret (SM_ERROR, recvBuf, e) else
  e ← clean_round (a_num a =? blen input) sn prefix (lit "_GA") (lit "_GW") e;
  ret ← set_status (a_num a =? blen input * size) waitKey;
  if negb (ret =? SM_OK) then mret (SM_ERROR, recvBuf, e) else
  g ← call (KGet waitKey (timeoutMs (option_ e)));
  if negb (a_ret g =? SM_OK) then mret (SM_ERROR, recvBuf, e) else
  if negb (bool_decide (a_data g = SMEM_GROUP_SET_STR)) then mret (SM_ERROR, recvBuf, e) else
  o ← call (KGet addKey (timeoutMs (option_ e)));
  if negb (a_ret o =? SM_OK) || negb (blen (a_data o) =? blen input * size) then mret (SM_ERROR, recvBuf, e) else
  mret (SM_OK, SortGatherRecv (a_data o) (blen sendBuf) size, e).

Definition GroupAllGather (sendBuf recvBuf : bytes) (recvSize : Z) e : prog (Z * bytes * SmemNetGroupEngine) :=
  if dynamic (option_ e) then mret (SM_ERROR, recvBuf, e) else
  let size := groupSize e in
  if negb (u32 (blen sendBuf * size) =? recvSize) then mret (SM_INVALID_PARAM, recvBuf, e) else
  let prefix := to_string (groupVersion_ e) ++ lit "_" in
  let sn := u32 (allGatherGroupSn_ e + 1) in
  gather_round prefix sn size (rank (option_ e)) sendBuf recvBuf (set_gather_sn sn e).

Definition GroupAllGatherUser (key : bytes) (rankSize rankId : Z) (sendBuf recvBuf : bytes) (recvSize : Z) e
  : prog (Z * bytes * SmemNetGroupEngine) :=
  if dynamic (option_ e) then mret (SM_ERROR, recvBuf, e) else
  if negb (blen key <? USER_GROUP_KEY_LEN_MAX) then mret (SM_INVALID_PARAM, recvBuf, e) else
  if negb (rankSize <=? groupSize e) then mret (SM_INVALID_PARAM, recvBuf, e) else
  if negb (rankId <? rankSize) then mret (SM_INVALID_PARAM, recvBuf, e) else
  if negb (u32 (blen sendBuf * rankSize) =? recvSize) then mret (SM_INVALID_PARAM, recvBuf, e) else
  let sn := u32 (default 0 (userGroupGatherSn_ e !! key) + 1) in
  gather_round (key ++ lit "_") sn rankSize rankId sendBuf recvBuf (set_user_gather_sn key sn e).
