(* ===== verification/GroupRounds.v ===== *)
(** * GroupRounds: one round of a collective operation, run by several processes

    The processes of a group run programs of [GroupEngine] against one store.  [wstep]
    interleaves their calls with failures of single calls and with other users of the
    store.  The round is generic: every process makes a [first] call that leaves its mark
    under [addKey], the one that completes the marks sets [waitKey], and the others wait
    for it.  Barriers and all-gathers are its instances in [GroupProof]. *)
From stdpp Require Import gmap sorting.
From S2P Require Import Prelude StrUtil MessagePacker StoreBackend StoreServer StoreClient GroupEngine.

Record world (R : Type) := mkWorld { w_kv : kv; w_ranks : list (prog R); w_calls : list (nat * kv_op) }.
Arguments mkWorld {R} _ _ _.
Arguments w_kv {R} _.
Arguments w_ranks {R} _.
Arguments w_calls {R} _.

(** Every key of [keys] is as before, or removed. *)
Definition kept_or_removed (keys : list bytes) (m m' : kv) : Prop :=
  forall key, key ∈ keys -> m' !! key = m !! key \/ m' !! key = None.

(** A call is answered; or it fails, before or after its effect; or other users of the
    store act, who may remove the keys of the round but not write them. *)
Inductive wstep {R} (keys : list bytes) : world R -> world R -> Prop :=
| w_call m ps log i op k :
    ps !! i = Some (Call op k) ->
    wstep keys (mkWorld m ps log)
      (mkWorld (kv_step op m).2 (<[i := k (kv_step op m).1]> ps) (log ++ [(i, op)]))
| w_fail m m' ps log i op k ans :
    ps !! i = Some (Call op k) -> a_ret ans <> SM_OK -> m' = m \/ m' = (kv_step op m).2 ->
    wstep keys (mkWorld m ps log) (mkWorld m' (<[i := k ans]> ps) (log ++ [(i, op)]))
| w_env m m' ps log :
    kept_or_removed keys m m' -> wstep keys (mkWorld m ps log) (mkWorld m' ps log).

(** A wait for a key ends when the key is there; every other call is answered at once. *)
Definition enabled (op : kv_op) (m : kv) : Prop :=
  match op with KGet key _ => is_Some (m !! key) | _ => True end.
(** Steps without failures; other users of the store leave the keys of the round alone. *)
Inductive lstep {R} (keys : list bytes) : kv * list (prog R) -> kv * list (prog R) -> Prop :=
| l_call m0 m ps i op k :
    (forall key, key ∈ keys -> m !! key = m0 !! key) ->
    ps !! i = Some (Call op k) -> enabled op m ->
    lstep keys (m0, ps) ((kv_step op m).2, <[i := k (kv_step op m).1]> ps).

(** A program makes at most [d] calls, whatever the answers. *)
Fixpoint bounded {R} (d : nat) (p : prog R) : Prop :=
  match p with
  | Ret _ => True
  | Call _ k => match d with O => False | S d' => forall ans, bounded d' (k ans) end
  end.

Lemma bounded_le {R} d d' (p : prog R) : bounded d p -> (d <= d')%nat -> bounded d' p.
Proof.
  revert d d'. induction p as [r|op k IH]; intros [|d] [|d'] H Hd; simpl in *; try done; try lia.
  intros ans. apply (IH ans d); [done|lia].
Qed.
Lemma bounded_bind {R C} (f : R -> prog C) p d d' :
  bounded d p -> (forall r, bounded d' (f r)) -> bounded (d + d') (prog_bind f p).
Proof.
  intros Hp Hf. revert d Hp. induction p as [r|op k IH]; intros d Hp; simpl in *.
  - apply (bounded_le d'); [done|lia].
  - destruct d as [|d]; [done|]. simpl. intros ans. by apply IH.
Qed.

Lemma bounded_step {R : Type} (keys : list bytes) (m m' : kv) (ps ps' : list (prog R)) ds :
  Forall2 bounded ds ps -> lstep keys (m, ps) (m', ps') ->
  exists ds', Forall2 bounded ds' ps' /\ sum_list ds = S (sum_list ds').
Proof.
  intros Hds Hstep. inversion Hstep as [? m1 ? i op k _ Hi _]; subst. clear Hstep.
  destruct (Forall2_lookup_r _ _ _ _ _ Hds Hi) as (d & Hd & Hb). destruct d as [|d]; [done|].
  exists (<[i := d]> ds). split; [by apply Forall2_insert; [|apply Hb]|].
  apply list_elem_of_split_length in Hd as (l1 & l2 & -> & ->). rewrite insert_app_r_alt by lia.
  rewrite Nat.sub_diag. simpl. rewrite !sum_list_with_app. simpl. lia.
Qed.
Lemma bounded_run {R : Type} (keys : list bytes) (k : nat) (w w' : kv * list (prog R)) ds :
  Forall2 bounded ds w.2 -> nsteps (lstep keys) k w w' -> (k <= sum_list ds)%nat.
Proof.
  intros Hds Hrun. revert ds Hds. induction Hrun as [w|k [m ps] [m' ps'] w' Hstep _ IH]; intros ds Hds; [lia|].
  destruct (bounded_step _ _ _ _ _ _ Hds Hstep) as (ds' & Hds' & Hsum). apply IH in Hds'. lia.
Qed.

Lemma full_list (L : list nat) n :
  NoDup L -> (forall i, i ∈ L -> (i < n)%nat) -> length L = n -> L ≡ₚ seq 0 n.
Proof.
  intros Hnd Hlt Hlen. apply submseteq_length_Permutation; [|by rewrite length_seq, Hlen].
  apply NoDup_submseteq; [done|]. intros i Hi. apply elem_of_seq. apply Hlt in Hi. lia.
Qed.
Lemma short_list (L : list nat) n :
  NoDup L -> (forall i, i ∈ L -> (i < n)%nat) -> (length L <= n)%nat.
Proof.
  intros Hnd Hlt. rewrite <- (length_seq n 0). apply submseteq_length, NoDup_submseteq; [done|].
  intros i Hi. apply elem_of_seq. apply Hlt in Hi. lia.
Qed.

Section round.
Context {R : Type} (n : nat) (addKey waitKey okStr : bytes) (first : nat -> kv_op) (init : nat -> prog R).
Context (shown : list nat -> bytes) (num : nat -> Z) (ok good : R -> Prop).
Implicit Types (L : list nat) (m : kv) (p : prog R) (ps : list (prog R)) (log : list (nat * kv_op)).

(** The marks of the processes [L], in this order, are under [addKey]. *)
Definition stored m L : Prop := m !! addKey = match L with [] => None | _ => Some (shown L) end.
Definition arrived log i : Prop := (i, first i) ∈ log.

(** What a program does after its first call; [full] says that all marks have been seen. *)
Fixpoint past (full : bool) (p : prog R) : Prop :=
  match p with
  | Ret r => ok r -> full = true /\ good r
  | Call (KRemove _) k => forall ans, past full (k ans)
  | Call (KSet key _) k => key = waitKey /\ full = true /\ forall ans, past full (k ans)
  | Call (KGet key _) k =>
      (forall ans, a_ret ans <> SM_OK -> past full (k ans)) /\
      (key = waitKey /\ (forall ans, a_ret ans = SM_OK -> past true (k ans)) \/
       key = addKey /\ full = true /\
       forall L ans, L ≡ₚ seq 0 n -> a_ret ans = SM_OK -> a_data ans = shown L -> past full (k ans))
  | _ => False
  end.

(** What a program needs to finish when no call fails. *)
Fixpoint lively (full : bool) (p : prog R) : Prop :=
  match p with
  | Ret r => full = true /\ ok r
  | Call (KRemove key) k => (key ∉ [addKey; waitKey]) /\ forall ans, lively full (k ans)
  | Call (KSet key v) k =>
      key = waitKey /\ v = okStr /\ full = true /\ forall ans, a_ret ans = SM_OK -> lively full (k ans)
  | Call (KGet key _) k =>
      key = waitKey /\ (forall ans, a_ret ans = SM_OK -> a_data ans = okStr -> lively true (k ans)) \/
      key = addKey /\ full = true /\
      forall L ans, L ≡ₚ seq 0 n -> a_ret ans = SM_OK -> a_data ans = shown L -> lively full (k ans)
  | _ => False
  end.
(** The program is about to set [waitKey]. *)
Fixpoint owes (p : prog R) : Prop :=
  match p with
  | Call (KSet _ _) _ => True
  | Call (KRemove _) k => forall ans, owes (k ans)
  | _ => False
  end.

Context (Hkeys : addKey <> waitKey) (Hpos : (0 < n)%nat).
Context (Hnum : forall l, (l <= n)%nat -> num l = num n -> l = n).
Context (Hfirst : forall m L i, stored m L -> NoDup (L ++ [i]) -> (forall j, j ∈ L ++ [i] -> (j < n)%nat) ->
  kv_step (first i) m = (mkAns SUCCESS [] (num (length (L ++ [i]))), <[addKey := shown (L ++ [i])]> m)).

Lemma past_mono full p : past full p -> past true p.
Proof.
  induction p as [r|op k IH]; simpl.
  - intros H Hr. by destruct (H Hr).
  - destruct op; try done.
    + intros (-> & -> & H). eauto.
    + intros [Hf [[-> H]|(-> & -> & H)]]; (split; [eauto|]); [left|right]; eauto.
    + eauto.
Qed.

Lemma stored_insert_wait m L v : stored m L -> stored (<[waitKey := v]> m) L.
Proof. unfold stored. by rewrite lookup_insert_ne by done. Qed.
Lemma stored_arrive m L i : stored (<[addKey := shown (L ++ [i])]> m) (L ++ [i]).
Proof. unfold stored. rewrite lookup_insert_eq. by destruct L. Qed.

(** ** Safety *)
Section safety.
Context (Hinit : forall i, (i < n)%nat -> exists k, init i = Call (first i) k /\
  (forall ans, a_ret ans <> SM_OK -> past false (k ans)) /\
  (forall ans, a_ret ans = SM_OK -> past (bool_decide (a_num ans = num n)) (k ans))).

Record round_inv L (full : bool) m ps log : Prop := {
  ri_stored : stored m L;
  ri_nodup : NoDup L;
  ri_marks : forall i, i ∈ L -> (i < n)%nat /\ arrived log i;
  ri_len : length ps = n;
  ri_rank : forall i p, ps !! i = Some p ->
    (p = init i /\ (i ∉ L) /\ full = false) \/ (arrived log i /\ past full p);
  ri_wait : is_Some (m !! waitKey) -> full = true;
  ri_full : full = true -> (forall i, (i < n)%nat -> arrived log i) /\ (L = [] \/ L ≡ₚ seq 0 n) }.

Lemma arrived_app log log' i : arrived log i -> arrived (log ++ log') i.
Proof. unfold arrived. rewrite elem_of_app. auto. Qed.
Lemma ri_move L full m ps log i op p :
  round_inv L full m ps log -> (i < n)%nat -> arrived (log ++ [(i, op)]) i -> past full p ->
  round_inv L full m (<[i := p]> ps) (log ++ [(i, op)]).
Proof.
  intros [Hs Hnd Hm Hl Hr Hw Hf] Hi Ha Hp. split; try done.
  - intros j Hj. destruct (Hm j Hj). by eauto using arrived_app.
  - by rewrite length_insert.
  - intros j q Hq. destruct (decide (i = j)) as [->|Hne].
    + rewrite list_lookup_insert_eq in Hq by lia. injection Hq as <-. by right.
    + rewrite list_lookup_insert_ne in Hq by done. destruct (Hr j q Hq) as [?|[? ?]]; [by left|].
      right. by eauto using arrived_app.
  - intros E. destruct (Hf E) as [H1 H2]. split; [|done]. eauto using arrived_app.
Qed.
Lemma ri_env L full m m' ps log :
  round_inv L full m ps log -> kept_or_removed [addKey; waitKey] m m' ->
  exists L', round_inv L' full m' ps log.
Proof.
  intros [Hs Hnd Hm Hl Hr Hw Hf] Hk.
  assert (Hw' : is_Some (m' !! waitKey) -> full = true).
  { destruct (Hk waitKey ltac:(set_solver)) as [-> | ->]; [done|by intros [? ?]]. }
  destruct (Hk addKey ltac:(set_solver)) as [He|He].
  - exists L. split; try done. by unfold stored; rewrite He.
  - exists []. split; try done; [constructor|set_solver| |].
    + intros i p Hp. destruct (Hr i p Hp) as [(? & _ & ?)|?]; [left|by right]. set_solver.
    + intros E. destruct (Hf E). auto.
Qed.
Lemma ri_set L m ps log v : round_inv L true m ps log -> round_inv L true (<[waitKey := v]> m) ps log.
Proof. intros [Hs Hnd Hm Hl Hr Hw Hf]. split; try done. by apply stored_insert_wait. Qed.
Lemma ri_arrive L m ps log i p full :
  round_inv L false m ps log -> (i < n)%nat -> i ∉ L -> past full p ->
  (full = true -> length (L ++ [i]) = n) ->
  round_inv (L ++ [i]) full (<[addKey := shown (L ++ [i])]> m) (<[i := p]> ps) (log ++ [(i, first i)]).
Proof.
  intros [Hs Hnd Hm Hl Hr Hw Hf] Hi Hni Hp Hfull.
  assert (Ha : arrived (log ++ [(i, first i)]) i) by (unfold arrived; set_solver).
  assert (Hnd' : NoDup (L ++ [i])).
  { apply NoDup_app. split; [done|]. split; [set_solver|apply NoDup_singleton]. }
  assert (Hm' : forall j, j ∈ L ++ [i] -> (j < n)%nat /\ arrived (log ++ [(i, first i)]) j).
  { intros j [Hj|Hj%list_elem_of_singleton]%elem_of_app; [|by subst].
    destruct (Hm j Hj). eauto using arrived_app. }
  assert (Hperm : full = true -> L ++ [i] ≡ₚ seq 0 n).
  { intros E. apply full_list; [done|intros j Hj; by destruct (Hm' j Hj)|auto]. }
  assert (Hall : full = true -> forall j, (j < n)%nat -> j ∈ L ++ [i]).
  { intros E j Hj. rewrite (Hperm E). apply elem_of_seq. lia. }
  split; try done.
  - apply stored_arrive.
  - by rewrite length_insert.
  - intros j q Hq. destruct (decide (i = j)) as [->|Hne].
    + rewrite list_lookup_insert_eq in Hq by lia. injection Hq as <-. by right.
    + rewrite list_lookup_insert_ne in Hq by done. pose proof (lookup_lt_Some _ _ _ Hq).
      destruct (Hr j q Hq) as [(-> & Hj & _)|[Hj Hq']].
      * assert (j ∉ L ++ [i]) by set_solver. left. split; [done|]. split; [done|].
        destruct full; [|done]. destruct H0. apply Hall; [done|lia].
      * right. split; [by apply arrived_app|]. destruct full; [by apply (past_mono false)|done].
  - rewrite lookup_insert_ne by done. intros H%Hw. discriminate.
  - intros E. split; [|by right; apply Hperm]. intros j Hj. by apply Hm', Hall.
Qed.

(** The two ways a call can take effect before an answer [ans] reaches the process. *)
Lemma ri_first L m ps log i k ans :
  round_inv L false m ps log -> (i < n)%nat -> i ∉ L ->
  (forall ans, a_ret ans <> SM_OK -> past false (k ans)) ->
  (forall ans, a_ret ans = SM_OK -> past (bool_decide (a_num ans = num n)) (k ans)) ->
  a_ret ans <> SM_OK \/ ans = (kv_step (first i) m).1 ->
  exists full, round_inv (L ++ [i]) full (kv_step (first i) m).2 (<[i := k ans]> ps) (log ++ [(i, first i)]).
Proof.
  intros HI Hi Hni Hbad Hok Hans. pose proof (ri_stored _ _ _ _ _ HI) as Hs.
  assert (Hnd : NoDup (L ++ [i])).
  { apply NoDup_app. split; [apply HI|]. split; [set_solver|apply NoDup_singleton]. }
  assert (Hlt : forall j, j ∈ L ++ [i] -> (j < n)%nat).
  { intros j [Hj|Hj%list_elem_of_singleton]%elem_of_app; [by destruct (ri_marks _ _ _ _ _ HI j Hj)|by subst]. }
  rewrite (Hfirst m L i Hs Hnd Hlt) in *. cbn [fst snd] in *.
  destruct Hans as [Hans| ->].
  - exists false. apply ri_arrive; [done..|by apply Hbad|done].
  - exists (bool_decide (num (length (L ++ [i])) = num n)). apply ri_arrive; [done..|exact (Hok (mkAns SUCCESS [] _) eq_refl)|].
    intros H%bool_decide_eq_true. apply Hnum; [|done]. by apply short_list.
Qed.
Lemma past_call L full m ps log i op k ans :
  round_inv L full m ps log -> (i < n)%nat -> arrived log i -> past full (Call op k) ->
  a_ret ans <> SM_OK \/ ans = (kv_step op m).1 ->
  exists L' full', round_inv L' full' (kv_step op m).2 (<[i := k ans]> ps) (log ++ [(i, op)]) /\
                   (a_ret ans <> SM_OK -> round_inv L full m (<[i := k ans]> ps) (log ++ [(i, op)])).
Proof.
  intros HI Hi Ha Hp Hans. apply (arrived_app _ [(i, op)]) in Ha.
  destruct op as [key v|key t| |key| |]; simpl in Hp; try done.
  - destruct Hp as (-> & -> & Hp). exists L, true. split; [|intros _; by apply ri_move].
    by apply ri_set, ri_move.
  - destruct Hp as [Hbad Hp]. assert (Hno : a_ret ans <> SM_OK -> round_inv L full m (<[i := k ans]> ps) (log ++ [(i, KGet key t)])).
    { intros H. by apply ri_move; auto. }
    replace (kv_step (KGet key t) m).2 with m by (simpl; by destruct (m !! key)).
    destruct (decide (a_ret ans = SM_OK)) as [Hr|Hr]; [|by exists L, full; auto].
    destruct Hans as [? | ->]; [done|]. simpl in *. destruct (m !! key) as [v|] eqn:Ev; [|done].
    exists L, full. split; [|done]. destruct Hp as [[-> Hp]|(-> & -> & Hp)].
    + apply ri_move; try done. rewrite (ri_wait _ _ _ _ _ HI) by (by exists v). by apply Hp.
    + apply ri_move; try done. destruct (ri_full _ _ _ _ _ HI eq_refl) as [_ [-> | HL]];
        pose proof (ri_stored _ _ _ _ _ HI) as Hs; unfold stored in Hs; [congruence|].
      apply (Hp L); [done|done|]. simpl. destruct L; congruence.
  - assert (Hmv : round_inv L full m (<[i := k ans]> ps) (log ++ [(i, KRemove key)])) by (by apply ri_move).
    destruct (ri_env _ _ _ (delete key m) _ _ Hmv) as [L' HL'].
    { intros key' _. destruct (decide (key = key')) as [->|Hne].
      - right. apply lookup_delete_eq.
      - left. by apply lookup_delete_ne. }
    by exists L', full.
Qed.
Lemma round_step w w' :
  (exists L full, round_inv L full (w_kv w) (w_ranks w) (w_calls w)) ->
  wstep [addKey; waitKey] w w' ->
  exists L full, round_inv L full (w_kv w') (w_ranks w') (w_calls w').
Proof.
  intros (L & full & HI) Hstep.
  assert (Hcall : forall i op k ans, w_ranks w !! i = Some (Call op k) ->
    a_ret ans <> SM_OK \/ ans = (kv_step op (w_kv w)).1 ->
    (exists L' full', round_inv L' full' (kv_step op (w_kv w)).2 (<[i := k ans]> (w_ranks w)) (w_calls w ++ [(i, op)])) /\
    (a_ret ans <> SM_OK -> round_inv L full (w_kv w) (<[i := k ans]> (w_ranks w)) (w_calls w ++ [(i, op)]))).
  { intros i op k ans Hi Hans. pose proof (lookup_lt_Some _ _ _ Hi) as Hlt. rewrite (ri_len _ _ _ _ _ HI) in Hlt.
    destruct (ri_rank _ _ _ _ _ HI i _ Hi) as [(Hin & Hni & ->)|[Ha Hp]].
    - destruct (Hinit i Hlt) as (k' & Hk & Hbad & Hok). rewrite Hk in Hin. injection Hin as -> ->.
      split; [exists (L ++ [i]); by apply ri_first|]. intros Hr. apply ri_move; auto. unfold arrived. set_solver.
    - destruct (past_call _ _ _ _ _ _ _ _ _ HI Hlt Ha Hp Hans) as (L' & full' & H1 & H2). eauto. }
  destruct Hstep as [m ps log i op k Hi|m m' ps log i op k ans Hi Hr Hm|m m' ps log Hk]; simpl in *.
  - destruct (Hcall i op k _ Hi (or_intror eq_refl)) as [H _]. exact H.
  - destruct (Hcall i op k ans Hi (or_introl Hr)) as [H H']. destruct Hm as [-> | ->]; eauto.
  - destruct (ri_env _ _ _ m' _ _ HI Hk) as [L' ?]. eauto.
Qed.
Lemma round_start m :
  m !! addKey = None -> m !! waitKey = None -> round_inv [] false m (init <$> seq 0 n) [].
Proof.
  intros Ha Hw. split; try done; [constructor|set_solver| | |].
  - by rewrite length_fmap, length_seq.
  - intros i p Hp. rewrite list_lookup_fmap in Hp. destruct (seq 0 n !! i) as [j|] eqn:Ej; [|done].
    apply lookup_seq in Ej as [-> _]. injection Hp as <-. left. split; [done|]. split; [set_solver|done].
  - rewrite Hw. by intros [? ?].
Qed.
(** A process that returns success does so after every process has made its first call. *)
Lemma round_safe m w i r :
  m !! addKey = None -> m !! waitKey = None ->
  rtc (wstep [addKey; waitKey]) (mkWorld m (init <$> seq 0 n) []) w ->
  w_ranks w !! i = Some (Ret r) -> ok r ->
  (forall j, (j < n)%nat -> arrived (w_calls w) j) /\ good r.
Proof.
  intros Ha Hw Hrun Hi Hr.
  assert (HI : exists L full, round_inv L full (w_kv w) (w_ranks w) (w_calls w)).
  { apply (rtc_ind_r (fun w => exists L full, round_inv L full (w_kv w) (w_ranks w) (w_calls w)) _) with (3 := Hrun).
    - exists [], false. by apply round_start.
    - intros ? ? _ Hstep HI. by eapply round_step. }
  destruct HI as (L & full & HI). destruct (ri_rank _ _ _ _ _ HI i _ Hi) as [(He & _)|[_ Hp]].
  - pose proof (lookup_lt_Some _ _ _ Hi) as Hlt. rewrite (ri_len _ _ _ _ _ HI) in Hlt.
    destruct (Hinit i Hlt) as (k & Hk & _). congruence.
  - simpl in Hp. destruct (Hp Hr) as [-> Hg]. split; [|done]. by destruct (ri_full _ _ _ _ _ HI eq_refl).
Qed.
End safety.

(** ** Completion *)
Section completion.
Context (Hgo : forall i m, enabled (first i) m).
Context (Hinit : forall i, (i < n)%nat -> exists k, init i = Call (first i) k /\
  forall l ans, (l <= n)%nat -> ans = mkAns SUCCESS [] (num l) ->
    lively (bool_decide (l = n)) (k ans) /\ (l = n -> owes (k ans))).

Lemma lively_mono full p : lively full p -> lively true p.
Proof.
  induction p as [r|op k IH]; simpl.
  - by intros [-> ?].
  - destruct op; try done.
    + intros (-> & -> & -> & H). eauto 6.
    + intros [[-> H]|(-> & -> & H)]; [left|right]; eauto.
    + intros [? ?]. eauto.
Qed.

Record live_inv L m ps : Prop := {
  li_stored : stored m L;
  li_nodup : NoDup L;
  li_marks : forall i, i ∈ L -> (i < n)%nat;
  li_len : length ps = n;
  li_rank : forall i p, ps !! i = Some p ->
    (p = init i /\ (i ∉ L)) \/ (i ∈ L /\ lively (bool_decide (length L = n)) p);
  li_wait : m !! waitKey = None \/ m !! waitKey = Some okStr /\ length L = n;
  li_owed : length L = n -> m !! waitKey = Some okStr \/ exists i p, ps !! i = Some p /\ owes p }.

Lemma li_agree L m m' ps :
  live_inv L m ps -> (forall key, key ∈ [addKey; waitKey] -> m' !! key = m !! key) -> live_inv L m' ps.
Proof.
  intros [Hs Hnd Hm Hl Hr Hw Ho] Hk.
  split; try done; unfold stored in *; rewrite Hk by set_solver; done.
Qed.
(** A process moves on; its debt, if it had one, is kept or paid. *)
Lemma li_move L m ps i p p' :
  live_inv L m ps -> ps !! i = Some p -> i ∈ L -> lively (bool_decide (length L = n)) p' ->
  (owes p -> owes p' \/ m !! waitKey = Some okStr) -> live_inv L m (<[i := p']> ps).
Proof.
  intros [Hs Hnd Hm Hl Hr Hw Ho] Hi HiL Hp Hdebt. pose proof (lookup_lt_Some _ _ _ Hi) as Hlt.
  split; try done.
  - by rewrite length_insert.
  - intros j q Hq. apply list_lookup_insert_Some in Hq as [(-> & <- & _)|[Hne Hq]]; [by right|by apply Hr].
  - intros E. destruct (Ho E) as [?|(j & q & Hj & Hq)]; [by left|]. destruct (decide (i = j)) as [->|Hne].
    + assert (q = p) as -> by congruence. destruct (Hdebt Hq); [|by left].
      right. exists j, p'. by rewrite list_lookup_insert_eq.
    + right. exists j, q. by rewrite list_lookup_insert_ne.
Qed.
Lemma li_set L m ps : live_inv L m ps -> length L = n -> live_inv L (<[waitKey := okStr]> m) ps.
Proof.
  intros [Hs Hnd Hm Hl Hr Hw Ho] E. split; try done; [by apply stored_insert_wait|right|left];
    by rewrite lookup_insert_eq.
Qed.
Lemma li_arrive L m ps i p :
  live_inv L m ps -> (i < n)%nat -> i ∉ L -> lively (bool_decide (length (L ++ [i]) = n)) p ->
  (length (L ++ [i]) = n -> owes p) ->
  live_inv (L ++ [i]) (<[addKey := shown (L ++ [i])]> m) (<[i := p]> ps).
Proof.
  intros [Hs Hnd Hm Hl Hr Hw Ho] Hi Hni Hp Hdebt.
  assert (Hnd' : NoDup (L ++ [i])).
  { apply NoDup_app. split; [done|]. split; [set_solver|apply NoDup_singleton]. }
  assert (Hm' : forall j, j ∈ L ++ [i] -> (j < n)%nat) by set_solver.
  pose proof (short_list _ _ Hnd' Hm') as Hle. rewrite length_app in Hle. simpl in Hle.
  split; try done.
  - apply stored_arrive.
  - by rewrite length_insert.
  - intros j q Hq. apply list_lookup_insert_Some in Hq as [(-> & <- & _)|[Hne Hq]].
    + right. set_solver.
    + destruct (Hr j q Hq) as [[-> ?]|[? Hlive]]; [left; set_solver|right]. split; [set_solver|].
      rewrite bool_decide_false in Hlive by lia. destruct (bool_decide (length (L ++ [i]) = n)); [by apply (lively_mono false)|done].
  - left. rewrite lookup_insert_ne by done. destruct Hw as [?|[? ?]]; [done|lia].
  - intros E. right. exists i, p. by rewrite list_lookup_insert_eq by lia; auto.
Qed.
Lemma live_step L m0 ps m1 ps' :
  live_inv L m0 ps -> lstep [addKey; waitKey] (m0, ps) (m1, ps') -> exists L', live_inv L' m1 ps'.
Proof.
  intros HI Hstep. inversion Hstep as [? m ? i op k Hk Hi Hen]; subst.
  apply (li_agree _ _ m) in HI; [|done]. clear Hstep Hk m0.
  pose proof (lookup_lt_Some _ _ _ Hi) as Hlt. rewrite (li_len _ _ _ HI) in Hlt.
  destruct (li_rank _ _ _ HI i _ Hi) as [[Hin Hni]|[HiL Hp]].
  - destruct (Hinit i Hlt) as (k' & Hk & Hnext). rewrite Hk in Hin. injection Hin as -> ->.
    assert (Hnd : NoDup (L ++ [i])).
    { apply NoDup_app. split; [apply HI|]. split; [set_solver|apply NoDup_singleton]. }
    assert (Hm : forall j, j ∈ L ++ [i] -> (j < n)%nat).
    { intros j [Hj|Hj%list_elem_of_singleton]%elem_of_app; [by apply (li_marks _ _ _ HI)|by subst]. }
    rewrite (Hfirst m L i (li_stored _ _ _ HI) Hnd Hm). cbn [fst snd]. exists (L ++ [i]).
    destruct (Hnext (length (L ++ [i])) _ (short_list _ _ Hnd Hm) eq_refl). by apply li_arrive.
  - exists L. destruct op as [key v|key t| |key| |]; simpl in Hp; try done.
    + destruct Hp as (-> & -> & Hfull & Hp). pose proof Hfull as Hlen%bool_decide_eq_true.
      apply (li_move _ _ _ i (Call (KSet waitKey okStr) k)); [by apply li_set|done|done|by apply Hp|].
      intros _. right. apply lookup_insert_eq.
    + simpl in Hen. destruct Hen as [v Hv]. unfold kv_step. rewrite Hv. cbn [fst snd].
      apply (li_move _ _ _ i (Call (KGet key t) k)); [done..| |by intros []].
      destruct Hp as [[-> Hp]|(-> & Hfull & Hp)].
      * destruct (li_wait _ _ _ HI) as [?|[? ?]]; [congruence|]. rewrite bool_decide_true by done.
        apply Hp; simpl; [done|congruence].
      * pose proof Hfull as Hlen%bool_decide_eq_true. apply (Hp L); [|done|].
        -- apply full_list; [by apply (li_nodup _ _ _ HI)|by apply (li_marks _ _ _ HI)|done].
        -- pose proof (li_stored _ _ _ HI) as Hs. unfold stored in Hs. simpl. destruct L; congruence.
    + destruct Hp as [Hne Hp]. apply (li_agree _ m).
      * apply (li_move _ _ _ i (Call (KRemove key) k)); [done..|by apply Hp|]. intros Ho. left. by apply Ho.
      * intros key' Hin. apply lookup_delete_ne. set_solver.
Qed.
(** When nothing can move, every process has returned success. *)
Lemma live_stuck L m ps :
  live_inv L m ps -> (forall w, ~ lstep [addKey; waitKey] (m, ps) w) ->
  forall i p, ps !! i = Some p -> exists r, p = Ret r /\ ok r.
Proof.
  intros HI Hstuck.
  assert (Hno : forall i op k, ps !! i = Some (Call op k) -> ~ enabled op m).
  { intros i op k Hi Hen. by eapply Hstuck, l_call. }
  assert (Hall : forall i, (i < n)%nat -> i ∈ L).
  { intros i Hi. destruct (lookup_lt_is_Some_2 ps i) as [p Hp]; [by rewrite (li_len _ _ _ HI)|].
    destruct (li_rank _ _ _ HI i p Hp) as [[-> Hni]|[? _]]; [|done].
    destruct (Hinit i Hi) as (k & Hk & _). rewrite Hk in Hp. destruct (Hno _ _ _ Hp). apply Hgo. }
  assert (Hlen : length L = n).
  { apply Nat.le_antisymm; [apply short_list; [by apply (li_nodup _ _ _ HI)|by apply (li_marks _ _ _ HI)]|].
    rewrite <- (length_seq n 0) at 1. apply submseteq_length, NoDup_submseteq; [apply NoDup_seq|].
    intros i Hi%elem_of_seq. apply Hall. lia. }
  assert (Hset : is_Some (m !! waitKey)).
  { destruct (li_owed _ _ _ HI Hlen) as [->|(i & p & Hi & Ho)]; [done|].
    destruct p as [|[] k]; simpl in Ho; try done; by destruct (Hno _ _ _ Hi). }
  intros i p Hi. destruct (li_rank _ _ _ HI i p Hi) as [[_ Hni]|[_ Hp]].
  { destruct Hni. apply Hall. rewrite <- (li_len _ _ _ HI). by eapply lookup_lt_Some. }
  destruct p as [r|op k]; [by exists r; destruct Hp|]. exfalso. apply (Hno _ _ _ Hi).
  destruct op; simpl in *; try done. destruct Hp as [[-> _]|(-> & _)]; [done|].
  pose proof (li_stored _ _ _ HI) as Hs. unfold stored in Hs. rewrite Hs. destruct L; [simpl in Hlen; lia|done].
Qed.
Lemma live_start m :
  m !! addKey = None -> m !! waitKey = None -> live_inv [] m (init <$> seq 0 n).
Proof.
  intros Ha Hw. split; try done; [constructor|set_solver| | |by left|simpl; lia].
  - by rewrite length_fmap, length_seq.
  - intros i p Hp. rewrite list_lookup_fmap in Hp. destruct (seq 0 n !! i) as [j|] eqn:Ej; [|done].
    apply lookup_seq in Ej as [-> _]. injection Hp as <-. left. set_solver.
Qed.
(** Every run without failures is short, and where it ends every process has succeeded. *)
Lemma round_completes m d k w :
  m !! addKey = None -> m !! waitKey = None -> (forall i, (i < n)%nat -> bounded d (init i)) ->
  nsteps (lstep [addKey; waitKey]) k (m, init <$> seq 0 n) w ->
  (k <= n * d)%nat /\
  ((forall w', ~ lstep [addKey; waitKey] w w') -> forall i p, w.2 !! i = Some p -> exists r, p = Ret r /\ ok r).
Proof.
  intros Ha Hw Hd Hrun. split.
  - replace (n * d)%nat with (sum_list (replicate n d)) by (by rewrite sum_list_replicate; lia).
    eapply bounded_run; [|done]. simpl. apply Forall2_same_length_lookup_2.
    { by rewrite length_replicate, length_fmap, length_seq. }
    intros i d' p Hi Hp. apply lookup_replicate in Hi as [-> Hi]. rewrite list_lookup_fmap in Hp.
    rewrite lookup_seq_lt in Hp by done. injection Hp as <-. by apply Hd.
  - assert (HI : exists L, live_inv L w.1 w.2).
    { assert (H0 : exists L, live_inv L (m, init <$> seq 0 n).1 (m, init <$> seq 0 n).2).
      { exists []. by apply live_start. }
      revert H0. clear Hd. induction Hrun as [w|k [m1 p1] [m2 p2] w Hstep _ IH]; [done|].
      intros [L HL]. apply IH. by apply (live_step L m1 p1). }
    destruct HI as [L HI], w as [m' ps]. intros Hstuck. by apply (live_stuck L m').
Qed.
End completion.
End round.

(** ** What other users of the store may do: anything but write the keys of the round *)
Definition op_key (op : kv_op) : bytes :=
  match op with KSet k _ | KGet k _ | KAdd k _ | KRemove k | KAppend k _ | KCas k _ _ => k end.
Lemma kv_step_other (op : kv_op) (m : kv) (key : bytes) : op_key op <> key -> (kv_step op m).2 !! key = m !! key.
Proof.
  intros Hne. destruct op as [k v|k t|k i|k|k v|k x v]; simpl in *; try by rewrite ?lookup_insert_ne, ?lookup_delete_ne.
  - by destruct (m !! k).
  - destruct (m !! k); [|by simpl; rewrite lookup_insert_ne]. destruct (String2Int _); [|done].
    destruct (_ || _); [done|]. by simpl; rewrite lookup_insert_ne.
  - destruct (m !! k); [|by simpl; rewrite lookup_insert_ne]. destruct (decide _); [|done]. by simpl; rewrite lookup_insert_ne.
Qed.
Lemma foreign_call (keys : list bytes) (op : kv_op) (m : kv) :
  op_key op ∉ keys \/ op = KRemove (op_key op) -> kept_or_removed keys m (kv_step op m).2.
Proof.
  intros Hop key Hkey. destruct (decide (op_key op = key)) as [He|He]; [|by left; apply kv_step_other].
  destruct Hop as [Hop|Hop]; [congruence|]. right. rewrite Hop. simpl. rewrite He. apply lookup_delete_eq.
Qed.

(** ** A scheduler: the listed processes make one call each, in this order *)
Definition enabledb (op : kv_op) (m : kv) : bool :=
  match op with KGet key _ => bool_decide (is_Some (m !! key)) | _ => true end.
Fixpoint schedule {R : Type} (order : list nat) (w : kv * list (prog R)) : option (kv * list (prog R)) :=
  match order with
  | [] => Some w
  | i :: order' => match w.2 !! i with
                   | Some (Call op k) =>
                       if enabledb op w.1
                       then schedule order' ((kv_step op w.1).2, <[i := k (kv_step op w.1).1]> w.2) else None
                   | _ => None
                   end
  end.
Lemma schedule_steps {R : Type} (keys : list bytes) (order : list nat) (w w' : kv * list (prog R)) :
  schedule order w = Some w' -> nsteps (lstep keys) (length order) w w'.
Proof.
  revert w. induction order as [|i order IH]; intros [m ps] Hw; simpl in Hw.
  - injection Hw as <-. constructor.
  - destruct (ps !! i) as [[|op k]|] eqn:Hi; try done. destruct (enabledb op m) eqn:He; [|done].
    econstructor; [|by apply IH]. apply (l_call keys m m); [done|done|].
    destruct op; try done. by apply bool_decide_eq_true in He.
Qed.
Lemma schedule_world {R : Type} (keys : list bytes) (order : list nat) (w w' : kv * list (prog R)) (log : list (nat * kv_op)) :
  schedule order w = Some w' -> exists log', rtc (wstep keys) (mkWorld w.1 w.2 log) (mkWorld w'.1 w'.2 log').
Proof.
  revert w log. induction order as [|i order IH]; intros [m ps] log Hw; simpl in Hw.
  - injection Hw as <-. by exists log.
  - destruct (ps !! i) as [[|op k]|] eqn:Hi; try done. destruct (enabledb op m) eqn:He; [|done].
    destruct (IH _ (log ++ [(i, op)]) Hw) as [log' Hrun]. exists log'. eapply rtc_l; [|exact Hrun].
    by apply w_call.
Qed.
(** A world in which every process has returned cannot move. *)
Definition returned {R : Type} (p : prog R) : bool := match p with Ret _ => true | Call _ _ => false end.
Lemma returned_stuck {R : Type} (keys : list bytes) (w : kv * list (prog R)) :
  forallb returned w.2 = true -> forall w', ~ lstep keys w w'.
Proof.
  intros Hall w' Hstep. destruct Hstep as [m0 m ps i op k _ Hi _]. simpl in Hall.
  rewrite forallb_forall in Hall. apply list_elem_of_lookup_2, list_elem_of_In, Hall in Hi. done.
Qed.
