(* ===== verification/GroupProof.v ===== *)
(** * GroupProof: barriers and all-gathers as rounds *)
From Stdlib Require Import String.
From stdpp Require Import gmap sorting.
From S2P Require Import Prelude StrUtil MessagePacker StoreBackend StoreServer StoreServerProof StoreScenario StoreClient.
From S2P Require Import GroupEngine GroupRounds.

(** ** Programs that only remove keys *)
Fixpoint removes {A} (P : bytes -> Prop) (Q : A -> Prop) (p : prog A) : Prop :=
  match p with
  | Ret a => Q a
  | Call (KRemove key) k => P key /\ forall ans, removes P Q (k ans)
  | _ => False
  end.
Lemma removes_bind {A C} P Q (Q' : C -> Prop) (f : A -> prog C) p :
  removes P Q p -> (forall a, Q a -> removes P Q' (f a)) -> removes P Q' (prog_bind f p).
Proof.
  intros Hp Hf. induction p as [a|[] k IH]; simpl in *; try done; [by apply Hf|].
  destruct Hp. split; auto.
Qed.
Lemma clean_keys_removes (P : bytes -> Prop) d q :
  (forall key, key ∈ q -> P key) -> removes P (fun q' => forall key, key ∈ q' -> P key) (clean_keys d q).
Proof.
  induction q as [|key q IH]; intros Hq; [done|]. cbn [clean_keys]. destruct (decide _); [|done].
  simpl. split; [apply Hq; set_solver|]. intros _. apply IH. set_solver.
Qed.
Definition clean_ok (P : bytes -> Prop) (e : SmemNetGroupEngine) : Prop :=
  forall key, key ∈ delayCleanKeyList_ e -> P key.
Lemma GroupOldKeyDelayClean_removes (P : bytes -> Prop) prefix suffix sn e :
  clean_ok P e -> P (prefix ++ to_string sn ++ suffix) ->
  removes P (clean_ok P) (GroupOldKeyDelayClean prefix suffix sn sn e).
Proof.
  intros He Hp. unfold GroupOldKeyDelayClean. eapply removes_bind; [apply clean_keys_removes|].
  - intros key [Hk|Hk]%elem_of_app; [by apply He|]. replace (sn - sn + 1) with 1 in Hk by lia.
    apply list_elem_of_fmap in Hk as (i & -> & Hi%elem_of_seqZ). by replace i with sn by lia.
  - intros q Hq. exact Hq.
Qed.
Lemma clean_round_removes (P : bytes -> Prop) first sn prefix add wait e :
  clean_ok P e ->
  (REMOVE_INTERVAL < sn -> P (prefix ++ to_string (sn - REMOVE_INTERVAL) ++ add) /\
                           P (prefix ++ to_string (sn - REMOVE_INTERVAL) ++ wait)) ->
  removes P (clean_ok P) (clean_round first sn prefix add wait e).
Proof.
  intros He Hk. unfold clean_round. destruct (first && _) eqn:E; [|done].
  apply andb_true_iff in E as [_ E%Z.ltb_lt]. destruct (Hk E) as [Ha Hw].
  eapply removes_bind; [by apply GroupOldKeyDelayClean_removes|]. intros e' He'.
  by apply GroupOldKeyDelayClean_removes.
Qed.

Lemma past_bind {A R} n addKey waitKey shown ok good P Q full (f : A -> prog R) p :
  removes P Q p -> (forall a, Q a -> past n addKey waitKey shown ok good full (f a)) ->
  past n addKey waitKey shown ok good full (prog_bind f p).
Proof.
  intros Hp Hf. induction p as [a|[] k IH]; simpl in *; try done; [by apply Hf|].
  destruct Hp. auto.
Qed.
Lemma lively_bind {A R} n addKey waitKey okStr shown ok P Q full (f : A -> prog R) p :
  removes P Q p -> (forall key, P key -> key ∉ [addKey; waitKey]) ->
  (forall a, Q a -> lively n addKey waitKey okStr shown ok full (f a)) ->
  lively n addKey waitKey okStr shown ok full (prog_bind f p).
Proof.
  intros Hp HP Hf. induction p as [a|[] k IH]; simpl in *; try done; [by apply Hf|].
  destruct Hp. auto.
Qed.
Lemma owes_bind {A R} P Q (f : A -> prog R) p :
  removes P Q p -> (forall a, Q a -> owes (f a)) -> owes (prog_bind f p).
Proof.
  intros Hp Hf. induction p as [a|[] k IH]; simpl in *; try done; [by apply Hf|].
  destruct Hp. auto.
Qed.

(** ** The keys of a round *)
Definition round_key (prefix : bytes) (sn : Z) (suffix : bytes) : bytes := (prefix ++ to_string sn) ++ suffix.
Lemma round_key_other prefix sn sn' s s' :
  long_ok sn -> long_ok sn' -> sn <> sn' -> length s = length s' ->
  prefix ++ to_string sn' ++ s' <> round_key prefix sn s.
Proof.
  intros H1 H2 Hne Hl He. unfold round_key in He. rewrite <- app_assoc in He. apply app_inv_head in He.
  apply app_inj_2 in He as [He _]; [|done]. by apply to_string_inj in He.
Qed.
Lemma round_keys_differ prefix sn s s' :
  s <> s' -> round_key prefix sn s <> round_key prefix sn s'.
Proof. intros Hne He. by apply app_inv_head in He. Qed.

(** The clean list of the process does not hold the keys of the round. *)
Definition apart (prefix : bytes) (sn : Z) (add wait : bytes) (e : SmemNetGroupEngine) : Prop :=
  clean_ok (fun key => key ∉ [round_key prefix sn add; round_key prefix sn wait]) e.
Lemma clean_round_apart first sn prefix add wait e :
  0 <= sn < 2 ^ 32 -> length add = length wait -> apart prefix sn add wait e ->
  removes (fun key => key ∉ [round_key prefix sn add; round_key prefix sn wait]) (apart prefix sn add wait)
    (clean_round first sn prefix add wait e).
Proof.
  intros Hsn Hl He. apply clean_round_removes; [done|]. unfold REMOVE_INTERVAL. intros H2.
  assert (long_ok sn /\ long_ok (sn - 2)) as [H3 H4] by (unfold long_ok, LONG_MIN, LONG_MAX; lia).
  split; rewrite !not_elem_of_cons; (split_and!; [..|apply not_elem_of_nil]);
    apply round_key_other; first [done|lia|congruence].
Qed.
Lemma clean_round_any first sn prefix add wait e :
  removes (fun _ => True) (clean_ok (fun _ => True)) (clean_round first sn prefix add wait e).
Proof. by apply clean_round_removes. Qed.

(** ** How many calls cleaning makes: at most as many as there are keys to remove *)
Fixpoint spends {A} (budget : nat) (left : A -> nat) (p : prog A) {struct p} : Prop :=
  match p with
  | Ret a => (left a <= budget)%nat
  | Call _ k => match budget with O => False | S b => forall ans, spends b left (k ans) end
  end.
Lemma spends_le {A} b b' (left : A -> nat) p : spends b left p -> (b <= b')%nat -> spends b' left p.
Proof.
  revert b b'. induction p as [a|op k IH]; intros [|b] [|b'] H Hb; simpl in *; try done; try lia.
  intros ans. apply (IH ans b); [done|lia].
Qed.
Lemma spends_bind {A C} b c (left : A -> nat) (left' : C -> nat) (f : A -> prog C) p :
  spends b left p -> (forall a, spends (left a + c) left' (f a)) -> spends (b + c) left' (prog_bind f p).
Proof.
  intros Hp Hf. revert b Hp. induction p as [a|op k IH]; intros b Hp; simpl in *.
  - apply (spends_le (left a + c)); [done|lia].
  - destruct b as [|b]; [done|]. simpl. auto.
Qed.
Lemma spends_bounded {A R} b c (left : A -> nat) (f : A -> prog R) p :
  spends b left p -> (forall a, bounded c (f a)) -> bounded (b + c) (prog_bind f p).
Proof.
  intros Hp Hf. revert b Hp. induction p as [a|op k IH]; intros b Hp; simpl in *.
  - apply (bounded_le c); [done|lia].
  - destruct b as [|b]; [done|]. simpl. auto.
Qed.
Definition to_clean (e : SmemNetGroupEngine) : nat := length (delayCleanKeyList_ e).
Lemma clean_keys_spends d q : spends (length q) length (clean_keys d q).
Proof.
  induction q as [|key q IH]; cbn [clean_keys]; [by cbv|]. destruct (decide _); [|cbn; lia].
  simpl. auto.
Qed.
Lemma GroupOldKeyDelayClean_spends prefix suffix sn e :
  spends (to_clean e + 1) to_clean (GroupOldKeyDelayClean prefix suffix sn sn e).
Proof.
  unfold GroupOldKeyDelayClean. rewrite <- (Nat.add_0_r (to_clean e + 1)).
  eapply spends_bind.
  - eapply spends_le; [apply clean_keys_spends|]. rewrite length_app, length_fmap, length_seqZ. unfold to_clean. lia.
  - intros q. simpl. unfold to_clean, set_clean_list. simpl. lia.
Qed.
Lemma clean_round_spends first sn prefix add wait e :
  spends (to_clean e + 2) to_clean (clean_round first sn prefix add wait e).
Proof.
  unfold clean_round. destruct (first && _); [|change (to_clean e <= to_clean e + 2)%nat; lia]. replace (to_clean e + 2)%nat with ((to_clean e + 1) + 1)%nat by lia.
  eapply spends_bind; [apply GroupOldKeyDelayClean_spends|]. intros e'. apply GroupOldKeyDelayClean_spends.
Qed.

Lemma eqb_bool_decide a b : (a =? b) = bool_decide (a = b).
Proof. case_bool_decide; lia. Qed.
Lemma failed_code r : r <> SM_OK -> negb (r =? SM_OK) = true.
Proof. intros. by rewrite (proj2 (Z.eqb_neq _ _)). Qed.

(** ** The wait both operations share

    [last] says that the process set the status; [rest] runs when the wait succeeded. *)
Definition wait_part {R} (last : bool) (waitKey : bytes) (t : Z) (refused : R) (failed : Z -> R) (rest : prog R) : prog R :=
  ret ← set_status last waitKey;
  if negb (ret =? SM_OK) then mret refused else
  g ← call (KGet waitKey t);
  if negb (a_ret g =? SM_OK) then mret (failed (a_ret g)) else
  if negb (bool_decide (a_data g = SMEM_GROUP_SET_STR)) then mret refused else rest.
Section wait_part.
Context {R : Type} (n : nat) (addKey waitKey : bytes) (shown : list nat -> bytes) (ok good : R -> Prop).
Context (last : bool) (t : Z) (refused : R) (failed : Z -> R) (rest : prog R).
Context (Hrefused : ~ ok refused) (Hfailed : forall r, r <> SM_OK -> ~ ok (failed r)).
Let part := wait_part last waitKey t refused failed rest.

Lemma wait_past : past n addKey waitKey shown ok good true rest -> past n addKey waitKey shown ok good last part.
Proof.
  intros Hrest.
  assert (Hw : forall full, past n addKey waitKey shown ok good full
    (Call (KGet waitKey t) (fun g => if negb (a_ret g =? SM_OK) then Ret (failed (a_ret g)) else
       if negb (bool_decide (a_data g = SMEM_GROUP_SET_STR)) then Ret refused else rest))).
  { intros full. simpl. split.
    - intros ans Hr. rewrite failed_code by done. simpl. intros H. by destruct (Hfailed _ Hr).
    - left. split; [done|]. intros ans ->. simpl. destruct (bool_decide _); simpl; [done|]. intros H. by destruct Hrefused. }
  unfold part, wait_part. destruct last; [|apply Hw]. simpl. split; [done|]. split; [done|]. intros ans.
  destruct (a_ret ans =? SM_OK); simpl; [apply (Hw true)|]. intros H. by destruct Hrefused.
Qed.
Lemma wait_lively :
  lively n addKey waitKey SMEM_GROUP_SET_STR shown ok true rest ->
  lively n addKey waitKey SMEM_GROUP_SET_STR shown ok last part.
Proof.
  intros Hrest.
  assert (Hw : forall full, lively n addKey waitKey SMEM_GROUP_SET_STR shown ok full
    (Call (KGet waitKey t) (fun g => if negb (a_ret g =? SM_OK) then Ret (failed (a_ret g)) else
       if negb (bool_decide (a_data g = SMEM_GROUP_SET_STR)) then Ret refused else rest))).
  { intros full. left. split; [done|]. intros ans -> ->. by rewrite bool_decide_true. }
  unfold part, wait_part. destruct last; [|apply Hw]. split; [done|]. split; [done|]. split; [done|].
  intros ans Hr. simpl. rewrite Hr. apply (Hw true).
Qed.
Lemma wait_owes : last = true -> owes part.
Proof. unfold part, wait_part. by intros ->. Qed.
Lemma wait_bounded d : bounded d rest -> bounded (2 + d) part.
Proof.
  intros Hrest.
  assert (Hw : bounded (1 + d) (Call (KGet waitKey t) (fun g => if negb (a_ret g =? SM_OK) then Ret (failed (a_ret g)) else
       if negb (bool_decide (a_data g = SMEM_GROUP_SET_STR)) then Ret refused else rest))).
  { simpl. intros ans. destruct (negb _); [by destruct d|]. destruct (negb _); [by destruct d|done]. }
  unfold part, wait_part. destruct last; [|by apply (bounded_le (1 + d)); [apply Hw|lia]].
  intros ans. simpl. destruct (negb (a_ret ans =? SM_OK)); [done|apply Hw].
Qed.
End wait_part.

(** ** Barriers *)
Definition succeeded {A} (r : Z * A) : Prop := r.1 = SM_OK.
Definition tally (L : list nat) : bytes := to_string (Z.of_nat (length L)).

Section barrier.
Context (n : nat) (prefix : bytes) (sn : Z).
Context (Hn : (0 < n)%nat) (Hbig : Z.of_nat n < 2 ^ 32) (Hsn : 0 <= sn < 2 ^ 32).
Let addKey := round_key prefix sn (lit "_BA").
Let waitKey := round_key prefix sn (lit "_BW").

Lemma barrier_keys : addKey <> waitKey.
Proof. by apply round_keys_differ. Qed.
Lemma barrier_first m L i :
  stored addKey tally m L -> NoDup (L ++ [i]) -> (forall j, j ∈ L ++ [i] -> (j < n)%nat) ->
  kv_step (KAdd addKey 1) m =
    (mkAns SUCCESS [] (Z.of_nat (length (L ++ [i]))), <[addKey := tally (L ++ [i])]> m).
Proof.
  intros Hs Hnd Hlt. pose proof (short_list _ _ Hnd Hlt) as Hle. rewrite length_app in Hle. simpl in Hle.
  unfold stored in Hs. unfold tally. rewrite length_app, Nat2Z.inj_add. cbn [length]. cbn [kv_step].
  destruct L as [|j L]; rewrite Hs; [done|]. unfold tally.
  set (c := Z.of_nat (length (j :: L))) in *. assert (Hc : 0 < c < 2 ^ 32) by (unfold c; cbn [length] in *; lia).
  rewrite String2Int_to_string by lia. rewrite zero_text.
  replace (add_overflows 1 c) with false; [done|]. symmetry.
  apply add_overflows_iff; unfold long_ok, LONG_MIN, LONG_MAX; lia.
Qed.

Context (wf : Z -> Z) (Hwf : forall r, r <> SM_OK -> wf r <> SM_OK).
Lemma barrier_past e :
  exists k, barrier_round wf prefix sn (Z.of_nat n) e = Call (KAdd addKey 1) k /\
    (forall ans, a_ret ans <> SM_OK -> past n addKey waitKey tally succeeded (fun _ => True) false (k ans)) /\
    (forall ans, a_ret ans = SM_OK ->
       past n addKey waitKey tally succeeded (fun _ => True) (bool_decide (a_num ans = Z.of_nat n)) (k ans)).
Proof.
  eexists. split; [reflexivity|]. split; intros ans Hr; cbn [prog_bind].
  - by rewrite failed_code by done.
  - rewrite Hr. cbn [Z.eqb SM_OK negb]. eapply past_bind; [apply clean_round_any|]. intros e' _.
    rewrite <- eqb_bool_decide. apply (wait_past _ _ _ _ _ _ _ _ (SM_ERROR, e') (fun r => (wf r, e')) (Ret (SM_OK, e'))); try done.
Qed.
Lemma barrier_lively e :
  apart prefix sn (lit "_BA") (lit "_BW") e ->
  exists k, barrier_round wf prefix sn (Z.of_nat n) e = Call (KAdd addKey 1) k /\
    forall l ans, (l <= n)%nat -> ans = mkAns SUCCESS [] (Z.of_nat l) ->
      lively n addKey waitKey SMEM_GROUP_SET_STR tally succeeded (bool_decide (l = n)) (k ans) /\ (l = n -> owes (k ans)).
Proof.
  intros He. eexists. split; [reflexivity|]. intros l ans Hl ->. cbn [prog_bind a_ret a_num].
  pose proof (clean_round_apart (Z.of_nat l =? 1) sn prefix (lit "_BA") (lit "_BW") e Hsn eq_refl He) as Hc.
  assert (Hlast : (Z.of_nat l =? Z.of_nat n) = bool_decide (l = n)) by (case_bool_decide; lia).
  split.
  - eapply lively_bind; [exact Hc|done|]. intros e' _. rewrite <- Hlast.
    by apply (wait_lively _ _ _ _ _ _ _ (SM_ERROR, e') (fun r => (wf r, e')) (Ret (SM_OK, e'))).
  - intros ->. eapply owes_bind; [exact Hc|]. intros e' _.
    apply (wait_owes _ _ _ (SM_ERROR, e') (fun r => (wf r, e')) (Ret (SM_OK, e'))). lia.
Qed.
Lemma barrier_bounded size e : bounded (to_clean e + 5) (barrier_round wf prefix sn size e).
Proof.
  replace (to_clean e + 5)%nat with (S (to_clean e + 2 + 2))%nat by lia. intros ans. simpl.
  destruct (negb (a_ret ans =? SM_OK)); [by destruct (to_clean e)|]. eapply spends_bounded; [apply clean_round_spends|].
  intros e'. by apply (wait_bounded _ _ _ (SM_ERROR, e') (fun r => (wf r, e')) (Ret (SM_OK, e')) 0).
Qed.
End barrier.

(** ** All-gathers *)
Lemma drop_blocks (u j : nat) (l : list bytes) :
  Forall (fun b => length b = u) l -> drop (j * u) (concat l) = concat (drop j l).
Proof.
  intros Hl. revert j. induction Hl as [|b l Hb Hl IH]; intros [|j]; simpl; try done; [by rewrite drop_nil|].
  rewrite <- IH, <- Hb, drop_app_add. done.
Qed.
Lemma piece_block (u j off len : nat) (l : list bytes) b :
  Forall (fun b => length b = u) l -> l !! j = Some b -> (off + len <= u)%nat ->
  piece (Z.of_nat j * Z.of_nat u + Z.of_nat off) (Z.of_nat len) (concat l) = take len (drop off b).
Proof.
  intros Hl Hb Hle. unfold piece. rewrite Nat2Z.id.
  replace (Z.to_nat (Z.of_nat j * Z.of_nat u + Z.of_nat off)) with (j * u + off)%nat by lia.
  rewrite <- drop_drop, drop_blocks by done. rewrite (drop_S _ b) by done. simpl.
  assert (length b = u) by (by eapply Forall_lookup_1 in Hl).
  rewrite drop_app_le by lia. rewrite take_app_le; [done|]. rewrite length_drop. lia.
Qed.
Lemma offset_le_total : Total offset_le.
Proof. intros a b. unfold offset_le. lia. Qed.
Lemma fst_sorted (l : list (Z * Z)) : Sorted offset_le l -> Sorted Z.le (fst <$> l).
Proof.
  induction 1 as [|a l Hl IH Hhd]; simpl; constructor; [done|].
  destruct Hhd as [|b l Hab]; simpl; constructor. unfold offset_le in Hab. lia.
Qed.
Lemma seq_sorted n k : Sorted Z.le (Z.of_nat <$> seq k n).
Proof.
  revert k. induction n as [|n IH]; intros k; simpl; constructor; [apply IH|].
  destruct n; simpl; constructor. lia.
Qed.

Lemma length_fill r : length (GatherFillRank r) = 4%nat.
Proof.
  apply Nat2Z.inj. unfold GatherFillRank. by rewrite length_Z_to_little_endian.
Qed.

Section gathered.
Context (n len : nat) (data : nat -> bytes).
Context (Hlen : forall i, (i < n)%nat -> length (data i) = len).
Definition block (i : nat) : bytes := GatherFillRank (Z.of_nat i) ++ data i.
Definition blocks (L : list nat) : bytes := concat (block <$> L).

Lemma length_block i : (i < n)%nat -> length (block i) = (len + 4)%nat.
Proof.
  intros Hi. unfold block. rewrite length_app, length_fill, Hlen by done. lia.
Qed.
Lemma length_blocks L : (forall i, i ∈ L -> (i < n)%nat) -> length (blocks L) = (length L * (len + 4))%nat.
Proof.
  unfold blocks. induction L as [|i L IH]; intros HL; [done|].
  rewrite fmap_cons. cbn [concat length]. rewrite length_app, (length_block i) by set_solver.
  rewrite IH by set_solver. lia.
Qed.
Section received.
Context (L : list nat) (HL : L ≡ₚ seq 0 n) (Hbig : Z.of_nat n < 2 ^ 32).
Let u := Z.of_nat len + SMEM_GATHER_PREFIX_SIZE.

Lemma received_lt i : i ∈ L -> (i < n)%nat.
Proof. intros Hi. rewrite HL in Hi. by apply elem_of_seq in Hi as [_ Hi]. Qed.
Lemma received_piece j i off k :
  L !! j = Some i -> (off + k <= len + 4)%nat ->
  piece (Z.of_nat j * u + Z.of_nat off) (Z.of_nat k) (blocks L) = take k (drop off (block i)).
Proof.
  intros Hi Hle. unfold u, SMEM_GATHER_PREFIX_SIZE. replace (Z.of_nat len + 4) with (Z.of_nat (len + 4)) by lia.
  apply piece_block; [|by rewrite list_lookup_fmap, Hi|done].
  apply Forall_fmap, Forall_forall. intros i' Hi'. by apply length_block, received_lt.
Qed.
Lemma received_offsets :
  (fun i => (little_endian_to_Z 8 (piece (i * u) 4 (blocks L)), i * u + SMEM_GATHER_PREFIX_SIZE)) <$> seqZ 0 (Z.of_nat n) =
  imap (fun j i => (Z.of_nat i, Z.of_nat j * u + 4)) L.
Proof.
  apply list_eq. intros j. rewrite list_lookup_fmap, list_lookup_imap.
  assert (Hll : length L = n) by (by rewrite HL, length_seq).
  destruct (decide (j < n)%nat) as [Hj|Hj].
  - rewrite lookup_seqZ_lt by lia. destruct (lookup_lt_is_Some_2 L j) as [i Hi]; [lia|]. rewrite Hi.
    cbn [fmap option_fmap option_map]. rewrite Z.add_0_l. do 2 f_equal.
    pose proof (received_piece j i 0 4 Hi ltac:(lia)) as Hp. rewrite Z.add_0_r in Hp. change (Z.of_nat 4) with 4 in Hp.
    rewrite Hp. unfold block. rewrite drop_0, take_app_length' by (by rewrite length_fill). unfold GatherFillRank.
    rewrite little_endian_to_Z_to_little_endian by lia.
    assert (i < n)%nat by (apply received_lt; by eapply list_elem_of_lookup_2).
    rewrite Z.mod_small; [done|lia].
  - rewrite lookup_seqZ_ge by lia. by rewrite lookup_ge_None_2 by lia.
Qed.
(** Sorting the received blocks by rank gives the data in rank order. *)
Lemma SortGatherRecv_blocks :
  SortGatherRecv (blocks L) (Z.of_nat len) (Z.of_nat n) = concat (data <$> seq 0 n).
Proof.
  unfold SortGatherRecv. fold u. rewrite received_offsets. cbv zeta.
  set (O := imap _ L). assert (Hperm : merge_sort offset_le O ≡ₚ O) by apply merge_sort_Permutation.
  assert (Hfst : fst <$> merge_sort offset_le O = Z.of_nat <$> seq 0 n).
  { apply (Sorted_unique Z.le).
    - apply fst_sorted, Sorted_merge_sort, offset_le_total.
    - apply seq_sorted.
    - rewrite Hperm, <- HL. unfold O. rewrite fmap_imap.
      change (imap (const Z.of_nat) L ≡ₚ Z.of_nat <$> L). by rewrite imap_const. }
  rewrite (list_fmap_ext (fun p : Z * Z => piece p.2 (Z.of_nat len) (blocks L)) (data ∘ Z.to_nat ∘ fst) (merge_sort offset_le O)).
  - f_equal. rewrite (list_fmap_compose fst (data ∘ Z.to_nat)), Hfst, <- list_fmap_compose.
    apply list_fmap_ext. intros ? i _. simpl. by rewrite Nat2Z.id.
  - intros k p Hp%list_elem_of_lookup_2. rewrite Hperm in Hp. unfold O in Hp.
    apply elem_of_lookup_imap in Hp as (j & i & -> & Hi). cbn [fst snd compose].
    change 4 with (Z.of_nat 4). rewrite (received_piece j i 4 len Hi) by lia. unfold compose. cbn [fst]. rewrite Nat2Z.id. unfold block.
    rewrite drop_app_length' by (by rewrite length_fill). apply take_ge. rewrite Hlen; [done|].
    apply received_lt. by eapply list_elem_of_lookup_2.
Qed.
End received.
End gathered.

Section gather.
Context (n len : nat) (data : nat -> bytes) (prefix : bytes) (sn : Z).
Context (Hn : (0 < n)%nat) (Hbig : Z.of_nat n < 2 ^ 32) (Hsn : 0 <= sn < 2 ^ 32).
Context (Hlen : forall i, (i < n)%nat -> length (data i) = len).
Let addKey := round_key prefix sn (lit "_GA").
Let waitKey := round_key prefix sn (lit "_GW").
Let unit_size := Z.of_nat len + 4.
Definition gathered (r : Z * bytes * SmemNetGroupEngine) : Prop := r.1.2 = concat (data <$> seq 0 n).
Definition gather_done {A C} (r : Z * A * C) : Prop := r.1.1 = SM_OK.

Lemma gather_keys : addKey <> waitKey.
Proof. by apply round_keys_differ. Qed.
Lemma gather_num l : (l <= n)%nat -> unit_size * Z.of_nat l = unit_size * Z.of_nat n -> l = n.
Proof. unfold unit_size. nia. Qed.
Lemma gather_first m L i :
  stored addKey (blocks data) m L -> NoDup (L ++ [i]) -> (forall j, j ∈ L ++ [i] -> (j < n)%nat) ->
  kv_step (KAppend addKey (block data i)) m =
    (mkAns SUCCESS [] (unit_size * Z.of_nat (length (L ++ [i]))), <[addKey := blocks data (L ++ [i])]> m).
Proof.
  intros Hs _ Hlt. unfold stored in Hs. cbn [kv_step].
  assert (Hd : default [] (m !! addKey) = blocks data L) by (rewrite Hs; by destruct L).
  rewrite Hd. replace (blocks data L ++ block data i) with (blocks data (L ++ [i])).
  - unfold blen. rewrite (length_blocks n len data Hlen) by done. do 2 f_equal. unfold unit_size. lia.
  - unfold blocks. rewrite fmap_app, concat_app. simpl. by rewrite app_nil_r.
Qed.
Lemma blen_block i : (i < n)%nat -> blen (GatherFillRank (Z.of_nat i) ++ data i) = unit_size.
Proof.
  intros Hi. pose proof (length_block n len data Hlen i Hi) as H. unfold block in H. unfold blen. rewrite H. unfold unit_size. lia.
Qed.

Section rank.
Context (i : nat) (Hi : (i < n)%nat) (recvBuf : bytes).
Let fails e : Z * bytes * SmemNetGroupEngine := (SM_ERROR, recvBuf, e).
Definition gather_read e : prog (Z * bytes * SmemNetGroupEngine) :=
  o ← call (KGet addKey (timeoutMs (option_ e)));
  if negb (a_ret o =? SM_OK) || negb (blen (a_data o) =? unit_size * Z.of_nat n) then mret (fails e) else
  mret (SM_OK, SortGatherRecv (a_data o) (blen (data i)) (Z.of_nat n), e).
Definition gather_rest e (a : kv_ans) : prog (Z * bytes * SmemNetGroupEngine) :=
  if negb (a_ret a =? SM_OK) then mret (fails e) else
  e ← clean_round (a_num a =? unit_size) sn prefix (lit "_GA") (lit "_GW") e;
  wait_part (a_num a =? unit_size * Z.of_nat n) waitKey (timeoutMs (option_ e)) (fails e) (fun _ => fails e) (gather_read e).
Lemma gather_call e :
  gather_round prefix sn (Z.of_nat n) (Z.of_nat i) (data i) recvBuf e = Call (KAppend addKey (block data i)) (gather_rest e).
Proof. unfold gather_round, gather_rest, gather_read. rewrite blen_block by done. reflexivity. Qed.

Lemma data_len : blen (data i) = Z.of_nat len.
Proof. unfold blen. by rewrite Hlen. Qed.
Lemma gather_past e :
  (forall ans, a_ret ans <> SM_OK -> past n addKey waitKey (blocks data) gather_done gathered false (gather_rest e ans)) /\
  (forall ans, a_ret ans = SM_OK -> past n addKey waitKey (blocks data) gather_done gathered
     (bool_decide (a_num ans = unit_size * Z.of_nat n)) (gather_rest e ans)).
Proof.
  split; intros ans Hr; unfold gather_rest.
  - by rewrite failed_code.
  - rewrite Hr. cbn [Z.eqb SM_OK negb]. eapply past_bind; [apply clean_round_any|]. intros e' _.
    rewrite <- eqb_bool_decide. apply wait_past; [done|done|]. split.
    + intros o Ho. cbn [prog_mbind prog_bind]. by rewrite failed_code.
    + right. split; [done|]. split; [done|]. intros L o HL Ho Hd. cbn [prog_mbind prog_bind]. rewrite Ho, Hd. cbn [Z.eqb SM_OK negb orb].
      destruct (negb _); [done|]. intros _. split; [done|]. unfold gathered. simpl. rewrite data_len.
      by apply SortGatherRecv_blocks.
Qed.
Lemma gather_lively e l ans :
  apart prefix sn (lit "_GA") (lit "_GW") e -> (l <= n)%nat -> ans = mkAns SUCCESS [] (unit_size * Z.of_nat l) ->
  lively n addKey waitKey SMEM_GROUP_SET_STR (blocks data) gather_done (bool_decide (l = n)) (gather_rest e ans) /\
  (l = n -> owes (gather_rest e ans)).
Proof.
  intros He Hl ->. unfold gather_rest. cbn [a_ret a_num].
  assert (Hlast : (unit_size * Z.of_nat l =? unit_size * Z.of_nat n) = bool_decide (l = n)).
  { case_bool_decide; [subst; lia|]. apply Z.eqb_neq. intros E. by apply H, gather_num. }
  pose proof (clean_round_apart (unit_size * Z.of_nat l =? unit_size) sn prefix (lit "_GA") (lit "_GW") e Hsn eq_refl He) as Hc.
  split.
  - eapply lively_bind; [exact Hc|done|]. intros e' _. rewrite <- Hlast. apply wait_lively. right.
    split; [done|]. split; [done|]. intros L o HL Ho Hd. cbn [prog_mbind prog_bind]. rewrite Ho, Hd. cbn [Z.eqb SM_OK negb orb].
    unfold blen. rewrite (length_blocks n len data Hlen) by (by eapply received_lt).
    rewrite HL, length_seq. rewrite (proj2 (Z.eqb_eq _ _)) by (unfold unit_size; lia). done.
  - intros ->. eapply owes_bind; [exact Hc|]. intros e' _. apply wait_owes. by apply Z.eqb_eq.
Qed.
Lemma gather_bounded e : bounded (to_clean e + 6) (Call (KAppend addKey (block data i)) (gather_rest e)).
Proof.
  replace (to_clean e + 6)%nat with (S (to_clean e + 2 + 3))%nat by lia. intros ans. unfold gather_rest.
  destruct (negb (a_ret ans =? SM_OK)); [by destruct (to_clean e)|]. eapply spends_bounded; [apply clean_round_spends|].
  intros e'. apply (wait_bounded _ _ _ _ _ _ 1). intros o. simpl. by destruct (negb _ || negb _).
Qed.
End rank.
End gather.
