(* ===== verification/GroupNumbers.v ===== *)
(** * GroupNumbers: numbers shared by the processes of a group

    [AllocNumber] and [ReleaseNumber] of [smem_net_group_engine.cpp] keep a bitmap of 1024
    numbers under one key and change it by compare-and-swap.  The retry loops take fuel;
    [NumRetry] is a loop that is still retrying, [NumFault] an access outside the bitmap. *)
From stdpp Require Import gmap.
From S2P Require Import Prelude StrUtil MessagePacker StoreBackend StoreServer StoreClient GroupEngine.

Inductive num_result := NumDone (ret : Z) (e : SmemNetGroupEngine) | NumRetry | NumFault.

(** [value[i / UINT_BIT] & (1U << (i % UINT_BIT))], and [^=] of the same mask. *)
Definition bit_mask (i : Z) : Z := Z.shiftl 1 (i mod UINT_BIT).
Definition bit_of (value : bytes) (i : Z) : option bool :=
  (fun b => negb (Z.land b (bit_mask i) =? 0)) <$> value !! Z.to_nat (i / UINT_BIT).
Definition flip_bit (value : bytes) (i : Z) : bytes :=
  alter (fun b => Z.lxor b (bit_mask i)) (Z.to_nat (i / UINT_BIT)) value.
(** The first number whose bit is clear; [None] reads outside the bitmap. *)
Fixpoint find_free (value : bytes) (candidates : list Z) : option (option Z) :=
  match candidates with
  | [] => Some None
  | i :: rest => match bit_of value i with
                 | None => None
                 | Some true => find_free value rest
                 | Some false => Some (Some i)
                 end
  end.
(** [Cas] fills [now] when it returns 0 or RESTORE. *)
Definition cas_now (a : kv_ans) (now : bytes) : bytes :=
  if (a_ret a =? 0) || (a_ret a =? RESTORE) then a_data a else now.

Definition next_value (expect value : bytes) : bytes := if bool_decide (expect = []) then value else expect.
Fixpoint alloc_loop (fuel : nat) (expect value now : bytes) (e : SmemNetGroupEngine) : prog num_result :=
  match fuel with
  | O => mret NumRetry
  | S fuel =>
      let '(expect, now) := (now, expect) in
      let value := next_value expect value in
      match find_free value (seqZ 0 SMEM_ALLOC_NUM_SIZE) with
      | None => mret NumFault
      | Some None => mret (NumDone SM_ERROR e)
      | Some (Some num) =>
          let value := flip_bit value num in
          a ← call (KCas SMEM_GROUP_CAS_ALLOC_NUM_KEY expect value);
          if negb (a_ret a =? 0) then alloc_loop fuel expect value (cas_now a now) e
          else mret (NumDone num (set_alloced ({[num]} ∪ allocedSet_ e) e))
      end
  end.
Definition AllocNumber (fuel : nat) (e : SmemNetGroupEngine) : prog num_result :=
  alloc_loop fuel [] (replicate (Z.to_nat SMEM_ALLOC_NUM_BUF_LEN) 0) [] e.

Fixpoint release_loop (fuel : nat) (val : Z) (expect value now : bytes) (e : SmemNetGroupEngine) : prog num_result :=
  match fuel with
  | O => mret NumRetry
  | S fuel =>
      let '(expect, now) := (now, expect) in
      let value := next_value expect value in
      match bit_of value val with
      | None => mret NumFault
      | Some false => mret (NumDone SM_OK e)
      | Some true =>
          let value := flip_bit value val in
          a ← call (KCas SMEM_GROUP_CAS_ALLOC_NUM_KEY expect value);
          if negb (a_ret a =? 0) then release_loop fuel val expect value (cas_now a now) e
          else mret (NumDone SM_OK e)
      end
  end.
Definition ReleaseNumber (fuel : nat) (val : Z) (e : SmemNetGroupEngine) : prog num_result :=
  if negb (bool_decide (val ∈ allocedSet_ e)) then mret (NumDone SM_OBJECT_NOT_EXISTS e) else
  let e := set_alloced (allocedSet_ e ∖ {[val]}) e in
  let value := replicate (Z.to_nat SMEM_ALLOC_NUM_BUF_LEN) 0 in
  match value !! Z.to_nat (val / UINT_BIT) with
  | None => mret NumFault
  | Some _ => release_loop fuel val [] (flip_bit value val) [] e
  end.

(** ** Bits *)
Abbreviation bitmap_len := (Z.to_nat SMEM_ALLOC_NUM_BUF_LEN).
Definition number (i : Z) : Prop := 0 <= i < SMEM_ALLOC_NUM_SIZE.
Implicit Types (value v expect now : bytes).

Lemma length_flip value i : length (flip_bit value i) = length value.
Proof. apply length_alter. Qed.
Lemma number_index value i :
  length value = bitmap_len -> number i -> is_Some (value !! Z.to_nat (i / UINT_BIT)).
Proof.
  intros Hl [Hi1 Hi2]. apply lookup_lt_is_Some_2. rewrite Hl. unfold SMEM_ALLOC_NUM_SIZE, UINT_BIT in *.
  assert (0 <= i / 8 < 128) by (split; [apply Z.div_pos|apply Z.div_lt_upper_bound]; lia).
  change bitmap_len with (Z.to_nat 128). lia.
Qed.
Lemma mask_clear b k : 0 <= k -> (Z.land b (Z.shiftl 1 k) =? 0) = negb (Z.testbit b k).
Proof.
  intros Hk. rewrite Z.shiftl_1_l. destruct (Z.testbit b k) eqn:Hb; simpl.
  - apply Z.eqb_neq. intros H0. apply (f_equal (fun x => Z.testbit x k)) in H0.
    by rewrite Z.land_spec, Z.pow2_bits_true, Hb, Z.bits_0 in H0 by done.
  - apply Z.eqb_eq, Z.bits_inj'. intros j Hj. rewrite Z.land_spec, Z.pow2_bits_eqb, Z.bits_0 by done.
    destruct (Z.eqb_spec k j) as [->|]; [by rewrite Hb|apply andb_false_r].
Qed.
Lemma bit_of_testbit value i :
  bit_of value i = (fun b => Z.testbit b (i mod UINT_BIT)) <$> value !! Z.to_nat (i / UINT_BIT).
Proof.
  unfold bit_of, bit_mask. assert (0 <= i mod UINT_BIT) by (apply Z.mod_pos_bound; done).
  destruct (value !! _) as [b|]; simpl; [|done]. by rewrite mask_clear, negb_involutive.
Qed.
Lemma bit_of_Some value i : length value = bitmap_len -> number i -> is_Some (bit_of value i).
Proof. intros Hl Hi. unfold bit_of. by rewrite fmap_is_Some; apply number_index. Qed.
Lemma bit_of_flip value i j :
  0 <= i -> 0 <= j -> bit_of (flip_bit value i) j = (if decide (i = j) then negb else id) <$> bit_of value j.
Proof.
  intros Hi Hj. rewrite !bit_of_testbit. unfold flip_bit.
  pose proof (Z.mod_pos_bound i UINT_BIT ltac:(done)) as Hmi. pose proof (Z.mod_pos_bound j UINT_BIT ltac:(done)) as Hmj.
  assert (Hd : 0 <= i / UINT_BIT /\ 0 <= j / UINT_BIT) by (split; apply Z.div_pos; done).
  destruct (decide (i / UINT_BIT = j / UINT_BIT)) as [Heq|Hne].
  - rewrite <- Heq, list_lookup_alter_eq. destruct (value !! _) as [b|]; [|done]. simpl. f_equal.
    unfold bit_mask. rewrite Z.shiftl_1_l, Z.lxor_spec, Z.pow2_bits_eqb by lia. destruct (decide (i = j)) as [->|Hij].
    + rewrite Z.eqb_refl. apply xorb_true_r.
    + rewrite (proj2 (Z.eqb_neq _ _)); [apply xorb_false_r|]. intros Hm. apply Hij.
      rewrite (Z.div_mod i UINT_BIT), (Z.div_mod j UINT_BIT) by done. congruence.
  - rewrite list_lookup_alter_ne by lia. rewrite decide_False by congruence. by destruct (value !! _).
Qed.
Lemma find_free_spec value l :
  length value = bitmap_len -> Forall number l ->
  (find_free value l = Some None /\ Forall (fun i => bit_of value i = Some true) l) \/
  (exists l1 i l2, l = l1 ++ i :: l2 /\ find_free value l = Some (Some i) /\ bit_of value i = Some false /\
     Forall (fun i => bit_of value i = Some true) l1).
Proof.
  intros Hl. induction 1 as [|i l Hi Hall IH]; simpl; [by left|].
  destruct (bit_of_Some value i Hl Hi) as [[|] Hb]; rewrite Hb.
  - destruct IH as [[-> IH]|(l1 & j & l2 & -> & -> & IH & IH')]; [left; auto|]. right. exists (i :: l1), j, l2. auto.
  - right. by exists [], i, l.
Qed.
Lemma all_numbers : Forall number (seqZ 0 SMEM_ALLOC_NUM_SIZE).
Proof. apply Forall_forall. intros i Hi%elem_of_seqZ. unfold number. lia. Qed.

(** ** One process: what its next call may do

    [held e] are the numbers of the process.  A call that succeeds adds a number whose bit
    it sets, or gives back a number whose bit it clears. *)
Definition held (e : SmemNetGroupEngine) : gset Z := allocedSet_ e.
Definition takes (expect value : bytes) (e e' : SmemNetGroupEngine) : Prop :=
  exists i, number i /\ held e' = {[i]} ∪ held e /\ bit_of value i = Some true /\
    (expect <> [] -> value = flip_bit expect i /\ bit_of expect i = Some false).
Definition gives (expect value : bytes) (e e' : SmemNetGroupEngine) : Prop :=
  exists i, number i /\ i ∈ held e /\ held e' = held e ∖ {[i]} /\ (expect <> [] -> value = flip_bit expect i).
Fixpoint num_safe (e : SmemNetGroupEngine) (p : prog num_result) : Prop :=
  match p with
  | Ret (NumDone _ e') => held e' ⊆ held e
  | Ret NumRetry => True
  | Ret NumFault => False
  | Call (KCas key expect value) k =>
      key = SMEM_GROUP_CAS_ALLOC_NUM_KEY /\ length value = bitmap_len /\
      (forall a, a_ret a <> 0 -> (a_ret a = RESTORE -> length (a_data a) = bitmap_len) -> num_safe e (k a)) /\
      (forall a, a_ret a = 0 -> exists r e', k a = Ret (NumDone r e') /\ (takes expect value e e' \/ gives expect value e e'))
  | _ => False
  end.

(** The buffers of the loops: a bitmap, or empty. *)
Definition buffer (v : bytes) : Prop := v = [] \/ length v = bitmap_len.
Lemma next_value_len expect value :
  buffer expect -> length value = bitmap_len -> length (next_value expect value) = bitmap_len.
Proof. intros [->|He] Hv; unfold next_value; [done|]. by case_bool_decide. Qed.
Lemma next_value_nil value : next_value [] value = value.
Proof. done. Qed.
Lemma next_value_ne expect value : expect <> [] -> next_value expect value = expect.
Proof. intros. unfold next_value. by rewrite bool_decide_false. Qed.
Lemma cas_now_buffer a now :
  a_ret a <> 0 -> (a_ret a = RESTORE -> length (a_data a) = bitmap_len) -> buffer now -> buffer (cas_now a now).
Proof.
  intros Hr Hd Hn. unfold cas_now. rewrite (proj2 (Z.eqb_neq _ _) Hr). simpl.
  destruct (Z.eqb_spec (a_ret a) RESTORE); [right; auto|done].
Qed.
Lemma alloc_loop_safe fuel expect value now e :
  buffer expect -> length value = bitmap_len -> buffer now -> num_safe e (alloc_loop fuel expect value now e).
Proof.
  revert expect value now. induction fuel as [|fuel IH]; intros expect value now He Hv Hn; [exact I|]. cbn [alloc_loop].
  pose proof (next_value_len now value Hn Hv) as Hl.
  destruct (find_free_spec _ _ Hl all_numbers) as [[-> _]|(l1 & i & l2 & Hi & -> & Hb & _)]; [by change (held e ⊆ held e)|].
  assert (Hnum : number i) by (eapply Forall_forall; [apply all_numbers|rewrite Hi; set_solver]).
  simpl. split; [done|]. split; [by rewrite length_flip|]. split.
  - intros a Hr Hd. rewrite (proj2 (Z.eqb_neq _ _) Hr). simpl. apply IH; [done|by rewrite length_flip|by apply cas_now_buffer].
  - intros a ->. simpl. eexists _, _. split; [reflexivity|]. left. exists i. split; [done|]. split; [done|].
    destruct Hnum. split.
    + rewrite bit_of_flip by done. by rewrite decide_True, Hb.
    + intros Hne. by rewrite next_value_ne in * by done.
Qed.
Lemma release_loop_safe fuel val expect value now e e' :
  number val -> val ∈ held e -> held e' = held e ∖ {[val]} ->
  buffer expect -> length value = bitmap_len -> buffer now -> num_safe e (release_loop fuel val expect value now e').
Proof.
  intros Hval Hin He'. revert expect value now. induction fuel as [|fuel IH]; intros expect value now He Hv Hn; [exact I|].
  cbn [release_loop]. pose proof (next_value_len now value Hn Hv) as Hl.
  destruct (bit_of_Some _ val Hl Hval) as [[|] ->]; [|change (held e' ⊆ held e); set_solver].
  simpl. split; [done|]. split; [by rewrite length_flip|]. split.
  - intros a Hr Hd. rewrite (proj2 (Z.eqb_neq _ _) Hr). simpl. apply IH; [done|by rewrite length_flip|by apply cas_now_buffer].
  - intros a ->. simpl. eexists _, _. split; [reflexivity|]. right. exists val. repeat (split; [done|]).
    intros Hne. by rewrite next_value_ne by done.
Qed.
Lemma empty_bitmap_len : length (replicate bitmap_len 0) = bitmap_len.
Proof. apply length_replicate. Qed.
Lemma AllocNumber_safe fuel e : num_safe e (AllocNumber fuel e).
Proof. apply alloc_loop_safe; [by left|apply empty_bitmap_len|by left]. Qed.
Lemma ReleaseNumber_safe fuel val e : (forall i, i ∈ held e -> number i) -> num_safe e (ReleaseNumber fuel val e).
Proof.
  intros Hnum. unfold ReleaseNumber. case_bool_decide as Hin; [|by change (held e ⊆ held e)]. simpl negb. cbv iota.
  destruct (number_index _ val empty_bitmap_len (Hnum val Hin)) as [b Hb]. rewrite Hb.
  apply release_loop_safe; [by apply Hnum|done|done|by left|by rewrite length_flip; apply empty_bitmap_len|by left].
Qed.

(** ** The processes of a group

    A process is idle or in the middle of a call; a call that returns leaves its state.
    A swap is answered as [kv_step] says, or fails without an effect; other users of the
    store do not touch the key. *)
Inductive node := Idle (e : SmemNetGroupEngine) | Busy (e : SmemNetGroupEngine) (p : prog num_result).
Definition node_engine (nd : node) : SmemNetGroupEngine := match nd with Idle e | Busy e _ => e end.
Definition settle (e : SmemNetGroupEngine) (p : prog num_result) : node :=
  match p with Ret (NumDone _ e') => Idle e' | _ => Busy e p end.
Inductive num_step : kv * list node -> kv * list node -> Prop :=
| num_alloc m nodes i e fuel :
    nodes !! i = Some (Idle e) -> num_step (m, nodes) (m, <[i := settle e (AllocNumber fuel e)]> nodes)
| num_release m nodes i e fuel val :
    nodes !! i = Some (Idle e) -> num_step (m, nodes) (m, <[i := settle e (ReleaseNumber fuel val e)]> nodes)
| num_call m nodes i e op k :
    nodes !! i = Some (Busy e (Call op k)) ->
    num_step (m, nodes) ((kv_step op m).2, <[i := settle e (k (kv_step op m).1)]> nodes)
| num_fail m nodes i e op k a :
    nodes !! i = Some (Busy e (Call op k)) -> a_ret a <> 0 -> a_ret a <> RESTORE ->
    num_step (m, nodes) (m, <[i := settle e (k a)]> nodes)
| num_env m m' nodes :
    m' !! SMEM_GROUP_CAS_ALLOC_NUM_KEY = m !! SMEM_GROUP_CAS_ALLOC_NUM_KEY -> num_step (m, nodes) (m', nodes).

Record num_inv (m : kv) (nodes : list node) : Prop := {
  ni_apart : forall i j ni nj, nodes !! i = Some ni -> nodes !! j = Some nj -> i <> j ->
    held (node_engine ni) ## held (node_engine nj);
  ni_number : forall i nd x, nodes !! i = Some nd -> x ∈ held (node_engine nd) -> number x;
  ni_bits : forall i nd x, nodes !! i = Some nd -> x ∈ held (node_engine nd) ->
    exists v, m !! SMEM_GROUP_CAS_ALLOC_NUM_KEY = Some v /\ bit_of v x = Some true;
  ni_len : forall v, m !! SMEM_GROUP_CAS_ALLOC_NUM_KEY = Some v -> length v = bitmap_len;
  ni_safe : forall i e p, nodes !! i = Some (Busy e p) -> num_safe e p }.

(** A process changes without acquiring a number. *)
Lemma ni_shrink m nodes i nd nd' :
  num_inv m nodes -> nodes !! i = Some nd -> held (node_engine nd') ⊆ held (node_engine nd) ->
  (forall e p, nd' = Busy e p -> num_safe e p) -> num_inv m (<[i := nd']> nodes).
Proof.
  intros [Ha Hn Hb Hl Hs] Hi Hsub Hsafe.
  assert (Hback : forall j n', <[i := nd']> nodes !! j = Some n' ->
    exists n, nodes !! j = Some n /\ held (node_engine n') ⊆ held (node_engine n)).
  { intros j n' Hj. apply list_lookup_insert_Some in Hj as [(-> & <- & _)|[_ Hj]]; eauto. }
  split; try done.
  - intros j1 j2 n1 n2 H1 H2 Hne. destruct (Hback _ _ H1) as (m1 & Hm1 & ?), (Hback _ _ H2) as (m2 & Hm2 & ?).
    pose proof (Ha _ _ _ _ Hm1 Hm2 Hne). set_solver.
  - intros j n x Hj Hx. destruct (Hback _ _ Hj) as (n0 & ? & ?). eapply Hn; [done|set_solver].
  - intros j n x Hj Hx. destruct (Hback _ _ Hj) as (n0 & ? & ?). eapply Hb; [done|set_solver].
  - intros j e p Hj. apply list_lookup_insert_Some in Hj as [(-> & -> & _)|[_ Hj]]; eauto.
Qed.
Lemma ni_settle m nodes i nd e p :
  num_inv m nodes -> nodes !! i = Some nd -> node_engine nd = e -> num_safe e p ->
  num_inv m (<[i := settle e p]> nodes).
Proof.
  intros HI Hi He Hp. subst e. eapply ni_shrink; [done|done| |].
  - destruct p as [[r e'| |]|]; simpl in *; done.
  - intros e' q Hq. destruct p as [[r e''| |]|op k]; simpl in *; try discriminate Hq; injection Hq as <- <-; done.
Qed.
(** A successful swap stores a bitmap with the bits of every number that is held. *)
Lemma ni_swap m nodes i nd value e' :
  num_inv m nodes -> nodes !! i = Some nd -> length value = bitmap_len ->
  (forall x, x ∈ held e' -> number x /\ bit_of value x = Some true) ->
  (forall j nj x, j <> i -> nodes !! j = Some nj -> x ∈ held (node_engine nj) -> (x ∉ held e') /\ bit_of value x = Some true) ->
  num_inv (<[SMEM_GROUP_CAS_ALLOC_NUM_KEY := value]> m) (<[i := Idle e']> nodes).
Proof.
  intros [Ha Hn Hb Hl Hs] Hi Hv Hown Hother.
  assert (Hcase : forall j n', <[i := Idle e']> nodes !! j = Some n' ->
    (j = i /\ n' = Idle e') \/ (j <> i /\ nodes !! j = Some n')).
  { intros j n' Hj. apply list_lookup_insert_Some in Hj as [(-> & <- & _)|[? Hj]]; auto. }
  split.
  - intros j1 j2 n1 n2 H1 H2 Hne.
    destruct (Hcase _ _ H1) as [[-> ->]|[Hj1 Hm1]], (Hcase _ _ H2) as [[-> ->]|[Hj2 Hm2]]; [done|..]; [| |by eapply Ha].
    + intros x Hx Hx'. by destruct (Hother _ _ _ Hj2 Hm2 Hx').
    + intros x Hx Hx'. by destruct (Hother _ _ _ Hj1 Hm1 Hx).
  - intros j n x Hj Hx. destruct (Hcase _ _ Hj) as [[-> ->]|[? ?]]; [by apply Hown|by eapply Hn].
  - intros j n x Hj Hx. exists value. split; [apply lookup_insert_eq|].
    destruct (Hcase _ _ Hj) as [[-> ->]|[Hne Hm]]; [by apply Hown|by eapply Hother].
  - intros v. rewrite lookup_insert_eq. by intros [= <-].
  - intros j e p Hj. destruct (Hcase _ _ Hj) as [[-> ?]|[? ?]]; [done|by eapply Hs].
Qed.
Lemma bit_kept v i x : number i -> number x -> i <> x -> bit_of v x = Some true -> bit_of (flip_bit v i) x = Some true.
Proof. intros [? _] [? _] Hne Hb. rewrite bit_of_flip by done. by rewrite decide_False, Hb. Qed.

Section swap.
Context (m : kv) (nodes : list node) (i : nat) (e e' : SmemNetGroupEngine) (p : prog num_result) (expect value : bytes).
Context (HI : num_inv m nodes) (Hi : nodes !! i = Some (Busy e p)) (Hv : length value = bitmap_len).

Lemma other_number j nj x : j <> i -> nodes !! j = Some nj -> x ∈ held (node_engine nj) ->
  number x /\ (x ∉ held e) /\ exists v, m !! SMEM_GROUP_CAS_ALLOC_NUM_KEY = Some v /\ bit_of v x = Some true.
Proof.
  intros Hne Hj Hx. split; [by eapply (ni_number _ _ HI)|]. split; [|by eapply (ni_bits _ _ HI)].
  intros Hx'. by apply (ni_apart _ _ HI _ _ _ _ Hj Hi Hne x).
Qed.
Lemma own_number x : x ∈ held e ->
  number x /\ exists v, m !! SMEM_GROUP_CAS_ALLOC_NUM_KEY = Some v /\ bit_of v x = Some true.
Proof. intros Hx. split; [by apply (ni_number _ _ HI _ _ _ Hi)|by apply (ni_bits _ _ HI _ _ _ Hi)]. Qed.

(** Nothing is stored yet: nobody holds a number. *)
Lemma swap_first :
  m !! SMEM_GROUP_CAS_ALLOC_NUM_KEY = None -> takes expect value e e' \/ gives expect value e e' ->
  num_inv (<[SMEM_GROUP_CAS_ALLOC_NUM_KEY := value]> m) (<[i := Idle e']> nodes).
Proof.
  intros Hm [(x & Hx & He & Hb & _)|(x & _ & Hin & _)]; [|destruct (own_number x Hin) as [_ (v & ? & _)]; congruence].
  apply (ni_swap _ _ _ (Busy e p)); [done..| |].
  - intros y Hy. rewrite He in Hy. apply elem_of_union in Hy as [->%elem_of_singleton|Hy]; [done|].
    destruct (own_number y Hy) as [_ (v & ? & _)]. congruence.
  - intros j nj y Hne Hj Hy. destruct (other_number j nj y Hne Hj Hy) as (_ & _ & v & ? & _). congruence.
Qed.
(** The stored bitmap is the expected one. *)
Lemma swap_match :
  m !! SMEM_GROUP_CAS_ALLOC_NUM_KEY = Some expect -> takes expect value e e' \/ gives expect value e e' ->
  num_inv (<[SMEM_GROUP_CAS_ALLOC_NUM_KEY := value]> m) (<[i := Idle e']> nodes).
Proof.
  intros Hm Hchg. assert (Hne : expect <> []).
  { intros ->. apply (ni_len _ _ HI) in Hm. discriminate Hm. }
  assert (Hown : forall y, y ∈ held e -> number y /\ bit_of expect y = Some true).
  { intros y Hy. destruct (own_number y Hy) as [? (v & ? & ?)]. split; [done|congruence]. }
  assert (Hoth : forall j nj y, j <> i -> nodes !! j = Some nj -> y ∈ held (node_engine nj) ->
    number y /\ (y ∉ held e) /\ bit_of expect y = Some true).
  { intros j nj y Hj Hnj Hy. destruct (other_number j nj y Hj Hnj Hy) as (? & ? & v & ? & ?). split_and!; [done|done|congruence]. }
  apply (ni_swap _ _ _ (Busy e p)); try done.
  - destruct Hchg as [(x & Hx & He & Hb & Hf)|(x & Hx & Hin & He & Hf)]; intros y Hy; rewrite He in Hy.
    + destruct (Hf Hne) as [-> _]. apply elem_of_union in Hy as [->%elem_of_singleton|Hy]; [done|].
      destruct (Hown y Hy) as [Hny Hby]. split; [done|]. destruct (decide (x = y)) as [->|]; [done|by apply bit_kept].
    + rewrite (Hf Hne). apply elem_of_difference in Hy as [Hy Hxy]. destruct (Hown y Hy).
      split; [done|]. apply bit_kept; try done. set_solver.
  - destruct Hchg as [(x & Hx & He & Hb & Hf)|(x & Hx & Hin & He & Hf)]; intros j nj y Hj Hnj Hy;
      destruct (Hoth j nj y Hj Hnj Hy) as (Hny & Hye & Hby); rewrite He.
    + destruct (Hf Hne) as [-> Hfree]. assert (x <> y) by congruence. split; [set_solver|by apply bit_kept].
    + rewrite (Hf Hne). split; [set_solver|]. apply bit_kept; try done. set_solver.
Qed.
End swap.

Lemma num_step_inv w w' : num_inv w.1 w.2 -> num_step w w' -> num_inv w'.1 w'.2.
Proof.
  intros HI Hstep. destruct Hstep as [m nodes i e fuel Hi|m nodes i e fuel val Hi|m nodes i e op k Hi|m nodes i e op k a Hi Hr Hr'|m m' nodes Hm];
    simpl in *.
  - eapply ni_settle; [done|done|done|]. apply AllocNumber_safe.
  - eapply ni_settle; [done|done|done|]. apply ReleaseNumber_safe. intros x Hx. by apply (ni_number _ _ HI _ _ _ Hi).
  - pose proof (ni_safe _ _ HI _ _ _ Hi) as Hs. destruct op as [| | | | |key expect value]; simpl in Hs; try done.
    destruct Hs as (-> & Hv & Hretry & Hdone). cbn [kv_step].
    destruct (m !! SMEM_GROUP_CAS_ALLOC_NUM_KEY) as [cur|] eqn:Hm; [destruct (decide (expect = cur)) as [->|Hne]|]; cbn [fst snd].
    + destruct (Hdone (mkAns SUCCESS value 0) eq_refl) as (r & e' & -> & Hchg). by eapply swap_match.
    + eapply ni_settle; [done|done|done|]. apply Hretry; [done|]. intros _. by apply (ni_len _ _ HI).
    + destruct (Hdone (mkAns SUCCESS value 0) eq_refl) as (r & e' & -> & Hchg). by eapply swap_first.
  - pose proof (ni_safe _ _ HI _ _ _ Hi) as Hs. eapply ni_settle; [done|done|done|].
    destruct op as [| | | | |key expect value]; simpl in Hs; try done. by apply Hs.
  - destruct HI as [Ha Hn Hb Hl Hs]. split; try done; rewrite Hm; done.
Qed.

(** From a store without the key and processes without numbers, every run keeps the
    numbers of different processes apart. *)
Lemma num_inv_start (m : kv) engines :
  m !! SMEM_GROUP_CAS_ALLOC_NUM_KEY = None -> Forall (fun e => held e = ∅) engines -> num_inv m (Idle <$> engines).
Proof.
  intros Hm Hall.
  assert (Hnone : forall i nd, (Idle <$> engines) !! i = Some nd -> exists e, nd = Idle e /\ held e = ∅).
  { intros i nd Hi. rewrite list_lookup_fmap in Hi. destruct (engines !! i) as [e|] eqn:He; [|done].
    injection Hi as <-. exists e. split; [done|]. by eapply Forall_lookup_1 in Hall. }
  split.
  - intros i j ni nj Hi Hj _. destruct (Hnone _ _ Hi) as (e & -> & He). simpl. rewrite He. set_solver.
  - intros i nd x Hi Hx. destruct (Hnone _ _ Hi) as (e & -> & He). simpl in Hx. rewrite He in Hx. set_solver.
  - intros i nd x Hi Hx. destruct (Hnone _ _ Hi) as (e & -> & He). simpl in Hx. rewrite He in Hx. set_solver.
  - intros v Hv. congruence.
  - intros i e p Hi. destruct (Hnone _ _ Hi) as (e' & ? & _). done.
Qed.
Lemma num_run_inv w w' : num_inv w.1 w.2 -> rtc num_step w w' -> num_inv w'.1 w'.2.
Proof. intros HI Hrun. induction Hrun as [|w1 w2 w3 Hstep _ IH]; [done|]. by apply IH, (num_step_inv w1). Qed.

(** ** One process alone *)

(** With a bitmap stored and nobody interfering two calls allocate the first free number. *)
Fixpoint run_alone {R : Type} (fuel : nat) (p : prog R) (m : kv) : option (R * kv) :=
  match p with
  | Ret r => Some (r, m)
  | Call op k => match fuel with
                 | O => None
                 | S fuel => run_alone fuel (k (kv_step op m).1) (kv_step op m).2
                 end
  end.
Lemma find_free_first value i :
  length value = bitmap_len -> number i -> bit_of value i = Some false -> (forall j, 0 <= j < i -> bit_of value j = Some true) ->
  find_free value (seqZ 0 SMEM_ALLOC_NUM_SIZE) = Some (Some i).
Proof.
  intros Hl Hi Hfree Hbefore. destruct (find_free_spec _ _ Hl all_numbers) as [[_ Hall]|(l1 & j & l2 & Hs & -> & Hj & Hl1)].
  - rewrite Forall_forall in Hall. specialize (Hall i ltac:(apply elem_of_seqZ; unfold number in Hi; lia)). congruence.
  - do 2 f_equal. assert (Hnth : seqZ 0 SMEM_ALLOC_NUM_SIZE !! length l1 = Some j) by (by rewrite Hs, list_lookup_middle).
    apply lookup_seqZ in Hnth as [Hnth Hlt]. rewrite Z.add_0_l in Hnth.
    destruct (decide (j < i)) as [Hlt'|Hge]; [specialize (Hbefore j ltac:(lia)); congruence|].
    destruct (decide (i < j)) as [Hgt|]; [|lia].
    assert (Hil : l1 !! Z.to_nat i = Some i).
    { unfold number in Hi. rewrite <- (lookup_app_l l1 (j :: l2)) by lia. rewrite <- Hs. apply lookup_seqZ. lia. }
    eapply Forall_lookup_1 in Hl1; [|exact Hil]. simpl in Hl1. congruence.
Qed.
Lemma flip_twice value i : flip_bit (flip_bit value i) i = value.
Proof.
  unfold flip_bit. rewrite list_alter_alter_eq. apply list_alter_id. intros b. simpl.
  by rewrite Z.lxor_assoc, Z.lxor_nilpotent, Z.lxor_0_r.
Qed.
Lemma swap_stale (m : kv) cur value :
  m !! SMEM_GROUP_CAS_ALLOC_NUM_KEY = Some cur -> length cur = bitmap_len ->
  kv_step (KCas SMEM_GROUP_CAS_ALLOC_NUM_KEY [] value) m = (mkAns RESTORE cur 0, m).
Proof. intros Hm Hl. cbn [kv_step]. rewrite Hm. by destruct cur. Qed.
Lemma swap_current (m : kv) cur value :
  m !! SMEM_GROUP_CAS_ALLOC_NUM_KEY = Some cur ->
  kv_step (KCas SMEM_GROUP_CAS_ALLOC_NUM_KEY cur value) m =
    (mkAns SUCCESS value 0, <[SMEM_GROUP_CAS_ALLOC_NUM_KEY := value]> m).
Proof. intros Hm. cbn [kv_step]. rewrite Hm. by rewrite decide_True. Qed.

Section alone.
Context (m : kv) (v : bytes) (i : Z) (e : SmemNetGroupEngine).
Context (Hm : m !! SMEM_GROUP_CAS_ALLOC_NUM_KEY = Some v) (Hl : length v = bitmap_len) (Hi : number i).
Lemma next_value_stored value : next_value v value = v.
Proof. apply next_value_ne. intros ->. discriminate Hl. Qed.

Lemma alloc_try fuel expect value now j :
  find_free (next_value now value) (seqZ 0 SMEM_ALLOC_NUM_SIZE) = Some (Some j) ->
  alloc_loop (S fuel) expect value now e =
    Call (KCas SMEM_GROUP_CAS_ALLOC_NUM_KEY now (flip_bit (next_value now value) j))
      (fun a => if negb (a_ret a =? 0) then alloc_loop fuel now (flip_bit (next_value now value) j) (cas_now a expect) e
                else Ret (NumDone j (set_alloced ({[j]} ∪ held e) e))).
Proof. intros Hf. cbn [alloc_loop]. by rewrite Hf. Qed.
Lemma release_try fuel expect value now e' :
  bit_of (next_value now value) i = Some true ->
  release_loop (S fuel) i expect value now e' =
    Call (KCas SMEM_GROUP_CAS_ALLOC_NUM_KEY now (flip_bit (next_value now value) i))
      (fun a => if negb (a_ret a =? 0) then release_loop fuel i now (flip_bit (next_value now value) i) (cas_now a expect) e'
                else Ret (NumDone SM_OK e')).
Proof. intros Hf. cbn [release_loop]. by rewrite Hf. Qed.
Lemma empty_bit : bit_of (replicate bitmap_len 0) i = Some false.
Proof.
  rewrite bit_of_testbit. destruct (number_index _ i empty_bitmap_len Hi) as [b Hb].
  pose proof Hb as [-> _]%lookup_replicate. rewrite Hb. simpl. by rewrite Z.bits_0.
Qed.

Lemma release_start fuel :
  i ∈ held e -> ReleaseNumber fuel i e =
    release_loop fuel i [] (flip_bit (replicate bitmap_len 0) i) [] (set_alloced (held e ∖ {[i]}) e).
Proof.
  intros Hin. unfold ReleaseNumber. rewrite bool_decide_true by done. cbn [negb].
  by destruct (number_index _ i empty_bitmap_len Hi) as [b ->].
Qed.
Lemma flipped_bit : bit_of (next_value [] (flip_bit (replicate bitmap_len 0) i)) i = Some true.
Proof.
  rewrite next_value_nil, bit_of_flip by apply Hi. by rewrite decide_True, empty_bit.
Qed.

Lemma alloc_alone :
  bit_of v i = Some false -> (forall j, 0 <= j < i -> bit_of v j = Some true) ->
  run_alone 2 (AllocNumber 2 e) m =
    Some (NumDone i (set_alloced ({[i]} ∪ held e) e), <[SMEM_GROUP_CAS_ALLOC_NUM_KEY := flip_bit v i]> m).
Proof.
  intros Hfree Hbefore. unfold AllocNumber. rewrite (alloc_try 1 _ _ _ 0) by (vm_compute; reflexivity).
  cbn [run_alone]. rewrite (swap_stale m v) by done. cbn [fst snd a_ret]. change (negb (RESTORE =? 0)) with true. cbv iota.
  change (cas_now (mkAns RESTORE v 0) []) with v.
  rewrite (alloc_try 0 _ _ v i) by (rewrite next_value_stored; by apply find_free_first).
  cbn [run_alone]. rewrite next_value_stored, (swap_current m v) by done. done.
Qed.
Lemma release_alone :
  i ∈ held e -> bit_of v i = Some true ->
  run_alone 2 (ReleaseNumber 2 i e) m =
    Some (NumDone SM_OK (set_alloced (held e ∖ {[i]}) e), <[SMEM_GROUP_CAS_ALLOC_NUM_KEY := flip_bit v i]> m).
Proof.
  intros Hin Hset. rewrite release_start by done. rewrite (release_try 1) by apply flipped_bit.
  cbn [run_alone]. rewrite (swap_stale m v) by done. cbn [fst snd a_ret]. change (negb (RESTORE =? 0)) with true. cbv iota.
  change (cas_now (mkAns RESTORE v 0) []) with v. rewrite (release_try 0) by (by rewrite next_value_stored).
  cbn [run_alone]. rewrite next_value_stored, (swap_current m v) by done. done.
Qed.
(** When the answer to the first swap is lost, the retry finds the bit already clear in its
    own buffer and reports success without having released the number. *)
Lemma release_forgets fuel :
  i ∈ held e -> exists op k, ReleaseNumber (S (S fuel)) i e = Call op k /\
    forall a, a_ret a <> 0 -> a_ret a <> RESTORE -> k a = Ret (NumDone SM_OK (set_alloced (held e ∖ {[i]}) e)).
Proof.
  intros Hin. rewrite release_start by done. rewrite release_try by apply flipped_bit. eexists _, _. split; [reflexivity|].
  intros a Hr Hr'. cbv beta. rewrite (proj2 (Z.eqb_neq _ _) Hr). unfold cas_now.
  rewrite (proj2 (Z.eqb_neq _ _) Hr), (proj2 (Z.eqb_neq _ _) Hr'). cbn [negb orb release_loop].
  by rewrite !next_value_nil, flip_twice, empty_bit.
Qed.
End alone.

(** A scheduler: the listed processes make one call each, in this order. *)
Fixpoint num_calls (order : list nat) (w : kv * list node) : kv * list node :=
  match order with
  | [] => w
  | i :: order' =>
      match w.2 !! i with
      | Some (Busy e (Call op k)) =>
          num_calls order' ((kv_step op w.1).2, <[i := settle e (k (kv_step op w.1).1)]> w.2)
      | _ => w
      end
  end.
Lemma num_calls_run order w : rtc num_step w (num_calls order w).
Proof.
  revert w. induction order as [|i order IH]; intros [m nodes]; [done|]. cbn [num_calls fst snd].
  destruct (nodes !! i) as [[|e [|op k]]|] eqn:Hi; try done. eapply rtc_l; [by apply num_call|]. apply IH.
Qed.
