(* ===== verification/GroupDynamic.v ===== *)
(** * GroupDynamic: groups that processes join and leave

    The dynamic part of [smem_net_group_engine.cpp].  A process has three threads that share
    the members of its engine: the caller of [GroupJoin], [GroupUpdate] and [GroupLeave], the
    listener of group events and the listener of broken links.  A thread is a program whose
    steps read and change the shared members ([GState]), call the store ([GStore],
    [GPrefixGet]) or ask the outside ([GAsk]): the server's view of a rank, watches,
    callbacks, the clock.  A timed wait is one step on its signal flag, taken when the flag
    is set or the time is over; [usleep] and logging are left out.  Loads of several
    members in one condition are one step, and so is what runs under one lock.  The
    group information changes only in the event listener, so its event handler
    reads it once.  The store is the prefix
    store of the group, so keys are written without the prefix. *)
From Stdlib Require Import String.
From stdpp Require Import gmap.
From S2P Require Import Prelude StrUtil MessagePacker StoreBackend StoreServer StoreClient GroupEngine.

Definition SM_NOT_STARTED : Z := -2003.
Definition SM_TIMEOUT : Z := -2004.
Definition SM_INNER_BUSY : Z := -2013.
Definition UINT32_MAX : Z := 4294967295.
Definition UINT64_MAX : Z := 18446744073709551615.
Definition SMEM_GROUP_EXIT_KEY : bytes := lit "EXIT".
Definition SMEM_EXCHANGE_INFO_KEY : bytes := lit "BMEX_".
Definition SMEM_GROUP_LISTEN_EVENT_KEY : bytes := lit "EVENT".
Definition SMEM_GROUP_MS_TO_US : Z := 1000.
Definition SMEM_EVNET_KEEP_TIME : Z := 3 * SMEM_GROUP_MS_TO_US * SMEM_GROUP_MS_TO_US.
Definition MAX_RANK_COUNT : Z := 1024.
Definition BITS_COUNT_IN_U64 : Z := 64.
Definition RANK_BITS_U64_COUNT : Z := MAX_RANK_COUNT / BITS_COUNT_IN_U64.
Definition SMEM_GROUP_INFO_SIZE : Z := 5 * 4 + 8 * RANK_BITS_U64_COUNT.
Definition JOIN_EVENT : Z := 0.
Definition LEAVE_EVENT : Z := 1.
Definition RECOVER_EVENT : Z := 2.
Definition LINK_DOWN_EVENT : Z := 3.
Definition UPDATE_EVENT : Z := 4.
Definition NULL_EVNET : Z := 5.
Definition STOP_EVENT : Z := 6.

Record GroupListenContext (T : Type) := mkCtx_ { watchId : Z; ctx_ret : Z; ctx_values : list T }.
Arguments mkCtx_ {T} _ _ _.
Arguments watchId {T} _.
Arguments ctx_ret {T} _.
Arguments ctx_values {T} _.
(** Which callbacks of the option are set. *)
Record Callbacks := mkCallbacks { joinCb : bool; updateCb : bool; leaveCb : bool; linkDownCb : bool }.
Record DynGroup := mkDyn {
  eng : SmemNetGroupEngine; hasCb : Callbacks; joined_ : bool; groupStoped_ : bool; currentLeaveCount_ : Z;
  currentStopCount_ : Z; currentLinkDownCount_ : Z; eventCtx_ : GroupListenContext SmemGroupInfo;
  linkCtx_ : GroupListenContext Z; eventListenSignal_ : bool; linkListenSignal_ : bool; localOpSignal_ : bool;
  linkOpSignal_ : bool; localOpRet_ : Z; linkOpRet_ : Z; lastSubmitVersion_ : Z; lastUpdateTime_ : Z;
  prefixKey_ : bytes }.
Implicit Types s : DynGroup.

Definition set_eng (x : SmemNetGroupEngine) s : DynGroup :=
  mkDyn x (hasCb s) (joined_ s) (groupStoped_ s) (currentLeaveCount_ s) (currentStopCount_ s)
    (currentLinkDownCount_ s) (eventCtx_ s) (linkCtx_ s) (eventListenSignal_ s) (linkListenSignal_ s)
    (localOpSignal_ s) (linkOpSignal_ s) (localOpRet_ s) (linkOpRet_ s) (lastSubmitVersion_ s) (lastUpdateTime_ s)
    (prefixKey_ s).
Definition set_joined (x : bool) s : DynGroup :=
  mkDyn (eng s) (hasCb s) x (groupStoped_ s) (currentLeaveCount_ s) (currentStopCount_ s) (currentLinkDownCount_ s)
    (eventCtx_ s) (linkCtx_ s) (eventListenSignal_ s) (linkListenSignal_ s) (localOpSignal_ s) (linkOpSignal_ s)
    (localOpRet_ s) (linkOpRet_ s) (lastSubmitVersion_ s) (lastUpdateTime_ s) (prefixKey_ s).
Definition set_stoped (x : bool) s : DynGroup :=
  mkDyn (eng s) (hasCb s) (joined_ s) x (currentLeaveCount_ s) (currentStopCount_ s) (currentLinkDownCount_ s)
    (eventCtx_ s) (linkCtx_ s) (eventListenSignal_ s) (linkListenSignal_ s) (localOpSignal_ s) (linkOpSignal_ s)
    (localOpRet_ s) (linkOpRet_ s) (lastSubmitVersion_ s) (lastUpdateTime_ s) (prefixKey_ s).
Definition set_leave (x : Z) s : DynGroup :=
  mkDyn (eng s) (hasCb s) (joined_ s) (groupStoped_ s) x (currentStopCount_ s) (currentLinkDownCount_ s)
    (eventCtx_ s) (linkCtx_ s) (eventListenSignal_ s) (linkListenSignal_ s) (localOpSignal_ s) (linkOpSignal_ s)
    (localOpRet_ s) (linkOpRet_ s) (lastSubmitVersion_ s) (lastUpdateTime_ s) (prefixKey_ s).
Definition set_stop (x : Z) s : DynGroup :=
  mkDyn (eng s) (hasCb s) (joined_ s) (groupStoped_ s) (currentLeaveCount_ s) x (currentLinkDownCount_ s)
    (eventCtx_ s) (linkCtx_ s) (eventListenSignal_ s) (linkListenSignal_ s) (localOpSignal_ s) (linkOpSignal_ s)
    (localOpRet_ s) (linkOpRet_ s) (lastSubmitVersion_ s) (lastUpdateTime_ s) (prefixKey_ s).
Definition set_down (x : Z) s : DynGroup :=
  mkDyn (eng s) (hasCb s) (joined_ s) (groupStoped_ s) (currentLeaveCount_ s) (currentStopCount_ s) x (eventCtx_ s)
    (linkCtx_ s) (eventListenSignal_ s) (linkListenSignal_ s) (localOpSignal_ s) (linkOpSignal_ s) (localOpRet_ s)
    (linkOpRet_ s) (lastSubmitVersion_ s) (lastUpdateTime_ s) (prefixKey_ s).
Definition set_event_ctx (x : GroupListenContext SmemGroupInfo) s : DynGroup :=
  mkDyn (eng s) (hasCb s) (joined_ s) (groupStoped_ s) (currentLeaveCount_ s) (currentStopCount_ s)
    (currentLinkDownCount_ s) x (linkCtx_ s) (eventListenSignal_ s) (linkListenSignal_ s) (localOpSignal_ s)
    (linkOpSignal_ s) (localOpRet_ s) (linkOpRet_ s) (lastSubmitVersion_ s) (lastUpdateTime_ s) (prefixKey_ s).
Definition set_link_ctx (x : GroupListenContext Z) s : DynGroup :=
  mkDyn (eng s) (hasCb s) (joined_ s) (groupStoped_ s) (currentLeaveCount_ s) (currentStopCount_ s)
    (currentLinkDownCount_ s) (eventCtx_ s) x (eventListenSignal_ s) (linkListenSignal_ s) (localOpSignal_ s)
    (linkOpSignal_ s) (localOpRet_ s) (linkOpRet_ s) (lastSubmitVersion_ s) (lastUpdateTime_ s) (prefixKey_ s).
Definition set_event_signal (x : bool) s : DynGroup :=
  mkDyn (eng s) (hasCb s) (joined_ s) (groupStoped_ s) (currentLeaveCount_ s) (currentStopCount_ s)
    (currentLinkDownCount_ s) (eventCtx_ s) (linkCtx_ s) x (linkListenSignal_ s) (localOpSignal_ s)
    (linkOpSignal_ s) (localOpRet_ s) (linkOpRet_ s) (lastSubmitVersion_ s) (lastUpdateTime_ s) (prefixKey_ s).
Definition set_link_signal (x : bool) s : DynGroup :=
  mkDyn (eng s) (hasCb s) (joined_ s) (groupStoped_ s) (currentLeaveCount_ s) (currentStopCount_ s)
    (currentLinkDownCount_ s) (eventCtx_ s) (linkCtx_ s) (eventListenSignal_ s) x (localOpSignal_ s)
    (linkOpSignal_ s) (localOpRet_ s) (linkOpRet_ s) (lastSubmitVersion_ s) (lastUpdateTime_ s) (prefixKey_ s).
Definition set_local_signal (x : bool) s : DynGroup :=
  mkDyn (eng s) (hasCb s) (joined_ s) (groupStoped_ s) (currentLeaveCount_ s) (currentStopCount_ s)
    (currentLinkDownCount_ s) (eventCtx_ s) (linkCtx_ s) (eventListenSignal_ s) (linkListenSignal_ s) x
    (linkOpSignal_ s) (localOpRet_ s) (linkOpRet_ s) (lastSubmitVersion_ s) (lastUpdateTime_ s) (prefixKey_ s).
Definition set_link_op_signal (x : bool) s : DynGroup :=
  mkDyn (eng s) (hasCb s) (joined_ s) (groupStoped_ s) (currentLeaveCount_ s) (currentStopCount_ s)
    (currentLinkDownCount_ s) (eventCtx_ s) (linkCtx_ s) (eventListenSignal_ s) (linkListenSignal_ s)
    (localOpSignal_ s) x (localOpRet_ s) (linkOpRet_ s) (lastSubmitVersion_ s) (lastUpdateTime_ s) (prefixKey_ s).
Definition set_local_ret (x : Z) s : DynGroup :=
  mkDyn (eng s) (hasCb s) (joined_ s) (groupStoped_ s) (currentLeaveCount_ s) (currentStopCount_ s)
    (currentLinkDownCount_ s) (eventCtx_ s) (linkCtx_ s) (eventListenSignal_ s) (linkListenSignal_ s)
    (localOpSignal_ s) (linkOpSignal_ s) x (linkOpRet_ s) (lastSubmitVersion_ s) (lastUpdateTime_ s) (prefixKey_ s).
Definition set_link_ret (x : Z) s : DynGroup :=
  mkDyn (eng s) (hasCb s) (joined_ s) (groupStoped_ s) (currentLeaveCount_ s) (currentStopCount_ s)
    (currentLinkDownCount_ s) (eventCtx_ s) (linkCtx_ s) (eventListenSignal_ s) (linkListenSignal_ s)
    (localOpSignal_ s) (linkOpSignal_ s) (localOpRet_ s) x (lastSubmitVersion_ s) (lastUpdateTime_ s) (prefixKey_ s).
Definition set_last_submit (x : Z) s : DynGroup :=
  mkDyn (eng s) (hasCb s) (joined_ s) (groupStoped_ s) (currentLeaveCount_ s) (currentStopCount_ s)
    (currentLinkDownCount_ s) (eventCtx_ s) (linkCtx_ s) (eventListenSignal_ s) (linkListenSignal_ s)
    (localOpSignal_ s) (linkOpSignal_ s) (localOpRet_ s) (linkOpRet_ s) x (lastUpdateTime_ s) (prefixKey_ s).
Definition set_last_update (x : Z) s : DynGroup :=
  mkDyn (eng s) (hasCb s) (joined_ s) (groupStoped_ s) (currentLeaveCount_ s) (currentStopCount_ s)
    (currentLinkDownCount_ s) (eventCtx_ s) (linkCtx_ s) (eventListenSignal_ s) (linkListenSignal_ s)
    (localOpSignal_ s) (linkOpSignal_ s) (localOpRet_ s) (linkOpRet_ s) (lastSubmitVersion_ s) x (prefixKey_ s).
Definition set_prefix_key (x : bytes) s : DynGroup :=
  mkDyn (eng s) (hasCb s) (joined_ s) (groupStoped_ s) (currentLeaveCount_ s) (currentStopCount_ s)
    (currentLinkDownCount_ s) (eventCtx_ s) (linkCtx_ s) (eventListenSignal_ s) (linkListenSignal_ s)
    (localOpSignal_ s) (linkOpSignal_ s) (localOpRet_ s) (linkOpRet_ s) (lastSubmitVersion_ s) (lastUpdateTime_ s) x.

(** ** Programs of one thread *)
Inductive ask :=
| QueryAlive (rank : Z) | WatchEvent | WatchLinkDown | Unwatch (wid : Z) | ConnectStatus | TimeUs
| JoinCb (rank : Z) | UpdateCb (rank : Z) | LeaveCb (rank : Z) | LinkDownCb (rank : Z).
(** [GState upd k] replaces the members [s] by [upd s] and goes on with [k s]. *)
Inductive gprog (A : Type) :=
| GRet (a : A)
| GState (upd : DynGroup -> DynGroup) (k : DynGroup -> gprog A)
| GStore (op : kv_op) (k : kv_ans -> gprog A)
| GPrefixGet (key : bytes) (k : Z * list (bytes * bytes) -> gprog A)
| GAsk (q : ask) (k : Z * Z -> gprog A).
Arguments GRet {A} a.
Arguments GState {A} upd k.
Arguments GStore {A} op k.
Arguments GPrefixGet {A} key k.
Arguments GAsk {A} q k.
Fixpoint gbind {A C} (f : A -> gprog C) (p : gprog A) : gprog C :=
  match p with
  | GRet a => f a
  | GState upd k => GState upd (fun s => gbind f (k s))
  | GStore op k => GStore op (fun a => gbind f (k a))
  | GPrefixGet key k => GPrefixGet key (fun a => gbind f (k a))
  | GAsk q k => GAsk q (fun a => gbind f (k a))
  end.
#[global] Instance gprog_mret : MRet gprog := fun A a => GRet a.
#[global] Instance gprog_mbind : MBind gprog := fun A C f p => gbind f p.
Definition reads {A} (f : DynGroup -> A) : gprog A := GState id (fun s => GRet (f s)).
Definition modify (upd : DynGroup -> DynGroup) : gprog unit := GState upd (fun _ => GRet tt).
Definition store (op : kv_op) : gprog kv_ans := GStore op GRet.
Definition asks (q : ask) : gprog (Z * Z) := GAsk q GRet.
Fixpoint lift {A} (p : prog A) : gprog A :=
  match p with Ret a => GRet a | Call op k => GStore op (fun a => lift (k a)) end.
Definition self s : Z := rank (option_ (eng s)).
Definition info_of s : SmemGroupInfo := groupInfo_ (eng s).

(** ** The group information as it is stored: the bytes of the packed struct *)
Definition info_bytes (i : SmemGroupInfo) : bytes :=
  concat (Z_to_little_endian 4 8 <$> [version i; info_size i; curEvent i; targetRank i; submitRank i]) ++
  concat (Z_to_little_endian 8 8 <$> joinedRanksBitmap i).
Definition word_at (size off : Z) (b : bytes) : Z := little_endian_to_Z 8 (piece off size b).
Definition info_of_bytes (b : bytes) : SmemGroupInfo :=
  mkInfo (word_at 4 0 b) (word_at 4 4 b) (word_at 4 8 b) (word_at 4 12 b) (word_at 4 16 b)
    ((fun i => word_at 8 (20 + 8 * i) b) <$> seqZ 0 RANK_BITS_U64_COUNT).

(** ** Bitmaps of ranks *)
Definition word_of (i : SmemGroupInfo) (rankId : Z) : Z :=
  default 0 (joinedRanksBitmap i !! Z.to_nat (rankId / BITS_COUNT_IN_U64)).
Definition set_words (size : Z) (rankId : Z) (f : Z -> Z) (i : SmemGroupInfo) : SmemGroupInfo :=
  mkInfo (version i) size (curEvent i) (targetRank i) (submitRank i)
    (alter f (Z.to_nat (rankId / BITS_COUNT_IN_U64)) (joinedRanksBitmap i)).
Definition ClearBitmapForRank (rankId : Z) (i : SmemGroupInfo) : SmemGroupInfo :=
  if MAX_RANK_COUNT <=? rankId then i else
  set_words (u32 (info_size i - 1)) rankId
    (fun w => Z.land w (u64 (Z.lnot (Z.shiftl 1 (rankId mod BITS_COUNT_IN_U64))))) i.
Definition test_bitmap (rankId : Z) (i : SmemGroupInfo) : bool :=
  if MAX_RANK_COUNT <=? rankId then false else
  negb (Z.land (word_of i rankId) (Z.shiftl 1 (rankId mod BITS_COUNT_IN_U64)) =? 0).
Definition TestBitmapForRank (rankId : Z) : gprog bool := reads (fun s => test_bitmap rankId (info_of s)).
(** [None]: the rank is too large or already there. *)
Definition UpdateBitmapFromRank (rankId : Z) (i : SmemGroupInfo) : option SmemGroupInfo :=
  if MAX_RANK_COUNT <=? rankId then None else
  if negb (Z.land (Z.shiftr (word_of i rankId) (rankId mod BITS_COUNT_IN_U64)) 1 =? 0) then None else
  Some (set_words (u32 (info_size i + 1)) rankId (fun w => Z.lor w (Z.shiftl 1 (rankId mod BITS_COUNT_IN_U64))) i).
Definition GetAllRanksFromBitMap (i : SmemGroupInfo) : list Z :=
  w ← seqZ 0 RANK_BITS_U64_COUNT;
  filter (fun r => Z.land (Z.shiftr (word_of i r) (r mod BITS_COUNT_IN_U64)) 1 <> 0)
    ((fun j => w * BITS_COUNT_IN_U64 + j) <$> seqZ 0 BITS_COUNT_IN_U64).

(** ** Information and its updates *)
Definition empty_info : SmemGroupInfo := mkInfo 0 0 0 0 0 (replicate (Z.to_nat RANK_BITS_U64_COUNT) 0).
Definition new_group (rankSize : Z) (o : SmemGroupOption) (cb : Callbacks) : DynGroup :=
  let info := mkInfo 0 (if dynamic o then 0 else rankSize) 0 0 0 (joinedRanksBitmap empty_info) in
  mkDyn (mkEngine o info 0 0 0 ∅ ∅ ∅ []) cb (negb (dynamic o)) false 0 0 0 (mkCtx_ UINT32_MAX SM_OK [])
    (mkCtx_ UINT32_MAX SM_OK []) false false false false 0 0 0 UINT64_MAX [].
Definition next_info (event target : Z) s : SmemGroupInfo :=
  let i := info_of s in mkInfo (u32 (version i + 1)) (info_size i) event target (self s) (joinedRanksBitmap i).
Definition GenerateInfo (event target : Z) : gprog (SmemGroupInfo * bytes) :=
  reads (fun s => (next_info event target s, info_bytes (info_of s))).

(** [GroupOldKeyDelayClean] with [UINT32_MAX] as delay only queues the keys. *)
Definition queue_keys (prefix suffix : bytes) (snStart snEnd : Z) (e : SmemNetGroupEngine) : SmemNetGroupEngine :=
  set_clean_list (delayCleanKeyList_ e ++
    ((fun i => prefix ++ to_string i ++ suffix) <$> seqZ snStart (snEnd - snStart + 1))) e.
Definition queue_round (prefix : bytes) (add wait : bytes) (sn : Z) (e : SmemNetGroupEngine) : SmemNetGroupEngine :=
  let st := if sn <? REMOVE_INTERVAL then 1 else sn - REMOVE_INTERVAL + 1 in
  queue_keys prefix wait st sn (queue_keys prefix add st sn e).
Definition clear_user_sns (e : SmemNetGroupEngine) : SmemNetGroupEngine :=
  mkEngine (option_ e) (groupInfo_ e) (groupVersion_ e) (allGatherGroupSn_ e) (barrierGroupSn_ e) ∅ ∅
    (allocedSet_ e) (delayCleanKeyList_ e).
Definition GroupSnClean (e : SmemNetGroupEngine) : SmemNetGroupEngine :=
  let prefix := to_string (groupVersion_ e) ++ lit "_" in
  let e1 := queue_round prefix (lit "_GA") (lit "_GW") (allGatherGroupSn_ e) e in
  let e2 := queue_round prefix (lit "_BA") (lit "_BW") (barrierGroupSn_ e) e1 in
  let users add wait sns e := foldl (fun e '(key, sn) => queue_round (key ++ lit "_") add wait sn e) e (map_to_list sns) in
  let e3 := users (lit "_BA") (lit "_BW") (userGroupBarrierSn_ e) e2 in
  clear_user_sns (users (lit "_GA") (lit "_GW") (userGroupGatherSn_ e) e3).

Definition adopt_info (info : SmemGroupInfo) (e : SmemNetGroupEngine) : SmemNetGroupEngine :=
  mkEngine (option_ e) info (i32 (version info)) 0 0 (userGroupGatherSn_ e) (userGroupBarrierSn_ e)
    (allocedSet_ e) (delayCleanKeyList_ e).
Definition TryUpdateInfo (info : SmemGroupInfo) : gprog bool :=
  now ← asks TimeUs;
  GState (fun s => if version (info_of s) <? version info
                   then set_last_update now.1 (set_eng (adopt_info info (GroupSnClean (eng s))) s) else s)
    (fun s => GRet (version (info_of s) <? version info)).

Definition cas_event (old : bytes) (info : SmemGroupInfo) : gprog Z :=
  a ← store (KCas SMEM_GROUP_LISTEN_EVENT_KEY old (info_bytes info)); mret (a_ret a).
Definition is_odd (v : Z) : bool := negb (Z.land v 1 =? 0).
(** [TimedwaitMillsecs]: the flag is taken, or the time is over. *)
Definition timed_wait (flag : DynGroup -> bool) (clear : DynGroup -> DynGroup) : gprog Z :=
  GState clear (fun s => GRet (if flag s then SM_OK else SM_TIMEOUT)).
Definition wait_local : gprog Z := timed_wait localOpSignal_ (set_local_signal false).
Definition wait_link_op : gprog Z := timed_wait linkOpSignal_ (set_link_op_signal false).

(** ** Keys of the exchanged information *)
Definition exchange_key (rank : Z) : bytes := SMEM_EXCHANGE_INFO_KEY ++ to_string rank.
Definition TryRemovePrefixKey (rank : Z) : gprog Z :=
  dyn ← reads (fun s => dynamic (option_ (eng s)));
  if negb dyn then mret SM_ERROR else
  a ← store (KRemove (exchange_key rank));
  if a_ret a =? SM_OK then
    _ ← modify (fun s => if rank =? self s then set_prefix_key [] s else s); mret (a_ret a)
  else mret (a_ret a).

(** ** Notifications *)
Definition RemoteRankLinkDownCb (remoteRankId : Z) s : DynGroup :=
  let c := linkCtx_ s in
  set_link_signal true (set_down (u32 (currentLinkDownCount_ s + 1))
    (set_link_ctx (mkCtx_ (watchId c) SM_OK (ctx_values c ++ [remoteRankId])) s)).
Definition watch_result (result : Z) (key value : bytes) : Z :=
  if negb (result =? SM_OK) || negb (bool_decide (key = SMEM_GROUP_LISTEN_EVENT_KEY)) ||
     negb (blen value =? SMEM_GROUP_INFO_SIZE) then SM_ERROR else SM_OK.
Definition leaves (event : Z) : bool := (event =? LEAVE_EVENT) || (event =? LINK_DOWN_EVENT).
Definition count_event (d : Z) (event : Z) s : DynGroup :=
  if leaves event then set_leave (u32 (currentLeaveCount_ s + d)) s
  else if event =? STOP_EVENT then set_stop (u32 (currentStopCount_ s + d)) s else s.
Definition GroupWatchCb (result : Z) (key value : bytes) s : DynGroup :=
  let ctxRet := watch_result result key value in
  let info := info_of_bytes value in
  let c := eventCtx_ s in
  let s := set_event_ctx (mkCtx_ (watchId c) (Z.lor (ctx_ret c) ctxRet) (ctx_values c)) s in
  let s := if (ctxRet =? SM_OK) && (0 <? version info)
           then let s := count_event 1 (curEvent info) s in
                let c := eventCtx_ s in
                set_event_ctx (mkCtx_ (watchId c) (ctx_ret c) (ctx_values c ++ [info])) s
           else s in
  set_event_signal true s.

(** ** Old events *)
Definition TryCleanOldEvent : gprog unit :=
  now ← asks TimeUs;
  snap ← reads (fun s => (lastUpdateTime_ s, info_of s));
  let '(last, oldInfo) := snap in
  let last := if UINT64_MAX - SMEM_EVNET_KEEP_TIME <? last then UINT64_MAX else last + SMEM_EVNET_KEEP_TIME in
  if negb (is_odd (version oldInfo)) then mret tt else
  mine ← reads (fun s => (submitRank oldInfo =? self s) && negb (lastSubmitVersion_ s =? version oldInfo));
  go ← if mine : bool then mret true
       else if last <? now.1 then
         q ← asks (QueryAlive (submitRank oldInfo)); mret ((q.1 =? SM_OK) && (q.2 =? 0))
       else mret false;
  if negb go then mret tt else
  gen ← GenerateInfo STOP_EVENT (targetRank oldInfo);
  let '(info, old) := gen in
  if negb (version info =? u32 (version oldInfo + 1)) then mret tt else
  let info := if curEvent oldInfo =? JOIN_EVENT then ClearBitmapForRank (targetRank oldInfo) info else info in
  _ ← cas_event old info;
  mret tt.

(** ** Broken links *)
Definition finish_event (old : bytes) (info : SmemGroupInfo) : gprog Z :=
  ret2 ← cas_event old info;
  _ ← (if ret2 =? SM_OK then modify (set_last_submit (version info)) else mret tt);
  mret ret2.
Definition DoLinkDownOnce (rankId : Z) : gprog Z :=
  there ← TestBitmapForRank rankId;
  if negb there then mret SM_OK else
  gen ← GenerateInfo LINK_DOWN_EVENT rankId;
  let '(info, old) := gen in
  let info := ClearBitmapForRank rankId info in
  if negb (is_odd (version info)) then _ ← TryCleanOldEvent; mret SM_INNER_BUSY else
  ret ← cas_event old info;
  if ret =? RESTORE then mret SM_INNER_BUSY else
  if negb (ret =? SM_OK) then mret SM_ERROR else
  _ ← modify (set_link_ret SM_OK);
  _ ← modify (set_last_submit (version info));
  _ ← TryRemovePrefixKey rankId;
  _ ← wait_link_op;
  gen ← GenerateInfo NULL_EVNET rankId;
  let '(info, old) := gen in
  _ ← finish_event old info;
  mret SM_OK.
(** [false]: still busy when the fuel is used up. *)
Fixpoint RankLinkDownEventProcess (fuel : nat) (rankId : Z) : gprog bool :=
  match fuel with
  | O => mret false
  | S fuel => ret ← DoLinkDownOnce rankId;
              if ret =? SM_INNER_BUSY then RankLinkDownEventProcess fuel rankId else mret true
  end.

(** ** Events *)
Definition busy s : bool := (0 <? currentLeaveCount_ s) || (0 <? currentLinkDownCount_ s).
(** Run a callback unless the event was stopped or a process is leaving. *)
Definition run_callback (q : ask) : gprog (option Z) :=
  stop ← reads (fun s => 0 <? currentStopCount_ s);
  if stop : bool then mret None else
  b ← reads busy;
  if b : bool then mret (Some SM_INNER_BUSY) else
  r ← asks q;
  stop ← reads (fun s => 0 <? currentStopCount_ s);
  mret (Some (if stop : bool then SM_OK else r.1)).
Definition departure (set_ : bool) (q : ask) (target : Z) : gprog Z :=
  own ← reads self;
  r ← if negb (target =? own) && set_ then r ← asks q; mret r.1 else mret SM_OK;
  _ ← modify (fun s => if joined_ s && (target =? self s) then set_stoped false s else s);
  mret r.
(** [None]: the function returned early with SM_OK. *)
Definition event_result (i : SmemGroupInfo) (cb : Callbacks) : gprog (option Z) :=
  let target := targetRank i in
  if curEvent i =? JOIN_EVENT then
    go ← reads (fun s => (joined_ s || (target =? self s)) && joinCb cb);
    if go : bool then run_callback (JoinCb target) else mret (Some SM_OK)
  else if curEvent i =? UPDATE_EVENT then
    go ← reads (fun s => joined_ s && updateCb cb);
    if go : bool then run_callback (UpdateCb target) else mret (Some SM_OK)
  else if (curEvent i =? RECOVER_EVENT) || (curEvent i =? LINK_DOWN_EVENT) then
    r ← departure (linkDownCb cb) (LinkDownCb target) target; mret (Some r)
  else if curEvent i =? LEAVE_EVENT then
    r ← departure (leaveCb cb) (LeaveCb target) target; mret (Some r)
  else if (curEvent i =? NULL_EVNET) || (curEvent i =? STOP_EVENT) then mret None
  else mret (Some SM_ERROR).
Definition JoinLeaveEventProcess : gprog Z :=
  snap ← reads (fun s => (info_of s, hasCb s));
  let '(i, cb) := snap in
  r ← event_result i cb;
  match r with
  | None => mret SM_OK
  | Some ret =>
      _ ← modify (fun s =>
        if (submitRank i =? self s) && (currentStopCount_ s =? 0)
        then if negb (curEvent i =? LINK_DOWN_EVENT) then set_local_signal true (set_local_ret ret s)
             else set_link_op_signal true (set_link_ret ret s)
        else s);
      mret ret
  end.

(** The events taken from the queue; [ret] is the result of the wait, which is SM_OK here. *)
Fixpoint process_events (ret : Z) (currentEvents : list SmemGroupInfo) (redoLast : bool)
  : gprog (list SmemGroupInfo * bool) :=
  match currentEvents with
  | [] => mret ([], redoLast)
  | info :: rest =>
      updated ← TryUpdateInfo info;
      canRemove ← if updated || redoLast then _ ← JoinLeaveEventProcess; mret (ret =? SM_OK) else mret true;
      leave ← reads (fun s => 0 <? currentLeaveCount_ s);
      if canRemove || leave then _ ← modify (count_event (-1) (curEvent info)); process_events ret rest false
      else mret (currentEvents, ret =? SM_INNER_BUSY)
  end.
Definition splice_events s : DynGroup :=
  let c := eventCtx_ s in set_event_signal false (set_event_ctx (mkCtx_ (watchId c) (ctx_ret c) []) s).
Definition drop_leaves (l : list SmemGroupInfo) s : DynGroup :=
  foldl (fun s i => if leaves (curEvent i) then set_leave (u32 (currentLeaveCount_ s - 1)) s else s) s l.
Definition set_watch_id (wid : Z) s : DynGroup :=
  let c := eventCtx_ s in set_event_ctx (mkCtx_ wid (ctx_ret c) (ctx_values c)) s.
Definition rewatch (q : ask) : gprog Z :=
  r ← asks q; mret (if negb (r.1 =? SM_OK) || (r.2 =? UINT32_MAX) then UINT32_MAX else r.2).
(** One iteration of the thread; [None]: the loop is left. *)
Definition listen_round (currentEvents : list SmemGroupInfo) (redoLast : bool)
  : gprog (option (list SmemGroupInfo * bool)) :=
  wid ← reads (fun s => watchId (eventCtx_ s));
  ok ← (if wid =? UINT32_MAX then
          _ ← modify (fun s => set_event_ctx (mkCtx_ UINT32_MAX SM_OK (ctx_values (eventCtx_ s))) s);
          wid ← rewatch WatchEvent;
          _ ← modify (set_watch_id wid);
          mret (negb (wid =? UINT32_MAX))
        else mret true);
  if negb ok then mret (Some (currentEvents, redoLast)) else
  w ← GState splice_events (fun s => GRet (if eventListenSignal_ s then SM_OK else SM_TIMEOUT,
                                           ctx_values (eventCtx_ s), ctx_ret (eventCtx_ s)));
  let '(ret, values, cRet) := w in
  let currentEvents := currentEvents ++ values in
  stoped ← reads groupStoped_;
  if stoped : bool then mret None else
  if negb (ret =? SM_OK) then mret (Some (currentEvents, redoLast)) else
  if negb (cRet =? SM_OK) then
    wid ← reads (fun s => watchId (eventCtx_ s));
    _ ← asks (Unwatch wid);
    _ ← modify (set_watch_id UINT32_MAX);
    _ ← modify (drop_leaves currentEvents);
    mret (Some ([], false))
  else
    r ← process_events ret currentEvents redoLast;
    mret (Some r).
Fixpoint GroupListenEvent (rounds : nat) (currentEvents : list SmemGroupInfo) (redoLast : bool) : gprog unit :=
  match rounds with
  | O => mret tt
  | S rounds =>
      stoped ← reads groupStoped_;
      if stoped : bool then mret tt else
      r ← listen_round currentEvents redoLast;
      match r with None => mret tt | Some (events, redo) => GroupListenEvent rounds events redo end
  end.

(** ** Broken links, as reported to the second listener *)
Definition SMEM_GROUP_NOTIFY_EVENT : bytes := replicate (Z.to_nat SMEM_GROUP_INFO_SIZE) 0.
Fixpoint each_rank (fuel : nat) (ranks : list Z) : gprog unit :=
  match ranks with
  | [] => mret tt
  | r :: ranks => _ ← RankLinkDownEventProcess fuel r; each_rank fuel ranks
  end.
Definition splice_links s : DynGroup :=
  let c := linkCtx_ s in set_link_signal false (set_link_ctx (mkCtx_ (watchId c) (ctx_ret c) []) s).
Definition set_link_watch (wid : Z) s : DynGroup :=
  let c := linkCtx_ s in set_link_ctx (mkCtx_ wid (ctx_ret c) (ctx_values c)) s.
Definition link_round (fuel : nat) (currentEvents : list Z) : gprog (option (list Z)) :=
  wid ← reads (fun s => watchId (linkCtx_ s));
  ok ← (if wid =? UINT32_MAX then
          _ ← modify (fun s => set_link_ctx (mkCtx_ UINT32_MAX SM_OK (ctx_values (linkCtx_ s))) s);
          wid ← rewatch WatchLinkDown;
          _ ← modify (set_link_watch wid);
          mret (negb (wid =? UINT32_MAX))
        else mret true);
  if negb ok then mret (Some currentEvents) else
  w ← GState splice_links (fun s => GRet (if linkListenSignal_ s then SM_OK else SM_TIMEOUT,
                                          ctx_values (linkCtx_ s), ctx_ret (linkCtx_ s)));
  let '(ret, values, cRet) := w in
  let currentEvents := currentEvents ++ values in
  stoped ← reads groupStoped_;
  if stoped : bool then mret None else
  if negb (ret =? SM_OK) then mret (Some currentEvents) else
  _ ← (if negb (cRet =? SM_OK) then
         wid ← reads (fun s => watchId (linkCtx_ s));
         _ ← asks (Unwatch wid);
         modify (set_link_watch UINT32_MAX)
       else
         _ ← each_rank fuel currentEvents;
         match currentEvents with
         | [] => mret tt
         | _ => modify (GroupWatchCb SM_OK SMEM_GROUP_LISTEN_EVENT_KEY SMEM_GROUP_NOTIFY_EVENT)
         end);
  _ ← modify (fun s => set_down (u32 (currentLinkDownCount_ s - Z.of_nat (length currentEvents))) s);
  mret (Some []).
Fixpoint GroupListenLinkState (fuel rounds : nat) (currentEvents : list Z) : gprog unit :=
  match rounds with
  | O => mret tt
  | S rounds =>
      stoped ← reads groupStoped_;
      if stoped : bool then mret tt else
      r ← link_round fuel currentEvents;
      match r with None => mret tt | Some events => GroupListenLinkState fuel rounds events end
  end.

(** ** Joining, updating and leaving *)
Inductive submit_result := Submitted | GaveUp | Refused (ret : Z).
Definition MAX_RETRY : nat := 30.
Definition with_event (event : Z) (i : SmemGroupInfo) : SmemGroupInfo :=
  mkInfo (version i) (info_size i) event (targetRank i) (submitRank i) (joinedRanksBitmap i).

Fixpoint join_loop (retries : nat) : gprog submit_result :=
  match retries with
  | O => mret GaveUp
  | S retries =>
      conn ← asks ConnectStatus;
      if conn.1 =? 0 then mret (Refused SM_ERROR) else
      b ← reads busy;
      if b : bool then join_loop retries else
      own ← reads self;
      gen ← GenerateInfo JOIN_EVENT own;
      let '(info, old) := gen in
      match UpdateBitmapFromRank own info with
      | None => _ ← DoLinkDownOnce own; join_loop retries
      | Some info =>
          if is_odd (version info) then
            ret ← cas_event old info;
            if ret =? SM_OK then _ ← modify (set_last_submit (version info)); mret Submitted else join_loop retries
          else _ ← TryCleanOldEvent; join_loop retries
      end
  end.
(** What follows a submitted join or update: wait for the listener, then close the event. *)
Definition close_event (ret : Z) (info : SmemGroupInfo) (old : bytes) (joins : bool) : gprog Z :=
  ret2 ← finish_event old info;
  if Z.lor ret ret2 =? SM_OK then
    _ ← (if joins then modify (set_joined true) else mret tt); mret SM_OK
  else mret (if (ret2 =? SM_OK) && (ret =? SM_INNER_BUSY) then SM_INNER_BUSY else SM_ERROR).
Definition GroupJoin : gprog Z :=
  pre ← reads (fun s => (dynamic (option_ (eng s)), joined_ s, self s));
  let '(dyn, joined, own) := pre in
  if negb dyn then mret SM_INVALID_PARAM else
  if joined : bool then mret SM_OK else
  _ ← TryRemovePrefixKey own;
  _ ← modify (set_local_ret SM_OK);
  sub ← join_loop MAX_RETRY;
  match sub with
  | Refused ret => mret ret
  | GaveUp => mret SM_INNER_BUSY
  | Submitted =>
      ret ← wait_local;
      gen ← GenerateInfo NULL_EVNET own;
      let '(info, old) := gen in
      opRet ← reads localOpRet_;
      if negb (ret =? SM_OK) || negb (opRet =? SM_OK)
      then close_event (if ret =? SM_OK then opRet else ret) (ClearBitmapForRank own (with_event STOP_EVENT info)) old true
      else close_event ret info old true
  end.

Fixpoint update_loop (retries : nat) : gprog submit_result :=
  match retries with
  | O => mret GaveUp
  | S retries =>
      b ← reads busy;
      if b : bool then update_loop retries else
      own ← reads self;
      gen ← GenerateInfo UPDATE_EVENT own;
      let '(info, old) := gen in
      if is_odd (version info) then
        ret ← cas_event old info;
        if ret =? SM_OK then _ ← modify (set_last_submit (version info)); mret Submitted else update_loop retries
      else _ ← TryCleanOldEvent; update_loop retries
  end.
Definition GroupUpdate : gprog Z :=
  pre ← reads (fun s => (dynamic (option_ (eng s)), joined_ s, self s));
  let '(dyn, joined, own) := pre in
  if negb dyn then mret SM_INVALID_PARAM else
  if negb joined then mret SM_NOT_STARTED else
  _ ← modify (set_local_ret SM_OK);
  sub ← update_loop MAX_RETRY;
  match sub with
  | Refused ret => mret ret
  | GaveUp => mret SM_INNER_BUSY
  | Submitted =>
      ret ← wait_local;
      gen ← GenerateInfo NULL_EVNET own;
      let '(info, old) := gen in
      opRet ← reads localOpRet_;
      if negb (ret =? SM_OK) || negb (opRet =? SM_OK)
      then close_event (if ret =? SM_OK then opRet else ret) (with_event STOP_EVENT info) old false
      else close_event ret info old false
  end.

Definition LEAVE_MAX_RETRY : N := 100000.
Fixpoint leave_loop (retries : nat) : gprog submit_result :=
  match retries with
  | O => mret GaveUp
  | S retries =>
      own ← reads self;
      gen ← GenerateInfo LEAVE_EVENT own;
      let '(info, old) := gen in
      let info := ClearBitmapForRank own info in
      if is_odd (version info) then
        ret ← cas_event old info;
        if ret =? SM_OK then _ ← modify (set_last_submit (version info)); mret Submitted else leave_loop retries
      else _ ← TryCleanOldEvent; leave_loop retries
  end.
Definition group_leave (retries : nat) : gprog Z :=
  pre ← reads (fun s => (dynamic (option_ (eng s)), joined_ s, self s));
  let '(dyn, joined, own) := pre in
  if negb dyn then mret SM_INVALID_PARAM else
  if negb joined then mret SM_NOT_STARTED else
  _ ← modify (set_local_ret SM_OK);
  sub ← leave_loop retries;
  match sub with
  | Submitted =>
      _ ← TryRemovePrefixKey own;
      ret ← wait_local;
      opRet ← reads localOpRet_;
      let ret := if negb (ret =? 0) || negb (opRet =? SM_OK) then Z.lor ret opRet else ret in
      gen ← GenerateInfo NULL_EVNET own;
      let '(info, old) := gen in
      ret2 ← finish_event old info;
      _ ← modify (set_joined false);
      mret (if Z.lor ret ret2 =? SM_OK then SM_OK else SM_ERROR)
  | _ => mret SM_ERROR
  end.
Definition GroupLeave : gprog Z := group_leave (N.to_nat LEAVE_MAX_RETRY).

(** ** Reconnecting; [None]: the answer to the swap is read as group information although it
    is too short *)
Definition LinkReconnectHandler : gprog (option Z) :=
  dyn ← reads (fun s => dynamic (option_ (eng s)));
  if negb dyn then mret (Some SM_OK) else
  joined ← reads joined_;
  if negb joined then mret (Some SM_OK) else
  info ← GState (fun s => set_last_submit 0 (set_last_update 0 s)) (fun s => GRet (info_of s));
  a ← store (KCas SMEM_GROUP_LISTEN_EVENT_KEY [] (info_bytes info));
  if negb (a_ret a =? SM_OK) && (blen (a_data a) <? SMEM_GROUP_INFO_SIZE) then mret None else
  let info := if a_ret a =? SM_OK then info else info_of_bytes (a_data a) in
  _ ← (if is_odd (version info) then TryCleanOldEvent else mret tt);
  restore ← reads (fun s => negb (bool_decide (prefixKey_ s = [])) && test_bitmap (self s) (info_of s));
  if negb restore then mret (Some SM_OK) else
  pk ← reads (fun s => (self s, prefixKey_ s));
  b ← store (KSet (exchange_key pk.1) pk.2);
  mret (Some (if a_ret b =? SM_OK then SM_OK else SM_ERROR)).

(** ** Waiting that departures interrupt *)
Fixpoint remove_leaved (ranks : list Z) (count : Z) : gprog Z :=
  match ranks with
  | [] => mret count
  | rk :: ranks =>
      own ← reads self;
      if rk =? own then remove_leaved ranks count else
      q ← asks (QueryAlive rk);
      if (q.1 =? SM_OK) && (q.2 =? 0) then
        _ ← TryRemovePrefixKey rk;
        _ ← modify (RemoteRankLinkDownCb rk);
        remove_leaved ranks (u32 (count + 1))
      else
        a ← store (KGet (exchange_key rk) 0);
        remove_leaved ranks (if a_ret a =? NOT_EXIST then u32 (count + 1) else count)
  end.
Definition TryRemoveAllLeavedPrefixKey : gprog Z :=
  ranks ← reads (fun s => GetAllRanksFromBitMap (info_of s));
  remove_leaved ranks 0.
(** [None]: still waiting when the fuel is used up. *)
Fixpoint get_loop (fuel : nat) (key value : bytes) (waitT queryT : Z) : gprog (option (Z * bytes)) :=
  match fuel with
  | O => mret None
  | S fuel =>
      now ← asks TimeUs;
      if negb (now.1 <? waitT) then mret (Some (SM_TIMEOUT, value)) else
      a ← store (KGet key SMEM_GROUP_MS_TO_US);
      let value := if a_ret a =? SM_OK then a_data a else value in
      b ← reads busy;
      if b : bool then mret (Some (SM_INNER_BUSY, value)) else
      stop ← reads (fun s => 0 <? currentStopCount_ s);
      if stop : bool then mret (Some (SM_INNER_BUSY, value)) else
      if negb (a_ret a =? SM_OK) && negb (a_ret a =? TIMEOUT) then mret (Some (SM_ERROR, value)) else
      if a_ret a =? SM_OK then mret (Some (SM_OK, value)) else
      if queryT <? now.1 then
        num ← TryRemoveAllLeavedPrefixKey;
        if 0 <? num then mret (Some (SM_INNER_BUSY, value))
        else get_loop fuel key value waitT (u64 (queryT + SMEM_EVNET_KEEP_TIME))
      else get_loop fuel key value waitT queryT
  end.
Definition StoreGetCanInterrupt (fuel : nat) (key : bytes) (timeout : Z) : gprog (option (Z * bytes)) :=
  start ← asks TimeUs;
  let startT := start.1 in
  let waitT := u64 (timeout * SMEM_GROUP_MS_TO_US) in
  let waitT := if UINT64_MAX - waitT <? startT then UINT64_MAX else waitT + startT in
  get_loop fuel key [] waitT (u64 (startT + SMEM_EVNET_KEEP_TIME)).

(** ** Collective operations of a dynamic group *)
Definition bump_gather (e : SmemNetGroupEngine) : SmemNetGroupEngine := set_gather_sn (u32 (allGatherGroupSn_ e + 1)) e.
Definition bump_barrier (e : SmemNetGroupEngine) : SmemNetGroupEngine := set_barrier_sn (u32 (barrierGroupSn_ e + 1)) e.
(** [GroupOldKeyDelayClean] of an earlier round, on the members of the engine. *)
Definition clean_shared (first : bool) (sn : Z) (prefix add wait : bytes) : gprog unit :=
  e ← reads eng;
  e' ← lift (clean_round first sn prefix add wait e);
  modify (fun s => set_eng (set_clean_list (delayCleanKeyList_ e') (eng s)) s).
Definition int32_at (i : Z) (b : bytes) : Z := i32 (word_at 4 (4 * i) b).
Definition gather_status (size : Z) (output : bytes) : Z :=
  foldl (fun acc i => i32 (Z.lor acc (int32_at i output))) 0 (seqZ 0 size).
(** Returns the result and [totalRet], which keeps its value on failure. *)
Definition GroupGatherResult (fuel : nat) (localRet totalRet : Z) : gprog (option (Z * Z)) :=
  pre ← GState (fun s => set_eng (bump_gather (eng s)) s)
    (fun s => let e := bump_gather (eng s) in
              GRet (groupSize e, to_string (groupVersion_ e) ++ lit "_", allGatherGroupSn_ e, timeoutMs (option_ e)));
  let '(size, prefix, sn, timeout) := pre in
  let addKey := prefix ++ to_string sn ++ lit "_GA" in
  let waitKey := prefix ++ to_string sn ++ lit "_GW" in
  a ← store (KAppend addKey (Z_to_little_endian 4 8 (u32 localRet)));
  if negb (a_ret a =? SM_OK) then mret (Some (SM_ERROR, totalRet)) else
  _ ← clean_shared (a_num a =? 4) sn prefix (lit "_GA") (lit "_GW");
  ret ← lift (set_status (a_num a =? 4 * size) waitKey);
  if negb (ret =? SM_OK) then mret (Some (SM_ERROR, totalRet)) else
  g ← StoreGetCanInterrupt fuel waitKey timeout;
  match g with
  | None => mret None
  | Some (ret, getVal) =>
      if negb (ret =? SM_OK) then mret (Some (ret, totalRet)) else
      if negb (bool_decide (getVal = SMEM_GROUP_SET_STR)) then mret (Some (SM_ERROR, totalRet)) else
      o ← store (KGet addKey 0);
      if negb (a_ret o =? SM_OK) || negb (blen (a_data o) =? 4 * size) then mret (Some (SM_ERROR, totalRet)) else
      mret (Some (SM_OK, gather_status size (a_data o)))
  end.
(** Returns the result and [update]. *)
Definition GroupBarrierPrefixKey (fuel : nat) (dstRank : Z) (update : bytes) : gprog (option (Z * bytes)) :=
  dyn ← reads (fun s => dynamic (option_ (eng s)));
  if negb dyn then mret (Some (SM_ERROR, update)) else
  pre ← GState (fun s => set_eng (bump_barrier (eng s)) s)
    (fun s => let e := bump_barrier (eng s) in
              GRet (rank (option_ e), to_string (groupVersion_ e) ++ lit "_", barrierGroupSn_ e, timeoutMs (option_ e)));
  let '(own, prefix, sn, timeout) := pre in
  let waitKey := prefix ++ to_string sn ++ lit "_BW" in
  if dstRank =? own then
    _ ← clean_shared true sn prefix (lit "_BA") (lit "_BW");
    a ← store (KAppend (exchange_key dstRank) update);
    if negb (a_ret a =? SM_OK) then mret (Some (SM_ERROR, update)) else
    _ ← modify (fun s => set_prefix_key (prefixKey_ s ++ update) s);
    b ← store (KSet waitKey SMEM_GROUP_SET_STR);
    mret (Some (if a_ret b =? SM_OK then SM_OK else SM_ERROR, update))
  else
    g ← StoreGetCanInterrupt fuel waitKey timeout;
    match g with
    | None => mret None
    | Some (ret, _) =>
        if negb (ret =? SM_OK) then mret (Some (ret, update)) else
        o ← store (KGet (exchange_key dstRank) 0);
        if negb (a_ret o =? SM_OK) then mret (Some (SM_ERROR, update)) else mret (Some (SM_OK, a_data o))
    end.
(** The rank at the end of a key: [String2Int] into an unsigned 32-bit integer. *)
Definition key_rank (key : bytes) : option Z :=
  match last (Split key 95) with
  | None => None
  | Some txt => match String2Int txt with
                | Some n => if UINT32_MAX <? n then None else Some (u32 n)
                | None => None
                end
  end.
(** [false]: a key is malformed; the map keeps what was collected before. *)
Fixpoint collect_keys (completePrefix : bytes) (vals : list (bytes * bytes)) (retMap : gmap Z bytes)
  : gprog (bool * gmap Z bytes) :=
  match vals with
  | [] => mret (true, retMap)
  | (key, value) :: vals =>
      if negb (bool_decide (take (length completePrefix) key = completePrefix)) then mret (false, retMap) else
      match key_rank key with
      | None => mret (false, retMap)
      | Some rk =>
          there ← TestBitmapForRank rk;
          if there : bool
          then collect_keys completePrefix vals (match retMap !! rk with None => <[rk := value]> retMap | Some _ => retMap end)
          else _ ← TryRemovePrefixKey rk; collect_keys completePrefix vals retMap
      end
  end.
Definition GroupGatherPrefixKey (fuel : nat) (completePrefix : bytes) (dstRank : Z) (update : bytes) (retMap : gmap Z bytes)
  : gprog (option (Z * gmap Z bytes)) :=
  pre ← reads (fun s => (dynamic (option_ (eng s)), self s, timeoutMs (option_ (eng s))));
  let '(dyn, own, timeout) := pre in
  if negb dyn then mret (Some (SM_ERROR, retMap)) else
  if dstRank =? own then
    a ← store (KSet (exchange_key dstRank) update);
    if negb (a_ret a =? SM_OK) then mret (Some (SM_ERROR, retMap)) else
    _ ← modify (set_prefix_key update);
    v ← GPrefixGet SMEM_EXCHANGE_INFO_KEY GRet;
    if negb (v.1 =? SM_OK) then mret (Some (SM_ERROR, retMap)) else
    r ← collect_keys completePrefix v.2 retMap;
    let '(ok, retMap) := r in
    if negb ok then mret (Some (SM_ERROR, retMap)) else
    size ← reads (fun s => groupSize (eng s));
    mret (Some (if Z.of_nat (base.size retMap) =? size then SM_OK else SM_INNER_BUSY, retMap))
  else
    g ← StoreGetCanInterrupt fuel (exchange_key dstRank) timeout;
    match g with
    | None => mret None
    | Some (ret, val) =>
        if negb (ret =? SM_OK) then mret (Some (ret, retMap)) else
        mret (Some (SM_OK, match retMap !! dstRank with None => <[dstRank := val]> retMap | Some _ => retMap end))
    end.

(** ** Exit notification of a static group *)
Definition GroupBroadcastExit (status : Z) : gprog Z :=
  dyn ← reads (fun s => dynamic (option_ (eng s)));
  if dyn : bool then mret SM_ERROR else
  a ← store (KSet SMEM_GROUP_EXIT_KEY (to_string status));
  mret (if a_ret a =? SM_OK then SM_OK else SM_ERROR).
(** The status the exit handler is called with; [None]: it is not called. *)
Definition RankExit (result : Z) (value : bytes) (handler : bool) : option Z :=
  if negb (result =? SUCCESS) || negb handler then None else
  match value with
  | [] => None
  | _ => match scan_number (c_str value) with
         | None => None
         | Some (neg, v, _) =>
             let n := if neg : bool then - v else v in
             if negb ((- 2 ^ 63 <=? n) && (n <? 2 ^ 63)) then None else
             if (n <? - 2 ^ 31) || (2 ^ 31 - 1 <? n) then None else Some n
         end
  end.
