(* ===== verification/GroupDynamicProof.v ===== *)
(** * GroupDynamicProof: the stored group information is a chain of events *)
From Stdlib Require Import String.
From stdpp Require Import gmap.
From S2P Require Import Prelude StrUtil MessagePacker MessagePackerProof StoreBackend StoreServer StoreServerProof StoreScenario.
From S2P Require Import StoreClient GroupEngine GroupRounds GroupProof GroupNumbers GroupDynamic.

(** ** Well-formed information and its bytes *)
Definition word32 (x : Z) : Prop := 0 <= x < 2 ^ 32.
Definition word64 (x : Z) : Prop := 0 <= x < 2 ^ 64.
Record info_wf (i : SmemGroupInfo) : Prop := {
  iw_version : word32 (version i); iw_size : word32 (info_size i); iw_event : word32 (curEvent i);
  iw_target : word32 (targetRank i); iw_submit : word32 (submitRank i);
  iw_words : Forall word64 (joinedRanksBitmap i);
  iw_len : length (joinedRanksBitmap i) = Z.to_nat RANK_BITS_U64_COUNT }.

Lemma piece_skip (a b : bytes) off len : 0 <= off -> piece (blen a + off) len (a ++ b) = piece off len b.
Proof.
  intros Hoff. unfold piece, blen. f_equal. rewrite Z2Nat.inj_add, Nat2Z.id by lia. by rewrite drop_app_add.
Qed.
Lemma piece_front (a b : bytes) : piece 0 (blen a) (a ++ b) = a.
Proof. unfold piece, blen. rewrite Nat2Z.id. apply take_app_length. Qed.
Lemma blen_word n x : 0 <= n -> blen (Z_to_little_endian n 8 x) = n.
Proof. intros. unfold blen. by rewrite length_Z_to_little_endian. Qed.
Lemma word_front n x b : 0 <= n -> 0 <= x < 2 ^ (n * 8) -> word_at n 0 (Z_to_little_endian n 8 x ++ b) = x.
Proof.
  intros Hn Hx. unfold word_at. rewrite <- (blen_word n x Hn) at 1. rewrite piece_front.
  rewrite little_endian_to_Z_to_little_endian by lia. by rewrite Z.mod_small.
Qed.
Lemma word_skip n off x m b :
  0 <= n -> 0 <= off -> word_at m (n + off) (Z_to_little_endian n 8 x ++ b) = word_at m off b.
Proof. intros Hn Hoff. unfold word_at. rewrite <- (blen_word n x Hn) at 1. by rewrite piece_skip. Qed.
Lemma words_read (l : list Z) (j : nat) w :
  l !! j = Some w -> word64 w -> word_at 8 (8 * Z.of_nat j) (concat (Z_to_little_endian 8 8 <$> l)) = w.
Proof.
  intros Hj Hw. unfold word_at.
  pose proof (piece_block 8 j 0 8 (Z_to_little_endian 8 8 <$> l) (Z_to_little_endian 8 8 w)) as H.
  assert (Hlen : forall x, length (Z_to_little_endian 8 8 x) = 8%nat).
  { intros x. apply Nat2Z.inj. by rewrite length_Z_to_little_endian. }
  replace (8 * Z.of_nat j) with (Z.of_nat j * Z.of_nat 8 + Z.of_nat 0) by lia. change 8 with (Z.of_nat 8) at 2.
  rewrite H; [|apply Forall_fmap, Forall_true; intros; apply Hlen|by rewrite list_lookup_fmap, Hj|lia].
  rewrite drop_0, take_ge by (by rewrite Hlen). rewrite little_endian_to_Z_to_little_endian by lia.
  apply Z.mod_small. exact Hw.
Qed.
Lemma info_roundtrip i : info_wf i -> info_of_bytes (info_bytes i) = i.
Proof.
  intros [Hv Hs He Ht Hr Hw Hl]. destruct i as [v sz ev tg sb bm]. simpl in *. unfold info_of_bytes, info_bytes.
  cbn [version info_size curEvent targetRank submitRank joinedRanksBitmap fmap list_fmap concat].
  rewrite app_nil_r, <- !app_assoc.
  unfold word32 in *. f_equal.
  - by apply word_front.
  - change (word_at 4 4) with (word_at 4 (4 + 0)). rewrite word_skip by lia. by apply word_front.
  - change (word_at 4 8) with (word_at 4 (4 + (4 + 0))). rewrite !word_skip by lia. by apply word_front.
  - change (word_at 4 12) with (word_at 4 (4 + (4 + (4 + 0)))). rewrite !word_skip by lia. by apply word_front.
  - change (word_at 4 16) with (word_at 4 (4 + (4 + (4 + (4 + 0))))). rewrite !word_skip by lia. by apply word_front.
  - apply list_eq. intros j. rewrite list_lookup_fmap. destruct (bm !! j) as [w|] eqn:Hj.
    + pose proof (lookup_lt_Some _ _ _ Hj). rewrite lookup_seqZ_lt by lia.
      cbn [fmap option_fmap option_map]. rewrite Z.add_0_l. f_equal.
      replace (20 + 8 * Z.of_nat j) with (4 + (4 + (4 + (4 + (4 + 8 * Z.of_nat j))))) by lia.
      rewrite !word_skip by lia. apply words_read; [done|]. by eapply Forall_lookup_1 in Hw.
    + apply lookup_ge_None in Hj. rewrite lookup_seqZ_ge by lia. done.
Qed.

Lemma word_at_range n off (b : bytes) : 0 <= n -> Forall byte_ok b -> 0 <= word_at n off b < 2 ^ (n * 8).
Proof.
  intros Hn Hb. unfold word_at.
  assert (Hp : Forall (fun x => 0 <= x < 2 ^ 8) (piece off n b)) by (by apply Forall_take, Forall_drop).
  pose proof (little_endian_to_Z_bound 8 (piece off n b) ltac:(lia) Hp) as H.
  assert (Hlen : Z.of_nat (length (piece off n b)) <= n).
  { unfold piece. rewrite length_take. lia. }
  split; [lia|]. eapply Z.lt_le_trans; [apply H|]. apply Z.pow_le_mono_r; lia.
Qed.
Lemma info_of_bytes_wf b : Forall byte_ok b -> info_wf (info_of_bytes b).
Proof.
  intros Hb. unfold info_of_bytes. split; cbn [version info_size curEvent targetRank submitRank joinedRanksBitmap];
    try (by apply (word_at_range 4)).
  - apply Forall_fmap, Forall_true. intros i. by apply (word_at_range 8).
  - by rewrite length_fmap, length_seqZ.
Qed.

(** ** Bits of the bitmap *)
Definition member (i : SmemGroupInfo) (r : Z) : Prop := test_bitmap r i = true.
Lemma word_of_ok i r : info_wf i -> word64 (word_of i r).
Proof.
  intros Hi. unfold word_of. destruct (joinedRanksBitmap i !! _) as [w|] eqn:Hw; [|done].
  by eapply Forall_lookup_1 in Hw; [|apply Hi].
Qed.
Lemma member_testbit i r :
  0 <= r -> member i r <-> r < MAX_RANK_COUNT /\ Z.testbit (word_of i r) (r mod BITS_COUNT_IN_U64) = true.
Proof.
  intros Hr. unfold member, test_bitmap. destruct (Z.leb_spec MAX_RANK_COUNT r); [split; [done|lia]|].
  rewrite mask_clear by (apply Z.mod_pos_bound; done). rewrite negb_involutive. naive_solver.
Qed.
Lemma word_of_set size rankId f i r :
  info_wf i -> 0 <= r < MAX_RANK_COUNT -> 0 <= rankId ->
  word_of (set_words size rankId f i) r =
    if decide (rankId / BITS_COUNT_IN_U64 = r / BITS_COUNT_IN_U64) then f (word_of i r) else word_of i r.
Proof.
  intros Hi Hr Hk. unfold word_of, set_words. simpl.
  assert (0 <= rankId / BITS_COUNT_IN_U64 /\ 0 <= r / BITS_COUNT_IN_U64 < 16).
  { split; [by apply Z.div_pos|]. split; [by apply Z.div_pos; [lia|]|].
    unfold BITS_COUNT_IN_U64, MAX_RANK_COUNT in *. apply Z.div_lt_upper_bound; lia. }
  destruct (decide _) as [He|He].
  - rewrite <- He, list_lookup_alter_eq. destruct (lookup_lt_is_Some_2 (joinedRanksBitmap i) (Z.to_nat (rankId / BITS_COUNT_IN_U64))) as [w ->];
      [|done]. rewrite (iw_len _ Hi). change (Z.to_nat RANK_BITS_U64_COUNT) with 16%nat. lia.
  - by rewrite list_lookup_alter_ne by lia.
Qed.
Lemma rank_split r r' :
  r / BITS_COUNT_IN_U64 = r' / BITS_COUNT_IN_U64 -> r mod BITS_COUNT_IN_U64 = r' mod BITS_COUNT_IN_U64 -> r = r'.
Proof. intros Hd Hm. rewrite (Z.div_mod r BITS_COUNT_IN_U64), (Z.div_mod r' BITS_COUNT_IN_U64) by done. congruence. Qed.

(** A change of one word that changes one bit changes one member. *)
Lemma member_set size rankId f i r (b : bool) :
  info_wf i -> 0 <= rankId < MAX_RANK_COUNT -> 0 <= r ->
  (forall j, 0 <= j < 64 -> Z.testbit (f (word_of i rankId)) j =
     if decide (j = rankId mod BITS_COUNT_IN_U64) then b else Z.testbit (word_of i rankId) j) ->
  member (set_words size rankId f i) r <-> (if decide (r = rankId) then b = true else member i r).
Proof.
  intros Hi Hk Hr Hf. pose proof (Z.mod_pos_bound r BITS_COUNT_IN_U64 ltac:(done)) as Hm.
  rewrite member_testbit by done. destruct (decide (r = rankId)) as [->|Hne].
  - rewrite word_of_set, decide_True, Hf, decide_True by (done || unfold BITS_COUNT_IN_U64 in *; lia). naive_solver.
  - rewrite member_testbit by done. destruct (decide (r < MAX_RANK_COUNT)) as [Hlt|Hge]; [|naive_solver].
    rewrite word_of_set by (done || lia). destruct (decide (rankId / BITS_COUNT_IN_U64 = r / BITS_COUNT_IN_U64)) as [Hd|Hd]; [|done].
    assert (Hw : word_of i r = word_of i rankId) by (unfold word_of; by rewrite Hd).
    rewrite Hw, Hf by exact Hm. rewrite decide_False; [done|].
    intros He. by destruct Hne; apply rank_split.
Qed.

(** ** What an event does to the information *)
Definition kept (o n : SmemGroupInfo) : Prop :=
  info_size n = info_size o /\ joinedRanksBitmap n = joinedRanksBitmap o.
Definition added (o n : SmemGroupInfo) : Prop :=
  ~ member o (targetRank n) /\ info_size n = u32 (info_size o + 1) /\
  forall r, 0 <= r -> member n r <-> member o r \/ r = targetRank n.
Definition removed (o n : SmemGroupInfo) : Prop :=
  if MAX_RANK_COUNT <=? targetRank n then kept o n
  else info_size n = u32 (info_size o - 1) /\ forall r, 0 <= r -> member n r <-> member o r /\ r <> targetRank n.
Definition event_step (o n : SmemGroupInfo) : Prop :=
  version n = u32 (version o + 1) /\
  (curEvent n = JOIN_EVENT /\ added o n \/
   (curEvent n = LEAVE_EVENT \/ curEvent n = LINK_DOWN_EVENT \/ curEvent n = STOP_EVENT) /\ removed o n \/
   (curEvent n = UPDATE_EVENT \/ curEvent n = NULL_EVNET \/ curEvent n = STOP_EVENT) /\ kept o n).

Lemma set_words_wf size rankId f i :
  info_wf i -> word32 size -> (forall w, word64 w -> word64 (f w)) -> info_wf (set_words size rankId f i).
Proof.
  intros [Hv Hs He Ht Hr Hw Hl] Hsize Hf. split; simpl; try done; [|by rewrite length_alter].
  apply Forall_alter; [done|]. intros w Hlk Hok. by apply Hf.
Qed.
Lemma word32_u32 x : word32 (u32 x).
Proof. apply Z.mod_pos_bound. lia. Qed.
Lemma word64_testbit w : word64 w <-> 0 <= w /\ forall j, 64 <= j -> Z.testbit w j = false.
Proof.
  unfold word64. split.
  - intros Hw. split; [lia|]. intros j Hj. destruct (decide (w = 0)) as [->|]; [apply Z.bits_0|].
    apply Z.bits_above_log2; [lia|]. apply Z.log2_lt_pow2; [lia|]. eapply Z.lt_le_trans; [apply Hw|].
    apply Z.pow_le_mono_r; lia.
  - intros [H0 Hb]. split; [done|]. destruct (decide (w = 0)) as [->|]; [lia|].
    apply Z.log2_lt_pow2; [lia|]. destruct (Z.lt_ge_cases (Z.log2 w) 64); [done|].
    specialize (Hb _ H). rewrite Z.bit_log2 in Hb by lia. done.
Qed.
Lemma land_word w x : word64 w -> word64 (Z.land w x).
Proof.
  intros [H0 Hb]%word64_testbit. apply word64_testbit. split; [by apply Z.land_nonneg; left|].
  intros j Hj. by rewrite Z.land_spec, Hb.
Qed.
Lemma lor_word w k : 0 <= k < 64 -> word64 w -> word64 (Z.lor w (Z.shiftl 1 k)).
Proof.
  intros Hk [H0 Hb]%word64_testbit. rewrite Z.shiftl_1_l. apply word64_testbit.
  split; [apply Z.lor_nonneg; split; [done|apply Z.pow_nonneg; lia]|].
  intros j Hj. rewrite Z.lor_spec, Hb, Z.pow2_bits_eqb by lia. simpl. lia.
Qed.
Lemma clear_mask_bit w k j :
  0 <= k < 64 -> 0 <= j < 64 ->
  Z.testbit (Z.land w (u64 (Z.lnot (Z.shiftl 1 k)))) j = if decide (j = k) then false else Z.testbit w j.
Proof.
  intros Hk Hj. rewrite Z.land_spec. change (u64 (Z.lnot (Z.shiftl 1 k))) with (Z.lnot (Z.shiftl 1 k) mod 2 ^ 64).
  rewrite Z.mod_pow2_bits_low, Z.lnot_spec, Z.shiftl_1_l, Z.pow2_bits_eqb by lia.
  destruct (decide (j = k)) as [->|]; [rewrite Z.eqb_refl; apply andb_false_r|].
  rewrite (proj2 (Z.eqb_neq k j)) by congruence. apply andb_true_r.
Qed.
Lemma set_mask_bit w k j :
  0 <= k < 64 -> 0 <= j < 64 ->
  Z.testbit (Z.lor w (Z.shiftl 1 k)) j = if decide (j = k) then true else Z.testbit w j.
Proof.
  intros Hk Hj. rewrite Z.lor_spec, Z.shiftl_1_l, Z.pow2_bits_eqb by lia.
  destruct (decide (j = k)) as [->|]; [rewrite Z.eqb_refl; apply orb_true_r|].
  rewrite (proj2 (Z.eqb_neq k j)) by congruence. apply orb_false_r.
Qed.
Lemma rank_bit r : 0 <= r mod BITS_COUNT_IN_U64 < 64.
Proof. by apply Z.mod_pos_bound. Qed.

Lemma clear_wf rankId i : info_wf i -> info_wf (ClearBitmapForRank rankId i).
Proof.
  intros Hi. unfold ClearBitmapForRank. destruct (_ <=? _); [done|].
  apply set_words_wf; [done|apply word32_u32|]. intros w. apply land_word.
Qed.
Lemma member_clear rankId i r :
  info_wf i -> 0 <= rankId < MAX_RANK_COUNT -> 0 <= r ->
  member (ClearBitmapForRank rankId i) r <-> member i r /\ r <> rankId.
Proof.
  intros Hi Hk Hr. unfold ClearBitmapForRank. rewrite (proj2 (Z.leb_gt _ _)) by lia.
  rewrite (member_set _ _ _ _ _ false); [|done|lia|done|].
  - destruct (decide (r = rankId)); naive_solver.
  - intros j Hj. apply clear_mask_bit; [apply rank_bit|done].
Qed.
Lemma update_cases rankId i :
  info_wf i -> 0 <= rankId ->
  match UpdateBitmapFromRank rankId i with
  | None => MAX_RANK_COUNT <= rankId \/ member i rankId
  | Some n => rankId < MAX_RANK_COUNT /\ ~ member i rankId /\ info_wf n /\
      n = set_words (u32 (info_size i + 1)) rankId (fun w => Z.lor w (Z.shiftl 1 (rankId mod BITS_COUNT_IN_U64))) i /\
      forall r, 0 <= r -> member n r <-> member i r \/ r = rankId
  end.
Proof.
  intros Hi Hk. unfold UpdateBitmapFromRank. destruct (Z.leb_spec MAX_RANK_COUNT rankId) as [Hge|Hlt]; [by left|].
  assert (Hbit : (Z.land (Z.shiftr (word_of i rankId) (rankId mod BITS_COUNT_IN_U64)) 1 =? 0) =
    negb (Z.testbit (word_of i rankId) (rankId mod BITS_COUNT_IN_U64))).
  { change 1 with (Z.shiftl 1 0). rewrite mask_clear, Z.shiftr_spec by lia. by rewrite Z.add_0_l. }
  rewrite Hbit, negb_involutive. destruct (Z.testbit _ _) eqn:Hb; [right; by apply member_testbit|].
  split_and!; [done| | |done|].
  - rewrite member_testbit by done. intros [_ ?]. congruence.
  - apply set_words_wf; [done|apply word32_u32|intros w; apply lor_word, rank_bit].
  - intros r Hr. rewrite (member_set _ _ _ _ _ true); [|done|lia|done|].
    + destruct (decide (r = rankId)); naive_solver.
    + intros j Hj. apply set_mask_bit; [apply rank_bit|done].
Qed.
Lemma same_members i o r : joinedRanksBitmap i = joinedRanksBitmap o -> member i r <-> member o r.
Proof. intros Hb. unfold member, test_bitmap, word_of. by rewrite Hb. Qed.
Lemma clear_removed o i :
  info_wf i -> info_size i = info_size o -> joinedRanksBitmap i = joinedRanksBitmap o ->
  removed o (ClearBitmapForRank (targetRank i) i).
Proof.
  intros Hi Hs Hb. assert (Ht : 0 <= targetRank i) by (by destruct (iw_target _ Hi)).
  assert (Htgt : targetRank (ClearBitmapForRank (targetRank i) i) = targetRank i).
  { unfold ClearBitmapForRank. by destruct (_ <=? _). }
  unfold removed. rewrite Htgt. destruct (Z.leb_spec MAX_RANK_COUNT (targetRank i)) as [Hge|Hlt].
  - unfold ClearBitmapForRank. by rewrite (proj2 (Z.leb_le _ _) Hge).
  - split; [unfold ClearBitmapForRank; rewrite (proj2 (Z.leb_gt _ _) Hlt); simpl; by rewrite Hs|].
    intros r Hr. rewrite member_clear by (done || lia). by rewrite (same_members i o) by done.
Qed.
Lemma update_added o i n :
  info_wf i -> info_size i = info_size o -> joinedRanksBitmap i = joinedRanksBitmap o ->
  UpdateBitmapFromRank (targetRank i) i = Some n ->
  info_wf n /\ added o n /\ version n = version i /\ curEvent n = curEvent i.
Proof.
  intros Hi Hs Hb Hn. assert (Ht : 0 <= targetRank i) by (by destruct (iw_target _ Hi)).
  pose proof (update_cases (targetRank i) i Hi Ht) as H. rewrite Hn in H. destruct H as (Hlt & Hno & Hwf & -> & Hmem).
  split; [done|]. split; [|done]. unfold added. cbn [targetRank info_size set_words].
  rewrite <- (same_members i o) by done. split; [done|]. split; [by rewrite Hs|].
  intros r Hr. rewrite <- (same_members i o) by done. by apply Hmem.
Qed.

(** ** Threads that respect the protocol

    The members are well formed, and no key that waits for removal is the event key (it has
    no underscore). *)
Record dyn_wf (s : DynGroup) : Prop := {
  dw_info : info_wf (info_of s);
  dw_events : Forall info_wf (ctx_values (eventCtx_ s));
  dw_links : Forall word32 (ctx_values (linkCtx_ s));
  dw_self : word32 (self s);
  dw_clean : Forall (fun key : bytes => 95 ∈ key) (delayCleanKeyList_ (eng s)) }.
(** A change of the members keeps them well formed, and the version does not go back. *)
Definition advances (s s' : DynGroup) : Prop := dyn_wf s' /\ version (info_of s) <= version (info_of s').
(** A call on the event key swaps in the successor of the expected information, or the
    first one; every other call leaves the key alone. *)
Definition quiet (op : kv_op) : Prop :=
  match op with
  | KGet _ _ => True
  | KCas key old val =>
      key = SMEM_GROUP_LISTEN_EVENT_KEY /\ (exists n, info_wf n /\ val = info_bytes n /\
        (old = [] \/ exists o, info_wf o /\ old = info_bytes o /\ event_step o n))
  | op => op_key op <> SMEM_GROUP_LISTEN_EVENT_KEY
  end.
Fixpoint calm {A} (Q : A -> Prop) (p : gprog A) : Prop :=
  match p with
  | GRet a => Q a
  | GState upd k => forall s, dyn_wf s -> advances s (upd s) /\ calm Q (k s)
  | GStore op k => quiet op /\ forall a, calm Q (k a)
  | GPrefixGet _ k => forall a, calm Q (k a)
  | GAsk _ k => forall a, calm Q (k a)
  end.
Definition any {A} (a : A) : Prop := True.

Lemma calm_bind {A C} (Q : A -> Prop) (Q' : C -> Prop) f p :
  calm Q p -> (forall a, Q a -> calm Q' (f a)) -> calm Q' (gbind f p).
Proof.
  intros Hp Hf. induction p as [a|upd k IH|op k IH|key k IH|q k IH]; simpl in *.
  - by apply Hf.
  - intros s Hs. destruct (Hp s Hs). auto.
  - destruct Hp. auto.
  - auto.
  - auto.
Qed.
Lemma calm_mono {A} (Q Q' : A -> Prop) p : calm Q p -> (forall a, Q a -> Q' a) -> calm Q' p.
Proof.
  intros Hp HQ. induction p as [a|upd k IH|op k IH|key k IH|q k IH]; simpl in *; auto.
  - intros s Hs. destruct (Hp s Hs). auto.
  - destruct Hp. auto.
Qed.
Lemma advances_refl s : dyn_wf s -> advances s s.
Proof. intros H. by split. Qed.
Lemma calm_reads {A} (f : DynGroup -> A) (Q : A -> Prop) : (forall s, dyn_wf s -> Q (f s)) -> calm Q (reads f).
Proof. intros HQ s Hs. split; [by apply advances_refl|by apply HQ]. Qed.
Lemma calm_modify upd : (forall s, dyn_wf s -> advances s (upd s)) -> calm any (modify upd).
Proof. intros Hu s Hs. split; [by apply Hu|done]. Qed.
Lemma calm_asks q : calm any (asks q).
Proof. by intros a. Qed.
Lemma calm_store op : quiet op -> calm any (store op).
Proof. by intros Hq. Qed.
Lemma calm_ret {A} (Q : A -> Prop) a : Q a -> calm Q (mret a).
Proof. done. Qed.

(** A step that changes none of the members [dyn_wf] speaks about. *)
Lemma advances_other s s' :
  eng s' = eng s -> ctx_values (eventCtx_ s') = ctx_values (eventCtx_ s) ->
  ctx_values (linkCtx_ s') = ctx_values (linkCtx_ s) -> dyn_wf s -> advances s s'.
Proof.
  intros He Hc Hl [H1 H2 H3 H4 H5]. unfold advances, info_of, self in *.
  rewrite He. split; [|done]. split; unfold info_of, self; rewrite ?He, ?Hc, ?Hl; done.
Qed.
Ltac other := first [by apply advances_refl|apply advances_other; [reflexivity|reflexivity|reflexivity|assumption]].
(** The program-logic step of the development: bind with the rule of the first operation. *)
Ltac bind := eapply calm_bind; [|intros ? ?].
Create HintDb calm.
#[export] Hint Resolve calm_asks calm_ret : calm.
#[export] Hint Unfold any : calm.

Lemma event_key_plain (key : bytes) : 95 ∈ key -> key <> SMEM_GROUP_LISTEN_EVENT_KEY.
Proof. intros Hin ->. revert Hin. apply (bool_decide_eq_false_1 _). vm_compute. reflexivity. Qed.
Lemma exchange_key_other r : exchange_key r <> SMEM_GROUP_LISTEN_EVENT_KEY.
Proof. apply event_key_plain. unfold exchange_key. apply elem_of_app. left. by apply (bool_decide_unpack _). Qed.

(** *** Information *)
Definition generated (event target : Z) (g : SmemGroupInfo * bytes) : Prop :=
  exists o, info_wf o /\ g.2 = info_bytes o /\ info_wf g.1 /\ version g.1 = u32 (version o + 1) /\
    curEvent g.1 = event /\ targetRank g.1 = target /\ kept o g.1.
Lemma calm_GenerateInfo event target :
  word32 event -> word32 target -> calm (generated event target) (GenerateInfo event target).
Proof.
  intros He Ht. apply calm_reads. intros s [[Hv Hs Hev Htg Hsb Hw Hl] _ _ Hself _]. exists (info_of s).
  split_and!; [done|done| |done..]. split; simpl; try done. apply word32_u32.
Qed.
Lemma calm_cas_event old n o :
  info_wf o -> old = info_bytes o -> info_wf n -> event_step o n -> calm any (cas_event old n).
Proof.
  intros Ho -> Hn Hstep. split; [|done]. split; [done|]. exists n. split; [done|]. split; [done|]. right. eauto.
Qed.
(** The four ways in which an operation completes what it generated. *)
Lemma step_kept event target info old :
  generated event target (info, old) -> event = UPDATE_EVENT \/ event = NULL_EVNET \/ event = STOP_EVENT ->
  calm any (cas_event old info).
Proof.
  intros (o & Ho & Hold & Hn & Hv & He & Ht & Hk) Hev. simpl in *. apply (calm_cas_event _ _ o); [done|done|done|].
  split; [done|]. right; right. by rewrite He.
Qed.
Lemma step_removed event target info old :
  generated event target (info, old) -> event = LEAVE_EVENT \/ event = LINK_DOWN_EVENT \/ event = STOP_EVENT ->
  calm any (cas_event old (ClearBitmapForRank target info)).
Proof.
  intros (o & Ho & Hold & Hn & Hv & He & Ht & [Hs Hb]) Hev. simpl in *. apply (calm_cas_event _ _ o); [done|done|by apply clear_wf|].
  assert (Hsame : version (ClearBitmapForRank target info) = version info /\ curEvent (ClearBitmapForRank target info) = curEvent info).
  { unfold ClearBitmapForRank. by destruct (_ <=? _). }
  destruct Hsame as [Hv' He']. split; [by rewrite Hv'|]. right; left. rewrite He', He. split; [done|].
  subst target. by apply clear_removed.
Qed.
Lemma step_added target info old n :
  generated JOIN_EVENT target (info, old) -> UpdateBitmapFromRank target info = Some n -> calm any (cas_event old n).
Proof.
  intros (o & Ho & Hold & Hn & Hv & He & Ht & [Hs Hb]) Hup. simpl in *. subst target.
  destruct (update_added o info n Hn Hs Hb Hup) as (Hwf & Hadd & Hvn & Hen).
  apply (calm_cas_event _ _ o); [done|done|done|]. split; [by rewrite Hvn|]. left. by rewrite Hen, He.
Qed.
Lemma with_event_generated event event' target info old :
  word32 event' -> generated event target (info, old) -> generated event' target (with_event event' info, old).
Proof.
  intros He' (o & Ho & Hold & [H1 H2 H3 H4 H5 H6 H7] & Hv & He & Ht & Hk). simpl in *. exists o.
  by split_and!.
Qed.
Lemma events_word : Forall word32 [JOIN_EVENT; LEAVE_EVENT; LINK_DOWN_EVENT; UPDATE_EVENT; NULL_EVNET; STOP_EVENT].
Proof. repeat constructor; vm_compute; discriminate || reflexivity. Qed.

(** *** Old events, broken links *)
Ltac rd := apply (calm_reads _ any); intros; exact I.
Ltac md := apply calm_modify; intros; other.
Lemma calm_TryRemovePrefixKey r : calm any (TryRemovePrefixKey r).
Proof.
  unfold TryRemovePrefixKey. bind; [rd|]. destruct (negb _); [done|].
  bind; [apply calm_store, exchange_key_other|]. destruct (_ =? _); [|done]. bind; [|done].
  apply calm_modify. intros s Hs. destruct (r =? self s); other.
Qed.
Lemma calm_TryCleanOldEvent : calm any TryCleanOldEvent.
Proof.
  unfold TryCleanOldEvent. bind; [apply calm_asks|].
  eapply calm_bind with (Q := fun snap => info_wf snap.2); [apply calm_reads; intros s Hs; by apply Hs|].
  intros [last oldInfo] Hold. simpl in Hold. destruct (negb _); [done|]. bind; [rd|].
  eapply calm_bind with (Q := any).
  { destruct a0; [done|]. destruct (_ <? _); [|done]. bind; [apply calm_asks|done]. }
  intros go _. destruct (negb go); [done|].
  eapply calm_bind; [apply calm_GenerateInfo; [apply (bool_decide_unpack _); vm_compute; exact I|by apply Hold]|].
  intros [info old] Hgen. destruct (negb _); [done|]. bind; [|done].
  destruct (curEvent oldInfo =? JOIN_EVENT); [by eapply step_removed; [exact Hgen|auto]|by eapply step_kept; [exact Hgen|auto]].
Qed.
Lemma calm_finish_event old info : calm any (cas_event old info) -> calm any (finish_event old info).
Proof. intros H. unfold finish_event. bind; [done|]. bind; [|done]. destruct (_ =? _); [md|done]. Qed.
Lemma calm_wait_local : calm any wait_local.
Proof. intros s Hs. split; [other|done]. Qed.
Lemma calm_wait_link_op : calm any wait_link_op.
Proof. intros s Hs. split; [other|done]. Qed.
Lemma event_word event : event ∈ [JOIN_EVENT; LEAVE_EVENT; LINK_DOWN_EVENT; UPDATE_EVENT; NULL_EVNET; STOP_EVENT] -> word32 event.
Proof. intros H. by eapply Forall_forall in H; [|apply events_word]. Qed.
Ltac word := apply event_word; set_solver.
Lemma calm_TestBitmapForRank r : calm any (TestBitmapForRank r).
Proof. rd. Qed.
Lemma calm_DoLinkDownOnce r : word32 r -> calm any (DoLinkDownOnce r).
Proof.
  intros Hr. unfold DoLinkDownOnce. bind; [apply calm_TestBitmapForRank|]. destruct (negb _); [done|].
  eapply calm_bind; [by apply calm_GenerateInfo; [word|]|]. intros [info old] Hgen.
  destruct (negb _); [bind; [apply calm_TryCleanOldEvent|done]|].
  bind; [by eapply step_removed; [exact Hgen|auto]|]. destruct (_ =? _); [done|]. destruct (negb _); [done|].
  bind; [md|]. bind; [md|]. bind; [apply calm_TryRemovePrefixKey|]. bind; [apply calm_wait_link_op|].
  eapply calm_bind; [by apply calm_GenerateInfo; [word|]|]. intros [info' old'] Hgen'.
  bind; [|done]. by apply calm_finish_event; eapply step_kept; [exact Hgen'|auto].
Qed.
Lemma calm_RankLinkDownEventProcess fuel r : word32 r -> calm any (RankLinkDownEventProcess fuel r).
Proof.
  intros Hr. induction fuel as [|fuel IH]; [done|]. cbn [RankLinkDownEventProcess]. bind; [by apply calm_DoLinkDownOnce|].
  by destruct (_ =? _).
Qed.
Lemma calm_each_rank fuel ranks : Forall word32 ranks -> calm any (each_rank fuel ranks).
Proof. induction 1 as [|r ranks Hr _ IH]; [done|]. cbn [each_rank]. by bind; [apply calm_RankLinkDownEventProcess|]. Qed.

(** *** Adopting information *)
Definition clean_plain (e : SmemNetGroupEngine) : Prop := Forall (fun key : bytes => 95 ∈ key) (delayCleanKeyList_ e).
Lemma queue_round_plain prefix add wait sn e :
  95 ∈ add -> 95 ∈ wait -> clean_plain e -> clean_plain (queue_round prefix add wait sn e).
Proof.
  intros Ha Hw He. unfold queue_round, queue_keys, clean_plain. simpl.
  rewrite !Forall_app. split_and!; [done|..]; apply Forall_fmap, Forall_true; intros i; simpl; set_solver.
Qed.
Lemma queue_users_plain add wait sns e :
  95 ∈ add -> 95 ∈ wait -> clean_plain e ->
  clean_plain (foldl (fun e '(key, sn) => queue_round (key ++ lit "_") add wait sn e) e sns).
Proof.
  intros Ha Hw. revert e. induction sns as [|[key sn] sns IH]; intros e He; [done|]. by apply IH, queue_round_plain.
Qed.
Lemma queue_users_option add wait (sns : list (bytes * Z)) e :
  option_ (foldl (fun e '(key, sn) => queue_round (key ++ lit "_") add wait sn e) e sns) = option_ e.
Proof. revert e. induction sns as [|[key sn] sns IH]; intros e; [done|]. simpl. by rewrite IH. Qed.
Lemma GroupSnClean_plain e : clean_plain e -> clean_plain (GroupSnClean e) /\ option_ (GroupSnClean e) = option_ e.
Proof.
  intros He. unfold GroupSnClean. split.
  - change (clean_plain (clear_user_sns ?x)) with (clean_plain x).
    repeat first [apply queue_users_plain|apply queue_round_plain]; try (by apply (bool_decide_unpack _)). done.
  - change (option_ (clear_user_sns ?x)) with (option_ x). by rewrite !queue_users_option.
Qed.
Lemma calm_TryUpdateInfo info : info_wf info -> calm any (TryUpdateInfo info).
Proof.
  intros Hi. unfold TryUpdateInfo. bind; [apply calm_asks|]. intros s Hs. split; [|done].
  destruct (Z.ltb_spec (version (info_of s)) (version info)) as [Hlt|]; [|other].
  destruct (GroupSnClean_plain (eng s) (dw_clean _ Hs)) as [Hp Ho].
  split; [|change (version (info_of s) <= version info); lia].
  split; unfold info_of, self; cbn [eng set_last_update set_eng adopt_info option_ groupInfo_ eventCtx_ linkCtx_ delayCleanKeyList_];
    [done|apply Hs|apply Hs|rewrite Ho; apply Hs|done].
Qed.

(** *** Events *)
Lemma calm_run_callback q : calm any (run_callback q).
Proof.
  unfold run_callback. bind; [rd|]. destruct a; [done|]. bind; [rd|]. destruct a; [done|].
  bind; [apply calm_asks|]. bind; [rd|done].
Qed.
Lemma calm_departure b q target : calm any (departure b q target).
Proof.
  unfold departure. bind; [rd|]. eapply calm_bind with (Q := any).
  { destruct (_ && _); [bind; [apply calm_asks|done]|done]. }
  intros r _. bind; [|done]. apply calm_modify. intros s Hs. destruct (_ && _); other.
Qed.
Lemma calm_event_result i cb : calm any (event_result i cb).
Proof.
  unfold event_result. repeat (destruct (_ =? _) || destruct (_ || _)); try done;
    (bind; [first [rd|apply calm_departure]|]); first [done|destruct a; [apply calm_run_callback|done]].
Qed.
Lemma calm_JoinLeaveEventProcess : calm any JoinLeaveEventProcess.
Proof.
  unfold JoinLeaveEventProcess. bind; [rd|]. destruct a as [i cb]. bind; [apply calm_event_result|].
  destruct a as [ret|]; [|done]. bind; [|done]. apply calm_modify. intros s Hs.
  destruct (_ && _); [|other]. destruct (negb _); other.
Qed.

(** *** Listeners *)
Lemma advances_trans s1 s2 s3 : advances s1 s2 -> advances s2 s3 -> advances s1 s3.
Proof. intros [_ H1] [H2 H3]. split; [done|lia]. Qed.
Lemma advances_count d event s : dyn_wf s -> advances s (count_event d event s).
Proof. intros Hs. unfold count_event. destruct (leaves event); [other|]. destruct (event =? STOP_EVENT); other. Qed.
Lemma calm_process_events ret l redo :
  Forall info_wf l -> calm (fun r => Forall info_wf r.1) (process_events ret l redo).
Proof.
  intros Hl. revert redo. induction Hl as [|info l Hi Hl IH]; intros redo; [by constructor|]. cbn [process_events].
  bind; [by apply calm_TryUpdateInfo|]. eapply calm_bind with (Q := any).
  { destruct (_ || _); [bind; [apply calm_JoinLeaveEventProcess|done]|done]. }
  intros can _. bind; [rd|]. destruct (_ || _); [|by constructor].
  bind; [apply calm_modify; intros; by apply advances_count|]. apply IH.
Qed.
Lemma advances_events s s' :
  eng s' = eng s -> Forall info_wf (ctx_values (eventCtx_ s')) -> linkCtx_ s' = linkCtx_ s -> dyn_wf s -> advances s s'.
Proof.
  intros He Hc Hl [H1 H2 H3 H4 H5]. unfold advances, info_of. rewrite He. split; [|done].
  split; unfold info_of, self in *; rewrite ?He, ?Hl; done.
Qed.
Lemma advances_links s s' :
  eng s' = eng s -> eventCtx_ s' = eventCtx_ s -> Forall word32 (ctx_values (linkCtx_ s')) -> dyn_wf s -> advances s s'.
Proof.
  intros He Hc Hl [H1 H2 H3 H4 H5]. unfold advances, info_of. rewrite He. split; [|done].
  split; unfold info_of, self in *; rewrite ?He, ?Hc; done.
Qed.
Lemma drop_leaves_other l s :
  eng (drop_leaves l s) = eng s /\ eventCtx_ (drop_leaves l s) = eventCtx_ s /\ linkCtx_ (drop_leaves l s) = linkCtx_ s.
Proof.
  revert s. induction l as [|i l IH]; intros s; [done|]. unfold drop_leaves in *. simpl.
  destruct (leaves (curEvent i)); [apply (IH (set_leave _ s))|apply IH].
Qed.
Lemma calm_rewatch q : calm any (rewatch q).
Proof. by intros a. Qed.
Lemma calm_listen_round l redo :
  Forall info_wf l ->
  calm (fun r => match r with Some (l', _) => Forall info_wf l' | None => True end) (listen_round l redo).
Proof.
  intros Hl. unfold listen_round. bind; [rd|]. eapply calm_bind with (Q := any).
  { destruct (_ =? _); [|done]. bind; [md|]. bind; [apply calm_rewatch|]. bind; [md|done]. }
  intros ok _. destruct (negb ok); [done|].
  eapply calm_bind with (Q := fun w => Forall info_wf w.1.2).
  { intros s Hs. split; [|apply Hs]. apply advances_events; [done|constructor|done|done]. }
  intros [[ret values] cRet] Hv. simpl in Hv. assert (Hall : Forall info_wf (l ++ values)) by (by apply Forall_app).
  bind; [rd|]. destruct a0; [done|]. destruct (negb _); [done|]. destruct (negb _).
  - bind; [rd|]. bind; [apply calm_asks|]. bind; [md|]. bind; [|by constructor].
    apply calm_modify. intros s Hs. destruct (drop_leaves_other (l ++ values) s) as (E1 & E2 & E3).
    apply advances_other; congruence || done.
  - eapply calm_bind; [by apply calm_process_events|]. by intros [l' r] Hl'.
Qed.
Lemma calm_GroupListenEvent rounds l redo : Forall info_wf l -> calm any (GroupListenEvent rounds l redo).
Proof.
  revert l redo. induction rounds as [|rounds IH]; intros l redo Hl; [done|]. cbn [GroupListenEvent].
  bind; [rd|]. destruct a; [done|]. eapply calm_bind; [by apply calm_listen_round|]. intros [[l' r]|] Hr; [by apply IH|done].
Qed.
Lemma advances_WatchCb result key value s : Forall byte_ok value -> dyn_wf s -> advances s (GroupWatchCb result key value s).
Proof.
  intros Hb Hs. unfold GroupWatchCb. cbv zeta.
  set (s1 := set_event_ctx _ s). assert (H1 : advances s s1) by (subst s1; other).
  eapply advances_trans; [exact H1|]. destruct (_ && _).
  - eapply advances_trans; [apply (advances_count 1 (curEvent (info_of_bytes value))), H1|].
    apply advances_events; [done| |done|by apply advances_count, H1]. simpl.
    apply Forall_app. split; [by apply (advances_count 1), H1|]. constructor; [by apply info_of_bytes_wf|constructor].
  - destruct H1 as [H1 _]. other.
Qed.
Lemma advances_LinkDownCb r s : word32 r -> dyn_wf s -> advances s (RemoteRankLinkDownCb r s).
Proof.
  intros Hr Hs. apply advances_links; [done|done| |done]. simpl. apply Forall_app. split; [apply Hs|by constructor].
Qed.
Lemma notify_bytes : Forall byte_ok SMEM_GROUP_NOTIFY_EVENT.
Proof. apply Forall_replicate. done. Qed.
Lemma calm_link_round fuel l :
  Forall word32 l -> calm (fun r => match r with Some l' => Forall word32 l' | None => True end) (link_round fuel l).
Proof.
  intros Hl. unfold link_round. bind; [rd|]. eapply calm_bind with (Q := any).
  { destruct (_ =? _); [|done]. bind; [md|]. bind; [apply calm_rewatch|]. bind; [md|done]. }
  intros ok _. destruct (negb ok); [done|].
  eapply calm_bind with (Q := fun w => Forall word32 w.1.2).
  { intros s Hs. split; [|apply Hs]. apply advances_links; [done|done|constructor|done]. }
  intros [[ret values] cRet] Hv. simpl in Hv. assert (Hall : Forall word32 (l ++ values)) by (by apply Forall_app).
  bind; [rd|]. destruct a0; [done|]. destruct (negb _); [done|]. eapply calm_bind with (Q := any).
  - destruct (negb _); [bind; [rd|]; bind; [apply calm_asks|md]|]. bind; [by apply calm_each_rank|].
    destruct (l ++ values); [done|]. apply calm_modify. intros s Hs. apply advances_WatchCb; [apply notify_bytes|done].
  - intros [] _. bind; [md|by constructor].
Qed.
Lemma calm_GroupListenLinkState fuel rounds l : Forall word32 l -> calm any (GroupListenLinkState fuel rounds l).
Proof.
  revert l. induction rounds as [|rounds IH]; intros l Hl; [done|]. cbn [GroupListenLinkState].
  bind; [rd|]. destruct a; [done|]. eapply calm_bind; [by apply calm_link_round|]. intros [l'|] Hr; [by apply IH|done].
Qed.

(** *** Joining, updating, leaving *)
Lemma calm_self : calm word32 (reads self).
Proof. apply calm_reads. intros s Hs. apply Hs. Qed.
Lemma calm_join_loop n : calm any (join_loop n).
Proof.
  induction n as [|n IH]; [done|]. cbn [join_loop]. bind; [apply calm_asks|]. destruct (_ =? _); [done|].
  bind; [rd|]. destruct a0; [done|]. eapply calm_bind; [apply calm_self|]. intros own Hown.
  eapply calm_bind; [by apply calm_GenerateInfo; [word|]|]. intros [info old] Hgen.
  destruct (UpdateBitmapFromRank own info) as [n'|] eqn:Hup; [|by bind; [apply calm_DoLinkDownOnce|]].
  destruct (is_odd _); [|by bind; [apply calm_TryCleanOldEvent|]].
  bind; [by eapply step_added|]. destruct (_ =? _); [|done]. bind; [md|done].
Qed.
Lemma calm_update_loop n : calm any (update_loop n).
Proof.
  induction n as [|n IH]; [done|]. cbn [update_loop]. bind; [rd|]. destruct a; [done|].
  eapply calm_bind; [apply calm_self|]. intros own Hown.
  eapply calm_bind; [by apply calm_GenerateInfo; [word|]|]. intros [info old] Hgen.
  destruct (is_odd _); [|by bind; [apply calm_TryCleanOldEvent|]].
  bind; [by eapply step_kept; [exact Hgen|auto]|]. destruct (_ =? _); [|done]. bind; [md|done].
Qed.
Lemma calm_leave_loop n : calm any (leave_loop n).
Proof.
  induction n as [|n IH]; [done|]. cbn [leave_loop].
  eapply calm_bind; [apply calm_self|]. intros own Hown.
  eapply calm_bind; [by apply calm_GenerateInfo; [word|]|]. intros [info old] Hgen.
  destruct (is_odd _); [|by bind; [apply calm_TryCleanOldEvent|]].
  bind; [by eapply step_removed; [exact Hgen|auto]|]. destruct (_ =? _); [|done]. bind; [md|done].
Qed.
Lemma calm_close_event ret info old joins : calm any (cas_event old info) -> calm any (close_event ret info old joins).
Proof.
  intros H. unfold close_event. bind; [by apply calm_finish_event|]. destruct (_ =? _); [|done].
  bind; [|done]. destruct joins; [md|done].
Qed.
Lemma calm_pre :
  calm (fun pre : bool * bool * Z => word32 pre.2) (reads (fun s => (dynamic (option_ (eng s)), joined_ s, self s))).
Proof. apply calm_reads. intros s Hs. apply Hs. Qed.
Lemma calm_GroupJoin : calm any GroupJoin.
Proof.
  unfold GroupJoin. eapply calm_bind; [apply calm_pre|]. intros [[dyn joined] own] Hown. simpl in Hown.
  destruct (negb dyn); [done|]. destruct joined; [done|].
  bind; [apply calm_TryRemovePrefixKey|]. bind; [md|]. bind; [apply calm_join_loop|]. destruct a1; try done.
  bind; [apply calm_wait_local|]. eapply calm_bind; [by apply calm_GenerateInfo; [word|]|]. intros [info old] Hgen.
  bind; [rd|]. destruct (_ || _); apply calm_close_event.
  - eapply step_removed; [|auto]. by eapply with_event_generated; [word|].
  - by eapply step_kept; [exact Hgen|auto].
Qed.
Lemma calm_GroupUpdate : calm any GroupUpdate.
Proof.
  unfold GroupUpdate. eapply calm_bind; [apply calm_pre|]. intros [[dyn joined] own] Hown. simpl in Hown.
  destruct (negb dyn); [done|]. destruct (negb joined); [done|].
  bind; [md|]. bind; [apply calm_update_loop|]. destruct a0; try done.
  bind; [apply calm_wait_local|]. eapply calm_bind; [by apply calm_GenerateInfo; [word|]|]. intros [info old] Hgen.
  bind; [rd|]. destruct (_ || _); apply calm_close_event.
  - eapply step_kept; [|auto]. by eapply with_event_generated; [word|].
  - by eapply step_kept; [exact Hgen|auto].
Qed.
Lemma calm_group_leave retries : calm any (group_leave retries).
Proof.
  unfold group_leave. eapply calm_bind; [apply calm_pre|]. intros [[dyn joined] own] Hown. simpl in Hown.
  destruct (negb dyn); [done|]. destruct (negb joined); [done|].
  bind; [md|]. bind; [apply calm_leave_loop|]. destruct a0; try done.
  bind; [apply calm_TryRemovePrefixKey|]. bind; [apply calm_wait_local|]. bind; [rd|].
  eapply calm_bind; [by apply calm_GenerateInfo; [word|]|]. intros [info old] Hgen.
  bind; [by apply calm_finish_event; eapply step_kept; [exact Hgen|auto]|]. bind; [md|done].
Qed.

(** *** Reconnecting and exchanging information *)
Lemma calm_LinkReconnectHandler : calm any LinkReconnectHandler.
Proof.
  unfold LinkReconnectHandler. bind; [rd|]. destruct (negb _); [done|]. bind; [rd|]. destruct (negb _); [done|].
  eapply calm_bind with (Q := info_wf).
  { intros s Hs. split; [other|apply Hs]. }
  intros info Hi. bind.
  { apply calm_store. split; [done|]. exists info. auto. }
  destruct (_ && _); [done|]. eapply calm_bind with (Q := any).
  { destruct (is_odd _); [apply calm_TryCleanOldEvent|done]. }
  intros [] _. bind; [rd|]. destruct (negb _); [done|]. bind; [rd|].
  bind; [apply calm_store, exchange_key_other|done].
Qed.
Lemma ranks_word i : Forall word32 (GetAllRanksFromBitMap i).
Proof.
  apply Forall_forall. intros r Hr. unfold GetAllRanksFromBitMap in Hr.
  apply list_elem_of_bind in Hr as (w & Hr & Hw). apply list_elem_of_filter in Hr as [_ Hr].
  apply list_elem_of_fmap in Hr as (j & -> & Hj). apply elem_of_seqZ in Hj, Hw.
  change RANK_BITS_U64_COUNT with 16 in Hw. unfold BITS_COUNT_IN_U64, word32 in *. lia.
Qed.
Lemma calm_remove_leaved ranks count : Forall word32 ranks -> calm any (remove_leaved ranks count).
Proof.
  intros Hr. revert count. induction Hr as [|r ranks Hr _ IH]; intros count; [done|]. cbn [remove_leaved].
  bind; [rd|]. destruct (_ =? _); [apply IH|]. bind; [apply calm_asks|]. destruct (_ && _).
  - bind; [apply calm_TryRemovePrefixKey|]. bind; [|apply IH]. apply calm_modify. intros s Hs. by apply advances_LinkDownCb.
  - bind; [by apply calm_store|apply IH].
Qed.
Lemma calm_get_loop fuel key value waitT queryT : calm any (get_loop fuel key value waitT queryT).
Proof.
  revert value queryT. induction fuel as [|fuel IH]; intros value queryT; [done|]. cbn [get_loop].
  bind; [apply calm_asks|]. destruct (negb _); [done|]. bind; [by apply calm_store|]. bind; [rd|]. destruct a1; [done|].
  bind; [rd|]. destruct a1; [done|]. destruct (_ && _); [done|]. destruct (_ =? _); [done|].
  destruct (_ <? _); [|apply IH]. unfold TryRemoveAllLeavedPrefixKey.
  eapply calm_bind with (Q := any).
  { eapply calm_bind with (Q := Forall word32); [apply calm_reads; intros; apply ranks_word|].
    intros ranks Hranks. by apply calm_remove_leaved. }
  intros num _. destruct (_ <? _); [done|apply IH].
Qed.
Lemma calm_StoreGetCanInterrupt fuel key timeout : calm any (StoreGetCanInterrupt fuel key timeout).
Proof. unfold StoreGetCanInterrupt. bind; [apply calm_asks|]. apply calm_get_loop. Qed.

(** *** Collective operations *)
Lemma calm_lift_removes {A} (Q : A -> Prop) (p : prog A) :
  removes (fun key : bytes => 95 ∈ key) Q p -> calm Q (lift p).
Proof.
  intros Hp. induction p as [a|[] k IH]; simpl in *; try done. destruct Hp as [Hk Hp].
  split; [by apply event_key_plain|auto].
Qed.
Lemma calm_clean_shared first sn prefix add wait :
  95 ∈ add -> 95 ∈ wait -> calm any (clean_shared first sn prefix add wait).
Proof.
  intros Ha Hw. unfold clean_shared. eapply calm_bind with (Q := clean_plain); [apply calm_reads; intros s Hs; apply Hs|].
  intros e He. eapply calm_bind.
  { apply calm_lift_removes, clean_round_removes.
    - intros key Hk. by eapply Forall_forall in He.
    - intros _. set_solver. }
  intros e' He'. apply calm_modify. intros s [H1 H2 H3 H4 H5]. split; [|done].
  split; try done. apply Forall_forall. intros key Hk. by apply He'.
Qed.
Lemma calm_lift_status b key : key <> SMEM_GROUP_LISTEN_EVENT_KEY -> calm any (lift (set_status b key)).
Proof. intros Hk. by destruct b. Qed.
Lemma round_key_plain (prefix num suffix : bytes) : 95 ∈ suffix -> prefix ++ num ++ suffix <> SMEM_GROUP_LISTEN_EVENT_KEY.
Proof. intros H. apply event_key_plain. set_solver. Qed.
Ltac plain := apply (bool_decide_unpack _); vm_compute; exact I.
Lemma advances_bump f s :
  (forall e, groupInfo_ (f e) = groupInfo_ e /\ option_ (f e) = option_ e /\ delayCleanKeyList_ (f e) = delayCleanKeyList_ e) ->
  dyn_wf s -> advances s (set_eng (f (eng s)) s).
Proof.
  intros Hf [H1 H2 H3 H4 H5]. destruct (Hf (eng s)) as (E1 & E2 & E3). unfold advances, info_of, self in *. simpl.
  rewrite E1. split; [|done]. split; unfold info_of, self; simpl; rewrite ?E1, ?E2, ?E3; done.
Qed.
Lemma calm_GroupGatherResult fuel localRet totalRet : calm any (GroupGatherResult fuel localRet totalRet).
Proof.
  unfold GroupGatherResult. eapply calm_bind with (Q := any); [by intros s Hs; split; [apply advances_bump|]|].
  intros [[[size prefix] sn] timeout] _. bind; [apply calm_store, round_key_plain; plain|].
  destruct (negb _); [done|]. bind; [apply calm_clean_shared; plain|].
  bind; [apply calm_lift_status, round_key_plain; plain|]. destruct (negb _); [done|].
  bind; [apply calm_StoreGetCanInterrupt|]. destruct a2 as [[ret v]|]; [|done]. destruct (negb _); [done|].
  destruct (negb _); [done|]. bind; [by apply calm_store|]. by destruct (_ || _).
Qed.
Lemma calm_GroupBarrierPrefixKey fuel r update : calm any (GroupBarrierPrefixKey fuel r update).
Proof.
  unfold GroupBarrierPrefixKey. bind; [rd|]. destruct (negb _); [done|].
  eapply calm_bind with (Q := any); [by intros s Hs; split; [apply advances_bump|]|].
  intros [[[own prefix] sn] timeout] _. destruct (_ =? _).
  - bind; [apply calm_clean_shared; plain|]. bind; [apply calm_store, exchange_key_other|]. destruct (negb _); [done|].
    bind; [md|]. bind; [apply calm_store, round_key_plain; plain|done].
  - bind; [apply calm_StoreGetCanInterrupt|]. destruct a0 as [[ret v]|]; [|done]. destruct (negb _); [done|].
    bind; [by apply calm_store|]. by destruct (negb _).
Qed.
Lemma calm_collect_keys prefix vals m : calm any (collect_keys prefix vals m).
Proof.
  revert m. induction vals as [|[key v] vals IH]; intros m; [done|]. cbn [collect_keys]. destruct (negb _); [done|].
  destruct (key_rank key) as [rk|]; [|done]. bind; [apply calm_TestBitmapForRank|]. destruct a; [apply IH|].
  bind; [apply calm_TryRemovePrefixKey|apply IH].
Qed.
Lemma calm_GroupGatherPrefixKey fuel cp r update m : calm any (GroupGatherPrefixKey fuel cp r update m).
Proof.
  unfold GroupGatherPrefixKey. bind; [rd|]. destruct a as [[dyn own] timeout]. destruct (negb dyn); [done|]. destruct (_ =? _).
  - bind; [apply calm_store, exchange_key_other|]. destruct (negb _); [done|]. bind; [md|].
    eapply calm_bind with (Q := any); [by intros v|]. intros v _. destruct (negb _); [done|].
    bind; [apply calm_collect_keys|]. destruct a1 as [ok m']. destruct (negb ok); [done|]. bind; [rd|done].
  - bind; [apply calm_StoreGetCanInterrupt|]. destruct a as [[ret v]|]; [|done]. by destruct (negb _).
Qed.
Lemma calm_GroupBroadcastExit status : calm any (GroupBroadcastExit status).
Proof.
  unfold GroupBroadcastExit. bind; [rd|]. destruct a; [done|]. by bind; [apply calm_store|].
Qed.

(** ** Processes, threads and the store *)
Definition thread := gprog unit.
Definition run_op {A} (p : gprog A) : thread := gbind (fun _ => GRet tt) p.
(** The operations of the engine a thread may run. *)
Inductive operation : thread -> Prop :=
| op_join : operation (run_op GroupJoin)
| op_update : operation (run_op GroupUpdate)
| op_leave : operation (run_op GroupLeave)
| op_listen rounds : operation (run_op (GroupListenEvent rounds [] false))
| op_links fuel rounds : operation (run_op (GroupListenLinkState fuel rounds []))
| op_reconnect : operation (run_op LinkReconnectHandler)
| op_gather_result fuel localRet totalRet : operation (run_op (GroupGatherResult fuel localRet totalRet))
| op_barrier_key fuel r update : operation (run_op (GroupBarrierPrefixKey fuel r update))
| op_gather_key fuel cp r update m : operation (run_op (GroupGatherPrefixKey fuel cp r update m))
| op_remove_key r : operation (run_op (TryRemovePrefixKey r))
| op_exit status : operation (run_op (GroupBroadcastExit status)).

Record process := mkProc { p_group : DynGroup; p_threads : list thread }.
Definition system : Type := kv * list process.
Definition set_thread (i j : nat) (s : DynGroup) (t : thread) (sys : list process) : list process :=
  alter (fun p => mkProc s (<[j := t]> (p_threads p))) i sys.
Definition at_thread (sys : list process) (i j : nat) (s : DynGroup) (t : thread) : Prop :=
  exists p, sys !! i = Some p /\ p_group p = s /\ p_threads p !! j = Some t.
(** One step: of a thread, of a notification, the start of an operation, or of other users
    of the store, who leave the event key alone or lose it. *)
Inductive gstep : system -> system -> Prop :=
| g_state m sys i j s upd k :
    at_thread sys i j s (GState upd k) -> gstep (m, sys) (m, set_thread i j (upd s) (k s) sys)
| g_store m sys i j s op k :
    at_thread sys i j s (GStore op k) -> gstep (m, sys) ((kv_step op m).2, set_thread i j s (k (kv_step op m).1) sys)
| g_store_fail m m' sys i j s op k a :
    at_thread sys i j s (GStore op k) -> a_ret a <> SM_OK -> m' = m \/ m' = (kv_step op m).2 ->
    gstep (m, sys) (m', set_thread i j s (k a) sys)
| g_prefix m sys i j s key k a :
    at_thread sys i j s (GPrefixGet key k) -> gstep (m, sys) (m, set_thread i j s (k a) sys)
| g_ask m sys i j s q k a :
    at_thread sys i j s (GAsk q k) -> gstep (m, sys) (m, set_thread i j s (k a) sys)
| g_watch m sys i p result key value :
    sys !! i = Some p -> Forall byte_ok value ->
    gstep (m, sys) (m, <[i := mkProc (GroupWatchCb result key value (p_group p)) (p_threads p)]> sys)
| g_down m sys i p r :
    sys !! i = Some p -> 0 <= r < 2 ^ 32 ->
    gstep (m, sys) (m, <[i := mkProc (RemoteRankLinkDownCb r (p_group p)) (p_threads p)]> sys)
| g_start m sys i p t :
    sys !! i = Some p -> operation t -> gstep (m, sys) (m, <[i := mkProc (p_group p) (p_threads p ++ [t])]> sys)
| g_env m m' sys :
    m' !! SMEM_GROUP_LISTEN_EVENT_KEY = m !! SMEM_GROUP_LISTEN_EVENT_KEY \/ m' !! SMEM_GROUP_LISTEN_EVENT_KEY = None ->
    gstep (m, sys) (m', sys).

(** ** The invariant of the system *)
Definition proc_ok (p : process) : Prop := dyn_wf (p_group p) /\ Forall (calm any) (p_threads p).
Definition event_ok (m : kv) : Prop :=
  forall b, m !! SMEM_GROUP_LISTEN_EVENT_KEY = Some b -> exists i, info_wf i /\ b = info_bytes i.
(** The stored information is unchanged, gone, new, or replaced by its successor. *)
Definition event_moves (m m' : kv) : Prop :=
  forall o n, m !! SMEM_GROUP_LISTEN_EVENT_KEY = Some o -> m' !! SMEM_GROUP_LISTEN_EVENT_KEY = Some n -> n <> o ->
    event_step (info_of_bytes o) (info_of_bytes n).
Definition forward (procs procs' : list process) : Prop :=
  forall i p, procs !! i = Some p -> exists p', procs' !! i = Some p' /\ version (info_of (p_group p)) <= version (info_of (p_group p')).

Lemma calm_run_op {A} (p : gprog A) : calm any p -> calm any (run_op p).
Proof. intros H. by eapply calm_bind. Qed.
Lemma operation_calm t : operation t -> calm any t.
Proof.
  intros []; apply calm_run_op.
  - apply calm_GroupJoin.
  - apply calm_GroupUpdate.
  - apply calm_group_leave.
  - by apply calm_GroupListenEvent.
  - by apply calm_GroupListenLinkState.
  - apply calm_LinkReconnectHandler.
  - apply calm_GroupGatherResult.
  - apply calm_GroupBarrierPrefixKey.
  - apply calm_GroupGatherPrefixKey.
  - apply calm_TryRemovePrefixKey.
  - apply calm_GroupBroadcastExit.
Qed.
Lemma info_bytes_ne i : info_bytes i <> [].
Proof.
  unfold info_bytes. rewrite fmap_cons. cbn [concat]. intros He. apply app_eq_nil in He as [He _].
  apply app_eq_nil in He as [He _]. pose proof (blen_word 4 (version i) ltac:(lia)) as H. by rewrite He in H.
Qed.
Lemma same_event m m' :
  m' !! SMEM_GROUP_LISTEN_EVENT_KEY = m !! SMEM_GROUP_LISTEN_EVENT_KEY -> event_ok m -> event_ok m' /\ event_moves m m'.
Proof. intros He Hm. split; [by unfold event_ok; rewrite He|]. intros o n Ho Hn. congruence. Qed.
Lemma quiet_step op m : quiet op -> event_ok m -> event_ok (kv_step op m).2 /\ event_moves m (kv_step op m).2.
Proof.
  intros Hq Hm.
  destruct op as [key v|key t|key i|key|key v|key old val]; simpl in Hq;
    try (by apply same_event; [apply kv_step_other|]).
  - apply same_event; [|done]. simpl. by destruct (m !! key).
  - destruct Hq as (-> & n & Hn & -> & Hold). cbn [kv_step].
    destruct (m !! SMEM_GROUP_LISTEN_EVENT_KEY) as [cur|] eqn:Hc; [destruct (decide (old = cur)) as [->|]|]; cbn [fst snd].
    + split; [intros b; rewrite lookup_insert_eq; intros [= <-]; eauto|].
      intros o n' Ho. rewrite lookup_insert_eq. intros [= <-] Hne. rewrite Hc in Ho. injection Ho as ->.
      destruct Hold as [->|(io & Hio & -> & Hstep)]; [|by rewrite !info_roundtrip].
      destruct (Hm _ Hc) as (i & _ & Hb). by destruct (info_bytes_ne i).
    + by apply same_event.
    + split; [intros b; rewrite lookup_insert_eq; intros [= <-]; eauto|]. intros o n' Ho. congruence.
Qed.

Lemma at_thread_ok procs i j s t :
  Forall proc_ok procs -> at_thread procs i j s t -> dyn_wf s /\ calm any t.
Proof.
  intros Hall (p & Hp & <- & Ht). eapply Forall_lookup_1 in Hp; [|done]. destruct Hp as [Hw Hth].
  split; [done|]. by eapply Forall_lookup_1 in Ht.
Qed.
Lemma set_thread_ok procs i j s s' t t' :
  Forall proc_ok procs -> at_thread procs i j s t -> advances s s' -> calm any t' ->
  Forall proc_ok (set_thread i j s' t' procs) /\ forward procs (set_thread i j s' t' procs).
Proof.
  intros Hall (p & Hp & <- & Ht) [Hw Hv] Hc. split.
  - apply Forall_alter; [done|]. intros q Hq [_ Hth]. split; [done|]. by apply Forall_insert.
  - intros k q Hq. unfold set_thread. destruct (decide (i = k)) as [->|Hne].
    + rewrite list_lookup_alter_eq, Hq. eexists. split; [done|]. simpl. congruence.
    + rewrite list_lookup_alter_ne by done. by exists q.
Qed.
Lemma set_proc_ok procs i p p' :
  Forall proc_ok procs -> procs !! i = Some p -> proc_ok p' -> version (info_of (p_group p)) <= version (info_of (p_group p')) ->
  Forall proc_ok (<[i := p']> procs) /\ forward procs (<[i := p']> procs).
Proof.
  intros Hall Hp Hok Hv. split; [by apply Forall_insert|]. intros k q Hq. destruct (decide (i = k)) as [->|Hne].
  - rewrite list_lookup_insert_eq by (by eapply lookup_lt_Some). eexists. split; [done|]. congruence.
  - rewrite list_lookup_insert_ne by done. by exists q.
Qed.
Lemma forward_refl procs : forward procs procs.
Proof. intros i p Hp. by exists p. Qed.

Definition sys_ok (w : system) : Prop := event_ok w.1 /\ Forall proc_ok w.2.
Lemma gstep_ok w w' :
  sys_ok w -> gstep w w' -> sys_ok w' /\ event_moves w.1 w'.1 /\ forward w.2 w'.2.
Proof.
  intros [Hm Hp] Hstep. unfold sys_ok.
  destruct Hstep as [m sys i j s upd k Ht|m sys i j s op k Ht|m m' sys i j s op k a Ht Hr Hm'|m sys i j s key k a Ht
    |m sys i j s q k a Ht|m sys i p result key value Hi Hb|m sys i p r Hi Hr|m sys i p t Hi Hop|m m' sys He]; simpl in *.
  - destruct (at_thread_ok _ _ _ _ _ Hp Ht) as [Hs Hc]. destruct (Hc s Hs) as [Ha Hk].
    destruct (set_thread_ok _ _ _ _ _ _ _ Hp Ht Ha Hk). destruct (same_event m m eq_refl Hm). auto.
  - destruct (at_thread_ok _ _ _ _ _ Hp Ht) as [Hs [Hq Hk]]. destruct (quiet_step op m Hq Hm).
    destruct (set_thread_ok _ _ _ _ _ _ _ Hp Ht (advances_refl s Hs) (Hk (kv_step op m).1)). auto.
  - destruct (at_thread_ok _ _ _ _ _ Hp Ht) as [Hs [Hq Hk]]. destruct (quiet_step op m Hq Hm).
    destruct (same_event m m eq_refl Hm).
    destruct (set_thread_ok _ _ _ _ _ _ _ Hp Ht (advances_refl s Hs) (Hk a)). destruct Hm' as [-> | ->]; auto.
  - destruct (at_thread_ok _ _ _ _ _ Hp Ht) as [Hs Hk]. destruct (same_event m m eq_refl Hm).
    destruct (set_thread_ok _ _ _ _ _ _ _ Hp Ht (advances_refl s Hs) (Hk a)). auto.
  - destruct (at_thread_ok _ _ _ _ _ Hp Ht) as [Hs Hk]. destruct (same_event m m eq_refl Hm).
    destruct (set_thread_ok _ _ _ _ _ _ _ Hp Ht (advances_refl s Hs) (Hk a)). auto.
  - destruct (same_event m m eq_refl Hm). destruct (proj1 (Forall_lookup _ _) Hp i p Hi) as [Hw Hth].
    destruct (advances_WatchCb result key value _ Hb Hw) as [Hw' Hv].
    destruct (set_proc_ok sys i p (mkProc (GroupWatchCb result key value (p_group p)) (p_threads p)) Hp Hi); [by split|done|]. auto.
  - destruct (same_event m m eq_refl Hm). destruct (proj1 (Forall_lookup _ _) Hp i p Hi) as [Hw Hth].
    destruct (advances_LinkDownCb r _ Hr Hw) as [Hw' Hv].
    destruct (set_proc_ok sys i p (mkProc (RemoteRankLinkDownCb r (p_group p)) (p_threads p)) Hp Hi); [by split|done|]. auto.
  - destruct (same_event m m eq_refl Hm). destruct (proj1 (Forall_lookup _ _) Hp i p Hi) as [Hw Hth].
    destruct (set_proc_ok sys i p (mkProc (p_group p) (p_threads p ++ [t])) Hp Hi); [|done|by auto].
    split; [done|]. apply Forall_app. split; [done|]. constructor; [by apply operation_calm|constructor].
  - split; [|split; [|apply forward_refl]].
    + split; [|done]. destruct He as [He|He]; [by eapply same_event|]. intros b. congruence.
    + destruct He as [He|He]; [by eapply same_event|]. intros o n _. congruence.
Qed.
Lemma grun_ok w w' : sys_ok w -> rtc gstep w w' -> sys_ok w'.
Proof. intros Hok Hrun. induction Hrun as [|w1 w2 w3 Hstep _ IH]; [done|]. by apply IH, (gstep_ok w1). Qed.
Lemma new_group_wf size o cb : word32 size -> word32 (rank o) -> dyn_wf (new_group size o cb).
Proof.
  intros Hs Hr. split; [|constructor|constructor|done|constructor]. unfold info_of, new_group.
  cbn [eng groupInfo_]. split; cbn [version info_size curEvent targetRank submitRank joinedRanksBitmap]; try done.
  - by destruct (dynamic o).
  - apply Forall_replicate. done.
Qed.
Lemma start_ok (m : kv) (options : list (Z * SmemGroupOption * Callbacks)) :
  m !! SMEM_GROUP_LISTEN_EVENT_KEY = None ->
  Forall (fun o => word32 o.1.1 /\ word32 (rank o.1.2)) options ->
  sys_ok (m, (fun o => mkProc (new_group o.1.1 o.1.2 o.2) []) <$> options).
Proof.
  intros Hm Ho. split; [intros b; simpl; congruence|]. apply Forall_fmap. eapply Forall_impl; [exact Ho|].
  intros o [H1 H2]. split; [by apply new_group_wf|constructor].
Qed.

(** ** The ranks of a bitmap *)
Lemma ranks_filter i :
  GetAllRanksFromBitMap i = filter (fun r => Z.land (Z.shiftr (word_of i r) (r mod BITS_COUNT_IN_U64)) 1 <> 0) (seqZ 0 MAX_RANK_COUNT).
Proof.
  unfold GetAllRanksFromBitMap.
  assert (Hf : forall l : list Z, (l ≫= fun w => filter (fun r => Z.land (Z.shiftr (word_of i r) (r mod BITS_COUNT_IN_U64)) 1 <> 0)
      ((fun j => w * BITS_COUNT_IN_U64 + j) <$> seqZ 0 BITS_COUNT_IN_U64)) =
    filter (fun r => Z.land (Z.shiftr (word_of i r) (r mod BITS_COUNT_IN_U64)) 1 <> 0)
      (l ≫= fun w => (fun j => w * BITS_COUNT_IN_U64 + j) <$> seqZ 0 BITS_COUNT_IN_U64)).
  { induction l as [|w l IH]; [done|]. rewrite !bind_cons, IH. by rewrite filter_app. }
  by rewrite Hf.
Qed.
Lemma elem_of_ranks i r : r ∈ GetAllRanksFromBitMap i <-> 0 <= r /\ member i r.
Proof.
  rewrite ranks_filter, list_elem_of_filter, elem_of_seqZ.
  assert (Hbit : 0 <= r -> Z.land (Z.shiftr (word_of i r) (r mod BITS_COUNT_IN_U64)) 1 <> 0 <->
    Z.testbit (word_of i r) (r mod BITS_COUNT_IN_U64) = true).
  { intros Hr. change 1 with (Z.shiftl 1 0). rewrite <- Z.eqb_neq, mask_clear by lia. rewrite negb_false_iff, Z.shiftr_spec by lia. done. }
  split.
  - intros [Hw [Hr Hlt]]. split; [done|]. apply member_testbit; [done|]. split; [lia|]. by apply Hbit.
  - intros [Hr Hmem]. apply member_testbit in Hmem as [Hlt Hb]; [|done]. split; [by apply Hbit|lia].
Qed.
Lemma ranks_NoDup i : NoDup (GetAllRanksFromBitMap i).
Proof. rewrite ranks_filter. apply NoDup_filter, NoDup_seqZ. Qed.

Lemma ranks_add i n r :
  0 <= r -> ~ member i r -> (forall x, 0 <= x -> member n x <-> member i x \/ x = r) ->
  GetAllRanksFromBitMap n ≡ₚ r :: GetAllRanksFromBitMap i.
Proof.
  intros Hr Hno Hmem. apply NoDup_Permutation; [apply ranks_NoDup|constructor; [|apply ranks_NoDup]|].
  - by rewrite elem_of_ranks; intros [_ ?].
  - intros x. rewrite elem_of_cons, !elem_of_ranks. split.
    + intros [Hx Hm]. apply Hmem in Hm; naive_solver.
    + intros [->|[Hx Hm]]; (split; [done|]); apply Hmem; auto.
Qed.
Lemma ranks_same i n : (forall x, 0 <= x -> member n x <-> member i x) -> GetAllRanksFromBitMap n ≡ₚ GetAllRanksFromBitMap i.
Proof.
  intros H. apply NoDup_Permutation; [apply ranks_NoDup..|]. intros x. rewrite !elem_of_ranks. naive_solver.
Qed.
Lemma clear_size r i : r < MAX_RANK_COUNT -> info_size (ClearBitmapForRank r i) = u32 (info_size i - 1).
Proof. intros Hr. unfold ClearBitmapForRank. by rewrite (proj2 (Z.leb_gt _ _) Hr). Qed.

(** ** What the listener does with failed and dropped events *)
Fixpoint returns {A} (Q : A -> Prop) (p : gprog A) : Prop :=
  match p with
  | GRet a => Q a
  | GState _ k => forall s, returns Q (k s)
  | GStore _ k => forall a, returns Q (k a)
  | GPrefixGet _ k => forall a, returns Q (k a)
  | GAsk _ k => forall a, returns Q (k a)
  end.
Lemma returns_bind {A C} (Q : A -> Prop) (Q' : C -> Prop) f p :
  returns Q p -> (forall a, Q a -> returns Q' (f a)) -> returns Q' (gbind f p).
Proof. intros Hp Hf. induction p; simpl in *; auto. Qed.
Lemma returns_any {A} (p : gprog A) : returns any p.
Proof. induction p; simpl; auto. done. Qed.
(** The result of the wait, not of the event, decides whether an event is kept, so every
    event is dropped, the failed ones too. *)
Lemma failed_events_dropped l redo : returns (fun r => r.1 = []) (process_events SM_OK l redo).
Proof.
  revert redo. induction l as [|info l IH]; intros redo; [done|]. cbn [process_events].
  eapply returns_bind; [apply returns_any|]. intros updated _. eapply returns_bind with (Q := fun can => can = true).
  { destruct (_ || _); [|done]. eapply returns_bind; [apply returns_any|done]. }
  intros can ->. eapply returns_bind; [apply returns_any|]. intros leave _.
  eapply returns_bind; [apply returns_any|]. intros [] _. apply IH.
Qed.
(** When a watch fails, a STOP event that is dropped stays counted. *)
Lemma dropped_stop_counted info s :
  curEvent info = STOP_EVENT -> currentStopCount_ (drop_leaves [info] (count_event 1 (curEvent info) s)) = u32 (currentStopCount_ s + 1).
Proof. intros He. unfold drop_leaves, count_event. simpl. by rewrite He. Qed.
