(* ===== verification/Host.v ===== *)
(** * Host: the process environment and the operator library

    What the offload entries reach outside their own files: the operating system, the
    hybrid-memory library ([hybm_*]), the shared-memory library ([smem]) and the dynamic
    loader.  Each call is an event of a trace; its result is a parameter that may depend
    on the trace so far.  On top of it: the path helpers of [mf_file_util.h] and
    [AccOffloadLaunchApi] of [launch/acc_offload_launch.{h,cpp}]. *)
From stdpp Require Import strings pretty.
From S2P Require Import Prelude.

Definition OFFLOAD_OK : Z := 0.
Definition OFFLOAD_ERROR : Z := -1.
Definition OFFLOAD_UNLOAD : Z := -2.
Definition OFFLOAD_FUNCTION_FAILED : Z := -3.

(** The options [AccOffloadLocalDramEntry::Initialize] fills in. *)
Record hybm_options := {
  opt_rankCount : Z; opt_rankId : Z; opt_devId : Z; opt_maxDRAMSize : Z; opt_hostVASpace : Z;
  opt_flags : Z; opt_dramShmFd : Z;
}.

(** The options [AccOffloadSharedDramEntry::Initialize] fills in. *)
Record smem_bm_create_option_t := {
  bm_maxDramSize : Z; bm_localDRAMSize : Z; bm_maxHbmSize : Z; bm_localHBMSize : Z;
  bm_flags : Z; bm_dramShmFd : Z;
}.

Inductive event :=
  | EvHybmInit (deviceId flags ret : Z)
  | EvHybmUninit
  | EvCreateEntity (entity : Z)
  | EvDestroyEntity (entity : Z)
  | EvReserve (entity : Z)
  | EvUnreserve (entity : Z)
  | EvAllocSlice (entity slice : Z)
  | EvFreeSlice (entity slice : Z)
  | EvDlopen (handle : Z)
  | EvDlclose (handle : Z)
  | EvCreateStore (url : string)
  | EvDestroyStore (url : string)
  | EvBmCreate (bm : Z)
  | EvBmInit (bm : Z)
  | EvBmJoin (bm : Z)
  | EvBmUninit (bm : Z)
  | EvLaunch (function : Z).

#[global] Instance event_eq_dec : EqDecision event.
Proof. solve_decision. Defined.

Definition history : Type := list event.

(** Results of the calls; handles and pointers are integers, [nullptr] is 0. *)
Class Env := {
  getenv : string -> option string;
  realpath : string -> option string;
  access_ok : string -> bool;
  lstat_isdir : string -> bool;
  dlopen : history -> string -> Z;
  dlsym : Z -> string -> Z;
  hybm_init : history -> Z -> Z -> Z;
  hybm_create_entity : history -> Z -> hybm_options -> Z;
  hybm_reserve_mem_space : history -> Z -> Z;
  hybm_alloc_local_memory : history -> Z -> Z -> Z;
  hybm_get_slice_va : history -> Z -> Z -> Z;
  hybm_gva_to_va : history -> Z -> Z * Z;
  ExtractIpPortFromUrl : string -> Z;
  CreateStoreByUrl : history -> string -> Z -> Z -> Z -> Z;
  MakeBmEntry : history -> Z -> Z -> Z;
  SmemBmEntryInitWithOptions : history -> Z -> smem_bm_create_option_t -> string -> Z;
  BmJoin : history -> Z -> Z;
  BmGetHostGvaAddress : history -> Z -> Z;
  BmMaxDRAMSize : history -> Z -> Z;
}.

(** ** [mf_file_util.h] *)
Section files.
Context {E : Env}.
Definition PATH_MAX_LIMIT : Z := 4096.

Definition Realpath (path : string) : option string :=
  if (String.length path =? 0)%nat || (PATH_MAX_LIMIT <? Z.of_nat (String.length path)) then None
  else realpath path.

Definition ends_with_slash (s : string) : bool :=
  match String.get (String.length s - 1) s with Some c => String.eqb (String c EmptyString) "/" | None => false end.

Definition LibraryRealPath (libDirPath libName : string) : option string :=
  match Realpath libDirPath with
  | None => None
  | Some tmpFullPath =>
      let dir := if ends_with_slash tmpFullPath then tmpFullPath else tmpFullPath +:+ "/" in
      let full := dir +:+ libName in
      if access_ok full then Some full else None
  end.
End files.

(** ** The process: its trace and the static members of [AccOffloadLaunchApi] *)
Record LaunchApi := mkApi {
  gLoaded : bool; libHandle : Z;
  pAccOffloadSparseCopy : Z; pAccOffloadLruCompact : Z; pAccOffloadComputeLruResidentAddrs : Z;
}.
Definition api_init : LaunchApi := mkApi false 0 0 0 0.

Record Host := mkHost { h_trace : history; h_api : LaunchApi }.
Definition host_init : Host := mkHost [] api_init.

(** State passing over the process. *)
Definition HM (A : Type) : Type := Host -> A * Host.
#[global] Instance HM_ret : MRet HM := fun A a h => (a, h).
#[global] Instance HM_bind : MBind HM := fun A B f m h => let '(a, h) := m h in f a h.

Definition emit (e : event) : HM unit := fun h => (tt, mkHost (h_trace h ++ [e]) (h_api h)).
Definition ask {A} (f : history -> A) : HM A := fun h => (f (h_trace h), h).
Definition get_api : HM LaunchApi := fun h => (h_api h, h).
Definition set_api (a : LaunchApi) : HM unit := fun h => (tt, mkHost (h_trace h) a).

Section api.
Context {E : Env}.
Definition gAccOffloadLibName : string := "libmf_hybm_accoffload.so".

(** The library path, or [None] with a warning. *)
Definition library_path : option string :=
  match getenv "MEMFABRIC_HYBRID_EXTEND_LIB_PATH" with
  | None => None
  | Some path =>
      match Realpath path with
      | None => None
      | Some libPath => if lstat_isdir libPath then LibraryRealPath libPath gAccOffloadLibName else None
      end
  end.

Definition TryLoadLibrary : HM Z :=
  api ← get_api;
  if gLoaded api then mret OFFLOAD_OK
  else match library_path with
       | None => mret OFFLOAD_ERROR
       | Some realPath =>
           handle ← ask (fun h => dlopen h realPath);
           if handle =? 0 then
             set_api (mkApi (gLoaded api) 0 (pAccOffloadSparseCopy api) (pAccOffloadLruCompact api)
                        (pAccOffloadComputeLruResidentAddrs api));;
             mret OFFLOAD_FUNCTION_FAILED
           else
             emit (EvDlopen handle);;
             set_api (mkApi true handle (dlsym handle "AccOffloadSparseCopy")
                        (dlsym handle "AccOffloadLruCompact")
                        (dlsym handle "AccOffloadComputeLruResidentAddrs"));;
             mret OFFLOAD_OK
       end.

Definition CleanupLibrary : HM unit :=
  api ← get_api;
  if negb (gLoaded api) then mret tt
  else
    (if libHandle api =? 0 then mret tt else emit (EvDlclose (libHandle api)));;
    set_api (mkApi false 0 0 0 0).

(** The inline wrappers: refuse when the symbol is missing, else call through it. *)
Definition api_call (function : LaunchApi -> Z) : HM Z :=
  api ← get_api;
  if function api =? 0 then mret OFFLOAD_UNLOAD
  else emit (EvLaunch (function api));; mret OFFLOAD_OK.
Definition ApiSparseCopy : HM Z := api_call pAccOffloadSparseCopy.
Definition ApiLruCompact : HM Z := api_call pAccOffloadLruCompact.
Definition ApiComputeLruResidentAddrs : HM Z := api_call pAccOffloadComputeLruResidentAddrs.
End api.
