(* ===== verification/HybmEntry.v ===== *)
(** * HybmEntry: the reference-counted life cycle of the hybrid-memory library

    Model of [hybm_init], [hybm_uninit], [HybmHasInited] and [hybm_gva_to_va] of
    [hybm/csrc/hybm_entry.cpp] in the build for Ascend NPUs.  The driver, the runtime
    loader and the trace module are parameters. *)
From stdpp Require Import strings.
From S2P Require Import Prelude RangeTree VaManager Host.

Record Hybm := mkHybm { g_baseAddr : Z; initialized : Z; initedDeviceId : Z; g_allocHandle : Z }.
Definition hybm_fresh : Hybm := mkHybm 0 0 (-1) 0.

(** What the initialisation asks of the layers below. *)
Class HybmEnv := {
  HalGvaPrecheck : Z;
  DlApiLoadLibrary : string -> Z;
  hybm_init_hbm_gva : Hybm -> Z -> Z -> Z * Z * Z;  (* result, base address, allocation handle *)
  GvaMapped : bool;  (* the SoC is an Ascend 950, or the GVA version is V4 *)
}.

Section entry.
Context {E : Env} {HE : HybmEnv}.

Definition HybmHasInited (s : Hybm) : bool := 0 <? initialized s.

Definition hybm_load_library : Z :=
  match getenv "ASCEND_HOME_PATH" with
  | None => BM_ERROR
  | Some path =>
      match Realpath (path +:+ "/lib64") with
      | None => BM_ERROR
      | Some libPath => if lstat_isdir libPath then DlApiLoadLibrary libPath else BM_ERROR
      end
  end.

Definition HybmInit (deviceId flags : Z) (s : Hybm) : Z * Hybm :=
  if 0 <? initialized s then
    if negb (initedDeviceId s =? deviceId) then (BM_ERROR, s)
    else if negb (hybm_load_library =? BM_OK) then (hybm_load_library, s)
    else if g_baseAddr s =? 0 then
      let '(ret, base, handle) := hybm_init_hbm_gva s deviceId flags in
      let s := mkHybm base (initialized s) (initedDeviceId s) handle in
      if negb (ret =? BM_OK) then (ret, s)
      else (0, mkHybm (g_baseAddr s) (initialized s + 1) (initedDeviceId s) (g_allocHandle s))
    else (0, mkHybm (g_baseAddr s) (initialized s + 1) (initedDeviceId s) (g_allocHandle s))
  else if negb (HalGvaPrecheck =? BM_OK) then (HalGvaPrecheck, s)
  else if negb (hybm_load_library =? BM_OK) then (hybm_load_library, s)
  else
    let '(ret, base, handle) := hybm_init_hbm_gva s deviceId flags in
    let s := mkHybm base (initialized s) (initedDeviceId s) handle in
    if negb (ret =? BM_OK) then (BM_ERROR, s)
    else (0, mkHybm (g_baseAddr s) 1 deviceId (g_allocHandle s)).

Definition HybmUninit (s : Hybm) : Hybm :=
  if initialized s <=? 0 then s
  else
    let s := mkHybm (g_baseAddr s) (initialized s - 1) (initedDeviceId s) (g_allocHandle s) in
    if 0 <? initialized s then s
    else if GvaMapped
    then mkHybm (g_baseAddr s) 0 (initedDeviceId s) (if g_baseAddr s =? 0 then g_allocHandle s else 0)
    else mkHybm 0 0 (initedDeviceId s) (g_allocHandle s).

(** [va] is the output parameter; [None] is [nullptr] or a value left unwritten. *)
Definition HybmGvaToVa (s : Hybm) (vm : HybmVaManager) (gva vaMemType : Z) (va_is_null : bool) : Z * option Z :=
  if va_is_null then (BM_ERROR, None)
  else if negb (HybmHasInited s) then (BM_ERROR, None)
  else if HYBM_MEM_TYPE_BUTT <=? vaMemType then (BM_ERROR, None)
  else
    let outputType := if vaMemType =? HYBM_MEM_TYPE_DEVICE then 1 else 2 in
    let convertedVa := TransformVa vm gva 0 outputType in
    if convertedVa =? 0 then (BM_ERROR, None) else (BM_OK, Some convertedVa).

(** ** The count *)
Lemma HybmInit_count deviceId flags s :
  0 <= initialized s ->
  let '(ret, s') := HybmInit deviceId flags s in
  initialized s' = if ret =? BM_OK then initialized s + 1 else initialized s.
Proof.
  intros Hc. unfold HybmInit.
  destruct (Z.ltb_spec 0 (initialized s)).
  - destruct (_ =? deviceId); cbn [negb]; [|done].
    destruct (hybm_load_library =? BM_OK) eqn:El; cbn [negb]; [|by rewrite El].
    destruct (g_baseAddr s =? 0); [|done]. destruct (hybm_init_hbm_gva s deviceId flags) as [[ret base] handle].
    destruct (ret =? BM_OK) eqn:Er; cbn [negb]; [done|by rewrite Er].
  - destruct (HalGvaPrecheck =? BM_OK) eqn:Eh; cbn [negb]; [|by rewrite Eh].
    destruct (hybm_load_library =? BM_OK) eqn:El; cbn [negb]; [|by rewrite El].
    destruct (hybm_init_hbm_gva s deviceId flags) as [[ret base] handle].
    destruct (ret =? BM_OK) eqn:Er; cbn [negb]; [|done]. cbn. lia.
Qed.

Lemma HybmUninit_count s :
  0 <= initialized s -> initialized (HybmUninit s) = Z.max 0 (initialized s - 1).
Proof.
  intros Hc. unfold HybmUninit. destruct (Z.leb_spec (initialized s) 0); [lia|]. cbv zeta. cbn [initialized].
  destruct (Z.ltb_spec 0 (initialized s - 1)); [cbn; lia|]. destruct GvaMapped; cbn; lia.
Qed.
End entry.
