(* ===== verification/OffloadEntry.v ===== *)
(** * OffloadEntry: the memory-pool entries, their manager and the C interface

    Model of [acc_offload_local_dram_entry.cpp], [acc_offload_shared_dram_entry.cpp],
    [acc_offload_entry_manager.cpp] and [acc_offload.cpp].  An entry owns a host memory
    pool and the resources it took from the libraries below it; the manager owns at most
    one entry.  Operations pass the process state of [Host] and are taken one at a
    time.  In the source only [Initialize] of the manager takes its lock; the model says
    nothing of calls that overlap. *)
From stdpp Require Import strings pretty.
From S2P Require Import Prelude RangeTree MemManager Host.

Definition OFFLOAD_SCENE_LOCAL : Z := 0.
Definition OFFLOAD_SCENE_SHARED : Z := 1.

Record offload_config_t := {
  cfg_deviceId : Z; cfg_reserveSize : Z; cfg_allocSize : Z; cfg_worldSize : Z; cfg_rankId : Z;
  cfg_scene : Z; cfg_registerHostMemory : Z;
}.

Definition GB : Z := 1024 * 1024 * 1024.
Definition HYBM_ENTITY_ID_OFFLOAD_BASE : Z := 48.
Definition HYBM_ENTITY_ID_BM_BASE : Z := 16.
Definition HYBM_FLAG_DRAM_MAP_HOST_VA : Z := Z.shiftl 1 9.
Definition HYBM_FLAG_HOST_REGISTER_FOR_DEVICE : Z := Z.shiftl 1 10.
Definition CSM_CLIENT : Z := 0.
Definition CSM_BOTH : Z := 2.

(** ** Helpers shared by both entries *)
Definition AlignUp (value align : Z) : Z := align_up64 value align.

Definition RangeInPool (base poolSize ptr size : Z) : bool :=
  if (base =? 0) || (ptr =? 0) || (size =? 0) then false
  else if ptr <? base then false
  else let offset := ptr - base in (offset <=? poolSize) && (size <=? poolSize - offset).

(** ** The local entry *)
Record LocalEntry := mkLocal {
  l_inited : bool; l_registerHostMemory : bool; l_entity : Z; l_slice : Z; l_base : Z; l_size : Z;
  l_memMng : option AccOffloadMemManager;
}.
Definition local_new : LocalEntry := mkLocal false false 0 0 0 0 None.

Section local.
Context {E : Env}.

Definition local_options (config : offload_config_t) (alignedReserveSize alignedAllocSize : Z)
  : hybm_options :=
  {| opt_rankCount := 1; opt_rankId := 0; opt_devId := cfg_deviceId config;
     opt_maxDRAMSize := alignedReserveSize; opt_hostVASpace := alignedAllocSize;
     opt_flags := if negb (cfg_registerHostMemory config =? 0)
                  then Z.lor HYBM_FLAG_DRAM_MAP_HOST_VA HYBM_FLAG_HOST_REGISTER_FOR_DEVICE
                  else HYBM_FLAG_DRAM_MAP_HOST_VA;
     opt_dramShmFd := -1 |}.

(** The [do { ... } while (0)] block: the library, the entity, its space, its slice. *)
Definition local_open (options : hybm_options) (e : LocalEntry) : HM (Z * LocalEntry) :=
  let '(mkLocal inited reg _ slice base size mem) := e in
  ret ← TryLoadLibrary;
  if negb (ret =? OFFLOAD_OK) then mret (OFFLOAD_ERROR, e) else
  entity ← ask (fun h => hybm_create_entity h HYBM_ENTITY_ID_OFFLOAD_BASE options);
  if entity =? 0 then mret (OFFLOAD_ERROR, mkLocal inited reg 0 slice base size mem) else
  emit (EvCreateEntity entity);;
  ret ← ask (fun h => hybm_reserve_mem_space h entity);
  emit (EvReserve entity);;
  if negb (ret =? 0) then mret (OFFLOAD_ERROR, mkLocal inited reg entity slice base size mem) else
  slice ← (if 0 <? opt_maxDRAMSize options
           then ask (fun h => hybm_alloc_local_memory h entity (opt_hostVASpace options))
           else mret slice);
  if (0 <? opt_maxDRAMSize options) && (slice =? 0)
  then mret (OFFLOAD_ERROR, mkLocal inited reg entity 0 base size mem) else
  (if 0 <? opt_maxDRAMSize options then emit (EvAllocSlice entity slice) else mret tt);;
  base ← ask (fun h => hybm_get_slice_va h entity slice);
  mret (if base =? 0 then OFFLOAD_ERROR else OFFLOAD_OK, mkLocal inited reg entity slice base size mem).

Definition local_UnInitalize (e : LocalEntry) : HM LocalEntry :=
  if negb (l_inited e) then mret e else
  (if l_entity e =? 0 then mret tt else
     (if l_slice e =? 0 then mret tt else emit (EvFreeSlice (l_entity e) (l_slice e)));;
     emit (EvUnreserve (l_entity e));;
     emit (EvDestroyEntity (l_entity e)));;
  CleanupLibrary;;
  emit EvHybmUninit;;
  mret (mkLocal false false 0 (l_slice e) (l_base e) (l_size e) (l_memMng e)).

Definition local_Initialize (config : offload_config_t) (e : LocalEntry) : HM (Z * LocalEntry) :=
  if l_inited e then mret (OFFLOAD_OK, e) else
  ret ← ask (fun h => hybm_init h (cfg_deviceId config) 0);
  emit (EvHybmInit (cfg_deviceId config) 0 ret);;
  if negb (ret =? OFFLOAD_OK) then emit EvHybmUninit;; mret (OFFLOAD_ERROR, e) else
  let alignedReserveSize := AlignUp (cfg_reserveSize config) GB in
  let alignedAllocSize := AlignUp (cfg_allocSize config) GB in
  if negb (alignedReserveSize =? alignedAllocSize)
  then emit EvHybmUninit;; mret (OFFLOAD_ERROR, e) else
  let e := mkLocal (l_inited e) (negb (cfg_registerHostMemory config =? 0)) (l_entity e) (l_slice e)
             (l_base e) (l_size e) (l_memMng e) in
  r ← local_open (local_options config alignedReserveSize alignedAllocSize) e;
  let '(ret, e) := r in
  let e := mkLocal true (l_registerHostMemory e) (l_entity e) (l_slice e) (l_base e) alignedReserveSize
             (Some (new_mem_manager (l_base e) alignedReserveSize)) in
  if negb (ret =? 0) then e ← local_UnInitalize e; mret (ret, e) else mret (ret, e).

Definition local_MallocHost (size : Z) (e : LocalEntry) : Z * LocalEntry :=
  match l_memMng e with
  | None => (0, e)
  | Some mm =>
      let '(p, mm) := Allocate mm size in
      (p, mkLocal (l_inited e) (l_registerHostMemory e) (l_entity e) (l_slice e) (l_base e) (l_size e) (Some mm))
  end.

Definition local_FreeHost (ptr : Z) (e : LocalEntry) : LocalEntry :=
  match l_memMng e with
  | None => e
  | Some mm =>
      if ptr =? 0 then e else
      mkLocal (l_inited e) (l_registerHostMemory e) (l_entity e) (l_slice e) (l_base e) (l_size e)
        (Some (Release mm ptr).2)
  end.

Definition local_GetDeviceAddress (ptr size : Z) (e : LocalEntry) : HM Z :=
  if negb (l_registerHostMemory e) || negb (RangeInPool (l_base e) (l_size e) ptr size) then mret 0 else
  r ← ask (fun h => hybm_gva_to_va h ptr);
  let '(ret, deviceAddress) := r in
  mret (if negb (ret =? OFFLOAD_OK) || (deviceAddress =? 0) then 0 else deviceAddress).
End local.

(** ** The shared entry *)
Record SharedEntry := mkShared {
  s_inited : bool; s_registerHostMemory : bool; s_storeUrl : string; s_bmEntry : Z; s_base : Z; s_size : Z;
  s_memMng : option AccOffloadMemManager;
}.
Definition shared_new : SharedEntry := mkShared false false "" 0 0 0 None.

Section shared.
Context {E : Env}.

Definition store_url (config : offload_config_t) : string :=
  "tcp://127.0.0.1:" +:+ pretty (8500 + cfg_deviceId config / cfg_worldSize config).

Definition shared_options (config : offload_config_t) : smem_bm_create_option_t :=
  {| bm_maxDramSize := AlignUp (cfg_reserveSize config) GB;
     bm_localDRAMSize := AlignUp (cfg_allocSize config) GB;
     bm_maxHbmSize := 0; bm_localHBMSize := 0;
     bm_flags := if negb (cfg_registerHostMemory config =? 0)
                 then Z.lor HYBM_FLAG_DRAM_MAP_HOST_VA HYBM_FLAG_HOST_REGISTER_FOR_DEVICE
                 else HYBM_FLAG_DRAM_MAP_HOST_VA;
     bm_dramShmFd := -1 |}.

(** From the bm entry to the pool. *)
Definition shared_pool (config : offload_config_t) (bm : Z) (e : SharedEntry) : HM (Z * SharedEntry) :=
  let '(mkShared inited _ url _ base size mem) := e in
  let reg := negb (cfg_registerHostMemory config =? 0) in
  let e := mkShared inited reg url bm base size mem in
  emit (EvBmInit bm);;
  ret ← ask (fun h => SmemBmEntryInitWithOptions h bm (shared_options config) url);
  if negb (ret =? OFFLOAD_OK) then mret (OFFLOAD_ERROR, e) else
  emit (EvBmJoin bm);;
  ret ← ask (fun h => BmJoin h bm);
  if negb (ret =? OFFLOAD_OK) then mret (ret, e) else
  gva ← ask (fun h => BmGetHostGvaAddress h bm);
  if gva =? 0 then mret (OFFLOAD_ERROR, e) else
  maxDRAMSize ← ask (fun h => BmMaxDRAMSize h bm);
  let base := gva + maxDRAMSize * cfg_rankId config in
  let size := AlignUp (cfg_reserveSize config) GB in
  mret (OFFLOAD_OK, mkShared inited reg url bm base size (Some (new_mem_manager base size))).

(** The [do { ... } while (0)] block. *)
Definition shared_open (config : offload_config_t) (e : SharedEntry) : HM (Z * SharedEntry) :=
  ret ← ask (fun h => hybm_init h (cfg_deviceId config) 0);
  emit (EvHybmInit (cfg_deviceId config) 0 ret);;
  if negb (ret =? OFFLOAD_OK) then mret (ret, e) else
  ret ← TryLoadLibrary;
  if negb (ret =? OFFLOAD_OK) then mret (ret, e) else
  let url := store_url config in
  let e := mkShared (s_inited e) (s_registerHostMemory e) url (s_bmEntry e) (s_base e) (s_size e) (s_memMng e) in
  if negb (ExtractIpPortFromUrl url =? OFFLOAD_OK) then mret (OFFLOAD_ERROR, e) else
  let model := if cfg_rankId config =? 0 then CSM_BOTH else CSM_CLIENT in
  emit (EvCreateStore url);;
  confStore ← ask (fun h => CreateStoreByUrl h url model (cfg_worldSize config) (cfg_rankId config));
  if confStore =? 0 then mret (OFFLOAD_ERROR, e) else
  bm ← ask (fun h => MakeBmEntry h (HYBM_ENTITY_ID_OFFLOAD_BASE - HYBM_ENTITY_ID_BM_BASE) (cfg_rankId config));
  if bm =? 0 then
    mret (OFFLOAD_ERROR, mkShared (s_inited e) (s_registerHostMemory e) url 0 (s_base e) (s_size e) (s_memMng e))
  else emit (EvBmCreate bm);; shared_pool config bm e.

Definition shared_UnInitalize (e : SharedEntry) : HM SharedEntry :=
  if negb (s_inited e) then mret e else
  (if s_bmEntry e =? 0 then mret tt else emit (EvBmUninit (s_bmEntry e)));;
  (if (String.length (s_storeUrl e) =? 0)%nat then mret tt else emit (EvDestroyStore (s_storeUrl e)));;
  CleanupLibrary;;
  emit EvHybmUninit;;
  mret shared_new.

Definition shared_Initialize (config : offload_config_t) (e : SharedEntry) : HM (Z * SharedEntry) :=
  if s_inited e then mret (OFFLOAD_OK, e) else
  if cfg_worldSize config =? 0 then mret (OFFLOAD_ERROR, e) else
  if negb (cfg_registerHostMemory config =? 0) && negb (cfg_worldSize config =? 1)
  then mret (OFFLOAD_ERROR, e) else
  r ← shared_open config e;
  let '(ret, e) := r in
  let e := mkShared true (s_registerHostMemory e) (s_storeUrl e) (s_bmEntry e) (s_base e) (s_size e) (s_memMng e) in
  if negb (ret =? OFFLOAD_OK) then e ← shared_UnInitalize e; mret (ret, e) else mret (OFFLOAD_OK, e).

Definition shared_MallocHost (size : Z) (e : SharedEntry) : Z * SharedEntry :=
  match s_memMng e with
  | None => (0, e)
  | Some mm =>
      let '(p, mm) := Allocate mm size in
      (p, mkShared (s_inited e) (s_registerHostMemory e) (s_storeUrl e) (s_bmEntry e) (s_base e) (s_size e) (Some mm))
  end.

Definition shared_FreeHost (ptr : Z) (e : SharedEntry) : SharedEntry :=
  match s_memMng e with
  | None => e
  | Some mm =>
      if ptr =? 0 then e else
      mkShared (s_inited e) (s_registerHostMemory e) (s_storeUrl e) (s_bmEntry e) (s_base e) (s_size e)
        (Some (Release mm ptr).2)
  end.

Definition shared_GetDeviceAddress (ptr size : Z) (e : SharedEntry) : HM Z :=
  if negb (s_registerHostMemory e) || negb (RangeInPool (s_base e) (s_size e) ptr size) then mret 0 else
  r ← ask (fun h => hybm_gva_to_va h ptr);
  let '(ret, deviceAddress) := r in
  mret (if negb (ret =? OFFLOAD_OK) || (deviceAddress =? 0) then 0 else deviceAddress).
End shared.

(** ** The interface [AccOffloadEntry] and its two implementations *)
Class AccOffloadEntry (T : Type) := {
  entry_new : T;
  entry_Initialize : offload_config_t -> T -> HM (Z * T);
  entry_UnInitalize : T -> HM T;
  entry_MallocHost : Z -> T -> Z * T;
  entry_FreeHost : Z -> T -> T;
  entry_GetDeviceAddress : Z -> Z -> T -> HM Z;
  entry_SparseCopy : T -> HM Z;
  entry_LruResidentCompact : T -> HM Z;
  entry_ComputeLruResidentAddrs : T -> HM Z;
}.

Section instances.
Context {E : Env}.

#[global] Instance local_entry : AccOffloadEntry LocalEntry := {|
  entry_new := local_new;
  entry_Initialize := local_Initialize;
  entry_UnInitalize := local_UnInitalize;
  entry_MallocHost := local_MallocHost;
  entry_FreeHost := local_FreeHost;
  entry_GetDeviceAddress := local_GetDeviceAddress;
  entry_SparseCopy := fun _ => ApiSparseCopy;
  entry_LruResidentCompact := fun _ => ApiLruCompact;
  entry_ComputeLruResidentAddrs := fun _ => ApiComputeLruResidentAddrs;
|}.

#[global] Instance shared_entry : AccOffloadEntry SharedEntry := {|
  entry_new := shared_new;
  entry_Initialize := shared_Initialize;
  entry_UnInitalize := shared_UnInitalize;
  entry_MallocHost := shared_MallocHost;
  entry_FreeHost := shared_FreeHost;
  entry_GetDeviceAddress := shared_GetDeviceAddress;
  entry_SparseCopy := fun _ => ApiSparseCopy;
  entry_LruResidentCompact := fun _ => ApiLruCompact;
  entry_ComputeLruResidentAddrs := fun _ => ApiComputeLruResidentAddrs;
|}.
End instances.

(** An object behind a [std::unique_ptr<AccOffloadEntry>]. *)
Inductive entry := LocalDram (e : LocalEntry) | SharedDram (e : SharedEntry).

Section dispatch.
Context {E : Env}.

(** Virtual calls: a method that changes the object, and one that does not. *)
Definition dispatch {A} (f : forall T, AccOffloadEntry T -> T -> HM (A * T)) (x : entry) : HM (A * entry) :=
  match x with
  | LocalDram e => r ← f _ local_entry e; mret (r.1, LocalDram r.2)
  | SharedDram e => r ← f _ shared_entry e; mret (r.1, SharedDram r.2)
  end.
Definition dispatch_const {A} (f : forall T, AccOffloadEntry T -> T -> HM A) (x : entry) : HM A :=
  match x with LocalDram e => f _ local_entry e | SharedDram e => f _ shared_entry e end.

Definition x_Initialize (config : offload_config_t) : entry -> HM (Z * entry) :=
  dispatch (fun T I e => @entry_Initialize T I config e).
Definition x_UnInitalize (x : entry) : HM entry :=
  r ← dispatch (fun T I e => e' ← @entry_UnInitalize T I e; mret (tt, e')) x; mret r.2.
Definition x_MallocHost (size : Z) : entry -> HM (Z * entry) :=
  dispatch (fun T I e => mret (@entry_MallocHost T I size e)).
Definition x_FreeHost (ptr : Z) (x : entry) : HM entry :=
  r ← dispatch (fun T I e => mret (tt, @entry_FreeHost T I ptr e)) x; mret r.2.
Definition x_GetDeviceAddress (ptr size : Z) : entry -> HM Z :=
  dispatch_const (fun T I e => @entry_GetDeviceAddress T I ptr size e).
End dispatch.

(** ** [AccOffloadEntryManager] *)
Record Manager := mkManager { m_inited : bool; m_scene : Z; m_entry : option entry }.
Definition manager_init : Manager := mkManager false OFFLOAD_SCENE_LOCAL None.

Section manager.
Context {E : Env}.

(** [entry_.reset()] and the overwriting of [entry_] run the destructor. *)
Definition drop_entry (x : option entry) : HM unit :=
  match x with None => mret tt | Some x => x_UnInitalize x;; mret tt end.

Definition make_entry (scene : Z) : option entry :=
  if scene =? OFFLOAD_SCENE_LOCAL then Some (LocalDram entry_new)
  else if scene =? OFFLOAD_SCENE_SHARED then Some (SharedDram entry_new) else None.

Definition mgr_Initialize (config : offload_config_t) (m : Manager) : HM (Z * Manager) :=
  if m_inited m then mret (OFFLOAD_OK, m) else
  match make_entry (cfg_scene config) with
  | None => mret (OFFLOAD_ERROR, m)
  | Some x =>
      drop_entry (m_entry m);;
      r ← x_Initialize config x;
      let '(ret, x) := r in
      if negb (ret =? OFFLOAD_OK) then
        x ← x_UnInitalize x;
        drop_entry (Some x);;
        mret (ret, mkManager (m_inited m) OFFLOAD_SCENE_LOCAL None)
      else mret (OFFLOAD_OK, mkManager true (cfg_scene config) (Some x))
  end.

Definition mgr_UnInitalize (m : Manager) : HM Manager :=
  if negb (m_inited m) then mret m else
  match m_entry m with
  | None => mret (mkManager false (m_scene m) None)
  | Some x => x ← x_UnInitalize x; drop_entry (Some x);; mret (mkManager false (m_scene m) None)
  end.

Definition mgr_MallocHost (size : Z) (m : Manager) : HM (Z * Manager) :=
  match m_entry m with
  | None => mret (0, m)
  | Some x => r ← x_MallocHost size x; mret (r.1, mkManager (m_inited m) (m_scene m) (Some r.2))
  end.

Definition mgr_FreeHost (ptr : Z) (m : Manager) : HM Manager :=
  match m_entry m with
  | None => mret m
  | Some x => if ptr =? 0 then mret m
              else x ← x_FreeHost ptr x; mret (mkManager (m_inited m) (m_scene m) (Some x))
  end.

Definition mgr_GetDeviceAddress (ptr size : Z) (m : Manager) : HM Z :=
  match m_entry m with
  | None => mret 0
  | Some x => if (ptr =? 0) || (size =? 0) then mret 0 else x_GetDeviceAddress ptr size x
  end.

(** The three operators: refused without an entry, else forwarded. *)
Definition mgr_forward (f : forall T, AccOffloadEntry T -> T -> HM Z) (m : Manager) : HM Z :=
  match m_entry m with None => mret OFFLOAD_ERROR | Some x => dispatch_const f x end.
Definition mgr_SparseCopy : Manager -> HM Z := mgr_forward (fun T I e => @entry_SparseCopy T I e).
Definition mgr_LruResidentCompact : Manager -> HM Z :=
  mgr_forward (fun T I e => @entry_LruResidentCompact T I e).
Definition mgr_ComputeLruResidentAddrs : Manager -> HM Z :=
  mgr_forward (fun T I e => @entry_ComputeLruResidentAddrs T I e).

(** *** The C interface on the singleton *)
Definition offload_init := mgr_Initialize.
Definition offload_uninit := mgr_UnInitalize.
Definition offload_malloc (size flags : Z) (m : Manager) : HM (Z * Manager) := mgr_MallocHost size m.
Definition offload_free (ptr flags : Z) (m : Manager) : HM Manager := mgr_FreeHost ptr m.
Definition offload_get_device_address := mgr_GetDeviceAddress.
Definition offload_sparse_copy := mgr_SparseCopy.
Definition offload_lru_resident_compact := mgr_LruResidentCompact.
Definition offload_compute_lru_resident_addrs := mgr_ComputeLruResidentAddrs.
End manager.

(** A client's call of the interface; operators do not change the manager. *)
Inductive api_op :=
  | OpInit (config : offload_config_t) | OpUninit | OpMalloc (size : Z) | OpFree (ptr : Z)
  | OpDeviceAddress (ptr size : Z) | OpSparseCopy | OpCompact | OpAddrs.

Definition run_op {E : Env} (op : api_op) (m : Manager) : HM (Z * Manager) :=
  match op with
  | OpInit config => offload_init config m
  | OpUninit => m ← offload_uninit m; mret (0, m)
  | OpMalloc size => offload_malloc size 0 m
  | OpFree ptr => m ← offload_free ptr 0 m; mret (0, m)
  | OpDeviceAddress ptr size => r ← offload_get_device_address ptr size m; mret (r, m)
  | OpSparseCopy => r ← offload_sparse_copy m; mret (r, m)
  | OpCompact => r ← offload_lru_resident_compact m; mret (r, m)
  | OpAddrs => r ← offload_compute_lru_resident_addrs m; mret (r, m)
  end.

Fixpoint run_ops {E : Env} (ops : list api_op) (m : Manager) : HM Manager :=
  match ops with
  | [] => mret m
  | op :: ops => r ← run_op op m; run_ops ops r.2
  end.
