(* ===== verification/OffloadEntryProof.v ===== *)
(** * Life cycle of the offload entries: no leak, no double release

    Every resource an entry takes from the libraries below (the hybm library, the operator
    library, the entity with its space and slice, the bm entry) is held exactly while the
    manager is initialised.  The manager's theorem is proved against the interface laws
    [EntryLaws], which both entries satisfy. *)
From stdpp Require Import strings.
From S2P Require Import Prelude RangeTree MemManager VaManager Host HybmEntry OffloadEntry.

(** ** Resources held after a trace

    [net] counts calls: every call of [hybm_init] is matched by one of [hybm_uninit],
    whether it succeeded or not.  [owned] counts what was really acquired. *)
Inductive resource :=
  | RHybm | RLibrary (handle : Z) | REntity (entity : Z)
  | RSlice (entity slice : Z) | RBm (bm : Z).

#[global] Instance resource_eq_dec : EqDecision resource.
Proof. solve_decision. Defined.

Definition acquires (ev : event) : option resource :=
  match ev with
  | EvHybmInit _ _ _ => Some RHybm | EvDlopen h => Some (RLibrary h) | EvCreateEntity e => Some (REntity e)
  | EvAllocSlice e s => Some (RSlice e s) | EvBmCreate b => Some (RBm b)
  | _ => None
  end.
Definition releases (ev : event) : option resource :=
  match ev with
  | EvHybmUninit => Some RHybm | EvDlclose h => Some (RLibrary h) | EvDestroyEntity e => Some (REntity e)
  | EvFreeSlice e s => Some (RSlice e s) | EvBmUninit b => Some (RBm b)
  | _ => None
  end.

Definition ind (r : resource) (o : option resource) : Z :=
  match o with Some r' => if decide (r' = r) then 1 else 0 | None => 0 end.

(** Acquisitions minus releases of [r]. *)
Fixpoint net (r : resource) (tr : history) : Z :=
  match tr with [] => 0 | ev :: tr => ind r (acquires ev) - ind r (releases ev) + net r tr end.

Lemma net_app r tr1 tr2 : net r (tr1 ++ tr2) = net r tr1 + net r tr2.
Proof. induction tr1 as [|ev tr1 IH]; cbn [net app]; [done|]. rewrite IH. lia. Qed.

(** The call acquires its resource only when it succeeds. *)
Definition gained (ev : event) : option resource :=
  match ev with EvHybmInit _ _ ret => if ret =? OFFLOAD_OK then Some RHybm else None | _ => acquires ev end.
Fixpoint owned (r : resource) (tr : history) : Z :=
  match tr with [] => 0 | ev :: tr => ind r (gained ev) - ind r (releases ev) + owned r tr end.
Fixpoint failed_inits (tr : history) : Z :=
  match tr with
  | [] => 0
  | EvHybmInit _ _ ret :: tr => (if ret =? OFFLOAD_OK then 0 else 1) + failed_inits tr
  | _ :: tr => failed_inits tr
  end.

Lemma owned_net r tr : owned r tr = net r tr - (if decide (RHybm = r) then failed_inits tr else 0).
Proof.
  induction tr as [|ev tr IH]; cbn [owned net failed_inits]; [by case_decide|]. rewrite IH.
  destruct ev; cbn [gained acquires releases]; try lia.
  destruct (ret =? OFFLOAD_OK); unfold ind; case_decide; lia.
Qed.

Lemma ind_None r : ind r None = 0.
Proof. done. Qed.

(** The trace holds exactly the resources of [rs]. *)
Definition holding (rs : list resource) (h : Host) : Prop :=
  forall r, net r (h_trace h) = foldr (fun r' n => ind r (Some r') + n) 0 rs.

Definition lib_closed (h : Host) : Prop := gLoaded (h_api h) = false.
Definition lib_open (h : Host) : Prop := gLoaded (h_api h) = true /\ libHandle (h_api h) <> 0.

Definition host_idle (h : Host) : Prop := lib_closed h /\ holding [] h.
Definition host_holds (rs : list resource) (h : Host) : Prop :=
  lib_open h /\ holding (RHybm :: RLibrary (libHandle (h_api h)) :: rs) h.

Local Ltac trace_simpl :=
  unfold holding in *; cbn [h_trace h_api gLoaded libHandle] in *;
  rewrite ?net_app; cbn [net acquires releases foldr] in *; rewrite ?ind_None.

(** ** The loader *)
Section loader.
Context {E : Env}.

Lemma TryLoadLibrary_spec rs h :
  lib_closed h -> holding rs h ->
  exists ret h', TryLoadLibrary h = (ret, h') /\
    ((ret <> OFFLOAD_OK /\ lib_closed h' /\ holding rs h') \/
     (ret = OFFLOAD_OK /\ lib_open h' /\ holding (RLibrary (libHandle (h_api h')) :: rs) h')).
Proof.
  intros Hc Hh. unfold TryLoadLibrary, mbind, HM_bind, get_api. unfold lib_closed in Hc. rewrite Hc.
  destruct library_path as [path|]; [|do 2 eexists; split; [done|]; left; done].
  unfold ask. destruct (Z.eqb_spec (dlopen (h_trace h) path) 0) as [|Hne];
    (do 2 eexists; split; [done|]); [left|right]; split_and!; try done.
  intros r. specialize (Hh r). trace_simpl. lia.
Qed.

Lemma CleanupLibrary_open rs h :
  lib_open h -> holding (RLibrary (libHandle (h_api h)) :: rs) h ->
  exists h', CleanupLibrary h = (tt, h') /\ lib_closed h' /\ holding rs h'.
Proof.
  intros [Hl Hz] Hh. unfold CleanupLibrary, mbind, HM_bind, get_api. rewrite Hl. cbn [negb].
  rewrite (proj2 (Z.eqb_neq _ _) Hz). eexists. split_and!; [done|done|].
  intros r. specialize (Hh r). trace_simpl. cbn [foldr] in Hh. lia.
Qed.

Lemma CleanupLibrary_closed h : lib_closed h -> CleanupLibrary h = (tt, h).
Proof. unfold lib_closed, CleanupLibrary, mbind, HM_bind, get_api. by intros ->. Qed.
End loader.

(** ** Pools behind an entry *)
Definition sane (base size : Z) : Prop :=
  0 < base /\ 0 < size /\ base + size < 18446744073709551616 /\ size + 15 < 18446744073709551616.

Definition pool_ok (base size : Z) (mem : option AccOffloadMemManager) : Prop :=
  exists mm, mem = Some mm /\ mm_base mm = base /\ mm_size mm = size /\ (sane base size -> mm_inv mm).

Lemma pool_ok_new base size : pool_ok base size (Some (new_mem_manager base size)).
Proof. eexists. split_and!; [done|done|done|]. intros (? & ? & ? & ?). by apply new_mem_manager_inv. Qed.

Lemma Allocate_fields mm size : mm_base (Allocate mm size).2 = mm_base mm /\ mm_size (Allocate mm size).2 = mm_size mm.
Proof. unfold Allocate. destruct (_ || _); [done|]. by destruct (take_range _ _) as [[]|]. Qed.
Lemma Release_fields mm p : mm_base (Release mm p).2 = mm_base mm /\ mm_size (Release mm p).2 = mm_size mm.
Proof. unfold Release. destruct (_ || _); [done|]. by destruct (_ !! _). Qed.

Lemma pool_ok_allocate base size mm n :
  0 <= n -> pool_ok base size (Some mm) -> pool_ok base size (Some (Allocate mm n).2).
Proof.
  intros Hn (? & [= <-] & <- & <- & Hi). destruct (Allocate_fields mm n). eexists. split_and!; [done|done|done|].
  intros Hs. by apply Allocate_inv; [apply Hi|].
Qed.

Lemma pool_ok_release base size mm p :
  pool_ok base size (Some mm) -> pool_ok base size (Some (Release mm p).2).
Proof.
  intros (? & [= <-] & <- & <- & Hi). destruct (Release_fields mm p). eexists. split_and!; [done|done|done|].
  intros Hs. by apply Release_inv, Hi.
Qed.

(** ** The interface laws *)
Class EntryLaws {E : Env} (T : Type) {I : AccOffloadEntry T} := {
  opened : T -> Host -> Prop;
  closed : T -> Prop;
  law_init h config : host_idle h ->
    exists ret e h', entry_Initialize config entry_new h = (ret, e, h') /\
      ((ret = OFFLOAD_OK /\ opened e h') \/ (ret <> OFFLOAD_OK /\ closed e /\ host_idle h'));
  law_uninit e h : opened e h ->
    exists e' h', entry_UnInitalize e h = (e', h') /\ closed e' /\ host_idle h';
  law_closed e h : closed e -> entry_UnInitalize e h = (e, h);
  law_malloc size e h : 0 <= size -> opened e h -> opened (entry_MallocHost size e).2 h;
  law_free ptr e h : opened e h -> opened (entry_FreeHost ptr e) h;
  law_launch f e h : opened e h ->
    opened e (mkHost (h_trace h ++ [EvLaunch f]) (h_api h));
  law_operators e : entry_SparseCopy e = ApiSparseCopy /\ entry_LruResidentCompact e = ApiLruCompact /\
    entry_ComputeLruResidentAddrs e = ApiComputeLruResidentAddrs;
  law_device ptr size e h : (entry_GetDeviceAddress ptr size e h).2 = h;
}.

Lemma holding_launch rs f h : holding rs h -> holding rs (mkHost (h_trace h ++ [EvLaunch f]) (h_api h)).
Proof. intros Hh r. specialize (Hh r). trace_simpl. lia. Qed.

(** ** The local entry satisfies them *)
Section local.
Context {E : Env}.

Definition local_resources (e : LocalEntry) : list resource :=
  if l_entity e =? 0 then [] else
  REntity (l_entity e) ::
    (if l_slice e =? 0 then [] else [RSlice (l_entity e) (l_slice e)]).

(** The entry and the host while the entry is being opened or closed. *)
Definition local_partial (e : LocalEntry) (h : Host) : Prop :=
  (lib_closed h /\ l_entity e = 0 /\ holding [RHybm] h) \/ host_holds (local_resources e) h.

Local Ltac known_null :=
  repeat match goal with Hn : ?x <> 0 |- context [?x =? 0] => rewrite (proj2 (Z.eqb_neq x 0) Hn) end.
Local Ltac held H :=
  split; [done|]; let r := fresh "r" in intros r; specialize (H r); unfold local_resources; trace_simpl;
  cbn [l_entity l_slice]; known_null; cbn [foldr Z.eqb] in *; lia.
Local Ltac partial H := do 3 eexists; split_and!; [done| |done]; right; held H.

Lemma local_open_spec options e h :
  l_entity e = 0 -> l_slice e = 0 -> lib_closed h -> holding [RHybm] h ->
  exists ret e' h', local_open options e h = (ret, e', h') /\ local_partial e' h' /\
    (ret = OFFLOAD_OK -> host_holds (local_resources e') h' /\ l_entity e' <> 0 /\ l_base e' <> 0).
Proof.
  destruct e as [inited reg entity slice base size mem]. cbn [l_entity l_slice]. intros -> -> Hc Hh.
  unfold local_open, mbind, HM_bind, mret, HM_ret, ask, emit.
  destruct (TryLoadLibrary_spec _ _ Hc Hh) as (ret & h1 & -> & [(Hr & Hc1 & Hh1)|(-> & Ho & Hh1)]).
  { rewrite (proj2 (Z.eqb_neq _ _) Hr). do 3 eexists. split_and!; [done|by left|done]. }
  change (OFFLOAD_OK =? OFFLOAD_OK) with true. cbn [negb].
  match goal with |- context [?x =? 0] => set (ent := x); destruct (Z.eqb_spec ent 0) as [|Hent] end.
  { partial Hh1. }
  match goal with |- context [negb (?x =? 0)] => destruct (x =? 0) end; cbn [negb]; [|partial Hh1].
  destruct (0 <? opt_maxDRAMSize options); cbn [andb].
  1: match goal with |- context [?x =? 0] => set (sl := x); destruct (Z.eqb_spec sl 0) as [|Hsl] end;
     [partial Hh1|].
  all: do 3 eexists; split; [done|];
    match goal with |- local_partial ?e' ?h' /\ _ => assert (HH : host_holds (local_resources e') h') by (held Hh1) end;
    (split; [by right|]); intros Hr; (split_and!; [done|done|]); cbn [l_base];
    revert Hr; by case_match eqn:Eb; [|apply Z.eqb_neq in Eb].
Qed.

Lemma local_UnInitalize_spec e h :
  l_inited e = true -> local_partial e h ->
  exists e' h', local_UnInitalize e h = (e', h') /\ l_inited e' = false /\ host_idle h'.
Proof.
  intros Hi HP. unfold local_UnInitalize, mbind, HM_bind, mret, HM_ret, emit. rewrite Hi. cbn [negb].
  destruct HP as [(Hc & -> & Hh)|[Ho Hh]].
  { cbn [Z.eqb]. rewrite CleanupLibrary_closed by done. do 2 eexists. split_and!; [done|done|]. held Hh. }
  unfold local_resources in Hh.
  assert (Hgo : forall h1, h_api h1 = h_api h -> holding [RHybm; RLibrary (libHandle (h_api h1))] h1 ->
    exists h2, CleanupLibrary h1 = (tt, h2) /\ lib_closed h2 /\ holding [RHybm] h2).
  { intros h1 Ea H1. apply CleanupLibrary_open; [unfold lib_open; by rewrite Ea|].
    intros r. specialize (H1 r). cbn [foldr] in *. lia. }
  destruct (l_entity e =? 0); [|destruct (l_slice e =? 0)]; cbn [h_trace h_api].
  all: match goal with |- context [CleanupLibrary ?h1] => destruct (Hgo h1) as (h2 & -> & Hc & Hh2) end;
    [done|intros r; specialize (Hh r); trace_simpl; cbn [foldr] in Hh; lia|].
  all: do 2 eexists; split_and!; [done|done|]; held Hh2.
Qed.

Definition local_opened (e : LocalEntry) (h : Host) : Prop :=
  l_inited e = true /\ l_entity e <> 0 /\ host_holds (local_resources e) h /\
  pool_ok (l_base e) (l_size e) (l_memMng e).

Lemma local_init_law h config :
  host_idle h ->
  exists ret e h', local_Initialize config local_new h = (ret, e, h') /\
    ((ret = OFFLOAD_OK /\ local_opened e h') \/ (ret <> OFFLOAD_OK /\ l_inited e = false /\ host_idle h')).
Proof.
  intros [Hc Hh]. unfold local_Initialize, mbind, HM_bind, mret, HM_ret, ask, emit. cbn [l_inited local_new].
  cbn [h_trace]. match goal with |- context [negb (?x =? OFFLOAD_OK)] => destruct (x =? OFFLOAD_OK) end; cbn [negb].
  2: { do 3 eexists. split; [done|]. right. split_and!; [done|done|]. held Hh. }
  destruct (_ =? _); cbn [negb].
  2: { do 3 eexists. split; [done|]. right. split_and!; [done|done|]. held Hh. }
  match goal with |- context [local_open ?o ?e ?h1] =>
    destruct (local_open_spec o e h1) as (ret & e1 & h2 & -> & HP & HO); [done|done|done| |] end.
  { intros r. specialize (Hh r). trace_simpl. lia. }
  destruct (Z.eqb_spec ret 0) as [->|Hne]; cbn [negb].
  - do 3 eexists. split; [done|]. left. destruct (HO eq_refl) as (H1 & H2 & H3). split; [done|].
    split_and!; [done|done|done|apply pool_ok_new].
  - match goal with |- context [local_UnInitalize ?e ?h] =>
      destruct (local_UnInitalize_spec e h) as (e2 & h3 & -> & Hi & Hid); [done|done|] end.
    do 3 eexists. split; [done|]. by right.
Qed.

#[global] Program Instance local_laws : EntryLaws LocalEntry := {|
  opened := local_opened;
  closed := fun e => l_inited e = false;
|}.
Next Obligation. apply local_init_law. Qed.
Next Obligation.
  intros e h (Hi & _ & HH & _). apply local_UnInitalize_spec; [done|by right].
Qed.
Next Obligation. intros e h Hi. simpl. unfold local_UnInitalize. by rewrite Hi. Qed.
Next Obligation.
  intros n e h Hn (Hi & He & HH & HP). simpl. unfold local_MallocHost.
  destruct (l_memMng e) as [mm|] eqn:Em; [|by destruct HP as (? & ? & _)].
  pose proof (pool_ok_allocate _ _ _ n Hn HP). by destruct (Allocate mm n).
Qed.
Next Obligation.
  intros ptr e h (Hi & He & HH & HP). simpl. unfold local_FreeHost.
  destruct (l_memMng e) as [mm|] eqn:Em; [|by destruct HP as (? & ? & _)].
  destruct (ptr =? 0); unfold local_opened; [rewrite Em|]; split_and!; try done. by apply pool_ok_release.
Qed.
Next Obligation.
  intros f e h (Hi & He & [Ho HH] & HP). split_and!; try done. split; [done|]. by apply holding_launch.
Qed.
Next Obligation. done. Qed.
Next Obligation.
  intros ptr n e h. simpl. unfold local_GetDeviceAddress, mbind, HM_bind, ask. destruct (_ || _); [done|].
  by destruct (hybm_gva_to_va _ _).
Qed.
End local.

(** ** The shared entry satisfies them *)
Section shared.
Context {E : Env}.

Definition shared_resources (e : SharedEntry) : list resource :=
  if s_bmEntry e =? 0 then [] else [RBm (s_bmEntry e)].

Definition shared_partial (e : SharedEntry) (h : Host) : Prop :=
  (lib_closed h /\ s_bmEntry e = 0 /\ holding [RHybm] h) \/ host_holds (shared_resources e) h.

Local Ltac held H :=
  split; [done|]; let r := fresh "r" in intros r; specialize (H r); unfold shared_resources; trace_simpl;
  cbn [s_bmEntry];
  repeat match goal with Hn : ?x <> 0 |- context [?x =? 0] => rewrite (proj2 (Z.eqb_neq x 0) Hn) end;
  cbn [foldr Z.eqb] in *; lia.
Local Ltac partial H := do 3 eexists; split_and!; [done| |done]; right; held H.

Lemma shared_pool_spec config bm e h :
  bm <> 0 -> host_holds [RBm bm] h ->
  exists ret e' h', shared_pool config bm e h = (ret, e', h') /\ shared_partial e' h' /\
    (ret = OFFLOAD_OK -> host_holds (shared_resources e') h' /\ s_bmEntry e' <> 0 /\
                         pool_ok (s_base e') (s_size e') (s_memMng e')).
Proof.
  intros Hbm [Ho Hh]. destruct e as [inited reg url bm0 base size mem].
  unfold shared_pool, mbind, HM_bind, mret, HM_ret, ask, emit. cbn [h_trace].
  match goal with |- context [negb (?x =? OFFLOAD_OK)] => destruct (x =? OFFLOAD_OK) end; cbn [negb];
    [|partial Hh].
  match goal with |- context [negb (?x =? OFFLOAD_OK)] => destruct (Z.eqb_spec x OFFLOAD_OK) as [_|Hr] end;
    cbn [negb]; [|partial Hh].
  match goal with |- context [?x =? 0] => destruct (x =? 0) end; [partial Hh|].
  do 3 eexists. split; [done|].
  match goal with |- shared_partial ?e' ?h' /\ _ => assert (HH : host_holds (shared_resources e') h') by (held Hh) end.
  split; [by right|]. intros _. split_and!; [done|done|apply pool_ok_new].
Qed.

Lemma shared_open_spec config e h :
  s_bmEntry e = 0 -> lib_closed h -> holding [] h ->
  exists ret e' h', shared_open config e h = (ret, e', h') /\ shared_partial e' h' /\
    (ret = OFFLOAD_OK -> host_holds (shared_resources e') h' /\ s_bmEntry e' <> 0 /\
                         pool_ok (s_base e') (s_size e') (s_memMng e')).
Proof.
  intros Hb Hc Hh. destruct e as [inited reg url bm0 base size mem]. cbn [s_bmEntry] in Hb. subst bm0.
  unfold shared_open, mbind, HM_bind, mret, HM_ret, ask, emit. cbn [h_trace].
  match goal with |- context [negb (?x =? OFFLOAD_OK)] => destruct (Z.eqb_spec x OFFLOAD_OK) as [_|Hr] end;
    cbn [negb].
  2: { do 3 eexists. split_and!; [done| |done]. left. split_and!; [done|done|].
       intros r. specialize (Hh r). trace_simpl. lia. }
  match goal with |- context [TryLoadLibrary ?h0] =>
    destruct (TryLoadLibrary_spec [RHybm] h0) as (ret & h1 & -> & [(Hr & Hc1 & Hh1)|(-> & Ho & Hh1)]) end.
  { done. }
  { intros r. specialize (Hh r). trace_simpl. lia. }
  { rewrite (proj2 (Z.eqb_neq _ _) Hr). do 3 eexists. split_and!; [done|by left|done]. }
  change (OFFLOAD_OK =? OFFLOAD_OK) with true. cbn [negb s_inited s_registerHostMemory s_bmEntry s_base s_size s_memMng].
  match goal with |- context [negb ?b] => destruct b end; cbn [negb]; [|partial Hh1].
  match goal with |- context [?x =? 0] => destruct (x =? 0) end; [partial Hh1|].
  match goal with |- context [?x =? 0] => set (bm := x); destruct (Z.eqb_spec bm 0) as [|Hbm] end; [partial Hh1|].
  apply shared_pool_spec; [done|]. held Hh1.
Qed.

Lemma shared_UnInitalize_spec e h :
  s_inited e = true -> shared_partial e h ->
  exists e' h', shared_UnInitalize e h = (e', h') /\ s_inited e' = false /\ host_idle h'.
Proof.
  intros Hi HP. unfold shared_UnInitalize, mbind, HM_bind, mret, HM_ret, emit. rewrite Hi. cbn [negb].
  destruct HP as [(Hc & -> & Hh)|[Ho Hh]].
  { cbn [Z.eqb]. destruct (_ =? _)%nat; rewrite CleanupLibrary_closed by done;
      (do 2 eexists; split_and!; [done|done|]); held Hh. }
  unfold shared_resources in Hh.
  assert (Hgo : forall h1, h_api h1 = h_api h -> holding [RHybm; RLibrary (libHandle (h_api h1))] h1 ->
    exists h2, CleanupLibrary h1 = (tt, h2) /\ lib_closed h2 /\ holding [RHybm] h2).
  { intros h1 Ea H1. apply CleanupLibrary_open; [unfold lib_open; by rewrite Ea|].
    intros r. specialize (H1 r). cbn [foldr] in *. lia. }
  destruct (s_bmEntry e =? 0), (_ =? _)%nat; cbn [h_trace h_api].
  all: match goal with |- context [CleanupLibrary ?h1] => destruct (Hgo h1) as (h2 & -> & Hc & Hh2) end;
    [done|intros r; specialize (Hh r); trace_simpl; lia|].
  all: do 2 eexists; split_and!; [done|done|]; held Hh2.
Qed.

Definition shared_opened (e : SharedEntry) (h : Host) : Prop :=
  s_inited e = true /\ s_bmEntry e <> 0 /\ host_holds (shared_resources e) h /\
  pool_ok (s_base e) (s_size e) (s_memMng e).

Lemma shared_init_law h config :
  host_idle h ->
  exists ret e h', shared_Initialize config shared_new h = (ret, e, h') /\
    ((ret = OFFLOAD_OK /\ shared_opened e h') \/ (ret <> OFFLOAD_OK /\ s_inited e = false /\ host_idle h')).
Proof.
  intros [Hc Hh]. unfold shared_Initialize, mbind, HM_bind, mret, HM_ret. cbn [s_inited shared_new].
  destruct (cfg_worldSize config =? 0); [do 3 eexists; split; [done|]; by right|].
  destruct (_ && _); [do 3 eexists; split; [done|]; by right|].
  destruct (shared_open_spec config shared_new h) as (ret & e1 & h2 & -> & HP & HO); [done|done|done|].
  destruct (Z.eqb_spec ret OFFLOAD_OK) as [->|Hne]; cbn [negb].
  - do 3 eexists. split; [done|]. left. destruct (HO eq_refl) as (H1 & H2 & H3). split; [done|].
    by split_and!.
  - match goal with |- context [shared_UnInitalize ?e ?h] =>
      destruct (shared_UnInitalize_spec e h) as (e2 & h3 & -> & Hi & Hid); [done|done|] end.
    do 3 eexists. split; [done|]. by right.
Qed.

#[global] Program Instance shared_laws : EntryLaws SharedEntry := {|
  opened := shared_opened;
  closed := fun e => s_inited e = false;
|}.
Next Obligation. apply shared_init_law. Qed.
Next Obligation.
  intros e h (Hi & _ & HH & _). apply shared_UnInitalize_spec; [done|by right].
Qed.
Next Obligation. intros e h Hi. simpl. unfold shared_UnInitalize. by rewrite Hi. Qed.
Next Obligation.
  intros n e h Hn (Hi & He & HH & HP). simpl. unfold shared_MallocHost.
  destruct (s_memMng e) as [mm|] eqn:Em; [|by destruct HP as (? & ? & _)].
  pose proof (pool_ok_allocate _ _ _ n Hn HP). by destruct (Allocate mm n).
Qed.
Next Obligation.
  intros ptr e h (Hi & He & HH & HP). simpl. unfold shared_FreeHost.
  destruct (s_memMng e) as [mm|] eqn:Em; [|by destruct HP as (? & ? & _)].
  destruct (ptr =? 0); unfold shared_opened; [rewrite Em|]; split_and!; try done. by apply pool_ok_release.
Qed.
Next Obligation.
  intros f e h (Hi & He & [Ho HH] & HP). split_and!; try done. split; [done|]. by apply holding_launch.
Qed.
Next Obligation. done. Qed.
Next Obligation.
  intros ptr n e h. simpl. unfold shared_GetDeviceAddress, mbind, HM_bind, ask. destruct (_ || _); [done|].
  by destruct (hybm_gva_to_va _ _).
Qed.
End shared.

(** ** The manager, proved against the interface *)
Section manager.
Context {E : Env}.

Definition x_opened (x : entry) (h : Host) : Prop :=
  match x with LocalDram e => opened e h | SharedDram e => opened e h end.
Definition x_closed (x : entry) : Prop :=
  match x with LocalDram e => closed e | SharedDram e => closed e end.

Local Ltac dispatching :=
  unfold x_UnInitalize, x_Initialize, x_MallocHost, x_FreeHost, dispatch, mbind, HM_bind, mret, HM_ret;
  cbv beta.

Lemma x_init scene config x h :
  make_entry scene = Some x -> host_idle h ->
  exists ret x' h', x_Initialize config x h = (ret, x', h') /\
    ((ret = OFFLOAD_OK /\ x_opened x' h') \/ (ret <> OFFLOAD_OK /\ x_closed x' /\ host_idle h')).
Proof.
  unfold make_entry. intros Hx Hh. repeat case_match; simplify_eq; dispatching.
  - destruct (law_init (T := LocalEntry) h config Hh) as (ret & e & h' & E1 & Hc). rewrite E1. by do 3 eexists.
  - destruct (law_init (T := SharedEntry) h config Hh) as (ret & e & h' & E1 & Hc). rewrite E1. by do 3 eexists.
Qed.

Lemma x_uninit x h :
  x_opened x h -> exists x' h', x_UnInitalize x h = (x', h') /\ x_closed x' /\ host_idle h'.
Proof.
  destruct x as [e|e]; intros Ho; dispatching; destruct (law_uninit e h Ho) as (e' & h' & E1 & Hc);
    rewrite E1; do 2 eexists; (split; [done|]); done.
Qed.

Lemma x_uninit_closed x h : x_closed x -> x_UnInitalize x h = (x, h).
Proof.
  destruct x as [e|e]; intros Hc; dispatching; pose proof (law_closed e h Hc) as E1; by rewrite E1.
Qed.

Lemma drop_closed x h : x_closed x -> drop_entry (Some x) h = (tt, h).
Proof. intros Hc. unfold drop_entry, mbind, HM_bind. by rewrite x_uninit_closed. Qed.

(** The manager holds an open entry exactly when it is initialised. *)
Definition manager_inv (m : Manager) (h : Host) : Prop :=
  match m_entry m with
  | None => m_inited m = false /\ host_idle h
  | Some x => m_inited m = true /\ x_opened x h
  end.

Lemma manager_inv_init : manager_inv manager_init host_init.
Proof. by split_and!. Qed.

Lemma mgr_Initialize_inv config m h :
  manager_inv m h ->
  exists ret m' h', mgr_Initialize config m h = (ret, m', h') /\ manager_inv m' h' /\
    m_inited m' = (ret =? OFFLOAD_OK).
Proof.
  unfold manager_inv, mgr_Initialize. destruct (m_entry m) as [x|] eqn:Em; intros [Hi Hh].
  { rewrite Hi. do 3 eexists. split_and!; [done|by rewrite Em|done]. }
  rewrite Hi. destruct (make_entry (cfg_scene config)) as [x|] eqn:Ex.
  2: { do 3 eexists. split_and!; [done|by rewrite Em|done]. }
  cbn [drop_entry]. unfold mbind, HM_bind, mret, HM_ret. cbv beta iota.
  destruct (x_init _ config x h Ex Hh) as (ret & x' & h' & E1 & Hc). rewrite E1.
  destruct Hc as [(-> & Ho)|(Hr & Hc & Hid)].
  { do 3 eexists. split_and!; [done|done|done]. }
  rewrite (proj2 (Z.eqb_neq _ _) Hr). cbn [negb]. rewrite !x_uninit_closed by done.
  do 3 eexists. split_and!; [done|done|]. cbn [m_inited].
  by rewrite (proj2 (Z.eqb_neq _ _) Hr).
Qed.

(** Whatever happened before, nothing is held after [UnInitalize]. *)
Lemma mgr_UnInitalize_inv m h :
  manager_inv m h ->
  exists m' h', mgr_UnInitalize m h = (m', h') /\ m_entry m' = None /\ m_inited m' = false /\ host_idle h'.
Proof.
  unfold manager_inv, mgr_UnInitalize. destruct (m_entry m) as [x|] eqn:Em; intros [Hi Hh]; rewrite Hi; cbn [negb].
  - unfold mbind, HM_bind, mret, HM_ret. destruct (x_uninit x h Hh) as (x' & h' & -> & Hc & Hid).
    rewrite drop_closed by done. do 2 eexists. by split_and!.
  - do 2 eexists. by split_and!.
Qed.

Definition op_ok (op : api_op) : Prop := match op with OpMalloc size => 0 <= size | _ => True end.

Lemma api_call_inv f m h :
  manager_inv m h -> exists ret h', api_call f h = (ret, h') /\ manager_inv m h'.
Proof.
  intros HI. unfold api_call, mbind, HM_bind, mret, HM_ret, get_api. destruct (_ =? 0); [by do 2 eexists|].
  do 2 eexists. split; [done|]. unfold manager_inv in *. cbn.
  destruct (m_entry m) as [[e|e]|]; destruct HI as [Hi HI]; (split; [done|]).
  1, 2: by apply (law_launch (f (h_api h))) in HI.
  destruct HI as [Hc Hh]. split; [done|]. by apply holding_launch.
Qed.

Lemma mgr_forward_inv (f : forall T, AccOffloadEntry T -> T -> HM Z) g m h :
  (forall e, f _ local_entry e = api_call g) -> (forall e, f _ shared_entry e = api_call g) ->
  manager_inv m h -> exists ret h', mgr_forward f m h = (ret, h') /\ manager_inv m h'.
Proof.
  intros H1 H2 HI. unfold mgr_forward. destruct (m_entry m) as [[e|e]|] eqn:Em; cbn [dispatch_const].
  - rewrite H1. by apply api_call_inv.
  - rewrite H2. by apply api_call_inv.
  - do 2 eexists. by split.
Qed.

Lemma run_op_inv op m h :
  op_ok op -> manager_inv m h -> manager_inv (run_op op m h).1.2 (run_op op m h).2.
Proof.
  intros Hok HI. destruct op as [config| |size|ptr|ptr size| | |]; cbn [run_op].
  - destruct (mgr_Initialize_inv config m h HI) as (ret & m' & h' & E1 & HI' & _).
    unfold offload_init. by rewrite E1.
  - destruct (mgr_UnInitalize_inv m h HI) as (m' & h' & E1 & Hn & Hi & Hid).
    unfold offload_uninit, mbind, HM_bind. rewrite E1. cbn. unfold manager_inv. by rewrite Hn.
  - unfold offload_malloc, mgr_MallocHost, manager_inv in *. destruct (m_entry m) as [x|] eqn:Em.
    + destruct x as [e|e]; dispatching; cbn; destruct HI as [Hi HI]; (split; [done|]);
        by apply (law_malloc size) in HI.
    + cbn. by rewrite Em.
  - unfold offload_free, mgr_FreeHost, manager_inv in *. unfold mbind, HM_bind, mret, HM_ret.
    destruct (m_entry m) as [x|] eqn:Em; [|cbn; by rewrite Em].
    destruct (ptr =? 0); [cbn; by rewrite Em|].
    destruct x as [e|e]; dispatching; cbn; destruct HI as [Hi HI]; (split; [done|]);
      by apply (law_free ptr) in HI.
  - unfold offload_get_device_address, mgr_GetDeviceAddress, mbind, HM_bind, mret, HM_ret.
    destruct (m_entry m) as [x|] eqn:Em; [|done]. destruct (_ || _); [done|].
    destruct x as [e|e]; cbn [x_GetDeviceAddress dispatch_const];
      pose proof (law_device ptr size e h) as Hd; by destruct (entry_GetDeviceAddress ptr size e h);
      simpl in Hd; subst.
  - unfold offload_sparse_copy, mgr_SparseCopy, mbind, HM_bind.
    edestruct (mgr_forward_inv (fun T I e => @entry_SparseCopy T I e)) as (ret & h' & E1 & HI');
      [done|done|exact HI|]. by rewrite E1.
  - unfold offload_lru_resident_compact, mgr_LruResidentCompact, mbind, HM_bind.
    edestruct (mgr_forward_inv (fun T I e => @entry_LruResidentCompact T I e)) as (ret & h' & E1 & HI');
      [done|done|exact HI|]. by rewrite E1.
  - unfold offload_compute_lru_resident_addrs, mgr_ComputeLruResidentAddrs, mbind, HM_bind.
    edestruct (mgr_forward_inv (fun T I e => @entry_ComputeLruResidentAddrs T I e)) as (ret & h' & E1 & HI');
      [done|done|exact HI|]. by rewrite E1.
Qed.

Lemma run_ops_inv ops m h :
  Forall op_ok ops -> manager_inv m h -> manager_inv (run_ops ops m h).1 (run_ops ops m h).2.
Proof.
  revert m h. induction ops as [|op ops IH]; intros m h Hok HI; [done|].
  inversion Hok as [|? ? Hop Hops]; subst. cbn [run_ops]. unfold mbind, HM_bind.
  pose proof (run_op_inv op m h Hop HI) as HI'. destruct (run_op op m h) as [[ret m'] h']. by apply IH.
Qed.

Lemma run_ops_app ops1 ops2 m h :
  run_ops (ops1 ++ ops2) m h = let '(m', h') := run_ops ops1 m h in run_ops ops2 m' h'.
Proof.
  revert m h. induction ops1 as [|op ops1 IH]; intros m h; [done|].
  cbn [run_ops app]. unfold mbind, HM_bind. destruct (run_op op m h) as [[ret m'] h']. apply IH.
Qed.
End manager.

(** ** Range checks *)
Lemma RangeInPool_spec base poolSize ptr size :
  0 <= base -> 0 <= poolSize -> 0 <= ptr -> 0 <= size ->
  RangeInPool base poolSize ptr size = true <->
  0 < base /\ 0 < size /\ base <= ptr /\ ptr + size <= base + poolSize.
Proof. intros. unfold RangeInPool. repeat case_match; lia. Qed.

(** A block the pool handed out passes the range check of its own entry. *)
Lemma malloc_in_pool base size mm n p mm' :
  sane base size -> pool_ok base size (Some mm) -> 0 < n ->
  Allocate mm n = (p, mm') -> p <> 0 -> RangeInPool base size p n = true.
Proof.
  intros Hs (? & [= <-] & Eb & Es & Hi) Hn HA Hp. specialize (Hi Hs).
  destruct (Allocate_success mm Hi n p mm' ltac:(lia) HA Hp) as (H1 & H2 & H3 & _).
  unfold sane in Hs. apply RangeInPool_spec; lia.
Qed.

(** ** Kernels are launched through an open library only *)
Definition is_launch (ev : event) : bool := match ev with EvLaunch _ => true | _ => false end.

(** A computation that only appends to the trace, and launches nothing. *)
Definition quiet {A} (m : HM A) : Prop := forall h,
  exists tr, h_trace (m h).2 = h_trace h ++ tr /\ Forall (fun ev => is_launch ev = false) tr.

Section quiet.
Context {E : Env}.

Lemma quiet_same {A} (m : HM A) : (forall h, h_trace (m h).2 = h_trace h) -> quiet m.
Proof. intros H h. exists []. by rewrite H, app_nil_r. Qed.
Lemma quiet_ret {A} (a : A) : quiet (mret a).
Proof. by apply quiet_same. Qed.
Lemma quiet_ask {A} (f : history -> A) : quiet (ask f).
Proof. by apply quiet_same. Qed.
Lemma quiet_get_api : quiet get_api.
Proof. by apply quiet_same. Qed.
Lemma quiet_set_api a : quiet (set_api a).
Proof. by apply quiet_same. Qed.
Lemma quiet_emit ev : is_launch ev = false -> quiet (emit ev).
Proof. intros H h. exists [ev]. split; [done|]. by constructor. Qed.
Lemma quiet_bind {A B} (m : HM A) (f : A -> HM B) : quiet m -> (forall a, quiet (f a)) -> quiet (m ≫= f).
Proof.
  intros Hm Hf h. unfold mbind, HM_bind. destruct (Hm h) as (tr & E1 & F1). destruct (m h) as [a h1]. simpl in *.
  destruct (Hf a h1) as (tr' & E2 & F2). exists (tr ++ tr'). rewrite E2, E1, <- app_assoc.
  split; [done|]. by apply Forall_app.
Qed.
End quiet.

Create HintDb quiet_db.
#[export] Hint Resolve quiet_ret quiet_ask quiet_get_api quiet_set_api quiet_emit quiet_bind : quiet_db.

(** Walks through the code of a quiet computation. *)
Local Ltac quiet_step :=
  match goal with
  | |- forall _, _ => intro
  | |- quiet (if ?b then _ else _) => destruct b
  | |- quiet (match ?x with _ => _ end) => destruct x
  | |- quiet (let _ := _ in _) => cbv zeta
  | |- _ => solve [eauto with quiet_db nocore]
  | |- quiet (_ ≫= _) => apply quiet_bind
  | |- quiet (emit _) => apply quiet_emit; reflexivity
  end.
Local Ltac quiet_code := repeat quiet_step.

Section quiet_code.
Context {E : Env}.

Lemma quiet_TryLoadLibrary : quiet TryLoadLibrary.
Proof. unfold TryLoadLibrary. quiet_code. Qed.
Lemma quiet_CleanupLibrary : quiet CleanupLibrary.
Proof. unfold CleanupLibrary. quiet_code. Qed.
#[local] Hint Resolve quiet_TryLoadLibrary quiet_CleanupLibrary : quiet_db.

Lemma quiet_local_open options e : quiet (local_open options e).
Proof. unfold local_open. quiet_code. Qed.
Lemma quiet_local_UnInitalize e : quiet (local_UnInitalize e).
Proof. unfold local_UnInitalize. quiet_code. Qed.
Lemma quiet_shared_open config e : quiet (shared_open config e).
Proof. unfold shared_open, shared_pool. quiet_code. Qed.
Lemma quiet_shared_UnInitalize e : quiet (shared_UnInitalize e).
Proof. unfold shared_UnInitalize. quiet_code. Qed.
#[local] Hint Resolve quiet_local_open quiet_local_UnInitalize quiet_shared_open quiet_shared_UnInitalize : quiet_db.

Lemma quiet_local_Initialize config e : quiet (local_Initialize config e).
Proof. unfold local_Initialize. quiet_code. Qed.
Lemma quiet_shared_Initialize config e : quiet (shared_Initialize config e).
Proof. unfold shared_Initialize. quiet_code. Qed.
#[local] Hint Resolve quiet_local_Initialize quiet_shared_Initialize : quiet_db.

Lemma quiet_x_UnInitalize x : quiet (x_UnInitalize x).
Proof. unfold x_UnInitalize, dispatch. cbn [entry_UnInitalize local_entry shared_entry]. quiet_code. Qed.
Lemma quiet_x_Initialize config x : quiet (x_Initialize config x).
Proof. unfold x_Initialize, dispatch. cbn [entry_Initialize local_entry shared_entry]. quiet_code. Qed.
#[local] Hint Resolve quiet_x_UnInitalize quiet_x_Initialize : quiet_db.

Lemma quiet_mgr_Initialize config m : quiet (mgr_Initialize config m).
Proof. unfold mgr_Initialize, drop_entry. quiet_code. Qed.
Lemma quiet_mgr_UnInitalize m : quiet (mgr_UnInitalize m).
Proof. unfold mgr_UnInitalize, drop_entry. quiet_code. Qed.
Lemma quiet_mgr_MallocHost size m : quiet (mgr_MallocHost size m).
Proof. unfold mgr_MallocHost, x_MallocHost, dispatch. quiet_code. Qed.
Lemma quiet_mgr_FreeHost ptr m : quiet (mgr_FreeHost ptr m).
Proof. unfold mgr_FreeHost, x_FreeHost, dispatch. quiet_code. Qed.
End quiet_code.

(** Every launch goes through a symbol of a library that is open at that point. *)
Definition launch_safe (tr : history) : Prop := forall tr1 f tr2,
  tr = tr1 ++ EvLaunch f :: tr2 -> f <> 0 /\ exists handle, handle <> 0 /\ 0 < net (RLibrary handle) tr1.

Lemma launch_safe_snoc tr ev :
  launch_safe tr ->
  (forall f, ev = EvLaunch f -> f <> 0 /\ exists handle, handle <> 0 /\ 0 < net (RLibrary handle) tr) ->
  launch_safe (tr ++ [ev]).
Proof.
  intros Hs Hev tr1 f tr2 Eq. destruct tr2 as [|ev' tr2 _] using rev_ind.
  - apply app_inj_tail in Eq as [<- E2]. by apply Hev.
  - rewrite app_comm_cons, app_assoc in Eq. apply app_inj_tail in Eq as [-> _]. by eapply Hs.
Qed.

Lemma launch_safe_quiet {A} (m : HM A) h : quiet m -> launch_safe (h_trace h) -> launch_safe (h_trace (m h).2).
Proof.
  intros Hq. destruct (Hq h) as (tr & -> & Hf). generalize (h_trace h) as tr0.
  induction Hf as [|ev tr Hev Hf IH]; intros tr0 Hs; [by rewrite app_nil_r|].
  rewrite cons_middle, app_assoc. apply IH, launch_safe_snoc; [done|]. by intros f ->.
Qed.

Lemma held_nonneg r rs : 0 <= foldr (fun r' n => ind r (Some r') + n) 0 rs.
Proof. induction rs as [|r' rs IH]; cbn [foldr]; [done|]. unfold ind at 1. case_decide; lia. Qed.

Lemma host_holds_library rs h :
  host_holds rs h -> libHandle (h_api h) <> 0 /\ 0 < net (RLibrary (libHandle (h_api h))) (h_trace h).
Proof.
  intros [[_ Hl] Hh]. split; [done|]. rewrite Hh. cbn [foldr].
  pose proof (held_nonneg (RLibrary (libHandle (h_api h))) rs).
  assert (ind (RLibrary (libHandle (h_api h))) (Some RHybm) = 0) as -> by done.
  assert (ind (RLibrary (libHandle (h_api h))) (Some (RLibrary (libHandle (h_api h)))) = 1) as ->
    by (unfold ind; by rewrite decide_True).
  lia.
Qed.

Section launches.
Context {E : Env}.

Lemma x_opened_library x h :
  x_opened x h -> libHandle (h_api h) <> 0 /\ 0 < net (RLibrary (libHandle (h_api h))) (h_trace h).
Proof. destruct x as [e|e]; intros (_ & _ & Hh & _); by eapply host_holds_library. Qed.

Lemma api_call_launches g x h :
  x_opened x h -> launch_safe (h_trace h) -> launch_safe (h_trace (api_call g h).2).
Proof.
  intros Ho Hs. unfold api_call, mbind, HM_bind, get_api.
  destruct (Z.eqb_spec (g (h_api h)) 0) as [|Hg]; [done|].
  simpl. apply launch_safe_snoc; [done|]. intros f [= <-]. split; [done|].
  eexists. by eapply x_opened_library.
Qed.

Lemma mgr_forward_launches (f : forall T, AccOffloadEntry T -> T -> HM Z) g m h :
  (forall e, f _ local_entry e = api_call g) -> (forall e, f _ shared_entry e = api_call g) ->
  manager_inv m h -> launch_safe (h_trace h) -> launch_safe (h_trace (mgr_forward f m h).2).
Proof.
  intros H1 H2 HI. unfold mgr_forward, manager_inv in *. destruct (m_entry m) as [x|]; [|done].
  destruct HI as [_ Ho]. destruct x; cbn [dispatch_const]; [rewrite H1|rewrite H2]; by eapply api_call_launches.
Qed.

Lemma run_op_launches op m h :
  manager_inv m h -> launch_safe (h_trace h) -> launch_safe (h_trace (run_op op m h).2).
Proof.
  intros HI Hs.
  assert (Hret : forall {A B} (k : HM A) (g : A -> B), h_trace ((k ≫= fun a => mret (g a)) h).2 = h_trace (k h).2).
  { intros A B k g. unfold mbind, HM_bind. by destruct (k h). }
  destruct op; cbn [run_op]; rewrite ?Hret.
  - by apply launch_safe_quiet; [apply quiet_mgr_Initialize|].
  - by apply launch_safe_quiet; [apply quiet_mgr_UnInitalize|].
  - by apply launch_safe_quiet; [apply quiet_mgr_MallocHost|].
  - by apply launch_safe_quiet; [apply quiet_mgr_FreeHost|].
  - unfold offload_get_device_address, mgr_GetDeviceAddress. destruct (m_entry m) as [[e|e]|]; [| |done];
      (destruct (_ || _); [done|]); cbn [x_GetDeviceAddress dispatch_const]; by rewrite law_device.
  - by eapply mgr_forward_launches.
  - by eapply mgr_forward_launches.
  - by eapply mgr_forward_launches.
Qed.

Lemma run_ops_launches ops m h :
  Forall op_ok ops -> manager_inv m h -> launch_safe (h_trace h) -> launch_safe (h_trace (run_ops ops m h).2).
Proof.
  revert m h. induction ops as [|op ops IH]; intros m h Hok HI Hs; [done|].
  inversion Hok as [|? ? Hop Hops]; subst. cbn [run_ops]. unfold mbind, HM_bind.
  pose proof (run_op_inv op m h Hop HI) as HI'. pose proof (run_op_launches op m h HI Hs) as Hs'.
  destruct (run_op op m h) as [[ret m'] h']. by apply IH.
Qed.
End launches.

(** ** The hybm library under a trace *)
Section replay.
Context {E : Env} {HE : HybmEnv}.

(** The calls of a trace, run on the reference-counted library. *)
Definition replay (s : Hybm) (ev : event) : Hybm :=
  match ev with
  | EvHybmInit deviceId flags _ => (HybmInit deviceId flags s).2
  | EvHybmUninit => HybmUninit s
  | _ => s
  end.

(** The library belongs to another module, which uses another device. *)
Lemma local_Initialize_other_device config s :
  0 < initialized s -> initedDeviceId s <> cfg_deviceId config ->
  hybm_init [] (cfg_deviceId config) 0 = (HybmInit (cfg_deviceId config) 0 s).1 ->
  (local_Initialize config local_new host_init).1.1 = OFFLOAD_ERROR /\
  h_trace (local_Initialize config local_new host_init).2 =
    [EvHybmInit (cfg_deviceId config) 0 BM_ERROR; EvHybmUninit] /\
  HybmInit (cfg_deviceId config) 0 s = (BM_ERROR, s).
Proof.
  intros Hs Hd Hret.
  assert (HI : HybmInit (cfg_deviceId config) 0 s = (BM_ERROR, s)).
  { unfold HybmInit. rewrite (proj2 (Z.ltb_lt _ _) Hs), (proj2 (Z.eqb_neq _ _) Hd). done. }
  rewrite HI in Hret. unfold local_Initialize, mbind, HM_bind, mret, HM_ret, ask, emit.
  cbn [l_inited local_new h_trace host_init]. rewrite Hret. done.
Qed.
End replay.
