(* ===== verification/ExchangeInfo.v ===== *)
(** * ExchangeInfo: identifiers of memory slices and the descriptions processes exchange

    [hybm/csrc/mm/hybm_mem_slice.h, .cpp] and [hybm_ex_info_transfer.h], with the structs
    that travel through them.  A slice is known to callers by a 64-bit word made of bit
    fields.  A description is a buffer of 512 bytes with a length; its writer and its reader
    can leave the buffer, which is the outcome [Outside].  Structs are copied as bytes of a
    little-endian machine; padding behind the last field is never read and taken as zero. *)
From stdpp Require Import gmap.
From S2P Require Import Prelude MessagePacker VaManager.

(** ** Slices *)
Inductive MemAllocMethod := MMAP | HAL_MEM_ALLOC.
#[global] Instance alloc_method_eq_dec : EqDecision MemAllocMethod.
Proof. solve_decision. Defined.
Definition MEM_PT_TYPE_SVM : Z := 0.
Definition gMagicBits : Z := 0xFFFFFF.

(** [s_obj] is the address of the object, which identifies it. *)
Record MemSlice := mkSlice {
  s_obj : Z; index_ : Z; memType_ : Z; memPageTblType_ : Z; gva_ : Z; vAddress_ : Z; size_ : Z;
  allocMethod_ : MemAllocMethod }.
#[global] Instance slice_eq_dec : EqDecision MemSlice.
Proof. solve_decision. Defined.
Definition MakeObjectMagic (srcAddress : Z) : Z := Z.land srcAddress gMagicBits.
Definition magic_ (s : MemSlice) : Z := MakeObjectMagic (s_obj s).

(** Bit fields: 24 bits magic, 32 index, 4 memory type, 2 page table type, 2 reserved. *)
Definition ConvertToId (s : MemSlice) : Z :=
  Z.lor (magic_ s) (Z.lor (Z.shiftl (index_ s mod 2 ^ 32) 24)
    (Z.lor (Z.shiftl (memType_ s mod 2 ^ 4) 56) (Z.shiftl (memPageTblType_ s mod 2 ^ 2) 60))).
Definition ValidateId (s : MemSlice) (slice : Z) : bool := slice =? ConvertToId s.
Definition GetIndexFrom (slice : Z) : Z := Z.land (Z.shiftr slice 24) (2 ^ 32 - 1).

Lemma magic_range s : 0 <= magic_ s < 2 ^ 24.
Proof.
  unfold magic_, MakeObjectMagic, gMagicBits. change 0xFFFFFF with (Z.ones 24). rewrite Z.land_ones by lia.
  apply Z.mod_pos_bound. lia.
Qed.
Lemma shiftr_low x n m : 0 <= x < 2 ^ n -> 0 <= n <= m -> Z.shiftr x m = 0.
Proof.
  intros Hx Hn. rewrite Z.shiftr_div_pow2 by lia. apply Z.div_small. split; [lia|].
  pose proof (Z.pow_le_mono_r 2 n m). lia.
Qed.
(** The index of a slice is read back from its identifier. *)
Lemma GetIndexFrom_id s : GetIndexFrom (ConvertToId s) = index_ s mod 2 ^ 32.
Proof.
  unfold GetIndexFrom, ConvertToId. rewrite !Z.shiftr_lor, (shiftr_low _ 24) by (pose proof (magic_range s); lia).
  rewrite Z.lor_0_l, (Z.shiftr_shiftl_l _ 24 24), Z.shiftl_0_r by lia. rewrite !Z.shiftr_shiftl_l by lia.
  change (2 ^ 32 - 1) with (Z.ones 32). rewrite !Z.land_lor_distr_l. rewrite !(Z.land_ones _ 32) by lia.
  rewrite !Z.shiftl_mul_pow2 by lia. replace (56 - 24) with (0 + 32) by lia. replace (60 - 24) with (4 + 32) by lia.
  rewrite !Z.pow_add_r, !Z.mul_assoc, !Z.mod_mul by lia. rewrite !Z.lor_0_r, Z.mod_mod by lia. done.
Qed.

(** ** Structs as bytes: fields with their sizes, in order *)
Definition encode (fields : list (Z * Z)) : bytes := concat ((fun f : Z * Z => Z_to_little_endian f.1 8 f.2) <$> fields).
Fixpoint decode (sizes : list Z) (b : bytes) : list Z :=
  match sizes with
  | [] => []
  | n :: sizes => little_endian_to_Z 8 (take (Z.to_nat n) b) :: decode sizes (drop (Z.to_nat n) b)
  end.
Definition field_ok (f : Z * Z) : Prop := 0 <= f.1 /\ 0 <= f.2 < 2 ^ (8 * f.1).
Lemma length_field n x : 0 <= n -> length (Z_to_little_endian n 8 x) = Z.to_nat n.
Proof. intros Hn. apply Nat2Z.inj. rewrite length_Z_to_little_endian by lia. lia. Qed.
Lemma decode_encode fields rest :
  Forall field_ok fields -> decode (fst <$> fields) (encode fields ++ rest) = snd <$> fields.
Proof.
  induction 1 as [|[n x] fields [Hn Hx] _ IH]; [done|]. unfold encode in *. cbn [fmap list_fmap concat decode fst snd] in *.
  pose proof (length_field n x Hn) as Hl. rewrite <- app_assoc, take_app_length', drop_app_length' by lia. rewrite IH.
  f_equal. rewrite little_endian_to_Z_to_little_endian by lia. rewrite Z.mod_small; [done|]. by rewrite Z.mul_comm.
Qed.
Lemma blen_encode fields : Forall (fun f : Z * Z => 0 <= f.1) fields -> blen (encode fields) = foldr Z.add 0 (fst <$> fields).
Proof.
  unfold blen, encode. induction 1 as [|[n x] fields Hn _ IH]; [done|]. cbn [fmap list_fmap concat foldr fst snd] in *.
  rewrite length_app, length_field by done. lia.
Qed.

(** ** What a host segment exports of a slice *)
Definition DRAM_SLICE_EXPORT_INFO_MAGIC : Z := 0xAABB1234FFFFEE02.
Definition HBM_SLICE_EXPORT_INFO_MAGIC : Z := 0xAABB1234FFFFEE01.
Definition VMM_BASE_HBM_SLICE_EXPORT_INFO_MAGIC : Z := 0xAABB1234FFFFEE03.
Definition VMM_BASE_DRAM_SLICE_EXPORT_INFO_MAGIC : Z := 0xAABB1234FFFFEE04.
Definition EXPORT_INFO_VERSION : Z := 1.
Definition UNIFIED_EXCHANGE_SEG_INFO_SIZE : Z := 192.
Definition IsDramSlice (magic : Z) : bool :=
  (magic =? DRAM_SLICE_EXPORT_INFO_MAGIC) || (magic =? VMM_BASE_DRAM_SLICE_EXPORT_INFO_MAGIC).
Definition IsHbmSlice (magic : Z) : bool :=
  (magic =? HBM_SLICE_EXPORT_INFO_MAGIC) || (magic =? VMM_BASE_HBM_SLICE_EXPORT_INFO_MAGIC).

Record HostExportInfo := mkHostInfo {
  hi_magic : Z; hi_version : Z; hi_gva : Z; hi_sliceIndex : Z; hi_rankId : Z; hi_size : Z;
  hi_pageTblType : Z; hi_memSegType : Z; hi_exchangeType : Z }.
Definition host_info_sizes : list Z := [8; 8; 8; 4; 4; 8; 4; 4; 4].
Definition host_info_fields (i : HostExportInfo) : list Z :=
  [hi_magic i; hi_version i; hi_gva i; hi_sliceIndex i; hi_rankId i; hi_size i; hi_pageTblType i; hi_memSegType i;
   hi_exchangeType i].
Definition SerializeHost (i : HostExportInfo) : bytes :=
  encode (zip host_info_sizes (host_info_fields i)) ++ replicate (Z.to_nat (UNIFIED_EXCHANGE_SEG_INFO_SIZE - 52)) 0.
Definition DeserializeHost (info : bytes) : option HostExportInfo :=
  if negb (blen info =? UNIFIED_EXCHANGE_SEG_INFO_SIZE) then None else
  match decode host_info_sizes info with
  | [a; b; c; d; e; f; g; h; i] => Some (mkHostInfo a b c d e f g h i)
  | _ => None
  end.
Definition host_info_ok (i : HostExportInfo) : Prop := Forall field_ok (zip host_info_sizes (host_info_fields i)).
Lemma blen_SerializeHost i : blen (SerializeHost i) = UNIFIED_EXCHANGE_SEG_INFO_SIZE.
Proof.
  unfold SerializeHost. unfold blen. rewrite length_app, Nat2Z.inj_add, length_replicate.
  pose proof (blen_encode (zip host_info_sizes (host_info_fields i)) ltac:(repeat constructor; simpl; lia)) as H.
  unfold blen in H. rewrite H. reflexivity.
Qed.
Lemma DeserializeHost_Serialize i : host_info_ok i -> DeserializeHost (SerializeHost i) = Some i.
Proof.
  intros Hi. unfold DeserializeHost. rewrite blen_SerializeHost, Z.eqb_refl. cbn [negb].
  pose proof (decode_encode _ (replicate (Z.to_nat (UNIFIED_EXCHANGE_SEG_INFO_SIZE - 52)) 0) Hi) as H. fold (SerializeHost i) in H.
  change (fst <$> zip host_info_sizes (host_info_fields i)) with host_info_sizes in H. rewrite H. by destruct i.
Qed.

(** The export of a shared-memory segment has an offset in place of an address and one
    more flag. *)
Record ShmExportInfo := mkShmInfo {
  si_magic : Z; si_version : Z; si_mappingOffset : Z; si_sliceIndex : Z; si_rankId : Z; si_size : Z;
  si_pageTblType : Z; si_memSegType : Z; si_exchangeType : Z; si_useHugetlbfs : Z }.
Definition shm_info_sizes : list Z := host_info_sizes ++ [1].
Definition shm_info_fields (i : ShmExportInfo) : list Z :=
  [si_magic i; si_version i; si_mappingOffset i; si_sliceIndex i; si_rankId i; si_size i; si_pageTblType i;
   si_memSegType i; si_exchangeType i; si_useHugetlbfs i].
Definition SerializeShm (i : ShmExportInfo) : bytes :=
  encode (zip shm_info_sizes (shm_info_fields i)) ++ replicate (Z.to_nat (UNIFIED_EXCHANGE_SEG_INFO_SIZE - 53)) 0.
Definition DeserializeShm (info : bytes) : option ShmExportInfo :=
  if negb (blen info =? UNIFIED_EXCHANGE_SEG_INFO_SIZE) then None else
  match decode shm_info_sizes info with
  | [a; b; c; d; e; f; g; h; i; j] => Some (mkShmInfo a b c d e f g h i j)
  | _ => None
  end.
Definition shm_info_ok (i : ShmExportInfo) : Prop := Forall field_ok (zip shm_info_sizes (shm_info_fields i)).
Lemma blen_SerializeShm i : blen (SerializeShm i) = UNIFIED_EXCHANGE_SEG_INFO_SIZE.
Proof.
  unfold SerializeShm. unfold blen. rewrite length_app, Nat2Z.inj_add, length_replicate.
  pose proof (blen_encode (zip shm_info_sizes (shm_info_fields i)) ltac:(repeat constructor; simpl; lia)) as H.
  unfold blen in H. rewrite H. reflexivity.
Qed.
Lemma DeserializeShm_Serialize i : shm_info_ok i -> DeserializeShm (SerializeShm i) = Some i.
Proof.
  intros Hi. unfold DeserializeShm. rewrite blen_SerializeShm, Z.eqb_refl. cbn [negb].
  pose proof (decode_encode _ (replicate (Z.to_nat (UNIFIED_EXCHANGE_SEG_INFO_SIZE - 53)) 0) Hi) as H. fold (SerializeShm i) in H.
  change (fst <$> zip shm_info_sizes (shm_info_fields i)) with shm_info_sizes in H. rewrite H. by destruct i.
Qed.

(** ** Descriptions *)
Inductive access (A : Type) := Outside | Refused | Got (a : A).
Arguments Outside {A}.
Arguments Refused {A}.
Arguments Got {A} a.
Definition DESC_SIZE : Z := 512.
Record hybm_exchange_info := mkDesc { desc : bytes; descLen : Z }.
(** A description as it is declared: 512 bytes, [descLen] of them written. *)
Definition desc_ok (d : hybm_exchange_info) : Prop := blen (desc d) = DESC_SIZE /\ 0 <= descLen d <= DESC_SIZE.
Definition ExchangeInfoWriter (d : hybm_exchange_info) : hybm_exchange_info := mkDesc (desc d) 0.
Definition overwrite (pos : Z) (data b : bytes) : bytes :=
  take (Z.to_nat pos) b ++ data ++ drop (Z.to_nat pos + length data) b.
(** The test compares the position with the size of the buffer, not the end of the data. *)
Definition Append (data : bytes) (d : hybm_exchange_info) : access hybm_exchange_info :=
  if DESC_SIZE <? descLen d then Refused else
  if DESC_SIZE <? descLen d + blen data then Outside else
  Got (mkDesc (overwrite (descLen d) data (desc d)) (descLen d + blen data)).

Record ExchangeInfoReader := mkReader { exchangeInfo_ : hybm_exchange_info; readOffset_ : Z }.
Definition reader_of (d : hybm_exchange_info) : ExchangeInfoReader := mkReader d 0.
Definition reader_Test (length : Z) (r : ExchangeInfoReader) : access bytes :=
  if descLen (exchangeInfo_ r) <? readOffset_ r + length then Refused else
  if DESC_SIZE <? readOffset_ r + length then Outside else
  Got (take (Z.to_nat length) (drop (Z.to_nat (readOffset_ r)) (desc (exchangeInfo_ r)))).
Definition reader_Read (length : Z) (r : ExchangeInfoReader) : access (bytes * ExchangeInfoReader) :=
  match reader_Test length r with
  | Got b => Got (b, mkReader (exchangeInfo_ r) (readOffset_ r + length))
  | Refused => Refused
  | Outside => Outside
  end.
Definition LeftBytes (r : ExchangeInfoReader) : Z :=
  if descLen (exchangeInfo_ r) <=? readOffset_ r then 0 else descLen (exchangeInfo_ r) - readOffset_ r.
Definition LeftToString (r : ExchangeInfoReader) : access (bytes * ExchangeInfoReader) :=
  if descLen (exchangeInfo_ r) <=? readOffset_ r then Got ([], r) else
  if DESC_SIZE <? descLen (exchangeInfo_ r) then Outside else
  Got (take (Z.to_nat (LeftBytes r)) (drop (Z.to_nat (readOffset_ r)) (desc (exchangeInfo_ r))),
       mkReader (exchangeInfo_ r) (descLen (exchangeInfo_ r))).

(** What a description says: the bytes that were written. *)
Definition written (d : hybm_exchange_info) : bytes := take (Z.to_nat (descLen d)) (desc d).

Lemma Append_fits data d :
  desc_ok d -> descLen d + blen data <= DESC_SIZE ->
  exists d', Append data d = Got d' /\ desc_ok d' /\ written d' = written d ++ data /\ descLen d' = descLen d + blen data.
Proof.
  intros [Hl Hd] Hf. unfold Append. rewrite (proj2 (Z.ltb_ge _ _)) by lia. rewrite (proj2 (Z.ltb_ge _ _)) by lia.
  eexists. split; [done|]. unfold desc_ok, written, overwrite, blen in *. cbn [desc descLen].
  assert (Hp : (Z.to_nat (descLen d) + length data <= length (desc d))%nat) by lia.
  split_and!; [|lia|lia| |done].
  - rewrite !length_app, length_take, length_drop. lia.
  - replace (Z.to_nat (descLen d + Z.of_nat (length data))) with (Z.to_nat (descLen d) + length data)%nat by lia.
    rewrite app_assoc, take_app_le by (rewrite length_app, length_take; lia).
    by rewrite take_ge by (rewrite length_app, length_take; lia).
Qed.

(** Reading a part of what was written. *)
Lemma reader_Read_part d before part after :
  desc_ok d -> written d = before ++ part ++ after ->
  reader_Read (blen part) (mkReader d (blen before)) = Got (part, mkReader d (blen before + blen part)).
Proof.
  intros [Hl Hd] Hw. unfold reader_Read, reader_Test. cbn [exchangeInfo_ readOffset_].
  assert (Hlen : descLen d = blen before + blen part + blen after).
  { apply (f_equal length) in Hw. unfold written, blen in *. rewrite length_take, !length_app in Hw. lia. }
  rewrite (proj2 (Z.ltb_ge _ _)) by (unfold blen in *; lia). rewrite (proj2 (Z.ltb_ge _ _)) by (unfold blen in *; lia).
  do 2 f_equal. rewrite <- (take_drop (Z.to_nat (descLen d)) (desc d)). fold (written d). rewrite Hw, <- !app_assoc.
  unfold blen. rewrite !Nat2Z.id, drop_app_length, take_app_length. done.
Qed.
(** A reader never leaves a description as declared. *)
Lemma reader_inside d off n : desc_ok d -> 0 <= off -> 0 <= n -> reader_Test n (mkReader d off) <> Outside.
Proof.
  intros [Hl Hd] Ho Hn. unfold reader_Test. cbn [exchangeInfo_ readOffset_]. destruct (Z.ltb_spec (descLen d) (off + n)); [done|].
  rewrite (proj2 (Z.ltb_ge _ _)) by lia. done.
Qed.
