(* ===== verification/SegmentWorld.v ===== *)
(** * SegmentWorld: what memory segments and entities run in

    A process has one address manager ([HybmVaManager], a singleton of the source) and
    calls the operating system, the device driver and the layers it does not implement.
    Every call is logged with its answer; the answer is a parameter that may depend on the
    log so far.  Programs pass the state of their object and the process along. *)
From stdpp Require Import gmap.
From S2P Require Import Prelude MessagePacker VaManager ExchangeInfo.

Definition PROT_NONE : Z := 0.
Definition PROT_RW : Z := 3.
Definition MAP_SHARED : Z := 0x1.
Definition MAP_PRIVATE : Z := 0x2.
Definition MAP_FIXED : Z := 0x10.
Definition MAP_ANONYMOUS : Z := 0x20.
Definition MAP_NORESERVE : Z := 0x4000.
Definition MAP_POPULATE : Z := 0x8000.
Definition MAP_HUGETLB : Z := 0x40000.
Definition MAP_FIXED_NOREPLACE : Z := 0x100000.
Definition MAP_FAILED : Z := 18446744073709551615.
Definition EEXIST : Z := 17.
Definition ENOENT : Z := 2.
Definition flags_of (l : list Z) : Z := foldr Z.lor 0 l.

(** The parts behind the composed transport and the composed data operator. *)
Inductive part := HostTransport | DeviceTransport | SdmaOperator | DevRdmaOperator | HostRdmaOperator | HostShmOperator.
#[global] Instance part_eq_dec : EqDecision part.
Proof. solve_decision. Defined.
Inductive call :=
| Mmap (addr size prot flags fd offset : Z)
| Munmap (addr size : Z)
| Touch (addr : Z)                             (* a store of zero to a byte *)
| Fstat (fd : Z)
| Ftruncate (fd size : Z)
| Open (path : bytes) (create : bool)          (* create: O_CREAT | O_EXCL *)
| Flock (fd : Z)
| Close (fd : Z)
| Unlink (path : bytes)
| HugetlbfsAvailable
| HalMemAlloc (size : Z)
| HalMemFree (ptr : Z)
| HalHostRegister (addr size : Z)
| HalHostUnregisterEx (addr : Z)
| AclrtSetDevice
| AclrtMemcpy (dest max : Z) (data : bytes)
| NewObject                                    (* the address of a new object *)
| StackBytes (n : Z)                           (* bytes of an array that is not initialised *)
| InitDeviceInfo                               (* the output is the kind of processor *)
| GetGvaVersion
| LoadExtendLibrary (device : bool)
| OpenDevice | CloseDevice
| RegisterMemoryRegion (addr size flags : Z)
| UnregisterMemoryRegion (addr : Z)
| QueryMemoryKey (addr : Z)
| UpdateMemoryKey (key : bytes) (addr : Z)
| GetNic | GetQpInfo
| Prepare (options : list (Z * (bytes * Z * list bytes)))
| Connect
| UpdateRankOptions (options : list (Z * (bytes * Z * list bytes)))
| ConnectWithOptions (options : list (Z * (bytes * Z * list bytes)))
| RemoveRanks (ranks : list Z)
| DataOpInitialize
| UpdateGvaSpace (memType gva localSpaceSize rankCount : Z)
| DataOpCleanUp
| DataCopy (src dest size direction srcRank destRank : Z)
| BatchDataCopy (direction : Z) (groups : list (Z * Z * list Z))
| DataOpQuantCopy
| DataOpWait
| DataOpUnInitialize
| DataCopyAsync (src dest size direction srcRank destRank : Z)
| GroupCopy (direction srcRank destRank : Z) (copies : list (Z * Z * Z))   (* a batch between two ranks *)
| MixedCopy (direction : Z) (copies : list (Z * Z * Z))                    (* a batch between any ranks *)
| Memcpy (dest src length kind : Z)
| QueryHasRegistered (addr size : Z)
| AsyncConnect
| WaitForConnected (timeoutNs : Z)
| ReadRemote (rankId lAddr rAddr size : Z)
| WriteRemote (rankId lAddr rAddr size : Z)
| ReadRemoteAsync (rankId lAddr rAddr size : Z)
| WriteRemoteAsync (rankId lAddr rAddr size : Z)
| ReadRemoteBatchAsync (rankId : Z) (descriptor : list (Z * Z * Z))
| WriteRemoteBatchAsync (rankId : Z) (descriptor : list (Z * Z * Z))
| Synchronize (rankId : Z)
| Via (p : part) (c : call).                   (* a call of the same interface, of one part *)
(** The result, an output number (an address, a size, [errno]) and output bytes. *)
Record answer := mkAns { ret : Z; out : Z; out_bytes : bytes }.
Definition log := list (call * answer).
Class Os := { os_answer : log -> call -> answer }.

Record World := mkWorld { w_vm : HybmVaManager; w_log : log }.
Definition SM (S A : Type) : Type := S * World -> A * (S * World).
#[global] Instance SM_ret S : MRet (SM S) := fun A a sw => (a, sw).
#[global] Instance SM_bind S : MBind (SM S) := fun A B f m sw => let '(a, sw) := m sw in f a sw.

Definition gets {S A} (f : S -> A) : SM S A := fun sw => (f sw.1, sw).
Definition upd {S} (f : S -> S) : SM S unit := fun sw => (tt, (f sw.1, sw.2)).
Definition in_vm {S A} (f : HybmVaManager -> A * HybmVaManager) : SM S A :=
  fun sw => let '(a, vm) := f (w_vm sw.2) in (a, (sw.1, mkWorld vm (w_log sw.2))).
Definition vm_get {S A} (f : HybmVaManager -> A) : SM S A := fun sw => (f (w_vm sw.2), sw).
Definition log_get {S A} (f : log -> A) : SM S A := fun sw => (f (w_log sw.2), sw).
Definition vm_do {S} (f : HybmVaManager -> HybmVaManager) : SM S unit := in_vm (fun vm => (tt, f vm)).
Definition sys {S} {O : Os} (c : call) : SM S answer :=
  fun sw => let a := os_answer (w_log sw.2) c in (a, (sw.1, mkWorld (w_vm sw.2) (w_log sw.2 ++ [(c, a)]))).
Fixpoint each {S A} (f : A -> SM S unit) (l : list A) : SM S unit :=
  match l with [] => mret tt | x :: l => _ ← f x; each f l end.

(** ** Symbolic execution *)
Definition wp {S A} (m : SM S A) (Q : A -> S * World -> Prop) (sw : S * World) : Prop := let '(a, sw') := m sw in Q a sw'.
Section rules.
Context {S : Type}.
Lemma swp_ret {A} (a : A) (Q : A -> S * World -> Prop) sw : Q a sw -> wp (mret a) Q sw.
Proof. done. Qed.
Lemma swp_bind {A B} (m : SM S A) (f : A -> SM S B) Q sw : wp m (fun a => wp (f a) Q) sw -> wp (m ≫= f) Q sw.
Proof. unfold wp, mbind, SM_bind. by destruct (m sw). Qed.
Lemma swp_mono {A} (m : SM S A) (Q R : A -> S * World -> Prop) sw : wp m Q sw -> (forall a sw', Q a sw' -> R a sw') -> wp m R sw.
Proof. unfold wp. destruct (m sw); auto. Qed.
Lemma wp_gets {A} (f : S -> A) Q sw : Q (f sw.1) sw -> wp (gets f) Q sw.
Proof. done. Qed.
Lemma wp_upd (f : S -> S) Q sw : Q tt (f sw.1, sw.2) -> wp (upd f) Q sw.
Proof. done. Qed.
Lemma wp_vm_get {A} (f : HybmVaManager -> A) (Q : A -> S * World -> Prop) sw : Q (f (w_vm sw.2)) sw -> wp (vm_get f) Q sw.
Proof. done. Qed.
Lemma wp_log_get {A} (f : log -> A) (Q : A -> S * World -> Prop) sw : Q (f (w_log sw.2)) sw -> wp (log_get f) Q sw.
Proof. done. Qed.
Lemma wp_in_vm {A} (f : HybmVaManager -> A * HybmVaManager) (Q : A -> S * World -> Prop) sw :
  Q (f (w_vm sw.2)).1 (sw.1, mkWorld (f (w_vm sw.2)).2 (w_log sw.2)) -> wp (in_vm f) Q sw.
Proof. unfold wp, in_vm. by destruct (f _). Qed.
Lemma wp_vm_do (f : HybmVaManager -> HybmVaManager) (Q : unit -> S * World -> Prop) sw :
  Q tt (sw.1, mkWorld (f (w_vm sw.2)) (w_log sw.2)) -> wp (vm_do f) Q sw.
Proof. done. Qed.
(** Any answer of the environment. *)
Lemma wp_sys {O : Os} c (Q : answer -> S * World -> Prop) sw :
  (forall a, a = os_answer (w_log sw.2) c -> Q a (sw.1, mkWorld (w_vm sw.2) (w_log sw.2 ++ [(c, a)]))) -> wp (sys c) Q sw.
Proof. intros H. by apply H. Qed.
Lemma wp_each {A} (f : A -> SM S unit) (I : S * World -> Prop) l sw :
  I sw -> (forall x sw, x ∈ l -> I sw -> wp (f x) (fun _ => I) sw) -> wp (each f l) (fun _ => I) sw.
Proof.
  intros Hi Hf. revert sw Hi. induction l as [|x l IH]; intros sw Hi; [by apply swp_ret|]. cbn [each]. apply swp_bind.
  eapply swp_mono; [apply Hf; [by left|done]|]. intros [] sw' Hi'. apply IH; [|done]. intros y sw0 Hy. apply Hf. by right.
Qed.
Lemma wp_if {A} (b : bool) (m1 m2 : SM S A) Q sw :
  (b = true -> wp m1 Q sw) -> (b = false -> wp m2 Q sw) -> wp (if b then m1 else m2) Q sw.
Proof. destruct b; auto. Qed.
Lemma wp_run {A} (m : SM S A) Q sw : wp m Q sw <-> Q (m sw).1 (m sw).2.
Proof. unfold wp. by destruct (m sw). Qed.
End rules.

(** One step of symbolic execution. *)
Ltac wp_step :=
  lazymatch goal with
  | |- wp (mret _) _ _ => apply swp_ret
  | |- wp (_ ≫= _) _ _ => apply swp_bind
  | |- wp (gets _) _ _ => apply wp_gets
  | |- wp (upd _) _ _ => apply wp_upd
  | |- wp (vm_get _) _ _ => apply wp_vm_get
  | |- wp (log_get _) _ _ => apply wp_log_get
  | |- wp (in_vm _) _ _ => apply wp_in_vm
  | |- wp (vm_do _) _ _ => apply wp_vm_do
  | |- wp (sys _) _ _ => apply wp_sys; let a := fresh "a" in intros a _
  end; cbn beta iota.

(** ** What a log leaves behind: open files, registered memory, memory of the driver *)
Definition opens (e : call * answer) : option Z :=
  match e with (Open _ _, a) => if 0 <=? ret a then Some (ret a) else None | _ => None end.
Fixpoint open_fds_from (s : gset Z) (l : log) : gset Z :=
  match l with
  | [] => s
  | (Close fd, _) :: l => open_fds_from (s ∖ {[fd]}) l
  | e :: l => open_fds_from (match opens e with Some fd => {[fd]} ∪ s | None => s end) l
  end.
Definition open_fds (l : log) : gset Z := open_fds_from ∅ l.
Lemma open_fds_from_app s l1 l2 : open_fds_from s (l1 ++ l2) = open_fds_from (open_fds_from s l1) l2.
Proof. revert s. induction l1 as [|[c a] l1 IH]; intros s; [done|]. destruct c; simpl; by rewrite ?IH. Qed.
Fixpoint registered_from (s : gset Z) (l : log) : gset Z :=
  match l with
  | [] => s
  | (HalHostRegister addr _, a) :: l => registered_from (if (ret a =? 0) && negb (out a =? 0) then {[addr]} ∪ s else s) l
  | (HalHostUnregisterEx addr, a) :: l => registered_from (if ret a =? 0 then s ∖ {[addr]} else s) l
  | _ :: l => registered_from s l
  end.
Definition registered (l : log) : gset Z := registered_from ∅ l.
Lemma registered_from_app s l1 l2 : registered_from s (l1 ++ l2) = registered_from (registered_from s l1) l2.
Proof. revert s. induction l1 as [|[c a] l1 IH]; intros s; [done|]. destruct c; simpl; by rewrite ?IH. Qed.
(** Addresses that the driver refused to unregister, and what is registered apart from them. *)
Definition refuses (e : call * answer) : option Z :=
  match e with (HalHostUnregisterEx addr, a) => if ret a =? 0 then None else Some addr | _ => None end.
Definition refused (l : log) : gset Z := list_to_set (omap refuses l).
Definition held (l : log) : gset Z := registered l ∖ refused l.
Lemma refused_snoc l e : refused (l ++ [e]) = refused l ∪ match refuses e with Some addr => {[addr]} | None => ∅ end.
Proof. unfold refused. rewrite omap_app, list_to_set_app_L. cbn [omap list_omap]. destruct (refuses e); set_solver. Qed.
Lemma registered_held l : registered l ⊆ held l ∪ refused l.
Proof. unfold held. intros x Hx. destruct (decide (x ∈ refused l)); set_solver. Qed.
