(* ===== verification/ConnSegment.v ===== *)
(** * ConnSegment: host memory of a connection based segment

    [hybm/csrc/mm/hybm_conn_based_segment.h, .cpp], with [RegisterMemCommon] of
    [hybm_mem_segment.cpp], in the build for Ascend NPUs.  The segment reserves one range of
    addresses for all ranks, maps its own slices into its window of that range, and records
    the slices of other ranks in the address manager.  Callers pass a slice and an output
    address, so the tests for null pointers are left out, as are the logical device id and
    failing container allocations. *)
From stdpp Require Import gmap sorting.
From S2P Require Import Prelude MessagePacker RangeTree VaManager ExchangeInfo SegmentWorld.

Definition HYBM_MST_DRAM : Z := 1.
Definition HYBM_LARGE_PAGE_SIZE : Z := 2 * 1024 * 1024.
Definition BM_NOT_INITIALIZED : Z := -9.
Definition HYBM_DOP_TYPE_DEVICE_RDMA : Z := 4.
Definition HYBM_FLAG_HOST_REGISTER_FOR_DEVICE : Z := 1024.
Definition HYBM_INFO_EXG_IN_NODE : Z := 0.
Definition UINT64_MAX : Z := 18446744073709551615.

Record MemSegmentOptions := mkSegOpt {
  so_segType : Z; so_dataOpType : Z; so_size : Z; so_maxSize : Z; so_rankId : Z; so_rankCnt : Z; so_flags : Z;
  so_shmFd : Z; so_enable56BitsGva : bool }.
Record ConnSeg := mkConn {
  c_options : MemSegmentOptions; c_globalVirtualAddress_ : Z; c_totalVirtualSize_ : Z; c_localVirtualBase_ : Z;
  c_allocatedSize_ : Z; c_sliceCount_ : Z; c_slices_ : gmap Z MemSlice; c_exportMap_ : gmap Z bytes;
  c_imports_ : list HostExportInfo; c_mappedGvaMem_ : gset Z }.
Definition new_conn (o : MemSegmentOptions) : ConnSeg := mkConn o 0 0 0 0 0 ∅ ∅ [] ∅.
Implicit Types s : ConnSeg.
Abbreviation CM A := (SM ConnSeg A).

Definition c_set_space (g total local : Z) s : ConnSeg :=
  mkConn (c_options s) g total local (c_allocatedSize_ s) (c_sliceCount_ s) (c_slices_ s) (c_exportMap_ s) (c_imports_ s)
    (c_mappedGvaMem_ s).
Definition c_set_counts (allocated count : Z) s : ConnSeg :=
  mkConn (c_options s) (c_globalVirtualAddress_ s) (c_totalVirtualSize_ s) (c_localVirtualBase_ s) allocated count
    (c_slices_ s) (c_exportMap_ s) (c_imports_ s) (c_mappedGvaMem_ s).
Definition c_set_slices (m : gmap Z MemSlice) s : ConnSeg :=
  mkConn (c_options s) (c_globalVirtualAddress_ s) (c_totalVirtualSize_ s) (c_localVirtualBase_ s) (c_allocatedSize_ s)
    (c_sliceCount_ s) m (c_exportMap_ s) (c_imports_ s) (c_mappedGvaMem_ s).
Definition c_set_exports (m : gmap Z bytes) s : ConnSeg :=
  mkConn (c_options s) (c_globalVirtualAddress_ s) (c_totalVirtualSize_ s) (c_localVirtualBase_ s) (c_allocatedSize_ s)
    (c_sliceCount_ s) (c_slices_ s) m (c_imports_ s) (c_mappedGvaMem_ s).
Definition c_set_imports (l : list HostExportInfo) s : ConnSeg :=
  mkConn (c_options s) (c_globalVirtualAddress_ s) (c_totalVirtualSize_ s) (c_localVirtualBase_ s) (c_allocatedSize_ s)
    (c_sliceCount_ s) (c_slices_ s) (c_exportMap_ s) l (c_mappedGvaMem_ s).
Definition c_set_mapped (m : gset Z) s : ConnSeg :=
  mkConn (c_options s) (c_globalVirtualAddress_ s) (c_totalVirtualSize_ s) (c_localVirtualBase_ s) (c_allocatedSize_ s)
    (c_sliceCount_ s) (c_slices_ s) (c_exportMap_ s) (c_imports_ s) m.
(** [std::map::emplace]: an index that is there keeps its slice. *)
Definition c_emplace (slice : MemSlice) s : ConnSeg :=
  match c_slices_ s !! index_ slice with
  | Some _ => s
  | None => c_set_slices (<[index_ slice := slice]> (c_slices_ s)) s
  end.

Definition conn_ValidateOptions (o : MemSegmentOptions) : Z :=
  if negb (so_segType o =? HYBM_MST_DRAM) || (so_maxSize o =? 0) || negb (so_maxSize o mod HYBM_LARGE_PAGE_SIZE =? 0)
  then BM_INVALID_PARAM
  else if UINT64_MAX / so_maxSize o <? so_rankCnt o then BM_INVALID_PARAM else BM_OK.
Definition NeedHostRegisterForDevice (o : MemSegmentOptions) : bool :=
  negb (Z.land (so_dataOpType o) HYBM_DOP_TYPE_DEVICE_RDMA =? 0) ||
  negb (Z.land (so_flags o) HYBM_FLAG_HOST_REGISTER_FOR_DEVICE =? 0).

Section conn.
Context {OS : Os}.

Definition PrepareShareMemoryFd : CM Z :=
  o ← gets c_options;
  if so_shmFd o <? 0 then mret BM_OK else
  st ← sys (Fstat (so_shmFd o));
  if negb (ret st =? 0) then mret BM_INVALID_PARAM else
  if so_size o <=? u64 (out st) then mret BM_OK else
  tr ← sys (Ftruncate (so_shmFd o) (so_size o));
  mret (if ret tr =? 0 then BM_OK else BM_ERROR).

(** Returns the result and the address, which is only set on success. *)
Definition conn_ReserveMemorySpace : CM (Z * option Z) :=
  o ← gets c_options;
  if negb (conn_ValidateOptions o =? BM_OK) then mret (BM_INVALID_PARAM, None) else
  g ← gets c_globalVirtualAddress_;
  if negb (g =? 0) then mret (BM_NOT_INITIALIZED, None) else
  fd ← PrepareShareMemoryFd;
  if negb (fd =? BM_OK) then mret (BM_ERROR, None) else
  if so_rankCnt o <=? so_rankId o then mret (BM_INVALID_PARAM, None) else
  let totalSize := u64 (so_rankCnt o * so_maxSize o) in
  let localSize := if so_enable56BitsGva o then so_maxSize o else totalSize in
  gvaInfo ← in_vm (fun vm => AllocReserveGva vm (so_rankId o) totalSize localSize HYBM_MEM_TYPE_HOST (so_enable56BitsGva o) false);
  let startAddr := per_get (r_va gvaInfo) HVM_GVA in
  if startAddr <=? 0 then mret (BM_ERROR, None) else
  ok ← (if so_enable56BitsGva o then mret true else
          m ← sys (Mmap startAddr totalSize PROT_NONE
                     (flags_of [MAP_FIXED_NOREPLACE; MAP_ANONYMOUS; MAP_NORESERVE; MAP_PRIVATE]) (-1) 0);
          mret (negb (ret m =? MAP_FAILED) && (ret m =? startAddr)));
  if negb ok then mret (BM_ERROR, None) else
  _ ← upd (c_set_space startAddr totalSize
             (if so_enable56BitsGva o then per_get (r_va gvaInfo) HVM_DVA
              else u64 (startAddr + so_maxSize o * so_rankId o)));
  _ ← upd (c_set_counts 0 0);
  mret (BM_OK, Some startAddr).

Definition FreeAllocatedMemory (ptr size : Z) (m : MemAllocMethod) : CM unit :=
  if (ptr =? 0) || (ptr =? MAP_FAILED) then mret tt else
  match m with
  | HAL_MEM_ALLOC => _ ← sys (HalMemFree ptr); mret tt
  | MMAP => _ ← sys (Munmap ptr size); mret tt
  end.

(** The address, or [MAP_FAILED], and how it was allocated. *)
Definition AllocMemory (sliceAddr lvOffset size : Z) : CM (Z * MemAllocMethod) :=
  o ← gets c_options;
  let mmapFd := if so_shmFd o <? 0 then -1 else so_shmFd o in
  let mmapFlags := if so_shmFd o <? 0 then flags_of [MAP_FIXED; MAP_ANONYMOUS; MAP_PRIVATE] else flags_of [MAP_FIXED; MAP_SHARED] in
  let mmapOffset := if so_shmFd o <? 0 then 0 else lvOffset in
  m1 ← sys (Mmap sliceAddr size PROT_RW (Z.lor mmapFlags MAP_HUGETLB) mmapFd mmapOffset);
  if ret m1 =? sliceAddr then mret (sliceAddr, MMAP) else
  hal ← (if so_enable56BitsGva o && (so_shmFd o <? 0) then
           h ← sys (HalMemAlloc size);
           mret (if negb (ret h =? 0) || (out h =? 0) then None else Some (out h))
         else mret None);
  match hal with
  | Some ptr => mret (ptr, HAL_MEM_ALLOC)
  | None =>
      m2 ← sys (Mmap sliceAddr size PROT_RW mmapFlags mmapFd mmapOffset);
      mret (if ret m2 =? sliceAddr then sliceAddr else MAP_FAILED, MMAP)
  end.

Definition touch_offsets (size : Z) : list Z :=
  ((fun k => k * HYBM_LARGE_PAGE_SIZE) <$> seqZ 0 ((size + HYBM_LARGE_PAGE_SIZE - 1) / HYBM_LARGE_PAGE_SIZE)) ++ [size - 1].
Definition LvaShmReservePhysicalMemory (mappedAddress size : Z) : CM unit :=
  if mappedAddress =? 0 then mret tt else
  each (fun off => _ ← sys (Touch (mappedAddress + off)); mret tt) (touch_offsets size).

(** The result, the mapped address and how it was allocated. *)
Definition MapSlice (sliceAddr lvOffset size gva : Z) : CM (Z * Z * MemAllocMethod) :=
  if size =? 0 then mret (BM_OK, 0, MMAP) else
  o ← gets c_options;
  am ← AllocMemory sliceAddr lvOffset size;
  let '(mapped, method) := am in
  if mapped =? MAP_FAILED then mret (BM_ERROR, mapped, method) else
  reg ← (if NeedHostRegisterForDevice o then
           r ← sys (HalHostRegister mapped size);
           mret (if negb (ret r =? BM_OK) || (out r =? 0) then None else Some (out r))
         else mret (Some 0));
  match reg with
  | None => _ ← FreeAllocatedMemory mapped size method; mret (BM_ERROR, mapped, method)
  | Some dva =>
      ret ← in_vm (fun vm => AddVaInfoLocal vm (mkBase (mkPer gva dva mapped) size HYBM_MEM_TYPE_HOST) (so_rankId o) false);
      if negb (ret =? 0) then
        _ ← (if NeedHostRegisterForDevice o then _ ← sys (HalHostUnregisterEx mapped); mret tt else mret tt);
        _ ← FreeAllocatedMemory mapped size method;
        mret (ret, mapped, method)
      else
        _ ← LvaShmReservePhysicalMemory mapped size;
        mret (BM_OK, mapped, method)
  end.

Definition conn_AllocLocalMemory (size : Z) : CM (Z * option MemSlice) :=
  s ← gets id;
  let o := c_options s in
  if negb (size mod HYBM_LARGE_PAGE_SIZE =? 0) || (so_maxSize o <? u64 (size + c_allocatedSize_ s))
  then mret (BM_INVALID_PARAM, None) else
  if so_enable56BitsGva o && (0 <=? so_shmFd o) then mret (BM_INVALID_PARAM, None) else
  let sliceAddr := u64 (c_localVirtualBase_ s + c_allocatedSize_ s) in
  let gva := u64 (c_globalVirtualAddress_ s + so_maxSize o * so_rankId o + c_allocatedSize_ s) in
  r ← MapSlice sliceAddr (c_allocatedSize_ s) size gva;
  let '(ret1, mapped, method) := r in
  if negb (ret1 =? BM_OK) then mret (ret1, None) else
  obj ← sys NewObject;
  let slice := mkSlice (out obj) (c_sliceCount_ s) HYBM_MEM_TYPE_HOST MEM_PT_TYPE_SVM gva mapped size method in
  _ ← upd (c_set_counts (u64 (c_allocatedSize_ s + size)) (u32 (c_sliceCount_ s + 1)));
  _ ← upd (c_emplace slice);
  mret (BM_OK, Some slice).

Definition conn_Export (slice : MemSlice) : CM (Z * option bytes) :=
  s ← gets id;
  match c_slices_ s !! index_ slice with
  | None => mret (BM_INVALID_PARAM, None)
  | Some found =>
      if negb (s_obj found =? s_obj slice) then mret (BM_INVALID_PARAM, None) else
      match c_exportMap_ s !! index_ slice with
      | Some exInfo => mret (BM_OK, Some exInfo)
      | None =>
          gva ← (if 0 <? size_ slice then
                   f ← vm_get (fun vm => FindAllocByVa vm (vAddress_ slice) HVM_HVA);
                   mret (if f.2 : bool then Some (a_va f.1 HVM_GVA) else None)
                 else mret (Some 0));
          match gva with
          | None => mret (BM_INVALID_PARAM, None)
          | Some gva =>
              let exInfo := SerializeHost (mkHostInfo DRAM_SLICE_EXPORT_INFO_MAGIC EXPORT_INFO_VERSION gva (index_ slice)
                (so_rankId (c_options s)) (size_ slice) MEM_PT_TYPE_SVM HYBM_MST_DRAM HYBM_INFO_EXG_IN_NODE) in
              _ ← upd (c_set_exports (<[index_ slice := exInfo]> (c_exportMap_ s)));
              mret (BM_OK, Some exInfo)
          end
      end
  end.

Fixpoint deserialize_all (allExInfo : list bytes) : option (list HostExportInfo) :=
  match allExInfo with
  | [] => Some []
  | b :: l => match DeserializeHost b, deserialize_all l with Some i, Some rest => Some (i :: rest) | _, _ => None end
  end.
(** Returns the result and the addresses, which callers read on success only. *)
Definition conn_Import (allExInfo : list bytes) : CM (Z * list Z) :=
  match deserialize_all allExInfo with
  | None => mret (BM_INVALID_PARAM, [])
  | Some infos => _ ← upd (fun s => c_set_imports (c_imports_ s ++ infos) s); mret (BM_OK, hi_gva <$> infos)
  end.

Fixpoint conn_map_imports (imports : list HostExportInfo) : CM Z :=
  match imports with
  | [] => _ ← upd (c_set_imports []); mret 0
  | i :: imports =>
      o ← gets c_options;
      if hi_rankId i =? so_rankId o then conn_map_imports imports else
      _ ← upd (fun s => c_set_mapped ({[hi_gva i]} ∪ c_mappedGvaMem_ s) s);
      ret ← in_vm (fun vm => AddVaInfoFromExternal vm (mkBase (mkPer (hi_gva i) 0 0) (hi_size i) HYBM_MEM_TYPE_HOST)
                               (so_rankId o) (hi_rankId i));
      if ret =? BM_OK then conn_map_imports imports else mret ret
  end.
Definition conn_Mmap : CM Z := imports ← gets c_imports_; conn_map_imports imports.
Definition sorted_set (m : gset Z) : list Z := merge_sort Z.le (elements m).
Definition conn_Unmap : CM Z :=
  m ← gets c_mappedGvaMem_;
  _ ← each (fun gva => vm_do (fun vm => RemoveOneVaInfo vm gva 0)) (sorted_set m);
  _ ← upd (c_set_mapped ∅);
  mret 0.

Definition conn_GetMemSlice (slice : Z) : CM (option MemSlice) :=
  m ← gets c_slices_;
  mret (match m !! GetIndexFrom slice with
        | Some target => if ValidateId target slice then Some target else None
        | None => None
        end).
Definition conn_MemoryInRange (begin_ size : Z) : CM bool :=
  s ← gets id;
  mret (negb (begin_ <? c_globalVirtualAddress_ s) &&
        negb (u64 (c_globalVirtualAddress_ s + c_totalVirtualSize_ s) <? u64 (begin_ + size))).

Definition conn_ReleaseSliceMemory (slice : MemSlice) : CM Z :=
  s ← gets id;
  match c_slices_ s !! index_ slice with
  | None => mret BM_INVALID_PARAM
  | Some found =>
      if negb (s_obj found =? s_obj slice) then mret BM_INVALID_PARAM else
      _ ← vm_do (fun vm => RemoveOneVaInfo vm (vAddress_ slice) 2);
      _ ← upd (c_set_slices (delete (index_ slice) (c_slices_ s)));
      let o := c_options s in
      let isPoolHostSlice := (memType_ slice =? HYBM_MEM_TYPE_HOST) && negb (gva_ slice =? 0) in
      let needUnregister := negb (Z.land (so_dataOpType o) HYBM_DOP_TYPE_DEVICE_RDMA =? 0) ||
        (isPoolHostSlice && negb (Z.land (so_flags o) HYBM_FLAG_HOST_REGISTER_FOR_DEVICE =? 0)) in
      _ ← (if needUnregister then _ ← sys (HalHostUnregisterEx (vAddress_ slice)); mret tt else mret tt);
      mret BM_OK
  end.

Definition first_slice (m : gmap Z MemSlice) : option (Z * MemSlice) :=
  best (fun a b : Z * MemSlice => a.1 <? b.1) (map_to_list m).
(** [while (!slices_.empty())]; [false]: slices are left when the fuel is used up. *)
Fixpoint free_slices (fuel : nat) : CM bool :=
  m ← gets c_slices_;
  match first_slice m, fuel with
  | None, _ => mret true
  | Some _, O => mret false
  | Some (_, slice), S fuel =>
      let ownsBackingMemory := negb (gva_ slice =? 0) in
      _ ← conn_ReleaseSliceMemory slice;
      _ ← (if ownsBackingMemory then FreeAllocatedMemory (vAddress_ slice) (size_ slice) (allocMethod_ slice) else mret tt);
      free_slices fuel
  end.
Definition conn_FreeMemory : CM unit :=
  m ← gets c_slices_;
  _ ← free_slices (size m);
  _ ← conn_Unmap;
  _ ← upd (fun s => if negb (c_localVirtualBase_ s =? 0) && (0 <? c_allocatedSize_ s)
                    then c_set_space (c_globalVirtualAddress_ s) (c_totalVirtualSize_ s) 0 s else s);
  s ← gets id;
  if so_enable56BitsGva (c_options s) then upd (c_set_space 0 (c_totalVirtualSize_ s) 0) else
  if c_globalVirtualAddress_ s =? 0 then mret tt else
  _ ← sys (Munmap (c_globalVirtualAddress_ s) (c_totalVirtualSize_ s));
  _ ← vm_do (fun vm => FreeReserveGva vm (c_globalVirtualAddress_ s));
  upd (c_set_space 0 (c_totalVirtualSize_ s) (c_localVirtualBase_ s)).
Definition conn_UnReserveMemorySpace : CM Z := _ ← conn_FreeMemory; mret BM_OK.

(** The entries of [mappedGvaMem_] in the window of a rank, removed in order. *)
Definition conn_remove_rank (rank : Z) : CM unit :=
  s ← gets id;
  let gvaLocal := u64 (c_globalVirtualAddress_ s + so_maxSize (c_options s) * rank) in
  let mine := filter (fun g => gvaLocal <= g < u64 (gvaLocal + so_maxSize (c_options s))) (sorted_set (c_mappedGvaMem_ s)) in
  _ ← each (fun gva => vm_do (fun vm => RemoveOneVaInfo vm gva 0)) mine;
  upd (c_set_mapped (c_mappedGvaMem_ s ∖ list_to_set mine)).
Definition conn_RemoveImported (ranks : list Z) : CM Z :=
  o ← gets c_options;
  if existsb (fun rank => so_rankCnt o <=? rank) ranks then mret BM_INVALID_PARAM else
  _ ← each conn_remove_rank ranks;
  _ ← upd (fun s => c_set_imports (filter (fun i => hi_rankId i ∉ ranks) (c_imports_ s)) s);
  mret BM_OK.

(** ** Memory of the caller *)
Definition HYBM_HBM_START_ADDR : Z := HYBM_DEVICE_VA_START.
Definition HYBM_HBM_END_ADDR : Z := HYBM_DEVICE_VA_START + HYBM_DEVICE_VA_SIZE.
Definition RegisterMemCommon (va size : Z) : CM (Z * option MemSlice) :=
  o ← gets c_options;
  let count := upd (fun s => c_set_counts (c_allocatedSize_ s) (u32 (c_sliceCount_ s + 1)) s) in
  if (HYBM_HBM_START_ADDR <=? va) && (va <? HYBM_HBM_END_ADDR) then
    obj ← sys NewObject;
    idx ← gets c_sliceCount_;
    _ ← count;
    ret ← in_vm (fun vm => AddVaInfoLocal vm (mkBase (mkPer 0 va va) size HYBM_MEM_TYPE_DEVICE) (so_rankId o) false);
    if negb (ret =? 0) then mret (ret, None) else
    mret (BM_OK, Some (mkSlice (out obj) idx HYBM_MEM_TYPE_DEVICE MEM_PT_TYPE_SVM 0 va size MMAP))
  else
    let needDeviceVa := negb (Z.land (so_dataOpType o) HYBM_DOP_TYPE_DEVICE_RDMA =? 0) in
    reg ← (if needDeviceVa then r ← sys (HalHostRegister va size); mret (ret r, out r) else mret (0, 0));
    if negb (reg.1 =? 0) then mret (reg.1, None) else
    obj ← sys NewObject;
    idx ← gets c_sliceCount_;
    _ ← count;
    ret ← in_vm (fun vm => AddVaInfoLocal vm (mkBase (mkPer 0 reg.2 va) size HYBM_MEM_TYPE_HOST) (so_rankId o) false);
    if negb (ret =? 0) then
      _ ← (if needDeviceVa then _ ← sys (HalHostUnregisterEx va); mret tt else mret tt);
      mret (ret, None)
    else mret (BM_OK, Some (mkSlice (out obj) idx HYBM_MEM_TYPE_HOST MEM_PT_TYPE_SVM 0 va size MMAP)).
Definition conn_RegisterMemory (va size : Z) : CM (Z * option MemSlice) :=
  r ← RegisterMemCommon va size;
  match r with
  | (ret, Some slice) => _ ← upd (c_emplace slice); mret (ret, Some slice)
  | r => mret r
  end.
End conn.
