(* ===== verification/SegmentFrame.v ===== *)
(** * SegmentFrame: what one user of the address manager leaves to the others

    A segment adds and removes allocated ranges of the shared address manager.
    [vm_frame vm0 P vm]: the ranges of [vm0], which belong to others, are still there, and
    every other range of [vm] satisfies [P]. *)
From stdpp Require Import gmap.
From S2P Require Import Prelude RangeTree VaManager VaManagerProof.

Record vm_frame (vm0 : HybmVaManager) (P : AllocatedGvaInfo -> Prop) (vm : HybmVaManager) : Prop := {
  vf_inv : va_inv vm;
  vf_keep : forall t k info, alloc_of vm0 t !! k = Some info -> alloc_of vm t !! k = Some info;
  vf_own : forall t k info, alloc_of vm t !! k = Some info -> alloc_of vm0 t !! k = Some info \/ P info }.

Section frame.
Context (vm0 : HybmVaManager) (Hvm0 : va_inv vm0).
Implicit Types P : AllocatedGvaInfo -> Prop.

Lemma frame_refl P : vm_frame vm0 P vm0.
Proof. split; auto. Qed.
Lemma frame_mono P P' vm : vm_frame vm0 P vm -> (forall info, P info -> P' info) -> vm_frame vm0 P' vm.
Proof. intros [H1 H2 H3] HP. split; [done|done|]. intros t k info Hk. destruct (H3 t k info Hk); auto. Qed.
Lemma frame_ext P vm vm' : (forall t, alloc_of vm' t = alloc_of vm t) -> vm_frame vm0 P vm -> vm_frame vm0 P vm'.
Proof.
  intros E [H1 H2 H3]. split; [by eapply va_inv_ext|..]; intros t k info; rewrite E; auto.
Qed.
(** Nothing is left once nothing satisfies [P]. *)
Lemma frame_none P vm : vm_frame vm0 P vm -> (forall info, ~ P info) -> forall t, alloc_of vm t = alloc_of vm0 t.
Proof.
  intros [_ H2 H3] HP t. apply map_eq. intros k. apply option_eq. intros info. split; [|apply H2].
  intros Hk. destruct (H3 t k info Hk) as [?|[]%HP]. done.
Qed.

Lemma frame_add P vm info t0 :
  vm_frame vm0 P vm -> info_wf info -> P info -> a_va info t0 <> 0 -> alloc_of vm0 t0 !! a_va info t0 = None ->
  vm_frame vm0 P (AddVaInfo vm info false).2.
Proof.
  intros [H1 H2 H3] Hw HP Ht0 Hnone. pose proof (AddVaInfo_inv vm H1 info Hw) as Hinv.
  destruct (AddVaInfo_cases vm H1 info Hw) as [->|(_ & _ & Hc & Ha)]; [by split|]. split; [done|..].
  - intros t k e Hk. rewrite Ha. case_decide as Ht; [|by apply H2]. rewrite lookup_insert_ne; [by apply H2|]. intros <-.
    destruct (Hc t Ht _ _ (H2 _ _ _ Hk)) as [_ He]. specialize (He eq_refl).
    destruct (info_eqb_same _ _ t0 He) as [Et _].
    pose proof (vi_linked _ Hvm0 _ _ _ t0 Hk ltac:(congruence)) as Hl. congruence.
  - intros t k e Hk. rewrite Ha in Hk. case_decide; [|by apply H3].
    apply lookup_insert_Some in Hk as [[_ <-]|[_ Hk]]; [by right|by apply H3 in Hk].
Qed.

Lemma frame_remove P vm va type t :
  vm_frame vm0 P vm -> va_type type = Some t -> va <> 0 -> alloc_of vm0 t !! va = None ->
  vm_frame vm0 (fun info => P info /\ a_va info t <> va) (RemoveOneVaInfo vm va type).
Proof.
  intros [H1 H2 H3] Et Hva Hnone. pose proof (RemoveOneVaInfo_inv vm H1 va type) as Hinv.
  destruct (alloc_of vm t !! va) as [info|] eqn:Hk.
  - pose proof (RemoveOneVaInfo_alloc vm H1 va type t info Et Hk) as Ha.
    assert (Hinfo : forall i k e, alloc_of vm i !! k = Some e -> k = a_va info i -> e = info).
    { intros i k e He ->. destruct (ro_key _ _ (vi_ranges _ H1 i) _ _ He) as [_ H0].
      pose proof (vi_linked _ H1 _ _ _ i Hk ltac:(lia)) as Hl. congruence. }
    split; [done|..].
    + intros i k e He. rewrite Ha. case_decide as E; [|by apply H2]. exfalso.
      pose proof (Hinfo i k e (H2 _ _ _ He) E) as ->. destruct (ro_key _ _ (vi_ranges _ H1 t) _ _ Hk) as [Ek _].
      pose proof (vi_linked _ Hvm0 _ _ _ t He ltac:(congruence)) as Hl. congruence.
    + intros i k e He. rewrite Ha in He. case_decide as E; [done|]. destruct (H3 _ _ _ He) as [?|HP]; [by left|right].
      split; [done|]. intros Eva. apply E. pose proof (vi_linked _ H1 _ _ _ t He ltac:(congruence)) as Hl.
      rewrite Eva, Hk in Hl. injection Hl as <-. by destruct (ro_key _ _ (vi_ranges _ H1 i) _ _ He) as [-> _].
  - assert (Hsame : RemoveOneVaInfo vm va type = vm).
    { unfold RemoveOneVaInfo. rewrite Et, Hk. by destruct (va =? 0). }
    rewrite Hsame. split; [done|done|]. intros i k e He. destruct (H3 _ _ _ He) as [?|HP]; [by left|right].
    split; [done|]. intros Eva. pose proof (vi_linked _ H1 _ _ _ t He ltac:(congruence)) as Hl. congruence.
Qed.
End frame.

(** ** Where the manager locates an address *)
Definition located (vm : HybmVaManager) (g size rank : Z) : Prop :=
  exists info, alloc_of vm HVM_GVA !! g = Some info /\ a_size info = size /\ RankId info = rank.
Lemma located_GetRank vm g size rank addr :
  va_inv vm -> located vm g size rank -> g <= addr < g + size -> GetRank vm addr = (rank, true).
Proof.
  intros Hv (info & Hk & <- & <-) Ha. destruct (ro_key _ _ (vi_ranges _ Hv HVM_GVA) _ _ Hk) as [<- _].
  by apply (GetRank_spec vm Hv addr HVM_GVA info).
Qed.
(** An added range is located, and what was located before still is. *)
Lemma AddVaInfo_located vm info :
  (AddVaInfo vm info false).1 = BM_OK -> 0 < a_size info -> a_va info HVM_GVA <> 0 ->
  located (AddVaInfo vm info false).2 (a_va info HVM_GVA) (a_size info) (RankId info).
Proof.
  unfold AddVaInfo. intros Hok Hs Hg. rewrite (proj2 (Z.eqb_neq _ _)) in * by lia.
  destruct (_ <=? _); [done|]. destruct (existsb _ _); [done|]. cbn [snd]. exists info. split; [|done].
  rewrite add_fold_alloc, decide_True by (by apply elem_of_add_types). by rewrite lookup_insert_eq.
Qed.
Lemma AddVaInfo_keeps vm info g size rank :
  va_inv vm -> info_wf info -> located vm g size rank -> located (AddVaInfo vm info false).2 g size rank.
Proof.
  intros Hv Hw (old & Hk & Hs & Hr). destruct (AddVaInfo_cases vm Hv info Hw) as [->|(_ & _ & Hc & Ha)]; [by exists old|].
  unfold located. rewrite Ha. case_decide as Hg; [|by exists old]. destruct (decide (a_va info HVM_GVA = g)) as [<-|Hne].
  - exists info. rewrite lookup_insert_eq. split; [done|]. destruct (Hc HVM_GVA Hg _ _ Hk) as [_ He]. specialize (He eq_refl).
    unfold info_eqb in He. split; lia.
  - exists old. by rewrite lookup_insert_ne.
Qed.

(** ** Reservations *)
Definition same_reserved (vm vm' : HybmVaManager) : Prop := soc_ vm' = soc_ vm /\ forall t, reserved_of vm' t = reserved_of vm t.
Lemma same_reserved_add vm info onlyGva : same_reserved vm (AddVaInfo vm info onlyGva).2.
Proof. apply AddVaInfo_frame. Qed.
Lemma same_reserved_remove vm va type : same_reserved vm (RemoveOneVaInfo vm va type).
Proof. apply RemoveOneVaInfo_frame. Qed.
Lemma same_reserved_trans vm1 vm2 vm3 : same_reserved vm1 vm2 -> same_reserved vm2 vm3 -> same_reserved vm1 vm3.
Proof. intros [E1 H1] [E2 H2]. split; [congruence|]. intros t. by rewrite H2, H1. Qed.
Lemma FreeReserveGva_ext vm vm' addr :
  same_reserved vm vm' -> same_reserved (FreeReserveGva vm addr) (FreeReserveGva vm' addr).
Proof.
  intros [Es H]. unfold FreeReserveGva. destruct (addr =? 0); [by split|]. rewrite H.
  destruct (reserved_of vm HVM_GVA !! addr) as [info|]; [|by split]. split; [done|].
  intros t. rewrite !reserved_set_reserved, !H. by destruct (negb _), t.
Qed.
Lemma alloc_FreeReserveGva vm addr t : alloc_of (FreeReserveGva vm addr) t = alloc_of vm t.
Proof. unfold FreeReserveGva. by repeat case_match. Qed.
Lemma alloc_AllocReserveGva vm r size local mt en tr t : alloc_of (AllocReserveGva vm r size local mt en tr).2 t = alloc_of vm t.
Proof. unfold AllocReserveGva. by repeat case_match. Qed.

(** A reservation without a 56-bit address lies in the window of the manager, and freeing
    it restores the reserved ranges. *)
Lemma AllocReserveGva_fresh vm rank size memType :
  rsv_inv vm -> 0 < size ->
  let r := AllocReserveGva vm rank size size memType false false in
  let g := per_get (r_va r.1) HVM_GVA in
  g <> 0 ->
  (lva_window vm).1 <= g /\ g + size <= (lva_window vm).2 /\ same_reserved vm (FreeReserveGva r.2 g).
Proof.
  intros Hr Hs. unfold AllocReserveGva. rewrite (proj2 (Z.eqb_neq size 0)) by lia. cbn [andb orb].
  rewrite (proj2 (Z.ltb_lt 0 size)) by lia. cbv zeta. cbn [andb].
  destruct (Z.eqb_spec (AllocReserveLvaInner vm size HVM_DVA) 0) as [E|Hl]; [intros H; by destruct H|].
  destruct (AllocReserveLvaInner_spec vm Hr size HVM_DVA ltac:(done) ltac:(lia) Hl) as (Hp & L1 & L2 & Hd).
  set (lva := AllocReserveLvaInner vm size HVM_DVA) in *. unfold gva_window. cbn [fst snd r_va per_get on_gva].
  intros _. split; [done|]. split; [done|]. pose proof (windows vm) as (W1 & _).
  assert (HD : reserved_of vm HVM_DVA !! lva = None).
  { apply eq_None_not_Some. intros [old Ho]. destruct (Hd lva old Ho); [|lia].
    pose proof (rk_pos _ _ (rv_ok _ Hr HVM_DVA) _ _ Ho). lia. }
  assert (HG : reserved_of vm HVM_GVA !! lva = None).
  { apply eq_None_not_Some. intros [old Ho]. destruct (global_clear vm Hr lva size lva old Ho) as [?|?]; [|pose proof (rk_pos _ _ (rv_ok _ Hr HVM_GVA) _ _ Ho); lia|lia].
    right. split; [lia|]. intros dev Hdev. congruence. }
  unfold FreeReserveGva. rewrite (proj2 (Z.eqb_neq lva 0)) by lia.
  rewrite !reserved_set_reserved. cbn [decide]. rewrite decide_False by done. rewrite decide_True by done.
  rewrite lookup_insert_eq. cbn [r_va per_get on_dva on_gva]. rewrite (proj2 (Z.eqb_neq lva 0)) by lia. cbn [negb].
  split; [done|]. intros t. rewrite !reserved_set_reserved. destruct t; cbn [decide]; simpl.
  - by rewrite delete_insert_id.
  - by rewrite delete_insert_id.
  - done.
Qed.
