(* ===== verification/ConnSegmentProof.v ===== *)
(** * ConnSegmentProof: one life of a connection based segment, from reserving to freeing

    Between [ReserveMemorySpace] and [UnReserveMemorySpace] the segment keeps an invariant
    whatever the operating system and the driver answer: its slices lie one behind the other
    in the window of its rank, it maps only there, and what it has added to the address
    manager and registered with the driver belongs to a slice or an import it knows. *)
From stdpp Require Import gmap sorting.
From S2P Require Import Prelude MessagePacker RangeTree VaManager VaManagerProof ExchangeInfo SegmentWorld SegmentFrame.
From S2P Require Import ConnSegment.

(** ** The log: fixed mappings and stores only inside a range *)
Definition inside (lo hi : Z) (e : call * answer) : Prop :=
  match e with
  | (Mmap addr size _ flags _ _, _) => Z.testbit flags 4 = true -> lo <= addr /\ addr + size <= hi
  | (Touch addr, _) => lo <= addr < hi
  | _ => True
  end.
(** Calls that are neither mappings nor registrations. *)
Definition plain (c : call) : bool :=
  match c with Mmap _ _ _ _ _ _ | Touch _ | HalHostRegister _ _ | HalHostUnregisterEx _ => false | _ => true end.
Lemma held_snoc l c a x :
  x ∈ held (l ++ [(c, a)]) ->
  match c with
  | HalHostRegister addr _ => x ∈ held l \/ ((ret a =? 0) && negb (out a =? 0) = true /\ x = addr)
  | HalHostUnregisterEx addr => x ∈ held l /\ x <> addr
  | _ => x ∈ held l
  end.
Proof.
  unfold held, registered. rewrite registered_from_app, refused_snoc. fold (registered l). rewrite elem_of_difference. cbn [registered_from].
  destruct c; cbn [refuses]; try set_solver; [destruct (_ && _); set_solver|destruct (ret a =? 0); set_solver].
Qed.

(** Whether a slice is unregistered when it is released. *)
Definition needs (o : MemSegmentOptions) (sl : MemSlice) : bool :=
  negb (Z.land (so_dataOpType o) HYBM_DOP_TYPE_DEVICE_RDMA =? 0) ||
  ((memType_ sl =? HYBM_MEM_TYPE_HOST) && negb (gva_ sl =? 0) &&
   negb (Z.land (so_flags o) HYBM_FLAG_HOST_REGISTER_FOR_DEVICE =? 0)).

Section session.
Context {OS : Os}.
(** The driver maps host memory to a device range that does not wrap. *)
Definition driver_ok : Prop := forall l addr size, 0 <= addr -> 0 <= size -> addr + size < 18446744073709551616 ->
  0 <= out (os_answer l (HalHostRegister addr size)) /\
  out (os_answer l (HalHostRegister addr size)) + size < 18446744073709551616.
Context (Hdriver : driver_ok).
(** The options and the reserved range; the ranges of others and the log at the start. *)
Context (o : MemSegmentOptions) (G : Z) (vm0 : HybmVaManager) (log0 : log).
Abbreviation lo := (G + so_maxSize o * so_rankId o).
Abbreviation hi := (G + so_maxSize o * so_rankId o + so_maxSize o).

Definition import_ok (i : HostExportInfo) : Prop :=
  0 <= hi_gva i /\ 0 <= hi_size i /\ hi_gva i + hi_size i < 18446744073709551616 /\ 0 <= hi_rankId i /\
  (hi_gva i <> 0 -> alloc_of vm0 HVM_GVA !! hi_gva i = None).
(** The ranges the segment answers for: of its slices, of its imports, and at the addresses
    [F] it is working on. *)
Definition ours (F : gset Z) (s : ConnSeg) (info : AllocatedGvaInfo) : Prop :=
  (a_va info HVM_HVA <> 0 /\ (a_va info HVM_HVA ∈ F \/ exists i sl, c_slices_ s !! i = Some sl /\ vAddress_ sl = a_va info HVM_HVA)) \/
  (a_va info HVM_GVA <> 0 /\ a_va info HVM_GVA ∈ c_mappedGvaMem_ s).
Definition slice_ok (s : ConnSeg) (i : Z) (sl : MemSlice) : Prop :=
  index_ sl = i /\ 0 <= i < c_sliceCount_ s /\ 0 <= size_ sl /\
  (vAddress_ sl <> 0 -> alloc_of vm0 HVM_HVA !! vAddress_ sl = None) /\
  (gva_ sl <> 0 -> lo <= gva_ sl /\ gva_ sl + size_ sl <= lo + c_allocatedSize_ s /\
                   (0 < size_ sl -> vAddress_ sl = gva_ sl) /\ allocMethod_ sl = MMAP).
(** [R]: addresses that are registered without a slice yet. *)
Record conn_inv (F R : gset Z) (sw : ConnSeg * World) : Prop := {
  ci_opt : c_options sw.1 = o;
  ci_space : c_globalVirtualAddress_ sw.1 = G /\ c_totalVirtualSize_ sw.1 = so_rankCnt o * so_maxSize o /\
             c_localVirtualBase_ sw.1 = lo;
  ci_alloc : 0 <= c_allocatedSize_ sw.1 <= so_maxSize o /\ 0 <= c_sliceCount_ sw.1;
  ci_frame : vm_frame vm0 (ours F sw.1) (w_vm sw.2);
  ci_slices : forall i sl, c_slices_ sw.1 !! i = Some sl -> slice_ok sw.1 i sl;
  ci_order : forall i j a b, c_slices_ sw.1 !! i = Some a -> c_slices_ sw.1 !! j = Some b -> i < j ->
    gva_ a <> 0 -> gva_ b <> 0 -> gva_ a + size_ a <= gva_ b;
  ci_mapped : forall g, g ∈ c_mappedGvaMem_ sw.1 -> g <> 0 -> alloc_of vm0 HVM_GVA !! g = None;
  ci_imports : forall i, i ∈ c_imports_ sw.1 -> hi_rankId i <> so_rankId o -> import_ok i;
  ci_reg : forall a, a ∈ held (w_log sw.2) -> a ∈ registered log0 \/ a ∈ R \/
    exists i sl, c_slices_ sw.1 !! i = Some sl /\ vAddress_ sl = a /\ needs o sl = true;
  ci_rsv : same_reserved vm0 (w_vm sw.2);
  ci_log : exists l, w_log sw.2 = log0 ++ l /\ Forall (inside lo hi) l }.

(** Facts about the options and the reserved range. *)
Record setting : Prop := {
  se_56 : so_enable56BitsGva o = false;
  se_max : 0 < so_maxSize o;
  se_rank : 0 <= so_rankId o < so_rankCnt o;
  se_fit : 0 < G /\ G + so_rankCnt o * so_maxSize o < 18446744073709551616;
  se_vm0 : va_inv vm0;
  (** no range of others starts in the reserved range *)
  se_apart : forall t k, t <> HVM_DVA -> is_Some (alloc_of vm0 t !! k) -> ~ (G <= k < G + so_rankCnt o * so_maxSize o) }.
Context (Hset : setting).

Lemma window_fits : G <= lo /\ 0 < lo /\ hi <= G + so_rankCnt o * so_maxSize o.
Proof. destruct Hset as [_ H1 H2 [H3 _] _ _]. nia. Qed.

(** A call that is not a mapping or a registration. *)
Lemma inv_plain F R sw c a :
  plain c = true -> conn_inv F R sw -> conn_inv F R (sw.1, mkWorld (w_vm sw.2) (w_log sw.2 ++ [(c, a)])).
Proof.
  intros Hc [H1 H2 H3 H4 H5 H6 H7 H8 H9 Hrv (l & Hl & Hf)]. split; try done; cbn [snd w_log].
  - intros x Hx%held_snoc. destruct c; try discriminate Hc; by apply H9.
  - exists (l ++ [(c, a)]). rewrite Hl, app_assoc. split; [done|]. apply Forall_app. split; [done|].
    constructor; [|done]. by destruct c.
Qed.
Lemma inv_inside F R sw c a :
  (forall addr size, c <> HalHostRegister addr size) -> (forall addr, c <> HalHostUnregisterEx addr) ->
  inside lo hi (c, a) -> conn_inv F R sw -> conn_inv F R (sw.1, mkWorld (w_vm sw.2) (w_log sw.2 ++ [(c, a)])).
Proof.
  intros Hr Hu Hin [H1 H2 H3 H4 H5 H6 H7 H8 H9 Hrv (l & Hl & Hf)]. split; try done; cbn [snd w_log].
  - intros x Hx%held_snoc. destruct c; try (by apply H9); [by destruct (Hr addr size)|by destruct (Hu addr)].
  - exists (l ++ [(c, a)]). rewrite Hl, app_assoc. split; [done|]. apply Forall_app. by repeat constructor.
Qed.
Lemma inv_weaken F R F' R' sw : F ⊆ F' -> R ⊆ R' -> conn_inv F R sw -> conn_inv F' R' sw.
Proof.
  intros HF HR [H1 H2 H3 H4 H5 H6 H7 H8 H9 Hrv H10]. split; try done.
  - eapply frame_mono; [done|]. unfold ours. set_solver.
  - intros a Ha. destruct (H9 a Ha) as [?|[?|?]]; auto.
Qed.
(** Registering an address, and taking it back. *)
Lemma inv_register F R sw addr size a :
  conn_inv F R sw -> conn_inv F ({[addr]} ∪ R) (sw.1, mkWorld (w_vm sw.2) (w_log sw.2 ++ [(HalHostRegister addr size, a)])).
Proof.
  intros [H1 H2 H3 H4 H5 H6 H7 H8 H9 Hrv (l & Hl & Hf)]. split; try done; cbn [snd w_log].
  - intros x [Hx|[_ ->]]%held_snoc; [|set_solver]. destruct (H9 x Hx) as [?|[?|?]]; set_solver.
  - exists (l ++ [(HalHostRegister addr size, a)]). rewrite Hl, app_assoc. split; [done|]. apply Forall_app. by repeat constructor.
Qed.
Lemma inv_register_failed F R sw addr size a :
  (ret a =? 0) && negb (out a =? 0) = false ->
  conn_inv F R sw -> conn_inv F R (sw.1, mkWorld (w_vm sw.2) (w_log sw.2 ++ [(HalHostRegister addr size, a)])).
Proof.
  intros Hr [H1 H2 H3 H4 H5 H6 H7 H8 H9 Hrv (l & Hl & Hf)]. split; try done; cbn [snd w_log].
  - intros x [Hx|[Hr' _]]%held_snoc; [by apply H9|congruence].
  - exists (l ++ [(HalHostRegister addr size, a)]). rewrite Hl, app_assoc. split; [done|]. apply Forall_app. by repeat constructor.
Qed.
Lemma inv_unregister F R sw addr a :
  conn_inv F ({[addr]} ∪ R) sw ->
  conn_inv F R (sw.1, mkWorld (w_vm sw.2) (w_log sw.2 ++ [(HalHostUnregisterEx addr, a)])).
Proof.
  intros [H1 H2 H3 H4 H5 H6 H7 H8 H9 Hrv (l & Hl & Hf)]. split; try done; cbn [snd w_log].
  - intros x [Hx Hne]%held_snoc. destruct (H9 x Hx) as [?|[?|?]]; set_solver.
  - exists (l ++ [(HalHostUnregisterEx addr, a)]). rewrite Hl, app_assoc. split; [done|]. apply Forall_app. by repeat constructor.
Qed.
(** Adding a range the segment answers for. *)
Lemma inv_add F R sw info t0 :
  conn_inv F R sw -> info_wf info -> ours F sw.1 info -> a_va info t0 <> 0 -> alloc_of vm0 t0 !! a_va info t0 = None ->
  conn_inv F R (sw.1, mkWorld (AddVaInfo (w_vm sw.2) info false).2 (w_log sw.2)).
Proof.
  intros [H1 H2 H3 H4 H5 H6 H7 H8 H9 Hrv H10] Hw Hp Ht Hn. split; try done; cbn [snd w_vm]; [|by eapply same_reserved_trans; [|apply same_reserved_add]].
  apply (frame_add vm0 (se_vm0 Hset) _ _ info t0); done.
Qed.

(** *** Allocating *)
Lemma FreeAllocated_inv F R sw ptr size m : conn_inv F R sw -> wp (FreeAllocatedMemory ptr size m) (fun _ sw' => conn_inv F R sw' /\ sw'.1 = sw.1) sw.
Proof.
  intros Hi. unfold FreeAllocatedMemory. apply wp_if; intros _; [by wp_step|].
  destruct m; repeat wp_step; split; try done; by apply inv_plain.
Qed.
Lemma AllocMemory_inv F R sw sliceAddr off size :
  conn_inv F R sw -> lo <= sliceAddr -> sliceAddr + size <= hi -> 
  wp (AllocMemory sliceAddr off size) (fun r sw' => conn_inv F R sw' /\ sw'.1 = sw.1 /\ r.2 = MMAP /\ (r.1 = sliceAddr \/ r.1 = MAP_FAILED)) sw.
Proof.
  intros Hi Ha Hb. unfold AllocMemory. repeat wp_step. rewrite (ci_opt _ _ _ Hi), (se_56 Hset). cbn [andb].
  assert (Hin : forall prot fl fd off0 a, inside lo hi (Mmap sliceAddr size prot fl fd off0, a)) by (intros; simpl; lia).
  apply wp_if; intros _; [wp_step; split_and!; auto; by apply inv_inside; [done|done|apply Hin|]|].
  repeat wp_step. cbn [fst snd].
  split_and!; [|done|done|destruct (_ =? _); [by left|by right]].
  apply (inv_inside F R (sw.1, _)); [done|done|apply Hin|]. by apply inv_inside; [done|done|apply Hin|].
Qed.
Lemma touch_inside size off : 0 < size -> off ∈ touch_offsets size -> 0 <= off < size.
Proof.
  intros Hs. unfold touch_offsets. rewrite elem_of_app, list_elem_of_singleton, list_elem_of_fmap.
  intros [(k & -> & Hk)| ->]; [|lia]. apply elem_of_seqZ in Hk.
  unfold HYBM_LARGE_PAGE_SIZE in *. pose proof (Z.div_lt_upper_bound (size + 2 * 1024 * 1024 - 1) (2 * 1024 * 1024) (k + 1)). nia.
Qed.
Lemma Reserve_physical_inv F R sw mapped size :
  conn_inv F R sw -> 0 < size -> lo <= mapped -> mapped + size <= hi ->
  wp (LvaShmReservePhysicalMemory mapped size) (fun _ sw' => conn_inv F R sw' /\ sw'.1 = sw.1) sw.
Proof.
  intros Hi Hs Ha Hb. unfold LvaShmReservePhysicalMemory. apply wp_if; intros _; [by wp_step|].
  apply (wp_each _ (fun sw' => conn_inv F R sw' /\ sw'.1 = sw.1)); [done|]. intros off sw' Hoff [Hi' Hs'].
  repeat wp_step. split; [|done]. apply inv_inside; [done|done| |done]. pose proof (touch_inside size off Hs Hoff). simpl. lia.
Qed.
(** A host address of the window belongs to no one else. *)
Lemma window_free g : lo <= g < hi -> alloc_of vm0 HVM_HVA !! g = None /\ alloc_of vm0 HVM_GVA !! g = None.
Proof.
  intros Hg. pose proof window_fits. split; apply eq_None_not_Some; intros Hs;
    [apply (se_apart Hset HVM_HVA g); try done; lia|apply (se_apart Hset HVM_GVA g); try done; lia].
Qed.
(** What [MapSlice] leaves behind: nothing when it fails, else a range at [gva]. *)
Lemma AddVaInfo_failed vm info : (AddVaInfo vm info false).1 <> 0 -> (AddVaInfo vm info false).2 = vm.
Proof. unfold AddVaInfo. destruct (_ =? 0); [done|]. destruct (_ <=? _); [done|]. by destruct (existsb _ _). Qed.
Lemma MapSlice_inv sw off size gva :
  conn_inv ∅ ∅ sw -> 0 <= size -> lo <= gva -> gva + size <= hi ->
  wp (MapSlice gva off size gva) (fun r sw' => sw'.1 = sw.1 /\
    if r.1.1 =? BM_OK
    then r.2 = MMAP /\ r.1.2 = (if size =? 0 then 0 else gva) /\
         conn_inv (if size =? 0 then ∅ else {[gva]}) (if (size =? 0) || negb (NeedHostRegisterForDevice o) then ∅ else {[gva]}) sw'
    else conn_inv ∅ ∅ sw') sw.
Proof.
  intros Hi Hs Ha Hb. pose proof window_fits as Hw. pose proof (se_fit Hset) as Hfit. unfold MapSlice. destruct (Z.eqb_spec size 0) as [|Hs0]; [by wp_step|].
  destruct (window_free gva ltac:(lia)) as [Hf1 Hf2]. cbn [orb].
  wp_step. wp_step. rewrite (ci_opt _ _ _ Hi). wp_step.
  eapply swp_mono; [by apply AllocMemory_inv|]. intros [mapped m] sw1 (Hi1 & Es1 & Em & Hm). cbn [fst snd] in *. subst m.
  apply wp_if; intros Hfail; [by wp_step|]. assert (mapped = gva) as -> by (destruct Hm; [done|lia]). clear Hm Hfail.
  set (R := if negb (NeedHostRegisterForDevice o) then ∅ else {[gva]} : gset Z).
  wp_step. apply swp_mono with (fun reg sw2 => sw2.1 = sw.1 /\
    match reg with
    | None => conn_inv ∅ ∅ sw2
    | Some dva => conn_inv ∅ R sw2 /\ 0 <= dva /\ dva + size < 18446744073709551616
    end).
  { unfold R. destruct (NeedHostRegisterForDevice o); cbn [negb].
    - wp_step. apply wp_sys. intros a Ea. wp_step. split; [done|]. destruct (_ || _) eqn:Er.
      + apply inv_register_failed; [|done]. unfold BM_OK in Er. lia.
      + split; [|rewrite Ea; apply Hdriver; lia]. eapply inv_weaken; [done| |by apply inv_register]. set_solver.
    - wp_step. split_and!; [done|done|lia|]. pose proof (se_fit Hset). lia. }
  intros [dva|] sw2 [Es2 Hi2].
  2: { wp_step. eapply swp_mono; [by apply (FreeAllocated_inv ∅ ∅)|]. intros [] sw3 [Hi3 Es3]. wp_step. cbn [fst snd].
       split; [congruence|]. done. }
  destruct Hi2 as (Hi2 & Hd1 & Hd2). wp_step. unfold AddVaInfoLocal. wp_step.
  set (info := mkAlloc _ _ _).
  assert (Hadd : conn_inv {[gva]} R (sw2.1, mkWorld (AddVaInfo (w_vm sw2.2) info false).2 (w_log sw2.2))).
  { apply (inv_add _ _ _ info HVM_HVA); cbn; [by eapply inv_weaken; [| |exact Hi2]; set_solver| |left|lia|done].
    - split; [done|]. pose proof (se_fit Hset). intros []; cbn; lia.
    - split; [cbn; lia|]. left. cbn. set_solver. }
  apply wp_if; intros Hret.
  - assert (Evm : (AddVaInfo (w_vm sw2.2) info false).2 = w_vm sw2.2) by (apply AddVaInfo_failed; lia). rewrite Evm.
    assert (Esw : (sw2.1, mkWorld (w_vm sw2.2) (w_log sw2.2)) = sw2) by (by destruct sw2 as [? []]). rewrite Esw.
    wp_step. apply swp_mono with (fun _ sw3 => sw3.1 = sw.1 /\ conn_inv ∅ ∅ sw3).
    { unfold R in *. destruct (NeedHostRegisterForDevice o); cbn [negb] in *; [|by wp_step]. repeat wp_step.
      split; [done|]. apply inv_unregister. eapply inv_weaken; [done| |exact Hi2]. set_solver. }
    intros [] sw3 [Es3 Hi3]. wp_step. eapply swp_mono; [by apply (FreeAllocated_inv ∅ ∅)|]. intros [] sw4 [Hi4 Es4].
    wp_step. cbn [fst snd]. split; [congruence|].
    destruct (_ =? BM_OK) eqn:Eok; [|done]. exfalso. unfold BM_OK in Eok. clear -Hret Eok. lia.
  - wp_step. eapply swp_mono; [apply (Reserve_physical_inv {[gva]} R); [done|lia|lia|lia]|]. intros [] sw3 [Hi3 Es3].
    wp_step. cbn [fst snd] in *. split; [congruence|]. done.
Qed.

(** Changing the slices: what is added to the manager or registered belongs to a slice. *)
Lemma inv_slices F R F' R' sw allocated count m :
  conn_inv F R sw -> c_allocatedSize_ sw.1 <= allocated <= so_maxSize o -> c_sliceCount_ sw.1 <= count ->
  let s' := c_set_slices m (c_set_counts allocated count sw.1) in
  (forall info, ours F sw.1 info -> ours F' s' info) ->
  (forall i sl, m !! i = Some sl -> c_slices_ sw.1 !! i = Some sl \/ slice_ok s' i sl) ->
  (forall i j a b, m !! i = Some a -> m !! j = Some b -> i < j -> gva_ a <> 0 -> gva_ b <> 0 -> gva_ a + size_ a <= gva_ b) ->
  (forall a, a ∈ R \/ (exists i sl, c_slices_ sw.1 !! i = Some sl /\ vAddress_ sl = a /\ needs o sl = true) ->
             a ∈ R' \/ exists i sl, m !! i = Some sl /\ vAddress_ sl = a /\ needs o sl = true) ->
  conn_inv F' R' (s', sw.2).
Proof.
  intros [H1 H2 H3 H4 H5 H6 H7 H8 H9 Hrv H10] Ha Hc s' Ho Hs Hord Hr. split; try done; cbn [fst snd].
  - cbn. lia.
  - by eapply frame_mono.
  - intros i sl Hi. destruct (Hs i sl Hi) as [Hold|]; [|done]. destruct (H5 i sl Hold) as (A1 & A2 & A3 & A4 & A5).
    repeat split; try done; cbn; try lia; destruct (A5 ltac:(done)) as (B1 & B2 & B3 & B4); try done.
  - intros a Hin. destruct (H9 a Hin) as [?|Hx]; [by left|right]. by apply Hr.
Qed.
(** A new slice gets the next index. *)
Lemma inv_new_slice F R sw allocated count sl :
  conn_inv F R sw -> c_allocatedSize_ sw.1 <= allocated <= so_maxSize o -> c_sliceCount_ sw.1 < count ->
  index_ sl = c_sliceCount_ sw.1 -> 0 <= size_ sl ->
  (vAddress_ sl <> 0 -> alloc_of vm0 HVM_HVA !! vAddress_ sl = None) ->
  (gva_ sl <> 0 -> gva_ sl = lo + c_allocatedSize_ sw.1 /\ gva_ sl + size_ sl <= lo + allocated /\
                   (0 < size_ sl -> vAddress_ sl = gva_ sl) /\ allocMethod_ sl = MMAP) ->
  (forall a, a ∈ F -> a = vAddress_ sl) -> (forall a, a ∈ R -> a = vAddress_ sl /\ needs o sl = true) ->
  conn_inv ∅ ∅ (c_emplace sl (c_set_counts allocated count sw.1), sw.2).
Proof.
  intros Hi Ha Hc Hidx Hsz Hv Hg HF HR. pose proof (ci_slices _ _ _ Hi) as Hs.
  assert (Hnew : c_slices_ sw.1 !! index_ sl = None).
  { apply eq_None_not_Some. intros [x Hx]. destruct (Hs _ _ Hx) as (_ & ? & _). lia. }
  pose proof (ci_alloc _ _ _ Hi) as [Hal Hpos].
  unfold c_emplace. cbn [c_slices_ c_set_counts]. rewrite Hnew.
  apply (inv_slices F R ∅ ∅ sw); [done|done|lia|..].
  - intros info [[H0 H1]|?]; [left|by right]. split; [done|right]. cbn [c_slices_ c_set_slices]. destruct H1 as [Hin|(i & x & Hx & E)].
    + exists (index_ sl), sl. rewrite lookup_insert_eq. by rewrite (HF _ Hin).
    + exists i, x. rewrite lookup_insert_ne; [done|]. intros <-. congruence.
  - intros i x [[<- <-]|[_ Hx]]%lookup_insert_Some; [right|by left]. split_and!; try done; cbn; try lia. intros H0.
    destruct (Hg H0) as (Eg & ? & ? & ?). split_and!; try done; lia.
  - intros i j a b Hi1 Hj1 Hlt Ga Gb. apply lookup_insert_Some in Hi1 as [[<- <-]|[Ni Hi1]], Hj1 as [[<- <-]|[Nj Hj1]].
    + lia.
    + destruct (Hs _ _ Hj1) as (_ & ? & _). lia.
    + destruct (Hs _ _ Hi1) as (_ & _ & _ & _ & Hl). destruct (Hl Ga) as (_ & Hl1 & _). destruct (Hg Gb) as (-> & _). lia.
    + by apply (ci_order _ _ _ Hi i j).
  - intros a [Hin|(i & x & Hx & E)]; right.
    + exists (index_ sl), sl. rewrite lookup_insert_eq. by destruct (HR _ Hin) as [-> ->].
    + exists i, x. rewrite lookup_insert_ne; [done|]. intros <-. congruence.
Qed.

Lemma inv_counted F R sw count :
  conn_inv F R sw -> c_sliceCount_ sw.1 <= count -> conn_inv F R (c_set_counts (c_allocatedSize_ sw.1) count sw.1, sw.2).
Proof.
  intros Hi Hc. pose proof (ci_alloc _ _ _ Hi) as [Ha _].
  apply (inv_slices F R F R sw (c_allocatedSize_ sw.1) count (c_slices_ sw.1)); [done|lia|done|done|by left|apply Hi|done].
Qed.

Abbreviation stays sw := (fun _ sw' => conn_inv ∅ ∅ sw' /\ c_sliceCount_ sw'.1 <= c_sliceCount_ sw.1 + 1).
Lemma AllocLocal_inv sw size :
  conn_inv ∅ ∅ sw -> 0 <= size -> size + so_maxSize o < 18446744073709551616 -> c_sliceCount_ sw.1 < 2 ^ 32 - 1 ->
  wp (conn_AllocLocalMemory size) (stays sw) sw.
Proof.
  intros Hi Hs Hfit Hcnt. pose proof window_fits as Hw. pose proof (ci_alloc _ _ _ Hi) as [Ha Hc0].
  pose proof (ci_space _ _ _ Hi) as (E1 & E2 & E3). pose proof (se_fit Hset).
  unfold conn_AllocLocalMemory. wp_step. wp_step. cbn [id]. rewrite (ci_opt _ _ _ Hi), E1, E3, (se_56 Hset). cbn [andb].
  rewrite (u64_small (size + _)) by lia. apply wp_if; intros Hchk; [wp_step; split; [done|lia]|].
  rewrite !u64_small by lia. wp_step.
  eapply swp_mono; [apply MapSlice_inv; [done|done|lia|lia]|]. intros [[r1 mapped] m] sw1 [Es Hr]. cbn [fst snd] in *.
  destruct (Z.eqb_spec r1 BM_OK) as [->|Hne]; [|cbn [negb]; wp_step; split; [done|rewrite Es; lia]].
  destruct Hr as (-> & -> & Hi1). cbn [negb]. repeat wp_step. cbn [fst snd c_set_counts].
  rewrite u32_small by lia. rewrite <- Es in *. split.
  2: { unfold c_emplace. destruct (c_slices_ _ !! _); cbn; lia. }
  eapply (inv_new_slice _ _ (sw1.1, _)); [by apply inv_plain| | | |..]; cbn; try lia; try done.
  - intros Hv. apply window_free. destruct (Z.eqb_spec size 0); lia.
  - intros _. split_and!; try lia; [|done]. intros Hp. by rewrite (proj2 (Z.eqb_neq size 0)) by lia.
  - intros x. destruct (size =? 0); set_solver.
  - intros x. unfold NeedHostRegisterForDevice, needs. cbn.
    rewrite (proj2 (Z.eqb_neq (lo + _) 0)) by lia. destruct (size =? 0); cbn; [set_solver|].
    destruct (Z.land (so_dataOpType o) _ =? 0), (Z.land (so_flags o) _ =? 0); cbn; set_solver.
Qed.
(** *** Registering memory of the caller *)
Definition register_ok (va size : Z) : Prop :=
  0 < va /\ 0 <= size /\ va + size < 18446744073709551616 /\ alloc_of vm0 HVM_HVA !! va = None.
Definition rdma : bool := negb (Z.land (so_dataOpType o) HYBM_DOP_TYPE_DEVICE_RDMA =? 0).
Definition reg_of (va : Z) : gset Z := if rdma then {[va]} else ∅.
(** What is left to do after [RegisterMemCommon]: nothing when it fails, else to keep the slice. *)
Definition registers (va size : Z) (sw : ConnSeg * World) (r : Z * option MemSlice) (sw1 : ConnSeg * World) : Prop :=
  c_sliceCount_ sw1.1 <= c_sliceCount_ sw.1 + 1 /\
  match r.2 with
  | None => conn_inv ∅ ∅ sw1
  | Some sl => exists s2 mt obj, conn_inv {[va]} (reg_of va) (s2, sw1.2) /\ c_sliceCount_ s2 = c_sliceCount_ sw.1 /\
      sw1.1 = c_set_counts (c_allocatedSize_ s2) (c_sliceCount_ s2 + 1) s2 /\
      sl = mkSlice obj (c_sliceCount_ s2) mt MEM_PT_TYPE_SVM 0 va size MMAP
  end.
Lemma inv_add_registered sw va size mt dva :
  register_ok va size -> conn_inv ∅ (reg_of va) sw -> 0 <= dva -> dva + size < 18446744073709551616 ->
  conn_inv {[va]} (reg_of va) (sw.1, mkWorld (AddVaInfo (w_vm sw.2) (mkAlloc (mkBase (mkPer 0 dva va) size mt) (so_rankId o) INVALID_RANK_ID) false).2 (w_log sw.2)).
Proof.
  intros (Hva & Hsz & Hfit & Hfree) Hi Hd1 Hd2.
  apply (inv_add _ _ _ _ HVM_HVA); cbn; [by eapply inv_weaken; [| |exact Hi]; set_solver| |left|lia|done].
  - split; [done|]. intros []; cbn; lia.
  - split; [cbn; lia|]. left. cbn. set_solver.
Qed.
Lemma Register_device sw va size :
  conn_inv ∅ ∅ sw -> register_ok va size -> c_sliceCount_ sw.1 < 2 ^ 32 - 1 ->
  HYBM_HBM_START_ADDR <= va < HYBM_HBM_END_ADDR -> wp (RegisterMemCommon va size) (registers va size sw) sw.
Proof.
  intros Hi Hok Hcnt Hhbm. pose proof Hok as (Hva & Hsz & Hfit & Hfree). pose proof (ci_alloc _ _ _ Hi) as [Ha Hc0].
  unfold RegisterMemCommon. wp_step. wp_step. rewrite (ci_opt _ _ _ Hi).
  rewrite (proj2 (Z.leb_le _ _)), (proj2 (Z.ltb_lt va _)) by lia. cbn [andb].
  do 7 wp_step. unfold AddVaInfoLocal. wp_step.
  assert (Hi2 : conn_inv ∅ (reg_of va) (sw.1, mkWorld (w_vm sw.2) (w_log sw.2 ++ [(NewObject, a)]))).
  { apply inv_plain; [done|]. eapply inv_weaken; [done| |exact Hi]. set_solver. }
  pose proof (inv_add_registered _ va size HYBM_MEM_TYPE_DEVICE va Hok Hi2 ltac:(lia) ltac:(lia)) as Hadd.
  cbn [fst snd w_vm w_log] in *. rewrite u32_small by lia.
  apply wp_if; intros Hret; wp_step; (split; [cbn; lia|]); cbn [fst snd].
  - rewrite AddVaInfo_failed by lia. apply (inv_counted ∅ ∅ (sw.1, _)); [|cbn; lia]. by apply inv_plain.
  - eexists _, _, _. split_and!; [exact Hadd|done|done|done].
Qed.
Lemma Register_host sw va size :
  conn_inv ∅ ∅ sw -> register_ok va size -> c_sliceCount_ sw.1 < 2 ^ 32 - 1 ->
  ~ (HYBM_HBM_START_ADDR <= va < HYBM_HBM_END_ADDR) -> wp (RegisterMemCommon va size) (registers va size sw) sw.
Proof.
  intros Hi Hok Hcnt Hhbm. pose proof Hok as (Hva & Hsz & Hfit & Hfree). pose proof (ci_alloc _ _ _ Hi) as [Ha Hc0].
  unfold RegisterMemCommon. wp_step. wp_step. rewrite (ci_opt _ _ _ Hi).
  destruct (_ && _) eqn:E; [lia|]. fold rdma. clear E. wp_step. apply swp_mono with (fun reg sw2 => sw2.1 = sw.1 /\
    if reg.1 =? 0 then conn_inv ∅ (reg_of va) sw2 /\ 0 <= reg.2 /\ reg.2 + size < 18446744073709551616 else conn_inv ∅ ∅ sw2).
  { unfold reg_of. destruct rdma; [|wp_step; split; [done|]; split; [done|cbn; lia]].
    wp_step. apply wp_sys. intros a Ea. wp_step. split; [done|]. cbn [fst snd]. destruct (ret a =? 0) eqn:Er.
    - split; [|rewrite Ea; apply Hdriver; lia]. eapply inv_weaken; [done| |by apply inv_register]. set_solver.
    - apply inv_register_failed; [by rewrite Er|done]. }
  intros [r dva] sw2 [Es2 Hr]. cbn [fst snd] in *. destruct (r =? 0); cbn [negb]; [|wp_step; split; [rewrite Es2; lia|done]].
  destruct Hr as (Hi2 & Hd1 & Hd2). do 7 wp_step. unfold AddVaInfoLocal. wp_step.
  assert (Hi3 : conn_inv ∅ (reg_of va) (sw2.1, mkWorld (w_vm sw2.2) (w_log sw2.2 ++ [(NewObject, a)]))) by by apply inv_plain.
  pose proof (inv_add_registered _ va size HYBM_MEM_TYPE_HOST dva Hok Hi3 Hd1 Hd2) as Hadd. rewrite Es2 in *.
  cbn [fst snd w_vm w_log] in *. rewrite u32_small by lia. apply wp_if; intros Hret.
  - rewrite AddVaInfo_failed by lia. wp_step.
    apply swp_mono with (fun _ sw4 => sw4.1 = c_set_counts (c_allocatedSize_ sw.1) (c_sliceCount_ sw.1 + 1) sw.1 /\ conn_inv ∅ ∅ sw4).
    2: { intros [] sw4 [Es4 Hi4]. wp_step. split; [rewrite Es4; cbn; lia|done]. }
    pose proof (inv_counted ∅ (reg_of va) (sw.1, _) (c_sliceCount_ sw.1 + 1) Hi3 ltac:(cbn; lia)) as Hi4. cbn [fst snd] in Hi4.
    unfold reg_of in Hi4. destruct rdma; repeat wp_step; (split; [done|]); [|done].
    apply (inv_unregister _ _ (_, mkWorld _ _)). eapply inv_weaken; [done| |exact Hi4]. set_solver.
  - wp_step. split; [cbn; lia|]. cbn [fst snd]. eexists _, _, _. split_and!; [exact Hadd|done|done|done].
Qed.
Lemma RegisterMem_inv sw va size :
  conn_inv ∅ ∅ sw -> register_ok va size -> c_sliceCount_ sw.1 < 2 ^ 32 - 1 ->
  wp (conn_RegisterMemory va size) (stays sw) sw.
Proof.
  intros Hi Hok Hcnt. unfold conn_RegisterMemory. wp_step. apply swp_mono with (registers va size sw).
  { destruct (decide (HYBM_HBM_START_ADDR <= va < HYBM_HBM_END_ADDR)); [by apply Register_device|by apply Register_host]. }
  destruct Hok as (Hva & Hsz & Hfit & Hfree).
  intros [r1 [sl|]] sw1 [Hc Hr]; cbn [snd] in *; repeat wp_step; [|by split].
  destruct Hr as (s2 & mt & obj & Hi2 & Ec & Es & ->). rewrite Es. split.
  - apply (inv_new_slice {[va]} (reg_of va) (s2, sw1.2)); cbn; try done; try lia.
    + destruct (ci_alloc _ _ _ Hi2) as [? _]. cbn in *. lia.
    + set_solver.
    + unfold reg_of, needs. cbn. fold rdma. destruct rdma; set_solver.
  - unfold c_emplace. destruct (c_slices_ _ !! _); cbn; lia.
Qed.

(** *** Releasing *)
Lemma inv_remove_slice sw i sl :
  conn_inv ∅ ∅ sw -> c_slices_ sw.1 !! i = Some sl ->
  let swd := (c_set_slices (delete i (c_slices_ sw.1)) sw.1, mkWorld (RemoveOneVaInfo (w_vm sw.2) (vAddress_ sl) 2) (w_log sw.2)) in
  conn_inv ∅ (if needs o sl then {[vAddress_ sl]} else ∅) swd.
Proof.
  intros Hi Hsl swd. pose proof (ci_slices _ _ _ Hi i sl Hsl) as (Hidx & Hr & Hsz & Hfree & Hg). pose proof (ci_alloc _ _ _ Hi) as Ha.
  assert (Hfr : vm_frame vm0 (fun info => ours ∅ sw.1 info /\ a_va info HVM_HVA <> vAddress_ sl \/
                              a_va info HVM_GVA <> 0 /\ a_va info HVM_GVA ∈ c_mappedGvaMem_ sw.1) (w_vm swd.2)).
  { destruct (decide (vAddress_ sl = 0)) as [E0|Hne].
    - unfold swd. cbn [snd w_vm]. rewrite E0. unfold RemoveOneVaInfo. cbn. eapply frame_mono; [apply Hi|].
      intros info [Hx|Hx]; [|by right]. left. split; [by left|]. apply Hx.
    - eapply frame_mono; [apply (frame_remove vm0 (se_vm0 Hset) (ours ∅ sw.1) _ _ 2 HVM_HVA); [apply Hi|done|done|by apply Hfree]|].
      cbn. tauto. }
  assert (Hown : forall info, ours ∅ sw.1 info /\ a_va info HVM_HVA <> vAddress_ sl \/
                  a_va info HVM_GVA <> 0 /\ a_va info HVM_GVA ∈ c_mappedGvaMem_ sw.1 -> ours ∅ swd.1 info).
  { intros info [[[[H0 [?|(j & x & Hx & E)]]|?] Hne]|?]; [set_solver| |by right|by right].
    left. split; [done|]. right. exists j, x. split; [|done]. cbn. rewrite lookup_delete_ne; [done|]. intros <-. congruence. }
  destruct Hi as [H1 H2 H3 H4 H5 H6 H7 H8 H9 Hrv H10]. split; try done.
  - by eapply frame_mono.
  - intros j x. cbn. intros [_ Hx]%lookup_delete_Some. by apply H5 in Hx.
  - intros j k a b. cbn. intros [_ Hj]%lookup_delete_Some [_ Hk]%lookup_delete_Some. by apply (H6 j k).
  - intros a Hin. destruct (H9 a Hin) as [?|[?|(j & x & Hx & E & Hn)]]; [by left|set_solver|right].
    destruct (decide (i = j)) as [<-|Hij].
    + left. rewrite Hsl in Hx. injection Hx as <-. rewrite Hn. set_solver.
    + right. exists j, x. cbn. by rewrite lookup_delete_ne.
  - eapply same_reserved_trans; [done|]. apply same_reserved_remove.
Qed.
Lemma conn_Release_inv sw i sl :
  conn_inv ∅ ∅ sw -> c_slices_ sw.1 !! i = Some sl ->
  wp (conn_ReleaseSliceMemory sl) (fun r sw' => r = BM_OK /\ conn_inv ∅ ∅ sw' /\
    sw'.1 = c_set_slices (delete i (c_slices_ sw.1)) sw.1) sw.
Proof.
  intros Hi Hsl. pose proof (inv_remove_slice sw i sl Hi Hsl) as Hd. pose proof (ci_slices _ _ _ Hi i sl Hsl) as (Hidx & _).
  unfold conn_ReleaseSliceMemory. wp_step. wp_step. cbn [id]. rewrite Hidx, Hsl, Z.eqb_refl. cbn [negb].
  do 4 wp_step. rewrite (ci_opt _ _ _ Hi). fold (needs o sl). wp_step.
  apply swp_mono with (fun _ sw' => conn_inv ∅ ∅ sw' /\ sw'.1 = c_set_slices (delete i (c_slices_ sw.1)) sw.1).
  { unfold c_set_slices in *. cbn [fst snd] in *. destruct (needs o sl); repeat wp_step; (split; [|done]); [|done].
    apply (inv_unregister _ _ (_, mkWorld _ _)). eapply inv_weaken; [done| |exact Hd]. set_solver. }
  intros [] sw' [Hi' Es]. wp_step. done.
Qed.
Lemma GetMemSlice_inv sw id : wp (conn_GetMemSlice id) (fun r sw' => sw' = sw /\ forall sl, r = Some sl -> exists i, c_slices_ sw.1 !! i = Some sl) sw.
Proof.
  unfold conn_GetMemSlice. repeat wp_step. split; [done|]. intros sl. destruct (_ !! _) eqn:E; [|done].
  destruct (ValidateId _ _); [|done]. intros [= <-]. eauto.
Qed.

(** *** Exporting and importing *)
Lemma inv_exports F R sw m : conn_inv F R sw -> conn_inv F R (c_set_exports m sw.1, sw.2).
Proof. intros [H1 H2 H3 H4 H5 H6 H7 H8 H9 Hrv H10]. by split. Qed.
Lemma Export_inv sw sl : conn_inv ∅ ∅ sw -> wp (conn_Export sl) (stays sw) sw.
Proof.
  intros Hi. unfold conn_Export. wp_step. wp_step. cbn [id].
  destruct (_ !! _); [|wp_step; split; [done|lia]]. apply wp_if; intros _; [wp_step; split; [done|lia]|].
  destruct (_ !! _); [wp_step; split; [done|lia]|]. wp_step. apply swp_mono with (fun _ sw' => sw' = sw).
  { apply wp_if; intros _; repeat wp_step; done. }
  intros [gva|] sw' ->; repeat wp_step; (split; [|cbn; lia]); [|done]. by apply inv_exports.
Qed.
Lemma inv_imports F R sw l :
  conn_inv F R sw -> (forall i, i ∈ l -> hi_rankId i <> so_rankId o -> import_ok i) -> conn_inv F R (c_set_imports l sw.1, sw.2).
Proof. intros [H1 H2 H3 H4 H5 H6 H7 H8 H9 Hrv H10] Hl. by split. Qed.
Lemma Import_inv sw all :
  conn_inv ∅ ∅ sw ->
  (forall b i, b ∈ all -> DeserializeHost b = Some i -> hi_rankId i <> so_rankId o -> import_ok i) ->
  wp (conn_Import all) (stays sw) sw.
Proof.
  intros Hi Hall. unfold conn_Import. destruct (deserialize_all all) as [infos|] eqn:E; [|wp_step; split; [done|lia]].
  repeat wp_step. split; [|cbn; lia]. apply inv_imports; [done|]. intros i [Hin|Hin]%elem_of_app; [by apply Hi|].
  revert infos E Hin. induction all as [|b all IH]; cbn [deserialize_all]; intros infos E Hin.
  { injection E as <-. by apply elem_of_nil in Hin. }
  destruct (DeserializeHost b) as [x|] eqn:Eb; [|done]. destruct (deserialize_all all) as [rest|] eqn:Er; [|done].
  injection E as <-. apply elem_of_cons in Hin as [->|Hin].
  - apply (Hall b); [by left|done].
  - apply (IH (fun b' j Hb => Hall b' j (list_elem_of_further _ _ _ Hb)) rest); done.
Qed.

Lemma inv_mapped sw g :
  conn_inv ∅ ∅ sw -> (g <> 0 -> alloc_of vm0 HVM_GVA !! g = None) ->
  conn_inv ∅ ∅ (c_set_mapped ({[g]} ∪ c_mappedGvaMem_ sw.1) sw.1, sw.2).
Proof.
  intros [H1 H2 H3 H4 H5 H6 H7 H8 H9 Hrv H10] Hg. split; try done.
  - eapply frame_mono; [done|]. intros info [?|[? ?]]; [by left|right]. cbn. set_solver.
  - cbn. intros x. rewrite elem_of_union, elem_of_singleton. intros [->|Hx]; [done|by apply H7].
Qed.
Lemma AddVaInfo_none vm info : (forall t, a_va info t = 0) -> (AddVaInfo vm info false).2 = vm.
Proof.
  intros H. assert (E : add_types info false = []).
  { apply elem_of_nil_inv. intros t Ht. apply elem_of_add_types in Ht. by specialize (H t). }
  unfold AddVaInfo. rewrite E. destruct (_ =? 0); [done|]. by destruct (_ <=? _).
Qed.
Lemma inv_add_import sw i :
  conn_inv ∅ ∅ sw -> import_ok i -> hi_gva i ∈ c_mappedGvaMem_ sw.1 ->
  conn_inv ∅ ∅ (sw.1, mkWorld (AddVaInfoFromExternal (w_vm sw.2) (mkBase (mkPer (hi_gva i) 0 0) (hi_size i) HYBM_MEM_TYPE_HOST)
    (so_rankId o) (hi_rankId i)).2 (w_log sw.2)).
Proof.
  intros Hi (I1 & I2 & I3 & I4 & I5) Hin. unfold AddVaInfoFromExternal. destruct (decide (hi_gva i = 0)) as [E|Hne].
  - rewrite AddVaInfo_none by (intros []; cbn; done). by destruct sw as [? []].
  - apply (inv_add _ _ _ _ HVM_GVA); [done| |right|done|by apply I5]; [|done].
    split; [done|]. intros []; cbn; lia.
Qed.
Lemma map_imports_inv l sw :
  conn_inv ∅ ∅ sw -> (forall i, i ∈ l -> hi_rankId i <> so_rankId o -> import_ok i) ->
  wp (conn_map_imports l) (fun _ sw' => conn_inv ∅ ∅ sw' /\ c_sliceCount_ sw'.1 = c_sliceCount_ sw.1) sw.
Proof.
  revert sw. induction l as [|i l IH]; intros sw Hi Hl; cbn [conn_map_imports].
  { repeat wp_step. split; [|done]. apply inv_imports; [done|]. intros i Hin. by apply elem_of_nil in Hin. }
  wp_step. wp_step. rewrite (ci_opt _ _ _ Hi). assert (Hl' := fun j Hj => Hl j (list_elem_of_further _ _ _ Hj)).
  destruct (Z.eqb_spec (hi_rankId i) (so_rankId o)) as [|Hne]; [by apply IH|].
  do 4 wp_step. pose proof (Hl i (list_elem_of_here _ _) Hne) as Hok.
  pose proof (inv_mapped sw (hi_gva i) Hi ltac:(apply Hok)) as Hi1.
  pose proof (inv_add_import _ i Hi1 Hok ltac:(cbn; set_solver)) as Hi2. cbn [fst snd] in *.
  apply wp_if; intros _; [|wp_step; done]. eapply swp_mono; [by apply IH|]. intros r sw' [H1 H2]. split; [done|]. by rewrite H2.
Qed.

(** *** Taking imports back *)
Definition forget (l : list Z) (vm : HybmVaManager) : HybmVaManager := foldl (fun vm g => RemoveOneVaInfo vm g 0) vm l.
Lemma each_forget l sw (Q : unit -> ConnSeg * World -> Prop) :
  Q tt (sw.1, mkWorld (forget l (w_vm sw.2)) (w_log sw.2)) ->
  wp (each (fun gva => vm_do (fun vm => RemoveOneVaInfo vm gva 0)) l) Q sw.
Proof.
  revert sw. induction l as [|g l IH]; intros sw HQ; cbn [each]; [wp_step; by destruct sw as [? []]|].
  repeat wp_step. by apply IH.
Qed.
Lemma forget_frame P l vm :
  vm_frame vm0 P vm -> (forall g, g ∈ l -> g <> 0 -> alloc_of vm0 HVM_GVA !! g = None) ->
  vm_frame vm0 (fun info => P info /\ (a_va info HVM_GVA <> 0 -> a_va info HVM_GVA ∉ l)) (forget l vm) /\ same_reserved vm (forget l vm).
Proof.
  revert P vm. induction l as [|g l IH]; intros P vm Hf Hl; cbn [forget foldl].
  { split; [|by split]. eapply frame_mono; [done|]. set_solver. }
  destruct (IH (fun info => P info /\ (g <> 0 -> a_va info HVM_GVA <> g)) (RemoveOneVaInfo vm g 0)) as [H1 H2].
  - destruct (decide (g = 0)) as [->|Hg].
    + unfold RemoveOneVaInfo. cbn. eapply frame_mono; [done|]. done.
    + eapply frame_mono; [apply (frame_remove vm0 (se_vm0 Hset) P vm g 0 HVM_GVA); try done; apply Hl; [by left|done]|]. cbn. tauto.
  - intros x Hx. apply Hl. by right.
  - split; [|eapply same_reserved_trans; [apply same_reserved_remove|exact H2]].
    eapply frame_mono; [exact H1|]. intros info [[HP Hg] Hn]. split; [done|]. intros H0. rewrite not_elem_of_cons. split; [|by apply Hn].
    intros E. apply Hg; [congruence|done].
Qed.
Lemma inv_forget sw l :
  conn_inv ∅ ∅ sw -> (forall g, g ∈ l -> g ∈ c_mappedGvaMem_ sw.1) ->
  conn_inv ∅ ∅ (c_set_mapped (c_mappedGvaMem_ sw.1 ∖ list_to_set l) sw.1, mkWorld (forget l (w_vm sw.2)) (w_log sw.2)).
Proof.
  intros Hi Hl. destruct (forget_frame (ours ∅ sw.1) l (w_vm sw.2) (ci_frame _ _ _ Hi)) as [Hf Hs].
  { intros g Hg. by apply (ci_mapped _ _ _ Hi), Hl. }
  destruct Hi as [H1 H2 H3 H4 H5 H6 H7 H8 H9 Hrv H10]. split; try done.
  - eapply frame_mono; [exact Hf|]. intros info [[?|[H0 Hin]] Hn]; [by left|right]. split; [done|]. cbn. specialize (Hn H0). set_solver.
  - cbn. intros g [Hg _]%elem_of_difference. by apply H7.
  - by eapply same_reserved_trans.
Qed.
Lemma elem_sorted_set m g : g ∈ sorted_set m <-> g ∈ m.
Proof. unfold sorted_set. by rewrite merge_sort_Permutation, elem_of_elements. Qed.
Lemma Unmap_inv sw :
  conn_inv ∅ ∅ sw -> wp conn_Unmap (fun _ sw' => conn_inv ∅ ∅ sw' /\ sw'.1 = c_set_mapped ∅ sw.1) sw.
Proof.
  intros Hi. unfold conn_Unmap. do 3 wp_step. apply each_forget. repeat wp_step. split; [|done].
  pose proof (inv_forget sw (sorted_set (c_mappedGvaMem_ sw.1)) Hi ltac:(intros g; apply elem_sorted_set)) as H.
  replace (c_mappedGvaMem_ sw.1 ∖ _) with (∅ : gset Z) in H; [done|]. apply leibniz_equiv. intros g.
  rewrite elem_of_difference, elem_of_list_to_set, elem_sorted_set. set_solver.
Qed.
Lemma remove_rank_inv sw rank :
  conn_inv ∅ ∅ sw -> wp (conn_remove_rank rank) (fun _ sw' => conn_inv ∅ ∅ sw' /\ c_sliceCount_ sw'.1 = c_sliceCount_ sw.1) sw.
Proof.
  intros Hi. unfold conn_remove_rank. wp_step. wp_step. cbn [id]. wp_step. apply each_forget. wp_step. cbn [fst snd].
  split; [|done]. apply inv_forget; [done|]. intros g [_ Hg]%list_elem_of_filter. by apply elem_sorted_set.
Qed.
Lemma RemoveImported_inv sw ranks : conn_inv ∅ ∅ sw -> wp (conn_RemoveImported ranks) (stays sw) sw.
Proof.
  intros Hi. unfold conn_RemoveImported. do 2 wp_step. apply wp_if; intros _; [wp_step; split; [done|lia]|]. wp_step.
  eapply swp_mono; [apply (wp_each _ (fun sw' => conn_inv ∅ ∅ sw' /\ c_sliceCount_ sw'.1 = c_sliceCount_ sw.1)); [done|]|].
  - intros x sw' _ [Hi' Ec]. eapply swp_mono; [by apply remove_rank_inv|]. intros [] sw2 [? E2]. split; [done|]. congruence.
  - intros [] sw' [Hi' Ec]. repeat wp_step. split; [|cbn; lia]. apply inv_imports; [done|].
    intros i [_ Hin]%list_elem_of_filter. by apply Hi'.
Qed.
(** *** Freeing: [slices_] is empty after as many turns as it has slices *)
Lemma first_slice_None m : first_slice m = None <-> m = ∅.
Proof. unfold first_slice. by rewrite best_None, map_to_list_empty_iff. Qed.
Lemma free_slices_inv fuel sw :
  conn_inv ∅ ∅ sw -> (size (c_slices_ sw.1) <= fuel)%nat ->
  wp (free_slices fuel) (fun done sw' => done = true /\ conn_inv ∅ ∅ sw' /\ sw'.1 = c_set_slices ∅ sw.1) sw.
Proof.
  revert sw. induction fuel as [|fuel IH]; intros sw Hi Hf; cbn [free_slices]; wp_step; wp_step;
    (destruct (first_slice (c_slices_ sw.1)) as [[i sl]|] eqn:E;
     [|apply first_slice_None in E; wp_step; split_and!; [done|done|rewrite <- E; by destruct (sw.1)]]).
  { assert (c_slices_ sw.1 = ∅) as E0 by (apply map_size_empty_inv; lia). apply first_slice_None in E0. congruence. }
  apply best_Some in E as [Hin _]; [|intros; lia..]. apply elem_of_map_to_list in Hin. wp_step.
  eapply swp_mono; [by apply (conn_Release_inv sw i sl)|]. intros r sw1 (_ & Hi1 & Es1). wp_step.
  apply swp_mono with (fun _ sw2 => conn_inv ∅ ∅ sw2 /\ sw2.1 = sw1.1).
  { apply wp_if; intros _; [by apply FreeAllocated_inv|by wp_step]. }
  intros [] sw2 [Hi2 Es2]. eapply swp_mono; [apply IH; [done|]|].
  - rewrite Es2, Es1. cbn. rewrite map_size_delete_Some by done. lia.
  - intros d sw3 (Hd & Hi3 & Es3). split_and!; [done|done|]. rewrite Es3, Es2, Es1. done.
Qed.
(** Nothing of the segment is left, and the reservation is given back. *)
Definition freed (sw' : ConnSeg * World) : Prop :=
  (forall t, alloc_of (w_vm sw'.2) t = alloc_of vm0 t) /\ same_reserved (FreeReserveGva vm0 G) (w_vm sw'.2) /\
  c_slices_ sw'.1 = ∅ /\ c_mappedGvaMem_ sw'.1 = ∅ /\ c_globalVirtualAddress_ sw'.1 = 0 /\
  (forall a, a ∈ held (w_log sw'.2) -> a ∈ registered log0) /\
  exists l, w_log sw'.2 = log0 ++ l /\ Forall (inside lo hi) l.
Lemma UnReserve_inv sw : conn_inv ∅ ∅ sw -> wp conn_UnReserveMemorySpace (fun r sw' => r = BM_OK /\ freed sw') sw.
Proof.
  intros Hi. unfold conn_UnReserveMemorySpace, conn_FreeMemory. do 4 wp_step.
  eapply swp_mono; [by apply free_slices_inv|]. intros d sw1 (_ & Hi1 & Es1). wp_step.
  eapply swp_mono; [by apply Unmap_inv|]. intros r sw2 (Hi2 & Es2). do 4 wp_step. cbn [id fst snd].
  pose proof (ci_space _ _ _ Hi2) as (E1 & _). pose proof (se_fit Hset).
  destruct (ci_log _ _ _ Hi2) as (l & Hl & Hin).
  assert (Ha : forall t, alloc_of (w_vm sw2.2) t = alloc_of vm0 t).
  { apply (frame_none vm0 (ours ∅ sw2.1)); [apply Hi2|]. rewrite Es2, Es1. intros info [[_ [?|(i & sl & Hx & _)]]|[_ ?]]; [set_solver| |set_solver].
    cbn in Hx. by rewrite lookup_empty in Hx. }
  assert (Hreg : forall a, a ∈ held (w_log sw2.2) -> a ∈ registered log0).
  { intros a Hin'. destruct (ci_reg _ _ _ Hi2 a Hin') as [?|[?|(i & sl & Hx & _)]]; [done|set_solver|].
    rewrite Es2, Es1 in Hx. cbn in Hx. by rewrite lookup_empty in Hx. }
  destruct (_ && _); cbn [c_options c_globalVirtualAddress_ c_set_space];
    rewrite (ci_opt _ _ _ Hi2), (se_56 Hset), E1, (proj2 (Z.eqb_neq G 0)) by lia; repeat wp_step; (split; [done|]);
    (split_and!; cbn [fst snd w_vm w_log];
     [intros t; by rewrite alloc_FreeReserveGva|apply FreeReserveGva_ext, Hi2|by rewrite Es2, Es1|by rewrite Es2|done
     |intros x Hx%held_snoc; by apply Hreg|]); eexists (l ++ [_]);
    (split; [rewrite Hl, <- app_assoc; done|apply Forall_app; by repeat constructor]).
Qed.

(** ** The operations between reserving and freeing, in any order *)
Inductive conn_op :=
| OpAlloc (size : Z) | OpRegister (va size : Z) | OpRelease (id : Z) | OpExport (id : Z)
| OpImport (all : list bytes) | OpMmap | OpUnmap | OpRemoveImported (ranks : list Z).
Definition on_slice (id : Z) (f : MemSlice -> CM unit) : CM unit :=
  r ← conn_GetMemSlice id; match r with Some sl => f sl | None => mret tt end.
Definition conn_do (op : conn_op) : CM unit :=
  match op with
  | OpAlloc size => _ ← conn_AllocLocalMemory size; mret tt
  | OpRegister va size => _ ← conn_RegisterMemory va size; mret tt
  | OpRelease id => on_slice id (fun sl => _ ← conn_ReleaseSliceMemory sl; mret tt)
  | OpExport id => on_slice id (fun sl => _ ← conn_Export sl; mret tt)
  | OpImport all => _ ← conn_Import all; mret tt
  | OpMmap => _ ← conn_Mmap; mret tt
  | OpUnmap => _ ← conn_Unmap; mret tt
  | OpRemoveImported ranks => _ ← conn_RemoveImported ranks; mret tt
  end.
(** Sizes are sizes, and addresses from outside are addresses no one else has added. *)
Definition conn_op_ok (op : conn_op) : Prop :=
  match op with
  | OpAlloc size => 0 <= size /\ size + so_maxSize o < 18446744073709551616
  | OpRegister va size => register_ok va size
  | OpImport all => forall b i, b ∈ all -> DeserializeHost b = Some i -> hi_rankId i <> so_rankId o -> import_ok i
  | _ => True
  end.
Lemma on_slice_inv sw id f :
  conn_inv ∅ ∅ sw -> (forall i sl, c_slices_ sw.1 !! i = Some sl -> wp (f sl) (stays sw) sw) -> wp (on_slice id f) (stays sw) sw.
Proof.
  intros Hi Hf. unfold on_slice. wp_step. eapply swp_mono; [apply GetMemSlice_inv|]. intros [sl|] sw' [-> Hr].
  - destruct (Hr sl eq_refl) as [i Hsl]. by apply (Hf i).
  - wp_step. split; [done|lia].
Qed.
Lemma conn_do_inv sw op :
  conn_inv ∅ ∅ sw -> conn_op_ok op -> c_sliceCount_ sw.1 < 2 ^ 32 - 1 -> wp (conn_do op) (stays sw) sw.
Proof.
  intros Hi Hok Hc. assert (Hdrop : forall A (m : CM A), wp m (stays sw) sw -> wp (_ ← m; mret tt) (stays sw) sw).
  { intros A m Hm. wp_step. eapply swp_mono; [exact Hm|]. intros x sw' H. by wp_step. }
  destruct op; cbn [conn_do conn_op_ok] in *.
  - apply Hdrop. destruct Hok; by apply AllocLocal_inv.
  - apply Hdrop. by apply RegisterMem_inv.
  - apply on_slice_inv; [done|]. intros i sl Hsl. apply Hdrop. eapply swp_mono; [by apply (conn_Release_inv sw i)|].
    intros r sw' (_ & ? & Es). split; [done|]. rewrite Es. cbn. lia.
  - apply on_slice_inv; [done|]. intros i sl Hsl. apply Hdrop. by apply Export_inv.
  - apply Hdrop. by apply Import_inv.
  - apply Hdrop. unfold conn_Mmap. do 2 wp_step. eapply swp_mono; [apply map_imports_inv; [done|apply Hi]|].
    intros r sw' [? E]. split; [done|]. rewrite E. lia.
  - apply Hdrop. eapply swp_mono; [by apply Unmap_inv|]. intros r sw' [? Es]. split; [done|]. rewrite Es. cbn. lia.
  - apply Hdrop. by apply RemoveImported_inv.
Qed.
Lemma conn_ops_inv sw ops :
  conn_inv ∅ ∅ sw -> Forall conn_op_ok ops -> c_sliceCount_ sw.1 + Z.of_nat (length ops) < 2 ^ 32 ->
  wp (each conn_do ops) (fun _ => conn_inv ∅ ∅) sw.
Proof.
  intros Hi Hok. revert sw Hi. induction Hok as [|op ops Hop _ IH]; intros sw Hi Hc; cbn [each]; [by wp_step|].
  cbn [length] in Hc. wp_step. eapply swp_mono; [apply conn_do_inv; [done|done|lia]|]. intros [] sw' [Hi' Hc']. apply IH; [done|lia].
Qed.
End session.

(** ** Reserving *)
Definition options_ok (o : MemSegmentOptions) : Prop :=
  0 <= so_maxSize o < 18446744073709551616 /\ 0 <= so_rankId o < 4294967296 /\ 0 <= so_rankCnt o < 4294967296.
(** A segment that holds nothing. *)
Definition idle (o : MemSegmentOptions) (s : ConnSeg) : Prop :=
  c_options s = o /\ c_slices_ s = ∅ /\ c_mappedGvaMem_ s = ∅ /\ c_imports_ s = [].
Definition apart (o : MemSegmentOptions) (G : Z) (vm : HybmVaManager) : Prop := forall t k, t <> HVM_DVA ->
  is_Some (alloc_of vm t !! k) -> ~ (G <= k < G + so_rankCnt o * so_maxSize o).
Lemma ValidateOptions_fits o :
  options_ok o -> conn_ValidateOptions o = BM_OK -> 0 < so_maxSize o /\ so_rankCnt o * so_maxSize o < 18446744073709551616.
Proof.
  intros (Hm & _ & Hc). unfold conn_ValidateOptions. destruct (_ || _) eqn:E; [done|].
  destruct (Z.ltb_spec (UINT64_MAX / so_maxSize o) (so_rankCnt o)) as [|Hle]; [done|]. intros _.
  assert (0 < so_maxSize o) by lia. split; [done|].
  pose proof (Z.mul_div_le UINT64_MAX (so_maxSize o)). unfold UINT64_MAX in *. nia.
Qed.
(** Calls that map nothing at a fixed address and register nothing. *)
Definition quiet (e : call * answer) : Prop :=
  (forall lo hi, inside lo hi e) /\ (forall addr size, e.1 <> HalHostRegister addr size) /\ (forall addr, e.1 <> HalHostUnregisterEx addr).
Lemma registered_quiet l l' : Forall quiet l' -> registered (l ++ l') = registered l.
Proof.
  unfold registered. rewrite registered_from_app. generalize (registered_from ∅ l). intros s0 Hq. revert s0.
  induction Hq as [|[c a] l' (_ & Hr & Hu) _ IH]; intros s0; [done|]. destruct c; try apply IH; [by edestruct Hr|by edestruct Hu].
Qed.
Lemma PrepareFd_world {OS : Os} (sw : ConnSeg * World) :
  wp PrepareShareMemoryFd (fun _ sw' => sw'.1 = sw.1 /\ w_vm sw'.2 = w_vm sw.2 /\ exists l, w_log sw'.2 = w_log sw.2 ++ l /\ Forall quiet l) sw.
Proof.
  unfold PrepareShareMemoryFd. do 2 wp_step. apply wp_if; intros _; [wp_step; split_and!; try done; exists []; by rewrite app_nil_r|]. do 2 wp_step.
  apply wp_if; intros _; [wp_step; split_and!; try done; eexists; split; [done|]; by repeat constructor|].
  apply wp_if; intros _; repeat wp_step; split_and!; try done; cbn.
  - eexists. split; [done|]. by repeat constructor.
  - eexists. split; [by rewrite <- app_assoc|]. by repeat constructor.
Qed.
(** What a successful reservation establishes. *)
Definition reserved_at (o : MemSegmentOptions) (vm : HybmVaManager) (l : log) (G : Z) (sw : ConnSeg * World) : Prop :=
  setting o G (w_vm sw.2) /\ (forall t, alloc_of (w_vm sw.2) t = alloc_of vm t) /\
  same_reserved vm (FreeReserveGva (w_vm sw.2) G) /\ (exists l', w_log sw.2 = l ++ l' /\ Forall quiet l') /\
  conn_inv o G (w_vm sw.2) (w_log sw.2) ∅ ∅ sw /\ c_sliceCount_ sw.1 = 0.
Lemma Reserve_inv {OS : Os} o s vm l G :
  idle o s -> options_ok o -> so_enable56BitsGva o = false -> va_inv vm -> rsv_inv vm -> apart o G vm ->
  wp conn_ReserveMemorySpace (fun r sw => r = (BM_OK, Some G) -> reserved_at o vm l G sw) (s, mkWorld vm l).
Proof.
  intros (Ho & Hs & Hm & Himp) Hok H56 Hva Hrsv Hap. unfold conn_ReserveMemorySpace. do 2 wp_step. cbn [fst]. rewrite Ho.
  destruct (Z.eqb_spec (conn_ValidateOptions o) BM_OK) as [Hv|]; cbn [negb]; [|by wp_step].
  destruct (ValidateOptions_fits o Hok Hv) as [Hmax Hfit]. destruct Hok as (Hok1 & Hok2 & Hok3).
  do 2 wp_step. apply wp_if; intros _; [by wp_step|]. wp_step.
  eapply swp_mono; [apply PrepareFd_world|]. intros r [s1 w1] (Es & Ew & l1 & El & Hq). cbn [fst snd] in Es, Ew, El. subst s1.
  apply wp_if; intros _; [by wp_step|]. destruct (Z.leb_spec (so_rankCnt o) (so_rankId o)); [by wp_step|].
  rewrite H56, (u64_small (so_rankCnt o * _)) by nia. do 2 wp_step. cbn [fst snd]. rewrite Ew. cbn [w_vm].
  pose proof (AllocReserveGva_fresh vm (so_rankId o) (so_rankCnt o * so_maxSize o) HYBM_MEM_TYPE_HOST Hrsv ltac:(nia)) as Hf.
  pose proof (fun t => alloc_AllocReserveGva vm (so_rankId o) (so_rankCnt o * so_maxSize o) (so_rankCnt o * so_maxSize o) HYBM_MEM_TYPE_HOST false false t) as Ha.
  cbv zeta in Hf. revert Hf Ha. generalize (AllocReserveGva vm (so_rankId o) (so_rankCnt o * so_maxSize o) (so_rankCnt o * so_maxSize o) HYBM_MEM_TYPE_HOST false false).
  intros [info vm1] Hf Ha. cbn [fst snd] in *. set (g := per_get (r_va info) HVM_GVA) in *.
  destruct (Z.leb_spec g 0) as [|Hg]; [by wp_step|]. destruct (Hf ltac:(lia)) as (W1 & W2 & Hsr). pose proof (windows vm) as (_ & W3 & _).
  do 3 wp_step. wp_step. apply wp_if; intros _; [by wp_step|]. repeat wp_step. clearbody g. intros [= ->].
  rewrite (u64_small (G + _)) by nia. unfold reserved_at. cbn [fst snd w_vm w_log].
  split_and!; [split; try done; try lia| done|done| | |done].
  - by eapply va_inv_ext.
  - intros t k Ht. rewrite Ha. by apply Hap.
  - eexists (l1 ++ [_]). split; [rewrite El; by rewrite <- app_assoc|]. apply Forall_app. split; [done|]. by repeat constructor.
  - split; cbn [fst snd w_vm w_log c_set_counts c_set_space c_options c_globalVirtualAddress_ c_totalVirtualSize_ c_localVirtualBase_
      c_allocatedSize_ c_sliceCount_ c_slices_ c_mappedGvaMem_ c_imports_]; rewrite ?Hs, ?Hm, ?Himp; try done; try lia.
    + apply frame_refl. by eapply va_inv_ext.
    + intros x Hx. set_solver.
    + intros x [Hin _]%elem_of_difference. by left.
    + exists []. by rewrite app_nil_r.
Qed.
