(* ===== verification/ConnExchange.v ===== *)
(** * ConnExchange: a slice of a connection based segment in another process *)
From stdpp Require Import gmap.
From S2P Require Import Prelude MessagePacker RangeTree VaManager VaManagerProof ExchangeInfo SegmentWorld SegmentFrame.
From S2P Require Import ConnSegment.

Lemma map_imports_locate l sw r sw' :
  va_inv (w_vm sw.2) -> conn_map_imports l sw = (r, sw') -> r = BM_OK ->
  (forall i, i ∈ l -> 0 <= hi_gva i /\ 0 <= hi_size i /\ hi_gva i + hi_size i < 18446744073709551616) ->
  va_inv (w_vm sw'.2) /\
  (forall g size rank, located (w_vm sw.2) g size rank -> located (w_vm sw'.2) g size rank) /\
  (forall i, i ∈ l -> hi_rankId i <> so_rankId (c_options sw.1) -> hi_rankId i <> INVALID_RANK_ID -> hi_gva i <> 0 -> 0 < hi_size i ->
     located (w_vm sw'.2) (hi_gva i) (hi_size i) (hi_rankId i)).
Proof.
  revert sw. induction l as [|i l IH]; intros sw Hv Hrun Hr Hl; cbn [conn_map_imports] in Hrun.
  { injection Hrun as <- <-. split_and!; [done|done|]. intros i Hi. by apply elem_of_nil in Hi. }
  unfold mbind, SM_bind, gets, upd, in_vm in Hrun. cbn [fst snd] in Hrun.
  assert (Hl' : forall j, j ∈ l -> 0 <= hi_gva j /\ 0 <= hi_size j /\ hi_gva j + hi_size j < 18446744073709551616).
  { intros j Hj. apply Hl. by right. }
  destruct (Z.eqb_spec (hi_rankId i) (so_rankId (c_options sw.1))) as [Es|Hne].
  { destruct (IH sw Hv Hrun Hr Hl') as (H1 & H2 & H3). split_and!; [done|done|]. intros j [->|Hj]%elem_of_cons; [done|by apply H3]. }
  unfold AddVaInfoFromExternal in Hrun. set (info := mkAlloc _ _ _) in Hrun.
  assert (Hw : info_wf info). { destruct (Hl i (list_elem_of_here _ _)) as (? & ? & ?). split; [done|]. intros []; cbn; lia. }
  pose proof (AddVaInfo_inv _ Hv info Hw) as Hv1. pose proof (AddVaInfo_located (w_vm sw.2) info) as Hnew.
  pose proof (fun g size rank => AddVaInfo_keeps (w_vm sw.2) info g size rank Hv Hw) as Hkeep.
  destruct (AddVaInfo (w_vm sw.2) info false) as [r1 vm1]. cbn [fst snd] in *.
  destruct (Z.eqb_spec r1 BM_OK) as [->|Hbad]; [|injection Hrun as -> _; congruence].
  edestruct (fun x => IH (_, mkWorld vm1 _) x Hrun Hr Hl') as (H1 & H2 & H3); [done|]. cbn [fst snd w_vm] in *. split_and!; [done|auto|].
  intros j [->|Hj]%elem_of_cons Hr1 Hr2 Hg Hs; [|by apply H3]. apply H2. specialize (Hnew eq_refl Hs Hg).
  unfold RankId in Hnew. cbn in Hnew. by rewrite (proj2 (Z.eqb_neq _ _)) in Hnew by done.
Qed.
Lemma deserialize_all_elem all infos b i :
  deserialize_all all = Some infos -> b ∈ all -> DeserializeHost b = Some i -> i ∈ infos.
Proof.
  revert infos. induction all as [|x all IH]; cbn [deserialize_all]; intros infos E Hb Hi; [by apply elem_of_nil in Hb|].
  destruct (DeserializeHost x) as [y|] eqn:Ex; [|done]. destruct (deserialize_all all) as [rest|]; [|done]. injection E as <-.
  apply elem_of_cons in Hb as [->|Hb]; [rewrite Hi in Ex; injection Ex as ->; by left|right; by apply IH].
Qed.
Definition slice_fields_ok (s : ConnSeg) (sl : MemSlice) : Prop :=
  0 <= index_ sl < 2 ^ 32 /\ 0 <= so_rankId (c_options s) < INVALID_RANK_ID /\ 0 < size_ sl < 2 ^ 64.

(** What a first export of a slice says. *)
Definition info_of (s : ConnSeg) (sl : MemSlice) (gva : Z) : HostExportInfo :=
  mkHostInfo DRAM_SLICE_EXPORT_INFO_MAGIC EXPORT_INFO_VERSION gva (index_ sl) (so_rankId (c_options s)) (size_ sl) MEM_PT_TYPE_SVM
    HYBM_MST_DRAM HYBM_INFO_EXG_IN_NODE.
(** The manager has the slice as one range, which is known to others by its global address. *)
Definition exportable (s : ConnSeg) (vm : HybmVaManager) (sl : MemSlice) (info : AllocatedGvaInfo) : Prop :=
  slice_fields_ok s sl /\ c_exportMap_ s !! index_ sl = None /\ FindAllocByVa vm (vAddress_ sl) HVM_HVA = (info, true) /\
  a_size info = size_ sl /\ a_va info HVM_GVA <> 0.
Lemma conn_export_info s w sl b sw1 info :
  va_inv (w_vm w) -> exportable s (w_vm w) sl info -> conn_Export sl (s, w) = ((BM_OK, Some b), sw1) ->
  b = SerializeHost (info_of s sl (a_va info HVM_GVA)) /\ DeserializeHost b = Some (info_of s sl (a_va info HVM_GVA)) /\
  0 < a_va info HVM_GVA /\ a_va info HVM_GVA + size_ sl < 18446744073709551616.
Proof.
  intros Hv ((Hi1 & Hi2 & Hi3) & Hcache & Hfind & Hsz & Hg) Hexp.
  pose proof (FindAllocByVa_spec _ Hv (vAddress_ sl) HVM_HVA) as Hspec. rewrite Hfind in Hspec. destruct Hspec as [Hk _].
  pose proof (vi_linked _ Hv _ _ _ HVM_GVA Hk Hg) as Hlink.
  destruct (ro_key _ _ (vi_ranges _ Hv HVM_GVA) _ _ Hlink) as [_ Hpos]. destruct (ro_size _ _ (vi_ranges _ Hv HVM_GVA) _ _ Hlink) as [_ Hend].
  assert (Eb : b = SerializeHost (info_of s sl (a_va info HVM_GVA))).
  { revert Hexp. unfold conn_Export, mbind, SM_bind, gets, vm_get, upd. cbn [fst snd id].
    destruct (c_slices_ s !! index_ sl) as [found|]; [|done]. destruct (negb _); [done|]. rewrite Hcache.
    rewrite (proj2 (Z.ltb_lt 0 (size_ sl))) by lia. unfold mret, SM_ret. cbn beta iota zeta. cbn [fst snd]. rewrite Hfind. cbn. by intros [= <- _]. }
  split_and!; [done| |done|lia]. rewrite Eb. apply DeserializeHost_Serialize. unfold host_info_ok, info_of, INVALID_RANK_ID in *.
  cbn [zip zip_with host_info_sizes host_info_fields hi_magic hi_version hi_gva hi_sliceIndex hi_rankId hi_size hi_pageTblType
    hi_memSegType hi_exchangeType]. repeat apply Forall_cons_2; try apply Forall_nil_2; (split; cbn [fst snd]; [lia|]);
    change (2 ^ (8 * 8)) with 18446744073709551616; change (2 ^ (8 * 4)) with 4294967296;
    unfold DRAM_SLICE_EXPORT_INFO_MAGIC, EXPORT_INFO_VERSION, MEM_PT_TYPE_SVM, HYBM_MST_DRAM, HYBM_INFO_EXG_IN_NODE; lia.
Qed.

(** What one process exports of a slice, carried as bytes to a process of another rank
    and imported and mapped there among other descriptions, makes that process answer the
    exporter's rank for every address of the slice. *)
Lemma conn_export_import_locates s w sl b sw1 info s2 w2 all infos addrs s3 w3 w4 sw5 :
  va_inv (w_vm w) -> exportable s (w_vm w) sl info -> conn_Export sl (s, w) = ((BM_OK, Some b), sw1) ->
  va_inv (w_vm w2) -> so_rankId (c_options s2) <> so_rankId (c_options s) -> c_imports_ s2 = [] -> b ∈ all ->
  deserialize_all all = Some infos ->
  Forall (fun i => 0 <= hi_gva i /\ 0 <= hi_size i /\ hi_gva i + hi_size i < 18446744073709551616) infos ->
  conn_Import all (s2, w2) = ((BM_OK, addrs), (s3, w3)) -> w_vm w4 = w_vm w3 -> conn_Mmap (s3, w4) = (BM_OK, sw5) ->
  va_inv (w_vm sw5.2) /\ located (w_vm sw5.2) (a_va info HVM_GVA) (size_ sl) (so_rankId (c_options s)).
Proof.
  intros Hv Hx Hexp Hv2 Hrank Himp Hb Hall Hwf Hin Hvm Hrun. destruct (conn_export_info s w sl b sw1 info Hv Hx Hexp) as (_ & Hd & Hpos & _).
  destruct Hx as ((Hi1 & Hi2 & Hi3) & _ & _ & _ & Hg).
  unfold conn_Import, mbind, SM_bind, mret, SM_ret, upd in Hin. rewrite Hall in Hin. cbn [fst snd] in Hin. injection Hin as _ <- <-.
  rewrite Himp in Hrun. unfold conn_Mmap, mbind, SM_bind, gets in Hrun. cbn [c_imports_ c_set_imports fst app] in Hrun.
  rewrite Forall_forall in Hwf. edestruct (fun x => map_imports_locate infos (_, w4) _ _ x Hrun eq_refl Hwf) as (H1 & _ & H3); [cbn; by rewrite Hvm|].
  split; [done|]. apply (H3 (info_of s sl (a_va info HVM_GVA))); cbn; [by eapply deserialize_all_elem|congruence|unfold INVALID_RANK_ID in *; lia|done|lia].
Qed.
