(* ===== verification/HostShmSegment.v ===== *)
(** * HostShmSegment: host memory of one node, shared through files

    [hybm/csrc/mm/hybm_host_shm_segment.h, .cpp].  Every rank creates one file for its own
    memory and maps the files of the others; a rank's memory lies in its window of one range
    of addresses.  Whether huge pages can be used is an answer of the system.  A failing
    [open], [flock] or [unlink] answers [errno] as its output.  The hash tables of ranks are
    walked in the order of [elements] and [map_to_list]. *)
From Stdlib Require Import String.
From stdpp Require Import gmap.
From S2P Require Import Prelude MessagePacker StrUtil RangeTree VaManager ExchangeInfo SegmentWorld ConnSegment.
Local Open Scope list_scope.

Record ShmSpace := mkSpace {
  globalVirtualAddress_ : Z; totalVirtualSize_ : Z; localVirtualBase_ : Z; allocatedSize_ : Z; sliceCount_ : Z }.
Record ShmFiles := mkFiles {
  mappedRemoteRanks_ : gset Z; importedShmFds_ : gmap Z Z; importedHugetlbfsFlags_ : gmap Z bool; localShmFd_ : Z;
  useHugetlbfs_ : bool }.
Record ShmSeg := mkShm {
  h_options : MemSegmentOptions; h_space : ShmSpace; h_slices_ : gmap Z MemSlice; h_exportMap_ : gmap Z bytes;
  h_imports_ : list ShmExportInfo; h_files : ShmFiles }.
Definition new_shm (o : MemSegmentOptions) : ShmSeg := mkShm o (mkSpace 0 0 0 0 0) ∅ ∅ [] (mkFiles ∅ ∅ ∅ (-1) false).
Implicit Types s : ShmSeg.
Abbreviation HM A := (SM ShmSeg A).

Definition set_space (sp : ShmSpace) s : ShmSeg := mkShm (h_options s) sp (h_slices_ s) (h_exportMap_ s) (h_imports_ s) (h_files s).
Definition set_files (f : ShmFiles -> ShmFiles) s : ShmSeg :=
  mkShm (h_options s) (h_space s) (h_slices_ s) (h_exportMap_ s) (h_imports_ s) (f (h_files s)).
Definition set_localShmFd (fd : Z) (f : ShmFiles) : ShmFiles :=
  mkFiles (mappedRemoteRanks_ f) (importedShmFds_ f) (importedHugetlbfsFlags_ f) fd (useHugetlbfs_ f).
Definition set_useHugetlbfs (b : bool) (f : ShmFiles) : ShmFiles :=
  mkFiles (mappedRemoteRanks_ f) (importedShmFds_ f) (importedHugetlbfsFlags_ f) (localShmFd_ f) b.
Definition set_flags (m : gmap Z bool) (f : ShmFiles) : ShmFiles :=
  mkFiles (mappedRemoteRanks_ f) (importedShmFds_ f) m (localShmFd_ f) (useHugetlbfs_ f).
Definition set_mapped (r : gset Z) (m : gmap Z Z) (f : ShmFiles) : ShmFiles :=
  mkFiles r m (importedHugetlbfsFlags_ f) (localShmFd_ f) (useHugetlbfs_ f).
Definition set_slices (m : gmap Z MemSlice) s : ShmSeg := mkShm (h_options s) (h_space s) m (h_exportMap_ s) (h_imports_ s) (h_files s).
Definition set_exports (m : gmap Z bytes) s : ShmSeg := mkShm (h_options s) (h_space s) (h_slices_ s) m (h_imports_ s) (h_files s).
Definition set_imports (l : list ShmExportInfo) s : ShmSeg := mkShm (h_options s) (h_space s) (h_slices_ s) (h_exportMap_ s) l (h_files s).
Definition h_emplace (slice : MemSlice) s : ShmSeg :=
  match h_slices_ s !! index_ slice with Some _ => s | None => set_slices (<[index_ slice := slice]> (h_slices_ s)) s end.

Definition shm_ValidateOptions (o : MemSegmentOptions) : Z :=
  if negb (so_segType o =? HYBM_MST_DRAM) || (so_size o =? 0) || negb (so_size o mod HYBM_LARGE_PAGE_SIZE =? 0)
  then BM_INVALID_PARAM
  else if UINT64_MAX / so_size o <? so_rankCnt o then BM_INVALID_PARAM else BM_OK.
Definition GetShmFilePath (rankId : Z) (useHugetlbfs : bool) : bytes :=
  (if useHugetlbfs then lit "/dev/hugepages" else lit "/dev/shm") ++ lit "/memfabric_hybrid_" ++ to_string rankId.

Section shm.
Context {OS : Os}.

(** The descriptor, or [-1] and [errno]. *)
Definition openAndLockLocalShm (shmPath : bytes) : HM (Z * Z) :=
  f ← sys (Open shmPath true);
  if ret f <? 0 then mret (-1, out f) else
  k ← sys (Flock (ret f));
  if negb (ret k =? 0) then _ ← sys (Close (ret f)); mret (-1, out k) else mret (ret f, 0).

(** An existing file that no process has locked is removed; [None]: the file is left alone. *)
Definition cleanup_stale (shmPath : bytes) : HM (option unit) :=
  stale ← sys (Open shmPath false);
  if ret stale <? 0 then mret None else
  k ← sys (Flock (ret stale));
  if negb (ret k =? 0) then _ ← sys (Close (ret stale)); mret None else
  u ← sys (Unlink shmPath);
  _ ← sys (Close (ret stale));
  mret (if ret u =? 0 then Some tt else None).

Definition give_up_local (shmPath : bytes) (fd : Z) : HM Z :=
  _ ← sys (Close fd);
  _ ← upd (set_files (set_localShmFd (-1)));
  _ ← sys (Unlink shmPath);
  mret BM_ERROR.
Definition MapLocalShm : HM Z :=
  huge ← sys HugetlbfsAvailable;
  _ ← upd (set_files (set_useHugetlbfs (negb (ret huge =? 0))));
  s ← gets id;
  let o := h_options s in
  let shmPath := GetShmFilePath (so_rankId o) (useHugetlbfs_ (h_files s)) in
  first ← openAndLockLocalShm shmPath;
  _ ← upd (set_files (set_localShmFd first.1));
  again ← (if (first.1 <? 0) && (first.2 =? EEXIST) then
             c ← cleanup_stale shmPath;
             match c with
             | None => mret None
             | Some _ => r ← openAndLockLocalShm shmPath; _ ← upd (set_files (set_localShmFd r.1)); mret (Some r.1)
             end
           else mret (Some first.1));
  match again with
  | None => mret BM_ERROR
  | Some fd =>
      if fd <? 0 then mret BM_ERROR else
      t ← sys (Ftruncate fd (so_size o));
      if negb (ret t =? 0) then give_up_local shmPath fd else
      let base := localVirtualBase_ (h_space s) in
      m ← sys (Mmap base (so_size o) PROT_RW (flags_of [MAP_FIXED; MAP_SHARED; MAP_POPULATE]) fd 0);
      if (ret m =? MAP_FAILED) || negb (ret m =? base) then give_up_local shmPath fd else mret BM_OK
  end.

Definition shm_ReserveMemorySpace : HM (Z * option Z) :=
  s ← gets id;
  let o := h_options s in
  if negb (shm_ValidateOptions o =? BM_OK) then mret (BM_INVALID_PARAM, None) else
  if negb (globalVirtualAddress_ (h_space s) =? 0) then mret (BM_NOT_INITIALIZED, None) else
  let totalSize := u64 (so_rankCnt o * so_size o) in
  gvaInfo ← in_vm (fun vm => AllocReserveGva vm (so_rankId o) totalSize totalSize HYBM_MEM_TYPE_HOST false false);
  let startAddr := per_get (r_va gvaInfo) HVM_GVA in
  if startAddr <=? 0 then mret (BM_ERROR, None) else
  m ← sys (Mmap startAddr totalSize PROT_NONE (flags_of [MAP_FIXED_NOREPLACE; MAP_ANONYMOUS; MAP_NORESERVE; MAP_PRIVATE]) (-1) 0);
  if (ret m =? MAP_FAILED) || negb (ret m =? startAddr) then
    _ ← vm_do (fun vm => FreeReserveGva vm startAddr); mret (BM_ERROR, None)
  else
  _ ← upd (set_space (mkSpace startAddr totalSize (u64 (startAddr + so_size o * so_rankId o)) 0 0));
  ret ← MapLocalShm;
  if negb (ret =? BM_OK) then
    _ ← sys (Munmap startAddr totalSize);
    _ ← upd (set_space (mkSpace 0 0 0 0 0));
    mret (ret, None)
  else mret (BM_OK, Some startAddr).

Definition shm_AllocLocalMemory (size : Z) : HM (Z * option MemSlice) :=
  s ← gets id;
  let o := h_options s in
  let sp := h_space s in
  if negb (size mod HYBM_LARGE_PAGE_SIZE =? 0) || (so_size o <? u64 (size + allocatedSize_ sp)) then mret (BM_INVALID_PARAM, None) else
  obj ← sys NewObject;
  let slice := mkSlice (out obj) (sliceCount_ sp) HYBM_MEM_TYPE_HOST MEM_PT_TYPE_SVM
    (u64 (globalVirtualAddress_ sp + so_size o * so_rankId o + allocatedSize_ sp)) (u64 (localVirtualBase_ sp + allocatedSize_ sp)) size MMAP in
  _ ← upd (set_space (mkSpace (globalVirtualAddress_ sp) (totalVirtualSize_ sp) (localVirtualBase_ sp) (u64 (allocatedSize_ sp + size))
                        (u32 (sliceCount_ sp + 1))));
  _ ← upd (h_emplace slice);
  mret (BM_OK, Some slice).

Definition shm_Export (slice : MemSlice) : HM (Z * option bytes) :=
  s ← gets id;
  match h_slices_ s !! index_ slice with
  | None => mret (BM_INVALID_PARAM, None)
  | Some found =>
      if negb (s_obj found =? s_obj slice) then mret (BM_INVALID_PARAM, None) else
      match h_exportMap_ s !! index_ slice with
      | Some exInfo => mret (BM_OK, Some exInfo)
      | None =>
          let exInfo := SerializeShm (mkShmInfo DRAM_SLICE_EXPORT_INFO_MAGIC EXPORT_INFO_VERSION
            (u64 (vAddress_ slice - localVirtualBase_ (h_space s))) (index_ slice) (so_rankId (h_options s)) (size_ slice)
            MEM_PT_TYPE_SVM HYBM_MST_DRAM HYBM_INFO_EXG_IN_NODE (Z.b2z (useHugetlbfs_ (h_files s)))) in
          _ ← upd (set_exports (<[index_ slice := exInfo]> (h_exportMap_ s)));
          mret (BM_OK, Some exInfo)
      end
  end.

Fixpoint shm_deserialize_all (allExInfo : list bytes) : option (list ShmExportInfo) :=
  match allExInfo with
  | [] => Some []
  | b :: l => match DeserializeShm b, shm_deserialize_all l with Some i, Some rest => Some (i :: rest) | _, _ => None end
  end.
(** The first description of each rank; [None]: one is not of host memory. *)
Fixpoint unique_ranks (seen : gset Z) (infos : list ShmExportInfo) : option (list ShmExportInfo) :=
  match infos with
  | [] => Some []
  | i :: infos =>
      if negb (si_magic i =? DRAM_SLICE_EXPORT_INFO_MAGIC) then None else
      if bool_decide (si_rankId i ∈ seen) then unique_ranks seen infos else
      match unique_ranks ({[si_rankId i]} ∪ seen) infos with Some rest => Some (i :: rest) | None => None end
  end.
Definition shm_Import (allExInfo : list bytes) : HM Z :=
  match shm_deserialize_all allExInfo with
  | None => mret BM_INVALID_PARAM
  | Some infos =>
      match unique_ranks ∅ infos with
      | None => mret BM_INVALID_PARAM
      | Some kept =>
          _ ← upd (fun s => set_imports (h_imports_ s ++ kept) s);
          _ ← upd (set_files (fun f => set_flags
                (foldl (fun m i => <[si_rankId i := negb (si_useHugetlbfs i =? 0)]> m) (importedHugetlbfsFlags_ f) kept) f));
          mret BM_OK
      end
  end.

Definition extendedRetryTimes : nat := 100.
Fixpoint open_retry (attempts : nat) (shmPath : bytes) : HM (option Z) :=
  match attempts with
  | O => mret None
  | S attempts =>
      f ← sys (Open shmPath false);
      if 0 <=? ret f then mret (Some (ret f)) else
      if negb (out f =? ENOENT) then mret None else open_retry attempts shmPath
  end.
Definition MapImportedShm (rankId : Z) : HM Z :=
  s ← gets id;
  let f := h_files s in
  if bool_decide (rankId ∈ mappedRemoteRanks_ f) then mret BM_OK else
  let remoteUseHugetlbfs := default (useHugetlbfs_ f) (importedHugetlbfsFlags_ f !! rankId) in
  r ← open_retry extendedRetryTimes (GetShmFilePath rankId remoteUseHugetlbfs);
  match r with
  | None => mret BM_ERROR
  | Some fd =>
      let size := so_size (h_options s) in
      st ← sys (Fstat fd);
      if negb (ret st =? 0) || negb (u64 (out st) =? size) then _ ← sys (Close fd); mret BM_ERROR else
      let remoteBase := u64 (globalVirtualAddress_ (h_space s) + size * rankId) in
      m ← sys (Mmap remoteBase size PROT_RW (flags_of [MAP_FIXED; MAP_SHARED]) fd 0);
      if (ret m =? MAP_FAILED) || negb (ret m =? remoteBase) then _ ← sys (Close fd); mret BM_ERROR else
      _ ← upd (set_files (fun f => set_mapped ({[rankId]} ∪ mappedRemoteRanks_ f) (<[rankId := fd]> (importedShmFds_ f)) f));
      mret BM_OK
  end.
Fixpoint shm_map_imports (imports : list ShmExportInfo) : HM Z :=
  match imports with
  | [] => _ ← upd (set_imports []); mret BM_OK
  | i :: imports =>
      s ← gets id;
      if si_rankId i =? so_rankId (h_options s) then shm_map_imports imports else
      ret ← MapImportedShm (si_rankId i);
      if ret =? BM_OK then shm_map_imports imports else mret ret
  end.
Definition shm_Mmap : HM Z := imports ← gets h_imports_; shm_map_imports imports.

Definition RemapRemoteAsReserved (rankId : Z) : HM Z :=
  s ← gets id;
  let size := so_size (h_options s) in
  let remoteBase := u64 (globalVirtualAddress_ (h_space s) + size * rankId) in
  m ← sys (Mmap remoteBase size PROT_NONE (flags_of [MAP_FIXED; MAP_ANONYMOUS; MAP_NORESERVE; MAP_PRIVATE]) (-1) 0);
  mret (if (ret m =? MAP_FAILED) || negb (ret m =? remoteBase) then BM_ERROR else BM_OK).
Fixpoint remap_all (result : Z) (ranks : list Z) : HM Z :=
  match ranks with
  | [] => mret result
  | r :: ranks => k ← RemapRemoteAsReserved r; remap_all (if k =? BM_OK then result else BM_ERROR) ranks
  end.
Definition CloseImportedShmFds : HM unit :=
  f ← gets h_files;
  _ ← each (fun rf : Z * Z => _ ← sys (Close rf.2); mret tt) (map_to_list (importedShmFds_ f));
  upd (set_files (fun f => set_mapped (mappedRemoteRanks_ f) ∅ f)).
Definition shm_Unmap : HM Z :=
  f ← gets h_files;
  ret ← remap_all BM_OK (elements (mappedRemoteRanks_ f));
  _ ← CloseImportedShmFds;
  _ ← upd (set_files (fun f => set_mapped ∅ (importedShmFds_ f) f));
  mret ret.

Definition shm_GetMemSlice (slice : Z) : HM (option MemSlice) :=
  m ← gets h_slices_;
  mret (match m !! GetIndexFrom slice with
        | Some target => if ValidateId target slice then Some target else None
        | None => None
        end).
Definition shm_MemoryInRange (begin_ size : Z) : HM bool :=
  s ← gets h_space;
  mret (negb (begin_ <? globalVirtualAddress_ s) && negb (u64 (globalVirtualAddress_ s + totalVirtualSize_ s) <? u64 (begin_ + size))).

Definition shm_FreeMemory : HM unit :=
  _ ← shm_Unmap;
  s ← gets id;
  let f := h_files s in
  _ ← (if 0 <=? localShmFd_ f then
         _ ← sys (Close (localShmFd_ f));
         _ ← upd (set_files (set_localShmFd (-1)));
         _ ← sys (Unlink (GetShmFilePath (so_rankId (h_options s)) (useHugetlbfs_ f)));
         mret tt
       else mret tt);
  let sp := h_space s in
  let g := globalVirtualAddress_ sp in
  _ ← (if negb (g =? 0) then
         _ ← sys (Munmap g (totalVirtualSize_ sp));
         vm_do (fun vm => FreeReserveGva vm g)
       else mret tt);
  upd (set_space (mkSpace 0 (totalVirtualSize_ sp) 0 (allocatedSize_ sp) (sliceCount_ sp))).
Definition shm_UnReserveMemorySpace : HM Z := _ ← shm_FreeMemory; mret BM_OK.

Fixpoint remove_imported (result : Z) (ranks : list Z) : HM Z :=
  match ranks with
  | [] => mret result
  | r :: ranks =>
      f ← gets h_files;
      if negb (bool_decide (r ∈ mappedRemoteRanks_ f)) then remove_imported result ranks else
      k ← RemapRemoteAsReserved r;
      if negb (k =? BM_OK) then remove_imported BM_ERROR ranks else
      _ ← (match importedShmFds_ f !! r with Some fd => _ ← sys (Close fd); mret tt | None => mret tt end);
      _ ← upd (set_files (fun f => set_mapped (mappedRemoteRanks_ f ∖ {[r]}) (delete r (importedShmFds_ f)) f));
      remove_imported result ranks
  end.
Definition shm_RemoveImported (ranks : list Z) : HM Z := remove_imported BM_OK ranks.

Definition shm_RegisterMemory (va size : Z) : HM (Z * option MemSlice) :=
  obj ← sys NewObject;
  sp ← gets h_space;
  let slice := mkSlice (out obj) (sliceCount_ sp) HYBM_MEM_TYPE_HOST MEM_PT_TYPE_SVM va va size MMAP in
  _ ← upd (set_space (mkSpace (globalVirtualAddress_ sp) (totalVirtualSize_ sp) (localVirtualBase_ sp) (allocatedSize_ sp) (u32 (sliceCount_ sp + 1))));
  _ ← upd (h_emplace slice);
  mret (BM_OK, Some slice).
Definition shm_ReleaseSliceMemory (slice : MemSlice) : HM Z :=
  m ← gets h_slices_;
  match m !! index_ slice with
  | None => mret BM_INVALID_PARAM
  | Some found =>
      if negb (s_obj found =? s_obj slice) then mret BM_INVALID_PARAM else
      _ ← upd (set_slices (delete (index_ slice) m));
      mret BM_OK
  end.
End shm.
