(* ===== verification/HostShmProof.v ===== *)
(** * HostShmProof: files and mappings of a shared-memory segment

    The process holds the descriptor of its own file and one for every mapped rank; every
    other descriptor it opens is closed again on every path.  Mappings at a fixed address stay
    in the reserved range. *)
From stdpp Require Import gmap.
From S2P Require Import Prelude MessagePacker RangeTree VaManager VaManagerProof ExchangeInfo SegmentWorld SegmentFrame.
From S2P Require Import ConnSegment ConnSegmentProof HostShmSegment.

(** [open] answers a descriptor that is not in use. *)
Definition fresh_fds (OS : Os) : Prop := forall l path create,
  0 <= ret (os_answer l (Open path create)) -> ret (os_answer l (Open path create)) ∉ open_fds l.

Section files.
Context {OS : Os} (Hfresh : fresh_fds OS) (log0 : log).

(** [L]: the descriptors opened since [log0] and still open. *)
Definition held (L : list Z) (l : log) : Prop :=
  open_fds l = open_fds log0 ∪ list_to_set L /\ NoDup L /\ forall fd, fd ∈ L -> fd ∉ open_fds log0.
Definition no_file (c : call) : bool := match c with Open _ _ | Close _ => false | _ => true end.
Lemma open_fds_snoc l c a :
  open_fds (l ++ [(c, a)]) =
  match c with
  | Close fd => open_fds l ∖ {[fd]}
  | Open _ _ => if 0 <=? ret a then {[ret a]} ∪ open_fds l else open_fds l
  | _ => open_fds l
  end.
Proof. unfold open_fds. rewrite open_fds_from_app. destruct c; try done. cbn. by destruct (0 <=? ret a). Qed.
Lemma held_perm L L' l : L ≡ₚ L' -> held L l -> held L' l.
Proof.
  intros HP (H1 & H2 & H3). split_and!; [|by rewrite <- HP|intros fd; rewrite <- HP; apply H3].
  rewrite H1. f_equal. apply leibniz_equiv. intros x. by rewrite !elem_of_list_to_set, HP.
Qed.
Lemma held_other L l c a : no_file c = true -> held L l -> held L (l ++ [(c, a)]).
Proof. intros Hc (H1 & H2 & H3). split; [|done]. rewrite open_fds_snoc. by destruct c. Qed.
Lemma held_open_failed L l path create a : ret a < 0 -> held L l -> held L (l ++ [(Open path create, a)]).
Proof. intros Ha (H1 & H2 & H3). split; [|done]. rewrite open_fds_snoc. by rewrite (proj2 (Z.leb_gt _ _)) by lia. Qed.
Lemma held_open L l path create a :
  a = os_answer l (Open path create) -> 0 <= ret a -> held L l -> held (ret a :: L) (l ++ [(Open path create, a)]).
Proof.
  intros -> Ha (H1 & H2 & H3). pose proof (Hfresh l path create Ha) as Hn. rewrite H1, not_elem_of_union, elem_of_list_to_set in Hn.
  destruct Hn as [Hn1 Hn2]. split_and!.
  - rewrite open_fds_snoc, (proj2 (Z.leb_le _ _)) by lia. rewrite H1. set_solver.
  - by constructor.
  - intros fd [->|?]%elem_of_cons; auto.
Qed.
Lemma held_close L l fd a : held (fd :: L) l -> held L (l ++ [(Close fd, a)]).
Proof.
  intros (H1 & [Hn H2]%NoDup_cons & H3). split_and!; [|done|intros x Hx; apply H3; by right].
  rewrite open_fds_snoc, H1. pose proof (H3 fd (list_elem_of_here _ _)). cbn [list_to_set]. apply leibniz_equiv. intros x.
  rewrite elem_of_difference, !elem_of_union, elem_of_singleton, !elem_of_list_to_set.
  split; [tauto|]. intros [Hx|Hx]; (split; [tauto|intros ->]); done.
Qed.

(** ** Mappings *)
Context (lo hi : Z).
(** The log since [log0] maps at fixed addresses only inside the range. *)
Definition log_ok (l : log) : Prop := exists l1, l = log0 ++ l1 /\ Forall (inside lo hi) l1.
Lemma log_ok_snoc l c a : inside lo hi (c, a) -> log_ok l -> log_ok (l ++ [(c, a)]).
Proof. intros Hc (l1 & -> & H). exists (l1 ++ [(c, a)]). rewrite app_assoc. split; [done|]. apply Forall_app. by repeat constructor. Qed.
Definition world_ok (L : list Z) (w : World) : Prop := held L (w_log w) /\ log_ok (w_log w).
Lemma ok_other L w c a : no_file c = true -> inside lo hi (c, a) -> world_ok L w -> world_ok L (mkWorld (w_vm w) (w_log w ++ [(c, a)])).
Proof. intros Hc Hi [H1 H2]. split; [by apply held_other|by apply log_ok_snoc]. Qed.
Lemma ok_open_failed L w path create a : ret a < 0 -> world_ok L w -> world_ok L (mkWorld (w_vm w) (w_log w ++ [(Open path create, a)])).
Proof. intros Ha [H1 H2]. split; [by apply held_open_failed|by apply log_ok_snoc]. Qed.
Lemma ok_open L w path create a :
  a = os_answer (w_log w) (Open path create) -> 0 <= ret a -> world_ok L w -> world_ok (ret a :: L) (mkWorld (w_vm w) (w_log w ++ [(Open path create, a)])).
Proof. intros Ea Ha [H1 H2]. split; [by apply held_open|by apply log_ok_snoc]. Qed.
Lemma ok_close L w fd a : world_ok (fd :: L) w -> world_ok L (mkWorld (w_vm w) (w_log w ++ [(Close fd, a)])).
Proof. intros [H1 H2]. split; [by apply held_close|by apply log_ok_snoc]. Qed.
Lemma ok_perm L L' w : L ≡ₚ L' -> world_ok L w -> world_ok L' w.
Proof. intros HP [H1 H2]. split; [by eapply held_perm|done]. Qed.

(** ** Opening the own file *)
Abbreviation same sw sw' := (sw'.1 = sw.1 /\ w_vm sw'.2 = w_vm sw.2).
Lemma openAndLock_ok L path (sw : ShmSeg * World) :
  world_ok L sw.2 ->
  wp (openAndLockLocalShm path) (fun r sw' => same sw sw' /\
    ((r.1 < 0 /\ world_ok L sw'.2) \/ (0 <= r.1 /\ world_ok (r.1 :: L) sw'.2))) sw.
Proof.
  intros Hw. unfold openAndLockLocalShm. wp_step. apply wp_sys. intros a Ea.
  destruct (Z.ltb_spec (ret a) 0); [wp_step; split; [done|left; split; [cbn; lia|by apply ok_open_failed]]|].
  pose proof (ok_open L _ _ _ _ Ea ltac:(lia) Hw) as Hw1. do 2 wp_step. apply wp_if; intros _; repeat wp_step; (split; [done|]).
  - left. split; [cbn; lia|]. apply (ok_close L (mkWorld _ _)). by apply (ok_other _ (mkWorld _ _)).
  - right. split; [cbn; lia|]. by apply (ok_other _ (mkWorld _ _)).
Qed.
Lemma cleanup_stale_ok L path (sw : ShmSeg * World) :
  world_ok L sw.2 -> wp (cleanup_stale path) (fun _ sw' => same sw sw' /\ world_ok L sw'.2) sw.
Proof.
  intros Hw. unfold cleanup_stale. wp_step. apply wp_sys. intros a Ea.
  destruct (Z.ltb_spec (ret a) 0); [wp_step; split; [done|by apply ok_open_failed]|].
  pose proof (ok_open L _ _ _ _ Ea ltac:(lia) Hw) as Hw1. do 2 wp_step. apply wp_if; intros _; repeat wp_step; (split; [done|]).
  - apply (ok_close L (mkWorld _ _)). by apply (ok_other _ (mkWorld _ _)).
  - apply (ok_close L (mkWorld _ _)). apply (ok_other _ (mkWorld _ _)); [done..|]. by apply (ok_other _ (mkWorld _ _)).
Qed.
(** The parts of the state that [MapLocalShm] leaves alone. *)
Definition local_of (s : ShmSeg) : MemSegmentOptions * ShmSpace * gset Z * gmap Z Z * list ShmExportInfo :=
  (h_options s, h_space s, mappedRemoteRanks_ (h_files s), importedShmFds_ (h_files s), h_imports_ s).
Definition local_fd (s : ShmSeg) : Z := localShmFd_ (h_files s).
Lemma give_up_ok L path fd (sw : ShmSeg * World) :
  world_ok (fd :: L) sw.2 ->
  wp (give_up_local path fd) (fun r sw' => w_vm sw'.2 = w_vm sw.2 /\ local_of sw'.1 = local_of sw.1 /\ r <> BM_OK /\ local_fd sw'.1 < 0 /\ world_ok L sw'.2) sw.
Proof.
  intros Hw. unfold give_up_local. repeat wp_step. split_and!; [done|done|done|done|].
  apply (ok_other _ (mkWorld _ _)); [done..|]. by apply ok_close.
Qed.
Lemma MapLocalShm_ok L (sw : ShmSeg * World) :
  world_ok L sw.2 -> lo <= localVirtualBase_ (h_space sw.1) -> localVirtualBase_ (h_space sw.1) + so_size (h_options sw.1) <= hi ->
  wp MapLocalShm (fun r sw' => w_vm sw'.2 = w_vm sw.2 /\ local_of sw'.1 = local_of sw.1 /\
    if r =? BM_OK then 0 <= local_fd sw'.1 /\ world_ok (local_fd sw'.1 :: L) sw'.2 else local_fd sw'.1 < 0 /\ world_ok L sw'.2) sw.
Proof.
  intros Hw Hlo Hhi. unfold MapLocalShm. do 6 wp_step. cbn [id fst snd]. wp_step.
  eapply swp_mono; [apply openAndLock_ok; by apply ok_other|]. intros [fd0 e0] [s1 w1] [[Es1 Ev1] H1]. cbn [fst snd w_vm] in *. subst s1.
  do 3 wp_step. cbn [fst snd].
  apply swp_mono with (fun (r : option Z) sw' => w_vm sw'.2 = w_vm sw.2 /\ local_of sw'.1 = local_of sw.1 /\
    match r with
    | Some fd => local_fd sw'.1 = fd /\ ((fd < 0 /\ world_ok L sw'.2) \/ (0 <= fd /\ world_ok (fd :: L) sw'.2))
    | None => local_fd sw'.1 < 0 /\ world_ok L sw'.2
    end).
  { apply wp_if; intros Hst.
    - destruct H1 as [[Hneg H1]|[Hpos _]]; [|lia]. wp_step. eapply swp_mono; [by apply (cleanup_stale_ok L _ (_, w1))|].
      intros [c|] [s2 w2] [[Es2 Ev2] H2]; cbn [fst snd w_vm] in *; subst s2.
      + wp_step. eapply swp_mono; [by apply (openAndLock_ok L _ (_, w2))|]. intros [fd1 e1] [s3 w3] [[Es3 Ev3] H3]. cbn [fst snd w_vm] in *. subst s3.
        repeat wp_step. cbn [fst snd]. split_and!; [congruence|done|done|done].
      + wp_step. split_and!; [cbn; congruence|done|done|done].
    - wp_step. split_and!; [done|done|done|done]. }
  intros [fd|] [s2 w2] (Ev2 & El2 & H2); [|wp_step; split_and!; [done|done|]; done]. cbn [fst snd w_vm] in *.
  destruct H2 as (Efd & H2). destruct (Z.ltb_spec fd 0) as [Hneg|Hpos].
  { wp_step. split_and!; [done|done|]. destruct H2 as [[_ H2]|[? _]]; [|lia]. cbn. split; [lia|done]. }
  destruct H2 as [[? _]|[_ H2]]; [lia|]. do 2 wp_step. cbn [fst snd].
  pose proof (ok_other _ _ (Ftruncate fd (so_size (h_options sw.1))) a0 eq_refl I H2) as H3.
  assert (Hgive : forall w, world_ok (fd :: L) w -> w_vm w = w_vm sw.2 -> wp (give_up_local (GetShmFilePath (so_rankId (h_options sw.1)) (negb (ret a =? 0))) fd)
    (fun r sw' => w_vm sw'.2 = w_vm sw.2 /\ local_of sw'.1 = local_of sw.1 /\
      if r =? BM_OK then 0 <= local_fd sw'.1 /\ world_ok (local_fd sw'.1 :: L) sw'.2 else local_fd sw'.1 < 0 /\ world_ok L sw'.2) (s2, w)).
  { intros w Hw3 Ev3. eapply swp_mono; [by apply give_up_ok|]. intros r sw3 (? & El3 & Hr & ? & ?).
    cbn [fst snd] in *. split_and!; [congruence|congruence|]. by rewrite (proj2 (Z.eqb_neq r BM_OK) Hr). }
  apply wp_if; intros _; [by apply Hgive|]. do 2 wp_step. cbn [fst snd w_vm w_log].
  pose proof (ok_other _ _ (Mmap (localVirtualBase_ (h_space sw.1)) (so_size (h_options sw.1)) PROT_RW
    (flags_of [MAP_FIXED; MAP_SHARED; MAP_POPULATE]) fd 0) a1 eq_refl ltac:(by cbn) H3) as H4. cbn [w_vm w_log] in H4.
  apply wp_if; intros _; [by apply Hgive|]. wp_step. split_and!; [done|done|]. cbn. subst fd. done.
Qed.
End files.
Lemma ok_widen log0 lo hi lo' hi' L w : lo' <= lo -> hi <= hi' -> world_ok log0 lo hi L w -> world_ok log0 lo' hi' L w.
Proof.
  intros Hlo Hhi [H1 (l1 & E & H)]. split; [done|]. exists l1. split; [done|]. eapply Forall_impl; [exact H|].
  intros [c a]. destruct c; cbn; try done; [intros Hc Hf; specialize (Hc Hf)|intros Hc]; lia.
Qed.

(** ** Between reserving and giving back *)
Definition own_fds (s : ShmSeg) : list Z :=
  (if 0 <=? local_fd s then [local_fd s] else []) ++ (map_to_list (importedShmFds_ (h_files s))).*2.
(** The windows of the accepted ranks [rank_ok] lie between [lo] and [hi]. *)
Definition windows_in (o : MemSegmentOptions) (G lo hi : Z) (rank_ok : Z -> Prop) : Prop :=
  forall r, rank_ok r -> lo <= u64 (G + so_size o * r) /\ u64 (G + so_size o * r) + so_size o <= hi.
Definition job_rank (o : MemSegmentOptions) (r : Z) : Prop := 0 <= r < so_rankCnt o.
Definition in_space (o : MemSegmentOptions) (G : Z) : Prop := 0 < G /\ G + so_rankCnt o * so_size o < 18446744073709551616 /\ 0 <= so_size o.
Lemma job_windows o G : in_space o G -> windows_in o G G (G + so_rankCnt o * so_size o) (job_rank o).
Proof. intros (H3 & H4 & H5) r [H1 H2]. rewrite u64_small by nia. nia. Qed.
(** Any rank at all: somewhere in the address space. *)
Lemma any_windows o G : windows_in o G 0 (18446744073709551616 + so_size o) (fun _ => True).
Proof. intros r _. pose proof (u64_range (G + so_size o * r)). lia. Qed.
Section session.
Context {OS : Os} (Hfresh : fresh_fds OS) (o : MemSegmentOptions) (rank_ok : Z -> Prop) (G lo hi : Z) (log0 : log) (vm0 : HybmVaManager).
Context (HG : 0 < G) (Hwin : windows_in o G lo hi rank_ok).
Record shm_inv (sw : ShmSeg * World) : Prop := {
  hs_opt : h_options sw.1 = o;
  hs_space : globalVirtualAddress_ (h_space sw.1) = G /\ totalVirtualSize_ (h_space sw.1) = so_rankCnt o * so_size o;
  hs_mapped : forall r, r ∈ mappedRemoteRanks_ (h_files sw.1) -> rank_ok r;
  hs_fds : forall r, is_Some (importedShmFds_ (h_files sw.1) !! r) -> r ∈ mappedRemoteRanks_ (h_files sw.1);
  hs_imports : forall i, i ∈ h_imports_ sw.1 -> si_rankId i <> so_rankId o -> rank_ok (si_rankId i);
  hs_world : world_ok log0 lo hi (own_fds sw.1) sw.2;
  hs_vm : w_vm sw.2 = vm0 }.
(** A step that keeps the files and the addresses. *)
Lemma shm_keep sw s' :
  shm_inv sw -> h_options s' = h_options sw.1 -> globalVirtualAddress_ (h_space s') = globalVirtualAddress_ (h_space sw.1) ->
  totalVirtualSize_ (h_space s') = totalVirtualSize_ (h_space sw.1) ->
  mappedRemoteRanks_ (h_files s') = mappedRemoteRanks_ (h_files sw.1) -> importedShmFds_ (h_files s') = importedShmFds_ (h_files sw.1) ->
  local_fd s' = local_fd sw.1 -> (forall i, i ∈ h_imports_ s' -> si_rankId i <> so_rankId o -> rank_ok (si_rankId i)) -> shm_inv (s', sw.2).
Proof.
  intros [H1 H2 H3 H4 H5 H6 H7] E1 E2 E3 E4 E5 E6 Hi. split; cbn [fst snd]; try done; [congruence|split; [rewrite E2; apply H2|rewrite E3; apply H2]| | |].
  - rewrite E4. done.
  - rewrite E4, E5. done.
  - unfold own_fds. by rewrite E5, E6.
Qed.
Lemma shm_other sw c a :
  no_file c = true -> inside lo hi (c, a) -> shm_inv sw -> shm_inv (sw.1, mkWorld (w_vm sw.2) (w_log sw.2 ++ [(c, a)])).
Proof. intros Hc Hi [H1 H2 H3 H4 H5 H6 H7]. split; try done. by apply ok_other. Qed.

Lemma own_fds_insert s r fd :
  importedShmFds_ (h_files s) !! r = None ->
  own_fds (set_files (fun f => set_mapped ({[r]} ∪ mappedRemoteRanks_ f) (<[r := fd]> (importedShmFds_ f)) f) s) ≡ₚ fd :: own_fds s.
Proof. intros Hn. unfold own_fds. cbn. rewrite map_to_list_insert by done. cbn. unfold local_fd. cbn. by rewrite Permutation_middle. Qed.
Lemma own_fds_delete s r fd m :
  importedShmFds_ (h_files s) !! r = Some fd ->
  fd :: own_fds (set_files (fun f => set_mapped m (delete r (importedShmFds_ f)) f) s) ≡ₚ own_fds s.
Proof.
  intros Hn. unfold own_fds, local_fd. cbn. rewrite <- (map_to_list_delete _ r fd Hn). cbn. by rewrite Permutation_middle.
Qed.

(** *** Mapping the files of others *)
Lemma open_retry_ok n path L (sw : ShmSeg * World) :
  world_ok log0 lo hi L sw.2 ->
  wp (open_retry n path) (fun r sw' => sw'.1 = sw.1 /\ w_vm sw'.2 = w_vm sw.2 /\
    match r with Some fd => world_ok log0 lo hi (fd :: L) sw'.2 | None => world_ok log0 lo hi L sw'.2 end) sw.
Proof.
  revert sw. induction n as [|n IH]; intros sw Hw; cbn [open_retry]; [by wp_step|]. wp_step. apply wp_sys. intros a Ea.
  destruct (Z.leb_spec 0 (ret a)); [wp_step; split_and!; [done|done|]; by apply ok_open|].
  pose proof (ok_open_failed log0 lo hi L sw.2 path false a ltac:(lia) Hw) as Hw1.
  apply wp_if; intros _; [by wp_step|]. exact (IH (sw.1, mkWorld _ _) Hw1).
Qed.
Lemma MapImported_inv sw r : shm_inv sw -> rank_ok r -> wp (MapImportedShm r) (fun _ sw' => shm_inv sw' /\ h_imports_ sw'.1 = h_imports_ sw.1) sw.
Proof.
  intros Hi Hr. destruct (Hwin r Hr) as (Hlo & Hhi). unfold MapImportedShm. do 2 wp_step. cbn [id].
  case_bool_decide as Hm; [by wp_step|]. wp_step. rewrite (hs_opt _ Hi), (proj1 (hs_space _ Hi)).
  eapply swp_mono; [apply open_retry_ok, Hi|]. intros [fd|] [s1 w1] (Es & Ev & Hw); cbn [fst snd] in *; subst s1.
  2: { wp_step. split; [|done]. destruct Hi as [H1 H2 H3 H4 H5 H6 H7]. split; try done. cbn. congruence. }
  assert (Hfail : forall w, world_ok log0 lo hi (fd :: own_fds sw.1) w -> w_vm w = vm0 -> shm_inv (sw.1, mkWorld (w_vm w) (w_log w ++ [(Close fd, os_answer (w_log w) (Close fd))]))).
  { intros w Hw1 Ev1. destruct Hi as [H1 H2 H3 H4 H5 H6 H7]. split; try done. by apply ok_close. }
  do 2 wp_step. cbn [fst snd]. pose proof (ok_other log0 lo hi _ _ (Fstat fd) a eq_refl I Hw) as Hw1. pose proof (hs_vm _ Hi) as Evm.
  apply wp_if; intros _.
  { wp_step. apply wp_sys. intros a0 ->. wp_step. split; [|done]. apply (Hfail (mkWorld _ _)); [done|cbn; congruence]. }
  do 2 wp_step. cbn [fst snd]. pose proof (ok_other log0 lo hi _ _ (Mmap (u64 (G + so_size o * r)) (so_size o) PROT_RW (flags_of [MAP_FIXED; MAP_SHARED]) fd 0) a0 eq_refl ltac:(by cbn) Hw1) as Hw2.
  apply wp_if; intros _.
  { wp_step. apply wp_sys. intros a1 ->. wp_step. split; [|done]. apply (Hfail (mkWorld _ _)); [done|cbn; congruence]. }
  repeat wp_step. split; [|done]. destruct Hi as [H1 H2 H3 H4 H5 H6 H7]. split; try done; cbn [fst snd w_vm w_log].
  - cbn. intros x [Hx|Hx]%elem_of_union; [by apply elem_of_singleton in Hx as ->|by apply H3].
  - cbn. intros x [<-|[_ Hx]]%lookup_insert_is_Some; [set_solver|]. apply H4 in Hx. set_solver.
  - eapply ok_perm; [|exact Hw2]. symmetry. apply own_fds_insert. apply eq_None_not_Some. intros Hx. by apply H4 in Hx.
  - cbn. congruence.
Qed.
Lemma shm_map_imports_inv l sw :
  shm_inv sw -> (forall i, i ∈ l -> si_rankId i <> so_rankId o -> rank_ok (si_rankId i)) -> wp (shm_map_imports l) (fun _ => shm_inv) sw.
Proof.
  revert sw. induction l as [|i l IH]; intros sw Hi Hl; cbn [shm_map_imports].
  { repeat wp_step. by apply shm_keep; try done; intros i Hin; apply elem_of_nil in Hin. }
  do 2 wp_step. cbn [id]. rewrite (hs_opt _ Hi). assert (Hl' := fun j Hj => Hl j (list_elem_of_further _ _ _ Hj)).
  destruct (Z.eqb_spec (si_rankId i) (so_rankId o)) as [|Hne]; [by apply IH|]. wp_step.
  eapply swp_mono; [apply MapImported_inv; [done|apply Hl; [by left|done]]|]. intros r sw1 [Hi1 _].
  apply wp_if; intros _; [by apply IH|by wp_step].
Qed.

(** *** Unmapping *)
Lemma Remap_inv sw r :
  shm_inv sw -> rank_ok r -> wp (RemapRemoteAsReserved r) (fun _ sw' => shm_inv sw' /\ sw'.1 = sw.1) sw.
Proof.
  intros Hi Hr. destruct (Hwin r Hr) as (Hlo & Hhi). unfold RemapRemoteAsReserved. repeat wp_step. cbn [id].
  rewrite (hs_opt _ Hi), (proj1 (hs_space _ Hi)). split; [|done]. apply shm_other; [done|by cbn|done].
Qed.
Lemma remap_all_inv l res sw :
  shm_inv sw -> (forall r, r ∈ l -> rank_ok r) -> wp (remap_all res l) (fun _ sw' => shm_inv sw' /\ sw'.1 = sw.1) sw.
Proof.
  revert res sw. induction l as [|r l IH]; intros res sw Hi Hl; cbn [remap_all]; [by wp_step|]. wp_step.
  eapply swp_mono; [apply Remap_inv; [done|apply Hl; by left]|]. intros k sw1 [Hi1 Es1].
  eapply swp_mono; [apply IH; [done|]|]. { intros x Hx. apply Hl. by right. } intros k2 sw2 [Hi2 Es2]. split; [done|congruence].
Qed.
Lemma close_all_ok l L (sw : ShmSeg * World) :
  world_ok log0 lo hi (l.*2 ++ L) sw.2 ->
  wp (each (fun rf : Z * Z => _ ← sys (Close rf.2); mret tt) l) (fun _ sw' => sw'.1 = sw.1 /\ w_vm sw'.2 = w_vm sw.2 /\ world_ok log0 lo hi L sw'.2) sw.
Proof.
  revert sw. induction l as [|[r fd] l IH]; intros sw Hw; cbn [each]; [by wp_step|]. do 3 wp_step. wp_step.
  exact (IH (sw.1, mkWorld _ _) (ok_close log0 lo hi _ _ _ _ Hw)).
Qed.
Lemma shm_Unmap_inv sw :
  shm_inv sw -> wp shm_Unmap (fun _ sw' => shm_inv sw' /\ mappedRemoteRanks_ (h_files sw'.1) = ∅ /\ importedShmFds_ (h_files sw'.1) = ∅) sw.
Proof.
  intros Hi. unfold shm_Unmap, CloseImportedShmFds. do 3 wp_step.
  eapply swp_mono; [apply remap_all_inv; [done|]|]. { intros r Hr%elem_of_elements. by apply Hi. }
  intros k sw1 [Hi1 Es1]. do 4 wp_step.
  eapply swp_mono; [apply (close_all_ok _ (if 0 <=? local_fd sw1.1 then [local_fd sw1.1] else []))|].
  { eapply ok_perm; [|apply Hi1]. unfold own_fds. by rewrite Permutation_app_comm. }
  intros [] [s2 w2] (Es2 & Ev2 & Hw2). cbn [fst snd] in *. subst s2. repeat wp_step. cbn [fst snd].
  destruct Hi1 as [H1 H2 H3 H4 H5 H6 H7]. split; [|done]. split; try done; cbn [fst snd].
  - cbn. intros r [x Hx]. by rewrite lookup_empty in Hx.
  - unfold own_fds, local_fd in *. cbn. rewrite map_to_list_empty. cbn. by rewrite app_nil_r.
  - congruence.
Qed.
Lemma remove_imported_inv l res sw : shm_inv sw -> wp (remove_imported res l) (fun _ => shm_inv) sw.
Proof.
  revert res sw. induction l as [|r l IH]; intros res sw Hi; cbn [remove_imported]; [by wp_step|]. do 2 wp_step.
  case_bool_decide as Hm; cbn [negb]; [|by apply IH]. wp_step.
  eapply swp_mono; [apply Remap_inv; [done|by apply Hi]|]. intros k [s1 w1] [Hi1 Es1]. cbn [fst] in Es1. subst s1.
  apply wp_if; intros _; [by apply IH|]. wp_step.
  apply swp_mono with (fun _ sw2 => sw2.1 = sw.1 /\ w_vm sw2.2 = vm0 /\ forall m, world_ok log0 lo hi
    (own_fds (set_files (fun f => set_mapped m (delete r (importedShmFds_ f)) f) sw.1)) sw2.2).
  { pose proof (hs_world _ Hi1) as Hw. pose proof (hs_vm _ Hi1) as Ev. cbn [fst snd] in *.
    destruct (importedShmFds_ (h_files sw.1) !! r) as [fd|] eqn:Ef; repeat wp_step; split_and!; try done; intros m.
    - apply ok_close. eapply ok_perm; [symmetry; by apply own_fds_delete|done].
    - unfold own_fds, local_fd in *. cbn. by rewrite delete_id. }
  intros [] [s2 w2] (Es2 & Ev2 & Hw2). cbn [fst snd] in *. subst s2. do 2 wp_step. apply IH.
  destruct Hi1 as [H1 H2 H3 H4 H5 H6 H7]. split; try done; cbn [fst snd].
  - cbn. intros x [Hx _]%elem_of_difference. by apply H3.
  - cbn. intros x [y [Hne Hy]%lookup_delete_Some]. assert (x ∈ mappedRemoteRanks_ (h_files sw.1)) by (apply H4; eauto). set_solver.
  - apply Hw2.
Qed.

(** *** The operations, in any order *)
Inductive shm_op :=
| ShAlloc (size : Z) | ShRegister (va size : Z) | ShRelease (id : Z) | ShExport (id : Z)
| ShImport (all : list bytes) | ShMmap | ShUnmap | ShRemoveImported (ranks : list Z).
Definition shm_on_slice (id : Z) (f : MemSlice -> HM unit) : HM unit :=
  r ← shm_GetMemSlice id; match r with Some sl => f sl | None => mret tt end.
Definition shm_do (op : shm_op) : HM unit :=
  match op with
  | ShAlloc size => _ ← shm_AllocLocalMemory size; mret tt
  | ShRegister va size => _ ← shm_RegisterMemory va size; mret tt
  | ShRelease id => shm_on_slice id (fun sl => _ ← shm_ReleaseSliceMemory sl; mret tt)
  | ShExport id => shm_on_slice id (fun sl => _ ← shm_Export sl; mret tt)
  | ShImport all => _ ← shm_Import all; mret tt
  | ShMmap => _ ← shm_Mmap; mret tt
  | ShUnmap => _ ← shm_Unmap; mret tt
  | ShRemoveImported ranks => _ ← shm_RemoveImported ranks; mret tt
  end.
(** Descriptions of other ranks name an accepted rank. *)
Definition shm_op_ok (op : shm_op) : Prop :=
  match op with
  | ShImport all => forall b i, b ∈ all -> DeserializeShm b = Some i -> si_rankId i <> so_rankId o -> rank_ok (si_rankId i)
  | _ => True
  end.
Lemma h_emplace_keep sw sl : shm_inv sw -> shm_inv (h_emplace sl sw.1, sw.2).
Proof. intros Hi. unfold h_emplace. destruct (_ !! _); [by destruct sw|]. apply shm_keep; try done. apply Hi. Qed.
Lemma on_slice_keep sw id f :
  shm_inv sw -> (forall sl, wp (f sl) (fun _ => shm_inv) sw) -> wp (shm_on_slice id f) (fun _ => shm_inv) sw.
Proof.
  intros Hi Hf. unfold shm_on_slice, shm_GetMemSlice. repeat wp_step. destruct (h_slices_ sw.1 !! _); [|by wp_step].
  destruct (ValidateId _ _); [apply Hf|by wp_step].
Qed.
Lemma unique_ranks_elem infos seen kept i : unique_ranks seen infos = Some kept -> i ∈ kept -> i ∈ infos.
Proof.
  revert seen kept. induction infos as [|x infos IH]; cbn [unique_ranks]; intros seen kept E Hi.
  { injection E as <-. done. }
  destruct (negb _); [done|]. case_bool_decide; [right; by eapply IH|].
  destruct (unique_ranks _ infos) as [rest|] eqn:Er; [|done]. injection E as <-. apply elem_of_cons in Hi as [->|Hi]; [by left|].
  right. by eapply IH.
Qed.
Lemma shm_deserialize_elem all infos i : shm_deserialize_all all = Some infos -> i ∈ infos -> exists b, b ∈ all /\ DeserializeShm b = Some i.
Proof.
  revert infos. induction all as [|b all IH]; cbn [shm_deserialize_all]; intros infos E Hi.
  { injection E as <-. by apply elem_of_nil in Hi. }
  destruct (DeserializeShm b) as [x|] eqn:Eb; [|done]. destruct (shm_deserialize_all all) as [rest|]; [|done]. injection E as <-.
  apply elem_of_cons in Hi as [->|Hi]; [exists b; split; [by left|done]|]. destruct (IH _ eq_refl Hi) as (b' & Hb & E').
  exists b'. split; [by right|done].
Qed.
Lemma shm_Import_inv sw all :
  shm_inv sw -> shm_op_ok (ShImport all) -> wp (shm_Import all) (fun _ => shm_inv) sw.
Proof.
  intros Hi Hall. unfold shm_Import. destruct (shm_deserialize_all all) as [infos|] eqn:E; [|by wp_step].
  destruct (unique_ranks ∅ infos) as [kept|] eqn:Eu; [|by wp_step]. repeat wp_step. apply (shm_keep sw); try done. cbn.
  intros i [Hin|Hin]%elem_of_app; [by apply Hi|]. destruct (shm_deserialize_elem all infos i E) as (b & Hb & Eb); [by eapply unique_ranks_elem|].
  by apply (Hall b).
Qed.
Lemma shm_do_inv sw op : shm_inv sw -> shm_op_ok op -> wp (shm_do op) (fun _ => shm_inv) sw.
Proof.
  intros Hi Hok. assert (Hdrop : forall A (m : HM A), wp m (fun _ => shm_inv) sw -> wp (_ ← m; mret tt) (fun _ => shm_inv) sw).
  { intros A m Hm. wp_step. eapply swp_mono; [exact Hm|]. intros x sw' H. by wp_step. }
  destruct op; cbn [shm_do] in *.
  - apply Hdrop. unfold shm_AllocLocalMemory. do 2 wp_step. apply wp_if; intros _; [by wp_step|]. repeat wp_step.
    apply (h_emplace_keep (_, _)). eapply (shm_keep (sw.1, _)); try done; [by apply shm_other|]. apply Hi.
  - apply Hdrop. unfold shm_RegisterMemory. repeat wp_step.
    apply (h_emplace_keep (_, _)). eapply (shm_keep (sw.1, _)); try done; [by apply shm_other|]. apply Hi.
  - apply on_slice_keep; [done|]. intros sl. apply Hdrop. unfold shm_ReleaseSliceMemory. do 2 wp_step.
    destruct (_ !! _); [|by wp_step]. apply wp_if; intros _; [by wp_step|]. repeat wp_step. apply shm_keep; try done. apply Hi.
  - apply on_slice_keep; [done|]. intros sl. apply Hdrop. unfold shm_Export. do 2 wp_step.
    destruct (_ !! _); [|by wp_step]. apply wp_if; intros _; [by wp_step|]. destruct (_ !! _); [by wp_step|]. repeat wp_step.
    apply shm_keep; try done. apply Hi.
  - apply Hdrop. by apply shm_Import_inv.
  - apply Hdrop. unfold shm_Mmap. do 2 wp_step. apply shm_map_imports_inv; [done|apply Hi].
  - apply Hdrop. eapply swp_mono; [by apply shm_Unmap_inv|]. by intros r sw' [? _].
  - apply Hdrop. by apply remove_imported_inv.
Qed.
Lemma shm_ops_inv ops sw : shm_inv sw -> Forall shm_op_ok ops -> wp (each shm_do ops) (fun _ => shm_inv) sw.
Proof.
  intros Hi Hok. apply (wp_each _ shm_inv); [done|]. intros op sw' Hin Hi'. apply shm_do_inv; [done|].
  rewrite Forall_forall in Hok. by apply Hok.
Qed.
Lemma shm_UnReserve_inv sw :
  shm_inv sw ->
  wp shm_UnReserveMemorySpace (fun r sw' => r = BM_OK /\ world_ok log0 lo hi [] sw'.2 /\ w_vm sw'.2 = FreeReserveGva vm0 G /\
    mappedRemoteRanks_ (h_files sw'.1) = ∅ /\ globalVirtualAddress_ (h_space sw'.1) = 0) sw.
Proof.
  intros Hi. unfold shm_UnReserveMemorySpace, shm_FreeMemory. do 2 wp_step.
  eapply swp_mono; [by apply shm_Unmap_inv|]. intros r [s1 w1] (Hi1 & Em & Ef). do 3 wp_step. cbn [id fst snd] in *.
  pose proof (hs_world _ Hi1) as Hw. unfold own_fds, local_fd in Hw. cbn [fst snd] in Hw. rewrite Ef, map_to_list_empty, app_nil_r in Hw.
  apply swp_mono with (fun _ sw2 => world_ok log0 lo hi [] sw2.2 /\ w_vm sw2.2 = vm0 /\ mappedRemoteRanks_ (h_files sw2.1) = ∅).
  { apply wp_if; intros Hc; rewrite Hc in Hw; repeat wp_step; (split_and!; [|apply (hs_vm _ Hi1)|done]); [|done].
    apply (ok_other _ _ _ _ (mkWorld _ _)); [done..|]. by apply ok_close. }
  intros [] [s2 w2] (Hw2 & Ev2 & Em2). cbn [fst snd] in *. pose proof (proj1 (hs_space _ Hi1)) as Eg. cbn [fst] in Eg. rewrite Eg.
  rewrite (proj2 (Z.eqb_neq G 0)) by lia. cbn [negb]. repeat wp_step. cbn [fst snd w_vm w_log].
  split_and!; [done| |by rewrite Ev2|done|done]. destruct Hw2 as [Hw2 Hl2]. split; [by apply held_other|by apply log_ok_snoc].
Qed.
End session.

(** ** Reserving *)
Definition shm_options_ok (o : MemSegmentOptions) : Prop := 0 <= so_size o < 18446744073709551616 /\ 0 <= so_rankId o < so_rankCnt o.
Definition shm_idle (o : MemSegmentOptions) (s : ShmSeg) : Prop :=
  h_options s = o /\ h_imports_ s = [] /\ mappedRemoteRanks_ (h_files s) = ∅ /\ importedShmFds_ (h_files s) = ∅ /\ local_fd s < 0.
Lemma shm_ValidateOptions_fits o :
  shm_options_ok o -> shm_ValidateOptions o = BM_OK -> 0 < so_size o /\ so_rankCnt o * so_size o < 18446744073709551616.
Proof.
  intros (Hm & Hc). unfold shm_ValidateOptions. destruct (_ || _) eqn:E; [done|].
  destruct (Z.ltb_spec (UINT64_MAX / so_size o) (so_rankCnt o)) as [|Hle]; [done|]. intros _.
  assert (0 < so_size o) by lia. split; [done|].
  pose proof (Z.mul_div_le UINT64_MAX (so_size o)). unfold UINT64_MAX in *. nia.
Qed.
Definition shm_reserved (o : MemSegmentOptions) (vm : HybmVaManager) (l : log) (G : Z) (sw : ShmSeg * World) : Prop :=
  in_space o G /\
  (forall rank_ok lo hi, lo <= G -> G + so_rankCnt o * so_size o <= hi -> shm_inv o rank_ok G lo hi l (w_vm sw.2) sw) /\
  same_reserved vm (FreeReserveGva (w_vm sw.2) G) /\ forall t, alloc_of (w_vm sw.2) t = alloc_of vm t.
Lemma shm_Reserve_inv {OS : Os} o s vm l :
  fresh_fds OS -> shm_idle o s -> shm_options_ok o -> rsv_inv vm ->
  wp shm_ReserveMemorySpace (fun r sw =>
    match r with
    | (ret, Some G) => ret = BM_OK /\ shm_reserved o vm l G sw
    | (ret, None) => ret <> BM_OK /\ open_fds (w_log sw.2) = open_fds l
    end) (s, mkWorld vm l).
Proof.
  intros Hfresh (Ho & Himp & Hm & Hf & Hfd) Hok Hrsv. unfold shm_ReserveMemorySpace. do 2 wp_step. cbn [id fst]. rewrite Ho.
  destruct (Z.eqb_spec (shm_ValidateOptions o) BM_OK) as [Hv|]; cbn [negb]; [|by wp_step].
  destruct (shm_ValidateOptions_fits o Hok Hv) as [Hmax Hfit]. destruct Hok as (Hok1 & Hok2).
  apply wp_if; intros _; [by wp_step|]. rewrite (u64_small (so_rankCnt o * _)) by nia. do 2 wp_step. cbn [fst snd w_vm].
  pose proof (AllocReserveGva_fresh vm (so_rankId o) (so_rankCnt o * so_size o) HYBM_MEM_TYPE_HOST Hrsv ltac:(nia)) as Hfr.
  pose proof (fun t => alloc_AllocReserveGva vm (so_rankId o) (so_rankCnt o * so_size o) (so_rankCnt o * so_size o) HYBM_MEM_TYPE_HOST false false t) as Ha.
  cbv zeta in Hfr. revert Hfr Ha. generalize (AllocReserveGva vm (so_rankId o) (so_rankCnt o * so_size o) (so_rankCnt o * so_size o) HYBM_MEM_TYPE_HOST false false).
  intros [info vm1] Hfr Ha. cbn [fst snd] in *. set (G := per_get (r_va info) HVM_GVA) in *. clearbody G.
  destruct (Z.leb_spec G 0) as [|Hg]; [by wp_step|]. destruct (Hfr ltac:(lia)) as (W1 & W2 & Hsr). pose proof (windows vm) as (_ & W3 & _).
  assert (HG : in_space o G) by (unfold in_space; lia).
  do 2 wp_step. apply wp_if; intros _; [repeat wp_step; split; [done|]; cbn; by rewrite open_fds_snoc|].
  rewrite (u64_small (G + _)) by nia. do 3 wp_step. cbn [fst snd w_vm w_log].
  assert (Hw0 : world_ok l G (G + so_rankCnt o * so_size o) [] (mkWorld vm1 l)).
  { split; [|exists []; by rewrite app_nil_r]. split_and!; [set_solver|constructor|set_solver]. }
  eapply swp_mono; [apply (MapLocalShm_ok Hfresh l G (G + so_rankCnt o * so_size o) []); cbn [fst snd h_options h_space set_space localVirtualBase_]; rewrite ?Ho|].
  1: apply (ok_other _ _ _ _ (mkWorld _ _)); [done|done|exact Hw0].
  1, 2: nia.
  intros r [s2 w2] (Ev & El & Hr). cbn [fst snd w_vm] in *. destruct (Z.eqb_spec r BM_OK) as [->|Hne]; cbn [negb].
  - destruct Hr as [Hpos Hw]. wp_step. split; [done|]. unfold local_of in El. cbn in El. injection El as E1 E2 E3 E4 E5.
    split; [done|]. cbn [fst snd]. split_and!; [|by rewrite Ev|by rewrite Ev]. intros rank_ok lo hi Hlo Hhi. apply (ok_widen _ _ _ lo hi) in Hw; [|done..].
    split; cbn [fst snd]; rewrite ?E1, ?E2, ?E3, ?E4, ?E5, ?Hm, ?Hf, ?Himp; try done.
    + intros r [x Hx]. by rewrite lookup_empty in Hx.
    + intros i Hi. by apply elem_of_nil in Hi.
    + unfold own_fds. rewrite E4, Hf, map_to_list_empty. cbn. by rewrite (proj2 (Z.leb_le _ _)) by lia.
  - destruct Hr as [Hneg [Hw _]]. repeat wp_step. split; [done|]. cbn. rewrite open_fds_snoc. destruct Hw as (-> & _). set_solver.
Qed.
