(* ===== verification/EntityTag.v ===== *)
(** * EntityTag: which ways of moving data are allowed between tagged ranks

    [hybm/csrc/entity/hybm_entity_tag_info.h, .cpp], with the checks of
    [util/csrc/mf_ipv4_validator.h].  Ranks carry a tag, and text such as
    [a:HOST_RDMA:b,a:HOST_TCP:a] says which operations two tags may use; the types of a pair
    are the bits of a number.  The lock makes every operation atomic. *)
From Stdlib Require Import String.
From stdpp Require Import gmap.
From S2P Require Import Prelude MessagePacker StrUtil VaManager ConnSegment.
Local Open Scope list_scope.

Definition MAX_TAG_LEN : Z := 30.
Definition MIN_OP_TYPE_LEN : Z := 8.
Definition MAX_OP_TYPE_LEN : Z := 12.
Definition isupper (c : Z) : bool := (65 <=? c) && (c <=? 90).
Definition isalnum (c : Z) : bool := is_digit c || isupper c || ((97 <=? c) && (c <=? 122)).
Definition underscore : Z := 95.
Definition colon : Z := 58.
Definition comma : Z := 44.

Definition IsValidTag (tag : bytes) : bool :=
  negb (blen tag =? 0) && (blen tag <=? MAX_TAG_LEN) && forallb (fun c => isalnum c || (c =? underscore)) tag.
(** [tag:OP_TYPE:tag] in its three parts. *)
Definition ParseTagOpInfo (tagOpInfo : bytes) : option (bytes * bytes * bytes) :=
  match Split tagOpInfo colon with
  | [tag1; opStr; tag2] =>
      if negb (IsValidTag tag1) || negb (IsValidTag tag2) then None else
      if (blen opStr <? MIN_OP_TYPE_LEN) || (MAX_OP_TYPE_LEN <? blen opStr) then None else
      if forallb (fun c => isupper c || (c =? underscore)) opStr then Some (tag1, opStr, tag2) else None
  | _ => None
  end.

Definition HYBM_DOP_TYPE_DEFAULT : Z := 0.
Definition HYBM_DOP_TYPE_MTE : Z := 1.
Definition HYBM_DOP_TYPE_SDMA : Z := 2.
Definition HYBM_DOP_TYPE_HOST_RDMA : Z := 8.
Definition HYBM_DOP_TYPE_HOST_TCP : Z := 16.
Definition HYBM_DOP_TYPE_HOST_URMA : Z := 32.
Definition HYBM_DOP_TYPE_HOST_SHM : Z := 64.
Definition str2OpTypeMap : list (bytes * Z) :=
  [(lit "DEVICE_SDMA", HYBM_DOP_TYPE_SDMA); (lit "DEVICE_RDMA", HYBM_DOP_TYPE_DEVICE_RDMA); (lit "HOST_RDMA", HYBM_DOP_TYPE_HOST_RDMA);
   (lit "HOST_TCP", HYBM_DOP_TYPE_HOST_TCP); (lit "HOST_URMA", HYBM_DOP_TYPE_HOST_URMA);
   (lit "HOST_SHM", HYBM_DOP_TYPE_HOST_SHM); (lit "DEVICE_MTE", HYBM_DOP_TYPE_MTE)].
Definition op_of_str (s : bytes) : option Z := snd <$> find (fun p : bytes * Z => bool_decide (p.1 = s)) str2OpTypeMap.
Definition GetOpTypeStr (opType : Z) : bytes :=
  match find (fun p : bytes * Z => p.2 =? opType) str2OpTypeMap with Some p => p.1 | None => lit "OP_TYPE_BUTT" end.

Record HybmEntityTagInfo := mkTags { rankTagInfo_ : gmap Z bytes; tagOpInfo_ : gmap bytes Z }.
Definition no_tags : HybmEntityTagInfo := mkTags ∅ ∅.
Implicit Types t : HybmEntityTagInfo.

Definition AddRankTag (rankId : Z) (tag : bytes) t : Z * HybmEntityTagInfo :=
  if blen tag =? 0 then (BM_OK, t) else
  if negb (IsValidTag tag) then (BM_INVALID_PARAM, t) else
  (BM_OK, mkTags (<[rankId := tag]> (rankTagInfo_ t)) (tagOpInfo_ t)).
Definition tag_key (tag1 tag2 : bytes) : bytes := tag1 ++ colon :: tag2.
Definition GetTag2TagOpType (tag1 tag2 : bytes) t : Z :=
  match tagOpInfo_ t !! tag_key tag1 tag2 with
  | Some op => op
  | None => default HYBM_DOP_TYPE_DEFAULT (tagOpInfo_ t !! tag_key tag2 tag1)
  end.
Definition AddOneTagOpInfo (info : bytes) t : Z * HybmEntityTagInfo :=
  match ParseTagOpInfo info with
  | None => (BM_INVALID_PARAM, t)
  | Some (tag1, opTypeStr, tag2) =>
      match op_of_str opTypeStr with
      | None => (BM_INVALID_PARAM, t)
      | Some op =>
          let opType := GetTag2TagOpType tag1 tag2 t in
          (BM_OK, mkTags (rankTagInfo_ t) (<[tag_key tag1 tag2 := Z.lor opType op]> (tagOpInfo_ t)))
      end
  end.
Fixpoint add_items (items : list bytes) t : Z * HybmEntityTagInfo :=
  match items with
  | [] => (BM_OK, t)
  | item :: items => let '(ret, t) := AddOneTagOpInfo item t in if ret =? BM_OK then add_items items t else (ret, t)
  end.
Definition AddTagOpInfo (info : bytes) t : Z * HybmEntityTagInfo :=
  if blen info =? 0 then (BM_OK, t) else add_items (Split info comma) t.
Definition TagInfoInit (rankId : Z) (tag tagOpInfo : bytes) t : Z * HybmEntityTagInfo :=
  let '(ret, t) := AddRankTag rankId tag t in
  if ret =? BM_OK then AddTagOpInfo tagOpInfo t else (ret, t).
Definition RemoveRankTag (rankId : Z) t : Z * HybmEntityTagInfo := (BM_OK, mkTags (delete rankId (rankTagInfo_ t)) (tagOpInfo_ t)).
Definition GetTagByRank (rankId : Z) t : bytes := default [] (rankTagInfo_ t !! rankId).
Definition GetRank2RankOpType (rankId1 rankId2 : Z) t : Z :=
  match rankTagInfo_ t !! rankId1, rankTagInfo_ t !! rankId2 with
  | Some tag1, Some tag2 => GetTag2TagOpType tag1 tag2 t
  | _, _ => HYBM_DOP_TYPE_DEFAULT
  end.
Definition GetAllOpType t : Z := foldr (fun p : bytes * Z => Z.lor p.2) 0 (map_to_list (tagOpInfo_ t)).

(** ** Bits are only ever added *)
Definition bits_in (a b : Z) : Prop := Z.land a b = a.
Lemma bits_in_testbit a b : bits_in a b <-> forall n, 0 <= n -> Z.testbit a n = true -> Z.testbit b n = true.
Proof.
  unfold bits_in. split.
  - intros H n Hn Ha. rewrite <- H, Z.land_spec in Ha. by apply andb_true_iff in Ha as [_ ?].
  - intros H. apply Z.bits_inj'. intros n Hn. rewrite Z.land_spec. destruct (Z.testbit a n) eqn:E; [|done]. by rewrite (H n Hn E).
Qed.
Lemma bits_in_refl a : bits_in a a.
Proof. apply Z.land_diag. Qed.
Lemma bits_in_trans a b c : bits_in a b -> bits_in b c -> bits_in a c.
Proof. rewrite !bits_in_testbit. auto. Qed.
Lemma bits_in_lor_l a b : bits_in a (Z.lor a b).
Proof. apply bits_in_testbit. intros n Hn Ha. by rewrite Z.lor_spec, Ha. Qed.
Lemma bits_in_lor_r a b : bits_in b (Z.lor a b).
Proof. rewrite Z.lor_comm. apply bits_in_lor_l. Qed.
Lemma bits_in_lor a b c : bits_in a c -> bits_in b c -> bits_in (Z.lor a b) c.
Proof. rewrite !bits_in_testbit. intros Ha Hb n Hn. rewrite Z.lor_spec. intros [?|?]%orb_true_iff; auto. Qed.

(** What is recorded stays, with more bits. *)
Definition grows t t' : Prop := forall k op, tagOpInfo_ t !! k = Some op -> exists op', tagOpInfo_ t' !! k = Some op' /\ bits_in op op'.
Lemma grows_refl t : grows t t.
Proof. intros k op Hk. exists op. split; [done|apply bits_in_refl]. Qed.
Lemma grows_trans t1 t2 t3 : grows t1 t2 -> grows t2 t3 -> grows t1 t3.
Proof.
  intros H1 H2 k op Hk. destruct (H1 k op Hk) as (op2 & Hk2 & B2). destruct (H2 k op2 Hk2) as (op3 & Hk3 & B3).
  exists op3. split; [done|by eapply bits_in_trans].
Qed.
Lemma AddOne_grows info t : grows t (AddOneTagOpInfo info t).2 /\ rankTagInfo_ (AddOneTagOpInfo info t).2 = rankTagInfo_ t.
Proof.
  unfold AddOneTagOpInfo. destruct (ParseTagOpInfo info) as [[[tag1 s] tag2]|]; [|split; [apply grows_refl|done]].
  destruct (op_of_str s) as [op|]; [|split; [apply grows_refl|done]]. cbn [snd]. split; [|done]. intros k old Hk. cbn.
  destruct (decide (tag_key tag1 tag2 = k)) as [<-|Hne].
  - rewrite lookup_insert_eq. eexists. split; [done|]. unfold GetTag2TagOpType. rewrite Hk. apply bits_in_lor_l.
  - rewrite lookup_insert_ne by done. exists old. split; [done|apply bits_in_refl].
Qed.
Lemma AddOne_adds info t tag1 s tag2 op :
  ParseTagOpInfo info = Some (tag1, s, tag2) -> op_of_str s = Some op ->
  exists v, tagOpInfo_ (AddOneTagOpInfo info t).2 !! tag_key tag1 tag2 = Some v /\ bits_in op v.
Proof.
  intros Hp Ho. unfold AddOneTagOpInfo. rewrite Hp, Ho. cbn. rewrite lookup_insert_eq. eexists. split; [done|apply bits_in_lor_r].
Qed.
Lemma add_items_grows items t : grows t (add_items items t).2 /\ rankTagInfo_ (add_items items t).2 = rankTagInfo_ t.
Proof.
  revert t. induction items as [|i items IH]; intros t; cbn [add_items]; [split; [apply grows_refl|done]|].
  destruct (AddOne_grows i t) as [H1 E1]. destruct (AddOneTagOpInfo i t) as [r t1]. cbn [snd] in *.
  destruct (_ =? _); [|done]. destruct (IH t1) as [H2 E2]. split; [by eapply grows_trans|congruence].
Qed.
Lemma add_items_adds items t i tag1 s tag2 op :
  (add_items items t).1 = BM_OK -> i ∈ items -> ParseTagOpInfo i = Some (tag1, s, tag2) -> op_of_str s = Some op ->
  exists v, tagOpInfo_ (add_items items t).2 !! tag_key tag1 tag2 = Some v /\ bits_in op v.
Proof.
  revert t. induction items as [|x items IH]; intros t Hok Hi Hp Ho; [by apply elem_of_nil in Hi|]. cbn [add_items] in *.
  pose proof (AddOne_adds x t tag1 s tag2 op) as Hadd. destruct (AddOneTagOpInfo x t) as [r t1]. cbn [snd] in *.
  destruct (Z.eqb_spec r BM_OK); [|by cbn in Hok]. apply elem_of_cons in Hi as [->|Hi]; [|by apply IH].
  destruct (Hadd Hp Ho) as (v & Hv & Hb). destruct (add_items_grows items t1) as [Hg _].
  destruct (Hg _ _ Hv) as (v' & Hv' & Hb'). exists v'. split; [done|by eapply bits_in_trans].
Qed.
Lemma GetAllOpType_has t k op : tagOpInfo_ t !! k = Some op -> bits_in op (GetAllOpType t).
Proof.
  intros Hk%elem_of_map_to_list. unfold GetAllOpType. induction (map_to_list (tagOpInfo_ t)) as [|p l IH]; [by apply elem_of_nil in Hk|].
  cbn. apply elem_of_cons in Hk as [<-|Hk]; [apply bits_in_lor_l|]. eapply bits_in_trans; [by apply IH|apply bits_in_lor_r].
Qed.

(** ** Text made of valid parts is read back *)
Lemma Split_terminated d l : Forall (free_of d) l -> Split (concat ((fun s => s ++ [d]) <$> l)) d = l.
Proof.
  unfold Split. induction 1 as [|s l Hs _ IH]; [done|]. cbn [fmap list_fmap concat]. rewrite <- app_assoc, split_from_app by done.
  cbn [app split_from]. rewrite Z.eqb_refl. by rewrite IH.
Qed.
Lemma valid_tag_chars tag c : IsValidTag tag = true -> c ∈ tag -> c <> colon /\ c <> comma.
Proof.
  unfold IsValidTag. intros H Hc. apply andb_true_iff in H as [_ H]. apply forallb_forall with (x := c) in H; [|by apply list_elem_of_In].
  unfold isalnum, isupper, is_digit, underscore, colon, comma in *. lia.
Qed.
Lemma valid_tag_free tag d : IsValidTag tag = true -> d = colon \/ d = comma -> free_of d tag /\ tag <> [].
Proof.
  intros H Hd. split; [|by intros ->]. apply Forall_forall. intros c Hc. destruct (valid_tag_chars tag c H Hc). destruct Hd as [-> | ->]; done.
Qed.
Definition tag_item (tag1 : bytes) (op : Z) (tag2 : bytes) : bytes := join colon [tag1; GetOpTypeStr op; tag2].
Definition all_ops : list Z :=
  [HYBM_DOP_TYPE_DEVICE_RDMA; HYBM_DOP_TYPE_SDMA; HYBM_DOP_TYPE_MTE; HYBM_DOP_TYPE_HOST_RDMA; HYBM_DOP_TYPE_HOST_TCP;
   HYBM_DOP_TYPE_HOST_URMA; HYBM_DOP_TYPE_HOST_SHM].
Lemma op_str_ok op : op ∈ all_ops ->
  op_of_str (GetOpTypeStr op) = Some op /\ free_of colon (GetOpTypeStr op) /\ free_of comma (GetOpTypeStr op) /\ GetOpTypeStr op <> [] /\
  (blen (GetOpTypeStr op) <? MIN_OP_TYPE_LEN) || (MAX_OP_TYPE_LEN <? blen (GetOpTypeStr op)) = false /\
  forallb (fun c => isupper c || (c =? underscore)) (GetOpTypeStr op) = true.
Proof.
  intros Hop. repeat (apply elem_of_cons in Hop as [->|Hop];
    [split_and!; [by vm_compute|apply Forall_forall; vm_compute; intros c Hc; set_solver by lia
     |apply Forall_forall; vm_compute; intros c Hc; set_solver by lia|by vm_compute..]|]). by apply elem_of_nil in Hop.
Qed.
Lemma Parse_item tag1 tag2 op :
  IsValidTag tag1 = true -> IsValidTag tag2 = true -> op ∈ all_ops ->
  ParseTagOpInfo (tag_item tag1 op tag2) = Some (tag1, GetOpTypeStr op, tag2) /\ free_of comma (tag_item tag1 op tag2).
Proof.
  intros H1 H2 Hop. destruct (op_str_ok op Hop) as (_ & F1 & F2 & F3 & F4 & F5).
  destruct (valid_tag_free tag1 colon H1 (or_introl eq_refl)), (valid_tag_free tag2 colon H2 (or_introl eq_refl)).
  destruct (valid_tag_free tag1 comma H1 (or_intror eq_refl)), (valid_tag_free tag2 comma H2 (or_intror eq_refl)). split.
  - unfold ParseTagOpInfo, tag_item. rewrite Split_join by (repeat constructor; done). rewrite H1, H2, F4, F5. done.
  - unfold tag_item, free_of in *. cbn [join]. rewrite !Forall_app, !Forall_cons, !Forall_app, !Forall_cons. by repeat split.
Qed.
