(* ===== verification/Entity.v ===== *)
(** * Entity: a user's view of the hybrid memory

    [hybm/csrc/entity/hybm_entity_default.h, .cpp] in the build for Ascend NPUs.  An entity
    owns a segment of device memory and one of host memory, a transport and a data operator,
    and keeps what it imported from other ranks.  Segments are used through the interface
    [MemSegment] of [mm/hybm_mem_segment.h]; transport, data operator and driver are called.
    [None] as an answer stands for undefined behaviour: an access outside a description, or
    a call through a null data operator. *)
From Stdlib Require Import String.
From stdpp Require Import gmap.
From S2P Require Import Prelude MessagePacker StrUtil RangeTree VaManager ExchangeInfo SegmentWorld ConnSegment EntityTag.
Local Open Scope list_scope.

(** ** The interface of segments *)
Class MemSegment (S : Type) := {
  seg_Create : MemSegmentOptions -> World -> option S * World;
  seg_Reserve : SM S (Z * option Z);
  seg_UnReserve : SM S Z;
  seg_Alloc : Z -> SM S (Z * option MemSlice);
  seg_Register : Z -> Z -> SM S (Z * option MemSlice);
  seg_Release : MemSlice -> SM S Z;
  seg_ExportSelf : SM S (Z * bytes);
  seg_Export : MemSlice -> SM S (Z * option bytes);
  seg_Import : list bytes -> SM S (Z * list Z);
  seg_RemoveImported : list Z -> SM S Z;
  seg_Mmap : SM S Z;
  seg_Unmap : SM S Z;
  seg_GetMemSlice : Z -> SM S (option MemSlice);
  seg_MemoryInRange : Z -> Z -> SM S bool;
  seg_MemoryType : Z;
  seg_CheckSdmaReaches : Z -> SM S bool }.

(** ** Options and what is exchanged *)
Definition HYBM_TYPE_AI_CORE_INITIATE : Z := 0.
Definition HYBM_SCENE_TRANS : Z := 2.
Definition HYBM_ROLE_PEER : Z := 0.
Definition HYBM_FLAG_EXPORT_ENTITY : Z := 1.
Definition HYBM_FLAG_CREATE_WITH_SHM : Z := 256.
Definition HYBM_ENTITY_NUM_MAX : Z := 511.
Definition TB : Z := 1024 * 1024 * 1024 * 1024.
Definition HYBM_MST_HBM : Z := 0.
Definition HYBM_MST_HBM_USER : Z := 2.
Definition REG_MR_FLAG_DRAM : Z := 1.
Definition REG_MR_FLAG_HBM : Z := 2.
Definition ENTITY_EXPORT_INFO_MAGIC : Z := 0xAABB1234FFFFEE00.
Definition NIC_SIZE : Z := 64.
Definition TAG_SIZE : Z := 32.
Definition KEY_BYTES : Z := 224.
Definition ENTITY_INFO_SIZE : Z := 120.
Definition TRANSPORT_KEY_SIZE : Z := 240.

Record hybm_options := mkOptions {
  bmType : Z; memType : Z; bmDataOpType : Z; rankCount : Z; rankId : Z; maxHBMSize : Z; maxDRAMSize : Z; deviceVASpace : Z;
  hostVASpace : Z; scene : Z; enable56BitsGva : bool; role : Z; flags : Z; transUrl : bytes; tag : bytes; tagOpInfo : bytes;
  dramShmFd : Z }.
Definition has (x bit : Z) : bool := negb (Z.land x bit =? 0).

(** The texts are C strings: no byte is zero. *)
Record EntityExportInfo := mkInfo { x_magic : Z; x_version : Z; x_rankId : Z; x_role : Z; x_nic : bytes; x_tag : bytes }.
Definition pad (n : Z) (b : bytes) : bytes := b ++ replicate (Z.to_nat n - length b) 0.
Definition entity_info_sizes : list Z := [8; 8; 4; 2; 2].
Definition SerializeEntity (i : EntityExportInfo) : bytes :=
  encode (zip entity_info_sizes [x_magic i; x_version i; x_rankId i; x_role i; 0]) ++ pad NIC_SIZE (x_nic i) ++ pad TAG_SIZE (x_tag i).
Definition DeserializeEntity (b : bytes) : EntityExportInfo :=
  match decode entity_info_sizes b with
  | [m; v; r; ro; _] => mkInfo m v r ro (c_str (take 64 (drop 24 b))) (c_str (take 32 (drop 88 b)))
  | _ => mkInfo 0 0 0 0 [] []
  end.
Record SliceExportTransportKey := mkKey { k_rankId : Z; k_address : Z; k_key : bytes }.
Definition transport_key_sizes : list Z := [4; 4; 8].
Definition SerializeKey (k : SliceExportTransportKey) : bytes := encode (zip transport_key_sizes [k_rankId k; 0; k_address k]) ++ k_key k.
Definition DeserializeKey (b : bytes) : SliceExportTransportKey :=
  match decode transport_key_sizes b with [r; _; a] => mkKey r a (drop 16 b) | _ => mkKey 0 0 [] end.

(** ** The state *)
Record Entity (SH SD : Type) := mkEntity {
  id_ : Z; initialized_ : bool; options_ : hybm_options; hbmGva_ : Z; dramGva_ : Z; hbmSegment_ : option SH; dramSegment_ : option SD;
  dataOperator_ : bool; transportPrepared_ : bool; transportManager_ : bool; importedRanks_ : gmap Z EntityExportInfo;
  importedMemories_ : gmap Z (gset bytes); tagManager_ : option HybmEntityTagInfo }.
Arguments mkEntity {SH SD}. Arguments id_ {SH SD}. Arguments initialized_ {SH SD}. Arguments options_ {SH SD}.
Arguments hbmGva_ {SH SD}. Arguments dramGva_ {SH SD}. Arguments hbmSegment_ {SH SD}. Arguments dramSegment_ {SH SD}.
Arguments dataOperator_ {SH SD}. Arguments transportPrepared_ {SH SD}. Arguments transportManager_ {SH SD}.
Arguments importedRanks_ {SH SD}. Arguments importedMemories_ {SH SD}. Arguments tagManager_ {SH SD}.
Definition no_options : hybm_options := mkOptions 0 0 0 0 0 0 0 0 0 0 false 0 0 [] [] [] 0.
Definition new_entity {SH SD} (id : Z) : Entity SH SD := mkEntity id false no_options 0 0 None None false false false ∅ ∅ None.

Section setters.
Context {SH SD : Type}.
Implicit Types e : Entity SH SD.
Definition e_set_init (b : bool) e := mkEntity (id_ e) b (options_ e) (hbmGva_ e) (dramGva_ e) (hbmSegment_ e) (dramSegment_ e)
  (dataOperator_ e) (transportPrepared_ e) (transportManager_ e) (importedRanks_ e) (importedMemories_ e) (tagManager_ e).
Definition e_set_options (o : hybm_options) e := mkEntity (id_ e) (initialized_ e) o (hbmGva_ e) (dramGva_ e) (hbmSegment_ e) (dramSegment_ e)
  (dataOperator_ e) (transportPrepared_ e) (transportManager_ e) (importedRanks_ e) (importedMemories_ e) (tagManager_ e).
Definition e_set_gvas (h d : Z) e := mkEntity (id_ e) (initialized_ e) (options_ e) h d (hbmSegment_ e) (dramSegment_ e)
  (dataOperator_ e) (transportPrepared_ e) (transportManager_ e) (importedRanks_ e) (importedMemories_ e) (tagManager_ e).
Definition e_set_segs (h : option SH) (d : option SD) e := mkEntity (id_ e) (initialized_ e) (options_ e) (hbmGva_ e) (dramGva_ e) h d
  (dataOperator_ e) (transportPrepared_ e) (transportManager_ e) (importedRanks_ e) (importedMemories_ e) (tagManager_ e).
Definition e_set_ops (op prepared tm : bool) e := mkEntity (id_ e) (initialized_ e) (options_ e) (hbmGva_ e) (dramGva_ e) (hbmSegment_ e)
  (dramSegment_ e) op prepared tm (importedRanks_ e) (importedMemories_ e) (tagManager_ e).
Definition e_set_imports (r : gmap Z EntityExportInfo) (m : gmap Z (gset bytes)) e := mkEntity (id_ e) (initialized_ e) (options_ e) (hbmGva_ e)
  (dramGva_ e) (hbmSegment_ e) (dramSegment_ e) (dataOperator_ e) (transportPrepared_ e) (transportManager_ e) r m (tagManager_ e).
Definition e_set_tags (t : option HybmEntityTagInfo) e := mkEntity (id_ e) (initialized_ e) (options_ e) (hbmGva_ e) (dramGva_ e) (hbmSegment_ e)
  (dramSegment_ e) (dataOperator_ e) (transportPrepared_ e) (transportManager_ e) (importedRanks_ e) (importedMemories_ e) t.
Definition set_DataOpType (op : Z) (o : hybm_options) : hybm_options :=
  mkOptions (bmType o) (memType o) op (rankCount o) (rankId o) (maxHBMSize o) (maxDRAMSize o) (deviceVASpace o) (hostVASpace o) (scene o)
    (enable56BitsGva o) (role o) (flags o) (transUrl o) (tag o) (tagOpInfo o) (dramShmFd o).
Definition set_tag (t : bytes) (o : hybm_options) : hybm_options :=
  mkOptions (bmType o) (memType o) (bmDataOpType o) (rankCount o) (rankId o) (maxHBMSize o) (maxDRAMSize o) (deviceVASpace o) (hostVASpace o)
    (scene o) (enable56BitsGva o) (role o) (flags o) (transUrl o) t (tagOpInfo o) (dramShmFd o).
Definition set_dramShmFd (fd : Z) (o : hybm_options) : hybm_options :=
  mkOptions (bmType o) (memType o) (bmDataOpType o) (rankCount o) (rankId o) (maxHBMSize o) (maxDRAMSize o) (deviceVASpace o) (hostVASpace o)
    (scene o) (enable56BitsGva o) (role o) (flags o) (transUrl o) (tag o) (tagOpInfo o) fd.
End setters.

(** [compatibleInfo]: the types of the options for two ranks of the same tag. *)
Definition compatible_item (localTag : bytes) (ops op : Z) : bytes :=
  if has ops op then tag_item localTag op localTag ++ [comma] else [].
Definition compatibleInfo (localTag : bytes) (ops : Z) : bytes := concat (compatible_item localTag ops <$> all_ops).
Definition defaultTag : bytes := lit "HYBM_DEFAULT_TAG_FOR_EMPTY".
Definition CheckOptions (o : hybm_options) : Z :=
  if rankCount o <=? rankId o then BM_INVALID_PARAM else
  if has (bmDataOpType o) HYBM_DOP_TYPE_HOST_SHM &&
     ((hostVASpace o =? 0) || has (memType o) HYBM_MEM_TYPE_DEVICE || negb (deviceVASpace o =? 0) ||
      has (bmDataOpType o) (flags_of [HYBM_DOP_TYPE_SDMA; HYBM_DOP_TYPE_DEVICE_RDMA; HYBM_DOP_TYPE_HOST_RDMA; HYBM_DOP_TYPE_HOST_TCP; HYBM_DOP_TYPE_HOST_URMA]))
  then BM_INVALID_PARAM else
  if has (flags o) HYBM_FLAG_CREATE_WITH_SHM && (dramShmFd o <? 0) then BM_INVALID_PARAM else BM_OK.
Definition host_flags : Z := flags_of [HYBM_DOP_TYPE_HOST_RDMA; HYBM_DOP_TYPE_HOST_URMA; HYBM_DOP_TYPE_HOST_TCP].
Definition HbmOptions (o : hybm_options) : MemSegmentOptions :=
  mkSegOpt (if negb (scene o =? HYBM_SCENE_TRANS) then HYBM_MST_HBM else HYBM_MST_HBM_USER) (bmDataOpType o) (deviceVASpace o)
    (maxHBMSize o) (rankId o) (rankCount o) (flags o) (-1) (enable56BitsGva o).
Definition DramOptions (o : hybm_options) : MemSegmentOptions :=
  mkSegOpt HYBM_MST_DRAM (bmDataOpType o) (hostVASpace o) (maxDRAMSize o) (rankId o) (rankCount o) (flags o) (dramShmFd o) (enable56BitsGva o).

Section entity.
Context {OS : Os} {SH SD : Type} {HH : MemSegment SH} {HD : MemSegment SD}.
Abbreviation EM A := (SM (Entity SH SD) A).

(** A call of a segment: [None] when there is none. *)
Definition on_hbm {A} (m : SM SH A) : EM (option A) := fun ew =>
  match hbmSegment_ ew.1 with
  | None => (None, ew)
  | Some s => let '(a, (s, w)) := m (s, ew.2) in (Some a, (e_set_segs (Some s) (dramSegment_ ew.1) ew.1, w))
  end.
Definition on_dram {A} (m : SM SD A) : EM (option A) := fun ew =>
  match dramSegment_ ew.1 with
  | None => (None, ew)
  | Some s => let '(a, (s, w)) := m (s, ew.2) in (Some a, (e_set_segs (hbmSegment_ ew.1) (Some s) ew.1, w))
  end.

(** ** Initialising *)
Definition InitTagManager : EM Z :=
  e ← gets id;
  match tagManager_ e with
  | Some _ => mret BM_OK
  | None =>
      let localTag := if blen (tag (options_ e)) =? 0 then defaultTag else tag (options_ e) in
      _ ← upd (e_set_options (set_tag localTag (options_ e)));
      let '(r1, t1) := TagInfoInit (rankId (options_ e)) localTag (tagOpInfo (options_ e)) no_tags in
      _ ← upd (e_set_tags (Some t1));
      if negb (r1 =? BM_OK) then mret BM_INVALID_PARAM else
      let '(r2, t2) := AddTagOpInfo (compatibleInfo localTag (bmDataOpType (options_ e))) t1 in
      _ ← upd (e_set_tags (Some t2));
      if negb (r2 =? BM_OK) then mret BM_INVALID_PARAM else
      _ ← upd (fun e => e_set_options (set_DataOpType (GetAllOpType t2) (options_ e)) e);
      mret BM_OK
  end.
Definition LoadExtendLibrary_ : EM Z :=
  o ← gets options_;
  if has (bmDataOpType o) HYBM_DOP_TYPE_HOST_SHM then mret BM_OK else
  d ← (if has (bmDataOpType o) HYBM_DOP_TYPE_DEVICE_RDMA then a ← sys (LoadExtendLibrary true); mret (ret a) else mret BM_OK);
  if negb (d =? 0) then mret d else
  if has (bmDataOpType o) host_flags then a ← sys (LoadExtendLibrary false); mret (ret a) else mret BM_OK.
(** [MemSegment::Create] *)
Definition create_hbm (o : MemSegmentOptions) : EM Z := fun ew =>
  let '(s, w) := seg_Create o ew.2 in
  (match s with Some _ => BM_OK | None => BM_ERROR end, (e_set_segs s (dramSegment_ ew.1) ew.1, w)).
Definition create_dram (o : MemSegmentOptions) : EM Z := fun ew =>
  let '(s, w) := seg_Create o ew.2 in
  (match s with Some _ => BM_OK | None => BM_ERROR end, (e_set_segs (hbmSegment_ ew.1) s ew.1, w)).
Definition InitHbmSegment : EM Z :=
  o ← gets options_;
  if maxHBMSize o =? 0 then mret BM_OK else create_hbm (HbmOptions o).
Definition InitDramSegment : EM Z :=
  o ← gets options_;
  if maxDRAMSize o =? 0 then mret BM_OK else
  ret ← create_dram (DramOptions o);
  if negb (ret =? BM_OK) then mret ret else
  if negb (scene o =? HYBM_SCENE_TRANS) && has (bmDataOpType o) HYBM_DOP_TYPE_SDMA then
    r ← on_dram (seg_CheckSdmaReaches (rankId o));
    mret (if default false r then BM_OK else BM_ERROR)
  else mret BM_OK.
Definition InitSegment : EM Z :=
  o ← gets options_;
  r1 ← (if has (memType o) HYBM_MEM_TYPE_DEVICE then InitHbmSegment else mret BM_OK);
  if negb (r1 =? BM_OK) then mret r1 else
  if has (memType o) HYBM_MEM_TYPE_HOST then InitDramSegment else mret BM_OK.
Definition set_transport (b : bool) (e : Entity SH SD) : Entity SH SD := e_set_ops (dataOperator_ e) (transportPrepared_ e) b e.
Definition InitTransManager : EM Z :=
  o ← gets options_;
  if has (bmDataOpType o) HYBM_DOP_TYPE_HOST_SHM then mret BM_OK else
  if rankCount o <=? 1 then mret BM_OK else
  if negb (has (bmDataOpType o) (Z.lor HYBM_DOP_TYPE_DEVICE_RDMA host_flags)) then mret BM_OK else
  _ ← upd (set_transport true);
  a ← sys OpenDevice;
  _ ← (if negb (ret a =? 0) then upd (set_transport false) else mret tt);
  mret (ret a).
Definition InitDataOperator : EM Z :=
  o ← gets options_;
  if bmType o =? HYBM_TYPE_AI_CORE_INITIATE then mret BM_OK else
  _ ← upd (fun e => e_set_ops true (transportPrepared_ e) (transportManager_ e) e);
  a ← sys DataOpInitialize;
  mret (ret a).
(** The steps in order; the first that fails ends the initialisation. *)
Fixpoint init_steps (steps : list (EM Z)) : EM Z :=
  match steps with
  | [] => _ ← upd (e_set_init true); mret BM_OK
  | m :: steps => r ← m; if negb (r =? BM_OK) then mret BM_ERROR else init_steps steps
  end.
Definition Initialize (options : hybm_options) : EM Z :=
  e ← gets id;
  if initialized_ e then mret BM_OK else
  if negb ((0 <=? id_ e) && (id_ e <? HYBM_ENTITY_NUM_MAX)) then mret BM_INVALID_PARAM else
  if negb (CheckOptions options =? BM_OK) then mret BM_INVALID_PARAM else
  _ ← upd (e_set_options (if has (flags options) HYBM_FLAG_CREATE_WITH_SHM then options else set_dramShmFd (-1) options));
  init_steps [InitTagManager; LoadExtendLibrary_; InitSegment; InitTransManager; InitDataOperator].

(** ** Address space and memory *)
Definition entity_UnReserve : EM Z :=
  i ← gets initialized_;
  if negb i then mret BM_OK else
  _ ← on_hbm seg_UnReserve;
  _ ← on_dram seg_UnReserve;
  mret BM_OK.
Definition update_gva (memType gva size : Z) : EM unit :=
  e ← gets id;
  if dataOperator_ e then _ ← sys (UpdateGvaSpace memType gva size (rankCount (options_ e))); mret tt else mret tt.
Definition entity_Reserve : EM Z :=
  e ← gets id;
  if negb (initialized_ e) then mret BM_NOT_INITIALIZED else
  h ← on_hbm seg_Reserve;
  match h with
  | Some (r, g) =>
      _ ← upd (fun e => e_set_gvas (default (hbmGva_ e) g) (dramGva_ e) e);
      if negb (r =? BM_OK) then mret r else
      _ ← (e ← gets id; update_gva HYBM_MEM_TYPE_DEVICE (hbmGva_ e) (maxHBMSize (options_ e)));
      mret BM_OK
  | None => mret BM_OK
  end ≫= fun r =>
  if negb (r =? BM_OK) then mret r else
  d ← on_dram seg_Reserve;
  match d with
  | Some (r, g) =>
      _ ← upd (fun e => e_set_gvas (hbmGva_ e) (default (dramGva_ e) g) e);
      if negb (r =? BM_OK) then _ ← entity_UnReserve; mret r else
      _ ← (e ← gets id; update_gva HYBM_MEM_TYPE_HOST (dramGva_ e) (maxDRAMSize (options_ e)));
      mret BM_OK
  | None => mret BM_OK
  end.

Definition HYBM_DEVICE_PRE_META_SIZE : Z := 128.
Definition HYBM_DEVICE_META_SIZE : Z := HYBM_DEVICE_PRE_META_SIZE * HYBM_ENTITY_NUM_MAX + HYBM_DEVICE_PRE_META_SIZE.
Definition HYBM_DEVICE_USER_CONTEXT_PRE_SIZE : Z := 64 * 1024.
Definition HYBM_DEVICE_INFO_SIZE : Z := HYBM_DEVICE_USER_CONTEXT_PRE_SIZE * HYBM_ENTITY_NUM_MAX + HYBM_DEVICE_META_SIZE.
Definition SVM_END_ADDR : Z := HYBM_DEVICE_VA_START + HYBM_DEVICE_VA_SIZE - Z.shiftl 1 30.
Definition HYBM_DEVICE_META_ADDR : Z := SVM_END_ADDR - HYBM_DEVICE_INFO_SIZE.
Definition HYBM_DEVICE_USER_CONTEXT_ADDR : Z := HYBM_DEVICE_META_ADDR + HYBM_DEVICE_META_SIZE.
(** The description of the entity for kernels; its reserved words are not initialised. *)
Definition UpdateHybmDeviceInfo (extCtxSize : Z) : EM Z :=
  e ← gets id;
  let o := options_ e in
  if negb (bmType o =? HYBM_TYPE_AI_CORE_INITIATE) then mret BM_OK else
  let addr := HYBM_DEVICE_META_ADDR + HYBM_DEVICE_PRE_META_SIZE + id_ e * HYBM_DEVICE_PRE_META_SIZE in
  qp ← (if transportManager_ e then q ← sys GetQpInfo; mret (out q) else mret 0);
  garbage ← sys (StackBytes 96);
  c ← sys (AclrtMemcpy addr HYBM_LARGE_PAGE_SIZE
             (encode (zip [4; 4; 4; 4; 8; 8] [id_ e; rankId o; rankCount o; extCtxSize; maxHBMSize o; qp]) ++ out_bytes garbage));
  mret (if ret c =? BM_OK then BM_OK else BM_ERROR).
Definition SetExtraContext (context : bytes) : EM Z :=
  e ← gets id;
  if negb (initialized_ e) then mret BM_NOT_INITIALIZED else
  if HYBM_DEVICE_USER_CONTEXT_PRE_SIZE <? blen context then mret BM_INVALID_PARAM else
  c ← sys (AclrtMemcpy (HYBM_DEVICE_USER_CONTEXT_ADDR + id_ e * HYBM_DEVICE_USER_CONTEXT_PRE_SIZE) HYBM_DEVICE_USER_CONTEXT_PRE_SIZE context);
  if negb (ret c =? BM_OK) then mret BM_ERROR else UpdateHybmDeviceInfo (blen context).

(** Releasing a slice that the transport did not take. *)
Definition register_region (addr size fl : Z) (release : EM (option Z)) (k : EM (Z * option Z)) : EM (Z * option Z) :=
  a ← sys (RegisterMemoryRegion addr size fl);
  if negb (ret a =? 0) then _ ← release; mret (ret a, None) else k.
(** The result and the identifier of the slice, which callers read on success only. *)
Definition entity_AllocLocalMemory (size mType : Z) : EM (Z * option Z) :=
  e ← gets id;
  if negb (initialized_ e) then mret (BM_NOT_INITIALIZED, None) else
  if negb (size mod HYBM_LARGE_PAGE_SIZE =? 0) then mret (BM_INVALID_PARAM, None) else
  r ← (if mType =? HYBM_MEM_TYPE_DEVICE then on_hbm (seg_Alloc size) else on_dram (seg_Alloc size));
  match r with
  | None => mret (BM_INVALID_PARAM, None)
  | Some (0, Some slice) =>
      let fl := if (if mType =? HYBM_MEM_TYPE_DEVICE then seg_MemoryType (S := SH) else seg_MemoryType (S := SD)) =? HYBM_MEM_TYPE_DEVICE
                then REG_MR_FLAG_HBM else REG_MR_FLAG_DRAM in
      let finish := u ← UpdateHybmDeviceInfo 0; mret (u, Some (ConvertToId slice)) in
      let release := if mType =? HYBM_MEM_TYPE_DEVICE then on_hbm (seg_Release slice) else on_dram (seg_Release slice) in
      if transportManager_ e && (0 <? size) then register_region (vAddress_ slice) (size_ slice) fl release finish else finish
  | Some (ret1, _) => mret (ret1, None)
  end.
Definition entity_RegisterLocalMemory (addr size : Z) : EM (Z * option Z) :=
  e ← gets id;
  if (addr =? 0) || (size =? 0) || (TB <? size) then mret (BM_INVALID_PARAM, None) else
  let isHbm := (HYBM_HBM_START_ADDR <=? addr) && (addr <? HYBM_HBM_END_ADDR) in
  let useHbm := (scene (options_ e) =? HYBM_SCENE_TRANS) || match dramSegment_ e with None => true | Some _ => false end in
  r ← (if useHbm then on_hbm (seg_Register addr size) else on_dram (seg_Register addr size));
  match r with
  | None => mret (BM_INVALID_PARAM, None)
  | Some (0, Some slice) =>
      let release := if useHbm then on_hbm (seg_Release slice) else on_dram (seg_Release slice) in
      let finish := mret (BM_OK, Some (ConvertToId slice)) in
      if transportManager_ e then register_region addr size (if isHbm then REG_MR_FLAG_HBM else REG_MR_FLAG_DRAM) release finish else finish
  | Some (ret1, _) => mret (ret1, None)
  end.
(** The slice with an identifier, and whether it is of device memory. *)
Definition find_slice (slice : Z) : EM (option (MemSlice * bool)) :=
  h ← on_hbm (seg_GetMemSlice slice);
  match h with
  | Some (Some sl) => mret (Some (sl, true))
  | _ =>
      d ← on_dram (seg_GetMemSlice slice);
      match d with Some (Some sl) => mret (Some (sl, false)) | _ => mret None end
  end.
Definition entity_FreeLocalMemory (slice : Z) : EM Z :=
  e ← gets id;
  if negb (initialized_ e) then mret BM_INVALID_PARAM else
  f ← find_slice slice;
  match f with
  | None => mret BM_OK
  | Some (sl, fromHbm) =>
      _ ← (if transportManager_ e then _ ← sys (UnregisterMemoryRegion (vAddress_ sl)); mret tt else mret tt);
      _ ← (if fromHbm : bool then on_hbm (seg_Release sl) else on_dram (seg_Release sl));
      mret BM_OK
  end.
Definition entity_GetSliceVa (slice : Z) : EM Z := f ← find_slice slice; mret (match f with Some (sl, _) => vAddress_ sl | None => 0 end).
Definition GetReservedMemoryPtr (mType : Z) : EM Z :=
  e ← gets id; mret (if mType =? HYBM_MEM_TYPE_DEVICE then hbmGva_ e else if mType =? HYBM_MEM_TYPE_HOST then dramGva_ e else 0).

(** ** Exporting *)
Definition append_or (data : bytes) (d : hybm_exchange_info) (k : hybm_exchange_info -> EM (option (Z * hybm_exchange_info)))
  : EM (option (Z * hybm_exchange_info)) :=
  match Append data d with Got d => k d | Refused => mret (Some (BM_ERROR, d)) | Outside => mret None end.
Definition ExportEntityExchangeInfo (d : hybm_exchange_info) : EM (option (Z * hybm_exchange_info)) :=
  e ← gets id;
  if negb (initialized_ e) then mret (Some (BM_NOT_INITIALIZED, d)) else
  let o := options_ e in
  nic ← (if transportManager_ e then a ← sys GetNic; mret (out_bytes a) else mret []);
  if NIC_SIZE <=? blen nic then mret (Some (BM_ERROR, d)) else
  append_or (SerializeEntity (mkInfo ENTITY_EXPORT_INFO_MAGIC EXPORT_INFO_VERSION (rankId o) (role o) nic (tag o))) d (fun d =>
  match hbmSegment_ e with
  | None => mret (Some (if scene o =? HYBM_SCENE_TRANS then BM_ERROR else BM_OK, d))
  | Some _ =>
      x ← on_hbm seg_ExportSelf;
      match x with
      | Some (r, segInfo) => if negb (r =? BM_OK) then mret (Some (BM_ERROR, d)) else append_or segInfo d (fun d => mret (Some (BM_OK, d)))
      | None => mret (Some (BM_OK, d))
      end
  end).
Definition ExportSliceExchangeInfo (slice fl : Z) (d : hybm_exchange_info) : EM (option (Z * hybm_exchange_info)) :=
  e ← gets id;
  if negb (initialized_ e) then mret (Some (BM_NOT_INITIALIZED, d)) else
  if has fl HYBM_FLAG_EXPORT_ENTITY then ExportEntityExchangeInfo d else
  f ← find_slice slice;
  match f with
  | None => mret (Some (BM_INVALID_PARAM, d))
  | Some (sl, fromHbm) =>
      x ← (if fromHbm : bool then on_hbm (seg_Export sl) else on_dram (seg_Export sl));
      match x with
      | Some (r, info) =>
          if negb (r =? 0) then mret (Some (r, d)) else
          append_or (default [] info) d (fun d =>
          if negb (transportManager_ e) then mret (Some (BM_OK, d)) else
          q ← (if 0 <? size_ sl then a ← sys (QueryMemoryKey (vAddress_ sl)); mret (ret a, out_bytes a)
               else mret (0, replicate (Z.to_nat KEY_BYTES) 0));
          if negb (q.1 =? 0) then mret (Some (q.1, d)) else
          append_or (SerializeKey (mkKey (rankId (options_ e)) (gva_ sl) q.2)) d (fun d => mret (Some (BM_OK, d))))
      | None => mret (Some (BM_INVALID_PARAM, d))
      end
  end.
End entity.
