(* ===== verification/EntityImport.v ===== *)
(** * EntityImport: importing, copying and giving back

    The second half of [hybm/csrc/entity/hybm_entity_default.cpp].  Readers advance as they
    are read, so they are passed along; [addresses] is the array of the caller, when there is
    one.  Hash tables are walked in the order of [map_to_list], the keys of a rank in the
    order of [elements]. *)
From stdpp Require Import gmap.
From S2P Require Import Prelude MessagePacker StrUtil RangeTree VaManager ExchangeInfo SegmentWorld ConnSegment EntityTag Entity.
Local Open Scope list_scope.

(** A vector of outcomes: the readers after a loop, refused reads, or undefined behaviour. *)
Definition update_at {A} (i : nat) (x : A) (l : list A) : list A := <[i := x]> l.
Fixpoint store_all (addresses : list Z) (idx : list nat) (addrs : list Z) : list Z :=
  match idx, addrs with
  | i :: idx, a :: addrs => store_all (update_at i a addresses) idx addrs
  | _, _ => addresses
  end.

Section entity.
Context {OS : Os} {SH SD : Type} {HH : MemSegment SH} {HD : MemSegment SD}.
Abbreviation EM A := (SM (Entity SH SD) A).

(** The flag belongs to the thread, not to an entity: it is set by the first call that
    succeeds.  A program is one thread, so its log says whether there was one. *)
Definition isSetDevice_ (l : log) : bool :=
  existsb (fun p : call * answer => match p.1 with AclrtSetDevice => ret p.2 =? BM_OK | _ => false end) l.
Definition SetThreadAclDevice : EM Z :=
  set ← log_get isSetDevice_;
  if set : bool then mret BM_OK else
  a ← sys AclrtSetDevice;
  mret (ret a).

(** ** Importing slices *)
(** One turn over the readers sorts the descriptions by kind of memory.  [None]: undefined
    behaviour; [Some None]: a reader has no magic left, the loop ends the function. *)
Record sorted_infos := mkSorted { dramInfos : list bytes; dramIndex : list nat; hbmInfos : list bytes; hbmIndex : list nat }.
Fixpoint sort_infos (i : nat) (readers : list ExchangeInfoReader) : EM (option (option sorted_infos * list ExchangeInfoReader)) :=
  match readers with
  | [] => mret (Some (Some (mkSorted [] [] [] []), []))
  | r :: readers =>
      match reader_Test 8 r with
      | Outside => mret None
      | Refused => mret (Some (None, r :: readers))
      | Got m =>
          let magic := little_endian_to_Z 8 m in
          if IsDramSlice magic || IsHbmSlice magic then
            (* the result of the read is not tested: a refused read leaves the array as it was *)
            match reader_Read UNIFIED_EXCHANGE_SEG_INFO_SIZE r with
            | Outside => mret None
            | res =>
                x ← (match res with Got (b, r) => mret (b, r) | _ => a ← sys (StackBytes UNIFIED_EXCHANGE_SEG_INFO_SIZE); mret (out_bytes a, r) end);
                rest ← sort_infos (i + 1) readers;
                match rest with
                | Some (Some s, rs) =>
                    mret (Some (Some (if IsDramSlice magic
                                      then mkSorted (x.1 :: dramInfos s) (i :: dramIndex s) (hbmInfos s) (hbmIndex s)
                                      else mkSorted (dramInfos s) (dramIndex s) (x.1 :: hbmInfos s) (i :: hbmIndex s)), x.2 :: rs))
                | Some (None, rs) => mret (Some (None, x.2 :: rs))
                | None => mret None
                end
            end
          else
            rest ← sort_infos (i + 1) readers;
            mret (match rest with Some (s, rs) => Some (s, r :: rs) | None => None end)
      end
  end.
(** [Some (result, addresses, readers)]. *)
Definition ImportForSegment (readers : list ExchangeInfoReader) (addresses : option (list Z))
  : EM (option (Z * option (list Z) * list ExchangeInfoReader)) :=
  match readers with
  | [] => mret (Some (BM_OK, addresses, readers))
  | r0 :: _ =>
      if LeftBytes r0 =? 0 then mret (Some (BM_OK, addresses, readers)) else
      s ← sort_infos 0 readers;
      match s with
      | None => mret None
      | Some (None, rs) => mret (Some (BM_OK, addresses, rs))
      | Some (Some s, rs) =>
          d ← (match dramInfos s with
               | [] => mret (BM_OK, addresses)
               | infos =>
                   x ← on_dram (seg_Import infos);
                   mret (match x with
                         | None => (BM_ERROR, addresses)
                         | Some (r, addrs) => if r =? BM_OK then (BM_OK, (fun a => store_all a (dramIndex s) addrs) <$> addresses) else (r, addresses)
                         end)
               end);
          if negb (d.1 =? BM_OK) then mret (Some (d.1, d.2, rs)) else
          h ← (match hbmInfos s with
               | [] => mret (BM_OK, d.2)
               | infos =>
                   x ← on_hbm (seg_Import infos);
                   mret (match x with
                         | None => (BM_ERROR, d.2)
                         | Some (r, addrs) => if r =? BM_OK then (BM_OK, (fun a => store_all a (hbmIndex s) addrs) <$> d.2) else (r, d.2)
                         end)
               end);
          mret (Some (h.1, h.2, rs))
      end
  end.

Definition add_memory (rank : Z) (key : bytes) (e : Entity SH SD) : Entity SH SD :=
  e_set_imports (importedRanks_ e) (<[rank := {[key]} ∪ default ∅ (importedMemories_ e !! rank)]> (importedMemories_ e)) e.
Fixpoint ImportForTransportPrecheck (i : nat) (readers : list ExchangeInfoReader) (addresses : option (list Z)) : EM (option Z) :=
  match readers with
  | [] => mret (Some BM_OK)
  | r :: readers =>
      match reader_Read TRANSPORT_KEY_SIZE r with
      | Outside => mret None
      | Refused => mret (Some BM_ERROR)
      | Got (b, _) =>
          let transportKey := DeserializeKey b in
          o ← gets options_;
          key ← (match addresses with
                 | Some addrs =>
                     if scene o =? HYBM_SCENE_TRANS then
                       a ← sys (UpdateMemoryKey (k_key transportKey) (default 0 (addrs !! i))); mret (out_bytes a)
                     else mret (k_key transportKey)
                 | None => mret (k_key transportKey)
                 end);
          _ ← upd (add_memory (k_rankId transportKey) key);
          ImportForTransportPrecheck (i + 1) readers addresses
      end
  end.
(** What the transport is told of every imported rank of another role. *)
Definition trans_options (e : Entity SH SD) : list (Z * (bytes * Z * list bytes)) :=
  (fun p : Z * EntityExportInfo => (p.1, (x_nic p.2, x_role p.2, elements (default ∅ (importedMemories_ e !! p.1))))) <$>
  filter (fun p : Z * EntityExportInfo => role (options_ e) = HYBM_ROLE_PEER \/ x_role p.2 <> role (options_ e)) (map_to_list (importedRanks_ e)).
Definition ImportForTransport : EM Z :=
  e ← gets id;
  if negb (transportManager_ e) then mret BM_OK else
  a ← sys (ConnectWithOptions (trans_options e));
  mret (ret a).
Definition ImportSliceExchangeInfo (readers : list ExchangeInfoReader) (addresses : option (list Z)) : EM (option (Z * option (list Z))) :=
  i ← gets initialized_;
  if negb i then mret (Some (BM_NOT_INITIALIZED, addresses)) else
  dev ← SetThreadAclDevice;
  if negb (dev =? BM_OK) then mret (Some (BM_ERROR, addresses)) else
  s ← ImportForSegment readers addresses;
  match s with
  | None => mret None
  | Some (r, addresses, readers) =>
      if negb (r =? BM_OK) then mret (Some (r, addresses)) else
      t ← gets transportManager_;
      if negb t then mret (Some (BM_OK, addresses)) else
      p ← ImportForTransportPrecheck 0 readers addresses;
      match p with
      | None => mret None
      | Some p =>
          if negb (p =? BM_OK) then mret (Some (p, addresses)) else
          c ← ImportForTransport;
          mret (Some (c, addresses))
      end
  end.

(** ** Importing entities *)
Fixpoint read_infos (readers : list ExchangeInfoReader) : access (list EntityExportInfo * list ExchangeInfoReader) :=
  match readers with
  | [] => Got ([], [])
  | r :: readers =>
      match reader_Read ENTITY_INFO_SIZE r with
      | Outside => Outside
      | Refused => Refused
      | Got (b, r) =>
          match read_infos readers with
          | Got (infos, rs) => Got (DeserializeEntity b :: infos, r :: rs)
          | Outside => Outside
          | Refused => Refused
          end
      end
  end.
Fixpoint add_rank_tags (l : list (Z * EntityExportInfo)) (t : HybmEntityTagInfo) : Z * HybmEntityTagInfo :=
  match l with
  | [] => (BM_OK, t)
  | (r, i) :: l => let '(ret, t) := AddRankTag r (x_tag i) t in if ret =? BM_OK then add_rank_tags l t else (ret, t)
  end.
(** [None]: there is an imported rank but no tag manager, a null pointer is dereferenced. *)
Definition ImportForTagManager : EM (option Z) :=
  e ← gets id;
  match tagManager_ e with
  | None => mret (match map_to_list (importedRanks_ e) with [] => Some BM_OK | _ => None end)
  | Some t =>
      let '(r, t) := add_rank_tags (map_to_list (importedRanks_ e)) t in
      _ ← upd (e_set_tags (Some t));
      mret (Some r)
  end.
Definition prepare_options (e : Entity SH SD) : list (Z * (bytes * Z * list bytes)) :=
  (fun p : Z * EntityExportInfo => (x_rankId p.2, (x_nic p.2, x_role p.2, []))) <$> map_to_list (importedRanks_ e).
Definition ImportForTransportManager : EM Z :=
  e ← gets id;
  if negb (transportManager_ e) then mret BM_OK else
  r ← (if transportPrepared_ e then a ← sys (UpdateRankOptions (prepare_options e)); mret (ret a) else
         a ← sys (Prepare (prepare_options e));
         if negb (ret a =? BM_OK) then mret (ret a) else c ← sys Connect; mret (ret c));
  if negb (r =? BM_OK) then mret r else
  _ ← upd (fun e => e_set_ops (dataOperator_ e) true (transportManager_ e) e);
  mret 0.
Fixpoint left_strings (readers : list ExchangeInfoReader) : access (list bytes) :=
  match readers with
  | [] => Got []
  | r :: readers =>
      match (if 0 <? LeftBytes r then LeftToString r else Got ([], r)), left_strings readers with
      | Got (b, _), Got bs => Got (if 0 <? LeftBytes r then b :: bs else bs)
      | Outside, _ | _, Outside => Outside
      | _, _ => Refused
      end
  end.
Definition ImportEntityExchangeInfo (readers : list ExchangeInfoReader) : EM (option Z) :=
  i ← gets initialized_;
  if negb i then mret (Some BM_NOT_INITIALIZED) else
  match read_infos readers with
  | Outside => mret None
  | Refused => mret (Some BM_INVALID_PARAM)
  | Got (infos, readers) =>
      _ ← upd (fun e => e_set_imports (foldl (fun m i => <[x_rankId i := i]> m) (importedRanks_ e) infos) (importedMemories_ e) e);
      t ← ImportForTagManager;
      if bool_decide (t = None) then mret None else
      if negb (bool_decide (t = Some BM_OK)) then mret (Some BM_ERROR) else
      m ← ImportForTransportManager;
      if negb (m =? BM_OK) then mret (Some BM_ERROR) else
      e ← gets id;
      match hbmSegment_ e with
      | None => mret (Some (if scene (options_ e) =? HYBM_SCENE_TRANS then BM_ERROR else BM_OK))
      | Some _ =>
          match left_strings readers with
          | Outside => mret None
          | Got (b :: bs) =>
              x ← on_hbm (seg_Import (b :: bs));
              mret (Some (match x with Some (r, _) => if r =? BM_OK then BM_OK else BM_ERROR | None => BM_OK end))
          | _ => mret (Some BM_OK)
          end
      end
  end.

(** ** Mapping and removing *)
Definition entity_Unmap : EM unit :=
  i ← gets initialized_;
  if negb i then mret tt else
  _ ← on_hbm seg_Unmap;
  _ ← on_dram seg_Unmap;
  mret tt.
Definition entity_Mmap : EM Z :=
  e ← gets id;
  if negb (initialized_ e) then mret BM_NOT_INITIALIZED else
  h ← (if scene (options_ e) =? HYBM_SCENE_TRANS then mret None else on_hbm seg_Mmap);
  if negb (default BM_OK h =? BM_OK) then mret (default BM_OK h) else
  d ← on_dram seg_Mmap;
  mret (default BM_OK d).
Definition entity_RemoveImported (ranks : list Z) : EM Z :=
  e ← gets id;
  if negb (initialized_ e) then mret BM_NOT_INITIALIZED else
  h ← on_hbm (seg_RemoveImported ranks);
  if negb (default BM_OK h =? BM_OK) then mret (default BM_OK h) else
  d ← on_dram (seg_RemoveImported ranks);
  if negb (default BM_OK d =? BM_OK) then mret (default BM_OK d) else
  _ ← (if dataOperator_ e then _ ← sys DataOpCleanUp; mret tt else mret tt);
  _ ← upd (fun e => e_set_imports (foldl (fun m r => delete r m) (importedRanks_ e) ranks)
                      (foldl (fun m r => delete r m) (importedMemories_ e) ranks) e);
  _ ← (if transportManager_ e then _ ← sys (RemoveRanks ranks); mret tt else mret tt);
  mret BM_OK.

(** ** Copying *)
Definition LocateAddrAndRank (src dest : Z) : EM (Z * Z) :=
  o ← gets options_;
  s ← vm_get (fun vm => GetRank vm src);
  d ← vm_get (fun vm => GetRank vm dest);
  mret (if s.2 : bool then s.1 else rankId o, if d.2 : bool then d.1 else rankId o).
Definition CopyData (src dest size direction : Z) : EM (option Z) :=
  e ← gets id;
  if negb (initialized_ e) then mret (Some BM_NOT_INITIALIZED) else
  dev ← SetThreadAclDevice;
  if negb (dev =? BM_OK) then mret (Some BM_ERROR) else
  p ← LocateAddrAndRank src dest;
  if negb (dataOperator_ e) then mret None else
  a ← sys (DataCopy src dest size direction p.1 p.2);
  mret (Some (ret a)).
(** The positions of a batch by the ranks of their addresses. *)
Fixpoint group_copies (i : Z) (copies : list (Z * Z * Z)) (groups : gmap (Z * Z) (list Z)) : EM (gmap (Z * Z) (list Z)) :=
  match copies with
  | [] => mret groups
  | (src, dest, _) :: copies =>
      p ← LocateAddrAndRank src dest;
      group_copies (i + 1) copies (<[p := default [] (groups !! p) ++ [i]]> groups)
  end.
Definition group_list (groups : gmap (Z * Z) (list Z)) : list (Z * Z * list Z) :=
  (fun g : Z * Z * list Z => g) <$> map_to_list groups.
Definition BatchCopyData (copies : list (Z * Z * Z)) (direction : Z) : EM Z :=
  e ← gets id;
  if negb (initialized_ e) then mret BM_NOT_INITIALIZED else
  dev ← SetThreadAclDevice;
  if negb (dev =? BM_OK) then mret BM_ERROR else
  if negb (dataOperator_ e) then mret BM_ERROR else
  groups ← group_copies 0 copies ∅;
  a ← sys (BatchDataCopy direction (group_list groups));
  mret (ret a).
Definition QuantCopy : EM Z :=
  e ← gets id;
  if negb (initialized_ e) then mret BM_NOT_INITIALIZED else
  dev ← SetThreadAclDevice;
  if negb (dev =? BM_OK) then mret BM_ERROR else
  if negb (dataOperator_ e) then mret BM_ERROR else
  a ← sys DataOpQuantCopy;
  mret (ret a).
Definition Wait : EM (option Z) :=
  e ← gets id;
  if negb (initialized_ e) then mret (Some BM_NOT_INITIALIZED) else
  if negb (dataOperator_ e) then mret None else
  a ← sys DataOpWait;
  mret (Some (ret a)).
Definition CheckAddressInEntity (ptr length : Z) : EM bool :=
  i ← gets initialized_;
  if negb i then mret false else
  h ← on_hbm (seg_MemoryInRange ptr length);
  if default false h then mret true else
  d ← on_dram (seg_MemoryInRange ptr length);
  mret (default false d).
Definition SdmaReaches (remoteRank : Z) : EM bool :=
  e ← gets id;
  match hbmSegment_ e with
  | Some _ => h ← on_hbm (seg_CheckSdmaReaches remoteRank); mret (default false h)
  | None => d ← on_dram (seg_CheckSdmaReaches remoteRank); mret (default false d)
  end.
Definition CanReachDataOperators (remoteRank : Z) : EM Z :=
  o ← gets options_;
  s ← (if has (bmDataOpType o) HYBM_DOP_TYPE_SDMA then SdmaReaches remoteRank else mret false);
  mret (foldl (fun r op => if has (bmDataOpType o) op then Z.lor r op else r)
          (if s : bool then Z.lor HYBM_DOP_TYPE_MTE HYBM_DOP_TYPE_SDMA else 0)
          [HYBM_DOP_TYPE_DEVICE_RDMA; HYBM_DOP_TYPE_HOST_RDMA; HYBM_DOP_TYPE_HOST_SHM; HYBM_DOP_TYPE_HOST_URMA]).

(** ** Giving everything back *)
Definition ReleaseResources : EM unit :=
  e ← gets id;
  if negb (initialized_ e) then mret tt else
  _ ← entity_Unmap;
  _ ← entity_UnReserve;
  _ ← upd (e_set_imports ∅ ∅);
  _ ← upd (e_set_gvas 0 0);
  _ ← upd (e_set_segs None None);
  _ ← upd (fun e => e_set_ops false (transportPrepared_ e) (transportManager_ e) e);
  _ ← (if transportManager_ e then _ ← sys CloseDevice; upd (set_transport false) else mret tt);
  _ ← upd (e_set_tags None);
  _ ← upd (fun e => e_set_ops (dataOperator_ e) false (transportManager_ e) e);
  upd (e_set_init false).
Definition UnInitialize : EM unit := ReleaseResources.
End entity.
