(* ===== verification/DramSegment.v ===== *)
(** * DramSegment: the segments of host memory behind one interface

    [MemSegment::Create] of [hybm/csrc/mm/hybm_mem_segment.cpp] chooses the kind of a segment;
    calls go to the class that was chosen.  The segment over virtual memory handles is
    not modelled: it is a type [V] with an instance of the interface.  [InitDeviceInfo] asks
    the driver for the kind of processor. *)
From stdpp Require Import gmap.
From S2P Require Import Prelude MessagePacker RangeTree VaManager ExchangeInfo SegmentWorld ConnSegment HostShmSegment EntityTag Entity.

Definition HYBM_GVA_V4 : Z := 3.
Definition soc_of (code : Z) : AscendSocType :=
  if code =? 1 then ASCEND_910B else if code =? 2 then ASCEND_910C else if code =? 3 then ASCEND_950 else ASCEND_UNKNOWN.
Inductive DramSeg (V : Type) := DConn (s : ConnSeg) | DShm (s : ShmSeg) | DVmm (v : V).
Arguments DConn {V}. Arguments DShm {V}. Arguments DVmm {V}.

Section dram.
Context {OS : Os} {V : Type} {HV : MemSegment V}.

Definition create_vmm (o : MemSegmentOptions) : SM unit (option (DramSeg V)) := fun sw =>
  let '(v, w) := seg_Create o sw.2 in (option_map DVmm v, (sw.1, w)).
(** [None]: a null pointer. *)
Definition Create_DRAM (o : MemSegmentOptions) : SM unit (option (DramSeg V)) :=
  if so_rankCnt o <=? so_rankId o then mret None else
  i ← sys InitDeviceInfo;
  if negb (ret i =? BM_OK) then mret None else
  let soc := soc_of (out i) in
  r ← in_vm (fun vm => VmInitialize vm soc);
  if negb (r =? BM_OK) then mret None else
  if negb (so_segType o =? HYBM_MST_DRAM) then mret None else
  if has (so_dataOpType o) HYBM_DOP_TYPE_HOST_SHM then mret (Some (DShm (new_shm o))) else
  g ← sys GetGvaVersion;
  if (out g =? HYBM_GVA_V4) && bool_decide (soc = ASCEND_910C) && (so_shmFd o <? 0) && negb (so_dataOpType o =? HYBM_DOP_TYPE_DEVICE_RDMA)
  then create_vmm o
  else mret (Some (DConn (new_conn o))).

(** Calls of the class that was chosen. *)
Definition dispatch {A} (c : SM ConnSeg A) (h : SM ShmSeg A) (v : SM V A) : SM (DramSeg V) A := fun sw =>
  match sw.1 with
  | DConn s => let '(a, (s, w)) := c (s, sw.2) in (a, (DConn s, w))
  | DShm s => let '(a, (s, w)) := h (s, sw.2) in (a, (DShm s, w))
  | DVmm s => let '(a, (s, w)) := v (s, sw.2) in (a, (DVmm s, w))
  end.
(** The shared-memory segment leaves the addresses of the caller alone: they are null. *)
Definition shm_Import_addresses (infos : list bytes) : SM ShmSeg (Z * list Z) :=
  r ← shm_Import infos; mret (r, replicate (length infos) 0).
#[export] Instance dram_segment : MemSegment (DramSeg V) := {
  seg_Create o w := let '(s, (_, w)) := Create_DRAM o (tt, w) in (s, w);
  seg_Reserve := dispatch conn_ReserveMemorySpace shm_ReserveMemorySpace seg_Reserve;
  seg_UnReserve := dispatch conn_UnReserveMemorySpace shm_UnReserveMemorySpace seg_UnReserve;
  seg_Alloc size := dispatch (conn_AllocLocalMemory size) (shm_AllocLocalMemory size) (seg_Alloc size);
  seg_Register va size := dispatch (conn_RegisterMemory va size) (shm_RegisterMemory va size) (seg_Register va size);
  seg_Release sl := dispatch (conn_ReleaseSliceMemory sl) (shm_ReleaseSliceMemory sl) (seg_Release sl);
  seg_ExportSelf := dispatch (mret (BM_OK, [])) (mret (BM_OK, [])) seg_ExportSelf;
  seg_Export sl := dispatch (conn_Export sl) (shm_Export sl) (seg_Export sl);
  seg_Import infos := dispatch (conn_Import infos) (shm_Import_addresses infos) (seg_Import infos);
  seg_RemoveImported ranks := dispatch (conn_RemoveImported ranks) (shm_RemoveImported ranks) (seg_RemoveImported ranks);
  seg_Mmap := dispatch conn_Mmap shm_Mmap seg_Mmap;
  seg_Unmap := dispatch conn_Unmap shm_Unmap seg_Unmap;
  seg_GetMemSlice id := dispatch (conn_GetMemSlice id) (shm_GetMemSlice id) (seg_GetMemSlice id);
  seg_MemoryInRange b n := dispatch (conn_MemoryInRange b n) (shm_MemoryInRange b n) (seg_MemoryInRange b n);
  seg_MemoryType := HYBM_MEM_TYPE_HOST;
  seg_CheckSdmaReaches r := dispatch (mret false) (mret false) (seg_CheckSdmaReaches r) }.
End dram.
