(* ===== verification/EntityApi.v ===== *)
(** * EntityApi: entities by handle

    [hybm/csrc/entity/hybm_entity_factory.h, .cpp], [hybm/csrc/hybm_big_mem_entry.cpp] and
    [hybm/csrc/hybm_data_op_entry.cpp].  A handle is the address of an entity; the factory
    finds the entity of a handle through its number.  [None] stands for undefined behaviour,
    also of a call through a handle that is not checked.  Callers pass pointers that are
    not null where the code reads through them before testing them. *)
From stdpp Require Import gmap.
From S2P Require Import Prelude MessagePacker RangeTree VaManager ExchangeInfo SegmentWorld ConnSegment EntityTag Entity EntityImport.

Record MemEntityFactory (SH SD : Type) := mkFactory { engines_ : gmap Z (Entity SH SD); enginesFromAddress_ : gmap Z Z }.
Arguments mkFactory {SH SD}. Arguments engines_ {SH SD}. Arguments enginesFromAddress_ {SH SD}.

(** Which sides of a copy have to be in the entity: source, destination. *)
Definition g_checkMap (direction : Z) : bool * bool :=
  default (false, false)
    ([(false, true); (false, true); (false, true); (false, true); (true, true); (true, true); (true, false); (true, false); (true, true);
      (true, true); (true, false); (true, false)] !! Z.to_nat direction).
Definition HYBM_DATA_COPY_DIRECTION_AUTO : Z := 12.

Section api.
Context {OS : Os} {SH SD : Type} {HH : MemSegment SH} {HD : MemSegment SD}.
Abbreviation EM A := (SM (Entity SH SD) A).
Abbreviation FM A := (SM (MemEntityFactory SH SD) A).
Implicit Types f : MemEntityFactory SH SD.

(** ** The factory *)
(** The number of the entity of a handle. *)
Definition FindEngineByPtr (e : Z) f : option Z :=
  match enginesFromAddress_ f !! e with
  | None => None
  | Some id => match engines_ f !! id with Some _ => Some id | None => None end
  end.
(** A call of the entity with a number. *)
Definition on_engine {A} (id : Z) (m : EM A) : FM (option A) := fun fw =>
  match engines_ fw.1 !! id with
  | None => (None, fw)
  | Some e => let '(a, (e, w)) := m (e, fw.2) in (Some a, (mkFactory (<[id := e]> (engines_ fw.1)) (enginesFromAddress_ fw.1), w))
  end.
(** Through a checked handle; [d] when there is no such entity. *)
Definition with_engine {A} (e : Z) (d : A) (m : EM A) : FM A :=
  if e =? 0 then mret d else
  id ← gets (FindEngineByPtr e);
  match id with
  | None => mret d
  | Some id => r ← on_engine id m; mret (default d r)
  end.
(** The number of the entity, which is new unless there is one, and its address. *)
Definition GetOrCreateEngine (id : Z) : FM unit :=
  f ← gets Datatypes.id;
  match engines_ f !! id with
  | Some _ => mret tt
  | None =>
      p ← sys NewObject;
      upd (fun f => mkFactory (<[id := new_entity id]> (engines_ f))
                      (match enginesFromAddress_ f !! out p with Some _ => enginesFromAddress_ f | None => <[out p := id]> (enginesFromAddress_ f) end))
  end.
Definition address_of (id : Z) f : option Z := fst <$> find (fun p : Z * Z => p.2 =? id) (map_to_list (enginesFromAddress_ f)).
Definition RemoveEngine (e : Z) : FM bool :=
  f ← gets Datatypes.id;
  match enginesFromAddress_ f !! e with
  | None => mret false
  | Some id =>
      _ ← upd (fun f => mkFactory (engines_ f) (delete e (enginesFromAddress_ f)));
      _ ← on_engine id (_ ← entity_UnReserve; UnInitialize);
      _ ← upd (fun f => mkFactory (delete id (engines_ f)) (enginesFromAddress_ f));
      mret true
  end.

(** ** [hybm_big_mem_entry.cpp] *)
(** [inited] is [HybmHasInited()]; the handle, 0 on failure. *)
Definition hybm_create_entity (inited : bool) (id : Z) (options : hybm_options) : FM Z :=
  if negb inited then mret 0 else
  _ ← GetOrCreateEngine id;
  p ← gets (address_of id);
  r ← on_engine id (Initialize options);
  if negb (default BM_ERROR r =? 0) then _ ← RemoveEngine (default 0 p); mret 0 else mret (default 0 p).
Definition hybm_destroy_entity (e : Z) : FM unit :=
  if e =? 0 then mret tt else
  id ← gets (FindEngineByPtr e);
  match id with
  | None => mret tt
  | Some id => _ ← on_engine id UnInitialize; _ ← RemoveEngine e; mret tt
  end.
Definition hybm_reserve_mem_space (e : Z) : FM Z := with_engine e BM_INVALID_PARAM entity_Reserve.
Definition hybm_unreserve_mem_space (e : Z) : FM Z := with_engine e BM_INVALID_PARAM entity_UnReserve.
(** The handle is not checked. *)
Definition hybm_get_memory_ptr (e mType : Z) : FM (option Z) :=
  if e =? 0 then mret (Some 0) else
  id ← gets (FindEngineByPtr e);
  match id with None => mret None | Some id => on_engine id (GetReservedMemoryPtr mType) end.
Definition hybm_get_slice_va (e slice : Z) : FM Z := with_engine e 0 (entity_GetSliceVa slice).
Definition id_or_null (r : Z * option Z) : Z := if r.1 =? 0 then default 0 r.2 else 0.
Definition hybm_alloc_local_memory (e mType size : Z) : FM Z := with_engine e 0 (r ← entity_AllocLocalMemory size mType; mret (id_or_null r)).
Definition hybm_free_local_memory (e slice : Z) : FM Z :=
  if slice =? 0 then mret BM_INVALID_PARAM else with_engine e BM_INVALID_PARAM (entity_FreeLocalMemory slice).
Definition hybm_register_local_memory (e ptr size : Z) : FM Z := with_engine e 0 (r ← entity_RegisterLocalMemory ptr size; mret (id_or_null r)).
Definition hybm_export (e slice fl : Z) (exInfo : hybm_exchange_info) : FM (option (Z * hybm_exchange_info)) :=
  with_engine e (Some (BM_INVALID_PARAM, exInfo))
    (let d := ExchangeInfoWriter exInfo in
     if has fl HYBM_FLAG_EXPORT_ENTITY then ExportEntityExchangeInfo d else ExportSliceExchangeInfo slice fl d).
Definition hybm_import (e : Z) (allExInfo : list hybm_exchange_info) (addresses : option (list Z)) (fl : Z) : FM (option (Z * option (list Z))) :=
  with_engine e (Some (BM_INVALID_PARAM, addresses))
    (match allExInfo with
     | [] => mret (Some (BM_INVALID_PARAM, addresses))
     | _ =>
         let readers := reader_of <$> allExInfo in
         if has fl HYBM_FLAG_EXPORT_ENTITY then r ← ImportEntityExchangeInfo readers; mret ((fun x => (x, addresses)) <$> r)
         else ImportSliceExchangeInfo readers addresses
     end).
Definition hybm_mmap (e : Z) : FM Z := with_engine e BM_INVALID_PARAM entity_Mmap.
Definition hybm_entity_reach_types (e rank : Z) : FM (Z * Z) :=
  with_engine e (BM_INVALID_PARAM, 0) (t ← CanReachDataOperators rank; mret (BM_OK, t)).
Definition hybm_remove_imported (e rank : Z) : FM Z := with_engine e BM_INVALID_PARAM (entity_RemoveImported [rank]).
Definition hybm_set_extra_context (e : Z) (context : bytes) : FM Z := with_engine e BM_INVALID_PARAM (SetExtraContext context).
Definition hybm_unmap (e : Z) : FM unit := with_engine e tt entity_Unmap.

(** ** [hybm_data_op_entry.cpp] *)
(** The direction to use, or [None] when it cannot be inferred. *)
Definition infer_direction (direction src dest : Z) : FM (option Z) :=
  if direction =? HYBM_DATA_COPY_DIRECTION_AUTO then
    d ← vm_get (fun vm => InferCopyDirection vm src dest);
    mret (if d =? HYBM_DATA_COPY_DIRECTION_BUTT then None else Some d)
  else mret (Some direction).
(** Short-circuit evaluation: the source is not asked for once the destination is out of range. *)
Definition check_sides (direction src dest size : Z) : EM bool :=
  v1 ← (if (g_checkMap direction).2 then CheckAddressInEntity dest size else mret true);
  if (g_checkMap direction).1 then (if v1 : bool then CheckAddressInEntity src size else mret false) else mret v1.
Definition hybm_data_copy (e src dest size direction : Z) : FM (option Z) :=
  if (e =? 0) || (src =? 0) || (dest =? 0) || (size =? 0) || (HYBM_DATA_COPY_DIRECTION_BUTT <=? direction) then mret (Some BM_INVALID_PARAM) else
  d ← infer_direction direction src dest;
  match d with
  | None => mret (Some BM_INVALID_PARAM)
  | Some direction =>
      with_engine e (Some BM_INVALID_PARAM)
        (ok ← check_sides direction src dest size;
         if negb ok then mret (Some BM_INVALID_PARAM) else CopyData src dest size direction)
  end.
Definition hybm_wait (e : Z) : FM (option Z) := with_engine e (Some BM_INVALID_PARAM) Wait.
Fixpoint check_batch (direction : Z) (copies : list (Z * Z * Z)) : EM bool :=
  match copies with
  | [] => mret true
  | (src, dest, size) :: copies =>
      if (src =? 0) || (dest =? 0) then mret false else
      ok ← check_sides direction src dest size;
      if ok : bool then check_batch direction copies else mret false
  end.
(** The handle is not checked. *)
Definition hybm_data_batch_copy (e : Z) (copies : list (Z * Z * Z)) (direction : Z) : FM (option Z) :=
  match copies with
  | [] => mret (Some BM_INVALID_PARAM)
  | (src, dest, _) :: _ =>
      if (e =? 0) || (HYBM_DATA_COPY_DIRECTION_BUTT <=? direction) then mret (Some BM_INVALID_PARAM) else
      d ← infer_direction direction src dest;
      match d with
      | None => mret (Some BM_INVALID_PARAM)
      | Some direction =>
          id ← gets (FindEngineByPtr e);
          match id with
          | None => mret None
          | Some id =>
              on_engine id (ok ← check_batch direction copies;
                            if negb ok then mret BM_INVALID_PARAM else BatchCopyData copies direction)
          end
      end
  end.
(** A unit of zero elements divides by zero. *)
Definition hybm_data_quant_copy (e unitNum : Z) (dataSizes : list Z) : FM (option Z) :=
  match dataSizes with
  | [] => mret (Some BM_INVALID_PARAM)
  | _ =>
      if (e =? 0) || (32 * 1024 <? unitNum) then mret (Some BM_INVALID_PARAM) else
      let unitSize := u32 (unitNum * 2) in
      if unitSize =? 0 then mret None else
      if existsb (fun s => negb (s mod unitSize =? 0)) dataSizes then mret (Some BM_INVALID_PARAM) else
      with_engine e (Some BM_INVALID_PARAM) (r ← QuantCopy; mret (Some r))
  end.
End api.
