(* ===== verification/EntityProof.v ===== *)
(** * EntityProof: lemmas about entities *)
From Stdlib Require Import String.
From stdpp Require Import gmap.
From S2P Require Import Prelude MessagePacker StrUtil RangeTree VaManager VaManagerProof ExchangeInfo SegmentWorld SegmentFrame.
From S2P Require Import ConnSegment EntityTag Entity EntityImport.
Local Open Scope list_scope.

(** ** Calls of segments *)
Section calls.
Context {OS : Os} {SH SD : Type} {HH : MemSegment SH} {HD : MemSegment SD}.
Implicit Types ew : Entity SH SD * World.
Lemma wp_on_dram {A} (m : SM SD A) Q ew s :
  dramSegment_ ew.1 = Some s ->
  wp m (fun a sw => Q (Some a) (e_set_segs (hbmSegment_ ew.1) (Some sw.1) ew.1, sw.2)) (s, ew.2) -> wp (on_dram m) Q ew.
Proof. intros E. unfold wp, on_dram. rewrite E. by destruct (m (s, ew.2)) as [a [s' w']]. Qed.
Lemma wp_on_dram_none {A} (m : SM SD A) (Q : option A -> Entity SH SD * World -> Prop) ew :
  dramSegment_ ew.1 = None -> Q None ew -> wp (on_dram m) Q ew.
Proof. intros E. unfold wp, on_dram. by rewrite E. Qed.
Lemma wp_on_hbm_none {A} (m : SM SH A) (Q : option A -> Entity SH SD * World -> Prop) ew :
  hbmSegment_ ew.1 = None -> Q None ew -> wp (on_hbm m) Q ew.
Proof. intros E. unfold wp, on_hbm. by rewrite E. Qed.
End calls.

(** ** Tags *)
Lemma has_bits x op : op ∈ all_ops -> has x op = true <-> bits_in op x.
Proof.
  intros Hop. unfold has, bits_in. rewrite negb_true_iff, Z.eqb_neq, (Z.land_comm op x).
  assert (Hpow : exists n, 0 <= n /\ op = 2 ^ n).
  { repeat (apply elem_of_cons in Hop as [->|Hop]; [first
      [exists 0; done|exists 1; done|exists 2; done|exists 3; done|exists 4; done|exists 5; done|exists 6; done]|]).
    by apply elem_of_nil in Hop. }
  destruct Hpow as (n & Hn & ->). assert (E : Z.land x (2 ^ n) = if Z.testbit x n then 2 ^ n else 0).
  { apply Z.bits_inj'. intros k Hk. rewrite Z.land_spec, Z.pow2_bits_eqb by done. destruct (Z.eqb_spec n k) as [->|Hne].
    - rewrite andb_true_r. destruct (Z.testbit x k); [by rewrite Z.pow2_bits_true|by rewrite Z.bits_0].
    - rewrite andb_false_r. destruct (Z.testbit x n); [by rewrite Z.pow2_bits_false|by rewrite Z.bits_0]. }
  rewrite E. destruct (Z.testbit x n); [|split; [done|]; pose proof (Z.pow_pos_nonneg 2 n); lia].
  split; [done|]. intros _ H0. pose proof (Z.pow_pos_nonneg 2 n). lia.
Qed.
Lemma compatible_split localTag ops :
  IsValidTag localTag = true ->
  Split (compatibleInfo localTag ops) comma = (fun op => tag_item localTag op localTag) <$> filter (fun op => has ops op = true) all_ops.
Proof.
  intros Hv. rewrite <- (Split_terminated comma).
  - f_equal. unfold compatibleInfo. induction all_ops as [|op l IH]; [done|]. cbn [fmap list_fmap concat]. rewrite IH.
    unfold compatible_item. rewrite filter_cons. destruct (has ops op); [by rewrite decide_True|by rewrite decide_False].
  - apply Forall_forall. intros s (op & -> & [_ Hop]%list_elem_of_filter)%list_elem_of_fmap. by apply Parse_item.
Qed.
Lemma AddOne_item t localTag op :
  IsValidTag localTag = true -> op ∈ all_ops -> (AddOneTagOpInfo (tag_item localTag op localTag) t).1 = BM_OK.
Proof.
  intros Hv Hop. unfold AddOneTagOpInfo. destruct (Parse_item localTag localTag op Hv Hv Hop) as [-> _].
  by destruct (op_str_ok op Hop) as [-> _].
Qed.
Lemma add_items_ok t localTag ops :
  IsValidTag localTag = true -> Forall (fun op => op ∈ all_ops) ops ->
  (add_items ((fun op => tag_item localTag op localTag) <$> ops) t).1 = BM_OK.
Proof.
  intros Hv. induction ops as [|op ops IH] in t |- *; intros Hops; [done|]. apply Forall_cons in Hops as [Hop Hops].
  cbn [fmap list_fmap add_items]. pose proof (AddOne_item t localTag op Hv Hop) as E. destruct (AddOneTagOpInfo _ t) as [r t1].
  cbn [fst] in E. subst r. cbn. by apply IH.
Qed.
(** Adding the types of the options always works and records them for the own tag. *)
Lemma AddCompatible t localTag ops :
  IsValidTag localTag = true ->
  (AddTagOpInfo (compatibleInfo localTag ops) t).1 = BM_OK /\ rankTagInfo_ (AddTagOpInfo (compatibleInfo localTag ops) t).2 = rankTagInfo_ t /\
  grows t (AddTagOpInfo (compatibleInfo localTag ops) t).2 /\
  forall op, op ∈ all_ops -> has ops op = true ->
    exists v, tagOpInfo_ (AddTagOpInfo (compatibleInfo localTag ops) t).2 !! tag_key localTag localTag = Some v /\ bits_in op v.
Proof.
  intros Hv. unfold AddTagOpInfo. destruct (Z.eqb_spec (blen (compatibleInfo localTag ops)) 0) as [E|_].
  - split_and!; [done|done|apply grows_refl|]. intros op Hop Hh. exfalso.
    assert (E0 : compatibleInfo localTag ops = []) by (unfold blen in E; destruct (compatibleInfo localTag ops); [done|cbn in E; lia]).
    pose proof (compatible_split localTag ops Hv) as Hs. rewrite E0 in Hs. change (Split [] comma) with (@nil bytes) in Hs. symmetry in Hs. apply fmap_nil_inv in Hs.
    assert (Hin : op ∈ filter (fun op => has ops op = true) all_ops) by by apply list_elem_of_filter. rewrite Hs in Hin. by apply elem_of_nil in Hin.
  - rewrite compatible_split by done. destruct (add_items_grows ((fun op => tag_item localTag op localTag) <$> filter (fun op => has ops op = true) all_ops) t) as [G1 G2].
    assert (Hok : (add_items ((fun op => tag_item localTag op localTag) <$> filter (fun op => has ops op = true) all_ops) t).1 = BM_OK).
    { apply add_items_ok; [done|]. apply Forall_forall. by intros op [_ ?]%list_elem_of_filter. }
    split_and!; [done|done|done|]. intros op Hop Hh.
    apply (add_items_adds _ t (tag_item localTag op localTag) localTag (GetOpTypeStr op)); [done| |by apply Parse_item|by apply op_str_ok].
    apply list_elem_of_fmap. exists op. split; [done|]. by apply list_elem_of_filter.
Qed.

(** ** Descriptions *)
Lemma span_stop p (b rest : list Z) x : Forall (fun c => p c = true) b -> p x = false -> span p (b ++ x :: rest) = (b, x :: rest).
Proof. induction 1 as [|c b Hc _ IH]; intros Hx; cbn; [by rewrite Hx|]. rewrite Hc, IH by done. done. Qed.
Lemma c_str_pad n b : Forall (fun c => c <> 0) b -> blen b < n -> c_str (pad n b) = b.
Proof.
  intros Hb Hn. unfold c_str, pad. assert (E : exists m, (Z.to_nat n - length b)%nat = S m) by (unfold blen in Hn; exists (Z.to_nat n - length b - 1)%nat; lia).
  destruct E as [m ->]. cbn [replicate]. rewrite span_stop; [done| |done]. eapply Forall_impl; [exact Hb|]. cbn. intros c Hc. lia.
Qed.
Lemma blen_pad n b : blen b <= n -> blen (pad n b) = n.
Proof. intros H. unfold pad, blen in *. rewrite length_app, length_replicate. lia. Qed.

Definition entity_info_ok (i : EntityExportInfo) : Prop :=
  0 <= x_magic i < 2 ^ 64 /\ 0 <= x_version i < 2 ^ 64 /\ 0 <= x_rankId i < 2 ^ 32 /\ 0 <= x_role i < 2 ^ 16 /\
  Forall (fun c => c <> 0) (x_nic i) /\ blen (x_nic i) < NIC_SIZE /\ Forall (fun c => c <> 0) (x_tag i) /\ blen (x_tag i) < TAG_SIZE.
Lemma SerializeEntity_roundtrip i :
  entity_info_ok i -> DeserializeEntity (SerializeEntity i) = i /\ blen (SerializeEntity i) = ENTITY_INFO_SIZE.
Proof.
  intros (H1 & H2 & H3 & H4 & H5 & H6 & H7 & H8). unfold SerializeEntity. set (fs := zip entity_info_sizes _).
  assert (Hok : Forall field_ok fs).
  { unfold fs. cbn [zip zip_with entity_info_sizes]. repeat apply Forall_cons_2; try apply Forall_nil_2; (split; cbn [fst snd]; [lia|]);
      change (2 ^ (8 * 8)) with (2 ^ 64); change (2 ^ (8 * 4)) with (2 ^ 32); change (2 ^ (8 * 2)) with (2 ^ 16); lia. }
  assert (Hlen : blen (encode fs) = 24).
  { rewrite blen_encode; [done|]. eapply Forall_impl; [exact Hok|]. by intros f [? _]. }
  pose proof (blen_pad NIC_SIZE (x_nic i) ltac:(lia)) as L1. pose proof (blen_pad TAG_SIZE (x_tag i) ltac:(lia)) as L2.
  split; [|unfold blen in *; rewrite !length_app, !Nat2Z.inj_add, Hlen, L1, L2; done].
  unfold DeserializeEntity. pose proof (decode_encode fs (pad NIC_SIZE (x_nic i) ++ pad TAG_SIZE (x_tag i)) Hok) as Hd.
  change (fst <$> fs) with entity_info_sizes in Hd. rewrite Hd. change (snd <$> fs) with [x_magic i; x_version i; x_rankId i; x_role i; 0].
  unfold blen, NIC_SIZE, TAG_SIZE in *. rewrite drop_app_length', take_app_length' by lia.
  replace (drop 88 _) with (pad 32 (x_tag i)).
  - rewrite take_ge by lia. rewrite !c_str_pad by (unfold blen; done). by destruct i.
  - rewrite app_assoc, drop_app_length' by (rewrite length_app; lia). done.
Qed.
Definition key_ok (k : SliceExportTransportKey) : Prop := 0 <= k_rankId k < 2 ^ 32 /\ 0 <= k_address k < 2 ^ 64 /\ blen (k_key k) = KEY_BYTES.
Lemma SerializeKey_roundtrip k : key_ok k -> DeserializeKey (SerializeKey k) = k /\ blen (SerializeKey k) = TRANSPORT_KEY_SIZE.
Proof.
  intros (H1 & H2 & H3). unfold SerializeKey. set (fs := zip transport_key_sizes _).
  assert (Hok : Forall field_ok fs).
  { unfold fs. cbn [zip zip_with transport_key_sizes]. repeat apply Forall_cons_2; try apply Forall_nil_2; (split; cbn [fst snd]; [lia|]);
      change (2 ^ (8 * 8)) with (2 ^ 64); change (2 ^ (8 * 4)) with (2 ^ 32); lia. }
  assert (Hlen : blen (encode fs) = 16).
  { rewrite blen_encode; [done|]. eapply Forall_impl; [exact Hok|]. by intros f [? _]. }
  split; [|unfold blen in *; rewrite !length_app, !Nat2Z.inj_add, Hlen, H3; done].
  unfold DeserializeKey. pose proof (decode_encode fs (k_key k) Hok) as Hd. change (fst <$> fs) with transport_key_sizes in Hd. rewrite Hd.
  change (snd <$> fs) with [k_rankId k; 0; k_address k]. unfold blen in *. rewrite drop_app_length' by lia. by destruct k.
Qed.
Lemma blen_SerializeKey k : blen (k_key k) = KEY_BYTES -> blen (SerializeKey k) = TRANSPORT_KEY_SIZE.
Proof.
  intros H. unfold SerializeKey. pose proof (blen_encode (zip transport_key_sizes [k_rankId k; 0; k_address k]) ltac:(repeat constructor; cbn; lia)) as E.
  change (foldr Z.add 0 _) with 16 in E. unfold blen in *. rewrite length_app, Nat2Z.inj_add, H, E. done.
Qed.
(** A description with nothing written. *)
Definition blank (d : hybm_exchange_info) : Prop := desc_ok d /\ descLen d = 0.
Lemma blank_written d : blank d -> written d = [].
Proof. intros [_ E]. unfold written. by rewrite E. Qed.
Lemma wp_append {SH SD} data d k (Q : option (Z * hybm_exchange_info) -> Entity SH SD * World -> Prop) ew :
  desc_ok d -> descLen d + blen data <= DESC_SIZE ->
  (forall d', desc_ok d' -> written d' = written d ++ data -> descLen d' = descLen d + blen data -> wp (k d') Q ew) -> wp (append_or data d k) Q ew.
Proof. intros Hd Hf Hk. destruct (Append_fits data d Hd Hf) as (d' & E & H1 & H2 & H3). unfold append_or. rewrite E. by apply Hk. Qed.

(** ** Slices from one entity to another, without device memory *)
Section slices.
Context {OS : Os} {SH SD : Type} {HH : MemSegment SH} {HD : MemSegment SD}.
Implicit Types ew : Entity SH SD * World.
(** A memory key has 224 bytes. *)
Definition keys_ok : Prop := forall l addr, ret (os_answer l (QueryMemoryKey addr)) = 0 -> blen (out_bytes (os_answer l (QueryMemoryKey addr))) = KEY_BYTES.
(** What is exported of a slice has the size all kinds of segments agree on. *)
Definition exports_ok (slice : Z) (sw : SD * World) : Prop := forall sl sw1 info sw2,
  seg_GetMemSlice slice sw = (Some sl, sw1) -> seg_Export sl sw1 = ((0, info), sw2) -> blen (default [] info) = UNIFIED_EXCHANGE_SEG_INFO_SIZE.

Lemma find_slice_dram slice ew s Q :
  hbmSegment_ ew.1 = None -> dramSegment_ ew.1 = Some s ->
  wp (seg_GetMemSlice slice) (fun r sw => Q (match r with Some sl => Some (sl, false) | None => None end)
                                            (e_set_segs None (Some sw.1) ew.1, sw.2)) (s, ew.2) ->
  wp (find_slice slice) Q ew.
Proof.
  intros Hh Hd Hq. unfold find_slice. wp_step. apply wp_on_hbm_none; [done|]. wp_step. eapply wp_on_dram; [done|].
  eapply swp_mono; [exact Hq|]. rewrite Hh. intros [sl|] sw H; by wp_step.
Qed.
Definition exported (e : Entity SH SD) (s : SD) (w : World) (slice : Z) (d : hybm_exchange_info) : Prop :=
  exists sl sw1 info sw2, seg_GetMemSlice slice (s, w) = (Some sl, sw1) /\ seg_Export sl sw1 = ((0, info), sw2) /\ desc_ok d /\
    if transportManager_ e then exists key, blen key = KEY_BYTES /\ written d = default [] info ++ SerializeKey (mkKey (rankId (options_ e)) (gva_ sl) key)
    else written d = default [] info.
(** An export never leaves the description, and a good one holds the segment's export and,
    with a transport, the memory key. *)
Lemma export_slice slice fl d ew s :
  keys_ok -> exports_ok slice (s, ew.2) -> initialized_ ew.1 = true -> hbmSegment_ ew.1 = None -> dramSegment_ ew.1 = Some s -> has fl HYBM_FLAG_EXPORT_ENTITY = false -> blank d ->
  wp (ExportSliceExchangeInfo slice fl d) (fun r _ => exists x d', r = Some (x, d') /\ (x = BM_OK -> exported ew.1 s ew.2 slice d')) ew.
Proof.
  intros Hk Hx Hi Hh Hd Hfl Hb. unfold ExportSliceExchangeInfo. do 2 wp_step. cbn [id]. rewrite Hi, Hfl. cbn [negb]. wp_step.
  eapply find_slice_dram; [done|done|]. unfold wp at 1. destruct (seg_GetMemSlice slice (s, ew.2)) as [[sl|] [s1 w1]] eqn:E1; [|wp_step; by eexists _, _].
  wp_step. eapply wp_on_dram; [done|]. cbn [fst snd]. unfold wp at 1. destruct (seg_Export sl (s1, w1)) as [[r x] [s2 w2]] eqn:E2.
  destruct (Z.eqb_spec r 0) as [->|Hr]; cbn [negb]; [|wp_step; by eexists _, _]. pose proof (Hx _ _ _ _ E1 E2) as Hlen. destruct Hb as [Hb1 Hb2].
  assert (Hsize : UNIFIED_EXCHANGE_SEG_INFO_SIZE + TRANSPORT_KEY_SIZE <= DESC_SIZE) by done.
  apply wp_append; [done|unfold TRANSPORT_KEY_SIZE in *; lia|]. intros d1 Hd1 Hw1 Hl1. rewrite (blank_written d) in Hw1 by done. cbn [app] in Hw1.
  destruct (transportManager_ ew.1) eqn:Et; cbn [negb].
  2: { wp_step. eexists _, _. split; [done|]. intros _. exists sl, (s1, w1), x, (s2, w2). rewrite Et. done. }
  wp_step. apply swp_mono with (fun q ew' => q.1 = 0 -> blen q.2 = KEY_BYTES).
  { apply wp_if; intros _; [|by wp_step]. wp_step. apply wp_sys. intros a Ea. wp_step. cbn [fst snd]. rewrite Ea. apply Hk. }
  intros [q key] ew' Hkey. cbn [fst snd] in *. destruct (Z.eqb_spec q 0) as [->|]; cbn [negb]; [|wp_step; by eexists _, _].
  specialize (Hkey eq_refl). assert (Hkl : blen (SerializeKey (mkKey (rankId (options_ ew.1)) (gva_ sl) key)) = TRANSPORT_KEY_SIZE).
  { by apply blen_SerializeKey. }
  apply wp_append; [done|lia|]. intros d2 Hd2 Hw2 Hl2. wp_step. eexists _, _. split; [done|]. intros _. exists sl, (s1, w1), x, (s2, w2). rewrite Et.
  split_and!; [done|done|done|]. exists key. split; [done|]. by rewrite Hw2, Hw1.
Qed.

(** The parts of an entity an import leaves alone. *)
Definition entity_core (e : Entity SH SD) : bool * hybm_options * option SH * bool := (initialized_ e, options_ e, hbmSegment_ e, dataOperator_ e).
Lemma device_ok ew (Q : Z -> Entity SH SD * World -> Prop) :
  (forall r ew', entity_core ew'.1 = entity_core ew.1 -> dramSegment_ ew'.1 = dramSegment_ ew.1 -> transportManager_ ew'.1 = transportManager_ ew.1 ->
     w_vm ew'.2 = w_vm ew.2 -> Q r ew') -> wp SetThreadAclDevice Q ew.
Proof.
  intros HQ. unfold SetThreadAclDevice. do 2 wp_step. apply wp_if; intros _; [wp_step; by apply HQ|]. repeat wp_step. by apply HQ.
Qed.
Lemma precheck_core i readers addresses ew :
  wp (ImportForTransportPrecheck i readers addresses) (fun _ ew' => entity_core ew'.1 = entity_core ew.1 /\ dramSegment_ ew'.1 = dramSegment_ ew.1 /\
    w_vm ew'.2 = w_vm ew.2) ew.
Proof.
  revert i ew. induction readers as [|r readers IH]; intros i ew; cbn [ImportForTransportPrecheck]; [by wp_step|].
  destruct (reader_Read TRANSPORT_KEY_SIZE r) as [| |[b r']]; [by wp_step|by wp_step|]. do 3 wp_step.
  apply swp_mono with (fun _ ew' => ew'.1 = ew.1 /\ w_vm ew'.2 = w_vm ew.2).
  { destruct addresses; [|by wp_step]. apply wp_if; intros _; by repeat wp_step. }
  intros key [e1 w1] [Ee Ew]. cbn [fst snd] in *. subst e1. do 2 wp_step. eapply swp_mono; [apply IH|].
  intros x ew' (H1 & H2 & H3). cbn [fst snd] in *. split_and!; [by rewrite H1|by rewrite H2|by rewrite H3].
Qed.
(** Importing a description that starts with a segment's export of host memory hands that
    export to the segment. *)
Lemma import_slice d info rest ew s :
  initialized_ ew.1 = true -> hbmSegment_ ew.1 = None -> dramSegment_ ew.1 = Some s -> desc_ok d -> written d = info ++ rest ->
  blen info = UNIFIED_EXCHANGE_SEG_INFO_SIZE -> IsDramSlice (little_endian_to_Z 8 (take 8 info)) = true ->
  wp (ImportSliceExchangeInfo [reader_of d] None) (fun r ew' => forall a, r = Some (BM_OK, a) -> exists w1 addrs s' w', w_vm w1 = w_vm ew.2 /\
    seg_Import [info] (s, w1) = ((BM_OK, addrs), (s', w')) /\ dramSegment_ ew'.1 = Some s' /\ w_vm ew'.2 = w_vm w' /\
    entity_core ew'.1 = entity_core ew.1) ew.
Proof.
  intros Hi Hh Hd Hok Hw Hlen Hmag. unfold ImportSliceExchangeInfo. do 2 wp_step. rewrite Hi. cbn [negb]. wp_step.
  apply device_ok. intros dev [e1 w1] Hc1 Hd1 Ht1 Hv1. cbn [fst snd] in *. apply wp_if; intros _; [by wp_step|]. wp_step.
  assert (Hlast : 0 < descLen d).
  { apply (f_equal length) in Hw. unfold written in Hw. rewrite length_take, length_app in Hw. unfold blen, UNIFIED_EXCHANGE_SEG_INFO_SIZE in Hlen.
    destruct Hok as [_ [? _]]. lia. }
  unfold ImportForSegment, reader_of. unfold LeftBytes. cbn [exchangeInfo_ readOffset_].
  rewrite (proj2 (Z.leb_gt _ _)) by lia. rewrite (proj2 (Z.eqb_neq (descLen d - 0) 0)) by lia. wp_step. cbn [sort_infos].
  assert (Htest : reader_Test 8 (mkReader d 0) = Got (take 8 info)).
  { assert (Hw8 : written d = [] ++ take 8 info ++ drop 8 info ++ rest) by (rewrite Hw; cbn [app]; by rewrite app_assoc, take_drop).
    pose proof (reader_Read_part d [] (take 8 info) _ Hok Hw8) as H. unfold reader_Read in H. assert (E8 : blen (take 8 info) = 8) by (unfold blen, UNIFIED_EXCHANGE_SEG_INFO_SIZE in *; rewrite length_take; lia).
    rewrite E8 in H. change (blen []) with 0 in H. destruct (reader_Test 8 (mkReader d 0)); try done. by injection H as ->. }
  rewrite Htest, Hmag. cbn [orb].
  pose proof (reader_Read_part d [] info rest Hok Hw) as Hread. rewrite Hlen in Hread. change (blen []) with 0 in Hread. rewrite Hread.
  repeat wp_step. cbn [dramInfos dramIndex hbmInfos hbmIndex]. wp_step. eapply wp_on_dram; [cbn; by rewrite Hd1|]. cbn [fst snd].
  unfold wp at 1. destruct (seg_Import [info] (s, w1)) as [[r addrs] [s' w']] eqn:Ei. wp_step. cbn [fst snd].
  destruct (Z.eqb_spec r BM_OK) as [->|Hr]; cbn [negb fst snd].
  2: { rewrite (proj2 (Z.eqb_neq r BM_OK)) by done. cbn [negb]. repeat wp_step. rewrite (proj2 (Z.eqb_neq r BM_OK)) by done. cbn [negb]. wp_step. by intros a [= -> _]. }
  change (BM_OK =? BM_OK) with true. cbn [negb]. repeat wp_step. cbn [fst snd]. change (BM_OK =? BM_OK) with true. cbn [negb]. do 2 wp_step.
  assert (Hpost : forall ew2, entity_core ew2.1 = entity_core e1 -> dramSegment_ ew2.1 = Some s' -> w_vm ew2.2 = w_vm w' ->
    exists w2 addrs2 s2 w3, w_vm w2 = w_vm ew.2 /\ seg_Import [info] (s, w2) = ((BM_OK, addrs2), (s2, w3)) /\ dramSegment_ ew2.1 = Some s2 /\
      w_vm ew2.2 = w_vm w3 /\ entity_core ew2.1 = entity_core ew.1).
  { intros ew2 Hc2 Hs2 Hv2. exists w1, addrs, s', w'. split_and!; [done|done|done|done|congruence]. }
  apply wp_if; intros _; [wp_step; intros a _; by apply Hpost|]. wp_step.
  eapply swp_mono; [apply precheck_core|]. intros [p|] ew2 (Hc2 & Hs2 & Hv2); [|by wp_step]. cbn [fst snd] in *.
  apply wp_if; intros _; [wp_step; intros a _; by apply Hpost|]. wp_step. unfold ImportForTransport. do 2 wp_step.
  apply wp_if; intros _; repeat wp_step; intros a' _; by apply Hpost.
Qed.

Lemma entity_Mmap_dram (e : Entity SH SD) w s :
  initialized_ e = true -> hbmSegment_ e = None -> dramSegment_ e = Some s ->
  entity_Mmap (e, w) = let '(r, (s', w')) := seg_Mmap (s, w) in (r, (e_set_segs None (Some s') e, w')).
Proof.
  intros Hi Hh Hd. unfold entity_Mmap, mbind, SM_bind, gets, mret, SM_ret. cbn [fst snd id]. rewrite Hi. cbn [negb].
  destruct (scene (options_ e) =? HYBM_SCENE_TRANS); unfold on_hbm; cbn [fst snd]; rewrite ?Hh; cbn [default]; change (BM_OK =? BM_OK) with true;
    cbn [negb]; unfold on_dram; cbn [fst snd]; rewrite Hd, Hh; by destruct (seg_Mmap (s, w)) as [r [s' w']].
Qed.

(** ** Copies go to the ranks of their addresses *)
Definition route (e : Entity SH SD) (vm : HybmVaManager) (addr : Z) : Z := if (GetRank vm addr).2 then (GetRank vm addr).1 else rankId (options_ e).
(** Either the device cannot be selected for the thread, which is then all that happens, or
    the copy is handed over with the ranks of its addresses. *)
Definition copy_outcome (src dest size direction srcRank destRank : Z) (r : option Z) (l l' : log) : Prop :=
  (exists x, ret x <> BM_OK /\ r = Some BM_ERROR /\ l' = l ++ [(AclrtSetDevice, x)]) \/
  (exists x pre, r = Some (ret x) /\ l' = l ++ pre ++ [(DataCopy src dest size direction srcRank destRank, x)]).
Lemma CopyData_routes src dest size direction ew :
  initialized_ ew.1 = true -> dataOperator_ ew.1 = true ->
  wp (CopyData src dest size direction) (fun r ew' => ew'.1 = ew.1 /\ w_vm ew'.2 = w_vm ew.2 /\
    copy_outcome src dest size direction (route ew.1 (w_vm ew.2) src) (route ew.1 (w_vm ew.2) dest) r (w_log ew.2) (w_log ew'.2)) ew.
Proof.
  intros Hi Hop. unfold CopyData. do 2 wp_step. cbn [id]. rewrite Hi, Hop. cbn [negb]. wp_step.
  apply swp_mono with (fun dev ew' => ew'.1 = ew.1 /\ w_vm ew'.2 = w_vm ew.2 /\
    ((dev = BM_OK /\ exists pre, w_log ew'.2 = w_log ew.2 ++ pre) \/
     (dev <> BM_OK /\ exists x, ret x = dev /\ w_log ew'.2 = w_log ew.2 ++ [(AclrtSetDevice, x)]))).
  { unfold SetThreadAclDevice. do 2 wp_step. apply wp_if; intros _.
    - wp_step. split_and!; [done..|]. left. split; [done|]. exists []. by rewrite app_nil_r.
    - do 3 wp_step. split_and!; [done..|]. cbn [snd w_log]. destruct (decide (ret a = BM_OK)); [left|right]; eauto. }
  intros dev [e w] (He & Hv & Hd). cbn [fst snd] in *. subst e. destruct Hd as [(-> & pre & El)|(Hne & x & Ex & El)].
  - change (negb (BM_OK =? BM_OK)) with false. cbn iota. unfold LocateAddrAndRank. repeat wp_step. cbn [fst snd w_log w_vm] in *. split_and!; [done..|]. right.
    exists a, pre. split; [done|]. rewrite El, <- app_assoc. unfold route. by rewrite Hv.
  - rewrite (proj2 (Z.eqb_neq _ _) Hne). cbn [negb]. wp_step. split_and!; [done..|]. left. exists x. by rewrite Ex.
Qed.
Lemma group_copies_pure i copies groups ew :
  wp (group_copies i copies groups) (fun g ew' => ew' = ew /\
    g = foldl (fun g p => let k := (route ew.1 (w_vm ew.2) p.2.1.1, route ew.1 (w_vm ew.2) p.2.1.2) in <[k := default [] (g !! k) ++ [p.1]]> g)
          groups (zip (seqZ i (Z.of_nat (length copies))) copies)) ew.
Proof.
  revert i groups ew. induction copies as [|[[src dest] size] copies IH]; intros i groups ew; cbn [group_copies]; [by wp_step|].
  unfold LocateAddrAndRank. repeat wp_step. eapply swp_mono; [apply IH|]. intros g ew' [-> ->]. split; [done|].
  cbn [length]. rewrite Nat2Z.inj_succ. rewrite (seqZ_cons i) by lia. cbn [zip zip_with foldl fst snd]. rewrite Z.pred_succ.
  rewrite <- Z.add_1_r. unfold route. by destruct (GetRank (w_vm ew.2) src), (GetRank (w_vm ew.2) dest).
Qed.
End slices.
