(* ===== verification/ComposeTransport.v ===== *)
(** * ComposeTransport: two transports behind one interface

    [hybm/csrc/transport/compose/compose_transport_manager.h, .cpp], with the parts of
    [hybm_transport_common.h] and [hybm_transport_manager.cpp] it uses.  The host transport
    (HCOM) and the device transport (RDMA) are called; every call has an arbitrary answer.
    The tag manager is shared with the entity, which changes it, so each operation gets it
    as it is at that moment.  [None] as an answer stands for a call through a null pointer.
    Operations are taken one at a
    time; the mutex of the source guards the record of regions only. *)
From Stdlib Require Import String.
From stdpp Require Import gmap.
From S2P Require Import Prelude MessagePacker StrUtil VaManager ExchangeInfo SegmentWorld ConnSegment EntityTag Entity.
Local Open Scope list_scope.

Definition NIC_DELIMITER : Z := 59.
Definition HOST_TRANSPORT_TYPE : bytes := lit "host#".
Definition DEVICE_TRANSPORT_TYPE : bytes := lit "device#".
Definition HOST_PROTOCOL : Z := flags_of [HYBM_DOP_TYPE_HOST_TCP; HYBM_DOP_TYPE_HOST_RDMA; HYBM_DOP_TYPE_HOST_URMA].
Definition BM_NOT_SUPPORTED : Z := -100.
Definition StartWith (str prefix : bytes) : bool :=
  (blen prefix <=? blen str) && bool_decide (take (length prefix) str = prefix).

(** ** Memory keys: 28 words, the first half of the device, the second of the host *)
Definition HALF_KEY : Z := 14 * 8.
Definition ReadDeviceRdmaMemoryKey (input output : bytes) : bytes := take (Z.to_nat HALF_KEY) input ++ drop (Z.to_nat HALF_KEY) output.
Definition ReadHcomMemoryKey (input output : bytes) : bytes :=
  take (Z.to_nat HALF_KEY) (drop (Z.to_nat HALF_KEY) input) ++ drop (Z.to_nat HALF_KEY) output.
Definition WriteDeviceRdmaMemoryKey (input output : bytes) : bytes := take (Z.to_nat HALF_KEY) input ++ drop (Z.to_nat HALF_KEY) output.
Definition WriteHcomMemoryKey (input output : bytes) : bytes := take (Z.to_nat HALF_KEY) output ++ take (Z.to_nat HALF_KEY) input.
Definition zero_key : bytes := replicate (Z.to_nat KEY_BYTES) 0.

(** What one rank tells of itself: address, role and memory keys. *)
Abbreviation prepare_info := (bytes * Z * list bytes)%type.
Abbreviation trans_prepare := (list (Z * prepare_info)).

Record ComposeTr := mkTr {
  deviceTransportManager_ : bool; hostTransportManager_ : bool; nicInfo_ : bytes; mrs_ : gmap Z Z; t_rankId : Z; t_protocol : Z;
  connected_ : bool }.
Definition new_transport : ComposeTr := mkTr false false [] ∅ 0 0 false.
Implicit Types t : ComposeTr.
Abbreviation TM A := (SM ComposeTr A).
Definition t_set_parts (d h : bool) t := mkTr d h (nicInfo_ t) (mrs_ t) (t_rankId t) (t_protocol t) (connected_ t).
Definition t_set_nic (nic : bytes) t := mkTr (deviceTransportManager_ t) (hostTransportManager_ t) nic (mrs_ t) (t_rankId t) (t_protocol t) (connected_ t).
Definition t_set_mrs (m : gmap Z Z) t :=
  mkTr (deviceTransportManager_ t) (hostTransportManager_ t) (nicInfo_ t) m (t_rankId t) (t_protocol t) (connected_ t).
Definition t_set_options (rank protocol : Z) t :=
  mkTr (deviceTransportManager_ t) (hostTransportManager_ t) (nicInfo_ t) (mrs_ t) rank protocol (connected_ t).
Definition t_set_connected (b : bool) t :=
  mkTr (deviceTransportManager_ t) (hostTransportManager_ t) (nicInfo_ t) (mrs_ t) (t_rankId t) (t_protocol t) b.

(** ** The options for one part *)
(** The address behind the prefix of a part; the last one counts. *)
Definition nic_of (prefix nic : bytes) : bytes :=
  foldl (fun acc s => if StartWith s prefix then drop (length prefix) s else acc) [] (Split nic NIC_DELIMITER).
(** The role of the peer is not passed on: it is [HYBM_ROLE_PEER] for every rank. *)
Definition GetHostPrepareOptions (tags : HybmEntityTagInfo) (rank : Z) (param : trans_prepare) : trans_prepare :=
  omap (fun item : Z * prepare_info =>
    let '(rankId, (nic, _, keys)) := item in
    if negb (has (GetRank2RankOpType rankId rank tags) HOST_PROTOCOL) then None else
    Some (rankId, (nic_of HOST_TRANSPORT_TYPE nic, HYBM_ROLE_PEER, (fun key => ReadHcomMemoryKey key zero_key) <$> keys))) param.
(** The device gets whole keys: what [ReadDeviceRdmaMemoryKey] read is not used. *)
Definition GetDevicePrepareOptions (tags : HybmEntityTagInfo) (rank : Z) (param : trans_prepare) : trans_prepare :=
  omap (fun item : Z * prepare_info =>
    let '(rankId, (nic, _, keys)) := item in
    if negb (has (GetRank2RankOpType rankId rank tags) HYBM_DOP_TYPE_DEVICE_RDMA) then None else
    Some (rankId, (nic_of DEVICE_TRANSPORT_TYPE nic, HYBM_ROLE_PEER, keys))) param.

Section transport.
Context {OS : Os}.

(** ** Opening and closing *)
Definition OpenHostTransport : TM Z :=
  t ← gets id;
  if hostTransportManager_ t then mret BM_ERROR else
  _ ← upd (t_set_parts (deviceTransportManager_ t) true);
  a ← sys (Via HostTransport OpenDevice);
  mret (ret a).
Definition OpenDeviceTransport : TM Z :=
  t ← gets id;
  if deviceTransportManager_ t then mret BM_ERROR else
  _ ← upd (t_set_parts true (hostTransportManager_ t));
  a ← sys (Via DeviceTransport OpenDevice);
  mret (ret a).
Definition tr_CloseDevice : TM Z :=
  t ← gets id;
  _ ← (if deviceTransportManager_ t then _ ← sys (Via DeviceTransport CloseDevice); mret tt else mret tt);
  _ ← (if hostTransportManager_ t then _ ← sys (Via HostTransport CloseDevice); mret tt else mret tt);
  mret BM_OK.
Definition close_and_fail : TM Z := _ ← tr_CloseDevice; mret BM_ERROR.
(** The address of a part in the text, or [None] when the part is missing. *)
Definition nic_text (open : bool) (p : part) (prefix : bytes) : TM (option bytes) :=
  if negb open then mret None else
  a ← sys (Via p GetNic);
  mret (Some (prefix ++ out_bytes a ++ [NIC_DELIMITER])).
Definition tr_OpenDevice (rankId protocol : Z) : TM Z :=
  _ ← upd (t_set_options rankId protocol);
  h ← (if has protocol HOST_PROTOCOL then OpenHostTransport else mret BM_OK);
  if negb (h =? BM_OK) then close_and_fail else
  d ← (if has protocol HYBM_DOP_TYPE_DEVICE_RDMA then OpenDeviceTransport else mret BM_OK);
  if negb (d =? BM_OK) then close_and_fail else
  t ← gets id;
  hn ← (if has protocol HOST_PROTOCOL then nic_text (hostTransportManager_ t) HostTransport HOST_TRANSPORT_TYPE else mret (Some []));
  match hn with
  | None => close_and_fail
  | Some hn =>
      dn ← (if has protocol HYBM_DOP_TYPE_DEVICE_RDMA then nic_text (deviceTransportManager_ t) DeviceTransport DEVICE_TRANSPORT_TYPE
            else mret (Some []));
      match dn with
      | None => close_and_fail
      | Some dn => _ ← upd (t_set_nic (hn ++ dn)); mret BM_OK
      end
  end.
Definition tr_GetNic : TM bytes := gets nicInfo_.

(** ** Memory *)
Definition tr_RegisterMemoryRegion (addr size flags : Z) : TM Z :=
  t ← gets id;
  d ← (if deviceTransportManager_ t then a ← sys (Via DeviceTransport (RegisterMemoryRegion addr size flags)); mret (ret a) else mret BM_OK);
  if negb (d =? BM_OK) then mret d else
  h ← (if hostTransportManager_ t then a ← sys (Via HostTransport (RegisterMemoryRegion addr size flags)); mret (ret a) else mret BM_OK);
  if negb (h =? BM_OK) then
    _ ← (if deviceTransportManager_ t then _ ← sys (Via DeviceTransport (UnregisterMemoryRegion addr)); mret tt else mret tt);
    mret h
  else
  _ ← upd (fun t => match mrs_ t !! addr with Some _ => t | None => t_set_mrs (<[addr := size]> (mrs_ t)) t end);
  mret BM_OK.
Definition tr_UnregisterMemoryRegion (addr : Z) : TM Z :=
  t ← gets id;
  match mrs_ t !! addr with
  | None => mret BM_INVALID_PARAM
  | Some _ =>
      d ← (if deviceTransportManager_ t then a ← sys (Via DeviceTransport (UnregisterMemoryRegion addr)); mret (ret a) else mret BM_OK);
      if negb (d =? BM_OK) then mret d else
      h ← (if hostTransportManager_ t then a ← sys (Via HostTransport (UnregisterMemoryRegion addr)); mret (ret a) else mret BM_OK);
      if negb (h =? BM_OK) then mret h else
      _ ← upd (fun t => t_set_mrs (delete addr (mrs_ t)) t);
      mret BM_OK
  end.
Definition tr_QueryHasRegistered (addr size : Z) : TM bool :=
  t ← gets id;
  d ← (if deviceTransportManager_ t then a ← sys (Via DeviceTransport (QueryHasRegistered addr size)); mret (negb (ret a =? 0)) else mret false);
  if d : bool then mret true else
  if hostTransportManager_ t then a ← sys (Via HostTransport (QueryHasRegistered addr size)); mret (negb (ret a =? 0)) else mret false.
(** The result and the key; a host transport that fails only leaves its half as it was in [tmp]. *)
Definition tr_QueryMemoryKey (addr : Z) (key : bytes) : TM (Z * bytes) :=
  t ← gets id;
  d ← (if deviceTransportManager_ t then
         a ← sys (Via DeviceTransport (QueryMemoryKey addr));
         mret (ret a, if ret a =? BM_OK then WriteDeviceRdmaMemoryKey (out_bytes a) key else key)
       else mret (BM_OK, key));
  if negb (d.1 =? BM_OK) then mret d else
  if hostTransportManager_ t then
    a ← sys (Via HostTransport (QueryMemoryKey addr));
    mret (BM_OK, WriteHcomMemoryKey (out_bytes a) d.2)
  else mret (BM_OK, d.2).
Definition tr_UpdateMemoryKey (key : bytes) (addr : Z) : TM bytes :=
  t ← gets id;
  if deviceTransportManager_ t then
    a ← sys (Via DeviceTransport (UpdateMemoryKey (ReadDeviceRdmaMemoryKey key zero_key) addr));
    mret (WriteDeviceRdmaMemoryKey (out_bytes a) key)
  else mret key.

(** ** Connections *)
(** A call of the host transport, then one of the device transport; the first failure ends. *)
Definition host_then_device (ch cd : call) : TM Z :=
  t ← gets id;
  h ← (if hostTransportManager_ t then a ← sys (Via HostTransport ch); mret (ret a) else mret BM_OK);
  if negb (h =? BM_OK) then mret h else
  if deviceTransportManager_ t then a ← sys (Via DeviceTransport cd); mret (ret a) else mret BM_OK.
Definition tr_Prepare (tags : HybmEntityTagInfo) (options : trans_prepare) : TM Z :=
  rank ← gets t_rankId;
  host_then_device (Prepare (GetHostPrepareOptions tags rank options)) (Prepare (GetDevicePrepareOptions tags rank options)).
Definition tr_Connect : TM Z := host_then_device Connect Connect.
Definition tr_AsyncConnect : TM Z := host_then_device AsyncConnect AsyncConnect.
Definition tr_WaitForConnected (timeoutNs : Z) : TM Z := host_then_device (WaitForConnected timeoutNs) (WaitForConnected timeoutNs).
(** Both parts are called; the last failure is the result. *)
Definition tr_RemoveRanks (ranks : list Z) : TM Z :=
  t ← gets id;
  h ← (if hostTransportManager_ t then a ← sys (Via HostTransport (RemoveRanks ranks)); mret (ret a) else mret BM_OK);
  d ← (if deviceTransportManager_ t then a ← sys (Via DeviceTransport (RemoveRanks ranks)); mret (ret a) else mret BM_OK);
  mret (if negb (d =? BM_OK) then d else h).
(** Both parts are called; the result of the device, when there is one, hides that of the host. *)
Definition tr_UpdateRankOptions (tags : HybmEntityTagInfo) (options : trans_prepare) : TM Z :=
  t ← gets id;
  h ← (if hostTransportManager_ t then a ← sys (Via HostTransport (UpdateRankOptions (GetHostPrepareOptions tags (t_rankId t) options))); mret (ret a)
       else mret BM_OK);
  if deviceTransportManager_ t then a ← sys (Via DeviceTransport (UpdateRankOptions (GetDevicePrepareOptions tags (t_rankId t) options))); mret (ret a)
  else mret h.
Definition tr_ConnectWithOptions (tags : HybmEntityTagInfo) (options : trans_prepare) : TM Z :=
  c ← gets connected_;
  if c : bool then tr_UpdateRankOptions tags options else
  p ← tr_Prepare tags options;
  if negb (p =? BM_OK) then mret p else
  r ← tr_Connect;
  if negb (r =? BM_OK) then mret r else
  _ ← upd (t_set_connected true);
  mret BM_OK.

(** ** Transfers: the device first, then the host, as the tags of the two ranks allow *)
Definition via_device (opType : Z) (c : call) : TM (option Z) :=
  t ← gets id;
  if has opType HYBM_DOP_TYPE_DEVICE_RDMA && deviceTransportManager_ t then a ← sys (Via DeviceTransport c); mret (Some (ret a)) else mret None.
(** [checked]: whether the code tests for a missing host transport. *)
Definition transfer (checked : bool) (tags : HybmEntityTagInfo) (rankId : Z) (c : call) : TM (option Z) :=
  t ← gets id;
  let opType := GetRank2RankOpType rankId (t_rankId t) tags in
  d ← via_device opType c;
  if bool_decide (d = Some BM_OK) then mret (Some BM_OK) else
  if negb (has opType HOST_PROTOCOL) then mret (Some BM_ERROR) else
  if negb (hostTransportManager_ t) then mret (if checked then Some BM_ERROR else None) else
  a ← sys (Via HostTransport c);
  mret (Some (if ret a =? BM_OK then BM_OK else BM_ERROR)).
Definition tr_ReadRemote tags (rankId lAddr rAddr size : Z) : TM (option Z) := transfer false tags rankId (ReadRemote rankId lAddr rAddr size).
Definition tr_WriteRemote tags (rankId lAddr rAddr size : Z) : TM (option Z) := transfer false tags rankId (WriteRemote rankId lAddr rAddr size).
Definition tr_ReadRemoteAsync tags (rankId lAddr rAddr size : Z) : TM (option Z) := transfer false tags rankId (ReadRemoteAsync rankId lAddr rAddr size).
Definition tr_WriteRemoteAsync tags (rankId lAddr rAddr size : Z) : TM (option Z) := transfer true tags rankId (WriteRemoteAsync rankId lAddr rAddr size).
Definition tr_Synchronize tags (rankId : Z) : TM (option Z) := transfer true tags rankId (Synchronize rankId).
(** Refused whenever the tags allow the device, also when they allow the host. *)
Definition host_batch (tags : HybmEntityTagInfo) (rankId : Z) (c : call) : TM Z :=
  t ← gets id;
  let opType := GetRank2RankOpType rankId (t_rankId t) tags in
  if has opType HYBM_DOP_TYPE_DEVICE_RDMA then mret BM_NOT_SUPPORTED else
  if has opType HOST_PROTOCOL && hostTransportManager_ t then
    a ← sys (Via HostTransport c); mret (if ret a =? BM_OK then BM_OK else BM_ERROR)
  else mret BM_ERROR.
Definition tr_ReadRemoteBatchAsync tags (rankId : Z) (descriptor : list (Z * Z * Z)) : TM Z :=
  host_batch tags rankId (ReadRemoteBatchAsync rankId descriptor).
Definition tr_WriteRemoteBatchAsync tags (rankId : Z) (descriptor : list (Z * Z * Z)) : TM Z :=
  host_batch tags rankId (WriteRemoteBatchAsync rankId descriptor).
End transport.
