(* ===== verification/ComposeDataOp.v ===== *)
(** * ComposeDataOp: several data operators behind one interface

    [hybm/csrc/data_operation/host/hybm_compose_data_op.h, .cpp] and the operator over
    shared memory, [hybm_data_op_host_shm.h, .cpp].  The other operators (SDMA, RDMA of the
    device and of the host) are called, with arbitrary answers.  The tag manager is shared
    with the entity and given to each operation as it is at that moment. *)
From stdpp Require Import gmap.
From S2P Require Import Prelude MessagePacker VaManager SegmentWorld ConnSegment EntityTag Entity.
Local Open Scope list_scope.

(** [hostRdmaDataOperator_] holds the operator of the host, which may be the one over shared
    memory. *)
Record ComposeOp := mkOp { sdmaDataOperator_ : bool; devRdmaDataOperator_ : bool; hostRdmaDataOperator_ : option part }.
Definition no_operators : ComposeOp := mkOp false false None.
Implicit Types c : ComposeOp.
Abbreviation OM A := (SM ComposeOp A).

(** The operators for two ranks in order of preference, with the type they are used for. *)
Definition operator_for (opTypes : Z) (c : ComposeOp) (op : Z) : list (Z * part) :=
  if negb (has opTypes op) then [] else
  if op =? HYBM_DOP_TYPE_SDMA then (if sdmaDataOperator_ c then [(op, SdmaOperator)] else []) else
  if op =? HYBM_DOP_TYPE_DEVICE_RDMA then (if devRdmaDataOperator_ c then [(op, DevRdmaOperator)] else []) else
  match hostRdmaDataOperator_ c with Some p => [(op, p)] | None => [] end.
Definition priority : list Z :=
  [HYBM_DOP_TYPE_SDMA; HYBM_DOP_TYPE_DEVICE_RDMA; HYBM_DOP_TYPE_HOST_RDMA; HYBM_DOP_TYPE_HOST_URMA; HYBM_DOP_TYPE_HOST_TCP; HYBM_DOP_TYPE_HOST_SHM].
Definition GetPrioritedDataOperators (tags : HybmEntityTagInfo) (srcRank destRank : Z) c : list (Z * part) :=
  concat (operator_for (GetRank2RankOpType srcRank destRank tags) c <$> priority).
Definition AllSupportSdma (tags : HybmEntityTagInfo) (groups : list (Z * Z * list Z)) c : bool :=
  sdmaDataOperator_ c && forallb (fun g : Z * Z * list Z => has (GetRank2RankOpType g.1.1 g.1.2 tags) HYBM_DOP_TYPE_SDMA) groups.

Section operators.
Context {OS : Os}.

Definition init_operator (p : part) (set : ComposeOp -> ComposeOp) (clear : ComposeOp -> ComposeOp) : OM Z :=
  _ ← upd set;
  a ← sys (Via p DataOpInitialize);
  _ ← (if negb (ret a =? BM_OK) then upd clear else mret tt);
  mret (ret a).
Definition op_Initialize (o : hybm_options) : OM Z :=
  if bmType o =? HYBM_TYPE_AI_CORE_INITIATE then mret BM_OK else
  s ← (if has (bmDataOpType o) HYBM_DOP_TYPE_SDMA then
         init_operator SdmaOperator (fun c => mkOp true (devRdmaDataOperator_ c) (hostRdmaDataOperator_ c))
           (fun c => mkOp false (devRdmaDataOperator_ c) (hostRdmaDataOperator_ c))
       else mret BM_OK);
  if negb (s =? BM_OK) then mret s else
  d ← (if has (bmDataOpType o) HYBM_DOP_TYPE_DEVICE_RDMA then
         init_operator DevRdmaOperator (fun c => mkOp (sdmaDataOperator_ c) true (hostRdmaDataOperator_ c))
           (fun c => mkOp false false (hostRdmaDataOperator_ c))
       else mret BM_OK);
  if negb (d =? BM_OK) then mret d else
  h ← (if has (bmDataOpType o) host_flags then
         init_operator HostRdmaOperator (fun c => mkOp (sdmaDataOperator_ c) (devRdmaDataOperator_ c) (Some HostRdmaOperator)) (fun _ => no_operators)
       else mret BM_OK);
  if negb (h =? BM_OK) then mret h else
  if has (bmDataOpType o) HYBM_DOP_TYPE_HOST_SHM then
    init_operator HostShmOperator (fun c => mkOp (sdmaDataOperator_ c) (devRdmaDataOperator_ c) (Some HostShmOperator)) (fun _ => no_operators)
  else mret BM_OK.
Definition op_UnInitialize : OM unit :=
  c ← gets id;
  _ ← (match hostRdmaDataOperator_ c with Some p => _ ← sys (Via p DataOpUnInitialize); mret tt | None => mret tt end);
  _ ← (if devRdmaDataOperator_ c then _ ← sys (Via DevRdmaOperator DataOpUnInitialize); mret tt else mret tt);
  _ ← (if sdmaDataOperator_ c then _ ← sys (Via SdmaOperator DataOpUnInitialize); mret tt else mret tt);
  upd (fun _ => no_operators).

(** One after the other until one succeeds; [result] is the last answer. *)
Fixpoint try_operators (call : call) (ops : list (Z * part)) (result : Z) : OM Z :=
  match ops with
  | [] => mret result
  | op :: ops => a ← sys (Via op.2 call); if ret a =? BM_OK then mret BM_OK else try_operators call ops (ret a)
  end.
Definition op_DataCopy (tags : HybmEntityTagInfo) (src dest size direction srcRank destRank : Z) : OM Z :=
  ops ← gets (GetPrioritedDataOperators tags srcRank destRank);
  match ops with [] => mret BM_INVALID_PARAM | _ => try_operators (DataCopy src dest size direction srcRank destRank) ops BM_ERROR end.
Definition op_DataCopyAsync (tags : HybmEntityTagInfo) (src dest size direction srcRank destRank : Z) : OM Z :=
  ops ← gets (GetPrioritedDataOperators tags srcRank destRank);
  match ops with [] => mret BM_INVALID_PARAM | _ => try_operators (DataCopyAsync src dest size direction srcRank destRank) ops BM_ERROR end.

(** The copies at some positions of the batch. *)
Definition copies_at (copies : list (Z * Z * Z)) (indices : list Z) : list (Z * Z * Z) := (fun i => copies !!! Z.to_nat i) <$> indices.
Fixpoint copy_groups (tags : HybmEntityTagInfo) (copies : list (Z * Z * Z)) (direction : Z) (groups : list (Z * Z * list Z)) : OM Z :=
  match groups with
  | [] => mret BM_OK
  | (srcRank, destRank, indices) :: groups =>
      ops ← gets (GetPrioritedDataOperators tags srcRank destRank);
      match ops with
      | [] => mret BM_INVALID_PARAM
      | op :: _ =>
          a ← sys (Via op.2 (GroupCopy direction srcRank destRank (copies_at copies indices)));
          if negb (ret a =? BM_OK) then mret (ret a) else copy_groups tags copies direction groups
      end
  end.
Definition op_BatchDataCopy (tags : HybmEntityTagInfo) (copies : list (Z * Z * Z)) (direction : Z) (groups : list (Z * Z * list Z)) : OM Z :=
  s ← gets (AllSupportSdma tags groups);
  if s : bool then a ← sys (Via SdmaOperator (MixedCopy direction copies)); mret (ret a)
  else copy_groups tags copies direction groups.
Definition op_QuantCopy : OM Z :=
  s ← gets sdmaDataOperator_;
  if negb s then mret BM_ERROR else a ← sys (Via SdmaOperator DataOpQuantCopy); mret (ret a).
(** Only the SDMA operator is waited for. *)
Definition op_Wait : OM Z :=
  s ← gets sdmaDataOperator_;
  if negb s then mret BM_ERROR else a ← sys (Via SdmaOperator DataOpWait); mret (ret a).

(** ** The operator over shared memory; its state is whether it is initialised *)
Definition ACL_MEMCPY_HOST_TO_HOST : Z := 0.
Definition ACL_MEMCPY_HOST_TO_DEVICE : Z := 1.
Definition ACL_MEMCPY_DEVICE_TO_HOST : Z := 2.
(** The kind of copy for a direction; the directions with device memory of the space are refused. *)
Definition memcpy_kind (direction : Z) : option Z :=
  if (direction =? 0) || (direction =? 6) || (direction =? 4) then Some ACL_MEMCPY_HOST_TO_HOST else
  if direction =? 2 then Some ACL_MEMCPY_DEVICE_TO_HOST else
  if direction =? 7 then Some ACL_MEMCPY_HOST_TO_DEVICE else None.
Definition IsSupportedDirection (direction : Z) : bool := match memcpy_kind direction with Some _ => true | None => false end.
Definition shmop_Initialize : SM bool Z := _ ← upd (fun _ => true); mret BM_OK.
Definition shmop_UnInitialize : SM bool unit := upd (fun _ => false).
Definition shmop_DataCopy (src dest size direction : Z) : SM bool Z :=
  inited ← gets id;
  if negb inited then mret BM_NOT_INITIALIZED else
  match memcpy_kind direction with
  | None => mret BM_INVALID_PARAM
  | Some kind => a ← sys (Memcpy dest src size kind); mret (ret a)
  end.
Definition shmop_DataCopyAsync : SM bool Z := inited ← gets id; mret (if negb inited then BM_NOT_INITIALIZED else BM_ERROR).
Fixpoint memcpy_all (kind : Z) (copies : list (Z * Z * Z)) : SM bool Z :=
  match copies with
  | [] => mret BM_OK
  | (src, dest, size) :: copies => a ← sys (Memcpy dest src size kind); if negb (ret a =? BM_OK) then mret (ret a) else memcpy_all kind copies
  end.
Definition shmop_BatchDataCopy (copies : list (Z * Z * Z)) (direction : Z) : SM bool Z :=
  inited ← gets id;
  if negb inited then mret BM_NOT_INITIALIZED else
  match memcpy_kind direction with None => mret BM_INVALID_PARAM | Some kind => memcpy_all kind copies end.
Definition shmop_Wait : SM bool Z := inited ← gets id; mret (if negb inited then BM_NOT_INITIALIZED else BM_OK).
End operators.
