(* ===== verification/ComposeProof.v ===== *)
(** * ComposeProof: what the parts of a composed transport and operator are asked to do *)
From stdpp Require Import gmap.
From S2P Require Import Prelude MessagePacker StrUtil VaManager ExchangeInfo SegmentWorld ConnSegment EntityTag Entity ComposeTransport ComposeDataOp.
Local Open Scope list_scope.

(** ** Memory registered with a part, as the log tells *)
Definition region_step (p : part) (s : gset Z) (e : call * answer) : gset Z :=
  match e with
  | (Via q (RegisterMemoryRegion addr _ _), a) => if bool_decide (q = p) && (ret a =? BM_OK) then {[addr]} ∪ s else s
  | (Via q (UnregisterMemoryRegion addr), a) => if bool_decide (q = p) && (ret a =? BM_OK) then s ∖ {[addr]} else s
  | _ => s
  end.
Definition part_regions (p : part) (l : log) : gset Z := foldl (region_step p) ∅ l.
Lemma part_regions_snoc p l e : part_regions p (l ++ [e]) = region_step p (part_regions p l) e.
Proof. unfold part_regions. by rewrite foldl_app. Qed.

Section memory.
Context {OS : Os}.
Inductive mem_op := RegisterOp (addr size flags : Z) | UnregisterOp (addr : Z).
Definition run_mem (o : mem_op) : TM unit :=
  match o with
  | RegisterOp addr size flags => _ ← tr_RegisterMemoryRegion addr size flags; mret tt
  | UnregisterOp addr => _ ← tr_UnregisterMemoryRegion addr; mret tt
  end.
(** The part never refuses to forget a region. *)
Definition unregisters (p : part) : Prop := forall l addr, ret (os_answer l (Via p (UnregisterMemoryRegion addr))) = BM_OK.
Definition registers (p : part) : Prop := forall l addr size flags, ret (os_answer l (Via p (RegisterMemoryRegion addr size flags))) = BM_OK.

Definition regions_ok (tw : ComposeTr * World) : Prop :=
  let '(t, w) := tw in
  (hostTransportManager_ t = true -> part_regions HostTransport (w_log w) = dom (mrs_ t)) /\
  (deviceTransportManager_ t = true -> unregisters DeviceTransport -> part_regions DeviceTransport (w_log w) ⊆ dom (mrs_ t)) /\
  (deviceTransportManager_ t = true -> (hostTransportManager_ t = true -> registers HostTransport /\ unregisters HostTransport) ->
   part_regions DeviceTransport (w_log w) = dom (mrs_ t)).

(** The regions of both parts after further calls. *)
Ltac part_answers :=
  repeat (change (negb (BM_OK =? BM_OK)) with false; cbn [fst snd w_log w_vm mrs_];
    match goal with |- context [negb (ret (os_answer ?l ?c) =? BM_OK)] => destruct (negb (ret (os_answer l c) =? BM_OK)) eqn:? end);
  change (negb (BM_OK =? BM_OK)) with false; cbn [fst snd w_log w_vm mrs_].
Ltac region_steps :=
  unfold regions_ok; cbn [fst snd w_log w_vm deviceTransportManager_ hostTransportManager_ mrs_ t_set_mrs] in *;
  rewrite ?part_regions_snoc; unfold region_step;
  repeat match goal with
  | |- context [bool_decide (?p = ?q)] => let v := eval vm_compute in (bool_decide (p = q)) in change (bool_decide (p = q)) with v
  | E : negb ?b = true |- _ => apply negb_true_iff in E; rewrite ?E in *
  | E : negb ?b = false |- _ => apply negb_false_iff in E; rewrite ?E in *
  end; cbn [andb]; rewrite ?dom_insert_L, ?dom_delete_L.
Ltac region_sets :=
  split_and!; try done; intros;
  repeat match goal with
  | H : ?b = ?b -> _ |- _ => specialize (H eq_refl)
  | H : ?P -> _, H' : ?P |- _ => specialize (H H')
  | H : registers _ /\ unregisters _ |- _ => destruct H
  | H : unregisters _ |- context [if ret ?a =? BM_OK then _ else _] => rewrite H; change (BM_OK =? BM_OK) with true; cbn iota
  | H : unregisters _, E : (ret _ =? BM_OK) = false |- _ => rewrite H in E; done
  | H : registers _, E : (ret _ =? BM_OK) = false |- _ => rewrite H in E; done
  | E : ?m !! ?a = Some _ |- _ => apply elem_of_dom_2 in E
  end; set_solver.
Lemma Register_regions addr size flags tw : regions_ok tw -> wp (tr_RegisterMemoryRegion addr size flags) (fun _ => regions_ok) tw.
Proof.
  destruct tw as [t w]. intros (H1 & H2 & H3). destruct t as [dev host nic m rk pr cn]. cbn [deviceTransportManager_ hostTransportManager_ mrs_] in *.
  unfold wp, tr_RegisterMemoryRegion, mbind, SM_bind, mret, SM_ret, gets, upd, sys.
  destruct dev, host; cbn [fst snd id deviceTransportManager_ hostTransportManager_ mrs_ w_log w_vm];
  part_answers; try (destruct (m !! addr) as [old|] eqn:Em); region_steps; region_sets.
Qed.
Lemma Unregister_regions addr tw : regions_ok tw -> wp (tr_UnregisterMemoryRegion addr) (fun _ => regions_ok) tw.
Proof.
  destruct tw as [t w]. intros (H1 & H2 & H3). destruct t as [dev host nic m rk pr cn]. cbn [deviceTransportManager_ hostTransportManager_ mrs_] in *.
  unfold wp, tr_UnregisterMemoryRegion, mbind, SM_bind, mret, SM_ret, gets, upd, sys. cbn [fst snd id mrs_].
  destruct (m !! addr) as [old|] eqn:Em; [|done].
  destruct dev, host; cbn [fst snd id deviceTransportManager_ hostTransportManager_ mrs_ w_log w_vm];
  part_answers; region_steps; region_sets.
Qed.

Ltac open_steps :=
  change (negb (BM_OK =? BM_OK)) with false;
  cbn [fst snd id negb app new_transport t_set_options t_set_parts t_set_nic deviceTransportManager_ hostTransportManager_ nicInfo_ mrs_ t_rankId w_log w_vm].
(** A manager that was opened: its parts, and the text with their addresses. *)
Definition part_nic (open : bool) (prefix nic : bytes) : bytes := if open then prefix ++ nic ++ [NIC_DELIMITER] else [].
Lemma OpenDevice_fresh rank protocol vm :
  let '(r, (t, w)) := tr_OpenDevice rank protocol (new_transport, mkWorld vm []) in
  mrs_ t = ∅ /\ (forall p, part_regions p (w_log w) = ∅) /\
  (r = BM_OK -> exists lh ld, t_rankId t = rank /\ hostTransportManager_ t = has protocol HOST_PROTOCOL /\
    deviceTransportManager_ t = has protocol HYBM_DOP_TYPE_DEVICE_RDMA /\
    nicInfo_ t = part_nic (hostTransportManager_ t) HOST_TRANSPORT_TYPE (out_bytes (os_answer lh (Via HostTransport GetNic))) ++
                 part_nic (deviceTransportManager_ t) DEVICE_TRANSPORT_TYPE (out_bytes (os_answer ld (Via DeviceTransport GetNic))) /\
    (hostTransportManager_ t = true -> (Via HostTransport GetNic, os_answer lh (Via HostTransport GetNic)) ∈ w_log w) /\
    (deviceTransportManager_ t = true -> (Via DeviceTransport GetNic, os_answer ld (Via DeviceTransport GetNic)) ∈ w_log w)).
Proof.
  unfold tr_OpenDevice, close_and_fail, tr_CloseDevice, OpenHostTransport, OpenDeviceTransport, nic_text, mbind, SM_bind, mret, SM_ret, gets, upd, sys.
  destruct (has protocol HOST_PROTOCOL) eqn:Eh, (has protocol HYBM_DOP_TYPE_DEVICE_RDMA) eqn:Ed;
  open_steps; repeat (match goal with |- context [negb (ret ?a =? BM_OK)] => destruct (negb (ret a =? BM_OK)) end; open_steps);
  (split; [done|]); (split; [done|]); try done; intros _; eexists _, _; split_and!; try done;
  intros _; repeat constructor.
  Unshelve. all: exact [].
Qed.
End memory.

(** ** Addresses and keys of a peer *)
Lemma StartWith_app prefix s : StartWith (prefix ++ s) prefix = true.
Proof.
  unfold StartWith. rewrite take_app_length, bool_decide_eq_true_2 by done. unfold blen. rewrite length_app.
  apply andb_true_iff. split; [lia|done].
Qed.
Lemma nic_texts_split (h d : bool) hn dn : free_of NIC_DELIMITER hn -> free_of NIC_DELIMITER dn ->
  Split (part_nic h HOST_TRANSPORT_TYPE hn ++ part_nic d DEVICE_TRANSPORT_TYPE dn) NIC_DELIMITER =
  (if h then [HOST_TRANSPORT_TYPE ++ hn] else []) ++ (if d then [DEVICE_TRANSPORT_TYPE ++ dn] else []).
Proof.
  intros Hh Hd.
  assert (F1 : free_of NIC_DELIMITER (HOST_TRANSPORT_TYPE ++ hn)) by (apply Forall_app; split; [by repeat constructor|done]).
  assert (F2 : free_of NIC_DELIMITER (DEVICE_TRANSPORT_TYPE ++ dn)) by (apply Forall_app; split; [by repeat constructor|done]).
  set (l := _ ++ _ : list bytes). replace (_ ++ _) with (concat ((fun s => s ++ [NIC_DELIMITER]) <$> l)).
  - apply Split_terminated. subst l. apply Forall_app. destruct h, d; auto.
  - subst l. unfold part_nic. destruct h, d; cbn [app fmap list_fmap concat]; by rewrite ?app_nil_r, <- ?app_assoc.
Qed.
Lemma nic_of_host (h d : bool) hn dn : free_of NIC_DELIMITER hn -> free_of NIC_DELIMITER dn ->
  nic_of HOST_TRANSPORT_TYPE (part_nic h HOST_TRANSPORT_TYPE hn ++ part_nic d DEVICE_TRANSPORT_TYPE dn) = if h then hn else [].
Proof.
  intros Hh Hd. unfold nic_of. rewrite nic_texts_split, foldl_app by done.
  assert (E : StartWith (DEVICE_TRANSPORT_TYPE ++ dn) HOST_TRANSPORT_TYPE = false) by (unfold StartWith; by rewrite bool_decide_eq_false_2, andb_false_r).
  destruct h, d; cbn [foldl]; by rewrite ?StartWith_app, ?E, ?drop_app_length.
Qed.
Lemma nic_of_device (h d : bool) hn dn : free_of NIC_DELIMITER hn -> free_of NIC_DELIMITER dn ->
  nic_of DEVICE_TRANSPORT_TYPE (part_nic h HOST_TRANSPORT_TYPE hn ++ part_nic d DEVICE_TRANSPORT_TYPE dn) = if d then dn else [].
Proof.
  intros Hh Hd. unfold nic_of. rewrite nic_texts_split, foldl_app by done.
  assert (E : StartWith (HOST_TRANSPORT_TYPE ++ hn) DEVICE_TRANSPORT_TYPE = false).
  { unfold StartWith. rewrite bool_decide_eq_false_2; [by rewrite andb_false_r|]. by destruct hn as [|? [|? ?]]. }
  destruct h, d; cbn [foldl]; by rewrite ?StartWith_app, ?E, ?drop_app_length.
Qed.
Section keys.
Context {OS : Os}.
(** The keys that the parts fill in have their fixed size. *)
Definition part_keys_ok : Prop := forall l p addr, length (out_bytes (os_answer l (Via p (QueryMemoryKey addr)))) = Z.to_nat KEY_BYTES.
Definition half (key : bytes) : bytes := take (Z.to_nat HALF_KEY) key.
Lemma two_halves : Z.to_nat KEY_BYTES = (Z.to_nat HALF_KEY + Z.to_nat HALF_KEY)%nat.
Proof. by vm_compute. Qed.
Lemma length_half key : length key = Z.to_nat KEY_BYTES -> length (half key) = Z.to_nat HALF_KEY.
Proof. intros H. unfold half. rewrite length_take, H, two_halves. lia. Qed.
Lemma WriteDevice_halves i o : length i = Z.to_nat KEY_BYTES -> length o = Z.to_nat KEY_BYTES ->
  length (WriteDeviceRdmaMemoryKey i o) = Z.to_nat KEY_BYTES /\ half (WriteDeviceRdmaMemoryKey i o) = half i.
Proof.
  intros Hi Ho. unfold WriteDeviceRdmaMemoryKey. fold (half i). pose proof (length_half i Hi). pose proof two_halves. split.
  - rewrite length_app, length_drop. lia.
  - unfold half at 1. by rewrite take_app_length'.
Qed.
Lemma WriteHcom_halves i o : length i = Z.to_nat KEY_BYTES -> length o = Z.to_nat KEY_BYTES ->
  length (WriteHcomMemoryKey i o) = Z.to_nat KEY_BYTES /\ half (WriteHcomMemoryKey i o) = half o /\
  ReadHcomMemoryKey (WriteHcomMemoryKey i o) zero_key = half i ++ drop (Z.to_nat HALF_KEY) zero_key.
Proof.
  intros Hi Ho. unfold WriteHcomMemoryKey. fold (half i) (half o). pose proof (length_half i Hi). pose proof (length_half o Ho).
  pose proof two_halves. split_and!.
  - rewrite length_app. lia.
  - unfold half at 1. by rewrite take_app_length'.
  - unfold ReadHcomMemoryKey. rewrite drop_app_length' by done. by rewrite take_ge by lia.
Qed.
Lemma QueryMemoryKey_halves addr key (t : ComposeTr) w :
  part_keys_ok -> length key = Z.to_nat KEY_BYTES ->
  let '((q, k), (t', w')) := tr_QueryMemoryKey addr key (t, w) in
  t' = t /\ w_log w `prefix_of` w_log w' /\ length k = Z.to_nat KEY_BYTES /\
  (q = BM_OK -> hostTransportManager_ t = true ->
    exists a, (Via HostTransport (QueryMemoryKey addr), a) ∈ w_log w' /\ ReadHcomMemoryKey k zero_key = half (out_bytes a) ++ drop (Z.to_nat HALF_KEY) zero_key) /\
  (q = BM_OK -> deviceTransportManager_ t = true ->
    exists a, (Via DeviceTransport (QueryMemoryKey addr), a) ∈ w_log w' /\ half k = half (out_bytes a)).
Proof.
  intros Hk Hlen. destruct t as [dev host nic m rk pr cn].
  unfold tr_QueryMemoryKey, mbind, SM_bind, mret, SM_ret, gets, sys. cbn [fst snd id deviceTransportManager_ hostTransportManager_ w_log w_vm].
  destruct dev; cbn [fst snd w_log w_vm].
  - set (da := os_answer (w_log w) _). assert (Hd : length (out_bytes da) = Z.to_nat KEY_BYTES) by apply Hk.
    destruct (Z.eqb_spec (ret da) BM_OK) as [Er|Er]; cbn [fst snd].
    + rewrite Er. cbn [negb]. destruct (WriteDevice_halves (out_bytes da) key) as [L1 E1]; [done..|].
      destruct host; cbn [fst snd w_log w_vm].
      * set (ha := os_answer (w_log w ++ _) _). destruct (WriteHcom_halves (out_bytes ha) (WriteDeviceRdmaMemoryKey (out_bytes da) key)) as (L2 & E2 & E3); [apply Hk|done|].
        split; [done|]. split; [rewrite <- app_assoc; by apply prefix_app_r|]. split; [done|]. split; intros _ _; eexists; (split; [|by rewrite ?E2; eauto]); set_solver.
      * split; [done|]. split; [by apply prefix_app_r|]. split; [done|]. split; intros _ ?; [done|]. exists da. split; [set_solver|done].
    + cbn [negb fst snd w_log]. split_and!; try done. by apply prefix_app_r.
  - change (negb (BM_OK =? BM_OK)) with false. destruct host; cbn [fst snd w_log w_vm]; [|done].
    set (ha := os_answer _ _). destruct (WriteHcom_halves (out_bytes ha) key) as (L2 & E2 & E3); [apply Hk|done|].
    split; [done|]. split; [by apply prefix_app_r|]. split; [done|]. split; intros _ ?; [|done]. exists ha. split; [set_solver|done].
Qed.
End keys.

(** ** Operators *)
(** The operator that serves a type, for the options it was created with. *)
Definition operator_of (o : hybm_options) (op : Z) : option part :=
  if op =? HYBM_DOP_TYPE_SDMA then (if has (bmDataOpType o) HYBM_DOP_TYPE_SDMA then Some SdmaOperator else None) else
  if op =? HYBM_DOP_TYPE_DEVICE_RDMA then (if has (bmDataOpType o) HYBM_DOP_TYPE_DEVICE_RDMA then Some DevRdmaOperator else None) else
  if has (bmDataOpType o) HYBM_DOP_TYPE_HOST_SHM then Some HostShmOperator else
  if has (bmDataOpType o) host_flags then Some HostRdmaOperator else None.
Definition asked (call : call) (ops : list (Z * part)) (answers : list answer) : log := zip_with (fun o a => (Via o.2 call, a)) ops answers.
Definition failed (a : answer) : Prop := ret a <> BM_OK.

Section operators.
Context {OS : Os}.
Lemma init_operator_wp p set clear (Q : Z -> ComposeOp * World -> Prop) cw :
  (forall w, Q BM_OK (set cw.1, w)) -> (forall r cw', r <> BM_OK -> Q r cw') -> wp (init_operator p set clear) Q cw.
Proof.
  intros H1 H2. unfold init_operator. do 5 wp_step. cbn [fst snd]. destruct (Z.eqb_spec (ret a) BM_OK) as [E|E]; cbn [negb].
  - wp_step. wp_step. rewrite E. apply H1.
  - wp_step. wp_step. by apply H2.
Qed.
Lemma Initialize_operators o w : bmType o <> HYBM_TYPE_AI_CORE_INITIATE ->
  wp (op_Initialize o) (fun r cw => r = BM_OK -> sdmaDataOperator_ cw.1 = has (bmDataOpType o) HYBM_DOP_TYPE_SDMA /\
    devRdmaDataOperator_ cw.1 = has (bmDataOpType o) HYBM_DOP_TYPE_DEVICE_RDMA /\
    hostRdmaDataOperator_ cw.1 = operator_of o HYBM_DOP_TYPE_HOST_RDMA) (no_operators, w).
Proof.
  intros Ht. apply Z.eqb_neq in Ht. unfold op_Initialize. rewrite Ht.
  change (operator_of o HYBM_DOP_TYPE_HOST_RDMA) with (if has (bmDataOpType o) HYBM_DOP_TYPE_HOST_SHM then Some HostShmOperator else
    if has (bmDataOpType o) host_flags then Some HostRdmaOperator else None).
  assert (Hno : forall r (m : OM Z) (P : Z -> ComposeOp * World -> Prop) cw, r <> BM_OK ->
    wp (if negb (r =? BM_OK) then mret r else m) (fun r cw => r = BM_OK -> P r cw) cw).
  { intros r m P cw Hr. apply Z.eqb_neq in Hr as Hr'. rewrite Hr'. cbn [negb]. by wp_step. }
  repeat (first [wp_step | apply init_operator_wp; [intros ?|intros ? ? ?; try apply Hno; done] | progress (change (negb (BM_OK =? BM_OK)) with false; cbn iota)
    | match goal with |- wp (if has ?x ?y then _ else _) _ _ => destruct (has x y) end]; cbn [fst snd no_operators sdmaDataOperator_ devRdmaDataOperator_ hostRdmaDataOperator_]).
  all: done.
Qed.
Lemma operators_for tags s d o c op p :
  sdmaDataOperator_ c = has (bmDataOpType o) HYBM_DOP_TYPE_SDMA -> devRdmaDataOperator_ c = has (bmDataOpType o) HYBM_DOP_TYPE_DEVICE_RDMA ->
  hostRdmaDataOperator_ c = operator_of o HYBM_DOP_TYPE_HOST_RDMA ->
  (op, p) ∈ GetPrioritedDataOperators tags s d c <-> op ∈ priority /\ has (GetRank2RankOpType s d tags) op = true /\ operator_of o op = Some p.
Proof.
  intros E1 E2 E3.
  assert (Hop : forall op', op' ∈ priority -> (op, p) ∈ operator_for (GetRank2RankOpType s d tags) c op' <->
    op = op' /\ has (GetRank2RankOpType s d tags) op' = true /\ operator_of o op' = Some p).
  { intros op' Hin. unfold operator_for. destruct (has _ op'); cbn [negb]; [|split; [by intros ?%elem_of_nil|naive_solver]].
    rewrite E1, E2, E3. unfold operator_of. change (HYBM_DOP_TYPE_HOST_RDMA =? HYBM_DOP_TYPE_SDMA) with false.
    change (HYBM_DOP_TYPE_HOST_RDMA =? HYBM_DOP_TYPE_DEVICE_RDMA) with false. cbn iota.
    repeat case_match; rewrite ?list_elem_of_singleton, ?elem_of_nil; naive_solver. }
  unfold GetPrioritedDataOperators. rewrite list_elem_of_In, in_concat. split.
  - intros (l & Hl & Hx). apply list_elem_of_In, list_elem_of_fmap in Hl as (op' & -> & Hin). apply list_elem_of_In, Hop in Hx as (-> & ? & ?); done.
  - intros (Hin & H1 & H2). eexists. split; apply list_elem_of_In; [by apply list_elem_of_fmap_2|by apply Hop].
Qed.
Lemma try_operators_spec call ops result c w :
  let '(r, (c', w')) := try_operators call ops result (c, w) in
  c' = c /\ w_vm w' = w_vm w /\
  ((exists tried o rest fails a, ops = tried ++ o :: rest /\ length fails = length tried /\ Forall failed fails /\ ret a = BM_OK /\ r = BM_OK /\
      w_log w' = w_log w ++ asked call tried fails ++ [(Via o.2 call, a)]) \/
   (exists fails, length fails = length ops /\ Forall failed fails /\ w_log w' = w_log w ++ asked call ops fails /\
      r = default result (last (ret <$> fails)))).
Proof.
  revert result w. induction ops as [|o ops IH]; intros result w; cbn [try_operators].
  - split_and!; [done..|]. right. exists []. by rewrite app_nil_r.
  - unfold mbind, SM_bind, sys. cbn [fst snd w_log w_vm]. set (a := os_answer _ _). destruct (Z.eqb_spec (ret a) BM_OK) as [E|E].
    + cbn. split_and!; [done..|]. left. by exists [], o, ops, [], a.
    + specialize (IH (ret a) (mkWorld (w_vm w) (w_log w ++ [(Via o.2 call, a)]))). destruct (try_operators _ _ _ _) as [r [c' w']].
      destruct IH as (-> & Hv & H). split_and!; [done..|]. destruct H as [(tried & o' & rest & fails & a' & -> & L & F & Er & -> & Hl)|(fails & L & F & Hl & ->)].
      * left. exists (o :: tried), o', rest, (a :: fails), a'. split_and!; [done|cbn; lia|by constructor|done..|]. rewrite Hl. cbn [w_log]. by rewrite <- app_assoc.
      * right. exists (a :: fails). split_and!; [cbn; lia|by constructor|rewrite Hl; cbn [w_log]; by rewrite <- app_assoc|].
        destruct fails as [|b fails]; [done|]. rewrite !fmap_cons, last_cons_cons. destruct (last (ret b :: _)) eqn:El; [done|]. by apply last_None in El.
Qed.

(** What a successful call moved, with the ranks. *)
Definition moved (e : SegmentWorld.call * answer) : list (Z * Z * (Z * Z * Z)) :=
  match e with (Via _ (GroupCopy _ s d l), a) => if ret a =? BM_OK then (fun x => (s, d, x)) <$> l else [] | _ => [] end.
(** A group goes to the operator preferred for its ranks. *)
Definition preferred tags c (direction : Z) (e : SegmentWorld.call * answer) : Prop :=
  exists op p s d l, e.1 = Via p (GroupCopy direction s d l) /\ ret e.2 = BM_OK /\ head (GetPrioritedDataOperators tags s d c) = Some (op, p).
Lemma copy_groups_moved tags copies direction groups c w :
  let '(r, (c', w')) := copy_groups tags copies direction groups (c, w) in
  exists l, w_log w' = w_log w ++ l /\ (r = BM_OK -> Forall (preferred tags c direction) l /\
    concat (moved <$> l) = concat ((fun g : Z * Z * list Z => (fun x => (g.1, x)) <$> copies_at copies g.2) <$> groups)).
Proof.
  revert w. induction groups as [|[[s d] idx] groups IH]; intros w; cbn [copy_groups].
  { exists []. by rewrite app_nil_r. }
  unfold mbind, SM_bind, sys, gets. cbn [fst snd w_log w_vm]. destruct (GetPrioritedDataOperators tags s d c) as [|[op p] ops] eqn:Eo.
  { exists []. by rewrite app_nil_r. }
  cbn [snd]. set (a := os_answer _ _). destruct (Z.eqb_spec (ret a) BM_OK) as [E|E]; cbn [negb].
  - set (w1 := mkWorld _ _). specialize (IH w1). destruct (copy_groups _ _ _ _ _) as [r [c' w']]. destruct IH as (l & Hl & H).
    eexists ((_, a) :: l). split; [rewrite Hl; subst w1; cbn [w_log]; by rewrite <- app_assoc|]. intros Hr. destruct (H Hr) as [H1 H2]. split.
    + constructor; [|done]. exists op, p, s, d, (copies_at copies idx). by rewrite Eo.
    + rewrite !fmap_cons. cbn [concat fst snd]. rewrite H2. f_equal. unfold moved. by rewrite E.
  - eexists. split; [done|]. done.
Qed.
End operators.
