(* ===== verification/LruTheorems.v ===== *)
(** * What the LRU operator guarantees

    The theorems about [AccOffloadLruCompact] and its kernels, stated on the device
    arrays, each with an instance on a concrete state. *)
From Stdlib Require Import String.
From S2P Require Import Prelude Simt LruSpec LruInvariant WarpScan LruGeneric LruGenericProof.
From S2P Require Import LruFusedV3 LruFusedV3Proof LruFusedV3Refine LruLegacy Launch.

(** A launch that may be planned: a supported shape, arrays that fit it, a usable mark
    workspace and well-formed rows. *)
Definition compact_ready (N K cap T : Z) (s : V3St) : Prop :=
  (IsCompactV3Shape N K cap T = true \/ CanUseProductionPhasedLru N K cap T = true) /\
  launch_fits N K cap T s /\
  (IsCompactV3Shape N K cap T = false -> epochs_ok T (v_gm s)) /\
  (forall row, 0 <= row < N -> row_wf cap T (row_in_of row K cap (v_gm s))).

(** The arrays of a row, as the host sees them. *)
Definition topk_at (K row i : Z) (s : V3St) : Z := val TOPK_INDICES (row * K + i) (v_gm s).
Definition current_slot (K row i : Z) (s : V3St) : Z := val CURRENT_SLOTS (row * K + i) (v_gm s).
Definition slot_token (cap row slot : Z) (s : V3St) : Z := val SLOT_TO_TOKEN (row * cap + slot) (v_gm s).
Definition miss_token (K row k : Z) (s : V3St) : Z := val MISS_TOKENS (row * K + k) (v_gm s).
Definition miss_slot (K row k : Z) (s : V3St) : Z := val MISS_SLOTS (row * K + k) (v_gm s).
Definition miss_count (row : Z) (s : V3St) : Z := val MISS_COUNT row (v_gm s).
(** The tokens of the speculative suffix start here. *)
Definition stable_prefix (T row : Z) (s : V3St) : Z := clamp_prefix T (val STABLE_PREFIX_LENS row (v_gm s)).
(** The token a slot still holds when the plan starts: nothing after a change of request,
    nothing of the suffix. *)
Definition kept_token (K cap T row slot : Z) (s : V3St) : Z :=
  (start_s2t cap T (row_in_of row K cap (v_gm s))).[slot].

Section launch.
Context {Sch : Scheduler} {I : Intrinsics} (clock : Z -> Z -> Z) (profile : option string).

Lemma row_wf_inj cap T r : row_wf cap T r -> lru_inj cap (start_lru cap r).
Proof. intros Hwf. apply (lru_perm_inj cap [] []); [apply Hwf|by apply (start_lru_perm cap T)]. Qed.

(** All guarantees follow from the refinement of [compact] by the dispatcher. *)
Lemma compact_ready_wp N K cap T s (Q : V3St -> Prop) :
  compact_ready N K cap T s ->
  (forall s', launch_fits N K cap T s' ->
     (forall row, 0 <= row < N ->
        row_out_of row K cap (v_gm s') = compact cap T (row_in_of row K cap (v_gm s))) -> Q s') ->
  wp (AccOffloadLruCompact clock profile N K cap T) (fun _ => Q) s.
Proof.
  intros (Hs & Hf & He & Hwf) HQ. eapply wp_mono.
  - apply AccOffloadLruCompact_spec; [done|done|done|]. intros row Hr. eapply row_wf_inj. by apply Hwf.
  - cbv beta. intros _ s' [[Hf' _] Hout]. by apply HQ.
Qed.

Lemma ready_shape N K cap T s : compact_ready N K cap T s -> 0 < K /\ 0 < cap.
Proof. intros ([H|H] & _); unfold IsCompactV3Shape, CanUseProductionPhasedLru in H; lia. Qed.

Lemma length_row_topk row K cap s : 0 < K -> Z.of_nat (length (ri_topk (row_in_of row K cap s))) = K.
Proof. intros. simpl. rewrite length_slice. lia. Qed.

Lemma row_topk_at row K cap s i : 0 <= i < K -> (ri_topk (row_in_of row K cap (v_gm s))).[i] = topk_at K row i s.
Proof. intros Hi. simpl. by rewrite slice_at. Qed.

(** Reading the outputs of a row off the arrays. *)
Lemma row_outputs row K cap s o :
  row_out_of row K cap (v_gm s) = o ->
  miss_count row s = ro_count o /\
  (forall i, 0 <= i < K -> current_slot K row i s = (ro_cur o).[i] /\
     miss_token K row i s = (ro_mtok o).[i] /\ miss_slot K row i s = (ro_mslot o).[i]) /\
  (forall slot, 0 <= slot < cap -> slot_token cap row slot s = (ro_s2t o).[slot]).
Proof.
  intros <-. split; [done|]. split; intros i Hi; simpl; rewrite ?slice_at by done; done.
Qed.

(** C3. On every shape that is dispatched to the fused V3 kernel or to the phased
    kernels, one call of the operator leaves in the arrays of every row exactly what the
    reference plan [compact] computes from the row before the call: resident table, LRU
    order, slot of each Top-K position, miss list, request id.  The result does not
    depend on the order in which threads run, on the cycle counter or on profiling. *)
Theorem lru_compact_refines N K cap T s :
  compact_ready N K cap T s ->
  wp (AccOffloadLruCompact clock profile N K cap T) (fun _ s' =>
    forall row, 0 <= row < N ->
      row_out_of row K cap (v_gm s') = compact cap T (row_in_of row K cap (v_gm s))) s.
Proof. intros Hr. by apply compact_ready_wp. Qed.

(** C6. When Top-K is not larger than the cache, every valid requested token is served:
    its position gets a slot of the cache, and the new table maps that slot to the
    token.  Positions with an invalid token get -1. *)
Theorem lru_topk_served N K cap T s :
  compact_ready N K cap T s -> K <= cap ->
  wp (AccOffloadLruCompact clock profile N K cap T) (fun _ s' =>
    forall row i, 0 <= row < N -> 0 <= i < K ->
      let slot := current_slot K row i s' in
      if valid_tok T (topk_at K row i s)
      then 0 <= slot < cap /\ slot_token cap row slot s' = topk_at K row i s
      else slot = -1) s.
Proof.
  intros Hr HK. destruct (ready_shape _ _ _ _ _ Hr) as [HK0 _]. apply compact_ready_wp; [done|].
  intros s' _ Hout row i Hrow Hi slot. destruct Hr as (_ & _ & _ & Hwf). specialize (Hwf row Hrow).
  destruct (row_outputs row K cap s' _ (Hout row Hrow)) as (_ & HO & HS).
  pose proof (length_row_topk row K cap (v_gm s) HK0) as Hl. unfold slot.
  destruct (HO i Hi) as (-> & _). rewrite <- (row_topk_at row K cap s i Hi). destruct (valid_tok _ _) eqn:Ev.
  - destruct (compact_resolves cap T _ Hwf i ltac:(lia) ltac:(lia) Ev) as [Hc <-].
    split; [done|]. by apply HS.
  - apply (compact_invalid_pos cap T _ Hwf); [lia|done].
Qed.

(** C7. The state survives the call: when no row asks for the same token twice, after
    the call the LRU order of every row is again a permutation of its slots and no token
    is resident twice, whatever the next request of the row is. *)
Theorem lru_rows_stay_well_formed N K cap T s :
  compact_ready N K cap T s ->
  (forall row, 0 <= row < N -> topk_distinct T (ri_topk (row_in_of row K cap (v_gm s)))) ->
  wp (AccOffloadLruCompact clock profile N K cap T) (fun _ s' =>
    forall row, 0 <= row < N -> row_wf cap T (row_in_of row K cap (v_gm s'))) s.
Proof.
  intros Hr Hd. apply compact_ready_wp; [done|]. intros s' _ Hout row Hrow.
  destruct Hr as (_ & _ & _ & Hwf).
  pose proof (next_row_wf cap T _ (Hwf row Hrow) 0 0 [] (Hd row Hrow)) as Hn.
  rewrite <- (Hout row Hrow) in Hn. exact Hn.
Qed.

(** C8. The published miss list is exact.  Its entries name distinct slots and tokens
    of the request, the new table maps each slot to its token, and every other slot
    keeps what it held at the start of the plan. *)
Theorem lru_miss_list_exact N K cap T s :
  compact_ready N K cap T s ->
  wp (AccOffloadLruCompact clock profile N K cap T) (fun _ s' =>
    forall row, 0 <= row < N ->
      (forall k, 0 <= k < miss_count row s' -> k < K /\ 0 <= miss_slot K row k s' < cap /\
         slot_token cap row (miss_slot K row k s') s' = miss_token K row k s' /\
         exists i, 0 <= i < K /\ miss_token K row k s' = topk_at K row i s) /\
      (forall k k', 0 <= k < miss_count row s' -> 0 <= k' < miss_count row s' ->
         miss_slot K row k s' = miss_slot K row k' s' -> k = k') /\
      (forall slot, 0 <= slot < cap ->
         (forall k, 0 <= k < miss_count row s' -> miss_slot K row k s' <> slot) ->
         slot_token cap row slot s' = kept_token K cap T row slot s)) s.
Proof.
  intros Hr. destruct (ready_shape _ _ _ _ _ Hr) as [HK0 _]. apply compact_ready_wp; [done|].
  intros s' _ Hout row Hrow. destruct Hr as (_ & _ & _ & Hwf). specialize (Hwf row Hrow).
  destruct (row_outputs row K cap s' _ (Hout row Hrow)) as (HC & HO & HS). rewrite HC.
  pose proof (length_row_topk row K cap (v_gm s) HK0) as Hl.
  assert (Hk : forall k, 0 <= k < ro_count (compact cap T (row_in_of row K cap (v_gm s))) -> 0 <= k < K).
  { intros k Hk. destruct (compact_miss_entry cap T _ Hwf k Hk). lia. }
  split_and!.
  - intros k Hk0. destruct (HO k (Hk k Hk0)) as (_ & -> & ->).
    destruct (compact_miss_entry cap T _ Hwf k Hk0) as (_ & Hs & _ & E). rewrite HS, E by done.
    destruct (compact_miss_requested cap T _ Hwf k Hk0) as (i & Hi & Ei). rewrite Hl in Hi.
    split_and!; [by apply Hk|lia|lia|done|]. exists i. by rewrite <- (row_topk_at row K cap s i Hi).
  - intros k k' Hk1 Hk2. destruct (HO k (Hk k Hk1)) as (_ & _ & ->). destruct (HO k' (Hk k' Hk2)) as (_ & _ & ->).
    by apply (compact_miss_slots_inj cap T _ Hwf).
  - intros slot Hs Hno. rewrite HS by done.
    destruct (compact_slot_cases cap T _ Hwf slot Hs) as [(k & Hk0 & E & _)|E]; [|done].
    destruct (HO k (Hk k Hk0)) as (_ & _ & E2). exfalso. apply (Hno k Hk0). congruence.
Qed.

(** C9. A token of the speculative suffix, whose host copy may have been rewritten, is
    never served from the old contents of the cache: a position that asks for one and
    gets a slot is in the miss list with that slot. *)
Theorem lru_suffix_refetched N K cap T s :
  compact_ready N K cap T s ->
  wp (AccOffloadLruCompact clock profile N K cap T) (fun _ s' =>
    forall row i, 0 <= row < N -> 0 <= i < K ->
      stable_prefix T row s <= topk_at K row i s -> 0 <= current_slot K row i s' ->
      exists k, 0 <= k < miss_count row s' /\ miss_slot K row k s' = current_slot K row i s' /\
                miss_token K row k s' = topk_at K row i s) s.
Proof.
  intros Hr. destruct (ready_shape _ _ _ _ _ Hr) as [HK0 _]. apply compact_ready_wp; [done|].
  intros s' _ Hout row i Hrow Hi Hp Hc. destruct Hr as (_ & _ & _ & Hwf). specialize (Hwf row Hrow).
  destruct (row_outputs row K cap s' _ (Hout row Hrow)) as (HC & HO & _). rewrite HC.
  pose proof (length_row_topk row K cap (v_gm s) HK0) as Hl.
  destruct (HO i Hi) as (Ec & _). rewrite Ec in Hc |- *. rewrite <- (row_topk_at row K cap s i Hi) in Hp |- *.
  destruct (compact_suffix_missed cap T _ Hwf i ltac:(lia) Hp Hc) as (k & Hk & E1 & E2).
  destruct (compact_miss_entry cap T _ Hwf k Hk) as (Hkl & _). rewrite Hl in Hkl.
  destruct (HO k ltac:(lia)) as (_ & Et & Es). exists k. by rewrite Et, Es.
Qed.

(** The new order is least recently used first: it is the slots no position uses, in
    their old order, followed by the slots the request uses. *)
Theorem lru_order_by_recency N K cap T s :
  compact_ready N K cap T s ->
  wp (AccOffloadLruCompact clock profile N K cap T) (fun _ s' =>
    forall row, 0 <= row < N -> exists old recent,
      slice LRU_SLOTS (row * cap) cap (v_gm s') = old ++ recent /\
      old `sublist_of` start_lru cap (row_in_of row K cap (v_gm s)) /\
      (forall slot, slot ∈ old -> forall i, 0 <= i < K -> current_slot K row i s' <> slot) /\
      (forall i, 0 <= i < K -> 0 <= current_slot K row i s' -> current_slot K row i s' ∈ recent)) s.
Proof.
  intros Hr. destruct (ready_shape _ _ _ _ _ Hr) as [HK0 _]. apply compact_ready_wp; [done|].
  intros s' _ Hout row Hrow. destruct Hr as (_ & _ & _ & Hwf). specialize (Hwf row Hrow).
  destruct (row_outputs row K cap s' _ (Hout row Hrow)) as (_ & HO & _).
  pose proof (length_row_topk row K cap (v_gm s) HK0) as Hl.
  destruct (compact_recency cap T _ Hwf) as (old & recent & E & Hsub & H1 & H2). rewrite Hl in H1, H2.
  exists old, recent. split_and!; [|done|..].
  - rewrite <- E, <- (Hout row Hrow). done.
  - intros slot Hs i Hi. destruct (HO i Hi) as (-> & _). by apply H1.
  - intros i Hi. destruct (HO i Hi) as (-> & _). by apply H2.
Qed.
End launch.

(** ** Concrete launches *)
Definition blank (n : Z) : list Z := replicate (Z.to_nat n) 0.
Definition blank_ub : UB :=
  mkUB (blank (ub_size U_TOPK)) (blank (ub_size U_SLOT_TO_TOKEN)) (blank (ub_size U_LRU_SLOTS))
    (blank (ub_size U_CURRENT_SLOTS)) (blank (ub_size U_MISS_TOKENS)) (blank (ub_size U_TOKEN_MARK))
    (blank (ub_size U_TOKEN_POS)) (blank (ub_size U_MISS_SLOTS)) (blank (ub_size U_SCAN_EVICT_A))
    (blank (ub_size U_SCAN_EVICT_B)) (blank (ub_size U_SCAN_HIT_A)) (blank (ub_size U_SCAN_HIT_B))
    (blank (ub_size U_CONTROL)).

(** A small row: four slots, two Top-K positions, token 5 resident in slot 0. *)
Definition demo_gm : GM :=
  mkGM [7] [7] [5; 3] [6] [5; -1; 2; -1] [1; 3; 0; 2] (blank 2) (blank 1) (blank 2) (blank 2)
    (blank 64) (blank 64) (blank 8).
Definition demo : V3St := mkV3 demo_gm blank_ub.

(** A row of the production shape whose request has just changed; the mark workspace
    still holds marks of an earlier generic call. *)
Definition demo_v3_gm : GM :=
  mkGM [9] [8] (seqZ 0 2048) [4096] (replicate (Z.to_nat 4096) (-1)) (seqZ 0 4096) (blank 2048) (blank 1)
    (blank 2048) (blank 2048) (replicate (Z.to_nat 32768) (-5)) (blank 32768) (blank 8).
Definition demo_v3 : V3St := mkV3 demo_v3_gm blank_ub.

Lemma blank_ub_fits g : ub_fits (mkV3 g blank_ub).
Proof. by intros []; vm_compute. Qed.

Lemma blank_epochs_ok T g : g_epochs g = blank 8 -> epochs_ok T g.
Proof.
  intros E ws Hw. left. unfold val. simpl. rewrite E. unfold blank, LRU_COMPACT_WORKSPACE_THREADS in *.
  rewrite at_replicate by lia. lia.
Qed.

Lemma demo_row_wf : row_wf 4 8 (row_in_of 0 2 4 demo_gm).
Proof.
  split_and!; [lia|done| |].
  - apply NoDup_Permutation; [|apply NoDup_seqZ|].
    + apply (bool_decide_unpack _). by vm_compute.
    + intros x. rewrite elem_of_seqZ. vm_compute (ri_lru _). rewrite !elem_of_cons, elem_of_nil. lia.
  - intros s1 s2 H1 H2. assert (Hs : s1 = 0 \/ s1 = 1 \/ s1 = 2 \/ s1 = 3) by lia.
    assert (Ht : s2 = 0 \/ s2 = 1 \/ s2 = 2 \/ s2 = 3) by lia.
    destruct Hs as [->|[->|[->| ->]]], Ht as [->|[->|[->| ->]]]; vm_compute; congruence.
Qed.

Lemma demo_ready : compact_ready 1 2 4 8 demo.
Proof.
  split_and!; [by right| |intros _; by apply blank_epochs_ok|].
  - split; [|apply blank_ub_fits]. unfold batch_fits. split_and!; by vm_compute.
  - intros row Hr. assert (row = 0) as -> by lia. exact demo_row_wf.
Qed.

Lemma demo_topk_distinct row : 0 <= row < 1 -> topk_distinct 8 (ri_topk (row_in_of row 2 4 demo_gm)).
Proof.
  intros Hr. assert (row = 0) as -> by lia. intros p q Hp Hq.
  change (Z.of_nat (length (ri_topk (row_in_of 0 2 4 demo_gm)))) with 2 in *.
  assert (Hs : p = 0 \/ p = 1) by lia. assert (Ht : q = 0 \/ q = 1) by lia.
  destruct Hs as [->| ->], Ht as [->| ->]; vm_compute; congruence.
Qed.

Lemma lru_compact_refines_witness :
  wp (@AccOffloadLruCompact in_order ref_intrinsics (fun _ _ => 0) None 1 2 4 8) (fun _ s' =>
    forall row, 0 <= row < 1 ->
      row_out_of row 2 4 (v_gm s') = compact 4 8 (row_in_of row 2 4 (v_gm demo))) demo.
Proof. apply lru_compact_refines. exact demo_ready. Defined.

Lemma lru_topk_served_witness :
  wp (@AccOffloadLruCompact reversed ref_intrinsics (fun _ _ => 0) None 1 2 4 8) (fun _ s' =>
    forall row i, 0 <= row < 1 -> 0 <= i < 2 ->
      let slot := current_slot 2 row i s' in
      if valid_tok 8 (topk_at 2 row i demo)
      then 0 <= slot < 4 /\ slot_token 4 row slot s' = topk_at 2 row i demo
      else slot = -1) demo.
Proof. apply (@lru_topk_served reversed ref_intrinsics); [exact demo_ready|lia]. Defined.

Lemma lru_rows_stay_well_formed_witness :
  wp (@AccOffloadLruCompact in_order ref_intrinsics (fun _ _ => 0) None 1 2 4 8) (fun _ s' =>
    forall row, 0 <= row < 1 -> row_wf 4 8 (row_in_of row 2 4 (v_gm s'))) demo.
Proof. apply (@lru_rows_stay_well_formed in_order ref_intrinsics); [exact demo_ready|exact demo_topk_distinct]. Defined.

Lemma lru_miss_list_exact_witness :
  compact_ready 1 2 4 8 demo /\
  wp (@AccOffloadLruCompact in_order ref_intrinsics (fun _ _ => 0) None 1 2 4 8) (fun _ s' =>
    forall row, 0 <= row < 1 -> forall k, 0 <= k < miss_count row s' -> k < 2) demo.
Proof.
  split; [exact demo_ready|].
  eapply wp_mono; [apply (@lru_miss_list_exact in_order ref_intrinsics _ None 1 2 4 8 demo demo_ready)|].
  cbv beta. intros _ s' H row Hr k Hk. by apply (H row Hr).
Defined.

(** The same row with a stable prefix of 4: token 5 is resident in slot 0 but beyond it. *)
Definition demo_suffix : V3St :=
  mkV3 (mkGM [7] [7] [5; 3] [4] [5; -1; 2; -1] [1; 3; 0; 2] (blank 2) (blank 1) (blank 2) (blank 2) (blank 64) (blank 64) (blank 8)) blank_ub.
Lemma demo_suffix_ready : compact_ready 1 2 4 8 demo_suffix.
Proof.
  split_and!; [by right| |intros _; by apply blank_epochs_ok|].
  - split; [|apply blank_ub_fits]. unfold batch_fits. split_and!; by vm_compute.
  - intros row Hr. assert (row = 0) as -> by lia. exact demo_row_wf.
Qed.
Lemma lru_suffix_refetched_witness :
  stable_prefix 8 0 demo_suffix <= topk_at 2 0 0 demo_suffix /\ slot_token 4 0 0 demo_suffix = topk_at 2 0 0 demo_suffix /\
  wp (@AccOffloadLruCompact in_order ref_intrinsics (fun _ _ => 0) None 1 2 4 8) (fun _ s' =>
    0 <= current_slot 2 0 0 s' /\
    exists k, 0 <= k < miss_count 0 s' /\ miss_slot 2 0 k s' = current_slot 2 0 0 s' /\ miss_token 2 0 k s' = 5) demo_suffix.
Proof.
  assert (F : stable_prefix 8 0 demo_suffix <= topk_at 2 0 0 demo_suffix) by (vm_compute; discriminate).
  split; [exact F|]. split; [vm_compute; reflexivity|].
  pose proof (@lru_suffix_refetched in_order ref_intrinsics (fun _ _ => 0) None 1 2 4 8 demo_suffix demo_suffix_ready) as H.
  assert (S : wp (@AccOffloadLruCompact in_order ref_intrinsics (fun _ _ => 0) None 1 2 4 8) (fun _ s' => 0 <= current_slot 2 0 0 s') demo_suffix)
    by (vm_compute; discriminate).
  unfold wp in *. destruct (AccOffloadLruCompact _ _ _ _ _ _ _) as [[a s']|]; [|destruct H].
  split; [exact S|]. exact (H 0 0 ltac:(lia) ltac:(lia) F S).
Defined.

Lemma lru_order_by_recency_witness :
  compact_ready 1 2 4 8 demo /\
  wp (@AccOffloadLruCompact in_order ref_intrinsics (fun _ _ => 0) None 1 2 4 8) (fun _ s' =>
    forall row, 0 <= row < 1 -> exists old recent,
      slice LRU_SLOTS (row * 4) 4 (v_gm s') = old ++ recent /\
      old `sublist_of` start_lru 4 (row_in_of row 2 4 (v_gm demo)) /\
      (forall slot, slot ∈ old -> forall i, 0 <= i < 2 -> current_slot 2 row i s' <> slot) /\
      (forall i, 0 <= i < 2 -> 0 <= current_slot 2 row i s' -> current_slot 2 row i s' ∈ recent)) demo.
Proof. split; [exact demo_ready|]. apply (@lru_order_by_recency in_order ref_intrinsics). exact demo_ready. Defined.

(** ** The kernels *)
Section kernels.
Context {Sch : Scheduler} {I : Intrinsics}.

(** The state a V3 launch of [row] starts from. *)
Definition v3_ready (row : Z) (s : V3St) : Prop :=
  0 <= row /\ launch_fits (row + 1) LRU_FUSED_V3_TOPK LRU_FUSED_V3_CAPACITY LRU_FUSED_V3_MAX_TOKEN s /\
  row_wf LRU_FUSED_V3_CAPACITY LRU_FUSED_V3_MAX_TOKEN
    (row_in_of row LRU_FUSED_V3_TOPK LRU_FUSED_V3_CAPACITY (v_gm s)).

Lemma v3_ready_row clock en row s :
  v3_ready row s ->
  let ws := row mod LRU_FUSED_V3_WORKSPACE_THREADS in
  wp (LaunchFusedV3 clock row LRU_FUSED_V3_TOPK LRU_FUSED_V3_CAPACITY LRU_FUSED_V3_MAX_TOKEN en) (fun _ s' =>
    writes_only (v3_cells row ws (ws * (LRU_FUSED_V3_MAX_TOKEN / 2))) s s' /\
    row_out_of row LRU_FUSED_V3_TOPK LRU_FUSED_V3_CAPACITY (v_gm s') =
      compact LRU_FUSED_V3_CAPACITY LRU_FUSED_V3_MAX_TOKEN
        (row_in_of row LRU_FUSED_V3_TOPK LRU_FUSED_V3_CAPACITY (v_gm s)) /\
    val (G EPOCHS) ws s' = LRU_FUSED_V3_EPOCH) s.
Proof.
  intros (Hr & Hf & Hwf). apply (launch_v3_row (fun _ => clock) (row + 1)); [|done|lia|by eapply row_wf_inj].
  unfold IsCompactV3Shape. change LRU_FUSED_V3_TOPK with 2048. change LRU_FUSED_V3_CAPACITY with 4096.
  change LRU_FUSED_V3_MAX_TOKEN with 4096. lia.
Qed.

(** C4. One launch of the fused V3 kernel (1024 threads, warp collectives, everything in
    the unified buffer) computes the reference plan of its row, and in device memory it
    writes only the row's own cells and the row's slice of the workspaces. *)
Theorem fused_v3_refines clock en row s :
  v3_ready row s ->
  let ws := row mod LRU_FUSED_V3_WORKSPACE_THREADS in
  wp (LaunchFusedV3 clock row LRU_FUSED_V3_TOPK LRU_FUSED_V3_CAPACITY LRU_FUSED_V3_MAX_TOKEN en) (fun _ s' =>
    row_out_of row LRU_FUSED_V3_TOPK LRU_FUSED_V3_CAPACITY (v_gm s') =
      compact LRU_FUSED_V3_CAPACITY LRU_FUSED_V3_MAX_TOKEN
        (row_in_of row LRU_FUSED_V3_TOPK LRU_FUSED_V3_CAPACITY (v_gm s)) /\
    writes_only (row_cells row LRU_FUSED_V3_TOPK LRU_FUSED_V3_CAPACITY LRU_FUSED_V3_MAX_TOKEN ws)
      (v_gm s) (v_gm s')) s.
Proof.
  intros Hr ws. eapply wp_mono; [by apply v3_ready_row|]. cbv beta. intros _ s' (HW & Hout & _).
  split; [done|by apply v3_cells_gm].
Qed.

(** The phased kernels compute the reference plan for every row of a batch, and they
    leave the mark workspace usable, so the same workspace serves the next call. *)
Theorem phased_batch_refines N K cap T s :
  CanUseProductionPhasedLru N K cap T = true -> batch_fits N K cap T s -> epochs_ok T s ->
  (forall row, 0 <= row < N -> lru_inj cap (start_lru cap (row_in_of row K cap s))) ->
  wp (LaunchProductionPhasedLru N K cap T) (fun _ s' =>
    (forall row, 0 <= row < N ->
       row_out_of row K cap s' = compact cap T (row_in_of row K cap s)) /\ epochs_ok T s') s.
Proof.
  intros. eapply wp_mono; [by apply launch_phased_spec|]. cbv beta. intros _ s' (? & _ & ?). done.
Qed.

(** C5. Fused V3 and the phased kernels agree: from the same row of the production
    shape both leave the same table, order, current slots and miss list. *)
Theorem v3_equals_phased clock en row s :
  v3_ready row s -> epoch_ok LRU_FUSED_V3_MAX_TOKEN (row mod LRU_COMPACT_WORKSPACE_THREADS) (v_gm s) ->
  wp (LaunchFusedV3 clock row LRU_FUSED_V3_TOPK LRU_FUSED_V3_CAPACITY LRU_FUSED_V3_MAX_TOKEN en) (fun _ s1 =>
    wp (phased_row row LRU_FUSED_V3_TOPK LRU_FUSED_V3_CAPACITY LRU_FUSED_V3_MAX_TOKEN) (fun _ g2 =>
      row_out_of row LRU_FUSED_V3_TOPK LRU_FUSED_V3_CAPACITY (v_gm s1) =
      row_out_of row LRU_FUSED_V3_TOPK LRU_FUSED_V3_CAPACITY g2) (v_gm s)) s.
Proof.
  intros Hr He. eapply wp_mono; [by apply v3_ready_row|]. cbv beta. intros _ s1 (_ & -> & _).
  destruct Hr as (Hr & [Hf _] & Hwf). eapply wp_mono.
  - apply phased_row_spec; [|done|by eapply row_wf_inj].
    unfold row_fits, batch_fits, LRU_COMPACT_WORKSPACE_THREADS in *.
    pose proof (Z.mod_pos_bound row 8 ltac:(lia)). change LRU_FUSED_V3_TOPK with 2048 in *.
    change LRU_FUSED_V3_CAPACITY with 4096 in *. change LRU_FUSED_V3_MAX_TOKEN with 4096 in *.
    unfold INT32_MAX. lia.
  - cbv beta. intros _ g2 (Hout & _). done.
Qed.

(** The block-wide scan pair: after it, thread [t]'s result cells hold the number of
    flags of the threads up to and including [t], for both flag vectors, on any
    implementation of the shuffles that meets their documentation. *)
Theorem block_scan_prefix_sums tag (evictFlag hitFlag : list Z) s :
  ub_fits s ->
  wp (StableScanPair1024 tag evictFlag hitFlag) (fun _ s' =>
    forall t, 0 <= t < LRU_FUSED_V3_THREADS ->
      val (U U_SCAN_EVICT_A) t s' = psum (fun i => evictFlag.[i]) (t + 1) /\
      val (U U_SCAN_HIT_A) t s' = psum (fun i => hitFlag.[i]) (t + 1)) s.
Proof.
  intros Hf. eapply wp_mono; [by apply StableScanPair1024_spec|]. cbv beta. intros _ s' [_ H]. exact H.
Qed.

(** [BlockAny1024] answers the same to all threads: non-zero exactly when some
    thread's predicate is non-zero. *)
Theorem block_any_correct tag (predicate : list Z) s :
  ub_fits s ->
  wp (BlockAny1024 tag predicate) (fun v _ =>
    v <> 0 <-> exists t, 0 <= t < LRU_FUSED_V3_THREADS /\ predicate.[t] <> 0) s.
Proof.
  intros Hf. eapply wp_mono; [by apply BlockAny1024_spec|]. cbv beta. intros v s' [_ H]. exact H.
Qed.

(** States that the generic kernels reach: from a workspace whose epoch cells are zero, with
    any marks, by the five kernels of one row after the other, for rows of any shape over the
    same number of tokens, and by whatever leaves the epochs and the marks alone (the host
    writing the next requests, the kernels of a row before its plan). *)
Inductive phased_reach (T : Z) : GM -> Prop :=
  | reach_zeroed s : (forall ws, 0 <= ws < LRU_COMPACT_WORKSPACE_THREADS -> val EPOCHS ws s = 0) -> phased_reach T s
  | reach_other s s' : phased_reach T s -> (forall j, val EPOCHS j s' = val EPOCHS j s) ->
      (forall j, val TOKEN_MARK j s' = val TOKEN_MARK j s) -> phased_reach T s'
  | reach_row s row K cap s' : phased_reach T s -> row_fits row K cap T (row mod LRU_COMPACT_WORKSPACE_THREADS) s ->
      lru_inj cap (start_lru cap (row_in_of row K cap s)) -> phased_row row K cap T s = Some (tt, s') -> phased_reach T s'.
Lemma phased_reach_epochs T s : phased_reach T s -> epochs_ok T s.
Proof.
  induction 1 as [s Hz|s s' _ IH He Hm|s row K cap s' _ IH Hf Hinj Hrun]; intros ws Hw.
  - left. rewrite Hz by done. lia.
  - specialize (IH ws Hw). unfold epoch_ok in *. rewrite He. destruct IH as [?|[?|IH]]; [by left|by right; left|right; right].
    intros t Ht. rewrite Hm. by apply IH.
  - assert (Hr : 0 <= row mod LRU_COMPACT_WORKSPACE_THREADS < LRU_COMPACT_WORKSPACE_THREADS) by (by apply Z.mod_pos_bound).
    pose proof (phased_row_spec row K cap T s Hf (IH _ Hr) Hinj) as Hs. unfold wp in Hs. rewrite Hrun in Hs. destruct Hs as (_ & HW & Hok).
    destruct (decide (ws = row mod LRU_COMPACT_WORKSPACE_THREADS)) as [->|Hne]; [done|].
    eapply epoch_ok_frame; [unfold row_fits in Hf; lia|lia|done|exact HW|by apply IH].
Qed.

(** C30. Over any sequence of rows that the generic kernels handle, starting from zeroed epoch
    cells, the epoch step of the plan kernel leaves an epoch between -2^30 and -2, so that the
    decrement cannot overflow, and one that differs from every mark of the row's slice, so
    that no mark of an earlier call is taken for a mark of this one.  Launches of the fused V3
    kernel in between are not covered: it breaks this, see below. *)
Theorem epoch_never_stale row K cap T s :
  let ws := row mod LRU_COMPACT_WORKSPACE_THREADS in
  phased_reach T s -> row_fits row K cap T ws s ->
  wp (plan_epoch (ws * T) (ws * T) ws T) (fun e s' =>
    - LRU_EPOCH_RESET_THRESHOLD < e <= -2 /\ val EPOCHS ws s' = e /\
    forall t, 0 <= t < T -> val TOKEN_MARK (ws * T + t) s' <> e) s.
Proof.
  intros ws Hreach Hf. assert (Hw : 0 <= ws < LRU_COMPACT_WORKSPACE_THREADS) by (by apply Z.mod_pos_bound).
  eapply wp_mono; [eapply plan_epoch_spec; [exact Hf|by apply phased_reach_epochs]|]. cbv beta. intros e s' (_ & Hr & Hv & Hm).
  split_and!; [lia|lia|done|]. intros t Ht. specialize (Hm t Ht). lia.
Qed.

(** The V3 launch breaks the contract of the generic kernels' workspace: it publishes
    epoch -2 without clearing the marks, so a mark below -2 that an earlier generic call
    left outlives it and the generic kernel would no longer reset the slice. *)
Theorem v3_epoch_leaves_stale_marks clock en row t s :
  v3_ready row s -> 2 * V3_PROFILE_STAMPS <= t < LRU_FUSED_V3_MAX_TOKEN ->
  let ws := row mod LRU_FUSED_V3_WORKSPACE_THREADS in
  val TOKEN_MARK (ws * LRU_FUSED_V3_MAX_TOKEN + t) (v_gm s) < LRU_FUSED_V3_EPOCH ->
  wp (LaunchFusedV3 clock row LRU_FUSED_V3_TOPK LRU_FUSED_V3_CAPACITY LRU_FUSED_V3_MAX_TOKEN en) (fun _ s' =>
    ~ epoch_ok LRU_FUSED_V3_MAX_TOKEN ws (v_gm s')) s.
Proof.
  intros Hr Ht ws Hm. eapply wp_mono; [by apply v3_ready_row|]. cbv beta. intros _ s' (HW & _ & He).
  fold ws in HW, He. assert (Hw : 0 <= ws) by (by apply Z.mod_pos_bound). unfold V3_PROFILE_STAMPS in Ht.
  assert (Ev : val TOKEN_MARK (ws * LRU_FUSED_V3_MAX_TOKEN + t) (v_gm s') =
               val TOKEN_MARK (ws * LRU_FUSED_V3_MAX_TOKEN + t) (v_gm s)).
  { change (val (G TOKEN_MARK) (ws * LRU_FUSED_V3_MAX_TOKEN + t) s' =
            val (G TOKEN_MARK) (ws * LRU_FUSED_V3_MAX_TOKEN + t) s).
    apply (writes_only_val _ _ _ _ _ HW); change LRU_FUSED_V3_MAX_TOKEN with 4096; [lia|].
    unfold v3_cells, profile_cells, V3_PROFILE_STAMPS. change (4096 / 2) with 2048. fold ws. lia. }
  unfold epoch_ok. change (val EPOCHS ws (v_gm s')) with (val (G EPOCHS) ws s'). rewrite He.
  change LRU_FUSED_V3_EPOCH with (-2) in *. unfold LRU_EPOCH_RESET_THRESHOLD.
  intros [?|[H|H]]; [lia|vm_compute in H; done|]. specialize (H t ltac:(lia)). lia.
Qed.
End kernels.

(** The unified-buffer layout of the V3 kernel: the thirteen regions lie one behind the
    other without overlap inside the 114720 bytes the launch requests, and the regions
    filled by block copies start and end on 32-byte blocks. *)
Theorem ub_layout_sound :
  FUSED_V3_DYNAMIC_UB_BYTES = 114720 /\
  (forall b, 0 <= ub_offset b /\ ub_offset b + ub_size b <= FUSED_V3_DYNAMIC_UB_ELEMENTS) /\
  (forall b b' i j, b <> b' -> 0 <= i < ub_size b -> 0 <= j < ub_size b' -> ub_offset b + i <> ub_offset b' + j) /\
  (forall b, b = U_TOPK \/ b = U_SLOT_TO_TOKEN \/ b = U_LRU_SLOTS ->
     ub_offset b * 4 mod 32 = 0 /\ ub_size b * 4 mod 32 = 0) /\
  LRU_FUSED_V3_TOPK_BLOCKS * 32 = ub_size U_TOPK * 4 /\
  LRU_FUSED_V3_CAPACITY_BLOCKS * 32 = ub_size U_LRU_SLOTS * 4.
Proof.
  split_and!; [done| | | |done|done].
  - intros []; vm_compute; split; discriminate.
  - intros [] [] i j Hne; try done; vm_compute (ub_size _); vm_compute (ub_offset _); lia.
  - intros b [->|[->| ->]]; done.
Qed.

(** The scratch of the legacy kernel: every thread of the grid the launcher computes
    gets [capacity] cells inside the [8 * max_token] cells of the workspace, and no two
    threads share a cell. *)
Theorem legacy_scratch_disjoint num_reqs capacity max_token :
  0 < capacity <= max_token ->
  let grid := legacy_grid_dim num_reqs in
  let threads := legacy_threads_per_block capacity max_token in
  (forall b t i, 0 <= b < grid -> 0 <= t < threads -> 0 <= i < capacity ->
     0 <= legacy_scratch max_token capacity b t + i < LRU_COMPACT_WORKSPACE_THREADS * max_token) /\
  (forall b t i b' t' i', 0 <= b < grid -> 0 <= t < threads -> 0 <= i < capacity ->
     0 <= b' < grid -> 0 <= t' < threads -> 0 <= i' < capacity ->
     legacy_scratch max_token capacity b t + i = legacy_scratch max_token capacity b' t' + i' ->
     b = b' /\ t = t' /\ i = i').
Proof.
  intros Hc grid threads. pose proof (legacy_grid_dim_range num_reqs) as Hg. fold grid in Hg.
  destruct (legacy_threads_scratch capacity max_token Hc) as [Ht Hm]. fold threads in Ht, Hm.
  unfold legacy_scratch, LRU_COMPACT_WORKSPACE_THREADS. split.
  - intros b t i Hb Hth Hi. assert (t * capacity + i < max_token) by nia. nia.
  - intros b t i b' t' i' Hb Hth Hi Hb' Hth' Hi' E.
    assert (0 <= t * capacity + i < max_token) by nia. assert (0 <= t' * capacity + i' < max_token) by nia.
    assert (b = b') as <- by nia. assert (t = t') as <- by nia. split_and!; lia.
Qed.

(** The legacy grid runs every row: some thread of the launched grid visits it. *)
Theorem legacy_grid_covers num_reqs capacity max_token row :
  0 < capacity <= max_token -> 0 <= row < num_reqs ->
  let grid := legacy_grid_dim num_reqs in
  let threads := legacy_threads_per_block capacity max_token in
  exists b t, 0 <= b < grid /\ 0 <= t < threads /\ row ∈ strip (grid * threads) num_reqs (b + t * grid) /\
    forall b' t', 0 <= b' < grid -> 0 <= t' < threads ->
      row ∈ strip (grid * threads) num_reqs (b' + t' * grid) -> b' = b /\ t' = t.
Proof.
  intros Hc Hr grid threads. pose proof (legacy_grid_dim_range num_reqs) as Hg. fold grid in Hg.
  destruct (legacy_threads_scratch capacity max_token Hc) as [Ht _]. fold threads in Ht.
  destruct (legacy_rows_cover num_reqs grid threads row ltac:(lia) ltac:(lia) Hr) as (b & t & Hb & Hth & Hin).
  exists b, t. split_and!; [lia..|done|]. intros b' t' Hb' Hth' Hin'.
  apply elem_of_strip in Hin as [_ E]; [|nia|nia]. apply elem_of_strip in Hin' as [_ E']; [|nia|nia].
  assert (Hl : b + t * grid = b' + t' * grid) by congruence. assert (t = t') by nia. nia.
Qed.

(** ** Concrete kernel launches *)
Lemma demo_v3_row_wf : row_wf 4096 4096 (row_in_of 0 2048 4096 demo_v3_gm).
Proof.
  assert (Hs : forall s, 0 <= s < 4096 -> (ri_s2t (row_in_of 0 2048 4096 demo_v3_gm)).[s] = -1).
  { intros s Hs. cbn [ri_s2t row_in_of]. rewrite slice_at by done. unfold val. cbn [buf gm_memory gm_buf g_slot_to_token demo_v3_gm].
    rewrite Z.mul_0_l, Z.add_0_l. apply at_replicate. lia. }
  split_and!; [lia| | |].
  - cbn [ri_s2t row_in_of]. rewrite length_slice. lia.
  - cbn [ri_lru row_in_of]. unfold lru_perm, slice. rewrite (tab_ext _ _ (fun i => (seqZ 0 4096).[i])) by done.
    rewrite tab_at; [done|]. rewrite length_seqZ. lia.
  - intros s1 s2 H1 _. rewrite (Hs s1 H1). done.
Qed.

Lemma demo_v3_ready : v3_ready 0 demo_v3.
Proof.
  split_and!; [lia| |exact demo_v3_row_wf].
  split; [|apply blank_ub_fits]. unfold batch_fits. split_and!; by vm_compute.
Qed.

Lemma fused_v3_refines_witness :
  v3_ready 0 demo_v3 /\
  wp (@LaunchFusedV3 reversed ref_intrinsics (fun _ => 0) 0 2048 4096 4096 1) (fun _ s' =>
    row_out_of 0 2048 4096 (v_gm s') = compact 4096 4096 (row_in_of 0 2048 4096 (v_gm demo_v3)) /\
    writes_only (row_cells 0 2048 4096 4096 0) (v_gm demo_v3) (v_gm s')) demo_v3.
Proof.
  split; [exact demo_v3_ready|].
  apply (@fused_v3_refines reversed ref_intrinsics (fun _ => 0) 1 0 demo_v3). exact demo_v3_ready.
Defined.

Lemma demo_lru_inj row : 0 <= row < 1 -> lru_inj 4 (start_lru 4 (row_in_of row 2 4 demo_gm)).
Proof. intros Hr. assert (row = 0) as -> by lia. apply (row_wf_inj 4 8), demo_row_wf. Qed.

Lemma demo_batch_fits : batch_fits 1 2 4 8 demo_gm.
Proof. unfold batch_fits. split_and!; by vm_compute. Qed.

Lemma phased_batch_refines_witness :
  batch_fits 1 2 4 8 demo_gm /\
  wp (@LaunchProductionPhasedLru reversed 1 2 4 8) (fun _ s' =>
    (forall row, 0 <= row < 1 -> row_out_of row 2 4 s' = compact 4 8 (row_in_of row 2 4 demo_gm)) /\
    epochs_ok 8 s') demo_gm.
Proof.
  split; [exact demo_batch_fits|]. apply (@phased_batch_refines reversed); [reflexivity|exact demo_batch_fits| |].
  - apply blank_epochs_ok. reflexivity.
  - exact demo_lru_inj.
Defined.

Lemma v3_equals_phased_witness :
  v3_ready 0 demo_v3 /\
  wp (@LaunchFusedV3 in_order ref_intrinsics (fun _ => 0) 0 2048 4096 4096 0) (fun _ s1 =>
    wp (@phased_row in_order 0 2048 4096 4096) (fun _ g2 =>
      row_out_of 0 2048 4096 (v_gm s1) = row_out_of 0 2048 4096 g2) (v_gm demo_v3)) demo_v3.
Proof.
  split; [exact demo_v3_ready|].
  apply (@v3_equals_phased in_order ref_intrinsics (fun _ => 0) 0 0 demo_v3); [exact demo_v3_ready|].
  apply (blank_epochs_ok 4096); [reflexivity|]. by vm_compute.
Defined.

Lemma block_scan_prefix_sums_witness :
  ub_fits demo /\
  wp (@StableScanPair1024 in_order ref_intrinsics [0] (tab 1024 (fun t => t mod 2)) (tab 1024 (fun _ => 1)))
    (fun _ s' => forall t, 0 <= t < LRU_FUSED_V3_THREADS ->
       val (U U_SCAN_EVICT_A) t s' = psum (fun i => (tab 1024 (fun t => t mod 2)).[i]) (t + 1) /\
       val (U U_SCAN_HIT_A) t s' = psum (fun i => (tab 1024 (fun _ => 1)).[i]) (t + 1)) demo.
Proof.
  split; [apply blank_ub_fits|]. apply (@block_scan_prefix_sums in_order ref_intrinsics). apply blank_ub_fits.
Defined.

Lemma block_any_correct_witness :
  ub_fits demo /\
  wp (@BlockAny1024 in_order ref_intrinsics [0] (blank 1024))
    (fun v _ => v <> 0 <-> exists t, 0 <= t < LRU_FUSED_V3_THREADS /\ (blank 1024).[t] <> 0) demo.
Proof.
  split; [apply blank_ub_fits|]. apply (@block_any_correct in_order ref_intrinsics). apply blank_ub_fits.
Defined.

(** After one row has been handled its epoch is in use, and the next call takes the one below. *)
Definition demo_after : GM := match @phased_row in_order 0 2 4 8 demo_gm with Some (_, g) => g | None => demo_gm end.
Lemma demo_after_reach : @phased_reach in_order 8 demo_after.
Proof.
  apply (reach_row 8 demo_gm 0 2 4).
  - apply reach_zeroed. intros ws Hw. change LRU_COMPACT_WORKSPACE_THREADS with 8 in Hw. unfold val. change (buf EPOCHS demo_gm) with (blank 8).
    unfold blank. by rewrite at_replicate by lia.
  - apply (batch_row_fits 1 2 4 8 demo_gm 0); [reflexivity|exact demo_batch_fits|lia].
  - eapply row_wf_inj. exact demo_row_wf.
  - unfold demo_after. destruct (phased_row 0 2 4 8 demo_gm) as [[[] g]|] eqn:E; [reflexivity|]. vm_compute in E. discriminate.
Qed.
Lemma epoch_never_stale_witness :
  val EPOCHS 0 demo_after = -2 /\ val TOKEN_MARK 5 demo_after = -2 /\
  wp (plan_epoch 0 0 0 8) (fun e s' =>
    - LRU_EPOCH_RESET_THRESHOLD < e <= -2 /\ val EPOCHS 0 s' = e /\
    forall t, 0 <= t < 8 -> val TOKEN_MARK (0 * 8 + t) s' <> e) demo_after.
Proof.
  split; [vm_compute; reflexivity|]. split; [vm_compute; reflexivity|].
  apply (@epoch_never_stale in_order 0 2 4 8 demo_after demo_after_reach).
  unfold row_fits. vm_compute. intuition congruence.
Defined.

Lemma v3_epoch_leaves_stale_marks_witness :
  v3_ready 0 demo_v3 /\
  wp (@LaunchFusedV3 in_order ref_intrinsics (fun _ => 0) 0 2048 4096 4096 0)
    (fun _ s' => ~ epoch_ok 4096 0 (v_gm s')) demo_v3.
Proof.
  split; [exact demo_v3_ready|].
  apply (@v3_epoch_leaves_stale_marks in_order ref_intrinsics (fun _ => 0) 0 0 100 demo_v3);
    [exact demo_v3_ready|vm_compute; split; congruence|vm_compute; congruence].
Defined.

Lemma legacy_scratch_disjoint_witness :
  0 < 4 <= 64 /\
  forall b t i, 0 <= b < legacy_grid_dim 3 -> 0 <= t < legacy_threads_per_block 4 64 -> 0 <= i < 4 ->
    0 <= legacy_scratch 64 4 b t + i < LRU_COMPACT_WORKSPACE_THREADS * 64.
Proof. split; [lia|]. apply (legacy_scratch_disjoint 3 4 64). lia. Defined.

Lemma legacy_grid_covers_witness :
  exists b t, 0 <= b < legacy_grid_dim 3 /\ 0 <= t < legacy_threads_per_block 4 64 /\
    2 ∈ strip (legacy_grid_dim 3 * legacy_threads_per_block 4 64) 3 (b + t * legacy_grid_dim 3).
Proof.
  destruct (legacy_grid_covers 3 4 64 2 ltac:(lia) ltac:(lia)) as (b & t & Hb & Ht & Hin & _). eauto.
Defined.
