(* ===== verification/CopyTheorems.v ===== *)
(** * What the descriptor kernels, the copy and a whole decode step guarantee *)
From Stdlib Require Import String.
From S2P Require Import Prelude Simt LruSpec LruInvariant WarpScan LruGeneric LruGenericProof.
From S2P Require Import LruFusedV3 LruFusedV3Proof LruLegacy.
From S2P Require Import ResidentAddrs ResidentAddrsProof SparseCopy Launch EndToEnd LruTheorems.

(** ** Descriptor kernels *)
Section addrs.
Context {Sch : Scheduler} {I : Intrinsics}.

(** The generic kernel (one lane per request row, any number of rows): the valid
    misses of all rows are packed in row order, K descriptors first and V descriptors
    behind them, the token count is twice the number of valid misses, and nothing else is
    written. *)
Theorem serial_writes_table c s :
  ra_shape c -> ra_fits c s -> total c s * 2 <= INT32_MAX ->
  wp (OffloadOpsComputeLruResidentAddrs c) (fun _ s' => table_written c s (fun _ _ => False) s') s.
Proof. intros. by apply serial_kernel_spec. Qed.

(** The parallel kernel (one lane per miss, ranks from two block scans) writes the same
    packed table for a single request; besides it touches only its on-chip scratch. *)
Theorem parallel_writes_table c s :
  ra_shape c -> ra_fits c s -> ra_ub_fits s -> num_reqs c = 1 -> topk c <= RESIDENT_ADDRS_MAX_TOPK ->
  wp (OffloadOpsComputeLruResidentAddrsMixedParallel c) (fun _ s' => table_written c s ra_scratch s') s.
Proof. intros. by apply parallel_kernel_spec. Qed.

Lemma holds_same (l : list (ra * Z * Z)) (s1 s2 : RA) b k :
  holds l s1 -> holds l s2 -> touches l b k -> val b k s1 = val b k s2.
Proof.
  induction l as [|[[b' k'] v] l IH]; [by intros _ _ []|]. cbn [holds touches].
  intros [E1 H1] [E2 H2] [[-> ->]|Ht]; [congruence|auto].
Qed.

Lemma touches_dec (l : list (ra * Z * Z)) b k : touches l b k \/ ~ touches l b k.
Proof.
  induction l as [|[[b' k'] v] l IH]; cbn [touches]; [right; intros []|].
  destruct (decide (b' = b)), (decide (k' = k)); tauto.
Qed.

Lemma table_written_same c s W1 W2 s1 s2 b :
  table_written c s W1 s1 -> table_written c s W2 s2 ->
  (forall k, ~ W1 b k /\ ~ W2 b k) -> buf b s1 = buf b s2.
Proof.
  intros (L1 & H1 & V1) (L2 & H2 & V2) HW. apply list_eq_at.
  - specialize (L1 b). specialize (L2 b). unfold len in *. lia.
  - intros k Hk. change (val b k s1 = val b k s2). destruct (HW k) as [N1 N2].
    destruct (touches_dec (table_outs c s) b k) as [Ht|Ht]; [by eapply holds_same|].
    rewrite V1, V2 by (done || lia). done.
Qed.

(** C31. On the shapes both accept, the parallel kernel is equivalent to the generic one:
    every device array ends up the same. *)
Theorem parallel_equals_serial c s :
  ra_shape c -> ra_fits c s -> ra_ub_fits s -> num_reqs c = 1 -> topk c <= RESIDENT_ADDRS_MAX_TOPK ->
  total c s * 2 <= INT32_MAX ->
  wp (OffloadOpsComputeLruResidentAddrsMixedParallel c) (fun _ s1 =>
    wp (OffloadOpsComputeLruResidentAddrs c) (fun _ s2 =>
      forall b, (forall k, ~ ra_scratch b k) -> buf b s1 = buf b s2) s) s.
Proof.
  intros. eapply wp_mono; [by apply parallel_kernel_spec|]. cbv beta. intros _ s1 W1.
  eapply wp_mono; [by apply serial_kernel_spec|]. cbv beta. intros _ s2 W2 b Hb.
  eapply table_written_same; [exact W1|exact W2|]. auto.
Qed.

(** The arguments the generic kernel refuses. *)
Definition ra_refused (c : ra_cfg) : Prop :=
  num_reqs c <= 0 \/ block_size c <= 0 \/ resident_capacity c <= 0 \/ topk c <= 0 \/ max_num_blocks c <= 0.

(** Error path of the generic kernel: with a non-positive argument it publishes a token
    count of 0 and writes nothing else, so the copy that follows does nothing. *)
Theorem serial_refuses_bad_shape c s :
  ra_refused c -> 1 <= len R_NUM_TOKENS s ->
  wp (OffloadOpsComputeLruResidentAddrs c) (fun _ s' =>
    val R_NUM_TOKENS 0 s' = 0 /\ writes_only (fun b k => b = R_NUM_TOKENS /\ k = 0) s s') s.
Proof.
  intros Hr Hl. unfold OffloadOpsComputeLruResidentAddrs, par_grid.
  assert (Hg : 0 < serial_grid_dim c <= 8).
  { unfold serial_grid_dim, LRU_ADDRS_MAX_GRID_DIM. destruct (Z.ltb_spec 8 (num_reqs c)); [lia|].
    destruct (Z.ltb_spec 0 (num_reqs c)); [|lia]. unwrap. lia. }
  set (g := serial_grid_dim c) in *. set (n := LRU_ADDRS_THREADS_PER_BLOCK).
  assert (Hn : n = 128) by done.
  apply (wp_par_stores _ _ _ (fun lin => if lin =? 0 then [(R_NUM_TOKENS, 0, 0)] else [])).
  - apply NoDup_seqZ.
  - intros lin Hlin%elem_of_seqZ. case_match; cbn [storable touches]; [|done]. split_and!; lia || tauto.
  - intros i j b k _ _. repeat case_match; cbn [touches]; lia || tauto.
  - intros lin s1 Hlin%elem_of_seqZ HL _. unfold OffloadComputeLruResidentAddrsSimtOps.
    replace (_ || _) with true by (unfold ra_refused in Hr; lia).
    destruct (Z.eqb_spec lin 0) as [->|Hne].
    + rewrite Z.mod_0_l, Z.div_0_l by lia. cbn [Z.eqb andb when]. wp_step; [rewrite HL; lia|]. done.
    + wp_step; [exfalso|done]. pose proof (Z.div_mod lin g ltac:(lia)). lia.
  - intros s1 HL HH HV. split.
    + specialize (HH 0 ltac:(apply elem_of_seqZ; lia)). cbn [Z.eqb holds] in HH. tauto.
    + split; [done|]. intros b k Hk Hc. apply HV; [done|]. intros lin _.
      destruct (lin =? 0); cbn [touches]; [|by intros []]. intros [[<- <-]|[]]. by apply Hc.
Qed.
End addrs.

(** ** The copy *)
Section sparse_copy.
Context {Sch : Scheduler} {DC : DataCopy}.

(** One descriptor: the chunked copy through the 176 KiB buffer terminates, moves all
    [len] bytes (also past the first chunk) and leaves every other byte alone. *)
Theorem chunked_copy_exact src dst len m :
  0 <= len < 4294967296 ->
  (forall i j, 0 <= i < len -> 0 <= j < len -> src + i <> dst + j) ->
  wp (CpGM2GM src dst len) (fun _ m' => forall x,
    m' x = if decide (dst <= x < dst + len) then m (src + (x - dst)) else m x) m.
Proof. apply CpGM2GM_spec. Qed.

(** C32. The whole kernel: whatever the order of the cores, every one of the
    [2 * (oriSize / 2)] descriptors is copied and no other byte changes. *)
Theorem sparse_copy_exact inputs outputs lens oriSize m :
  table_fits inputs outputs lens oriSize -> table_disjoint inputs outputs lens oriSize ->
  wp (AccOffloadSparseCopy inputs outputs lens oriSize) (fun _ m' =>
    copied inputs outputs lens (fun i => 0 <= i < size_ oriSize * 2) m m') m.
Proof. intros. by apply sparse_copy_spec. Qed.

(** An odd table loses its last descriptor: the kernel halves the count, so the
    destination of descriptor [oriSize - 1] keeps its old contents. *)
Theorem odd_count_drops_last inputs outputs lens oriSize m :
  table_fits inputs outputs lens oriSize -> table_disjoint inputs outputs lens oriSize ->
  oriSize mod 2 = 1 ->
  (forall i, 0 <= i < oriSize - 1 ->
     outputs.[i] + lens.[i] <= outputs.[oriSize - 1] \/
     outputs.[oriSize - 1] + lens.[oriSize - 1] <= outputs.[i]) ->
  wp (AccOffloadSparseCopy inputs outputs lens oriSize) (fun _ m' =>
    forall x, 0 <= x < lens.[oriSize - 1] ->
      m' (outputs.[oriSize - 1] + x) = m (outputs.[oriSize - 1] + x)) m.
Proof.
  intros Hf Hd Ho Hs. eapply wp_mono; [by apply sparse_copy_spec|]. cbv beta.
  intros _ m' [_ H] x Hx. apply H. intros i Hi Hin.
  destruct Hf as (Hz & _). pose proof (Z.div_mod oriSize 2 ltac:(lia)). unfold size_ in Hi.
  rewrite u32_small in Hi by lia. destruct (Hs i ltac:(lia)); lia.
Qed.

Lemma core_items_unique inputs outputs lens oriSize num i j k :
  table_fits inputs outputs lens oriSize -> 0 < num < 65536 -> 0 <= i < num -> 0 <= j < num ->
  core_items oriSize num i k -> core_items oriSize num j k -> i = j.
Proof.
  intros Hf Hn Hi Hj Ci Cj. pose proof (size_small inputs outputs lens oriSize Hf) as Hs.
  destruct (core_range inputs outputs lens oriSize Hf num i Hn Hi) as (Ei & Pi & Qi & Ri & Si).
  destruct (core_range inputs outputs lens oriSize Hf num j Hn Hj) as (Ej & Pj & Qj & Rj & Sj).
  pose proof (Z.div_pos (size_ oriSize) num ltac:(lia) ltac:(lia)) as Hp.
  unfold core_items in *. cbv zeta in *. rewrite Ri in Ci. rewrite Rj in Cj. rewrite Ei in Ci. rewrite Ej in Cj.
  assert (Ui : (if i =? num - 1 then size_ oriSize else (i + 1) * (size_ oriSize / num)) <= size_ oriSize)
    by (destruct (i =? num - 1); lia).
  assert (Uj : (if j =? num - 1 then size_ oriSize else (j + 1) * (size_ oriSize / num)) <= size_ oriSize)
    by (destruct (j =? num - 1); lia).
  revert Ci Cj Ui Uj. destruct (Z.eqb_spec i (num - 1)), (Z.eqb_spec j (num - 1)); nia.
Qed.

(** The split over the cores is a partition: each descriptor of both halves belongs
    to exactly one core, for any number of cores below 65536 and any table size. *)
Theorem core_split_partition inputs outputs lens oriSize num k :
  table_fits inputs outputs lens oriSize -> 0 < num < 65536 -> 0 <= k < size_ oriSize * 2 ->
  exists i, (0 <= i < num /\ core_items oriSize num i k) /\
            forall j, 0 <= j < num -> core_items oriSize num j k -> j = i.
Proof.
  intros Hf Hn Hk. destruct (core_items_cover inputs outputs lens oriSize Hf num k Hn Hk) as (i & Hi & Ci).
  exists i. split; [done|]. intros j Hj Cj. by eapply core_items_unique.
Qed.
End sparse_copy.

(** ** A decode loop *)
Section decode.
Context {Sch : Scheduler} {I : Intrinsics} {DC : DataCopy}.
Context (clock : Z -> Z -> Z) (profile : option string) (c : ra_cfg) (T : Z).

(** C2. One decode step, all three operators together: from a state in which every cached
    token holds its host bytes, after any new request the step succeeds, every valid
    requested token gets a slot that holds its K and V bytes, the invariant holds again,
    and memory outside the cache is untouched. *)
Theorem decode_step_serves p q :
  pipe_inv c T p -> new_request c T p q ->
  exists q', decode_step clock profile c T q = Some q' /\ pipe_inv c T q' /\
    (forall r i, 0 <= r < num_reqs c -> 0 <= i < topk c ->
       valid_tok T (ri_topk (row_of c q r)).[i] = true ->
       let slot := val CURRENT_SLOTS (r * topk c + i) (v_gm (p_dev q')) in
       0 <= slot < resident_capacity c /\
       holds_token c (p_ra q) (p_mem q') r slot (ri_topk (row_of c q r)).[i]) /\
    (forall a, (forall kv, ~ in_cache c kv a) -> p_mem q' a = p_mem q a).
Proof.
  intros Hp Hq. destruct (decode_round clock profile c T p q Hp Hq) as (q' & E & Hi & _ & Hs & Ho). eauto.
Qed.

(** C1. Over any sequence of requests and steps the cache stays coherent and every row
    well formed. *)
Theorem decode_run_coherent p p' :
  decode_run clock profile c T p p' -> pipe_inv c T p -> pipe_inv c T p'.
Proof.
  induction 1 as [|p q q' p' Hq E Hrun IH]; [done|]. intros Hp. apply IH.
  destruct (decode_round clock profile c T p q Hp Hq) as (q1 & E1 & Hi & _).
  rewrite E in E1. by injection E1 as <-.
Qed.
End decode.

(** ** Concrete inputs *)

(** Blocks of four tokens, two blocks per request, one cache row of four slots. *)
Definition demo_cfg : ra_cfg :=
  {| block_size := 4; token_size_bytes_k := 2; token_size_bytes_v := 1;
     gvas_k_base := 1000; gvas_v_base := 2000; addr_k_base := 100; addr_v_base := 200;
     resident_capacity := 4; num_reqs := 1; topk := 2; max_num_blocks := 2 |}.

(** One miss, token 3 into slot 1; the second entry of the list is not used. *)
Definition demo_ra : RA := fun b =>
  match b with
  | R_MISS_COUNT => [1] | R_MISS_TOKENS => [3; 0] | R_MISS_SLOTS => [1; 0] | R_BLOCK_TABLE => [0; 1]
  | R_GVAS | R_ADDR | R_SIZE => blank 4 | R_NUM_TOKENS => blank 1
  | R_WARP_TOTALS | R_WARP_BASES => blank 32 | R_CONTROL => blank 8
  end.

Lemma demo_ra_shape : ra_shape demo_cfg.
Proof. unfold ra_shape, INT32_MAX. simpl. lia. Qed.
Lemma demo_ra_fits : ra_fits demo_cfg demo_ra.
Proof. unfold ra_fits. split_and!; by vm_compute. Qed.
Lemma demo_ra_ub_fits : ra_ub_fits demo_ra.
Proof. split_and!; by vm_compute. Qed.

Lemma serial_writes_table_witness :
  total demo_cfg demo_ra = 1 /\
  wp (@OffloadOpsComputeLruResidentAddrs demo_cfg in_order)
    (fun _ s' => table_written demo_cfg demo_ra (fun _ _ => False) s') demo_ra.
Proof.
  split; [by vm_compute|]. apply serial_writes_table; [exact demo_ra_shape|exact demo_ra_fits|by vm_compute].
Defined.

Lemma parallel_writes_table_witness :
  wp (@OffloadOpsComputeLruResidentAddrsMixedParallel demo_cfg reversed ref_intrinsics)
    (fun _ s' => table_written demo_cfg demo_ra ra_scratch s') demo_ra.
Proof.
  apply parallel_writes_table; [exact demo_ra_shape|exact demo_ra_fits|exact demo_ra_ub_fits|done|by vm_compute].
Defined.

Lemma parallel_equals_serial_witness :
  wp (@OffloadOpsComputeLruResidentAddrsMixedParallel demo_cfg in_order ref_intrinsics) (fun _ s1 =>
    wp (@OffloadOpsComputeLruResidentAddrs demo_cfg in_order) (fun _ s2 =>
      forall b, (forall k, ~ ra_scratch b k) -> buf b s1 = buf b s2) demo_ra) demo_ra.
Proof.
  apply (@parallel_equals_serial in_order ref_intrinsics);
    [exact demo_ra_shape|exact demo_ra_fits|exact demo_ra_ub_fits|done|by vm_compute|by vm_compute].
Defined.

Definition refused_cfg : ra_cfg :=
  {| block_size := 0; token_size_bytes_k := 2; token_size_bytes_v := 1;
     gvas_k_base := 1000; gvas_v_base := 2000; addr_k_base := 100; addr_v_base := 200;
     resident_capacity := 4; num_reqs := 1; topk := 2; max_num_blocks := 2 |}.

Lemma serial_refuses_bad_shape_witness :
  wp (@OffloadOpsComputeLruResidentAddrs refused_cfg in_order) (fun _ s' =>
    val R_NUM_TOKENS 0 s' = 0 /\ writes_only (fun b k => b = R_NUM_TOKENS /\ k = 0) demo_ra s') demo_ra.
Proof. apply serial_refuses_bad_shape; [right; left; simpl; lia|by vm_compute]. Defined.

Lemma chunked_copy_exact_witness :
  wp (@CpGM2GM ref_data_copy 0 1000000 200000) (fun _ m' => forall x,
    m' x = if decide (1000000 <= x < 1000000 + 200000) then (fun a => a mod 256) (0 + (x - 1000000))
           else (fun a => a mod 256) x) (fun a => a mod 256).
Proof. apply (@chunked_copy_exact ref_data_copy 0 1000000 200000 (fun a => a mod 256)); lia. Defined.

(** Three descriptors: the third is the one an odd count loses. *)
Definition demo_in : list Z := [0; 10; 20].
Definition demo_out : list Z := [100; 110; 120].
Definition demo_lens : list Z := [4; 5; 6].

Lemma demo_pair_index i : 0 <= i < 2 -> i = 0 \/ i = 1.
Proof. lia. Qed.

(** Evaluates the reads of a concrete list. *)
Local Ltac eval_reads := repeat match goal with
  | |- context [?l !!! ?n] => let v := eval vm_compute in (l !!! n) in change (l !!! n) with v
  end.

Lemma demo_table_fits : table_fits demo_in demo_out demo_lens 3.
Proof. unfold table_fits. change (size_ 3) with 1. simpl. lia. Qed.
Lemma demo_table_disjoint : table_disjoint demo_in demo_out demo_lens 3.
Proof.
  unfold table_disjoint. change (size_ 3 * 2) with 2. split_and!.
  - intros i [->| ->]%demo_pair_index; by vm_compute.
  - intros i j x y [->| ->]%demo_pair_index [->| ->]%demo_pair_index; eval_reads; lia.
  - intros i j x y [->| ->]%demo_pair_index [->| ->]%demo_pair_index; eval_reads; lia.
Qed.

Lemma sparse_copy_exact_witness :
  wp (@AccOffloadSparseCopy in_order ref_data_copy demo_in demo_out demo_lens 3) (fun _ m' =>
    copied demo_in demo_out demo_lens (fun i => 0 <= i < size_ 3 * 2) (fun a => a) m') (fun a => a).
Proof. apply sparse_copy_exact; [exact demo_table_fits|exact demo_table_disjoint]. Defined.

Lemma odd_count_drops_last_witness :
  wp (@AccOffloadSparseCopy in_order ref_data_copy demo_in demo_out demo_lens 3) (fun _ m' =>
    forall x, 0 <= x < demo_lens.[3 - 1] -> m' (demo_out.[3 - 1] + x) = (fun a => a) (demo_out.[3 - 1] + x)) (fun a => a).
Proof.
  apply (@odd_count_drops_last in_order ref_data_copy); [exact demo_table_fits|exact demo_table_disjoint|done|].
  intros i [->| ->]%demo_pair_index; eval_reads; lia.
Defined.

Lemma core_split_partition_witness :
  exists i, (0 <= i < 32 /\ core_items 3 32 i 1) /\
            forall j, 0 <= j < 32 -> core_items 3 32 j 1 -> j = i.
Proof.
  apply (core_split_partition demo_in demo_out demo_lens); [exact demo_table_fits|lia|by vm_compute].
Defined.

(** The row of [demo] with its block table, over blank memory. *)
Definition demo_pipe : Pipe := mkPipe demo demo_ra (fun _ => 0).

Lemma demo_layout : layout demo_cfg demo_ra.
Proof.
  unfold layout, in_cache, cache_addr, host_addr, tok_size, mapped. simpl. split_and!.
  - intros []; lia.
  - lia.
  - intros kv kv' r t x Hr (Ht & _ & Hb) Hx. pose proof (Z.rem_nonneg t 4 ltac:(lia) Ht).
    generalize dependent (block_of demo_cfg demo_ra r t). intros. destruct kv, kv'; lia.
Qed.

Lemma demo_step_fits : step_fits demo_cfg 8 demo_pipe.
Proof.
  destruct demo_ready as (_ & Hf & He & _).
  split_and!; [exact Hf|exact He|by vm_compute..].
Qed.

Lemma demo_pipe_inv : pipe_inv demo_cfg 8 demo_pipe.
Proof.
  split_and!; [|exact demo_step_fits| |done].
  - split_and!; [by right|exact demo_ra_shape|by vm_compute|by vm_compute].
  - intros r Hr. simpl in Hr. assert (r = 0) as -> by lia. exact demo_row_wf.
Qed.

Lemma demo_new_request : new_request demo_cfg 8 demo_pipe demo_pipe.
Proof.
  split_and!; [done..| |exact demo_layout]. intros r Hr. simpl in Hr. assert (r = 0) as -> by lia.
  split; [apply demo_topk_distinct; lia|].
  intros i [->| ->]%demo_pair_index _; split_and!; by vm_compute.
Qed.

Lemma decode_step_serves_witness :
  exists q', @decode_step in_order ref_intrinsics ref_data_copy (fun _ _ => 0) None demo_cfg 8 demo_pipe = Some q' /\
    pipe_inv demo_cfg 8 q' /\
    (forall r i, 0 <= r < num_reqs demo_cfg -> 0 <= i < topk demo_cfg ->
       valid_tok 8 (ri_topk (row_of demo_cfg demo_pipe r)).[i] = true ->
       let slot := val CURRENT_SLOTS (r * topk demo_cfg + i) (v_gm (p_dev q')) in
       0 <= slot < resident_capacity demo_cfg /\
       holds_token demo_cfg (p_ra demo_pipe) (p_mem q') r slot (ri_topk (row_of demo_cfg demo_pipe r)).[i]) /\
    (forall a, (forall kv, ~ in_cache demo_cfg kv a) -> p_mem q' a = p_mem demo_pipe a).
Proof.
  apply (@decode_step_serves in_order ref_intrinsics ref_data_copy (fun _ _ => 0) None demo_cfg 8 demo_pipe demo_pipe);
    [exact demo_pipe_inv|exact demo_new_request].
Defined.

Lemma decode_run_coherent_witness :
  exists p', @decode_step in_order ref_intrinsics ref_data_copy (fun _ _ => 0) None demo_cfg 8 demo_pipe = Some p' /\
    @decode_run in_order ref_intrinsics ref_data_copy (fun _ _ => 0) None demo_cfg 8 demo_pipe p' /\
    pipe_inv demo_cfg 8 p'.
Proof.
  destruct (@decode_round in_order ref_intrinsics ref_data_copy (fun _ _ => 0) None demo_cfg 8 demo_pipe demo_pipe
    demo_pipe_inv demo_new_request) as (p' & E & _).
  assert (H : @decode_run in_order ref_intrinsics ref_data_copy (fun _ _ => 0) None demo_cfg 8 demo_pipe p').
  { eapply run_step; [exact demo_new_request|exact E|apply run_done]. }
  exists p'. split; [exact E|split; [exact H|]].
  exact (@decode_run_coherent in_order ref_intrinsics ref_data_copy (fun _ _ => 0) None demo_cfg 8 demo_pipe p'
    H demo_pipe_inv).
Defined.
