(* ===== verification/PoolTheorems.v ===== *)
(** * What the memory pools and the offload interface guarantee

    The two range allocators, the entries that own a pool, and the manager behind the C
    interface.  Each theorem is followed, at the end of its part, by an instance. *)
From stdpp Require Import gmap strings.
From S2P Require Import Prelude RangeTree MemManager RangePool VaManager Host HybmEntry OffloadEntry OffloadEntryProof.

(** ** [AccOffloadMemManager] *)

(** C33. After any sequence of [Allocate] and [Release] calls, valid or not, every byte of
    the pool is in exactly one range (marked idle or used, with its offset and size), both
    idle trees hold the same ranges, and no two idle ranges are adjacent. *)
Theorem mm_pool_partition base size calls :
  sane base size -> Forall call_ok calls ->
  let mm := mm_runs (new_mem_manager base size) calls in
  (forall x, 0 <= x < size -> exists! r : bool * Z * Z,
     (if r.1.1 then addr_tree (mm_idle mm) else addressUsedTree_ mm) !! r.1.2 = Some r.2 /\ r.1.2 <= x < r.1.2 + r.2) /\
  trees_agree (mm_idle mm) /\
  (forall off sz, addr_tree (mm_idle mm) !! off = Some sz -> addr_tree (mm_idle mm) !! (off + sz) = None).
Proof.
  intros (? & ? & ? & ?) Hc mm. assert (Hi : mm_inv mm) by (by apply mm_runs_inv; [apply new_mem_manager_inv|]).
  destruct (mm_runs_fields (new_mem_manager base size) calls) as [_ Es]. fold mm in Es.
  pose proof (mi_pool _ Hi) as Hp. rewrite Es in Hp.
  split_and!; [by apply one_range|apply Hp|apply Hp].
Qed.

(** A block that [Allocate] returns lies in the pool, is at least as long as asked for,
    starts 16-byte aligned to the base and overlaps no live block; it becomes live and
    nothing else changes. *)
Theorem mm_allocate_sound mm size p mm' :
  mm_inv mm -> 0 <= size -> Allocate mm size = (p, mm') -> p <> 0 ->
  let n := AllocatedSizeAlignUp size in
  size <= n /\ mm_base mm <= p /\ p + n <= mm_base mm + mm_size mm /\ (16 | p - mm_base mm) /\
  (forall q sz, live mm q sz -> p + n <= q \/ q + sz <= p) /\
  (forall q sz, live mm' q sz <-> (q = p /\ sz = n) \/ live mm q sz).
Proof. intros. by apply Allocate_success. Qed.

(** [Allocate] fails only when it has to: if it returns [nullptr] for a size the pool
    could hold, no idle range is long enough, and the pool is unchanged. *)
Theorem mm_allocate_complete mm size mm' :
  mm_inv mm -> 0 < size <= mm_size mm -> Allocate mm size = (0, mm') ->
  mm' = mm /\ forall off sz, addr_tree (mm_idle mm) !! off = Some sz -> sz < AllocatedSizeAlignUp size.
Proof. intros Hi. by apply Allocate_failure. Qed.

(** Releasing the block just allocated restores the pool exactly. *)
Theorem mm_allocate_release_roundtrip mm size p mm' :
  mm_inv mm -> 0 <= size -> Allocate mm size = (p, mm') -> p <> 0 -> Release mm' p = (0, mm).
Proof. intros Hi. by apply Allocate_Release. Qed.

(** C34. [Release] accepts exactly the start of a live block; any other pointer, a double
    free included, is refused and changes nothing. *)
Theorem mm_release_exact mm a :
  mm_inv mm ->
  (forall sz, live mm a sz ->
     (Release mm a).1 = 0 /\ mm_inv (Release mm a).2 /\
     (forall q n, live (Release mm a).2 q n <-> q <> a /\ live mm q n) /\
     Release (Release mm a).2 a = (-1, (Release mm a).2)) /\
  ((forall sz, ~ live mm a sz) -> Release mm a = (-1, mm)).
Proof.
  intros Hi. pose proof (Release_inv mm Hi a) as Hi'. unfold live in *. split.
  - intros sz Hs. destruct (Release_cases mm Hi a) as [[_ Hn]|(s & _ & E)]; [congruence|].
    rewrite E in Hi' |- *. cbn [fst snd mm_base addressUsedTree_] in *. split_and!; [done|done| |].
    + intros q n. rewrite lookup_delete_Some. assert (a - mm_base mm <> q - mm_base mm <-> q <> a) as -> by lia. done.
    + destruct (Release_cases _ Hi' a) as [[-> _]|(s' & Hs' & _)]; [done|]. simpl in Hs'.
      by rewrite lookup_delete_eq in Hs'.
  - intros Hn. destruct (Release_cases mm Hi a) as [[-> _]|(s & Hs & _)]; [done|]. by destruct (Hn s).
Qed.

(** Whatever the history, once no block is live the pool is the freshly constructed
    one: freed ranges always merge back. *)
Theorem mm_all_released base size calls :
  sane base size -> Forall call_ok calls ->
  addressUsedTree_ (mm_runs (new_mem_manager base size) calls) = ∅ ->
  mm_runs (new_mem_manager base size) calls = new_mem_manager base size.
Proof.
  intros (? & ? & ? & ?) Hc. assert (Hi : mm_inv (mm_runs (new_mem_manager base size) calls))
    by (by apply mm_runs_inv; [apply new_mem_manager_inv|]).
  destruct (mm_runs_fields (new_mem_manager base size) calls) as [Eb Es]. pose proof (mi_pool _ Hi) as Hp.
  destruct (mm_runs _ _) as [b s t u]. simpl in *. intros ->. subst.
  apply all_given_back in Hp as ->. done.
Qed.

(** A pool of 64 bytes, empty and with one block of 20 bytes. *)
Definition small_mm : AccOffloadMemManager := new_mem_manager 1000 64.
Definition small_mm1 : AccOffloadMemManager := (Allocate small_mm 20).2.

Lemma small_sane : sane 1000 64.
Proof. unfold sane. lia. Qed.
Lemma small_inv : mm_inv small_mm.
Proof. apply new_mem_manager_inv; lia. Qed.
Lemma small_inv1 : mm_inv small_mm1.
Proof. apply Allocate_inv; [exact small_inv|lia]. Qed.
Lemma small_calls : Forall call_ok [CallAllocate 20; CallRelease 7; CallRelease 1000; CallRelease 1000].
Proof. repeat constructor; done. Qed.

Lemma mm_pool_partition_witness :
  let mm := mm_runs (new_mem_manager 1000 64) [CallAllocate 20; CallRelease 7; CallRelease 1000; CallRelease 1000] in
  trees_agree (mm_idle mm) /\
  exists! r : bool * Z * Z, (if r.1.1 then addr_tree (mm_idle mm) else addressUsedTree_ mm) !! r.1.2 = Some r.2 /\ r.1.2 <= 40 < r.1.2 + r.2.
Proof. destruct (mm_pool_partition 1000 64 _ small_sane small_calls) as (H1 & H2 & _). split; [exact H2|]. apply (H1 40). lia. Defined.

Lemma mm_allocate_sound_witness :
  (Allocate small_mm1 5).1 = 1032 /\
  forall q sz, live (Allocate small_mm1 5).2 q sz <-> (q = 1032 /\ sz = 16) \/ live small_mm1 q sz.
Proof.
  split; [by vm_compute|].
  apply (mm_allocate_sound small_mm1 5 1032 _ small_inv1); [lia|by vm_compute|lia].
Defined.

Lemma mm_allocate_complete_witness :
  small_mm1 = small_mm1 /\
  forall off sz, addr_tree (mm_idle small_mm1) !! off = Some sz -> sz < AllocatedSizeAlignUp 40.
Proof.
  apply (mm_allocate_complete small_mm1 40 small_mm1 small_inv1); [by vm_compute|by vm_compute].
Defined.

Lemma mm_allocate_release_roundtrip_witness : Release small_mm1 1000 = (0, small_mm).
Proof.
  apply (mm_allocate_release_roundtrip small_mm 20 1000 small_mm1 small_inv); [lia|by vm_compute|lia].
Defined.

Lemma mm_release_exact_witness :
  live small_mm1 1000 32 /\ (Release small_mm1 1000).1 = 0 /\
  Release (Release small_mm1 1000).2 1000 = (-1, (Release small_mm1 1000).2).
Proof.
  assert (H : live small_mm1 1000 32) by (by vm_compute).
  destruct (mm_release_exact small_mm1 1000 small_inv1) as [H1 _]. destruct (H1 32 H) as (H2 & _ & _ & H3).
  split; [exact H|split; [exact H2|exact H3]].
Defined.

Lemma mm_all_released_witness :
  mm_runs (new_mem_manager 1000 64) [CallAllocate 20; CallRelease 7; CallRelease 1000; CallRelease 1000]
  = new_mem_manager 1000 64.
Proof. apply (mm_all_released 1000 64 _ small_sane small_calls). by vm_compute. Defined.

(** ** [RbtreeRangePool] *)

(** [CanAllocate] is exact: it answers [true] precisely when [Allocate] with the same
    size hands out an element, and an element that is handed out starts on a page, lies
    in the pool and carries the requested size. *)
Theorem range_pool_can_allocate pool used size :
  rp_inv pool used -> 0 < size -> size + 4095 < 18446744073709551616 ->
  let e := (PoolAllocate pool size).1 in
  CanAllocate pool size = allocator e /\
  (allocator e = true -> elem_size e = size /\ (4096 | startAddress e - baseAddress pool) /\
     baseAddress pool <= startAddress e /\
     startAddress e + AllocateSizeAlignUp size <= baseAddress pool + totalSize pool).
Proof.
  intros Hi Hs Hb e. split.
  - destruct (PoolAllocate_cases pool used Hi size) as [[-> E]|(-> & off & t & _ & E)]; unfold e; by rewrite E.
  - intros Ha. destruct (PoolAllocate pool size) as [e' pool'] eqn:EA. simpl in e. subst e.
    destruct (PoolAllocate_inv pool used Hi size e' pool' Hs Hb EA Ha) as (off & _ & (_ & Es & Hu) & Hi' & Hd & Ez).
    destruct (PoolAllocate_fields _ _ _ _ EA) as (Eb & Et & _).
    pose proof (all_range _ _ _ (ri_pool _ _ Hi') _ _ (used_all _ _ _ (ri_pool _ _ Hi') _ _ Hu)).
    rewrite Ez in *. rewrite Es, Eb. replace (baseAddress pool + off - baseAddress pool) with off by lia.
    split_and!; [done|done|lia|lia].
Qed.

(** Elements allocated and destroyed in any order never overlap: two live elements of
    a pool share no byte, and each lies in the pool. *)
Theorem range_pool_elements_disjoint base size pool es i j e1 e2 :
  0 < base -> 0 < size -> base + size < 18446744073709551616 ->
  rtc rp_step (new_pool base size, []) (pool, es) ->
  es !! i = Some e1 -> es !! j = Some e2 -> i <> j ->
  (base <= startAddress e1 /\ startAddress e1 + AllocateSizeAlignUp (elem_size e1) <= base + size) /\
  (startAddress e1 + AllocateSizeAlignUp (elem_size e1) <= startAddress e2 \/
   startAddress e2 + AllocateSizeAlignUp (elem_size e2) <= startAddress e1).
Proof.
  intros Hb Hs H64 Hrtc H1 H2 Hne. destruct (rp_reachable_inv base size pool es Hb Hs H64 Hrtc) as [Eb Et Hinv Hnd _].
  simpl in *. assert (Hu : forall k e, es !! k = Some e ->
    (list_to_map (elem_range base <$> es) : gmap Z Z) !! (startAddress e - base) =
      Some (AllocateSizeAlignUp (elem_size e))).
  { intros k e He. apply elem_of_list_to_map_1; [done|].
    apply list_elem_of_lookup_2 with k. rewrite list_lookup_fmap, He. done. }
  pose proof (ri_pool _ _ Hinv) as Hp. rewrite Et in Hp.
  pose proof (used_all _ _ _ Hp _ _ (Hu i e1 H1)) as A1. pose proof (used_all _ _ _ Hp _ _ (Hu j e2 H2)) as A2.
  pose proof (all_range _ _ _ Hp _ _ A1). pose proof (all_range _ _ _ Hp _ _ A2).
  split; [lia|]. destruct (Z.lt_total (startAddress e1 - base) (startAddress e2 - base)) as [Hl|[He|Hl]].
  - pose proof (all_apart _ _ _ Hp _ _ _ A1 (mk_is_Some _ _ A2) Hl). lia.
  - exfalso. apply Hne. eapply (NoDup_lookup _ _ _ (startAddress e1 - base) Hnd);
      rewrite !list_lookup_fmap; [by rewrite H1|rewrite H2; simpl; by rewrite He].
  - pose proof (all_apart _ _ _ Hp _ _ _ A2 (mk_is_Some _ _ A1) Hl). lia.
Qed.

(** When the last element is destroyed the pool is the freshly constructed one. *)
Theorem range_pool_drains base size pool :
  0 < base -> 0 < size -> base + size < 18446744073709551616 ->
  rtc rp_step (new_pool base size, []) (pool, []) -> pool = new_pool base size.
Proof.
  intros Hb Hs H64 Hrtc. destruct (rp_reachable_inv base size pool [] Hb Hs H64 Hrtc) as [Eb Et Hinv _ _].
  simpl in *. pose proof (ri_pool _ _ Hinv) as Hp. apply all_given_back in Hp.
  destruct pool as [b s t]. simpl in *. by subst.
Qed.

(** The alignment of a zero-byte request is zero bytes, so [Allocate(0)] hands out an
    element that owns nothing, at the start of an idle range.  On a pool of two pages:
    destroying it after a page at the same address has been handed out, and then
    destroying that page, leaves two idle trees with different contents. *)
Theorem range_pool_zero_size :
  let '(e0, pool1) := PoolAllocate (new_pool 4096 8192) 0 in
  let '(e1, pool2) := PoolAllocate pool1 4096 in
  let pool3 := destroy_elem (destroy_elem pool2 e0) e1 in
  startAddress e0 = startAddress e1 /\ allocator e0 = true /\ allocator e1 = true /\
  (8192, 0) ∈ size_tree (pool_trees pool3) /\ addr_tree (pool_trees pool3) !! 0 = Some 0 /\
  ~ trees_agree (pool_trees pool3).
Proof.
  destruct (PoolAllocate (new_pool 4096 8192) 0) as [e0 pool1] eqn:E0. vm_compute in E0. simplify_eq.
  match goal with |- context [PoolAllocate ?p 4096] => destruct (PoolAllocate p 4096) as [e1 pool2] eqn:E1 end.
  vm_compute in E1. simplify_eq. cbv zeta.
  match goal with |- context [destroy_elem ?p ?e] => set (pool3 := destroy_elem p e) end.
  assert (Hin : (8192, 0) ∈ size_tree (pool_trees pool3)) by (by vm_compute).
  assert (Ha : addr_tree (pool_trees pool3) !! 0 = Some 0) by (by vm_compute).
  split_and!; [done|done|done|done|done|]. intros Hag. apply Hag in Hin. congruence.
Qed.

(** Move assignment drops the range the target owned: the handle is overwritten, so
    when both handles are destroyed the range is still marked used and the pool is
    smaller than before. *)
Theorem range_pool_move_assign_leaks pool used e1 e2 off1 off2 :
  rp_inv pool used -> owns pool e1 off1 used -> owns pool e2 off2 used -> (4096 | off2) -> off1 <> off2 ->
  let '(this, another) := move_assign_elem e1 e2 in
  exists pool', destroy_elem (destroy_elem pool this) another = pool' /\
    rp_inv pool' (delete off2 used) /\ delete off2 used !! off1 = Some (AllocateSizeAlignUp (elem_size e1)).
Proof.
  intros Hi (_ & _ & H1) H2 Hd Hne. unfold move_assign_elem.
  destruct (PoolRelease_inv pool used Hi e2 off2 H2 Hd) as (pool' & _ & E & Hi').
  exists pool'. split_and!; [by rewrite E|done|]. by rewrite lookup_delete_ne.
Qed.

(** A pool of four pages with two live elements. *)
Definition page_pool : RbtreeRangePool := new_pool 4096 16384.
Definition page_elem1 : AllocatedElement := (PoolAllocate page_pool 100).1.
Definition page_pool1 : RbtreeRangePool := (PoolAllocate page_pool 100).2.
Definition page_elem2 : AllocatedElement := (PoolAllocate page_pool1 5000).1.
Definition page_pool2 : RbtreeRangePool := (PoolAllocate page_pool1 5000).2.

Lemma page_steps :
  rtc rp_step (page_pool, []) (page_pool2, [page_elem2; page_elem1]) /\
  rp_step (page_pool2, [page_elem2; page_elem1]) (destroy_elem page_pool2 page_elem2, [page_elem1]) /\
  rp_step (destroy_elem page_pool2 page_elem2, [page_elem1])
    (destroy_elem (destroy_elem page_pool2 page_elem2) page_elem1, []).
Proof.
  split_and!.
  - apply rtc_l with (page_pool1, [page_elem1]).
    + apply (rp_alloc page_pool [] 100 page_elem1 page_pool1); [lia|lia|done].
    + apply rtc_once. apply (rp_alloc page_pool1 [page_elem1] 5000 page_elem2 page_pool2); [lia|lia|done].
  - apply (rp_destroy page_pool2 [] page_elem2 [page_elem1]).
  - apply (rp_destroy _ [] page_elem1 []).
Qed.

Lemma range_pool_can_allocate_witness :
  CanAllocate page_pool 100 = allocator page_elem1 /\ allocator page_elem1 = true.
Proof.
  split; [|by vm_compute].
  apply (range_pool_can_allocate page_pool ∅ 100); [apply new_pool_inv; lia|lia|lia].
Defined.

Lemma range_pool_elements_disjoint_witness :
  startAddress page_elem2 + AllocateSizeAlignUp (elem_size page_elem2) <= startAddress page_elem1 \/
  startAddress page_elem1 + AllocateSizeAlignUp (elem_size page_elem1) <= startAddress page_elem2.
Proof.
  apply (range_pool_elements_disjoint 4096 16384 page_pool2 [page_elem2; page_elem1] 0 1);
    [lia|lia|lia|apply page_steps|done|done|done].
Defined.

Lemma range_pool_drains_witness :
  destroy_elem (destroy_elem page_pool2 page_elem2) page_elem1 = new_pool 4096 16384.
Proof.
  apply range_pool_drains; [lia|lia|lia|]. etransitivity; [apply page_steps|].
  eapply rtc_l; [apply page_steps|]. apply rtc_once. apply page_steps.
Defined.

Lemma range_pool_move_assign_leaks_witness :
  exists used, owns page_pool2 page_elem1 0 used /\ owns page_pool2 page_elem2 4096 used /\
    let '(this, another) := move_assign_elem page_elem1 page_elem2 in
    exists pool', destroy_elem (destroy_elem page_pool2 this) another = pool' /\
      rp_inv pool' (delete 4096 used) /\
      delete 4096 used !! 0 = Some (AllocateSizeAlignUp (elem_size page_elem1)).
Proof.
  pose proof (rp_reachable_inv 4096 16384 page_pool2 _ ltac:(lia) ltac:(lia) ltac:(lia) (proj1 page_steps)) as [_ _ Hi _ _].
  simpl in Hi. eexists. split; [|split].
  3: { apply (range_pool_move_assign_leaks page_pool2 _ page_elem1 page_elem2 0 4096 Hi);
       [by vm_compute|by vm_compute|by exists 1|lia]. }
  all: by vm_compute.
Defined.

(** ** The offload interface *)
Section offload.
Context {E : Env}.

(** C35. No leak: after any sequence of interface calls, failing ones included, followed by
    [offload_uninit], every library handle, entity, memory slice and bm entry that was
    acquired has been released exactly once.  The hybm library is released once for every
    successful initialisation and, beyond that, once for every failed one. *)
Theorem offload_no_leak ops :
  Forall op_ok ops ->
  let tr := h_trace (run_ops (ops ++ [OpUninit]) manager_init host_init).2 in
  (forall r, r <> RHybm -> owned r tr = 0) /\ owned RHybm tr = - failed_inits tr.
Proof.
  intros Hok tr. assert (Hn : forall r, net r tr = 0).
  { intros r. unfold tr. rewrite run_ops_app.
    pose proof (run_ops_inv ops manager_init host_init Hok manager_inv_init) as HI.
    destruct (run_ops ops manager_init host_init) as [m h]. simpl in HI |- *.
    unfold mbind, HM_bind, offload_uninit. destruct (mgr_UnInitalize_inv m h HI) as (m' & h' & -> & _ & _ & _ & Hh).
    simpl. apply Hh. }
  split; [intros r Hr|]; rewrite owned_net, Hn; [by rewrite decide_False|]. rewrite decide_True by done. lia.
Qed.

(** The extra release takes a reference that belongs to somebody else: when another
    module has initialised the library for another device, a failing [Initialize] of the
    local entry leaves the library with one reference less. *)
Theorem failed_init_drops_reference {HE : HybmEnv} config s :
  0 < initialized s -> initedDeviceId s <> cfg_deviceId config ->
  hybm_init [] (cfg_deviceId config) 0 = (HybmInit (cfg_deviceId config) 0 s).1 ->
  (local_Initialize config local_new host_init).1.1 = OFFLOAD_ERROR /\
  initialized (foldl replay s (h_trace (local_Initialize config local_new host_init).2)) = initialized s - 1.
Proof.
  intros Hs Hd Hret. destruct (local_Initialize_other_device config s Hs Hd Hret) as (-> & -> & HI).
  split; [done|]. cbn [foldl replay]. rewrite HI. cbn [snd]. rewrite HybmUninit_count by lia. lia.
Qed.

(** [offload_init] is atomic: after any history of calls it either succeeds and the
    manager owns an open entry, or it fails with the manager not initialised and nothing
    held. *)
Theorem offload_init_atomic ops config :
  Forall op_ok ops ->
  let '(m, h) := run_ops ops manager_init host_init in
  let '(ret, m', h') := offload_init config m h in
  (ret = OFFLOAD_OK /\ m_inited m' = true /\ exists x, m_entry m' = Some x /\ x_opened x h') \/
  (ret <> OFFLOAD_OK /\ m_inited m' = false /\ m_entry m' = None /\ host_idle h').
Proof.
  intros Hok. pose proof (run_ops_inv ops manager_init host_init Hok manager_inv_init) as HI.
  destruct (run_ops ops manager_init host_init) as [m h]. simpl in HI. unfold offload_init.
  destruct (mgr_Initialize_inv config m h HI) as (ret & m' & h' & -> & HI' & Hr). unfold manager_inv in HI'.
  destruct (m_entry m') as [x|]; destruct HI' as [Hi HI']; rewrite Hi in Hr.
  - left. apply eq_sym, Z.eqb_eq in Hr. eauto.
  - right. apply eq_sym, Z.eqb_neq in Hr. by split_and!.
Qed.

(** A kernel is launched only through a symbol that was found, in a library that is
    open at that moment: no sequence of calls launches before loading, after
    [offload_uninit] or after a failed [offload_init]. *)
Theorem offload_launch_loaded ops tr1 f tr2 :
  Forall op_ok ops ->
  h_trace (run_ops ops manager_init host_init).2 = tr1 ++ EvLaunch f :: tr2 ->
  f <> 0 /\ exists handle, handle <> 0 /\ 0 < owned (RLibrary handle) tr1.
Proof.
  intros Hok Htr. destruct (run_ops_launches ops manager_init host_init Hok manager_inv_init) with tr1 f tr2
    as (Hf & handle & Hh & Hn); [by intros [] ? ? [=]|done|].
  split; [done|]. exists handle. split; [done|]. rewrite owned_net, decide_False by done. lia.
Qed.

(** [GetDeviceAddress] of the local entry translates exactly the ranges of its own
    pool: any block [MallocHost] returned is accepted, and a non-null answer means the
    memory is registered and the whole range lies in the pool. *)
Theorem local_device_address e h :
  local_opened e h -> sane (l_base e) (l_size e) ->
  (forall n p e', 0 < n -> local_MallocHost n e = (p, e') -> p <> 0 -> l_registerHostMemory e = true ->
     forall dev, hybm_gva_to_va (h_trace h) p = (OFFLOAD_OK, dev) ->
     local_GetDeviceAddress p n e' h = (dev, h)) /\
  (forall ptr n, 0 <= ptr -> 0 <= n -> (local_GetDeviceAddress ptr n e h).1 <> 0 ->
     l_registerHostMemory e = true /\ 0 < n /\ l_base e <= ptr /\ ptr + n <= l_base e + l_size e).
Proof.
  intros (_ & _ & _ & HP) Hs. split.
  - intros n p e' Hn HM Hp Hr dev Hdev. unfold local_MallocHost in HM. pose proof HP as (mm & Em & _).
    rewrite Em in HM, HP. destruct (Allocate mm n) as [p' mm'] eqn:EA. simplify_eq.
    unfold local_GetDeviceAddress, mbind, HM_bind, ask. cbn [l_registerHostMemory l_base l_size].
    rewrite Hr, (malloc_in_pool _ _ _ _ _ _ Hs HP Hn EA Hp). cbn [negb orb]. cbv beta. rewrite Hdev. cbn. by destruct (Z.eqb_spec dev 0) as [->|].
  - intros ptr n Hp Hn. unfold local_GetDeviceAddress. destruct (l_registerHostMemory e) eqn:Er; [|by cbn].
    cbn [negb orb]. destruct (RangeInPool _ _ _ _) eqn:ER; [|by cbn]. intros _.
    unfold sane in Hs. apply RangeInPool_spec in ER; [|lia..]. tauto.
Qed.
End offload.

(** A process in which every call below the interface succeeds. *)
#[local] Instance demo_env : Env := {|
  getenv := fun _ => Some "/opt/lib"%string; realpath := fun p => Some p; access_ok := fun _ => true;
  lstat_isdir := fun _ => true; dlopen := fun _ _ => 7; dlsym := fun _ _ => 9;
  hybm_init := fun _ _ _ => 0; hybm_create_entity := fun _ _ _ => 5;
  hybm_reserve_mem_space := fun _ _ => 0; hybm_alloc_local_memory := fun _ _ _ => 6;
  hybm_get_slice_va := fun _ _ _ => 4096; hybm_gva_to_va := fun _ p => (0, p + 1);
  ExtractIpPortFromUrl := fun _ => 0; CreateStoreByUrl := fun _ _ _ _ _ => 3;
  MakeBmEntry := fun _ _ _ => 4; SmemBmEntryInitWithOptions := fun _ _ _ _ => 0; BmJoin := fun _ _ => 0;
  BmGetHostGvaAddress := fun _ _ => 8192; BmMaxDRAMSize := fun _ _ => GB;
|}.

Definition demo_config : offload_config_t :=
  {| cfg_deviceId := 0; cfg_reserveSize := GB; cfg_allocSize := GB; cfg_worldSize := 1; cfg_rankId := 0;
     cfg_scene := OFFLOAD_SCENE_LOCAL; cfg_registerHostMemory := 1 |}.
Definition demo_ops : list api_op := [OpInit demo_config; OpMalloc 100; OpSparseCopy; OpFree 4096].

Lemma demo_ops_ok : Forall op_ok demo_ops.
Proof. repeat constructor; done. Qed.

Lemma offload_no_leak_witness :
  owned (RLibrary 7) (h_trace (run_ops demo_ops manager_init host_init).2) = 1 /\
  owned (RLibrary 7) (h_trace (run_ops (demo_ops ++ [OpUninit]) manager_init host_init).2) = 0.
Proof. split; [by vm_compute|]. by apply (offload_no_leak demo_ops demo_ops_ok). Defined.

Lemma offload_init_atomic_witness :
  let '(m, h) := run_ops demo_ops manager_init host_init in
  let '(ret, m', h') := offload_init demo_config m h in
  (ret = OFFLOAD_OK /\ m_inited m' = true /\ exists x, m_entry m' = Some x /\ x_opened x h') \/
  (ret <> OFFLOAD_OK /\ m_inited m' = false /\ m_entry m' = None /\ host_idle h').
Proof. exact (offload_init_atomic demo_ops demo_config demo_ops_ok). Defined.

Lemma offload_launch_loaded_witness :
  exists tr1, h_trace (run_ops demo_ops manager_init host_init).2 = tr1 ++ [EvLaunch 9] /\
    exists handle, handle <> 0 /\ 0 < owned (RLibrary handle) tr1.
Proof.
  eexists [EvHybmInit 0 0 0; EvDlopen 7; EvCreateEntity 5; EvReserve 5; EvAllocSlice 5 6].
  assert (Et : h_trace (run_ops demo_ops manager_init host_init).2 =
    [EvHybmInit 0 0 0; EvDlopen 7; EvCreateEntity 5; EvReserve 5; EvAllocSlice 5 6] ++ [EvLaunch 9]) by (by vm_compute).
  split; [exact Et|]. apply (offload_launch_loaded demo_ops _ 9 [] demo_ops_ok Et).
Defined.

Definition demo_local : LocalEntry := (local_Initialize demo_config local_new host_init).1.2.
Definition demo_host : Host := (local_Initialize demo_config local_new host_init).2.

Lemma demo_local_opened : local_opened demo_local demo_host.
Proof.
  destruct (local_init_law host_init demo_config) as (ret & e & h' & E & Hc); [done|].
  assert (Hr : (local_Initialize demo_config local_new host_init).1.1 = OFFLOAD_OK) by (by vm_compute).
  unfold demo_local, demo_host. rewrite E in Hr |- *. simpl in *. destruct Hc as [[_ H]|[Hn _]]; [exact H|done].
Qed.

Lemma local_device_address_witness :
  local_GetDeviceAddress 4096 100 (local_MallocHost 100 demo_local).2 demo_host = (4097, demo_host).
Proof.
  destruct (local_device_address demo_local demo_host demo_local_opened) as [H _]; [by vm_compute|].
  apply (H 100 4096 _); [lia|by vm_compute|lia|by vm_compute|by vm_compute].
Defined.

(** The library as another module left it, on device 3, and a process in which
    [hybm_init] answers for it. *)
#[local] Instance demo_hybm_env : HybmEnv :=
  {| HalGvaPrecheck := 0; DlApiLoadLibrary := fun _ => 0; hybm_init_hbm_gva := fun _ _ _ => (0, 1, 1); GvaMapped := true |}.
Definition demo_hybm : Hybm := mkHybm 1 1 3 1.
Definition busy_env : Env := {|
  getenv := @getenv demo_env; realpath := @realpath demo_env; access_ok := @access_ok demo_env;
  lstat_isdir := @lstat_isdir demo_env; dlopen := @dlopen demo_env; dlsym := @dlsym demo_env;
  hybm_init := fun _ d f => (HybmInit d f demo_hybm).1; hybm_create_entity := @hybm_create_entity demo_env;
  hybm_reserve_mem_space := @hybm_reserve_mem_space demo_env; hybm_alloc_local_memory := @hybm_alloc_local_memory demo_env;
  hybm_get_slice_va := @hybm_get_slice_va demo_env; hybm_gva_to_va := @hybm_gva_to_va demo_env;
  ExtractIpPortFromUrl := @ExtractIpPortFromUrl demo_env; CreateStoreByUrl := @CreateStoreByUrl demo_env;
  MakeBmEntry := @MakeBmEntry demo_env; SmemBmEntryInitWithOptions := @SmemBmEntryInitWithOptions demo_env;
  BmJoin := @BmJoin demo_env; BmGetHostGvaAddress := @BmGetHostGvaAddress demo_env; BmMaxDRAMSize := @BmMaxDRAMSize demo_env;
|}.

Lemma failed_init_drops_reference_witness :
  initialized demo_hybm = 1 /\
  initialized (foldl (@replay busy_env demo_hybm_env) demo_hybm
    (h_trace (@local_Initialize busy_env demo_config local_new host_init).2)) = 1 - 1.
Proof.
  split; [done|]. apply (@failed_init_drops_reference busy_env demo_hybm_env demo_config demo_hybm); [done|done|].
  by vm_compute.
Defined.
