(* ===== verification/VaTheorems.v ===== *)
(** * What the virtual address manager guarantees

    Theorems about every state the manager can reach, with an instance each. *)
From stdpp Require Import gmap strings.
From S2P Require Import Prelude RangeTree VaManager VaManagerProof Host HybmEntry.


(** [FindAllocByVa] is exact: it returns the allocation that holds the address, and
    reports failure only when no allocation holds it; [GetRank] and [GetGvaMemType] read
    off that allocation. *)
Theorem va_lookup_exact vm va t :
  vm_reach vm ->
  let '(info, found) := FindAllocByVa vm va t in
  if found then
    alloc_of vm t !! a_va info t = Some info /\ a_va info t <= va < a_va info t + a_size info /\
    (t = HVM_GVA -> GetRank vm va = (RankId info, true) /\ GetGvaMemType vm va = b_memType (a_base info))
  else forall k info, alloc_of vm t !! k = Some info -> ~ (k <= va < k + a_size info).
Proof.
  intros [HA _]%vm_reach_inv. pose proof (FindAllocByVa_spec vm HA va t) as Hf.
  destruct (FindAllocByVa vm va t) as [info []]; [|done]. destruct Hf as [Hk Hin].
  split; [done|split; [done|]]. intros Ht. by apply (GetRank_spec vm HA va t).
Qed.

(** Address translation is invertible: if an address translates to another kind, the
    translation lies at the same offset of the same allocation, and translating it back
    gives the address. *)
Theorem va_transform_roundtrip vm va it ot i o :
  vm_reach vm -> va_type it = Some i -> va_type ot = Some o -> i <> o ->
  let out := TransformVa vm va it ot in
  out <> 0 ->
  (exists info, alloc_of vm i !! a_va info i = Some info /\ alloc_of vm o !! a_va info o = Some info /\
     0 <= va - a_va info i < a_size info /\ out - a_va info o = va - a_va info i) /\
  TransformVa vm out ot it = va.
Proof.
  intros [HA _]%vm_reach_inv Ei Eo Hne out Hout.
  destruct (TransformVa_Some vm HA va it ot i o Ei Eo Hne Hout) as (info & Hk & Hin & Ho).
  pose proof (vi_linked _ HA _ _ _ o Hk Ho) as Hko.
  assert (E : out = a_va info o + (va - a_va info i)) by (by apply TransformVa_hit).
  split; [exists info; split_and!; [done|done|lia|lia|lia]|].
  assert (Hi : a_va info i <> 0) by (destruct (ro_key _ _ (vi_ranges _ HA i) _ _ Hk); lia).
  rewrite (TransformVa_hit vm HA out ot it o i info); [lia|done|done|done|done|lia|done].
Qed.

(** The search for free space is first fit and complete: an answer is a range inside
    the window that meets no reserved range, and every lower position meets one; if there
    is no answer, every position in the window meets one. *)
Theorem va_free_space_first_fit vm start end_ size t :
  vm_reach vm -> 0 < start -> 0 < size <= end_ - start ->
  let '(r, found) := FindFreeSpace vm start end_ size t in
  if found then start <= r /\ r + size <= end_ /\
    (forall k info, reserved_of vm t !! k = Some info -> start <= k < end_ -> k + r_size info <= r \/ r + size <= k) /\
    (forall a, start <= a < r -> exists k info, reserved_of vm t !! k = Some info /\ a < k + r_size info /\ k < a + size)
  else forall a, start <= a -> a + size <= end_ ->
    exists k info, reserved_of vm t !! k = Some info /\ a < k + r_size info /\ k < a + size.
Proof. intros [_ HR]%vm_reach_inv Hs Hsz. apply FindFreeSpace_spec; [apply HR|done|done]. Qed.

(** Without a 56-bit address the global range is placed by the size of its device part
    alone: two reservations whose global size exceeds it overlap, although reserved
    global ranges must not. *)
Theorem va_reserve_overlap :
  let '(r1, vm1) := AllocReserveGva vm_init 0 8192 4096 HYBM_MEM_TYPE_HOST false false in
  let '(r2, vm2) := AllocReserveGva vm1 0 8192 4096 HYBM_MEM_TYPE_HOST false false in
  let g1 := per_get (r_va r1) HVM_GVA in
  let g2 := per_get (r_va r2) HVM_GVA in
  reserved_of vm2 HVM_GVA !! g1 = Some r1 /\ reserved_of vm2 HVM_GVA !! g2 = Some r2 /\
  g1 < g2 < g1 + r_size r1.
Proof.
  destruct (AllocReserveGva vm_init 0 8192 4096 HYBM_MEM_TYPE_HOST false false) as [r1 vm1] eqn:E1.
  vm_compute in E1. simplify_eq.
  match goal with |- context [AllocReserveGva ?v 0 8192 4096 HYBM_MEM_TYPE_HOST false false] =>
    destruct (AllocReserveGva v 0 8192 4096 HYBM_MEM_TYPE_HOST false false) as [r2 vm2] eqn:E2 end.
  vm_compute in E2. simplify_eq. split_and!; by vm_compute.
Qed.

(** ** Instances *)
Definition demo_info : AllocatedGvaInfo :=
  mkAlloc (mkBase (mkPer 4096 8192 16384) 4096 HYBM_MEM_TYPE_HOST) 0 INVALID_RANK_ID.
Definition demo_info2 : AllocatedGvaInfo :=
  mkAlloc (mkBase (mkPer 8192 12288 20480) 4096 HYBM_MEM_TYPE_DEVICE) 1 INVALID_RANK_ID.
Definition demo_vm : HybmVaManager :=
  vm_step (vm_step (vm_step (vm_step (mkVm ASCEND_950 (mkPer ∅ ∅ ∅) (mkPer ∅ ∅ ∅)) (VmAdd demo_info)) (VmAdd demo_info2))
    (VmAllocGva 0 4096 4096 HYBM_MEM_TYPE_HOST false false))
    (VmAllocGva 0 4096 4096 HYBM_MEM_TYPE_HOST false false).

Lemma demo_info_wf : info_wf demo_info /\ info_wf demo_info2.
Proof. split; (split; [by vm_compute|]); intros []; cbn; lia. Qed.

Lemma demo_vm_reach : vm_reach demo_vm.
Proof.
  unfold demo_vm. apply reach_step; [|cbn; lia]. apply reach_step; [|cbn; lia].
  apply reach_step; [|apply demo_info_wf]. apply reach_step; [|apply demo_info_wf]. apply reach_init.
Qed.


Lemma va_lookup_exact_witness :
  FindAllocByVa demo_vm 5000 HVM_GVA = (demo_info, true) /\ GetRank demo_vm 5000 = (RankId demo_info, true).
Proof.
  assert (E : FindAllocByVa demo_vm 5000 HVM_GVA = (demo_info, true)) by (by vm_compute). split; [exact E|].
  pose proof (va_lookup_exact demo_vm 5000 HVM_GVA demo_vm_reach) as H. rewrite E in H.
  destruct H as (_ & _ & H). by apply H.
Defined.

Lemma va_transform_roundtrip_witness :
  TransformVa demo_vm 5000 0 1 = 9096 /\ TransformVa demo_vm (TransformVa demo_vm 5000 0 1) 1 0 = 5000.
Proof.
  split; [by vm_compute|].
  apply (va_transform_roundtrip demo_vm 5000 0 1 HVM_GVA HVM_DVA demo_vm_reach); [done|done|done|by vm_compute].
Defined.

Lemma va_free_space_first_fit_witness :
  exists r, FindFreeSpace demo_vm 0x340000000000 0x340000010000 4096 HVM_DVA = (r, true) /\
    0x340000000000 <= r /\ r + 4096 <= 0x340000010000.
Proof.
  exists 0x340000002000. assert (E : FindFreeSpace demo_vm 0x340000000000 0x340000010000 4096 HVM_DVA =
    (0x340000002000, true)) by (by vm_compute).
  split; [exact E|]. pose proof (va_free_space_first_fit demo_vm 0x340000000000 0x340000010000 4096 HVM_DVA demo_vm_reach
    ltac:(lia) ltac:(lia)) as H. rewrite E in H. destruct H as (H1 & H2 & _). split; assumption.
Defined.
