(* ===== verification/StoreTheorems.v ===== *)
(** * What the config store guarantees

    The wire format, the requests that wait for keys, counters, ranks and the rank list in
    a distributed backend, with an instance each. *)
From Stdlib Require Import String.
From stdpp Require Import gmap.
From S2P Require Import Prelude Simt StrUtil MessagePacker MessagePackerProof StoreBackend StoreServer StoreWaiting.
From S2P Require Import StoreServerProof StoreScenario.

(** ** The wire format *)

(** C37. A message within the documented limits that is packed and followed by any bytes is
    recognised as complete and unpacked to itself, consuming exactly its own bytes. *)
Theorem message_unpack_pack m rest :
  message_wf m -> blen (Pack m ++ rest) < 2 ^ 63 ->
  Full (Some (Pack m ++ rest)) = true /\ Unpack (Some (Pack m ++ rest)) = Ok (blen (Pack m), m).
Proof. intros Hm Hb. split; [by apply Full_Pack|by apply Unpack_Pack]. Qed.

(** C38. Whatever bytes arrive, [Unpack] never reads outside the buffer; a message it accepts
    is within the limits, and the bytes it consumed are exactly the encoding of that
    message. *)
Theorem message_unpack_safe (data : option bytes) :
  (forall buf, data = Some buf -> Forall byte_ok buf /\ blen buf < 2 ^ 63) ->
  match Unpack data with
  | Fault => False
  | Reject => True
  | Ok (n, m) => exists buf, data = Some buf /\ message_wf m /\ n = blen (Pack m) /\ n <= blen buf /\
      take (Z.to_nat n) buf = Pack m
  end.
Proof.
  intros Hd. destruct data as [buf|]; [|done]. destruct (Hd buf eq_refl) as [Hb Hl].
  unfold Unpack. destruct (Full (Some buf)); [|done]. cbn [negb].
  pose proof (unpack_body_sound buf Hb Hl) as H. destruct (unpack_body buf 0) as [| |[[n m] off]]; [done..|].
  destruct H as (H1 & H2 & H3 & H4). exists buf. by split_and!.
Qed.

(** ** Requests that wait *)
Section waiting.
Context {B : Type} {CB : ConfigStoreBackend B} {RB : ReliableBackend B}.

(** After any sequence of requests, connects, disconnects and timer rounds that draws
    fewer than 2^64 ids, the three tables of waiting requests agree: a waiting request is
    registered under its id and its key, a key's ids lead to requests for that key only,
    and every deadline leads to requests that wait with that deadline. *)
Theorem store_waiters_consistent (b : B) worldSize skipRecover evs s :
  IsDistributed b = false -> store_run false b worldSize skipRecover evs s ->
  Z.of_nat (length evs) < ID_LIMIT - 1 ->
  (forall i c, waitCtx_ (waiting s) !! i = Some c ->
     id_ c = i /\ exists ids, keyWaiters_ (waiting s) !! key_ c = Some ids /\ i ∈ ids) /\
  (forall k ids i c, keyWaiters_ (waiting s) !! k = Some ids -> i ∈ ids ->
     waitCtx_ (waiting s) !! i = Some c -> key_ c = k) /\
  (forall t ids, timedWaiters_ (waiting s) !! t = Some ids -> ids <> ∅ /\
     forall i, i ∈ ids -> exists c, waitCtx_ (waiting s) !! i = Some c /\ timeoutMs_ c = t).
Proof.
  intros Hd Hrun Hn. destruct (store_run_ok false b _ _ _ _ Hd Hrun Hn) as (([H1 H2 H3] & _) & _).
  split_and!; [|by intros k ids i c Hk Hi; apply (H2 k ids i Hk Hi)|done].
  intros i c Hc. destruct (H1 i c Hc) as (? & _ & ?). by split.
Qed.


(** SET answers its sender, then every request that waits for the key, each exactly once
    and with the new value, then at most the watchers of the key; afterwards nobody waits
    for the key, and the requests for other keys still wait. *)
Theorem store_set_wakes_all {E : StoreEnv} (b : B) worldSize skipRecover evs s ctx u key value :
  IsDistributed b = false -> store_run true b worldSize skipRecover evs s ->
  Z.of_nat (length evs) < ID_LIMIT - 1 -> key_too_long key = false ->
  let ret := (Put key value EPHEMERAL_KEY_TTL_SEC (backend_ s)).1 in
  exists waiters l s', SetHandler ctx (mkMsg SET u [key] [value]) s = Some (SM_OK, s') /\
    waiters ≡ₚ reqCtx_ <$> waiters_of key (waiting s) /\
    replies s' = replies s ++ mkReply ctx ret (if ret =? SUCCESS then lit "success" else lit "error") ::
                 sent SUCCESS (response GET [value]) waiters ++ l /\
    (l = [] \/ l = sent SUCCESS (response WATCH [value]) (watchers_of key (watching s))) /\
    (forall i, waitCtx_ (waiting s') !! i =
       match waitCtx_ (waiting s) !! i with
       | Some c => if decide (key_ c = key) then None else Some c
       | None => None
       end).
Proof.
  intros Hd Hrun Hn Hk ret. destruct (store_run_ok true b _ _ _ _ Hd Hrun Hn) as ((Hw & _ & Ha) & _).
  pose proof (SetHandler_run ctx u key value s Hk) as Hset. subst ret.
  destruct (Put key value _ (backend_ s)) as [ret b']. cbn [fst] in *. rewrite Hset. clear Hset.
  destruct (decide (contents (backend_ s) !! key = Some value)) as [Hc|Hc].
  - assert (Hnone : forall i c, waitCtx_ (waiting s) !! i = Some c -> key_ c <> key).
    { intros i c Hi <-. destruct (Ha eq_refl i c Hi). congruence. }
    exists [], [], (stored b' (waiting s) [mkReply ctx ret (if ret =? SUCCESS then lit "success" else lit "error")] s).
    split_and!; [done| |done|by left|].
    + destruct (waiters_of key (waiting s)) as [|c l] eqn:El; [done|].
      assert (Hin : c ∈ waiters_of key (waiting s)) by (rewrite El; left).
      apply elem_of_waiters in Hin as (i & Hi & Hkey). by destruct (Hnone i c Hi).
    + intros i. simpl. destruct (waitCtx_ (waiting s) !! i) as [c|] eqn:Ei; [|done].
      rewrite decide_False; [done|]. by apply (Hnone i).
  - eexists (take_waiters key (waiting s)).1, _, _. split_and!; [done|by apply take_waiters_out|done|by right|].
    intros i. simpl. by apply take_waiters_left.
Qed.
End waiting.

(** ** Counters, ranks and broken links *)

(** C23. A value that was SET is what a later GET answers, byte for byte, through both
    encodings, whenever the backend accepted the value. *)
Theorem store_set_get_roundtrip {B} {CB : ConfigStoreBackend B} {RB : ReliableBackend B} {E : StoreEnv}
  (s : Server B) c1 c2 u1 u2 key value :
  message_wf (mkMsg SET u1 [key] [value]) -> message_wf (mkMsg GET u2 [key] []) ->
  key_too_long key = false -> ~ starts_with autoRankingStr_ key ->
  (Put key value EPHEMERAL_KEY_TTL_SEC (backend_ s)).1 = SUCCESS ->
  exists s1 s2 body,
    ReceiveMessageHandler c1 (Some (Pack (mkMsg SET u1 [key] [value]))) s = Some (SM_OK, s1) /\
    ReceiveMessageHandler c2 (Some (Pack (mkMsg GET u2 [key] []))) s1 = Some (SM_OK, s2) /\
    replies s2 = replies s1 ++ [mkReply c2 SUCCESS body] /\
    Unpack (Some body) = Ok (blen body, mkMsg GET (-1) [] [value]).
Proof.
  intros Hm1 Hm2 Hk Hr Hp. pose proof (SetHandler_run c1 u1 key value s Hk) as Hset.
  pose proof (Put_law key value EPHEMERAL_KEY_TTL_SEC (backend_ s)) as Hl.
  destruct (Put key value _ (backend_ s)) as [ret b]. cbn [fst] in Hp. subst ret.
  destruct Hl as [_ Hc]. rewrite decide_True in Hc by done.
  eexists _, _, _. rewrite receive_packed by done. cbn [mt handler_of]. rewrite Hset. split; [done|].
  rewrite receive_packed by done. cbn [mt handler_of].
  rewrite (GetHandler_hit c2 u2 key value); [|done..|].
  - split; [done|]. split; [done|]. apply Unpack_packed.
    destruct Hm1. by split.
  - assert (contents b !! key = Some value) by (rewrite Hc; apply lookup_insert_eq). by destruct (decide _).
Qed.

(** A sequence of ADD requests is a counter: as long as every running total fits a 64-bit
    integer, the key ends with the sum, other keys keep their values, and the answers
    carry the running totals in order. *)
Theorem store_add_counter {E : StoreEnv} (s : Server SmemLocalMemoryBackend) ctx u key vs :
  key_too_long key = false -> vs <> [] -> Forall long_ok vs -> Forall long_ok (totals 0 vs) ->
  kvStore_ (backend_ s) !! key = None ->
  exists s' l, foldM vs (fun v _ => AddHandler ctx (add_request u key v)) SM_OK s = Some (SM_OK, s') /\
    kvStore_ (backend_ s') !! key = Some (to_string (sum_Z vs)) /\
    (forall k, k <> key -> kvStore_ (backend_ s') !! k = kvStore_ (backend_ s) !! k) /\
    replies s' = replies s ++ l /\
    ((fun t => mkReply ctx SUCCESS (to_string t)) <$> totals 0 vs) `sublist_of` l.
Proof.
  intros Hk Hne Hvs Htot Hnone.
  destruct (add_sequence ctx u key vs 0 s Hk ltac:(done) Hvs Htot) as (s' & l & Hf & Hc & Hk' & Hn & Hr & Hs).
  { by apply counter_absent. }
  exists s', l. split_and!; [done| |done..]. rewrite totals_last in Hc. unfold counter_at in Hc.
  specialize (Hn ltac:(by left)). destruct (kvStore_ (backend_ s') !! key); [by rewrite Hc|done].
Qed.

(** C39. A group of clients, each on a link of its own, that fits the world size obtains
    pairwise different free ranks below the world size: the search ends for each of them.
    Once all ranks are taken, one more client is refused. *)
Theorem store_ranks_distinct {E : StoreEnv} worldSize skipRecover ctxs :
  NoDup (LinkId <$> ctxs) -> Forall (fun ctx => 0 <= LinkId ctx <= UINT32_MAX) ctxs ->
  Z.of_nat (length ctxs) <= worldSize < 2 ^ 32 ->
  exists rs s', foldM ctxs (fun ctx _ => GetHandler ctx (rank_request (-1))) 0
      (new_server (mkLocalStore ∅) worldSize skipRecover) = Some (0, s') /\
    NoDup rs /\ Forall (fun r => 0 <= r < worldSize) rs /\
    replies s' = zip_with (fun ctx r => mkReply ctx SUCCESS (response GET [rank_bytes r])) ctxs rs /\
    length rs = length ctxs /\ aliveRankSet_ (ranks s') = list_to_set rs /\
    (Z.of_nat (length ctxs) = worldSize -> forall ctx,
       kvStore_ (backend_ s') !! rank_key ctx = None ->
       (GetHandler ctx (rank_request (-1)) s' =
        Some (SM_ERROR, add_replies [mkReply ctx ERROR (lit "error: worldSize rankSize bigger than worldSize.")] s'))).
Proof.
  intros Hnd Hl HW.
  destruct (rank_sequence ctxs (new_server (mkLocalStore ∅) worldSize skipRecover))
    as (rs & s' & Hf & Hnd' & Hrs & Hlen & Ha & Hr & Hws); simpl; try done; try lia.
  { apply Forall_forall. intros ctx _. apply lookup_empty. }
  { change (Z.of_nat (size (∅ : gset Z) + length ctxs) <= worldSize). rewrite size_empty. lia. }
  exists rs, s'. simpl in Ha, Hrs, Hws. rewrite union_empty_r_L in Ha.
  split_and!; [done|done| |done|done|done|].
  - apply (Forall_impl _ _ _ Hrs). intros r Hr'. apply Hr'.
  - intros Hfull ctx Hk. rewrite GetHandler_rank. apply FindOrInsertRank_full; [done|].
    rewrite Ha, size_list_to_set, Hws, Hlen by done. lia.
Qed.

(** The rank list survives a change of the leading server: what one server persisted, its
    successor recovers, and after any clients have reconnected the clean-up announces as
    down exactly the ranks that have not come back, each once. *)
Theorem store_failover_announces {B} {CB : ConfigStoreBackend B} {RB : ReliableBackend B} {E : StoreEnv}
  (old old' new : Server B) rs (conns : list (StoreEnv * (Z * Z * Z))) stopSecond :
  set_Forall rank_ok rs -> IsDistributed (backend_ old) = true ->
  PersistAliveRankIds rs old = Some (SUCCESS, old') -> backend_ new = backend_ old' ->
  exists s, RestoreFromBackend new = Some (SM_OK, s) /\ aliveRankFromBackend_ (ranks s) = rs /\
    forall ret s2,
      foldM conns (fun '(E', (reqRankId, reconnect, linkId)) _ =>
        @LinkConnectedHandler B CB E' reqRankId reconnect linkId) SM_OK s = Some (ret, s2) ->
      exists s3, CleanupStaleRanks false stopSecond s2 = Some (tt, s3) /\
        rankStateTaskQueue_ (ranks s3) =
        rankStateTaskQueue_ (ranks new) ++ elements (rs ∖ aliveRankSet_ (ranks s2)).
Proof.
  intros Hrs Hd Hp Hb. destruct (RecoverAliveRankIds_run rs old' new old Hrs Hd Hp Hb) as (b & Hrec & _).
  eexists. split; [|split; [|intros ret s2 Hf]].
  - unfold RestoreFromBackend, distributed, gets, mbind, M_bind.
    rewrite Hb, (PersistAliveRankIds_distributed _ _ _ _ Hp), Hd. cbn [negb]. by rewrite Hrec.
  - done.
  - pose proof (reconnects_keep_stale conns SM_OK _ _ _ Hf) as [Hs Hq].
    destruct (CleanupStaleRanks_queue stopSecond s2) as (s3 & Hc & Hq3). exists s3. split; [done|].
    by rewrite Hq3, Hs, Hq.
Qed.

(** A timer round answers with a timeout only requests whose deadline has passed, removes
    them, and leaves every other request as it was. *)
Theorem store_timeout_only_expired {B} {CB : ConfigStoreBackend B} {RB : ReliableBackend B} {E : StoreEnv}
  (b : B) worldSize skipRecover evs s :
  IsDistributed b = false -> store_run false b worldSize skipRecover evs s ->
  Z.of_nat (length evs) < ID_LIMIT - 1 ->
  exists late s', TimerThreadTask s = Some (tt, s') /\
    replies s' = replies s ++ sent TIMEOUT (lit "<timeout>") late /\ backend_ s' = backend_ s /\
    (forall ctx, ctx ∈ late -> exists i c, waitCtx_ (waiting s) !! i = Some c /\ reqCtx_ c = ctx /\
       timeoutMs_ c <= steady_ms /\ waitCtx_ (waiting s') !! i = None) /\
    (forall i c, waitCtx_ (waiting s) !! i = Some c -> steady_ms < timeoutMs_ c ->
       waitCtx_ (waiting s') !! i = Some c).
Proof.
  intros Hd Hrun Hn. destruct (store_run_ok false b _ _ _ _ Hd Hrun Hn) as ((Hw & _) & _).
  destruct (timer_wakeup_spec (waiting s) Hw) as (_ & _ & _ & Ht). pose proof (fun i c => timer_keeps (waiting s) i c Hw) as Hk.
  unfold TimerThreadTask, gets, put_waiting, mbind, M_bind.
  destruct (timer_wakeup (waiting s)) as [late w]. simpl in Ht. rewrite reply_all_run.
  eexists late, _. split_and!; [done|done|done|done|]. intros i c Hc Hlt. by apply Hk.
Qed.

(** ** Instances *)
Definition first_entry (m : gmap Z (gset Z)) : option (Z * gset Z) := head (map_to_list m).
Lemma first_entry_law m :
  match first_entry m with Some (t, ids) => m !! t = Some ids | None => m = ∅ end.
Proof.
  unfold first_entry. destruct (map_to_list m) as [|[t ids] l] eqn:El; simpl.
  - by apply map_to_list_empty_iff.
  - apply elem_of_map_to_list. rewrite El. left.
Qed.
Definition env_at (ms : Z) : StoreEnv := {|
  steady_ms := ms; wall_ms := ms; monotonic_us := 1000 * ms; Established := fun _ => true;
  leader_status := fun _ => (SUCCESS, lit "true"); timed_begin := first_entry; timed_begin_law := first_entry_law |}.

Definition not_write (ev : event) : bool :=
  match ev with
  | EvReceive _ data => match Unpack data with
                        | Ok (_, req) => match mt req with WRITE => false | _ => true end
                        | _ => true
                        end
  | _ => true
  end.
Lemma not_write_quiet {B} ev (s : Server B) : not_write ev = true -> quiet ev s.
Proof.
  destruct ev as [ctx data|? ? ?|?| | |]; simpl; try done. intros H size req key Hu Hm. by rewrite Hu, Hm in H.
Qed.

(** The state a sequence of events leads to; the clock shows the number of the event. *)
Fixpoint exec {B} `{ConfigStoreBackend B} (now : Z) (evs : list event) (s : Server B) : option (Server B) :=
  match evs with
  | [] => Some s
  | ev :: evs => match run (E := env_at now) ev s with
                 | Some (_, s) => exec (now + 1) evs s
                 | None => None
                 end
  end.
Lemma exec_extends {B} `{ReliableBackend B} strict (b : B) ws sk now evs evs0 s s' :
  store_run strict b ws sk evs0 s -> (strict = true -> forallb not_write evs = true) ->
  exec now evs s = Some s' -> store_run strict b ws sk (evs0 ++ evs) s'.
Proof.
  revert now evs0 s. induction evs as [|ev evs IH]; intros now evs0 s Hrun Hq; simpl.
  { intros [= <-]. by rewrite app_nil_r. }
  destruct (run ev s) as [[ret s1]|] eqn:Er; [|done]. intros He.
  rewrite (cons_middle ev evs0 evs), app_assoc. apply (IH (now + 1) (evs0 ++ [ev]) s1); [|intros Hs|done].
  - apply (run_next _ _ _ _ _ _ (env_at now) ret s); [done| |done]. intros Hs. apply not_write_quiet.
    specialize (Hq Hs). simpl in Hq. by apply andb_true_iff in Hq as [? _].
  - specialize (Hq Hs). simpl in Hq. by apply andb_true_iff in Hq as [_ ?].
Qed.

Definition demo_key : bytes := lit "job/ready".
Definition request (t : MessageType) (u : Z) (vs : list bytes) : option bytes := Some (Pack (mkMsg t u [demo_key] vs)).
Definition fresh_local : Server SmemLocalMemoryBackend := new_server (mkLocalStore ∅) 4 true.
(** Two clients wait for a key, one of them for 10 ms; a third one sets another key. *)
Definition demo_events : list event :=
  [EvReceive (mkCtx 1 7) (request GET (-1) []); EvReceive (mkCtx 2 8) (request GET 10 []);
   EvReceive (mkCtx 3 9) (Some (Pack (mkMsg SET (-1) [lit "other"] [lit "x"])))].
Definition demo_state : Server SmemLocalMemoryBackend := default fresh_local (exec 0 demo_events fresh_local).
Lemma demo_run strict : store_run strict (mkLocalStore ∅) 4 true demo_events demo_state.
Proof.
  apply (exec_extends strict (mkLocalStore ∅) 4 true 0 demo_events [] fresh_local);
    [apply run_start|intros _; vm_compute; reflexivity|].
  unfold demo_state. destruct (exec 0 demo_events fresh_local) eqn:Ee; [done|]. vm_compute in Ee. done.
Qed.
Ltac small := repeat constructor; vm_compute; discriminate.
Ltac solve_wf := constructor; [cbn [userDef]; lia | vm_compute; discriminate | small | vm_compute; discriminate | small].

Lemma message_unpack_pack_witness :
  let m := mkMsg WRITE (-7) [lit "k"; lit "long key"] [[0; 255]; []] in
  Full (Some (Pack m ++ [1; 2; 3])) = true /\ Unpack (Some (Pack m ++ [1; 2; 3])) = Ok (blen (Pack m), m).
Proof.
  intros m. apply (message_unpack_pack m [1; 2; 3]); subst m; [solve_wf|vm_compute; reflexivity].
Defined.

Lemma message_unpack_safe_witness :
  match Unpack (Some (Pack (mkMsg SET 1 [lit "k"] [lit "v"]) ++ [9])) with
  | Fault => False
  | Reject => True
  | Ok (n, m) => exists buf, Some (Pack (mkMsg SET 1 [lit "k"] [lit "v"]) ++ [9]) = Some buf /\ message_wf m /\
      n = blen (Pack m) /\ n <= blen buf /\ take (Z.to_nat n) buf = Pack m
  end.
Proof. apply message_unpack_safe. intros buf [= <-]. split; [small|vm_compute; reflexivity]. Defined.

Lemma store_waiters_consistent_witness :
  (forall i c, waitCtx_ (waiting demo_state) !! i = Some c ->
     id_ c = i /\ exists ids, keyWaiters_ (waiting demo_state) !! key_ c = Some ids /\ i ∈ ids) /\
  waiters_of demo_key (waiting demo_state) =
    [mkWait 2 11 demo_key (mkCtx 2 8); mkWait 1 (-1) demo_key (mkCtx 1 7)].
Proof.
  split; [|vm_compute; reflexivity].
  apply (store_waiters_consistent (mkLocalStore ∅) 4 true demo_events demo_state); [done|apply demo_run|done].
Defined.


Lemma store_set_wakes_all_witness :
  exists waiters l s',
    SetHandler (E := env_at 5) (mkCtx 4 9) (mkMsg SET (-1) [demo_key] [lit "go"]) demo_state = Some (SM_OK, s') /\
    waiters ≡ₚ reqCtx_ <$> waiters_of demo_key (waiting demo_state) /\
    replies s' = replies demo_state ++ mkReply (mkCtx 4 9) 0 (lit "success") ::
                 sent (E := env_at 5) SUCCESS (response GET [lit "go"]) waiters ++ l.
Proof.
  destruct (store_set_wakes_all (E := env_at 5) (mkLocalStore ∅) 4 true demo_events demo_state (mkCtx 4 9) (-1) demo_key (lit "go"))
    as (waiters & l & s' & H1 & H2 & H3 & _); [done|apply demo_run|done|done|].
  exists waiters, l, s'. exact (conj H1 (conj H2 H3)).
Defined.

Lemma store_set_get_roundtrip_witness :
  exists s1 s2 body,
    ReceiveMessageHandler (E := env_at 5) (mkCtx 4 9) (Some (Pack (mkMsg SET (-1) [demo_key] [lit "go"]))) demo_state
      = Some (SM_OK, s1) /\
    ReceiveMessageHandler (E := env_at 5) (mkCtx 5 9) (Some (Pack (mkMsg GET 0 [demo_key] []))) s1 = Some (SM_OK, s2) /\
    replies s2 = replies s1 ++ [mkReply (mkCtx 5 9) SUCCESS body] /\
    Unpack (Some body) = Ok (blen body, mkMsg GET (-1) [] [lit "go"]).
Proof.
  apply (store_set_get_roundtrip (E := env_at 5) demo_state (mkCtx 4 9) (mkCtx 5 9) (-1) 0 demo_key (lit "go"));
    [solve_wf|solve_wf|reflexivity|vm_compute; discriminate|reflexivity].
Defined.

Lemma store_add_counter_witness :
  exists s' l, foldM [5; -7; 40] (fun v _ => AddHandler (E := env_at 5) (mkCtx 4 9) (add_request (-1) (lit "n") v)) SM_OK
      demo_state = Some (SM_OK, s') /\
    kvStore_ (backend_ s') !! lit "n" = Some (lit "38") /\
    (forall k, k <> lit "n" -> kvStore_ (backend_ s') !! k = kvStore_ (backend_ demo_state) !! k) /\
    replies s' = replies demo_state ++ l /\
    [mkReply (mkCtx 4 9) 0 (lit "5"); mkReply (mkCtx 4 9) 0 (lit "-2"); mkReply (mkCtx 4 9) 0 (lit "38")] `sublist_of` l.
Proof. apply (store_add_counter (E := env_at 5) demo_state (mkCtx 4 9) (-1) (lit "n") [5; -7; 40]);
  [done|done|small|small|vm_compute; reflexivity].
Defined.

Lemma store_ranks_distinct_witness :
  exists (rs : list Z) s',
    foldM [mkCtx 1 11; mkCtx 1 12; mkCtx 1 13] (fun ctx _ => GetHandler (E := env_at 5) ctx (rank_request (-1))) 0
      (new_server (mkLocalStore ∅) 3 true) = Some (0, s') /\ NoDup rs /\ length rs = 3%nat.
Proof.
  destruct (store_ranks_distinct (E := env_at 5) 3 true [mkCtx 1 11; mkCtx 1 12; mkCtx 1 13])
    as (rs & s' & H1 & H2 & _ & _ & H3 & _); [apply (bool_decide_unpack _); vm_compute; exact I|small|done|].
  exists rs, s'. exact (conj H1 (conj H2 H3)).
Defined.

Lemma store_timeout_only_expired_witness :
  exists late s', TimerThreadTask (E := env_at 20) demo_state = Some (tt, s') /\
    replies s' = replies demo_state ++ sent (E := env_at 20) TIMEOUT (lit "<timeout>") late.
Proof.
  destruct (store_timeout_only_expired (E := env_at 20) (mkLocalStore ∅) 4 true demo_events demo_state)
    as (late & s' & H1 & H2 & _); [done|apply demo_run|done|].
  exists late, s'. exact (conj H1 H2).
Defined.

(** A store shared between servers, that the servers take for a distributed one. *)
Record SharedStore := mkShared { shared_kv : SmemLocalMemoryBackend }.
#[global] Instance shared_backend : ConfigStoreBackend SharedStore := {|
  Get k out b := local_Get k out (shared_kv b); PrefixGet k b := local_PrefixGet k (shared_kv b);
  Put k v ttl b := let '(ret, b) := local_Put k v ttl (shared_kv b) in (ret, mkShared b);
  Delete k b := let '(ret, b) := local_Delete k (shared_kv b) in (ret, mkShared b);
  Exist k b := local_Exist k (shared_kv b); Clear b := mkShared (local_Clear (shared_kv b));
  IsDistributed := fun _ => true |}.
#[global, refine] Instance shared_reliable : ReliableBackend SharedStore := {|
  contents b := kvStore_ (shared_kv b) |}.
Proof.
  - done.
  - done.
  - intros k b. exact (PrefixGet_law (ReliableBackend := local_reliable) k (shared_kv b)).
  - intros k v ttl b. done.
  - intros k b. destruct (Delete_law (ReliableBackend := local_reliable) k (shared_kv b)) as (_ & H). by split.
  - done.
Defined.

(** Three ranks are persisted; rank 5 comes back, so ranks 0 and 9 are announced. *)
Lemma store_failover_announces_witness :
  let old := new_server (mkShared (mkLocalStore ∅)) 16 true in
  let rs : gset Z := {[0; 5; 9]} in
  let old' := default old (snd <$> PersistAliveRankIds rs old) in
  let new := new_server (backend_ old') 16 true in
  exists s, RestoreFromBackend new = Some (SM_OK, s) /\ aliveRankFromBackend_ (ranks s) = rs /\
    forall ret s2,
      foldM [(env_at 5, (16 * 2 ^ 32 + 5, 1, 21))] (fun '(E', (reqRankId, reconnect, linkId)) _ =>
        LinkConnectedHandler (E := E') reqRankId reconnect linkId) SM_OK s = Some (ret, s2) ->
      exists s3, CleanupStaleRanks false false s2 = Some (tt, s3) /\
        rankStateTaskQueue_ (ranks s3) = rankStateTaskQueue_ (ranks new) ++ elements (rs ∖ aliveRankSet_ (ranks s2)).
Proof.
  intros old rs old' new. apply (store_failover_announces (E := env_at 5) old old' new rs);
    [|done|vm_compute; reflexivity|done].
  subst rs. apply (bool_decide_unpack _). vm_compute. exact I.
Defined.

(** ** Flaws

    A WRITE that creates a key leaves the requests that wait for the key waiting: nobody
    is answered although the key exists. *)
Theorem store_write_loses_wakeup :
  exists evs s c v, store_run false (mkLocalStore ∅) 4 true evs s /\
    waitCtx_ (waiting s) !! 1 = Some c /\ timeoutMs_ c = -1 /\ kvStore_ (backend_ s) !! key_ c = Some v /\
    Forall (fun r => r_ctx r <> reqCtx_ c) (replies s).
Proof.
  set (evs := [EvReceive (mkCtx 1 7) (request GET (-1) []);
               EvReceive (mkCtx 2 8) (request WRITE (-1) [[0; 0; 0; 0; 1]])]).
  destruct (exec 0 evs fresh_local) as [s|] eqn:Ee; [|vm_compute in Ee; discriminate Ee].
  exists evs, s, (mkWait 1 (-1) demo_key (mkCtx 1 7)), [1].
  split; [by apply (exec_extends false (mkLocalStore ∅) 4 true 0 evs [] fresh_local); [apply run_start|..]|].
  vm_compute in Ee. injection Ee as <-.
  split_and!; try (vm_compute; reflexivity). repeat constructor; discriminate.
Qed.

(** Any client can SET the key under which the server keeps the rank of another link.
    When that link breaks, [LinkBrokenHandler] copies the whole value into four bytes: a
    longer value is written past the end of the object. *)
Theorem store_broken_link_overflow {E : StoreEnv} (s : Server SmemLocalMemoryBackend) c u linkId value :
  let key := autoRankingStr_ ++ to_string linkId in
  key_too_long key = false -> 4 < blen value ->
  exists s', SetHandler c (mkMsg SET u [key] [value]) s = Some (SM_OK, s') /\ LinkBrokenHandler linkId s' = None.
Proof.
  intros key Hk Hv. pose proof (SetHandler_run c u key value s Hk) as Hset. simpl in Hset.
  eexists. split; [exact Hset|]. unfold LinkBrokenHandler, forget_rank, bGet, gets, mbind, M_bind. fold key.
  cbn [Get local_backend]. unfold local_Get.
  destruct (decide _); simpl; rewrite lookup_insert_eq; simpl; unfold copy_rank; by rewrite (proj2 (Z.ltb_lt _ _)).
Qed.
Lemma store_broken_link_overflow_witness :
  exists s', SetHandler (E := env_at 5) (mkCtx 4 9) (mkMsg SET (-1) [lit "AutoRanking#7"] [lit "12345"]) demo_state
      = Some (SM_OK, s') /\ LinkBrokenHandler 7 s' = None.
Proof.
  apply (store_broken_link_overflow (E := env_at 5) demo_state (mkCtx 4 9) (-1) 7 (lit "12345"));
    vm_compute; reflexivity.
Defined.
