(* ===== verification/GroupTheorems.v ===== *)
(** * GroupTheorems: the config store client and the collective operations *)
From Stdlib Require Import String.
From stdpp Require Import gmap.
From S2P Require Import Prelude Simt StrUtil MessagePacker StoreBackend StoreServer StoreServerProof StoreScenario.
From S2P Require Import StoreClient StoreClientProof GroupEngine GroupRounds GroupProof GroupNumbers StoreTheorems.

(** ** The processes of a round *)

(** [enters prefix sn size e p]: [p] is a call of one of the two barriers by a process in
    state [e], for the round [sn] of [size] processes. *)
Inductive enters (prefix : bytes) (sn size : Z) : SmemNetGroupEngine -> prog (Z * SmemNetGroupEngine) -> Prop :=
| enters_group e :
    dynamic (option_ e) = false -> prefix = to_string (groupVersion_ e) ++ lit "_" ->
    sn = u32 (barrierGroupSn_ e + 1) -> size = groupSize e ->
    enters prefix sn size e (GroupBarrier e)
| enters_user key rankId e :
    dynamic (option_ e) = false -> blen key < USER_GROUP_KEY_LEN_MAX -> size <= groupSize e -> rankId < size ->
    prefix = key ++ lit "_" -> sn = u32 (default 0 (userGroupBarrierSn_ e !! key) + 1) ->
    enters prefix sn size e (GroupBarrierUser key size rankId e).
(** The same for the all-gathers; process [i] sends [data]. *)
Inductive gathers (prefix : bytes) (sn size : Z) (i : nat) (data : bytes)
  : SmemNetGroupEngine -> prog (Z * bytes * SmemNetGroupEngine) -> Prop :=
| gathers_group e recvBuf :
    dynamic (option_ e) = false -> prefix = to_string (groupVersion_ e) ++ lit "_" ->
    sn = u32 (allGatherGroupSn_ e + 1) -> size = groupSize e -> rank (option_ e) = Z.of_nat i ->
    gathers prefix sn size i data e (GroupAllGather data recvBuf (u32 (blen data * size)) e)
| gathers_user key recvBuf e :
    dynamic (option_ e) = false -> blen key < USER_GROUP_KEY_LEN_MAX -> size <= groupSize e -> Z.of_nat i < size ->
    prefix = key ++ lit "_" -> sn = u32 (default 0 (userGroupGatherSn_ e !! key) + 1) ->
    gathers prefix sn size i data e (GroupAllGatherUser key size (Z.of_nat i) data recvBuf (u32 (blen data * size)) e).

Lemma enters_round prefix sn size e p :
  enters prefix sn size e p ->
  0 <= sn < 2 ^ 32 /\ exists wf e', p = barrier_round wf prefix sn size e' /\
    (forall r, r <> SM_OK -> wf r <> SM_OK) /\ delayCleanKeyList_ e' = delayCleanKeyList_ e.
Proof.
  intros [e' Hd -> -> ->|key rankId e' Hd Hk Hs Hr -> ->]; (split; [apply Z.mod_pos_bound; lia|]).
  - unfold GroupBarrier. rewrite Hd. eexists (fun r => r), _. done.
  - unfold GroupBarrierUser. rewrite Hd, (proj2 (Z.ltb_lt _ _) Hk), (proj2 (Z.leb_le _ _) Hs), (proj2 (Z.ltb_lt _ _) Hr).
    eexists (fun _ => SM_ERROR), _. done.
Qed.
Lemma gathers_round prefix sn size i data e p :
  gathers prefix sn size i data e p ->
  0 <= sn < 2 ^ 32 /\ exists recvBuf e', p = gather_round prefix sn size (Z.of_nat i) data recvBuf e' /\
    delayCleanKeyList_ e' = delayCleanKeyList_ e.
Proof.
  intros [e' recvBuf Hd -> -> -> Hr|key recvBuf e' Hd Hk Hs Hr -> ->]; (split; [apply Z.mod_pos_bound; lia|]).
  - unfold GroupAllGather. rewrite Hd, Z.eqb_refl, Hr. eexists _, _. done.
  - unfold GroupAllGatherUser.
    rewrite Hd, (proj2 (Z.ltb_lt _ _) Hk), (proj2 (Z.leb_le _ _) Hs), (proj2 (Z.ltb_lt _ _) Hr), Z.eqb_refl.
    eexists _, _. done.
Qed.

Lemma list_as_map {A} (d : A) (l : list A) : l = (fun i => default d (l !! i)) <$> seq 0 (length l).
Proof.
  apply list_eq. intros i. rewrite list_lookup_fmap. destruct (decide (i < length l)%nat) as [Hi|Hi].
  - rewrite lookup_seq_lt by done. destruct (lookup_lt_is_Some_2 l i Hi) as [x Hx]. simpl. by rewrite Hx.
  - rewrite !lookup_ge_None_2; rewrite ?length_seq; [done|lia|lia].
Qed.

Definition idle : SmemNetGroupEngine := mkEngine (mkOption 0 0 false) (mkInfo 0 0 0 0 0 []) 0 0 0 ∅ ∅ ∅ [].

Section barriers.
Context (prefix : bytes) (sn : Z) (engines : list SmemNetGroupEngine) (progs : list (prog (Z * SmemNetGroupEngine))).
Let n := length progs.
Let addKey := round_key prefix sn (lit "_BA").
Let waitKey := round_key prefix sn (lit "_BW").
Context (Hn : (0 < n)%nat) (Hbig : Z.of_nat n < 2 ^ 32).
Context (Henter : Forall2 (enters prefix sn (Z.of_nat n)) engines progs).
Let init (i : nat) := default (Ret (SM_ERROR, idle)) (progs !! i).

Lemma barrier_rank i :
  (i < n)%nat -> exists e e' wf, engines !! i = Some e /\ delayCleanKeyList_ e' = delayCleanKeyList_ e /\
    init i = barrier_round wf prefix sn (Z.of_nat n) e' /\ (forall r, r <> SM_OK -> wf r <> SM_OK) /\ 0 <= sn < 2 ^ 32.
Proof.
  intros Hi. destruct (lookup_lt_is_Some_2 progs i Hi) as [p Hp].
  destruct (Forall2_lookup_r _ _ _ _ _ Henter Hp) as (e & He & H).
  destruct (enters_round _ _ _ _ _ H) as (Hsn & wf & e' & -> & Hwf & Hl).
  exists e, e', wf. unfold init. by rewrite Hp.
Qed.
Lemma barrier_round_safe m w i r :
  m !! addKey = None -> m !! waitKey = None ->
  rtc (wstep [addKey; waitKey]) (mkWorld m progs []) w -> w_ranks w !! i = Some (Ret r) -> r.1 = SM_OK ->
  forall j, (j < n)%nat -> (j, KAdd addKey 1) ∈ w_calls w.
Proof.
  intros Ha Hw Hrun Hi Hr.
  rewrite (list_as_map (Ret (SM_ERROR, idle)) progs) in Hrun.
  destruct (round_safe n addKey waitKey (fun _ => KAdd addKey 1) init tally Z.of_nat succeeded (fun _ => True)
    (barrier_keys prefix sn)) with (m := m) (w := w) (i := i) (r := r) as [Hall _]; try done.
  - intros l Hl. lia.
  - intros m' L j. by apply barrier_first.
  - intros j Hj. destruct (barrier_rank j Hj) as (e & e' & wf & _ & _ & -> & Hwf & Hsn). by apply barrier_past.
Qed.
Lemma barrier_round_completes c m k w :
  Forall (fun e => apart prefix sn (lit "_BA") (lit "_BW") e /\ (to_clean e <= c)%nat) engines ->
  m !! addKey = None -> m !! waitKey = None ->
  nsteps (lstep [addKey; waitKey]) k (m, progs) w ->
  (k <= n * (c + 5))%nat /\
  ((forall w', ~ lstep [addKey; waitKey] w w') -> forall i p, w.2 !! i = Some p -> exists r, p = Ret r /\ r.1 = SM_OK).
Proof.
  intros He Ha Hw Hrun.
  rewrite (list_as_map (Ret (SM_ERROR, idle)) progs) in Hrun.
  apply (round_completes n addKey waitKey SMEM_GROUP_SET_STR (fun _ => KAdd addKey 1) init tally Z.of_nat succeeded)
    with (m := m); try done.
  - by apply round_keys_differ.
  - intros l Hl. lia.
  - intros m' L j. by apply barrier_first.
  - intros j Hj. destruct (barrier_rank j Hj) as (e & e' & wf & Hj' & Hl & -> & Hwf & Hsn). apply barrier_lively; try done.
    destruct (proj1 (Forall_lookup _ _) He j e Hj') as [Hap _]. intros key Hk. apply Hap. by rewrite <- Hl.
  - intros j Hj. destruct (barrier_rank j Hj) as (e & e' & wf & Hj' & Hl & -> & _).
    destruct (proj1 (Forall_lookup _ _) He j e Hj') as [_ Hc]. eapply bounded_le; [by apply (barrier_bounded n)|].
    unfold to_clean in *. rewrite Hl. lia.
Qed.
End barriers.

Section all_gathers.
Context (prefix : bytes) (sn : Z) (len : nat) (datas : list bytes) (engines : list SmemNetGroupEngine).
Context (progs : list (prog (Z * bytes * SmemNetGroupEngine))).
Let n := length progs.
Let addKey := round_key prefix sn (lit "_GA").
Let waitKey := round_key prefix sn (lit "_GW").
Context (Hn : (0 < n)%nat) (Hbig : Z.of_nat n < 2 ^ 32) (Hdatas : length datas = n).
Context (Hlen : Forall (fun d => length d = len) datas) (Hengines : length engines = n).
Context (Hgather : forall i d e p, datas !! i = Some d -> engines !! i = Some e -> progs !! i = Some p ->
  gathers prefix sn (Z.of_nat n) i d e p).
Let init (i : nat) := default (Ret (SM_ERROR, [], idle)) (progs !! i).
Let data (i : nat) := default [] (datas !! i).

Lemma gather_data_len i : (i < n)%nat -> length (data i) = len.
Proof.
  intros Hi. destruct (lookup_lt_is_Some_2 datas i) as [d Hd]; [lia|]. unfold data. rewrite Hd.
  by eapply Forall_lookup_1 in Hlen.
Qed.
Lemma gather_all_data : concat (data <$> seq 0 n) = concat datas.
Proof. f_equal. rewrite <- Hdatas. unfold data. symmetry. apply list_as_map. Qed.
Lemma gather_rank i :
  (i < n)%nat -> exists e e' recvBuf, engines !! i = Some e /\ delayCleanKeyList_ e' = delayCleanKeyList_ e /\
    init i = gather_round prefix sn (Z.of_nat n) (Z.of_nat i) (data i) recvBuf e' /\ 0 <= sn < 2 ^ 32.
Proof.
  intros Hi. destruct (lookup_lt_is_Some_2 progs i Hi) as [p Hp].
  destruct (lookup_lt_is_Some_2 datas i) as [d Hd]; [lia|]. destruct (lookup_lt_is_Some_2 engines i) as [e He]; [lia|].
  destruct (gathers_round _ _ _ _ _ _ _ (Hgather i d e p Hd He Hp)) as (Hsn & recvBuf & e' & -> & Hl).
  exists e, e', recvBuf. unfold init, data. by rewrite Hp, Hd.
Qed.
Lemma gather_round_exact m w i r :
  m !! addKey = None -> m !! waitKey = None ->
  rtc (wstep [addKey; waitKey]) (mkWorld m progs []) w -> w_ranks w !! i = Some (Ret r) -> r.1.1 = SM_OK ->
  r.1.2 = concat datas.
Proof.
  intros Ha Hw Hrun Hi Hr. rewrite (list_as_map (Ret (SM_ERROR, [], idle)) progs) in Hrun. rewrite <- gather_all_data.
  destruct (round_safe n addKey waitKey (fun i => KAppend addKey (block data i)) init (blocks data)
    (fun l => (Z.of_nat len + 4) * Z.of_nat l) gather_done (gathered n data) (gather_keys prefix sn))
    with (m := m) (w := w) (i := i) (r := r) as [_ Hg]; try done.
  - intros l. by apply gather_num.
  - intros m' L j ? ? ?. apply (gather_first n len data prefix sn); try done; apply gather_data_len.
  - intros j Hj. destruct (gather_rank j Hj) as (e & e' & recvBuf & _ & _ & -> & Hsn).
    eexists. split; [apply (gather_call n len data prefix sn); try done; apply gather_data_len|].
    apply (gather_past n len data prefix sn); try done; apply gather_data_len.
Qed.
Lemma gather_round_completes c m k w :
  Forall (fun e => apart prefix sn (lit "_GA") (lit "_GW") e /\ (to_clean e <= c)%nat) engines ->
  m !! addKey = None -> m !! waitKey = None ->
  nsteps (lstep [addKey; waitKey]) k (m, progs) w ->
  (k <= n * (c + 6))%nat /\
  ((forall w', ~ lstep [addKey; waitKey] w w') -> forall i p, w.2 !! i = Some p -> exists r, p = Ret r /\ r.1.1 = SM_OK).
Proof.
  intros He Ha Hw Hrun. rewrite (list_as_map (Ret (SM_ERROR, [], idle)) progs) in Hrun.
  apply (round_completes n addKey waitKey SMEM_GROUP_SET_STR (fun i => KAppend addKey (block data i)) init (blocks data)
    (fun l => (Z.of_nat len + 4) * Z.of_nat l) gather_done) with (m := m); try done.
  - by apply round_keys_differ.
  - intros l. by apply gather_num.
  - intros m' L j ? ? ?. apply (gather_first n len data prefix sn); try done; apply gather_data_len.
  - intros j Hj. destruct (gather_rank j Hj) as (e & e' & recvBuf & Hj' & Hl & -> & Hsn).
    eexists. split; [apply (gather_call n len data prefix sn); try done; apply gather_data_len|]. intros l ans.
    destruct (proj1 (Forall_lookup _ _) He j e Hj') as [Hap _]. apply (gather_lively n len); try done; [apply gather_data_len|].
    intros key Hk. apply Hap. by rewrite <- Hl.
  - intros j Hj. destruct (gather_rank j Hj) as (e & e' & recvBuf & Hj' & Hl & -> & Hsn).
    destruct (proj1 (Forall_lookup _ _) He j e Hj') as [_ Hc].
    rewrite (gather_call n len) by (done || apply gather_data_len).
    eapply bounded_le; [apply (gather_bounded n len data prefix sn); try done; apply gather_data_len|].
    unfold to_clean in *. rewrite Hl. lia.
Qed.
End all_gathers.

(** ** The properties *)

(** C29. A client call through the encoding, the server's handler and the decoding of the answer
    returns, and means one step of the abstract store: the answer is the one [kv_step]
    gives and the contents of the server change as [kv_step] says.  [op_ok] asks for keys
    and values within the limits, for a key outside the rank keys in a GET, and for a GET
    that does not have to wait. *)
Theorem store_client_refines {E : StoreEnv} (ctx : ReqCtx) (op : kv_op) (s : Server SmemLocalMemoryBackend) :
  op_ok op (contents_of s) ->
  exists s', client_call (T := server_transport ctx) op s = Some ((kv_step op (contents_of s)).1, s') /\
    contents_of s' = (kv_step op (contents_of s)).2.
Proof. apply client_call_refines. Qed.

(** C24. No process leaves a barrier before every process has reached it: whenever a process of
    the round returns SM_OK, every process has made its call on the round's counter.  Single
    calls may fail, before or after their effect, and other users of the store may act in
    between and may even remove the round's keys. *)
Theorem barrier_safe (prefix : bytes) (sn : Z) (engines : list SmemNetGroupEngine)
    (progs : list (prog (Z * SmemNetGroupEngine))) (m : kv) w (i : nat) r :
  let addKey := round_key prefix sn (lit "_BA") in
  let waitKey := round_key prefix sn (lit "_BW") in
  (0 < length progs)%nat -> Z.of_nat (length progs) < 2 ^ 32 ->
  Forall2 (enters prefix sn (Z.of_nat (length progs))) engines progs ->
  m !! addKey = None -> m !! waitKey = None ->
  rtc (wstep [addKey; waitKey]) (mkWorld m progs []) w -> w_ranks w !! i = Some (Ret r) -> r.1 = SM_OK ->
  forall j, (j < length progs)%nat -> (j, KAdd addKey 1) ∈ w_calls w.
Proof. intros addKey waitKey Hn Hbig Henter. by eapply barrier_round_safe. Qed.

(** C26. A barrier in which no call fails ends: a run makes at most [n * (c + 5)] calls, where
    [c] bounds the keys that wait for removal, and when no process can go on, every process
    has returned SM_OK. *)
Theorem barrier_completes (prefix : bytes) (sn : Z) (engines : list SmemNetGroupEngine)
    (progs : list (prog (Z * SmemNetGroupEngine))) (c : nat) (m : kv) (k : nat) w :
  let addKey := round_key prefix sn (lit "_BA") in
  let waitKey := round_key prefix sn (lit "_BW") in
  (0 < length progs)%nat -> Z.of_nat (length progs) < 2 ^ 32 ->
  Forall2 (enters prefix sn (Z.of_nat (length progs))) engines progs ->
  Forall (fun e => apart prefix sn (lit "_BA") (lit "_BW") e /\ (to_clean e <= c)%nat) engines ->
  m !! addKey = None -> m !! waitKey = None ->
  nsteps (lstep [addKey; waitKey]) k (m, progs) w ->
  (k <= length progs * (c + 5))%nat /\
  ((forall w', ~ lstep [addKey; waitKey] w w') -> forall i p, w.2 !! i = Some p -> exists r, p = Ret r /\ r.1 = SM_OK).
Proof. intros addKey waitKey Hn Hbig Henter He. by eapply barrier_round_completes. Qed.

(** C25. An all-gather that returns SM_OK has received the data of every process, in rank order
    and nothing else, whatever the order in which the processes arrived, which calls failed
    and what other users of the store did. *)
Theorem gather_exact (prefix : bytes) (sn : Z) (len : nat) (datas : list bytes) (engines : list SmemNetGroupEngine)
    (progs : list (prog (Z * bytes * SmemNetGroupEngine))) (m : kv) w (i : nat) r :
  let addKey := round_key prefix sn (lit "_GA") in
  let waitKey := round_key prefix sn (lit "_GW") in
  (0 < length progs)%nat -> Z.of_nat (length progs) < 2 ^ 32 ->
  length datas = length progs -> Forall (fun d => length d = len) datas -> length engines = length progs ->
  (forall j d e p, datas !! j = Some d -> engines !! j = Some e -> progs !! j = Some p ->
     gathers prefix sn (Z.of_nat (length progs)) j d e p) ->
  m !! addKey = None -> m !! waitKey = None ->
  rtc (wstep [addKey; waitKey]) (mkWorld m progs []) w -> w_ranks w !! i = Some (Ret r) -> r.1.1 = SM_OK ->
  r.1.2 = concat datas.
Proof. intros addKey waitKey Hn Hbig Hd Hl He Hg. by eapply gather_round_exact. Qed.

(** An all-gather in which no call fails ends with SM_OK in every process. *)
Theorem gather_completes (prefix : bytes) (sn : Z) (len : nat) (datas : list bytes) (engines : list SmemNetGroupEngine)
    (progs : list (prog (Z * bytes * SmemNetGroupEngine))) (c : nat) (m : kv) (k : nat) w :
  let addKey := round_key prefix sn (lit "_GA") in
  let waitKey := round_key prefix sn (lit "_GW") in
  (0 < length progs)%nat -> Z.of_nat (length progs) < 2 ^ 32 ->
  length datas = length progs -> Forall (fun d => length d = len) datas -> length engines = length progs ->
  (forall j d e p, datas !! j = Some d -> engines !! j = Some e -> progs !! j = Some p ->
     gathers prefix sn (Z.of_nat (length progs)) j d e p) ->
  Forall (fun e => apart prefix sn (lit "_GA") (lit "_GW") e /\ (to_clean e <= c)%nat) engines ->
  m !! addKey = None -> m !! waitKey = None ->
  nsteps (lstep [addKey; waitKey]) k (m, progs) w ->
  (k <= length progs * (c + 6))%nat /\
  ((forall w', ~ lstep [addKey; waitKey] w w') -> forall i p, w.2 !! i = Some p -> exists r, p = Ret r /\ r.1.1 = SM_OK).
Proof. intros addKey waitKey Hn Hbig Hd Hl He Hg Hc. by eapply gather_round_completes. Qed.

(** C28. Numbers are never shared: from a store without the bitmap and processes without numbers,
    over any interleaving of allocations and releases, with swaps that fail without an
    effect, the numbers two processes hold are different, lie below 1024, and their bits
    are set in the store. *)
Theorem numbers_unique (m m' : kv) (engines : list SmemNetGroupEngine) (nodes : list node) :
  m !! SMEM_GROUP_CAS_ALLOC_NUM_KEY = None -> Forall (fun e => allocedSet_ e = ∅) engines ->
  rtc num_step (m, Idle <$> engines) (m', nodes) ->
  forall i nd x, nodes !! i = Some nd -> x ∈ allocedSet_ (node_engine nd) ->
    0 <= x < SMEM_ALLOC_NUM_SIZE /\
    (exists v, m' !! SMEM_GROUP_CAS_ALLOC_NUM_KEY = Some v /\ bit_of v x = Some true) /\
    forall j nd', nodes !! j = Some nd' -> x ∈ allocedSet_ (node_engine nd') -> i = j.
Proof.
  intros Hm He Hrun i nd x Hi Hx. pose proof (num_run_inv (m, Idle <$> engines) (m', nodes) (num_inv_start m engines Hm He) Hrun) as HI. simpl in HI.
  split; [by apply (ni_number _ _ HI i nd)|]. split; [by apply (ni_bits _ _ HI i nd)|].
  intros j nd' Hj Hx'. destruct (decide (i = j)) as [|Hne]; [done|]. by destruct (ni_apart _ _ HI i j nd nd' Hi Hj Hne x).
Qed.

(** A process alone allocates the first free number of the stored bitmap in two swaps, and
    releasing it restores both the bitmap and the set of its numbers. *)
Theorem number_alloc_release (m : kv) (v : bytes) (i : Z) (e : SmemNetGroupEngine) :
  m !! SMEM_GROUP_CAS_ALLOC_NUM_KEY = Some v -> blen v = SMEM_ALLOC_NUM_BUF_LEN -> 0 <= i < SMEM_ALLOC_NUM_SIZE ->
  bit_of v i = Some false -> (forall j, 0 <= j < i -> bit_of v j = Some true) -> i ∉ allocedSet_ e ->
  exists e1 m1, run_alone 2 (AllocNumber 2 e) m = Some (NumDone i e1, m1) /\ allocedSet_ e1 = {[i]} ∪ allocedSet_ e /\
    run_alone 2 (ReleaseNumber 2 i e1) m1 = Some (NumDone SM_OK e, m).
Proof.
  intros Hm Hl Hi Hfree Hbefore Hni. unfold blen in Hl. assert (Hl' : length v = Z.to_nat SMEM_ALLOC_NUM_BUF_LEN) by lia.
  eexists _, _. split; [by apply (alloc_alone m v)|]. split; [done|].
  rewrite (release_alone _ (flip_bit v i)); [|apply lookup_insert_eq|by rewrite length_flip|done|set_solver|].
  - rewrite flip_twice, insert_insert_eq. rewrite (fin_maps.insert_id m) by done. unfold set_alloced, held. cbn [allocedSet_].
    replace (({[i]} ∪ allocedSet_ e) ∖ {[i]}) with (allocedSet_ e) by set_solver. by destruct e.
  - rewrite bit_of_flip by lia. by rewrite decide_True, Hfree.
Qed.

(** The group's own rounds and the rounds of a user key are not kept apart: with the group
    version in decimal as key, a user barrier is a call in the group's round. *)
Lemma user_key_collides (size rankId : Z) (e e' : SmemNetGroupEngine) :
  let key := to_string (groupVersion_ e) in
  dynamic (option_ e) = false -> size = groupSize e -> dynamic (option_ e') = false -> blen key < USER_GROUP_KEY_LEN_MAX ->
  size <= groupSize e' -> rankId < size -> default 0 (userGroupBarrierSn_ e' !! key) = barrierGroupSn_ e ->
  exists prefix sn, enters prefix sn size e (GroupBarrier e) /\
    enters prefix sn size e' (GroupBarrierUser key size rankId e').
Proof.
  intros key Hd Hs Hd' Hk Hs' Hr Hsn. exists (key ++ lit "_"), (u32 (barrierGroupSn_ e + 1)).
  split; [by constructor|]. apply enters_user; try done. by rewrite Hsn.
Qed.

(** ** Witnesses: two processes, in their fourth round, with ten keys to clean *)
Definition demo_engine (r : Z) : SmemNetGroupEngine :=
  mkEngine (mkOption r 1000 false) (mkInfo 0 2 0 0 0 []) 1 3 3 ∅ {[lit "team" := 3]} ∅ (replicate 10 (lit "old")).
Definition demo_engines : list SmemNetGroupEngine := [demo_engine 0; demo_engine 1].
Definition demo_barrier : list (prog (Z * SmemNetGroupEngine)) :=
  [GroupBarrier (demo_engine 0); GroupBarrier (demo_engine 1)].
Definition demo_datas : list bytes := [[10; 11; 12]; [20; 21; 22]].
Definition demo_gather : list (prog (Z * bytes * SmemNetGroupEngine)) :=
  [GroupAllGather [10; 11; 12] [] 6 (demo_engine 0); GroupAllGather [20; 21; 22] [] 6 (demo_engine 1)].
Definition demo_order : list nat := [1; 1; 1; 0; 0; 0; 1]%nat.
Definition demo_gather_order : list nat := [1; 1; 1; 0; 0; 0; 0; 1; 1]%nat.
Definition outcome {R : Type} (order : list nat) (progs : list (prog R)) : kv * list (prog R) :=
  default (∅, progs) (schedule order (∅, progs)).

Lemma demo_apart add wait :
  lit "old" ∉ [round_key (lit "1_") 4 add; round_key (lit "1_") 4 wait] ->
  Forall (fun e => apart (lit "1_") 4 add wait e /\ (to_clean e <= 10)%nat) demo_engines.
Proof.
  intros Hk. repeat constructor; try done; intros key Hin; apply elem_of_replicate in Hin as [-> _]; exact Hk.
Qed.
Lemma demo_enters : Forall2 (enters (lit "1_") 4 2) demo_engines demo_barrier.
Proof. repeat constructor. Qed.
Lemma demo_user_enters :
  enters (lit "team_") 4 2 (demo_engine 1) (GroupBarrierUser (lit "team") 2 1 (demo_engine 1)).
Proof. by constructor. Qed.
Lemma demo_gathers j d e p :
  demo_datas !! j = Some d -> demo_engines !! j = Some e -> demo_gather !! j = Some p ->
  gathers (lit "1_") 4 2 j d e p.
Proof.
  destruct j as [|[|j]]; [| |done]; intros [= <-] [= <-] [= <-].
  - by apply (gathers_group (lit "1_") 4 2 0 [10; 11; 12] (demo_engine 0) []).
  - by apply (gathers_group (lit "1_") 4 2 1 [20; 21; 22] (demo_engine 1) []).
Qed.

Lemma store_client_refines_witness :
  exists s', client_call (T := server_transport (E := env_at 5) (mkCtx 4 9)) (KAppend (lit "log") [7; 8]) fresh_local =
      Some (mkAns 0 [] 2, s') /\ contents_of s' = {[lit "log" := [7; 8]]}.
Proof.
  apply (store_client_refines (E := env_at 5) (mkCtx 4 9) (KAppend (lit "log") [7; 8]) fresh_local).
  split; [split; [done|split; [small|vm_compute; discriminate]]|].
  split; [split; [small|vm_compute; discriminate]|vm_compute; reflexivity].
Defined.

Lemma barrier_safe_witness :
  exists log, rtc (wstep [lit "1_4_BA"; lit "1_4_BW"]) (mkWorld ∅ demo_barrier [])
      (mkWorld (outcome demo_order demo_barrier).1 (outcome demo_order demo_barrier).2 log) /\
    forall j, (j < 2)%nat -> (j, KAdd (lit "1_4_BA") 1) ∈ log.
Proof.
  destruct (schedule_world [lit "1_4_BA"; lit "1_4_BW"] demo_order (∅, demo_barrier) (outcome demo_order demo_barrier) [])
    as [log Hrun]; [vm_compute; reflexivity|].
  exists log. split; [exact Hrun|].
  destruct ((outcome demo_order demo_barrier).2 !! 1%nat) as [[r|]|] eqn:Hr; [|vm_compute in Hr; discriminate Hr..].
  refine (barrier_safe (lit "1_") 4 demo_engines demo_barrier ∅ _ 1 r _ _ demo_enters _ _ Hrun Hr _);
    [simpl; lia|reflexivity|reflexivity|reflexivity|]. vm_compute in Hr. injection Hr as <-. reflexivity.
Defined.

Lemma barrier_completes_witness :
  nsteps (lstep [lit "1_4_BA"; lit "1_4_BW"]) 7 (∅, demo_barrier) (outcome demo_order demo_barrier) /\
  forall i p, (outcome demo_order demo_barrier).2 !! i = Some p -> exists r, p = Ret r /\ r.1 = SM_OK.
Proof.
  assert (Hrun : nsteps (lstep [lit "1_4_BA"; lit "1_4_BW"]) 7 (∅, demo_barrier) (outcome demo_order demo_barrier)).
  { apply (schedule_steps _ demo_order). vm_compute. reflexivity. }
  split; [exact Hrun|].
  refine (proj2 (barrier_completes (lit "1_") 4 demo_engines demo_barrier 10 ∅ 7 _ _ _ demo_enters (demo_apart _ _ _) _ _ Hrun) _);
    [simpl; lia|reflexivity|by apply (bool_decide_unpack _)|reflexivity|reflexivity|].
  apply returned_stuck. vm_compute. reflexivity.
Defined.

Lemma gather_exact_witness :
  exists log r, rtc (wstep [lit "1_4_GA"; lit "1_4_GW"]) (mkWorld ∅ demo_gather [])
      (mkWorld (outcome demo_gather_order demo_gather).1 (outcome demo_gather_order demo_gather).2 log) /\
    (outcome demo_gather_order demo_gather).2 !! 1%nat = Some (Ret r) /\ r.1.2 = [10; 11; 12; 20; 21; 22].
Proof.
  destruct (schedule_world [lit "1_4_GA"; lit "1_4_GW"] demo_gather_order (∅, demo_gather) (outcome demo_gather_order demo_gather) [])
    as [log Hrun]; [vm_compute; reflexivity|].
  destruct ((outcome demo_gather_order demo_gather).2 !! 1%nat) as [[r|]|] eqn:Hr; [|vm_compute in Hr; discriminate Hr..].
  exists log, r. split; [exact Hrun|]. split; [reflexivity|].
  refine (gather_exact (lit "1_") 4 3 demo_datas demo_engines demo_gather ∅ _ 1 r _ _ _ _ _ demo_gathers _ _ Hrun Hr _);
    [simpl; lia|reflexivity|reflexivity|by repeat constructor|reflexivity|reflexivity|reflexivity|].
  vm_compute in Hr. injection Hr as <-. reflexivity.
Defined.

Lemma gather_completes_witness :
  nsteps (lstep [lit "1_4_GA"; lit "1_4_GW"]) 9 (∅, demo_gather) (outcome demo_gather_order demo_gather) /\
  forall i p, (outcome demo_gather_order demo_gather).2 !! i = Some p -> exists r, p = Ret r /\ r.1.1 = SM_OK.
Proof.
  assert (Hrun : nsteps (lstep [lit "1_4_GA"; lit "1_4_GW"]) 9 (∅, demo_gather) (outcome demo_gather_order demo_gather)).
  { apply (schedule_steps _ demo_gather_order). vm_compute. reflexivity. }
  split; [exact Hrun|].
  refine (proj2 (gather_completes (lit "1_") 4 3 demo_datas demo_engines demo_gather 10 ∅ 9 _ _ _ _ _ _ demo_gathers
    (demo_apart _ _ _) _ _ Hrun) _);
    [simpl; lia|reflexivity|reflexivity|by repeat constructor|reflexivity|by apply (bool_decide_unpack _)|reflexivity|reflexivity|].
  apply returned_stuck. vm_compute. reflexivity.
Defined.

(** Both processes allocate at the same time; the swap that arrives second is retried. *)
Definition demo_allocating : kv * list node :=
  (∅, [settle (demo_engine 0) (AllocNumber 3 (demo_engine 0)); settle (demo_engine 1) (AllocNumber 3 (demo_engine 1))]).
Definition demo_allocated : kv * list node := num_calls [0; 1; 1]%nat demo_allocating.
Lemma demo_numbers_run : rtc num_step (∅, Idle <$> demo_engines) demo_allocated.
Proof.
  eapply rtc_l; [apply (num_alloc _ _ 0 (demo_engine 0) 3); reflexivity|].
  eapply rtc_l; [apply (num_alloc _ _ 1 (demo_engine 1) 3); reflexivity|]. apply num_calls_run.
Qed.
Lemma numbers_unique_witness :
  (node_engine <$> demo_allocated.2) !! 1%nat = Some (set_alloced {[1]} (demo_engine 1)) /\
  forall j nd', demo_allocated.2 !! j = Some nd' -> 1 ∈ allocedSet_ (node_engine nd') -> 1%nat = j.
Proof.
  split; [vm_compute; reflexivity|].
  destruct (demo_allocated.2 !! 1%nat) as [nd|] eqn:Hnd; [|vm_compute in Hnd; discriminate Hnd].
  refine (proj2 (proj2 (numbers_unique ∅ demo_allocated.1 demo_engines demo_allocated.2 _ _ _ 1%nat nd 1 Hnd _)));
    [reflexivity|by repeat constructor|exact demo_numbers_run|].
  vm_compute in Hnd. injection Hnd as <-. apply (bool_decide_unpack _). vm_compute. exact I.
Defined.

Lemma number_alloc_release_witness :
  exists e1 m1, run_alone 2 (AllocNumber 2 (demo_engine 0)) demo_allocated.1 = Some (NumDone 2 e1, m1) /\
    allocedSet_ e1 = {[2]} ∪ allocedSet_ (demo_engine 0) /\
    run_alone 2 (ReleaseNumber 2 2 e1) m1 = Some (NumDone SM_OK (demo_engine 0), demo_allocated.1).
Proof.
  destruct (demo_allocated.1 !! SMEM_GROUP_CAS_ALLOC_NUM_KEY) as [v|] eqn:Hv; [|vm_compute in Hv; discriminate Hv].
  apply (number_alloc_release demo_allocated.1 v 2 (demo_engine 0) Hv); vm_compute in Hv; injection Hv as <-;
    [reflexivity|vm_compute; split; [discriminate|reflexivity]|vm_compute; reflexivity| |apply (bool_decide_unpack _); vm_compute; exact I].
  intros j Hj. assert (j = 0 \/ j = 1) as [-> | ->] by lia; vm_compute; reflexivity.
Defined.
