(* ===== verification/DynamicTheorems.v ===== *)
(** * DynamicTheorems: groups that processes join and leave *)
From Stdlib Require Import String.
From stdpp Require Import gmap.
From S2P Require Import Prelude StrUtil MessagePacker StoreBackend StoreServer StoreClient GroupEngine GroupRounds GroupNumbers.
From S2P Require Import GroupDynamic GroupDynamicProof.

(** The processes of a group before any operation. *)
Definition fresh_group (options : list (Z * SmemGroupOption * Callbacks)) : list process :=
  (fun o => mkProc (new_group o.1.1 o.1.2 o.2) []) <$> options.

(** C27. The stored group information is a chain of events.  Whatever the processes, their
    threads, notifications, lost answers and other users of the store do, a change of the
    stored information from [o] to [n] raises the version by one and changes the bitmap and
    the size as the event of [n] says: a join adds its target, which was no member, a
    departure removes its target, an update or an end of an event changes no member.  The
    version a process works with never goes back. *)
Theorem group_event_chain (m : kv) (options : list (Z * SmemGroupOption * Callbacks)) (w1 w2 : system) :
  m !! SMEM_GROUP_LISTEN_EVENT_KEY = None ->
  Forall (fun o => 0 <= o.1.1 < 2 ^ 32 /\ 0 <= rank o.1.2 < 2 ^ 32) options ->
  rtc gstep (m, fresh_group options) w1 -> gstep w1 w2 ->
  (forall o n, w1.1 !! SMEM_GROUP_LISTEN_EVENT_KEY = Some o -> w2.1 !! SMEM_GROUP_LISTEN_EVENT_KEY = Some n -> n <> o ->
     event_step (info_of_bytes o) (info_of_bytes n)) /\
  (forall i p, w1.2 !! i = Some p -> exists p', w2.2 !! i = Some p' /\
     version (info_of (p_group p)) <= version (info_of (p_group p'))).
Proof. intros Hm Ho Hrun Hstep. apply (gstep_ok w1 w2); [|done]. by eapply grun_ok; [apply start_ok|]. Qed.

(** C40. The bitmap holds exactly the joined ranks and each at most once, and stays within its
    words: adding a rank fails
    for a rank that is too large or there already and otherwise adds it; clearing a member
    removes it; the size follows both. *)
Theorem group_bitmap_exact (i : SmemGroupInfo) (r : Z) :
  info_wf i -> 0 <= r < 2 ^ 32 ->
  NoDup (GetAllRanksFromBitMap i) /\
  match UpdateBitmapFromRank r i with
  | None => MAX_RANK_COUNT <= r \/ r ∈ GetAllRanksFromBitMap i
  | Some n => info_wf n /\ GetAllRanksFromBitMap n ≡ₚ r :: GetAllRanksFromBitMap i /\ info_size n = u32 (info_size i + 1)
  end /\
  info_wf (ClearBitmapForRank r i) /\
  (r ∈ GetAllRanksFromBitMap i ->
   r :: GetAllRanksFromBitMap (ClearBitmapForRank r i) ≡ₚ GetAllRanksFromBitMap i /\
   info_size (ClearBitmapForRank r i) = u32 (info_size i - 1)).
Proof.
  intros Hi [Hr _]. split; [apply ranks_NoDup|]. split.
  - pose proof (update_cases r i Hi Hr) as H. destruct (UpdateBitmapFromRank r i) as [n|]; [|by rewrite elem_of_ranks; naive_solver].
    destruct H as (_ & Hno & Hn & -> & Hmem). split; [done|]. split; [|done]. by apply ranks_add.
  - split; [by apply clear_wf|]. rewrite elem_of_ranks. intros [_ Hm]. pose proof (proj1 (member_testbit i r Hr) Hm) as [Hlt _].
    split; [|by apply clear_size]. symmetry. apply ranks_add; [done| |].
    + rewrite member_clear by done. naive_solver.
    + intros x Hx. rewrite member_clear by done. destruct (decide (x = r)); naive_solver.
Qed.

(** Clearing a rank that is not a member still lowers the size: after the others have
    recorded a process as disconnected, its own [GroupLeave] makes the size differ from the
    number of members. *)
Lemma clear_absent_miscounts (i : SmemGroupInfo) (r : Z) :
  info_wf i -> 0 <= r < MAX_RANK_COUNT -> r ∉ GetAllRanksFromBitMap i ->
  GetAllRanksFromBitMap (ClearBitmapForRank r i) ≡ₚ GetAllRanksFromBitMap i /\
  info_size (ClearBitmapForRank r i) = u32 (info_size i - 1).
Proof.
  intros Hi Hr Hno. split; [|apply clear_size; lia]. apply ranks_same. intros x Hx. rewrite member_clear by (done || lia).
  rewrite elem_of_ranks in Hno. split; [by intros [? _]|]. intros Hm. split; [done|]. intros ->. naive_solver.
Qed.

(** ** Witnesses: a process joins a group *)
Definition answer_ask (q : ask) : Z * Z :=
  match q with ConnectStatus => (1, 0) | WatchEvent | WatchLinkDown => (0, 7) | TimeUs => (5, 0) | _ => (0, 0) end.
Definition step_thread (i j : nat) (w : system) : option system :=
  match w.2 !! i with
  | None => None
  | Some p =>
      match p_threads p !! j with
      | Some (GState upd k) => Some (w.1, set_thread i j (upd (p_group p)) (k (p_group p)) w.2)
      | Some (GStore op k) => Some ((kv_step op w.1).2, set_thread i j (p_group p) (k (kv_step op w.1).1) w.2)
      | Some (GAsk q k) => Some (w.1, set_thread i j (p_group p) (k (answer_ask q)) w.2)
      | _ => None
      end
  end.
Lemma step_thread_gstep i j w w' : step_thread i j w = Some w' -> gstep w w'.
Proof.
  destruct w as [m sys]. unfold step_thread. simpl. destruct (sys !! i) as [p|] eqn:Hi; [|done].
  destruct (p_threads p !! j) as [[|upd k|op k|key k|q k]|] eqn:Hj; try done; intros [= <-];
    [eapply g_state|eapply g_store|eapply g_ask]; by exists p.
Qed.
Fixpoint run_thread (n : nat) (i j : nat) (w : system) : system :=
  match n with
  | O => w
  | S n => match step_thread i j w with Some w' => run_thread n i j w' | None => w end
  end.
Lemma run_thread_steps n i j w : rtc gstep w (run_thread n i j w).
Proof.
  revert w. induction n as [|n IH]; intros w; [done|]. cbn [run_thread].
  destruct (step_thread i j w) as [w'|] eqn:Hw; [|done]. eapply rtc_l; [by eapply step_thread_gstep|apply IH].
Qed.
Definition demo_options : list (Z * SmemGroupOption * Callbacks) :=
  [(2, mkOption 5 1000 true, mkCallbacks true true true true)].
Definition start_op (i : nat) (t : thread) (w : system) : system :=
  (w.1, alter (fun p => mkProc (p_group p) (p_threads p ++ [t])) i w.2).
Definition notify (i : nat) (w : system) : system :=
  (w.1, alter (fun p => mkProc (GroupWatchCb SM_OK SMEM_GROUP_LISTEN_EVENT_KEY
                                  (default [] (w.1 !! SMEM_GROUP_LISTEN_EVENT_KEY)) (p_group p)) (p_threads p)) i w.2).
(** The join is stored, the process is told, its listener runs, the join goes on. *)
Definition demo_submitted : system := run_thread 10 0 0 (start_op 0 (run_op GroupJoin) (∅, fresh_group demo_options)).
Definition demo_heard : system :=
  run_thread 100 0 1 (start_op 0 (run_op (GroupListenEvent 1 [] false)) (notify 0 demo_submitted)).
Definition demo_closing : system := run_thread 3 0 0 demo_heard.
Definition demo_closed : system := default demo_closing (step_thread 0 0 demo_closing).
Lemma start_op_step i t w : is_Some (w.2 !! i) -> operation t -> gstep w (start_op i t w).
Proof.
  intros [p Hp] Ht. destruct w as [m sys]. unfold start_op. simpl in *.
  replace (alter _ i sys) with (<[i := mkProc (p_group p) (p_threads p ++ [t])]> sys); [by apply g_start|].
  apply list_eq. intros k. rewrite list_lookup_insert, list_lookup_alter. pose proof (lookup_lt_Some _ _ _ Hp).
  destruct (decide (i = k)) as [->|]; [|by rewrite decide_False by naive_solver]. rewrite decide_True by done. by rewrite Hp.
Qed.
Lemma notify_step i w :
  is_Some (w.2 !! i) -> Forall byte_ok (default [] (w.1 !! SMEM_GROUP_LISTEN_EVENT_KEY)) -> gstep w (notify i w).
Proof.
  intros [p Hp] Hb. destruct w as [m sys]. unfold notify. simpl in *. set (v := default [] _) in *.
  replace (alter _ i sys) with
    (<[i := mkProc (GroupWatchCb SM_OK SMEM_GROUP_LISTEN_EVENT_KEY v (p_group p)) (p_threads p)]> sys); [by apply g_watch|].
  apply list_eq. intros k. rewrite list_lookup_insert, list_lookup_alter. pose proof (lookup_lt_Some _ _ _ Hp).
  destruct (decide (i = k)) as [->|]; [|by rewrite decide_False by naive_solver]. rewrite decide_True by done. by rewrite Hp.
Qed.
Lemma demo_join_run : rtc gstep (∅, fresh_group demo_options) demo_closing.
Proof.
  eapply rtc_l; [apply (start_op_step 0 (run_op GroupJoin)); [by eexists|constructor]|].
  etrans; [apply (run_thread_steps 10 0 0)|]. fold demo_submitted.
  eapply rtc_l; [apply (notify_step 0)|].
  { destruct (demo_submitted.2 !! 0%nat) as [p|] eqn:Hp; [done|]. exfalso.
    assert (Hn : bool_decide (is_Some (demo_submitted.2 !! 0%nat)) = false) by (by rewrite Hp). vm_compute in Hn. discriminate Hn. }
  { apply (bool_decide_unpack _). vm_compute. exact I. }
  eapply rtc_l; [apply (start_op_step 0 (run_op (GroupListenEvent 1 [] false))); [|constructor]|].
  { destruct ((notify 0 demo_submitted).2 !! 0%nat) as [p|] eqn:Hp; [done|]. exfalso.
    assert (Hn : bool_decide (is_Some ((notify 0 demo_submitted).2 !! 0%nat)) = false) by (by rewrite Hp). vm_compute in Hn. discriminate Hn. }
  etrans; [apply (run_thread_steps 100 0 1)|]. fold demo_heard. apply (run_thread_steps 3 0 0).
Qed.
Lemma demo_closed_step : gstep demo_closing demo_closed.
Proof.
  apply (step_thread_gstep 0 0). unfold demo_closed. destruct (step_thread 0 0 demo_closing) as [w|] eqn:Hw; [done|]. exfalso.
  assert (Hn : match step_thread 0 0 demo_closing with Some _ => true | None => false end = false) by (by rewrite Hw).
  vm_compute in Hn. discriminate Hn.
Qed.
(** The join of rank 5 is closed: version 1 is followed by version 2, with the member kept. *)
Lemma group_event_chain_witness :
  exists o n, demo_closing.1 !! SMEM_GROUP_LISTEN_EVENT_KEY = Some o /\ demo_closed.1 !! SMEM_GROUP_LISTEN_EVENT_KEY = Some n /\
    event_step (info_of_bytes o) (info_of_bytes n) /\ version (info_of_bytes n) = 2 /\ GetAllRanksFromBitMap (info_of_bytes n) = [5].
Proof.
  destruct (demo_closing.1 !! SMEM_GROUP_LISTEN_EVENT_KEY) as [o|] eqn:Ho; [|vm_compute in Ho; discriminate Ho].
  destruct (demo_closed.1 !! SMEM_GROUP_LISTEN_EVENT_KEY) as [n|] eqn:Hn; [|vm_compute in Hn; discriminate Hn].
  exists o, n. split; [done|]. split; [done|].
  split; [|vm_compute in Hn; injection Hn as <-; split; vm_compute; reflexivity].
  refine (proj1 (group_event_chain ∅ demo_options demo_closing demo_closed _ _ demo_join_run demo_closed_step) o n Ho Hn _);
    [reflexivity|by repeat constructor|].
  vm_compute in Ho, Hn. injection Ho as <-. injection Hn as <-. discriminate.
Defined.
Lemma group_bitmap_exact_witness :
  let i := mkInfo 4 2 5 0 0 (2 ^ 5 :: replicate 14 0 ++ [2 ^ 63]) in
  GetAllRanksFromBitMap i = [5; 1023] /\
  match UpdateBitmapFromRank 64 i with
  | Some n => info_wf n /\ GetAllRanksFromBitMap n ≡ₚ 64 :: GetAllRanksFromBitMap i /\ info_size n = u32 (info_size i + 1)
  | None => MAX_RANK_COUNT <= 64 \/ 64 ∈ GetAllRanksFromBitMap i
  end.
Proof.
  intros i. split; [vm_compute; reflexivity|]. refine (proj1 (proj2 (group_bitmap_exact i 64 _ _))); [|lia].
  split; try (split; [by vm_compute|by vm_compute]); [|reflexivity].
  apply (bool_decide_unpack (Forall (fun w => 0 <= w < 2 ^ 64) _)). vm_compute. exact I.
Defined.
