(* ===== verification/SegmentTheorems.v ===== *)
(** * SegmentTheorems: memory segments, end to end *)
From stdpp Require Import gmap.
From S2P Require Import Prelude MessagePacker RangeTree VaManager VaManagerProof ExchangeInfo SegmentWorld SegmentFrame.
From S2P Require Import ConnSegment ConnSegmentProof HostShmSegment HostShmProof.

(** One life of a segment: reserve, any operations, give back. *)
Section life.
Context {OS : Os}.
Definition conn_life (ops : list conn_op) : CM (Z * option Z * Z) :=
  r ← conn_ReserveMemorySpace; _ ← each conn_do ops; u ← conn_UnReserveMemorySpace; mret (r, u).
Definition conn_busy (ops : list conn_op) : CM (Z * option Z) :=
  r ← conn_ReserveMemorySpace; _ ← each conn_do ops; mret r.
End life.

Lemma conn_op_ok_ext o vm vm' op : (forall t, alloc_of vm' t = alloc_of vm t) -> conn_op_ok o vm op -> conn_op_ok o vm' op.
Proof.
  intros E. destruct op; cbn; try done.
  - unfold register_ok. by rewrite E.
  - intros H b i Hb Hd Hr. specialize (H b i Hb Hd Hr). unfold import_ok in *. by rewrite E.
Qed.

Section session_theorems.
Context {OS : Os}.
Implicit Types (o : MemSegmentOptions) (s : ConnSeg) (vm : HybmVaManager) (l : log) (ops : list conn_op).

(** C11. A connection based segment without 56-bit addresses that reserved its range, worked in any
    order, and gave the range back leaves the address manager with the ranges it had,
    allocated and reserved, itself without slices and imports, and nothing registered with the
    driver that was not registered before, apart from addresses that the driver refused to
    unregister.  The operating system and the driver may refuse any call.  Conditions
    ([conn_op_ok], [apart], [driver_ok]): a requested size plus the size of the window stays
    below 2^64; registered and imported ranges do not wrap, and are not ones that others have
    added to the address manager; no range of others starts in the reserved one; the device
    ranges that the driver answers do not wrap; fewer than 2^32 operations. *)
Theorem conn_session_restores o s vm l ops G u sw :
  driver_ok -> idle o s -> options_ok o -> so_enable56BitsGva o = false -> vm_reach vm -> apart o G vm ->
  Forall (conn_op_ok o vm) ops -> Z.of_nat (length ops) < 2 ^ 32 ->
  conn_life ops (s, mkWorld vm l) = ((BM_OK, Some G, u), sw) ->
  u = BM_OK /\ (forall t, alloc_of (w_vm sw.2) t = alloc_of vm t) /\ same_reserved vm (w_vm sw.2) /\
  registered (w_log sw.2) ⊆ registered l ∪ refused (w_log sw.2) /\ c_slices_ sw.1 = ∅ /\ c_mappedGvaMem_ sw.1 = ∅.
Proof.
  intros Hd Hidle Hok H56 [Hva Hrsv]%vm_reach_inv Hap Hops Hlen Hrun.
  assert (Hw : wp (conn_life ops) (fun r sw => r.1 = (BM_OK, Some G) -> r.2 = BM_OK /\
    (forall t, alloc_of (w_vm sw.2) t = alloc_of vm t) /\ same_reserved vm (w_vm sw.2) /\
    registered (w_log sw.2) ⊆ registered l ∪ refused (w_log sw.2) /\ c_slices_ sw.1 = ∅ /\ c_mappedGvaMem_ sw.1 = ∅) (s, mkWorld vm l)).
  2: { apply wp_run in Hw. rewrite Hrun in Hw. by apply Hw. }
  unfold conn_life. wp_step. eapply swp_mono; [by apply (Reserve_inv o s vm l G)|]. intros r sw1 Hr.
  destruct (decide (r = (BM_OK, Some G))) as [->|Hne].
  2: { wp_step. apply wp_run. wp_step. apply wp_run. by wp_step. }
  destruct (Hr eq_refl) as (Hset & Ha & Hsr & (l1 & El & Hq) & Hi & Hc). wp_step.
  eapply swp_mono; [apply (conn_ops_inv Hd o G (w_vm sw1.2) (w_log sw1.2) Hset); [done| |lia]|].
  { eapply Forall_impl; [done|]. intros op. by apply conn_op_ok_ext. }
  intros [] sw2 Hi2. wp_step. eapply swp_mono; [by apply (UnReserve_inv Hd o G (w_vm sw1.2) (w_log sw1.2) Hset)|].
  intros u' sw3 (-> & Hal & Hrs & Hsl & Hmp & _ & Hrg & _). wp_step. intros _. split_and!; try done.
  - intros t. by rewrite Hal.
  - by eapply same_reserved_trans.
  - intros a Hin%registered_held. apply elem_of_union in Hin as [Hin|Hin]; [|set_solver]. apply Hrg in Hin. rewrite El, registered_quiet in Hin by done. set_solver.
Qed.

(** C12. At any moment between reserving and giving back, the slices that a connection based
    segment handed out of its pool lie in the window of its rank and do not overlap, and
    everything it mapped at a fixed address or wrote to lies in that window.  Conditions, as
    for a whole life: no 56-bit addresses; a requested size plus the size of the window stays
    below 2^64 (otherwise it fails, see [conn_wrapped_size_mapped]); registered and imported
    ranges do not wrap and are not ones that others have added; no range of others starts in
    the reserved one; the driver's device ranges do not wrap; fewer than 2^32 operations. *)
Theorem conn_slices_in_window o s vm l ops G sw :
  driver_ok -> idle o s -> options_ok o -> so_enable56BitsGva o = false -> vm_reach vm -> apart o G vm ->
  Forall (conn_op_ok o vm) ops -> Z.of_nat (length ops) < 2 ^ 32 ->
  conn_busy ops (s, mkWorld vm l) = ((BM_OK, Some G), sw) ->
  let lo := G + so_maxSize o * so_rankId o in
  (forall i sl, c_slices_ sw.1 !! i = Some sl -> gva_ sl <> 0 -> lo <= gva_ sl /\ gva_ sl + size_ sl <= lo + so_maxSize o) /\
  (forall i j a b, c_slices_ sw.1 !! i = Some a -> c_slices_ sw.1 !! j = Some b -> i <> j -> gva_ a <> 0 -> gva_ b <> 0 ->
     gva_ a + size_ a <= gva_ b \/ gva_ b + size_ b <= gva_ a) /\
  exists during, w_log sw.2 = l ++ during /\ Forall (inside lo (lo + so_maxSize o)) during.
Proof.
  intros Hd Hidle Hok H56 [Hva Hrsv]%vm_reach_inv Hap Hops Hlen Hrun lo.
  assert (Hw : wp (conn_busy ops) (fun r sw => r = (BM_OK, Some G) -> exists vm1 l1,
    conn_inv o G vm1 (l ++ l1) ∅ ∅ sw /\ Forall quiet l1) (s, mkWorld vm l)).
  { unfold conn_busy. wp_step. eapply swp_mono; [by apply (Reserve_inv o s vm l G)|]. intros r sw1 Hr.
    destruct (decide (r = (BM_OK, Some G))) as [->|Hne]; [|wp_step; apply wp_run; by wp_step].
    destruct (Hr eq_refl) as (Hset & Ha & Hsr & (l1 & El & Hq) & Hi & Hc). wp_step.
    eapply swp_mono; [apply (conn_ops_inv Hd o G (w_vm sw1.2) (w_log sw1.2) Hset); [done| |lia]|].
    { eapply Forall_impl; [done|]. intros op. by apply conn_op_ok_ext. }
    intros [] sw2 Hi2. wp_step. intros _. rewrite El in Hi2. eauto. }
  apply wp_run in Hw. rewrite Hrun in Hw. destruct (Hw eq_refl) as (vm1 & l1 & Hi & Hq). cbn [snd] in Hi.
  pose proof (ci_alloc _ _ _ _ _ _ _ Hi) as [Hal _]. split_and!.
  - intros i sl Hsl Hg. destruct (ci_slices _ _ _ _ _ _ _ Hi i sl Hsl) as (_ & _ & _ & _ & H). destruct (H Hg) as (? & ? & _). lia.
  - intros i j a b Ha Hb Hij Ga Gb. pose proof (ci_order _ _ _ _ _ _ _ Hi) as Hord.
    destruct (Z.lt_total i j) as [?|[?|?]]; [left; by apply (Hord i j)|done|right; by apply (Hord j i)].
  - destruct (ci_log _ _ _ _ _ _ _ Hi) as (l2 & El2 & Hin). exists (l1 ++ l2). rewrite app_assoc. split; [done|].
    apply Forall_app. split; [|done]. eapply Forall_impl; [done|]. intros e He. apply He.
Qed.
End session_theorems.

(** ** A run *)
Definition demo_os : Os := {| os_answer := fun _ c =>
  match c with
  | Mmap addr _ _ _ _ _ => mkAns addr 0 []
  | HalHostRegister addr _ => mkAns 0 addr []
  | NewObject => mkAns 0 4096 []
  | _ => mkAns 0 0 []
  end |}.
Definition MB2 : Z := HYBM_LARGE_PAGE_SIZE.
Definition demo_opts (rank : Z) : MemSegmentOptions := mkSegOpt HYBM_MST_DRAM HYBM_DOP_TYPE_DEVICE_RDMA MB2 MB2 rank 2 0 (-1) false.
Definition demo_vm0 : HybmVaManager := mkVm ASCEND_910C (mkPer ∅ ∅ ∅) (mkPer ∅ ∅ ∅).
Definition demo_info (gva rank : Z) : HostExportInfo :=
  mkHostInfo DRAM_SLICE_EXPORT_INFO_MAGIC EXPORT_INFO_VERSION gva 0 rank MB2 0 1 0.
Definition demo_import : bytes := SerializeHost (demo_info HYBM_GVM_START_ADDR 0).
Definition demo_id (i : Z) : Z := ConvertToId (mkSlice 4096 i HYBM_MEM_TYPE_HOST 0 0 0 0 MMAP).
Definition demo_ops : list conn_op :=
  [OpAlloc MB2; OpRegister 0x7000 4096; OpExport (demo_id 0); OpImport [demo_import]; OpMmap; OpRelease (demo_id 1); OpAlloc MB2].
Lemma demo_driver : @driver_ok demo_os.
Proof. intros l addr size H1 H2 H3. cbn. lia. Defined.
Lemma demo_idle : idle (demo_opts 1) (new_conn (demo_opts 1)).
Proof. repeat split. Defined.
Lemma demo_len : Z.of_nat (length demo_ops) < 2 ^ 32.
Proof. vm_compute. reflexivity. Defined.
Lemma demo_opts_ok : options_ok (demo_opts 1).
Proof. split_and!; by vm_compute. Defined.
Lemma demo_conn_apart : apart (demo_opts 1) HYBM_GVM_START_ADDR demo_vm0.
Proof. intros t k _ [x Hx]. destruct t; cbn in Hx; by rewrite lookup_empty in Hx. Defined.
Lemma demo_conn_ops_ok : Forall (conn_op_ok (demo_opts 1) demo_vm0) demo_ops.
Proof.
  repeat apply Forall_cons_2; try apply Forall_nil_2; try done.
  intros b i Hb%list_elem_of_singleton Hd _. subst b. 
  assert (E : DeserializeHost demo_import = Some (demo_info HYBM_GVM_START_ADDR 0)) by (vm_compute; reflexivity).
  rewrite E in Hd. injection Hd as <-. split_and!; by vm_compute.
Defined.

(** A segment of rank 1 of 2 that allocates its window, registers memory, exports, imports,
    maps, releases, is refused more memory, and gives everything back. *)
Lemma conn_session_restores_witness :
  let r := @conn_life demo_os demo_ops (new_conn (demo_opts 1), mkWorld demo_vm0 []) in
  r.1 = (BM_OK, Some HYBM_GVM_START_ADDR, BM_OK) /\ length (w_log r.2.2) = 12%nat /\
  (forall t, alloc_of (w_vm r.2.2) t = ∅) /\ refused (w_log r.2.2) = ∅ /\ registered (w_log r.2.2) ⊆ ∅.
Proof.
  set (start := (new_conn (demo_opts 1), mkWorld demo_vm0 [])).
  assert (H1 : (@conn_life demo_os demo_ops start).1 = (BM_OK, Some HYBM_GVM_START_ADDR, BM_OK)) by (vm_compute; reflexivity).
  assert (H2 : length (w_log (@conn_life demo_os demo_ops start).2.2) = 12%nat) by (vm_compute; reflexivity).
  assert (H3 : refused (w_log (@conn_life demo_os demo_ops start).2.2) = ∅) by (vm_compute; reflexivity).
  destruct (@conn_life demo_os demo_ops start) as [res sw] eqn:E. cbn [fst snd] in *. subst res.
  destruct (@conn_session_restores demo_os (demo_opts 1) (new_conn (demo_opts 1)) demo_vm0 [] demo_ops HYBM_GVM_START_ADDR BM_OK sw
    demo_driver demo_idle demo_opts_ok eq_refl (reach_init ASCEND_910C) demo_conn_apart demo_conn_ops_ok demo_len E)
    as (_ & Ha & _ & Hreg & _).
  rewrite H3 in Hreg. split_and!; [done|done| |done|etransitivity; [exact Hreg|set_solver]]. intros t. rewrite Ha. by destruct t.
Defined.
Lemma conn_slices_in_window_witness :
  let r := @conn_busy demo_os demo_ops (new_conn (demo_opts 1), mkWorld demo_vm0 []) in
  r.1 = (BM_OK, Some HYBM_GVM_START_ADDR) /\ (gva_ <$> (c_slices_ r.2.1 !! 0)) = Some (HYBM_GVM_START_ADDR + MB2) /\
  exists during, w_log r.2.2 = [] ++ during /\ Forall (inside (HYBM_GVM_START_ADDR + MB2 * 1) (HYBM_GVM_START_ADDR + MB2 * 1 + MB2)) during.
Proof.
  set (start := (new_conn (demo_opts 1), mkWorld demo_vm0 [])).
  assert (H1 : (@conn_busy demo_os demo_ops start).1 = (BM_OK, Some HYBM_GVM_START_ADDR)) by (vm_compute; reflexivity).
  assert (H2 : (gva_ <$> (c_slices_ (@conn_busy demo_os demo_ops start).2.1 !! 0)) = Some (HYBM_GVM_START_ADDR + MB2)) by (vm_compute; reflexivity).
  destruct (@conn_busy demo_os demo_ops start) as [res sw] eqn:E. cbn [fst snd] in *. subst res.
  destruct (@conn_slices_in_window demo_os (demo_opts 1) (new_conn (demo_opts 1)) demo_vm0 [] demo_ops HYBM_GVM_START_ADDR sw
    demo_driver demo_idle demo_opts_ok eq_refl (reach_init ASCEND_910C) demo_conn_apart demo_conn_ops_ok demo_len E)
    as (_ & _ & Hl).
  split_and!; [done|done|exact Hl].
Defined.

(** A request of 2^64 minus 2 MiB after one of 2 MiB wraps to 0 and passes the limit of
    2 MiB: the segment asks for it to be mapped at the end of its window.  Here the operating
    system refuses a mapping of that size. *)
Definition demo_strict_os : Os := {| os_answer := fun l c =>
  match c with
  | Mmap addr size _ _ _ _ => if 2 ^ 40 <? size then mkAns MAP_FAILED 0 [] else mkAns addr 0 []
  | _ => @os_answer demo_os l c
  end |}.
Theorem conn_wrapped_size_mapped :
  let r := @conn_busy demo_strict_os [OpAlloc MB2; OpAlloc (2 ^ 64 - MB2)] (new_conn (demo_opts 1), mkWorld demo_vm0 []) in
  r.1 = (BM_OK, Some HYBM_GVM_START_ADDR) /\
  existsb (fun e : call * answer => match e.1 with
    | Mmap addr size _ flags _ _ => Z.testbit flags 4 && (addr =? HYBM_GVM_START_ADDR + 2 * MB2) && (size =? 2 ^ 64 - MB2)
    | _ => false end) (w_log r.2.2) = true.
Proof. vm_compute. split; reflexivity. Qed.

(** ** Segments of shared files *)
Section shm_life.
Context {OS : Os}.
Definition shm_life (ops : list shm_op) : HM (Z * option Z) :=
  r ← shm_ReserveMemorySpace; if negb (r.1 =? BM_OK) then mret r else _ ← each shm_do ops; _ ← shm_UnReserveMemorySpace; mret r.

(** What is left of one life, for accepted ranks whose windows lie between [lo] and [hi]. *)
Lemma shm_life_leaves (rank_ok : Z -> Prop) (lo hi : Z -> Z) o s vm l ops :
  fresh_fds OS -> shm_idle o s -> shm_options_ok o -> rsv_inv vm -> Forall (shm_op_ok o rank_ok) ops ->
  (forall G, in_space o G -> lo G <= G /\ G + so_rankCnt o * so_size o <= hi G /\ windows_in o G (lo G) (hi G) rank_ok) ->
  wp (shm_life ops) (fun r sw => open_fds (w_log sw.2) = open_fds l /\
    forall G, r = (BM_OK, Some G) ->
    mappedRemoteRanks_ (h_files sw.1) = ∅ /\ same_reserved vm (w_vm sw.2) /\ (forall t, alloc_of (w_vm sw.2) t = alloc_of vm t) /\
    exists during, w_log sw.2 = l ++ during /\ Forall (inside (lo G) (hi G)) during) (s, mkWorld vm l).
Proof.
  intros Hf Hidle Hok Hrsv Hops Hwin.
  unfold shm_life. wp_step. eapply swp_mono; [by apply (shm_Reserve_inv o s vm l)|]. intros [ret [G|]] sw1 Hr; cbn [fst].
  2: { destruct Hr as [Hne Hr]. rewrite (proj2 (Z.eqb_neq _ _) Hne). cbn [negb]. wp_step. split; [done|]. by intros G [= -> _]. }
  destruct Hr as (-> & HG & Hi & Hsr & Ha). cbn [negb BM_OK Z.eqb]. wp_step. destruct (Hwin G HG) as (Hlo & Hhi & HW). pose proof (proj1 HG) as HG0.
  eapply swp_mono; [apply (shm_ops_inv Hf o rank_ok G (lo G) (hi G) l (w_vm sw1.2) HG0 HW); [by apply Hi|done]|]. intros [] sw2 Hi2. wp_step.
  eapply swp_mono; [by apply (shm_UnReserve_inv o rank_ok G (lo G) (hi G) l (w_vm sw1.2) HG0 HW)|]. intros u sw3 (_ & [Hh Hl] & Ev & Em & _). wp_step.
  split; [destruct Hh as (-> & _); set_solver|]. intros G' [= <-]. rewrite Ev. split_and!; [done|done| |done].
  intros t. by rewrite alloc_FreeReserveGva.
Qed.

(** C13. A shared-memory segment closes every file it opened, if [open] answers descriptors that
    are not in use.  When reserving fails, on whatever path, the open descriptors are those of
    before; when it succeeds, the same holds after any operations and giving the range back,
    and then no rank is mapped and the address manager has the ranges it had.  If in addition
    every imported description of another rank names a rank of the job, then every mapping at
    a fixed address, of the own file and of the files of others, lay in the reserved range. *)
Theorem shm_closes_files o s vm l ops r sw :
  fresh_fds OS -> shm_idle o s -> shm_options_ok o -> vm_reach vm ->
  shm_life ops (s, mkWorld vm l) = (r, sw) ->
  open_fds (w_log sw.2) = open_fds l /\
  forall G, r = (BM_OK, Some G) ->
    mappedRemoteRanks_ (h_files sw.1) = ∅ /\ same_reserved vm (w_vm sw.2) /\ (forall t, alloc_of (w_vm sw.2) t = alloc_of vm t) /\
    (Forall (shm_op_ok o (job_rank o)) ops ->
     exists during, w_log sw.2 = l ++ during /\ Forall (inside G (G + so_rankCnt o * so_size o)) during).
Proof.
  intros Hf Hidle Hok [_ Hrsv]%vm_reach_inv Hrun.
  pose proof (shm_life_leaves (fun _ => True) (fun _ => 0) (fun _ => 18446744073709551616 + so_size o) o s vm l ops Hf Hidle Hok Hrsv) as Hany.
  apply wp_run in Hany; [|apply Forall_forall; by intros []|intros G HG; split_and!; [unfold in_space in HG; lia..|apply any_windows]].
  rewrite Hrun in Hany. destruct Hany as [Hfd Hany]. cbn [fst snd] in *. split; [done|]. intros G HG. destruct (Hany G HG) as (H1 & H2 & H3 & _).
  split_and!; [done..|]. intros Hops.
  pose proof (shm_life_leaves (job_rank o) id (fun G => G + so_rankCnt o * so_size o) o s vm l ops Hf Hidle Hok Hrsv Hops) as Hin.
  apply wp_run in Hin; [|intros G' HG'; split_and!; [done..|by apply job_windows]]. rewrite Hrun in Hin. by apply Hin.
Qed.
End shm_life.

(** *** The file of a peer *)
Definition import_and_map_shm {OS : Os} (all : list bytes) : HM (Z * Z) := r ← shm_Import all; m ← shm_Mmap; mret (r, m).
(** The log has a file opened and mapped at an address, and the descriptor is kept for the rank. *)
Definition maps_file (rank : Z) (path : bytes) (addr size : Z) (sw : ShmSeg * World) : Prop :=
  exists fd a m, (Open path false, a) ∈ w_log sw.2 /\ ret a = fd /\ 0 <= fd /\
    (Mmap addr size PROT_RW (flags_of [MAP_FIXED; MAP_SHARED]) fd 0, m) ∈ w_log sw.2 /\ ret m = addr /\
    rank ∈ mappedRemoteRanks_ (h_files sw.1) /\ importedShmFds_ (h_files sw.1) !! rank = Some fd.
Section peer.
Context {OS : Os}.
Lemma open_retry_found n path (sw : ShmSeg * World) :
  wp (open_retry n path) (fun r sw' => sw'.1 = sw.1 /\ forall fd, r = Some fd -> 0 <= fd /\ exists a, (Open path false, a) ∈ w_log sw'.2 /\ ret a = fd) sw.
Proof.
  revert sw. induction n as [|n IH]; intros sw; cbn [open_retry]; [by wp_step|]. do 2 wp_step.
  destruct (Z.leb_spec 0 (ret a)).
  - wp_step. split; [done|]. intros fd [= <-]. split; [done|]. exists a. split; [|done]. cbn. set_solver.
  - apply wp_if; intros _; [by wp_step|]. exact (IH (sw.1, mkWorld _ _)).
Qed.
Lemma MapImported_maps rank huge (sw : ShmSeg * World) :
  rank ∉ mappedRemoteRanks_ (h_files sw.1) -> importedHugetlbfsFlags_ (h_files sw.1) !! rank = Some huge ->
  wp (MapImportedShm rank) (fun r sw' => r = BM_OK -> maps_file rank (GetShmFilePath rank huge)
    (u64 (globalVirtualAddress_ (h_space sw.1) + so_size (h_options sw.1) * rank)) (so_size (h_options sw.1)) sw') sw.
Proof.
  intros Hn Hh. unfold MapImportedShm. do 2 wp_step. cbn [id]. rewrite bool_decide_eq_false_2 by done. rewrite Hh. cbn [default].
  wp_step. eapply swp_mono; [apply open_retry_found|]. intros [fd|] [s1 w1] [Es Hfd]; cbn [fst snd] in *; subst s1; [|by wp_step].
  destruct (Hfd fd eq_refl) as (Hpos & a & Ha & Er). do 2 wp_step. apply wp_if; intros _; [by repeat wp_step|].
  do 2 wp_step. destruct (_ || _) eqn:Em; [by repeat wp_step|]. repeat wp_step. intros _. cbn [fst snd w_log] in *.
  exists fd, a. eexists. cbn [fst snd w_log h_files set_files set_mapped mappedRemoteRanks_ importedShmFds_].
  split_and!; [set_solver|done|done|by apply elem_of_app; right; left| |set_solver|apply lookup_insert_eq].
  apply orb_false_iff in Em as [_ Em]. by apply negb_false_iff, Z.eqb_eq in Em.
Qed.

(** C14. When a rank imports and maps what a peer exported, it opens the file the peer
    created, in the directory the peer chose, and maps it in the peer's window of its own range. *)
Theorem shm_peer_file s w sl b sw1 s2 w2 sw3 :
  h_exportMap_ s !! index_ sl = None -> shm_Export sl (s, w) = ((BM_OK, Some b), sw1) ->
  0 <= index_ sl < 2 ^ 32 -> 0 <= size_ sl < 2 ^ 64 -> 0 <= so_rankId (h_options s) < 2 ^ 32 ->
  so_rankId (h_options s2) <> so_rankId (h_options s) -> h_imports_ s2 = [] ->
  so_rankId (h_options s) ∉ mappedRemoteRanks_ (h_files s2) ->
  import_and_map_shm [b] (s2, w2) = ((BM_OK, BM_OK), sw3) ->
  maps_file (so_rankId (h_options s)) (GetShmFilePath (so_rankId (h_options s)) (useHugetlbfs_ (h_files s)))
    (u64 (globalVirtualAddress_ (h_space s2) + so_size (h_options s2) * so_rankId (h_options s))) (so_size (h_options s2)) sw3.
Proof.
  intros Hcache Hexp Hi Hsz Hrk Hne Himp Hun Hrun. set (rank := so_rankId (h_options s)) in *.
  set (i := mkShmInfo DRAM_SLICE_EXPORT_INFO_MAGIC EXPORT_INFO_VERSION (u64 (vAddress_ sl - localVirtualBase_ (h_space s)))
    (index_ sl) rank (size_ sl) MEM_PT_TYPE_SVM HYBM_MST_DRAM HYBM_INFO_EXG_IN_NODE (Z.b2z (useHugetlbfs_ (h_files s)))).
  assert (Eb : b = SerializeShm i).
  { revert Hexp. unfold shm_Export, mbind, SM_bind, gets, upd. cbn [fst snd id].
    destruct (h_slices_ s !! index_ sl) as [found|]; [|done]. destruct (negb _); [done|]. rewrite Hcache. by intros [= <- _]. }
  assert (Hd : DeserializeShm b = Some i).
  { rewrite Eb. apply DeserializeShm_Serialize. unfold shm_info_ok.
    assert (Hu := u64_range (vAddress_ sl - localVirtualBase_ (h_space s))).
    cbn [zip zip_with shm_info_sizes host_info_sizes app shm_info_fields i si_magic si_version si_mappingOffset si_sliceIndex si_rankId si_size
      si_pageTblType si_memSegType si_exchangeType si_useHugetlbfs]. repeat apply Forall_cons_2; try apply Forall_nil_2; (split; cbn [fst snd]; [lia|]);
      change (2 ^ (8 * 8)) with 18446744073709551616; change (2 ^ (8 * 4)) with 4294967296; change (2 ^ (8 * 1)) with 256;
      unfold DRAM_SLICE_EXPORT_INFO_MAGIC, EXPORT_INFO_VERSION, MEM_PT_TYPE_SVM, HYBM_MST_DRAM, HYBM_INFO_EXG_IN_NODE; try lia. }
  assert (Hw : wp (import_and_map_shm [b]) (fun r sw => r.2 = BM_OK -> maps_file rank (GetShmFilePath rank (useHugetlbfs_ (h_files s)))
    (u64 (globalVirtualAddress_ (h_space s2) + so_size (h_options s2) * rank)) (so_size (h_options s2)) sw) (s2, w2)).
  { unfold import_and_map_shm, shm_Import. cbn [shm_deserialize_all]. rewrite Hd. cbn [unique_ranks]. change (si_magic i) with DRAM_SLICE_EXPORT_INFO_MAGIC.
    rewrite Z.eqb_refl. cbn [negb]. rewrite bool_decide_eq_false_2 by set_solver. repeat wp_step. unfold shm_Mmap. do 2 wp_step.
    cbn [fst snd h_imports_ set_files set_imports]. rewrite Himp. cbn [app shm_map_imports]. change (si_rankId i) with rank. do 2 wp_step.
    cbn [id fst h_options set_files set_imports]. rewrite (proj2 (Z.eqb_neq _ _)) by congruence. wp_step.
    eapply swp_mono; [apply (MapImported_maps rank (useHugetlbfs_ (h_files s)))|].
    - done.
    - cbn. rewrite lookup_insert_eq. by destruct (useHugetlbfs_ (h_files s)).
    - intros r sw4 Hr. cbn [fst snd h_space h_options set_files set_imports] in Hr. destruct (Z.eqb_spec r BM_OK) as [->|Hbad]; repeat wp_step; cbn [snd].
      + intros _. exact (Hr eq_refl).
      + intros ->. done. }
  apply wp_run in Hw. rewrite Hrun in Hw. by apply Hw.
Qed.
End peer.

(** A file of an earlier run is in the way of the first attempt to create one. *)
Definition has_unlinked (l : log) : bool := existsb (fun e : call * answer => match e.1 with Unlink _ => true | _ => false end) l.
Definition next_fd (l : log) : Z := foldr Z.max 0 (elements (open_fds l)) + 1.
Definition demo_files : Os := {| os_answer := fun l c =>
  match c with
  | Mmap addr _ _ _ _ _ => mkAns addr 0 []
  | Open _ true => if has_unlinked l then mkAns (next_fd l) 0 [] else mkAns (-1) EEXIST []
  | Open _ false => mkAns (next_fd l) 0 []
  | Fstat _ => mkAns 0 MB2 []
  | NewObject => mkAns 0 4096 []
  | _ => mkAns 0 0 []
  end |}.
Lemma demo_fresh : fresh_fds demo_files.
Proof.
  assert (H : forall l, next_fd l ∉ open_fds l).
  { intros l Hin. apply elem_of_elements in Hin. unfold next_fd in Hin. revert Hin. generalize (elements (open_fds l)). intros L Hin.
    assert (Hle : forall x, x ∈ L -> x <= foldr Z.max 0 L); [|specialize (Hle _ Hin); lia]. clear Hin.
    induction L as [|y L IH]; intros x Hx; [by apply elem_of_nil in Hx|]. cbn. apply elem_of_cons in Hx as [->|Hx]; [lia|].
    specialize (IH x Hx). lia. }
  intros l path []; cbn; [|intros _; apply H]. destruct (has_unlinked l); cbn; [intros _; apply H|lia].
Defined.
Definition demo_shm_opts (rank : Z) : MemSegmentOptions := mkSegOpt HYBM_MST_DRAM 64 MB2 MB2 rank 2 0 (-1) false.
Definition demo_shm_info : ShmExportInfo := mkShmInfo DRAM_SLICE_EXPORT_INFO_MAGIC EXPORT_INFO_VERSION 0 0 1 MB2 0 1 0 0.
Definition demo_shm_ops : list shm_op :=
  [ShAlloc MB2; ShExport (demo_id 0); ShImport [SerializeShm demo_shm_info]; ShMmap; ShRemoveImported [1]; ShImport [SerializeShm demo_shm_info]; ShMmap].
Lemma demo_shm_ops_ok : Forall (shm_op_ok (demo_shm_opts 0) (job_rank (demo_shm_opts 0))) demo_shm_ops.
Proof.
  assert (E : DeserializeShm (SerializeShm demo_shm_info) = Some demo_shm_info) by (vm_compute; reflexivity).
  assert (Hi : shm_op_ok (demo_shm_opts 0) (job_rank (demo_shm_opts 0)) (ShImport [SerializeShm demo_shm_info])).
  { intros b i Hb%list_elem_of_singleton Hd _. subst b. rewrite E in Hd. injection Hd as <-. split; [vm_compute; discriminate|reflexivity]. }
  repeat apply Forall_cons_2; try apply Forall_nil_2; first [exact I|exact Hi].
Defined.
Lemma demo_shm_idle : shm_idle (demo_shm_opts 0) (new_shm (demo_shm_opts 0)).
Proof. repeat split. Defined.
Lemma demo_shm_options : shm_options_ok (demo_shm_opts 0).
Proof. repeat split; vm_compute; congruence. Defined.
(** Four files are opened: the one of an earlier run, the own one, and the peer's twice. *)
Lemma shm_closes_files_witness :
  let r := @shm_life demo_files demo_shm_ops (new_shm (demo_shm_opts 0), mkWorld demo_vm0 []) in
  r.1 = (BM_OK, Some HYBM_GVM_START_ADDR) /\ length (omap opens (w_log r.2.2)) = 4%nat /\
  open_fds (w_log r.2.2) = open_fds [] /\
  exists during, w_log r.2.2 = [] ++ during /\ Forall (inside HYBM_GVM_START_ADDR (HYBM_GVM_START_ADDR + 2 * MB2)) during.
Proof.
  set (start := (new_shm (demo_shm_opts 0), mkWorld demo_vm0 [])).
  assert (H1 : (@shm_life demo_files demo_shm_ops start).1 = (BM_OK, Some HYBM_GVM_START_ADDR)) by (vm_compute; reflexivity).
  assert (H2 : length (omap opens (w_log (@shm_life demo_files demo_shm_ops start).2.2)) = 4%nat) by (vm_compute; reflexivity).
  destruct (@shm_life demo_files demo_shm_ops start) as [res sw] eqn:E. cbn [fst snd] in *. subst res.
  destruct (@shm_closes_files demo_files (demo_shm_opts 0) (new_shm (demo_shm_opts 0)) demo_vm0 [] demo_shm_ops _ sw demo_fresh
    demo_shm_idle demo_shm_options (reach_init ASCEND_910C) E) as [Hc Hin].
  destruct (Hin _ eq_refl) as (_ & _ & _ & Hd). split_and!; [reflexivity|exact H2|exact Hc|exact (Hd demo_shm_ops_ok)].
Defined.
(** A description that names rank 5 in a job of two ranks is mapped three windows behind the
    end of the reserved range: nothing compares the rank with the number of ranks. *)
Definition demo_far_info : ShmExportInfo := mkShmInfo DRAM_SLICE_EXPORT_INFO_MAGIC EXPORT_INFO_VERSION 0 0 5 MB2 0 1 0 0.
Theorem shm_maps_outside :
  let r := @shm_life demo_files [ShImport [SerializeShm demo_far_info]; ShMmap] (new_shm (demo_shm_opts 0), mkWorld demo_vm0 []) in
  r.1 = (BM_OK, Some HYBM_GVM_START_ADDR) /\
  existsb (fun e : call * answer => match e.1 with
    | Mmap addr _ _ flags _ _ => Z.testbit flags 4 && (addr =? HYBM_GVM_START_ADDR + 5 * MB2) | _ => false end) (w_log r.2.2) = true.
Proof. vm_compute. split; reflexivity. Qed.

(** Rank 1 exports; rank 0 maps its file. *)
Definition demo_peer : ShmSeg * World :=
  (@each _ _ (@shm_do demo_files) [ShAlloc MB2] (@shm_ReserveMemorySpace demo_files (new_shm (demo_shm_opts 1), mkWorld demo_vm0 [])).2).2.
Definition demo_shm_slice : MemSlice := mkSlice 4096 0 HYBM_MEM_TYPE_HOST 0 (HYBM_GVM_START_ADDR + MB2) (HYBM_GVM_START_ADDR + MB2) MB2 MMAP.
Definition demo_shm_importer : ShmSeg * World := (@shm_ReserveMemorySpace demo_files (new_shm (demo_shm_opts 0), mkWorld demo_vm0 [])).2.
Lemma shm_peer_file_witness :
  (shm_Export demo_shm_slice demo_peer).1 = (BM_OK, Some (SerializeShm demo_shm_info)) /\
  maps_file 1 (GetShmFilePath 1 false) (HYBM_GVM_START_ADDR + MB2) MB2 (@import_and_map_shm demo_files [SerializeShm demo_shm_info] demo_shm_importer).2.
Proof.
  assert (F1 : (shm_Export demo_shm_slice demo_peer).1 = (BM_OK, Some (SerializeShm demo_shm_info))) by (vm_compute; reflexivity).
  assert (F2 : (@import_and_map_shm demo_files [SerializeShm demo_shm_info] demo_shm_importer).1 = (BM_OK, BM_OK)) by (vm_compute; reflexivity).
  assert (F3 : h_exportMap_ demo_peer.1 !! 0 = None) by (vm_compute; reflexivity).
  assert (F4 : h_options demo_peer.1 = demo_shm_opts 1 /\ useHugetlbfs_ (h_files demo_peer.1) = false) by (split; vm_compute; reflexivity).
  assert (F5 : h_options demo_shm_importer.1 = demo_shm_opts 0 /\ h_imports_ demo_shm_importer.1 = [] /\
    mappedRemoteRanks_ (h_files demo_shm_importer.1) = ∅ /\ globalVirtualAddress_ (h_space demo_shm_importer.1) = HYBM_GVM_START_ADDR)
    by (repeat split; vm_compute; reflexivity).
  split; [exact F1|]. destruct demo_peer as [s w], demo_shm_importer as [s2 w2]. cbn [fst snd] in *.
  destruct F4 as [F4 F4'], F5 as (F5 & F6 & F7 & F8).
  destruct (shm_Export demo_shm_slice (s, w)) as [re sw1] eqn:E1, (@import_and_map_shm demo_files _ (s2, w2)) as [ri sw3] eqn:E2.
  cbn [fst snd] in *. subst re ri.
  pose proof (@shm_peer_file demo_files s w demo_shm_slice _ sw1 s2 w2 sw3 F3 E1) as H. rewrite F4, F4', F5, F6, F7, F8 in H.
  assert (Eu : u64 (HYBM_GVM_START_ADDR + so_size (demo_shm_opts 0) * so_rankId (demo_shm_opts 1)) = HYBM_GVM_START_ADDR + MB2) by (vm_compute; reflexivity).
  rewrite Eu in H. apply H; clear H.
  1, 2, 3: split; vm_compute; congruence.
  - discriminate.
  - reflexivity.
  - apply not_elem_of_empty.
  - exact E2.
Defined.
