(* ===== verification/EntityTheorems.v ===== *)
(** * EntityTheorems: entities, end to end *)
From Stdlib Require Import String.
From stdpp Require Import gmap.
From S2P Require Import Prelude MessagePacker StrUtil RangeTree VaManager VaManagerProof ExchangeInfo SegmentWorld SegmentFrame.
From S2P Require Import ConnSegment ConnExchange HostShmSegment EntityTag Entity EntityImport DramSegment EntityApi EntityProof.
Local Open Scope list_scope.

(** ** A slice of one process in another *)
Section peers.
Context {OS : Os} {V SH : Type} {HV : MemSegment V} {HH : MemSegment SH}.
Abbreviation E := (Entity SH (DramSeg V)).
Definition import_and_mmap (d : hybm_exchange_info) : SM E (option (Z * option (list Z)) * Z) :=
  r ← ImportSliceExchangeInfo [reader_of d] None; m ← entity_Mmap; mret (r, m).
(** An entity with host memory only, of a connection based segment. *)
Definition host_entity (e : E) (s : ConnSeg) : Prop :=
  initialized_ e = true /\ hbmSegment_ e = None /\ dramSegment_ e = Some (DConn s) /\ dataOperator_ e = true /\
  so_rankId (c_options s) = rankId (options_ e).

Lemma dispatch_conn {A} (c : SM ConnSeg A) (h : SM ShmSeg A) (v : SM V A) s w a s' w' :
  c (s, w) = (a, (s', w')) -> dispatch c h v (DConn s, w) = (a, (DConn s', w')).
Proof. intros H. unfold dispatch. cbn [fst snd]. by rewrite H. Qed.
Lemma dispatch_conn_inv {A} (c : SM ConnSeg A) (h : SM ShmSeg A) (v : SM V A) s w a x w' :
  dispatch c h v (DConn s, w) = (a, (x, w')) -> exists s', x = DConn s' /\ c (s, w) = (a, (s', w')).
Proof. unfold dispatch. cbn [fst snd]. destruct (c (s, w)) as [a0 [s0 w0]]. intros [= <- <- <-]. eauto. Qed.
Lemma dram_GetMemSlice id : seg_GetMemSlice (S := DramSeg V) id = dispatch (conn_GetMemSlice id) (shm_GetMemSlice id) (seg_GetMemSlice id).
Proof. done. Qed.
Lemma dram_Export sl : seg_Export (S := DramSeg V) sl = dispatch (conn_Export sl) (shm_Export sl) (seg_Export sl).
Proof. done. Qed.
Lemma dram_Import infos : seg_Import (S := DramSeg V) infos = dispatch (conn_Import infos) (shm_Import_addresses infos) (seg_Import infos).
Proof. done. Qed.
Lemma dram_Mmap : seg_Mmap (S := DramSeg V) = dispatch conn_Mmap shm_Mmap seg_Mmap.
Proof. done. Qed.
Lemma conn_Export_pure sl s w r sw : conn_Export sl (s, w) = (r, sw) -> c_exportMap_ s !! index_ sl = None ->
  forall info, r = (0, info) -> exists b, info = Some b /\ blen b = UNIFIED_EXCHANGE_SEG_INFO_SIZE /\ IsDramSlice (little_endian_to_Z 8 (take 8 b)) = true.
Proof.
  unfold conn_Export, mbind, SM_bind, mret, SM_ret, gets, upd, vm_get. cbn [fst snd id]. intros H Hn info ->.
  destruct (c_slices_ s !! index_ sl); [|done]. destruct (negb _); [done|]. rewrite Hn in H.
  destruct (if 0 <? size_ sl then _ else _) as [[gva|] sw0]; [|done]. injection H as <- _. eexists. split; [done|].
  split; [apply blen_SerializeHost|]. unfold SerializeHost. set (i := mkHostInfo _ _ _ _ _ _ _ _ _).
  replace (little_endian_to_Z 8 (take 8 _)) with DRAM_SLICE_EXPORT_INFO_MAGIC; [done|].
  unfold encode. cbn [zip zip_with host_info_sizes host_info_fields fmap list_fmap concat fst snd].
  rewrite <- !app_assoc, take_app_length' by (by rewrite length_field). rewrite little_endian_to_Z_to_little_endian by lia. by vm_compute.
Qed.

(** Copies of an entity, one after the other. *)
Definition run_copies (cs : list (Z * Z * Z * Z)) : SM E unit :=
  each (fun c => _ ← CopyData c.1.1.1 c.1.1.2 c.1.2 c.2; mret tt) cs.
(** C10. One entity exports a slice of its host memory, which has a global address and whose
    index was not exported before, and another, of a different rank and with no imports
    pending, imports the description and maps.  After any further copies, a copy of the second
    entity whose destination lies in that slice is handed to the data operator with the
    exporter's rank as its destination.  The one exception is that the device cannot be selected for the calling
    thread: then the failing selection is the only call made, and the copy is refused. *)
Theorem entity_copy_reaches_peer eA wA sA slice fl sl info d0 d ewA eB wB sB a ewB :
  keys_ok -> host_entity eA sA -> va_inv (w_vm wA) ->
  conn_GetMemSlice slice (sA, wA) = (Some sl, (sA, wA)) -> exportable sA (w_vm wA) sl info ->
  has fl HYBM_FLAG_EXPORT_ENTITY = false -> blank d0 -> ExportSliceExchangeInfo slice fl d0 (eA, wA) = (Some (BM_OK, d), ewA) ->
  host_entity eB sB -> va_inv (w_vm wB) -> rankId (options_ eB) <> rankId (options_ eA) -> c_imports_ sB = [] ->
  import_and_mmap d (eB, wB) = ((Some (BM_OK, a), BM_OK), ewB) ->
  forall cs src dest size direction, a_va info HVM_GVA <= dest < a_va info HVM_GVA + size_ sl ->
  let '(_, ew) := run_copies cs ewB in
  let '(r, ew') := CopyData src dest size direction ew in
  exists srcRank, copy_outcome src dest size direction srcRank (rankId (options_ eA)) r (w_log ew.2) (w_log ew'.2).
Proof.
  intros Hkeys (Hi & Hh & Hd & Ho & Hrk) Hv Hget Hx Hfl Hblank Hexp (Hi2 & Hh2 & Hd2 & Ho2 & Hrk2) Hv2 Hne Himp Hrun cs src dest size direction Hdest.
  assert (Hget' : seg_GetMemSlice slice (@DConn V sA, wA) = (Some sl, (DConn sA, wA))) by (rewrite dram_GetMemSlice; by apply dispatch_conn).
  assert (Hlen : forall info0 sw2, seg_Export sl (@DConn V sA, wA) = ((0, info0), sw2) -> exists b sw, info0 = Some b /\
    conn_Export sl (sA, wA) = ((BM_OK, Some b), sw) /\ blen b = UNIFIED_EXCHANGE_SEG_INFO_SIZE /\ IsDramSlice (little_endian_to_Z 8 (take 8 b)) = true).
  { intros info0 [sw1 sw2] H. rewrite dram_Export in H. apply dispatch_conn_inv in H as (s' & -> & H).
    destruct (conn_Export_pure _ _ _ _ _ H (proj1 (proj2 Hx)) _ eq_refl) as (b & -> & H1 & H2). by eexists b, _. }
  assert (Hxok : exports_ok slice (@DConn V sA, wA)).
  { intros sl' sw1 info0 sw2 Hg He. rewrite Hget' in Hg. injection Hg as <- <-. by destruct (Hlen _ _ He) as (b & sw & -> & _ & ? & _). }
  pose proof (export_slice slice fl d0 (eA, wA) (DConn sA) Hkeys Hxok Hi Hh Hd Hfl Hblank) as He. apply wp_run in He. rewrite Hexp in He.
  destruct He as (x & d' & [= <- <-] & Hex). destruct (Hex eq_refl) as (sl' & sw1 & info0 & sw2 & Hg & He & Hdok & Hwr).
  cbn [fst snd] in *. rewrite Hget' in Hg. injection Hg as <- <-. destruct (Hlen _ _ He) as (b & sw & -> & Hce & Hbl & Hmag).
  assert (Hwr' : exists rest, written d = b ++ rest).
  { destruct (transportManager_ eA); [destruct Hwr as (key & _ & ->); eauto|]. rewrite Hwr. exists []. by rewrite app_nil_r. }
  destruct Hwr' as [rest Hwr']. clear Hwr. unfold import_and_mmap, mbind, SM_bind in Hrun.
  pose proof (import_slice d b rest (eB, wB) (DConn sB) Hi2 Hh2 Hd2 Hdok Hwr' Hbl Hmag) as Hin. apply wp_run in Hin.
  destruct (ImportSliceExchangeInfo [reader_of d] None (eB, wB)) as [r [e1 w1]]. destruct (entity_Mmap (e1, w1)) as [m [e2 w2]] eqn:Em.
  injection Hrun as -> -> <-. destruct (Hin _ eq_refl) as (w0 & addrs & s1 & w' & Hv0 & Hsi & Hds & Hvw & Hcore). cbn [fst snd] in *.
  rewrite dram_Import in Hsi. apply dispatch_conn_inv in Hsi as (s1' & -> & Hsi).
  unfold entity_core in Hcore. cbn [fst] in Hcore. rewrite Hi2, Hh2, Ho2 in Hcore. injection Hcore as C1 C2 C3 C4.
  rewrite (entity_Mmap_dram e1 w1 (DConn s1') C1 C3 Hds) in Em. destruct (seg_Mmap (DConn s1', w1)) as [r3 [x3 w3]] eqn:Esm. injection Em as -> <- <-.
  rewrite dram_Mmap in Esm. apply dispatch_conn_inv in Esm as (s3 & -> & Hcm).
  destruct (conn_export_info sA wA sl b sw info Hv Hx Hce) as (_ & Hdes & Hpos & Hend).
  destruct (conn_export_import_locates sA wA sl b sw info sB w0 [b] [info_of sA sl (a_va info HVM_GVA)] addrs s1' w' w1 (s3, w3)) as [Hv3 Hloc]; try done.
  - by rewrite Hv0.
  - congruence.
  - by left.
  - cbn [deserialize_all]. by rewrite Hdes.
  - apply Forall_singleton. cbn [info_of hi_gva hi_size]. destruct Hx as ((_ & _ & ?) & _). lia.
  - pose proof (located_GetRank _ _ _ _ dest Hv3 Hloc Hdest) as Hgr. cbn [snd] in Hgr.
    set (ewB := (e_set_segs None (Some (DConn s3)) e1, w3)).
    assert (Hruns : wp (run_copies cs) (fun _ ew => ew.1 = ewB.1 /\ w_vm ew.2 = w_vm w3) ewB).
    { apply wp_each; [done|]. intros c ew _ [E1 E2]. wp_step. eapply swp_mono; [apply CopyData_routes; by rewrite E1|].
      intros r ew' (E3 & E4 & _). wp_step. by rewrite E3, E4. }
    unfold wp in Hruns. destruct (run_copies cs ewB) as [u ew]. destruct Hruns as [E1 E2].
    pose proof (CopyData_routes src dest size direction ew ltac:(by rewrite E1) ltac:(by rewrite E1)) as Hc. unfold wp in Hc.
    destruct (CopyData src dest size direction ew) as [r ew']. destruct Hc as (_ & _ & Hc). eexists. revert Hc. unfold route at 2.
    rewrite E2, Hgr. cbn [fst snd]. rewrite Hrk. exact id.
Qed.
End peers.

(** ** A run: two hosts without device memory *)
#[export] Instance no_segment : MemSegment Empty_set := {
  seg_Create _ w := (None, w);
  seg_Reserve sw := match sw.1 with end; seg_UnReserve sw := match sw.1 with end; seg_Alloc _ sw := match sw.1 with end;
  seg_Register _ _ sw := match sw.1 with end; seg_Release _ sw := match sw.1 with end; seg_ExportSelf sw := match sw.1 with end;
  seg_Export _ sw := match sw.1 with end; seg_Import _ sw := match sw.1 with end; seg_RemoveImported _ sw := match sw.1 with end;
  seg_Mmap sw := match sw.1 with end; seg_Unmap sw := match sw.1 with end; seg_GetMemSlice _ sw := match sw.1 with end;
  seg_MemoryInRange _ _ sw := match sw.1 with end; seg_MemoryType := HYBM_MEM_TYPE_DEVICE; seg_CheckSdmaReaches _ sw := match sw.1 with end }.
#[export] Instance demo_host_os : Os := {| os_answer := fun _ c =>
  match c with
  | Mmap addr _ _ _ _ _ => mkAns addr 0 []
  | NewObject => mkAns 0 4096 []
  | InitDeviceInfo => mkAns 0 2 []
  | QueryMemoryKey addr => mkAns 0 0 (replicate 224 7)
  | GetNic => mkAns 0 0 (lit "tcp://10.0.0.1:9000")
  | _ => mkAns 0 0 []
  end |}.
Abbreviation DemoEntity := (Entity Empty_set (DramSeg Empty_set)).
Definition demo_size : Z := HYBM_LARGE_PAGE_SIZE.
Definition demo_options (rank : Z) : hybm_options :=
  mkOptions 1 HYBM_MEM_TYPE_HOST HYBM_DOP_TYPE_HOST_RDMA 2 rank 0 demo_size 0 demo_size 1 false 0 0 [] [] [] (-1).
Definition demo_empty_vm : HybmVaManager := mkVm ASCEND_UNKNOWN (mkPer ∅ ∅ ∅) (mkPer ∅ ∅ ∅).
Definition demo_up (rank : Z) : SM DemoEntity (Z * Z * (Z * option Z)) :=
  i ← Initialize (demo_options rank); r ← entity_Reserve; a ← entity_AllocLocalMemory demo_size HYBM_MEM_TYPE_HOST; mret (i, r, a).
Definition demo_node (rank : Z) : DemoEntity * World := (demo_up rank (new_entity 0, mkWorld demo_empty_vm [])).2.
Definition demo_slice_id : Z := ConvertToId (mkSlice 4096 0 HYBM_MEM_TYPE_HOST 0 0 0 0 MMAP).
Definition demo_blank : hybm_exchange_info := mkDesc (replicate 512 0) 0.
Definition demo_export : option (Z * hybm_exchange_info) := (ExportSliceExchangeInfo demo_slice_id 0 demo_blank (demo_node 1)).1.
Definition demo_desc : hybm_exchange_info := match demo_export with Some (_, d) => d | None => demo_blank end.
Definition demo_seg (rank : Z) : ConnSeg := match dramSegment_ (demo_node rank).1 with Some (DConn s) => s | _ => new_conn (DramOptions (demo_options rank)) end.
Definition demo_addr (rank : Z) : Z := HYBM_GVM_START_ADDR + demo_size * rank.
Definition demo_sl (rank : Z) : MemSlice := mkSlice 4096 0 HYBM_MEM_TYPE_HOST 0 (demo_addr rank) (demo_addr rank) demo_size MMAP.
Definition demo_info (rank : Z) : AllocatedGvaInfo := mkAlloc (mkBase (mkPer (demo_addr rank) 0 (demo_addr rank)) demo_size HYBM_MEM_TYPE_HOST) rank INVALID_RANK_ID.

Lemma demo_vm_inv rank vm :
  vm = (AddVaInfo (AllocReserveGva (mkVm ASCEND_910C (mkPer ∅ ∅ ∅) (mkPer ∅ ∅ ∅)) rank (2 * demo_size) (2 * demo_size) HYBM_MEM_TYPE_HOST false false).2 (demo_info rank) false).2 ->
  info_wf (demo_info rank) -> va_inv vm.
Proof.
  intros -> Hw. apply AddVaInfo_inv; [|exact Hw]. eapply va_inv_ext; [apply alloc_AllocReserveGva|]. apply (vm_reach_inv _ (reach_init ASCEND_910C)).
Defined.
Lemma demo_info_wf0 : info_wf (demo_info 0).
Proof. split; [vm_compute; discriminate|]. intros []; (split; [vm_compute; discriminate|vm_compute; reflexivity]). Defined.
Lemma demo_info_wf1 : info_wf (demo_info 1).
Proof. split; [vm_compute; discriminate|]. intros []; (split; [vm_compute; discriminate|vm_compute; reflexivity]). Defined.
Lemma demo_keys : keys_ok.
Proof. intros l addr _. reflexivity. Defined.

Lemma entity_copy_reaches_peer_witness :
  (demo_up 1 (new_entity 0, mkWorld demo_empty_vm [])).1 = (BM_OK, BM_OK, (BM_OK, Some demo_slice_id)) /\
  demo_export = Some (BM_OK, demo_desc) /\ descLen demo_desc = 432 /\
  (import_and_mmap demo_desc (demo_node 0)).1 = (Some (BM_OK, None), BM_OK) /\
  let '(_, ew) := run_copies [(0x5000, demo_addr 0, 16, 0)] (import_and_mmap demo_desc (demo_node 0)).2 in
  let '(r, ew') := CopyData 0x5000 (demo_addr 1 + 64) 32 0 ew in
  r = Some BM_OK /\ exists srcRank, copy_outcome 0x5000 (demo_addr 1 + 64) 32 0 srcRank 1 r (w_log ew.2) (w_log ew'.2).
Proof.
  assert (F1 : (demo_up 1 (new_entity 0, mkWorld demo_empty_vm [])).1 = (BM_OK, BM_OK, (BM_OK, Some demo_slice_id))) by (vm_compute; reflexivity).
  assert (F2 : demo_export = Some (BM_OK, demo_desc)) by (vm_compute; reflexivity).
  assert (F3 : (import_and_mmap demo_desc (demo_node 0)).1 = (Some (BM_OK, None), BM_OK)) by (vm_compute; reflexivity).
  assert (F4 : host_entity (demo_node 1).1 (demo_seg 1) /\ host_entity (demo_node 0).1 (demo_seg 0)) by (vm_compute; tauto).
  assert (F5 : conn_GetMemSlice demo_slice_id (demo_seg 1, (demo_node 1).2) = (Some (demo_sl 1), (demo_seg 1, (demo_node 1).2))) by (vm_compute; reflexivity).
  assert (F6 : exportable (demo_seg 1) (w_vm (demo_node 1).2) (demo_sl 1) (demo_info 1)).
  { vm_compute; intuition congruence. }
  assert (F7 : va_inv (w_vm (demo_node 1).2)) by (apply (demo_vm_inv 1); [vm_compute; reflexivity|exact demo_info_wf1]).
  assert (F8 : va_inv (w_vm (demo_node 0).2)) by (apply (demo_vm_inv 0); [vm_compute; reflexivity|exact demo_info_wf0]).
  assert (F9 : rankId (options_ (demo_node 0).1) = 0 /\ rankId (options_ (demo_node 1).1) = 1 /\ c_imports_ (demo_seg 0) = []) by (vm_compute; tauto).
  assert (Fb : blank demo_blank) by (vm_compute; intuition congruence).
  assert (Fd : demo_addr 1 <= demo_addr 1 + 64 < demo_addr 1 + demo_size) by (split; vm_compute; congruence).
  assert (Fr : let '(_, ew) := run_copies [(0x5000, demo_addr 0, 16, 0)] (import_and_mmap demo_desc (demo_node 0)).2 in
    (CopyData 0x5000 (demo_addr 1 + 64) 32 0 ew).1 = Some BM_OK) by (vm_compute; reflexivity).
  split; [exact F1|]. split; [exact F2|]. split; [vm_compute; reflexivity|]. split; [exact F3|].
  unfold demo_export in F2. destruct (demo_node 1) as [eA wA], (demo_node 0) as [eB wB]. cbn [fst snd] in *.
  destruct (ExportSliceExchangeInfo demo_slice_id 0 demo_blank (eA, wA)) as [re ewA] eqn:E1, (import_and_mmap demo_desc (eB, wB)) as [ri ewB] eqn:E2.
  cbn [fst snd] in *. subst re ri. destruct F4 as [F4 F4'], F9 as (F9 & F9' & F9'').
  pose proof (entity_copy_reaches_peer eA wA (demo_seg 1) demo_slice_id 0 (demo_sl 1) (demo_info 1) demo_blank demo_desc ewA eB wB (demo_seg 0) None ewB
    demo_keys F4 F7 F5 F6 eq_refl Fb E1 F4' F8 ltac:(rewrite F9, F9'; discriminate) F9'' E2 [(0x5000, demo_addr 0, 16, 0)] 0x5000 (demo_addr 1 + 64) 32 0 Fd) as H.
  rewrite F9' in H. destruct (run_copies _ ewB) as [u ew]. destruct (CopyData _ _ _ _ ew) as [r ew']. split; [exact Fr|exact H].
Defined.

(** ** Tags *)
Section tags.
Context {OS : Os} {SH SD : Type} {HH : MemSegment SH} {HD : MemSegment SD}.
Lemma valid_not_empty tg : IsValidTag tg = true -> (blen tg =? 0) = false.
Proof. unfold IsValidTag. by destruct (blen tg =? 0). Qed.
Lemma TagInfoInit_spec rank tg ops : IsValidTag tg = true ->
  rankTagInfo_ (TagInfoInit rank tg ops no_tags).2 = {[rank := tg]} /\ (ops = [] -> (TagInfoInit rank tg ops no_tags).1 = BM_OK).
Proof.
  intros Hv. unfold TagInfoInit, AddRankTag. rewrite (valid_not_empty tg Hv), Hv. cbn [negb fst snd rankTagInfo_ tagOpInfo_ no_tags]. change (BM_OK =? BM_OK) with true. cbn iota. unfold AddTagOpInfo. split.
  - destruct (blen ops =? 0); [done|]. by rewrite (proj2 (add_items_grows _ _)).
  - by intros ->.
Qed.
(** C21. Initialising the tags of an entity whose tag is valid or empty.  Without extra rules
    it always succeeds.  When it succeeds, no operation type of the options is lost: each is
    still among the types of the entity, and each may be used between this rank and any peer
    that reports the same tag. *)
Theorem entity_tags_keep_types (e : Entity SH SD) w :
  tagManager_ e = None -> tag (options_ e) = [] \/ IsValidTag (tag (options_ e)) = true ->
  let '(r, (e', w')) := InitTagManager (e, w) in
  w' = w /\ (tagOpInfo (options_ e) = [] -> r = BM_OK) /\
  (r = BM_OK -> exists t, tagManager_ e' = Some t /\ IsValidTag (tag (options_ e')) = true /\
    forall op, op ∈ all_ops -> has (bmDataOpType (options_ e)) op = true ->
      has (bmDataOpType (options_ e')) op = true /\
      forall peer, has (GetRank2RankOpType (rankId (options_ e)) peer (AddRankTag peer (tag (options_ e')) t).2) op = true).
Proof.
  intros Ht Htag. unfold InitTagManager, mbind, SM_bind, gets, upd, mret, SM_ret. cbn [fst snd id]. rewrite Ht.
  set (lt := if blen (tag (options_ e)) =? 0 then defaultTag else tag (options_ e)).
  assert (Hv : IsValidTag lt = true).
  { unfold lt. destruct (Z.eqb_spec (blen (tag (options_ e))) 0); [by vm_compute|]. destruct Htag as [E|]; [by rewrite E in *|done]. }
  destruct (TagInfoInit_spec (rankId (options_ e)) lt (tagOpInfo (options_ e)) Hv) as [Hr1 Hok1].
  destruct (TagInfoInit (rankId (options_ e)) lt (tagOpInfo (options_ e)) no_tags) as [r1 t1]. cbn [fst snd] in *.
  destruct (Z.eqb_spec r1 BM_OK) as [->|Hne]; cbn [negb]; [|by split_and!; [done|intros ?; exfalso; auto|]].
  destruct (AddCompatible t1 lt (bmDataOpType (options_ e)) Hv) as (Hok2 & Hr2 & _ & Hops).
  destruct (AddTagOpInfo (compatibleInfo lt (bmDataOpType (options_ e))) t1) as [r2 t2]. cbn [fst snd] in *. subst r2.
  change (BM_OK =? BM_OK) with true. cbn [negb]. split_and!; [done|done|]. intros _. exists t2. split; [done|]. split; [done|].
  intros op Hop Hh. destruct (Hops op Hop Hh) as (v & Hk & Hb). split.
  - apply has_bits; [done|]. cbn. eapply bits_in_trans; [exact Hb|by eapply GetAllOpType_has].
  - intros peer. apply has_bits; [done|]. cbn [e_set_tags e_set_options options_ tag set_tag set_DataOpType].
    match goal with |- context [AddRankTag peer ?x t2] => change x with lt end.
    unfold GetRank2RankOpType, AddRankTag. rewrite (valid_not_empty lt Hv), Hv. cbn [negb snd rankTagInfo_].
    rewrite lookup_insert_eq. rewrite Hr2, Hr1. destruct (decide (peer = rankId (options_ e))) as [->|Hne].
    + rewrite lookup_insert_eq. unfold GetTag2TagOpType. cbn [tagOpInfo_]. by rewrite Hk.
    + rewrite lookup_insert_ne by done. rewrite lookup_singleton_eq. unfold GetTag2TagOpType. cbn [tagOpInfo_]. by rewrite Hk.
Qed.
End tags.
Lemma entity_tags_keep_types_witness :
  let e : DemoEntity := e_set_options (demo_options 1) (new_entity 0) in
  (InitTagManager (e, mkWorld demo_empty_vm [])).1 = BM_OK /\ has (bmDataOpType (demo_options 1)) HYBM_DOP_TYPE_HOST_RDMA = true /\
  exists t, tagManager_ (InitTagManager (e, mkWorld demo_empty_vm [])).2.1 = Some t /\
    has (GetRank2RankOpType 1 7 (AddRankTag 7 defaultTag t).2) HYBM_DOP_TYPE_HOST_RDMA = true.
Proof.
  intros e. pose proof (entity_tags_keep_types e (mkWorld demo_empty_vm []) eq_refl (or_introl eq_refl)) as H.
  assert (Ht : tag (options_ (InitTagManager (e, mkWorld demo_empty_vm [])).2.1) = defaultTag) by (vm_compute; reflexivity).
  destruct (InitTagManager (e, mkWorld demo_empty_vm [])) as [r [e' w']]. cbn [fst snd] in *. destruct H as (_ & Hok & Ht').
  specialize (Hok eq_refl). subst r. destruct (Ht' eq_refl) as (t & Et & _ & Hops). split; [reflexivity|]. split; [vm_compute; reflexivity|].
  exists t. split; [exact Et|]. destruct (Hops HYBM_DOP_TYPE_HOST_RDMA) as [_ Hp].
  - apply list_elem_of_In. vm_compute. tauto.
  - vm_compute. reflexivity.
  - specialize (Hp 7). rewrite Ht in Hp. exact Hp.
Defined.

(** ** Batches *)
Section batches.
Context {OS : Os} {SH SD : Type} {HH : MemSegment SH} {HD : MemSegment SD}.
(** The positions of the copies between two ranks, in order. *)
Definition positions (e : Entity SH SD) (vm : HybmVaManager) (k : Z * Z) (i : Z) (copies : list (Z * Z * Z)) : list Z :=
  fst <$> filter (fun p : Z * (Z * Z * Z) => (route e vm p.2.1.1, route e vm p.2.1.2) = k) (zip (seqZ i (Z.of_nat (length copies))) copies).
Lemma group_positions (e : Entity SH SD) (vm : HybmVaManager) (l : list (Z * (Z * Z * Z))) (g0 : gmap (Z * Z) (list Z)) (k : Z * Z) :
  foldl (fun (g : gmap (Z * Z) (list Z)) (p : Z * (Z * Z * Z)) => let k := (route e vm p.2.1.1, route e vm p.2.1.2) in <[k := default [] (g !! k) ++ [p.1]]> g) g0 l !! k =
  match fst <$> filter (fun p : Z * (Z * Z * Z) => (route e vm p.2.1.1, route e vm p.2.1.2) = k) l with
  | [] => g0 !! k
  | idx => Some (default [] (g0 !! k) ++ idx)
  end.
Proof.
  revert g0. induction l as [|p l IH]; intros g0; [done|]. cbn [foldl]. rewrite IH, filter_cons. cbv zeta. case_decide as Hk.
  - rewrite Hk, lookup_insert_eq, fmap_cons. destruct (fst <$> filter _ l); [done|]. simpl. by rewrite <- app_assoc.
  - by rewrite lookup_insert_ne by done.
Qed.

(** A batch of copies is handed to the data operator in groups, one for each pair of ranks
    that the addresses of some copy belong to, and the group of a pair lists exactly the
    positions of its copies, in the order of the batch. *)
Theorem entity_batch_groups (e : Entity SH SD) w copies direction :
  initialized_ e = true -> dataOperator_ e = true ->
  let '(r, ew) := BatchCopyData copies direction (e, w) in
  r = BM_ERROR \/
  exists groups a, r = ret a /\ last (w_log ew.2) = Some (BatchDataCopy direction groups, a) /\ NoDup (fst <$> groups) /\
    forall k idx, (k, idx) ∈ groups <-> idx <> [] /\ idx = positions e (w_vm w) k 0 copies.
Proof.
  intros Hi Hop.
  enough (Hwp : wp (BatchCopyData copies direction) (fun r ew => r = BM_ERROR \/
    exists groups a, r = ret a /\ last (w_log ew.2) = Some (BatchDataCopy direction groups, a) /\ NoDup (fst <$> groups) /\
      forall k idx, (k, idx) ∈ groups <-> idx <> [] /\ idx = positions e (w_vm w) k 0 copies) (e, w)) by exact Hwp.
  unfold BatchCopyData. do 2 wp_step. cbn [id fst]. rewrite Hi, Hop. cbn [negb]. wp_step.
  apply device_ok. intros dev [e1 w1] Hc _ _ Hv. cbn [fst snd] in *. unfold entity_core in Hc. injection Hc as _ Ho _ _.
  apply wp_if; intros _; [wp_step; by left|]. wp_step. eapply swp_mono; [apply group_copies_pure|]. intros g ew' [-> ->]. cbn [fst snd].
  repeat wp_step. right. eexists _, a. split; [done|]. cbn [w_log snd]. rewrite last_snoc. split; [done|].
  unfold group_list. rewrite list_fmap_id. split; [apply NoDup_fst_map_to_list|]. intros k idx. rewrite elem_of_map_to_list, group_positions, lookup_empty.
  unfold positions, route. rewrite Ho, Hv. destruct (fst <$> filter _ _) as [|x xs]; simpl; naive_solver.
Qed.
End batches.
Definition demo_copies : list (Z * Z * Z) := [(0x5000, demo_addr 1 + 64, 32); (demo_addr 0, 0x6000, 32); (0x7000, demo_addr 1, 32)].
Lemma entity_batch_groups_witness :
  let ew := (import_and_mmap demo_desc (demo_node 0)).2 in
  positions ew.1 (w_vm ew.2) (0, 1) 0 demo_copies = [0; 2] /\ positions ew.1 (w_vm ew.2) (0, 0) 0 demo_copies = [1] /\
  let '(r, ew') := BatchCopyData demo_copies 0 ew in
  r = BM_ERROR \/
  exists groups a, r = ret a /\ last (w_log ew'.2) = Some (BatchDataCopy 0 groups, a) /\ NoDup (fst <$> groups) /\
    forall k idx, (k, idx) ∈ groups <-> idx <> [] /\ idx = positions ew.1 (w_vm ew.2) k 0 demo_copies.
Proof.
  intros ew. assert (F1 : initialized_ ew.1 = true) by (vm_compute; reflexivity). assert (F2 : dataOperator_ ew.1 = true) by (vm_compute; reflexivity).
  assert (F3 : positions ew.1 (w_vm ew.2) (0, 1) 0 demo_copies = [0; 2]) by (vm_compute; reflexivity).
  assert (F4 : positions ew.1 (w_vm ew.2) (0, 0) 0 demo_copies = [1]) by (vm_compute; reflexivity).
  split; [exact F3|]. split; [exact F4|]. clearbody ew. destruct ew as [e w]. exact (entity_batch_groups e w demo_copies 0 F1 F2).
Defined.

(** ** What ranks tell each other *)
Section infos.
Context {OS : Os} {SH SD : Type} {HH : MemSegment SH} {HD : MemSegment SD}.
(** The address of the transport is a C string. *)
Definition nic_ok : Prop := forall l, Forall (fun c => c <> 0) (out_bytes (os_answer l GetNic)).
Lemma add_rank_tags_spec l t :
  NoDup (fst <$> l) -> (add_rank_tags l t).1 = BM_OK ->
  forall r i, (r, i) ∈ l -> x_tag i <> [] -> rankTagInfo_ (add_rank_tags l t).2 !! r = Some (x_tag i).
Proof.
  intros Hnd Hok r i Hin Hne.
  assert (Hkeep : forall l t, r ∉ (fst <$> l) -> rankTagInfo_ (add_rank_tags l t).2 !! r = rankTagInfo_ t !! r).
  { clear. induction l as [|[q j] l IH]; intros t Hq; [done|]. cbn [add_rank_tags]. apply not_elem_of_cons in Hq as [Hq1 Hq2]. unfold AddRankTag.
    destruct (blen (x_tag j) =? 0); [by apply IH|]. destruct (negb (IsValidTag (x_tag j))); [done|]. change (BM_OK =? BM_OK) with true. cbn iota.
    rewrite IH by done. cbn [rankTagInfo_]. by rewrite lookup_insert_ne by (cbn in Hq1; congruence). }
  revert t Hok. induction l as [|[q j] l IH]; intros t Hok; [by apply elem_of_nil in Hin|]. cbn [add_rank_tags] in *.
  apply NoDup_cons in Hnd as [Hq Hnd]. apply elem_of_cons in Hin as [[= -> ->]|Hin].
  - destruct (AddRankTag q (x_tag j) t) as [a t1] eqn:E. destruct (Z.eqb_spec a BM_OK) as [->|]; [|by cbn in Hok]. rewrite Hkeep by done. unfold AddRankTag in E.
    destruct (Z.eqb_spec (blen (x_tag j)) 0) as [E0|]; [by destruct (x_tag j)|]. destruct (negb (IsValidTag (x_tag j))); [done|]. injection E as <-. apply lookup_insert_eq.
  - destruct (AddRankTag q (x_tag j) t) as [a t1]. destruct (Z.eqb_spec a BM_OK); [by apply IH|by cbn in Hok].
Qed.
Lemma valid_tag_bytes tg : IsValidTag tg = true -> Forall (fun c => c <> 0) tg /\ blen tg < TAG_SIZE.
Proof.
  unfold IsValidTag. intros [[_ H2]%andb_true_iff H3]%andb_true_iff. split; [|unfold MAX_TAG_LEN, TAG_SIZE in *; lia].
  apply Forall_forall. intros c Hc ->. by apply forallb_forall with (x := 0) in H3; [|by apply list_elem_of_In].
Qed.
Lemma valid_info_ok rk ro nic tg :
  0 <= rk < 2 ^ 32 -> 0 <= ro < 2 ^ 16 -> Forall (fun c => c <> 0) nic -> blen nic < NIC_SIZE -> IsValidTag tg = true ->
  entity_info_ok (mkInfo ENTITY_EXPORT_INFO_MAGIC EXPORT_INFO_VERSION rk ro nic tg).
Proof. intros ? ? ? ? [? ?]%valid_tag_bytes. unfold entity_info_ok. cbn [x_magic x_version x_rankId x_role x_nic x_tag]. unfold ENTITY_EXPORT_INFO_MAGIC, EXPORT_INFO_VERSION. split_and!; lia || done. Qed.
Lemma transport_manager_keeps (ew : Entity SH SD * World) :
  wp ImportForTransportManager (fun _ ew' => tagManager_ ew'.1 = tagManager_ ew.1 /\ importedRanks_ ew'.1 = importedRanks_ ew.1 /\
    hbmSegment_ ew'.1 = hbmSegment_ ew.1) ew.
Proof.
  unfold ImportForTransportManager. do 2 wp_step. apply wp_if; intros _; [by wp_step|]. wp_step.
  apply swp_mono with (fun _ ew' => ew'.1 = ew.1).
  { apply wp_if; intros _; repeat wp_step; [done|]. apply wp_if; intros _; by repeat wp_step. }
  intros r ew' E. apply wp_if; intros _; repeat wp_step; cbn [fst]; by rewrite ?E.
Qed.
Lemma import_info info d (eB : Entity SH SD) wB t :
  desc_ok d -> written d = SerializeEntity info -> entity_info_ok info -> x_tag info <> [] ->
  initialized_ eB = true -> hbmSegment_ eB = None -> tagManager_ eB = Some t ->
  wp (ImportEntityExchangeInfo [reader_of d]) (fun x ew => (exists z, x = Some z) /\
    (x = Some BM_OK -> exists t', tagManager_ ew.1 = Some t' /\ GetTagByRank (x_rankId info) t' = x_tag info /\
       importedRanks_ ew.1 !! x_rankId info = Some info)) (eB, wB).
Proof.
  intros Hd Hw Hok Hne Hi Hh Ht. destruct (SerializeEntity_roundtrip info Hok) as [Hrt Hlen].
  unfold ImportEntityExchangeInfo. do 2 wp_step. cbn [fst]. rewrite Hi. cbn [negb read_infos].
  assert (Hread : reader_Read ENTITY_INFO_SIZE (reader_of d) = Got (SerializeEntity info, mkReader d ENTITY_INFO_SIZE)).
  { pose proof (reader_Read_part d [] (SerializeEntity info) [] Hd) as H. rewrite Hlen in H. apply H. by rewrite Hw, app_nil_r. }
  rewrite Hread, Hrt. do 3 wp_step. cbn [foldl]. unfold ImportForTagManager. do 2 wp_step. cbn [id fst e_set_imports tagManager_ importedRanks_]. rewrite Ht.
  set (m := <[x_rankId info := info]> (importedRanks_ eB)). destruct (add_rank_tags (map_to_list m) t) as [r t'] eqn:Er. repeat wp_step.
  rewrite (bool_decide_eq_false_2 (Some r = None)) by done. cbn iota.
  destruct (decide (r = BM_OK)) as [->|Hr]; [rewrite bool_decide_eq_true_2 by done|rewrite bool_decide_eq_false_2 by congruence]; cbn [negb]; [|wp_step; by split; [eauto|]].
  assert (Htag : GetTagByRank (x_rankId info) t' = x_tag info).
  { unfold GetTagByRank. pose proof (add_rank_tags_spec (map_to_list m) t (NoDup_fst_map_to_list m)) as H. rewrite Er in H.
    rewrite (H eq_refl _ info); [done| |done]. apply elem_of_map_to_list. apply lookup_insert_eq. }
  wp_step. eapply swp_mono; [apply transport_manager_keeps|]. intros x [e w] (E1 & E2 & E3). cbn [fst snd] in *.
  apply wp_if; intros _; [wp_step; by split; [eauto|]|]. do 2 wp_step. cbn [id fst]. rewrite E3. cbn [e_set_tags e_set_imports hbmSegment_]. rewrite Hh.
  wp_step. split; [eauto|]. intros _. exists t'. cbn [fst]. rewrite E1, E2. split_and!; [done|done|]. apply lookup_insert_eq.
Qed.

(** C16. An initialised entity with host memory only, outside the transfer scene and with a valid
    tag, exports what it is, and another initialised entity with host memory only imports it.
    The export into an empty description fits and fails only when the address of the transport
    is too long.  The import stays inside the description; when it succeeds, the importer
    holds the exporter's rank, role, address and tag under that rank, and its tag manager knows
    the tag. *)
Theorem entity_info_roundtrip (eA : Entity SH SD) wA d0 :
  nic_ok -> initialized_ eA = true -> hbmSegment_ eA = None -> scene (options_ eA) <> HYBM_SCENE_TRANS -> blank d0 ->
  0 <= rankId (options_ eA) < 2 ^ 32 -> 0 <= role (options_ eA) < 2 ^ 16 -> IsValidTag (tag (options_ eA)) = true ->
  let '(r, _) := ExportEntityExchangeInfo d0 (eA, wA) in
  let nic := if transportManager_ eA then out_bytes (os_answer (w_log wA) GetNic) else [] in
  (NIC_SIZE <= blen nic /\ r = Some (BM_ERROR, d0)) \/
  (exists d, r = Some (BM_OK, d) /\ descLen d = ENTITY_INFO_SIZE /\ forall (eB : Entity SH SD) wB t,
    initialized_ eB = true -> hbmSegment_ eB = None -> tagManager_ eB = Some t ->
    let '(x, (e, _)) := ImportEntityExchangeInfo [reader_of d] (eB, wB) in
    (exists z, x = Some z) /\
    (x = Some BM_OK -> exists t', tagManager_ e = Some t' /\ GetTagByRank (rankId (options_ eA)) t' = tag (options_ eA) /\
       importedRanks_ e !! rankId (options_ eA) =
       Some (mkInfo ENTITY_EXPORT_INFO_MAGIC EXPORT_INFO_VERSION (rankId (options_ eA)) (role (options_ eA)) nic (tag (options_ eA))))).
Proof.
  intros Hnic Hi Hh Hsc Hblank Hrk Hro Htag. set (nic := if transportManager_ eA then _ else _).
  assert (Hnz : Forall (fun c => c <> 0) nic) by (unfold nic; destruct (transportManager_ eA); [apply Hnic|constructor]).
  set (info := mkInfo ENTITY_EXPORT_INFO_MAGIC EXPORT_INFO_VERSION (rankId (options_ eA)) (role (options_ eA)) nic (tag (options_ eA))).
  enough (Hx : wp (ExportEntityExchangeInfo d0) (fun r _ => (NIC_SIZE <= blen nic /\ r = Some (BM_ERROR, d0)) \/
     exists d, r = Some (BM_OK, d) /\ desc_ok d /\ written d = SerializeEntity info /\ descLen d = ENTITY_INFO_SIZE /\ entity_info_ok info) (eA, wA)).
  { unfold wp in Hx. destruct (ExportEntityExchangeInfo d0 (eA, wA)) as [r ew]. cbv zeta. destruct Hx as [?|(d & -> & Hd & Hw & Hl & Hok)]; [by left|right].
    exists d. split; [done|]. split; [done|]. intros eB wB t HiB HhB HtB.
    assert (Hne : x_tag info <> []) by (by cbn; intros E; rewrite E in Htag).
    pose proof (import_info info d eB wB t Hd Hw Hok Hne HiB HhB HtB) as H. unfold wp in H.
    by destruct (ImportEntityExchangeInfo [reader_of d] (eB, wB)) as [x [e w]]. }
  unfold ExportEntityExchangeInfo. do 2 wp_step. cbn [id fst]. rewrite Hi. cbn [negb]. wp_step.
  apply swp_mono with (fun a ew => a = nic /\ ew.1 = eA).
  { unfold nic. destruct (transportManager_ eA); [|by wp_step]. wp_step. apply wp_sys. intros a ->. by wp_step. }
  intros a ew [-> He]. destruct (Z.leb_spec NIC_SIZE (blen nic)); [wp_step; by left|]. fold info.
  assert (Hok : entity_info_ok info) by by apply valid_info_ok. destruct (SerializeEntity_roundtrip info Hok) as [_ Hlen]. pose proof (blank_written d0 Hblank) as Hbw. destruct Hblank as [Hd0 Hl0].
  apply wp_append; [done|rewrite Hl0, Hlen; done|]. intros d Hd Hw Hl. rewrite Hh. wp_step. rewrite (proj2 (Z.eqb_neq _ _)) by done. right. exists d.
  rewrite Hw, Hbw, Hl, Hl0, Hlen. done.
Qed.
End infos.
Lemma entity_info_roundtrip_witness :
  let '(r, _) := ExportEntityExchangeInfo demo_blank (demo_node 1) in
  exists d, r = Some (BM_OK, d) /\ descLen d = 120 /\
  let '(x, (e, _)) := ImportEntityExchangeInfo [reader_of d] (demo_node 0) in
  x = Some BM_OK /\ exists t', tagManager_ e = Some t' /\ GetTagByRank 1 t' = defaultTag /\
    importedRanks_ e !! 1 = Some (mkInfo ENTITY_EXPORT_INFO_MAGIC EXPORT_INFO_VERSION 1 HYBM_ROLE_PEER (lit "tcp://10.0.0.1:9000") defaultTag).
Proof.
  assert (F0 : nic_ok) by (intros l; vm_compute; repeat constructor; discriminate).
  assert (F1 : initialized_ (demo_node 1).1 = true /\ hbmSegment_ (demo_node 1).1 = None /\ transportManager_ (demo_node 1).1 = true /\
    initialized_ (demo_node 0).1 = true /\ hbmSegment_ (demo_node 0).1 = None) by (vm_compute; tauto).
  assert (F2 : options_ (demo_node 1).1 = set_DataOpType HYBM_DOP_TYPE_HOST_RDMA (set_tag defaultTag (demo_options 1))) by (vm_compute; reflexivity).
  assert (F3 : exists t, tagManager_ (demo_node 0).1 = Some t) by (eexists; vm_compute; reflexivity).
  assert (F4 : match (ExportEntityExchangeInfo demo_blank (demo_node 1)).1 with
               | Some (_, d) => (ImportEntityExchangeInfo [reader_of d] (demo_node 0)).1 = Some BM_OK
               | None => False end) by (vm_compute; reflexivity).
  assert (Fb : blank demo_blank) by (vm_compute; intuition congruence).
  assert (Fn : forall l, out_bytes (os_answer l GetNic) = lit "tcp://10.0.0.1:9000") by reflexivity.
  assert (Fl : NIC_SIZE <= blen (lit "tcp://10.0.0.1:9000") -> False) by (vm_compute; congruence).
  destruct F1 as (H1 & H2 & H3 & H4 & H5), F3 as [t H6]. destruct (demo_node 1) as [eA wA], (demo_node 0) as [eB wB]. cbn [fst snd] in *.
  pose proof (entity_info_roundtrip eA wA demo_blank F0 H1 H2 ltac:(rewrite F2; vm_compute; discriminate) Fb ltac:(rewrite F2; vm_compute; intuition congruence)
    ltac:(rewrite F2; vm_compute; intuition congruence) ltac:(rewrite F2; vm_compute; reflexivity)) as H. rewrite H3, F2, Fn in H.
  destruct (ExportEntityExchangeInfo demo_blank (eA, wA)) as [r ew]. cbn [fst] in F4. destruct H as [[Hl _]|(d & -> & Hd & Hi)]; [by destruct (Fl Hl)|].
  exists d. split; [reflexivity|]. split; [exact Hd|]. specialize (Hi eB wB t H4 H5 H6). destruct (ImportEntityExchangeInfo [reader_of d] (eB, wB)) as [x [e w]].
  cbn [fst] in F4. destruct Hi as [_ Hi]. split; [exact F4|]. destruct (Hi F4) as (t' & G1 & G2 & G3). exists t'. split; [exact G1|]. split; [exact G2|exact G3].
Defined.

(** ** The checked copy of the C interface *)
Section checked.
Context {OS : Os} {V SH : Type} {HV : MemSegment V} {HH : MemSegment SH}.
Implicit Types e : Entity SH (DramSeg V).
(** The addresses a segment of host memory reserved. *)
Definition window (d : DramSeg V) : option (Z * Z) :=
  match d with
  | DConn s => Some (c_globalVirtualAddress_ s, c_totalVirtualSize_ s)
  | DShm s => Some (globalVirtualAddress_ (h_space s), totalVirtualSize_ (h_space s))
  | DVmm _ => None
  end.
Definition in_window (g n addr size : Z) : Prop := g <= addr /\ addr + size <= g + n.
(** Addresses of 64 bits that do not run over the end. *)
Definition plain (addr size : Z) : Prop := 0 <= addr /\ 0 <= size /\ addr + size < 2 ^ 64.

(** What the range check of the source says of a side: its end is compared modulo 2^64.  For
    a side that does not run over the end it means being inside. *)
Definition checked_side (g n addr size : Z) : Prop :=
  g <= addr /\ u64 (addr + size) <= g + n /\ (plain addr size -> in_window g n addr size).
Lemma check_address (ew : Entity SH (DramSeg V) * World) d g n addr size :
  hbmSegment_ ew.1 = None -> dramSegment_ ew.1 = Some d -> window d = Some (g, n) -> plain g n ->
  wp (CheckAddressInEntity addr size) (fun b ew' => ew'.2 = ew.2 /\ hbmSegment_ ew'.1 = None /\ dramSegment_ ew'.1 = Some d /\
    initialized_ ew'.1 = initialized_ ew.1 /\ (b = true -> checked_side g n addr size)) ew.
Proof.
  intros Hh Hd Hw (Hg & Hn & Hgn). unfold CheckAddressInEntity. do 2 wp_step. apply wp_if; intros _; [by wp_step|]. wp_step.
  apply wp_on_hbm_none; [done|]. cbn [default]. wp_step. eapply wp_on_dram; [done|].
  assert (E : forall x, 0 <= x < 2 ^ 64 -> u64 x = x) by (intros x Hx; unfold u64; by apply Z.mod_small).
  destruct d as [s|s|v]; [..|done]; injection Hw as <- <-; unfold wp, seg_MemoryInRange; cbn [dram_segment]; unfold dispatch; cbn [fst snd];
    [unfold conn_MemoryInRange|unfold shm_MemoryInRange]; unfold mbind, SM_bind, gets, mret, SM_ret; cbn [fst snd id]; rewrite (E (_ + _)) by lia;
    (split_and!; [done..|]); intros H%andb_true_iff; (split; [lia|]); (split; [lia|]); unfold in_window; intros (Ha & Hs & Has); rewrite (E (addr + size)) in H by lia; lia.
Qed.
Lemma check_sides_window (ew : Entity SH (DramSeg V) * World) d g n direction src dest size :
  hbmSegment_ ew.1 = None -> dramSegment_ ew.1 = Some d -> window d = Some (g, n) -> plain g n ->
  wp (check_sides direction src dest size) (fun b ew' => ew'.2 = ew.2 /\
    (b = true -> ((g_checkMap direction).1 = true -> checked_side g n src size) /\ ((g_checkMap direction).2 = true -> checked_side g n dest size))) ew.
Proof.
  intros Hh Hd Hw Hg. unfold check_sides. wp_step.
  apply swp_mono with (fun b ew' => ew'.2 = ew.2 /\ hbmSegment_ ew'.1 = None /\ dramSegment_ ew'.1 = Some d /\
    (b = true -> (g_checkMap direction).2 = true -> checked_side g n dest size)).
  { apply wp_if; intros Hc; [|wp_step; split_and!; [done..|]; congruence]. eapply swp_mono; [by eapply check_address|]. naive_solver. }
  intros b ew' (E & Hh' & Hd' & Hb). apply wp_if; intros Hc; [|wp_step; rewrite E; split; [done|]; naive_solver congruence].
  destruct b; [|by wp_step]. eapply swp_mono; [by eapply check_address|]. intros b ew2 (E2 & _ & _ & _ & Hb2). split; [congruence|]. naive_solver.
Qed.
(** Copying sets the device and hands the copy to the data operator, nothing else. *)
Lemma copy_calls src dest size direction (ew : Entity SH (DramSeg V) * World) :
  wp (CopyData src dest size direction) (fun _ ew' => exists l, w_log ew'.2 = w_log ew.2 ++ l /\
    Forall (fun p => p.1 = AclrtSetDevice \/ exists srcRank destRank, p.1 = DataCopy src dest size direction srcRank destRank) l) ew.
Proof.
  unfold CopyData. do 2 wp_step. apply wp_if; intros _; [wp_step; exists []; by rewrite app_nil_r|]. wp_step.
  apply swp_mono with (fun _ ew' => exists l, w_log ew'.2 = w_log ew.2 ++ l /\ Forall (fun p : call * answer => p.1 = AclrtSetDevice) l).
  { unfold SetThreadAclDevice. do 2 wp_step. apply wp_if; intros _; [wp_step; exists []; by rewrite app_nil_r|]. repeat wp_step.
    exists [(AclrtSetDevice, a)]. split; [done|by constructor]. }
  intros dev ew' (l & E & Hl). assert (Hl' : Forall (fun p : call * answer => p.1 = AclrtSetDevice \/ exists srcRank destRank, p.1 = DataCopy src dest size direction srcRank destRank) l).
  { eapply Forall_impl; [exact Hl|]. auto. }
  apply wp_if; intros _; [wp_step; eauto|]. unfold LocateAddrAndRank. repeat wp_step. apply wp_if; intros _; [wp_step; eauto|]. repeat wp_step.
  cbn [snd w_log]. rewrite E. eexists (l ++ [_]). split; [by rewrite app_assoc|]. apply Forall_app. split; [done|]. constructor; [eauto|done].
Qed.
Lemma wp_on_engine {A} id (m : SM (Entity SH (DramSeg V)) A) Q (fw : MemEntityFactory SH (DramSeg V) * World) e :
  engines_ fw.1 !! id = Some e ->
  wp m (fun a ew => Q (Some a) (mkFactory (<[id := ew.1]> (engines_ fw.1)) (enginesFromAddress_ fw.1), ew.2)) (e, fw.2) -> wp (on_engine id m) Q fw.
Proof. intros E. unfold wp, on_engine. rewrite E. by destruct (m (e, fw.2)) as [a [e' w']]. Qed.

(** C15. A copy through the C interface on an entity with host memory only, of a connection based
    or shared-memory segment whose reserved range does not wrap.  Whatever the direction asked for, the only thing that reaches the
    data operator is the copy asked for, in the direction given or inferred, and then every
    side that this direction requires to be in the entity begins in the reserved address space
    and its end, modulo 2^64, is not behind it.  So a side whose address plus size is below
    2^64 lies in that space; a larger size can pass, see [api_copy_wrapped_size_passes]. *)
Theorem api_copy_in_range (f : MemEntityFactory SH (DramSeg V)) w h id e d g n src dest size direction :
  enginesFromAddress_ f !! h = Some id -> engines_ f !! id = Some e -> hbmSegment_ e = None -> dramSegment_ e = Some d ->
  window d = Some (g, n) -> plain g n ->
  let '(_, (_, w')) := hybm_data_copy h src dest size direction (f, w) in
  let dir := if direction =? HYBM_DATA_COPY_DIRECTION_AUTO then InferCopyDirection (w_vm w) src dest else direction in
  exists l, w_log w' = w_log w ++ l /\
    Forall (fun p => p.1 = AclrtSetDevice \/
      (exists srcRank destRank, p.1 = DataCopy src dest size dir srcRank destRank) /\
      ((g_checkMap dir).1 = true -> checked_side g n src size) /\ ((g_checkMap dir).2 = true -> checked_side g n dest size)) l.
Proof.
  intros Hh He Hhbm Hd Hw Hg. set (dir := if direction =? _ then _ else _).
  enough (Hwp : wp (hybm_data_copy h src dest size direction) (fun _ fw => exists l, w_log fw.2 = w_log w ++ l /\
    Forall (fun p => p.1 = AclrtSetDevice \/ (exists srcRank destRank, p.1 = DataCopy src dest size dir srcRank destRank) /\
      ((g_checkMap dir).1 = true -> checked_side g n src size) /\ ((g_checkMap dir).2 = true -> checked_side g n dest size)) l) (f, w)).
  { unfold wp in Hwp. by destruct (hybm_data_copy h src dest size direction (f, w)) as [r [f' w']]. }
  unfold hybm_data_copy. apply wp_if; intros _; [wp_step; exists []; by rewrite app_nil_r|]. wp_step.
  apply swp_mono with (fun x fw => fw = (f, w) /\ (x = None \/ x = Some dir)).
  { unfold infer_direction, dir. apply wp_if; intros ->; [|wp_step; auto]. do 3 wp_step. cbn [snd]. destruct (_ =? HYBM_DATA_COPY_DIRECTION_BUTT); auto. }
  intros x fw [-> [-> | ->]]; [wp_step; exists []; by rewrite app_nil_r|]. unfold with_engine. apply wp_if; intros _; [wp_step; exists []; by rewrite app_nil_r|].
  do 2 wp_step. unfold FindEngineByPtr. cbn [fst]. rewrite Hh, He. wp_step. eapply wp_on_engine; [done|]. cbn [snd].
  wp_step. eapply swp_mono; [by eapply check_sides_window|]. intros ok [e1 w1] [E Hok]. cbn [fst snd] in *. subst w1.
  destruct ok; cbn [negb]; [|do 2 wp_step; exists []; by rewrite app_nil_r]. eapply swp_mono; [apply copy_calls|]. intros r ew (l & E & Hl). wp_step.
  exists l. split; [done|].
  eapply Forall_impl; [exact Hl|]. intros p [?|Hp]; [by left|right]. split; [exact Hp|exact (Hok eq_refl)].
Qed.
End checked.
Definition demo_handle : Z := 4096.
Definition demo_factory (rank : Z) : MemEntityFactory Empty_set (DramSeg Empty_set) := mkFactory {[0 := (demo_node rank).1]} {[demo_handle := 0]}.
Lemma api_copy_in_range_witness :
  (hybm_data_copy demo_handle 0x5000 (demo_addr 1) 32 0 (demo_factory 1, (demo_node 1).2)).1 = Some BM_OK /\
  (hybm_data_copy demo_handle 0x5000 (demo_addr 2) 32 0 (demo_factory 1, (demo_node 1).2)).1 = Some BM_INVALID_PARAM /\
  let '(_, (_, w')) := hybm_data_copy demo_handle 0x5000 (demo_addr 1) 32 0 (demo_factory 1, (demo_node 1).2) in
  exists l, w_log w' = w_log (demo_node 1).2 ++ l /\
    Forall (fun p => p.1 = AclrtSetDevice \/
      (exists srcRank destRank, p.1 = DataCopy 0x5000 (demo_addr 1) 32 0 srcRank destRank) /\
      ((g_checkMap 0).1 = true -> checked_side HYBM_GVM_START_ADDR (2 * demo_size) 0x5000 32) /\
      ((g_checkMap 0).2 = true -> checked_side HYBM_GVM_START_ADDR (2 * demo_size) (demo_addr 1) 32)) l.
Proof.
  split; [vm_compute; reflexivity|]. split; [vm_compute; reflexivity|].
  assert (F1 : hbmSegment_ (demo_node 1).1 = None /\ dramSegment_ (demo_node 1).1 = Some (DConn (demo_seg 1)) /\
    window (@DConn Empty_set (demo_seg 1)) = Some (HYBM_GVM_START_ADDR, 2 * demo_size)) by (vm_compute; tauto).
  assert (F2 : plain HYBM_GVM_START_ADDR (2 * demo_size)) by (vm_compute; intuition congruence).
  destruct F1 as (H1 & H2 & H3). unfold demo_factory. destruct (demo_node 1) as [e w]. cbn [fst snd] in *.
  exact (api_copy_in_range (mkFactory {[0 := e]} {[demo_handle := 0]}) w demo_handle 0 e (DConn (demo_seg 1)) HYBM_GVM_START_ADDR (2 * demo_size) 0x5000
    (demo_addr 1) 32 0 (lookup_singleton_eq _ _) (lookup_singleton_eq _ _) H1 H2 H3 F2).
Defined.
(** The size wraps: a copy of 2^64 - 4096 bytes into the last page of the space passes the
    check and reaches the data operator. *)
Theorem api_copy_wrapped_size_passes :
  let dest := HYBM_GVM_START_ADDR + 2 * demo_size - 4096 in
  let '(r, (_, w)) := hybm_data_copy demo_handle 0x5000 dest (2 ^ 64 - 4096) 0 (demo_factory 1, (demo_node 1).2) in
  r = Some BM_OK /\ last (w_log w) = Some (DataCopy 0x5000 dest (2 ^ 64 - 4096) 0 1 1, mkAns 0 0 []) /\
  ~ in_window HYBM_GVM_START_ADDR (2 * demo_size) dest (2 ^ 64 - 4096).
Proof. vm_compute. split; [reflexivity|]. split; [reflexivity|]. intros [_ H]. by apply H. Qed.
