(* ===== verification/ComposeTheorems.v ===== *)
(** * ComposeTheorems: the composed transport and the composed data operator *)
From Stdlib Require Import String.
From stdpp Require Import gmap.
From S2P Require Import Prelude MessagePacker StrUtil VaManager ExchangeInfo SegmentWorld ConnSegment EntityTag Entity EntityImport DramSegment EntityProof.
From S2P Require Import ComposeTransport ComposeDataOp ComposeProof EntityTheorems.
Local Open Scope list_scope.

(** ** Batches, from the entity to the operators *)
Section batch.
Context {OS : Os} {SH SD : Type} {HH : MemSegment SH} {HD : MemSegment SD}.
Definition ranks_of (e : Entity SH SD) (vm : HybmVaManager) (x : Z * Z * Z) : Z * Z := (route e vm x.1.1, route e vm x.1.2).
Definition indexed (copies : list (Z * Z * Z)) : list (Z * (Z * Z * Z)) := zip (seqZ 0 (Z.of_nat (length copies))) copies.
Lemma length_indices (copies : list (Z * Z * Z)) : length (seqZ 0 (Z.of_nat (length copies))) = length copies.
Proof. rewrite length_seqZ. lia. Qed.
Lemma indexed_lookup copies i x : (i, x) ∈ indexed copies -> copies !!! Z.to_nat i = x.
Proof.
  intros (n & Hn)%list_elem_of_lookup. apply lookup_zip_with_Some in Hn as (j & y & [= <- <-] & H1 & H2).
  apply lookup_seqZ in H1 as [-> _]. rewrite Z.add_0_l, Nat2Z.id. by apply list_lookup_total_correct.
Qed.
Lemma indexed_NoDup copies : NoDup (fst <$> indexed copies).
Proof. unfold indexed. rewrite fst_zip by (rewrite length_indices; lia). apply NoDup_seqZ. Qed.
Lemma NoDup_fst_filter {A B} (P : A * B -> Prop) `{!forall x, Decision (P x)} (l : list (A * B)) : NoDup (fst <$> l) -> NoDup (fst <$> filter P l).
Proof.
  induction l as [|x l IH]; [done|]. rewrite fmap_cons. intros [Hx Hl]%NoDup_cons. rewrite filter_cons. case_decide; [|by apply IH].
  rewrite fmap_cons. apply NoDup_cons. split; [|by apply IH]. intros (y & Hy & [_ Hin]%list_elem_of_filter)%list_elem_of_fmap. apply Hx. rewrite Hy. by apply list_elem_of_fmap_2.
Qed.
Lemma groups_positions e vm copies (groups : list (Z * Z * list Z)) :
  NoDup (fst <$> groups) -> (forall k idx, (k, idx) ∈ groups <-> idx <> [] /\ idx = positions e vm k 0 copies) ->
  concat ((fun g : Z * Z * list Z => (fun i => (g.1, i)) <$> g.2) <$> groups) ≡ₚ (fun p => (ranks_of e vm p.2, p.1)) <$> indexed copies.
Proof.
  intros Hnd Hg. apply NoDup_Permutation.
  - assert (Hin : forall k idx, (k, idx) ∈ groups -> NoDup idx).
    { intros k idx [_ ->]%Hg. apply NoDup_fst_filter, indexed_NoDup. }
    clear Hg. induction groups as [|[k idx] groups IH]; [constructor|]. apply NoDup_cons in Hnd as [Hk Hnd]. rewrite fmap_cons. cbn [concat].
    apply NoDup_app. split_and!.
    + apply NoDup_fmap_2; [by intros ? ? [= ->]|]. apply (Hin k). by left.
    + intros [k' i] (? & [= -> ->] & _)%list_elem_of_fmap. cbn. rewrite list_elem_of_In, in_concat. intros (l & Hl & Hx). apply Hk.
      apply list_elem_of_In, list_elem_of_fmap in Hl as ([k' idx'] & -> & Hgr). apply list_elem_of_In, list_elem_of_fmap in Hx as (? & [= -> ->] & _).
      apply list_elem_of_fmap. by exists (k', idx').
    + apply IH; [done|]. intros k' idx' H. apply (Hin k'). by right.
  - apply (NoDup_fmap_1 snd). rewrite <- list_fmap_compose. apply (indexed_NoDup copies).
  - intros [k i]. rewrite list_elem_of_In, in_concat. split.
    + intros (l & Hl & Hx). apply list_elem_of_In, list_elem_of_fmap in Hl as ([k' idx'] & -> & [_ ->]%Hg).
      apply list_elem_of_In, list_elem_of_fmap in Hx as (? & [= -> ->] & Hx). cbn [snd fst] in *. unfold positions in Hx.
      apply list_elem_of_fmap in Hx as (p & -> & [Hr Hp]%list_elem_of_filter). apply list_elem_of_fmap. exists p. split; [|done]. unfold ranks_of. by rewrite Hr.
    + intros (p & [= -> ->] & Hp)%list_elem_of_fmap. set (idx := positions e vm (ranks_of e vm p.2) 0 copies).
      assert (Hi : p.1 ∈ idx). { apply list_elem_of_fmap. exists p. split; [done|]. by apply list_elem_of_filter. }
      eexists. split; apply list_elem_of_In; [apply (list_elem_of_fmap_2 _ _ (ranks_of e vm p.2, idx)), Hg|by apply (list_elem_of_fmap_2 (fun i => (ranks_of e vm p.2, i)))].
      split; [|done]. intros E. by rewrite E, elem_of_nil in Hi.
Qed.
Lemma groups_cover e vm copies (groups : list (Z * Z * list Z)) :
  NoDup (fst <$> groups) -> (forall k idx, (k, idx) ∈ groups <-> idx <> [] /\ idx = positions e vm k 0 copies) ->
  concat ((fun g : Z * Z * list Z => (fun x => (g.1, x)) <$> copies_at copies g.2) <$> groups) ≡ₚ (fun x => (ranks_of e vm x, x)) <$> copies.
Proof.
  intros Hnd Hg. set (look := fun ki : Z * Z * Z => (ki.1, copies !!! Z.to_nat ki.2)).
  replace (concat _) with (look <$> concat ((fun g : Z * Z * list Z => (fun i => (g.1, i)) <$> g.2) <$> groups)).
  - rewrite (groups_positions e vm copies groups Hnd Hg), <- list_fmap_compose.
    replace ((fun x => (ranks_of e vm x, x)) <$> copies) with ((fun p : Z * (Z * Z * Z) => (ranks_of e vm p.2, p.2)) <$> indexed copies).
    + apply Permutation_refl'. apply list_fmap_ext. intros n [i x] Hn. unfold look, compose. cbn [fst snd]. f_equal. apply indexed_lookup. by eapply list_elem_of_lookup_2.
    + rewrite <- (snd_zip (seqZ 0 (Z.of_nat (length copies))) copies) at 2 by (rewrite length_indices; lia). by rewrite <- list_fmap_compose.
  - clear Hnd Hg. induction groups as [|g groups IH]; [done|]. rewrite !fmap_cons. cbn [concat]. rewrite fmap_app, IH. f_equal.
    unfold copies_at. by rewrite <- !list_fmap_compose.
Qed.

(** C17. A batch of copies goes from the entity through the composed operator without loss.  The
    entity sorts the batch into groups by the ranks of the addresses and hands them to its
    operator.  Whenever the composed operator then answers with success, either one call of
    the SDMA operator carried the whole batch, and SDMA is allowed between the ranks of every
    copy, or the groups went one by one to the operator preferred for their ranks, every call
    succeeded, and together they carried each copy exactly once, between its own ranks. *)
Theorem batch_copies_each_once (e : Entity SH SD) w copies direction :
  initialized_ e = true -> dataOperator_ e = true ->
  let '(r, ew) := BatchCopyData copies direction (e, w) in
  r = BM_ERROR \/
  exists groups a, r = ret a /\ last (w_log ew.2) = Some (BatchDataCopy direction groups, a) /\
  forall tags c w0, let '(r', (c', w1)) := op_BatchDataCopy tags copies direction groups (c, w0) in
    r' = BM_OK ->
    exists l, w_log w1 = w_log w0 ++ l /\
      ((exists b, l = [(Via SdmaOperator (MixedCopy direction copies), b)] /\ ret b = BM_OK /\ sdmaDataOperator_ c = true /\
          forall x, x ∈ copies -> has (GetRank2RankOpType (ranks_of e (w_vm w) x).1 (ranks_of e (w_vm w) x).2 tags) HYBM_DOP_TYPE_SDMA = true) \/
       (Forall (preferred tags c direction) l /\ concat (moved <$> l) ≡ₚ (fun x => (ranks_of e (w_vm w) x, x)) <$> copies)).
Proof.
  intros Hi Ho. pose proof (entity_batch_groups e w copies direction Hi Ho) as H. destruct (BatchCopyData copies direction (e, w)) as [r ew].
  destruct H as [H|(groups & a & Hr & Hl & Hnd & Hg)]; [by left|]. right. exists groups, a. split_and!; [done..|]. intros tags c w0.
  pose proof (groups_cover e (w_vm w) copies groups Hnd Hg) as Hcover.
  unfold op_BatchDataCopy, mbind at 1, SM_bind at 1, gets at 1. cbn [fst]. destruct (AllSupportSdma tags groups c) eqn:Es.
  - unfold mbind, SM_bind, sys, mret, SM_ret. cbn [fst snd w_log]. intros Hok. eexists. split; [done|]. left. eexists. split_and!; [done..| |].
    + by apply andb_true_iff in Es as [? _].
    + apply andb_true_iff in Es as [_ Es]. intros x Hx.
      assert (Hin : (ranks_of e (w_vm w) x, x) ∈ (fun x => (ranks_of e (w_vm w) x, x)) <$> copies) by (apply list_elem_of_fmap; eauto).
      rewrite <- Hcover, list_elem_of_In, in_concat in Hin. destruct Hin as (l & Hgl & Hx'). apply list_elem_of_In, list_elem_of_fmap in Hgl as (g & -> & Hgr).
      apply list_elem_of_In, list_elem_of_fmap in Hx' as (? & [= E1 E2] & _). rewrite forallb_forall in Es. rewrite E1. apply Es. by apply list_elem_of_In.
  - pose proof (copy_groups_moved tags copies direction groups c w0) as Hm. destruct (copy_groups _ _ _ _ _) as [r' [c' w1]].
    destruct Hm as (l & Hlog & H). intros Hok. destruct (H Hok) as [H1 H2]. exists l. split; [done|]. right. split; [done|]. by rewrite H2.
Qed.
End batch.
#[local] Abbreviation demo_tag := (lit "default").
Definition demo_tags (types : Z) : HybmEntityTagInfo := mkTags {[0 := demo_tag; 1 := demo_tag]} {[tag_key demo_tag demo_tag := types]}.
Definition demo_groups : list (Z * Z * list Z) := [(0, 1, [0; 2]); (0, 0, [1])].
Definition demo_operators : ComposeOp := mkOp false false (Some HostRdmaOperator).
Lemma batch_copies_each_once_witness :
  let ew := (import_and_mmap demo_desc (demo_node 0)).2 in
  (BatchCopyData demo_copies 0 ew).1 = BM_OK /\ last (w_log (BatchCopyData demo_copies 0 ew).2.2) = Some (BatchDataCopy 0 demo_groups, mkAns 0 0 []) /\
  (op_BatchDataCopy (demo_tags HYBM_DOP_TYPE_HOST_RDMA) demo_copies 0 demo_groups (demo_operators, ew.2)).1 = BM_OK /\
  let '(r, ew') := BatchCopyData demo_copies 0 ew in
  r = BM_ERROR \/
  exists groups a, r = ret a /\ last (w_log ew'.2) = Some (BatchDataCopy 0 groups, a) /\
  forall tags c w0, let '(r', (c', w1)) := op_BatchDataCopy tags demo_copies 0 groups (c, w0) in
    r' = BM_OK ->
    exists l, w_log w1 = w_log w0 ++ l /\
      ((exists b, l = [(Via SdmaOperator (MixedCopy 0 demo_copies), b)] /\ ret b = BM_OK /\ sdmaDataOperator_ c = true /\
          forall x, x ∈ demo_copies -> has (GetRank2RankOpType (ranks_of ew.1 (w_vm ew.2) x).1 (ranks_of ew.1 (w_vm ew.2) x).2 tags) HYBM_DOP_TYPE_SDMA = true) \/
       (Forall (preferred tags c 0) l /\ concat (moved <$> l) ≡ₚ (fun x => (ranks_of ew.1 (w_vm ew.2) x, x)) <$> demo_copies)).
Proof.
  intros ew. assert (F1 : initialized_ ew.1 = true) by (vm_compute; reflexivity). assert (F2 : dataOperator_ ew.1 = true) by (vm_compute; reflexivity).
  split; [vm_compute; reflexivity|]. split; [vm_compute; reflexivity|]. split; [vm_compute; reflexivity|].
  clearbody ew. destruct ew as [e w]. exact (batch_copies_each_once e w demo_copies 0 F1 F2).
Defined.

(** ** Memory of a composed transport *)
Section transports.
Context {OS : Os}.
(** C19. A composed transport is opened and memory is registered and unregistered, in any order and
    with any answers of its parts.  At every moment the host transport holds exactly the
    regions that are recorded.  The device transport holds none but recorded ones if it never
    refuses to forget one, and exactly those if the host transport, when there is one, never
    fails. *)
Theorem compose_regions_exact rank protocol vm ops :
  let '(_, (t, w)) := each run_mem ops (tr_OpenDevice rank protocol (new_transport, mkWorld vm [])).2 in
  (hostTransportManager_ t = true -> part_regions HostTransport (w_log w) = dom (mrs_ t)) /\
  (deviceTransportManager_ t = true -> unregisters DeviceTransport -> part_regions DeviceTransport (w_log w) ⊆ dom (mrs_ t)) /\
  (deviceTransportManager_ t = true -> (hostTransportManager_ t = true -> registers HostTransport /\ unregisters HostTransport) ->
   part_regions DeviceTransport (w_log w) = dom (mrs_ t)).
Proof.
  pose proof (OpenDevice_fresh rank protocol vm) as H. destruct (tr_OpenDevice rank protocol _) as [r tw]. cbn [snd].
  assert (Hok : regions_ok tw). { destruct tw as [t w]. destruct H as (Em & Er & _). unfold regions_ok. rewrite Em, !Er, dom_empty_L. split_and!; set_solver. }
  pose proof (wp_each run_mem regions_ok ops tw Hok) as Hrun. specialize (Hrun ltac:(intros [addr size flags|addr] tw' _ Hi; cbn [run_mem]; wp_step;
    (eapply swp_mono; [first [by apply Register_regions|by apply Unregister_regions]|]; intros; by wp_step))).
  unfold wp in Hrun. destruct (each run_mem ops tw) as [u [t w]]. exact Hrun.
Qed.

(** No part has a semicolon in its address. *)
Definition nics_plain : Prop := forall l p, free_of NIC_DELIMITER (out_bytes (os_answer l (Via p GetNic))).
(** C18. What a rank tells of its transports reaches the parts of a peer.  A rank opens a composed
    transport and asks for the key of a region; a peer gets its address text and the key.  The
    peer's host transport is then given exactly the address that the rank's host transport
    answered and the first half of the key it answered, and its device transport the address
    of the rank's device transport and a key whose first half is that transport's; each
    happens if the tags of the two ranks allow the transport. *)
Theorem compose_publish_roundtrip rank protocol vm addr key :
  nics_plain -> part_keys_ok -> length key = Z.to_nat KEY_BYTES ->
  let '(r, tw) := tr_OpenDevice rank protocol (new_transport, mkWorld vm []) in
  r = BM_OK ->
  let '((q, k), (t, w)) := tr_QueryMemoryKey addr key tw in
  q = BM_OK ->
  forall tags me role,
  (has protocol HOST_PROTOCOL = true -> has (GetRank2RankOpType rank me tags) HOST_PROTOCOL = true ->
   exists na ka, (Via HostTransport GetNic, na) ∈ w_log w /\ (Via HostTransport (QueryMemoryKey addr), ka) ∈ w_log w /\
     GetHostPrepareOptions tags me [(rank, (nicInfo_ t, role, [k]))] =
     [(rank, (out_bytes na, HYBM_ROLE_PEER, [half (out_bytes ka) ++ replicate (Z.to_nat HALF_KEY) 0]))]) /\
  (has protocol HYBM_DOP_TYPE_DEVICE_RDMA = true -> has (GetRank2RankOpType rank me tags) HYBM_DOP_TYPE_DEVICE_RDMA = true ->
   exists na ka k', (Via DeviceTransport GetNic, na) ∈ w_log w /\ (Via DeviceTransport (QueryMemoryKey addr), ka) ∈ w_log w /\
     GetDevicePrepareOptions tags me [(rank, (nicInfo_ t, role, [k]))] = [(rank, (out_bytes na, HYBM_ROLE_PEER, [k']))] /\ half k' = half (out_bytes ka)).
Proof.
  intros Hnic Hkeys Hlen. pose proof (OpenDevice_fresh rank protocol vm) as H. destruct (tr_OpenDevice rank protocol _) as [r [t w]].
  intros Hr. destruct H as (_ & _ & H). destruct (H Hr) as (lh & ld & _ & Eh & Ed & En & Lh & Ld).
  pose proof (QueryMemoryKey_halves addr key t w Hkeys Hlen) as Hq. destruct (tr_QueryMemoryKey addr key (t, w)) as [[q k] [t' w']].
  destruct Hq as (-> & Hpre & _ & Hh & Hd). intros Hok tags me role. rewrite <- Eh, <- Ed.
  assert (Hlog : forall x, x ∈ w_log w -> x ∈ w_log w') by (intros x Hx; destruct Hpre as [l' ->]; apply elem_of_app; by left). split.
  - intros Ho Ht. destruct (Hh Hok Ho) as (ka & Hka & Ek). eexists _, ka. split; [by apply Hlog, Lh|]. split; [done|].
    unfold GetHostPrepareOptions. cbn [omap list_omap]. rewrite Ht. cbn [negb fmap list_fmap]. rewrite Ek, En, nic_of_host, Ho by apply Hnic. done.
  - intros Ho Ht. destruct (Hd Hok Ho) as (ka & Hka & Ek). eexists _, ka, k. split; [by apply Hlog, Ld|]. split; [done|]. split; [|done].
    unfold GetDevicePrepareOptions. cbn [omap list_omap]. rewrite Ht. cbn [negb fmap list_fmap]. rewrite En, nic_of_device, Ho by apply Hnic. done.
Qed.
End transports.
(** Parts that answer: the SDMA operator fails to copy, the device has no region to forget. *)
Definition demo_parts : Os := {| os_answer := fun _ c =>
  match c with
  | Via HostTransport GetNic => mkAns 0 0 (lit "tcp://10.0.0.1:9000")
  | Via _ GetNic => mkAns 0 0 (lit "10.0.0.2")
  | Via HostTransport (QueryMemoryKey _) => mkAns 0 0 (replicate 224 7)
  | Via _ (QueryMemoryKey _) => mkAns 0 0 (replicate 224 9)
  | Via HostTransport (RegisterMemoryRegion addr _ _) => mkAns (if addr =? 0x3000 then -1 else 0) 0 []
  | Via SdmaOperator (DataCopy _ _ _ _ _ _) => mkAns (-5) 0 []
  | _ => mkAns 0 0 []
  end |}.
Definition both_parts : Z := flags_of [HYBM_DOP_TYPE_HOST_RDMA; HYBM_DOP_TYPE_DEVICE_RDMA].
Definition demo_mem : list mem_op := [RegisterOp 0x1000 64 0; RegisterOp 0x2000 64 0; RegisterOp 0x3000 64 0; UnregisterOp 0x1000].
Lemma compose_regions_exact_witness :
  let '(_, (t, w)) := each (run_mem (OS := demo_parts)) demo_mem (tr_OpenDevice (OS := demo_parts) 1 both_parts (new_transport, mkWorld demo_empty_vm [])).2 in
  (hostTransportManager_ t = true /\ dom (mrs_ t) = {[0x2000]}) /\
  part_regions HostTransport (w_log w) = dom (mrs_ t) /\ part_regions DeviceTransport (w_log w) ⊆ dom (mrs_ t).
Proof.
  pose proof (compose_regions_exact (OS := demo_parts) 1 both_parts demo_empty_vm demo_mem) as H.
  assert (F : let '(_, (t, _)) := each (run_mem (OS := demo_parts)) demo_mem (tr_OpenDevice (OS := demo_parts) 1 both_parts (new_transport, mkWorld demo_empty_vm [])).2 in
    hostTransportManager_ t = true /\ deviceTransportManager_ t = true /\ mrs_ t = {[0x2000 := 64]}) by (vm_compute; tauto).
  destruct (each _ _ _) as [u [t w]]. destruct F as (F1 & F2 & F3), H as (H1 & H2 & _). split; [split; [exact F1|rewrite F3; apply dom_singleton_L]|].
  split; [exact (H1 F1)|]. apply (H2 F2). intros l addr. reflexivity.
Defined.
Lemma compose_publish_roundtrip_witness :
  let '(r, tw) := tr_OpenDevice (OS := demo_parts) 1 both_parts (new_transport, mkWorld demo_empty_vm []) in
  let '((q, k), (t, w)) := tr_QueryMemoryKey (OS := demo_parts) 0x1000 (replicate 224 0) tw in
  r = BM_OK /\ q = BM_OK /\
  exists na ka, (Via HostTransport GetNic, na) ∈ w_log w /\ (Via HostTransport (QueryMemoryKey 0x1000), ka) ∈ w_log w /\
    GetHostPrepareOptions (demo_tags both_parts) 0 [(1, (nicInfo_ t, 0, [k]))] =
    [(1, (out_bytes na, HYBM_ROLE_PEER, [half (out_bytes ka) ++ replicate (Z.to_nat HALF_KEY) 0]))].
Proof.
  assert (F1 : nics_plain (OS := demo_parts)).
  { intros l p. apply Forall_forall. intros c Hc. apply list_elem_of_In in Hc. destruct p; vm_compute in Hc; repeat destruct Hc as [<-|Hc]; try discriminate; destruct Hc. }
  assert (F2 : part_keys_ok (OS := demo_parts)) by (intros l p addr; destruct p; reflexivity).
  assert (F3 : has both_parts HOST_PROTOCOL = true /\ has (GetRank2RankOpType 1 0 (demo_tags both_parts)) HOST_PROTOCOL = true) by (vm_compute; tauto).
  assert (F4 : let '(r, tw) := tr_OpenDevice (OS := demo_parts) 1 both_parts (new_transport, mkWorld demo_empty_vm []) in
    r = BM_OK /\ (tr_QueryMemoryKey (OS := demo_parts) 0x1000 (replicate 224 0) tw).1.1 = BM_OK) by (vm_compute; tauto).
  pose proof (compose_publish_roundtrip (OS := demo_parts) 1 both_parts demo_empty_vm 0x1000 (replicate 224 0) F1 F2 eq_refl) as H.
  destruct (tr_OpenDevice _ _ _) as [r tw]. destruct F4 as [F4 F5]. specialize (H F4). destruct (tr_QueryMemoryKey _ _ _) as [[q k] [t w]].
  specialize (H F5 (demo_tags both_parts) 0 0). split; [exact F4|]. split; [exact F5|]. destruct F3 as [F6 F7]. exact (proj1 H F6 F7).
Defined.

(** ** Choosing an operator *)
Section copies.
Context {OS : Os}.
(** The types of copies an operator is made for. *)
Definition serves (p : part) : list Z :=
  match p with
  | SdmaOperator => [HYBM_DOP_TYPE_SDMA]
  | DevRdmaOperator => [HYBM_DOP_TYPE_DEVICE_RDMA]
  | HostRdmaOperator => [HYBM_DOP_TYPE_HOST_RDMA; HYBM_DOP_TYPE_HOST_URMA; HYBM_DOP_TYPE_HOST_TCP]
  | HostShmOperator => [HYBM_DOP_TYPE_HOST_SHM]
  | HostTransport | DeviceTransport => []
  end.
(** The operator made for a type. *)
Definition made_for (op : Z) : part :=
  if op =? HYBM_DOP_TYPE_SDMA then SdmaOperator else if op =? HYBM_DOP_TYPE_DEVICE_RDMA then DevRdmaOperator else
  if op =? HYBM_DOP_TYPE_HOST_SHM then HostShmOperator else HostRdmaOperator.
Lemma serves_one op p : op ∈ priority -> op ∈ serves p <-> p = made_for op.
Proof.
  intros Hop. unfold priority in Hop.
  repeat (apply elem_of_cons in Hop as [->|Hop]; [destruct p; split; intros H; try done; first [by apply (bool_decide_unpack _) | exfalso; revert H; by apply (bool_decide_unpack _)]|]).
  by apply elem_of_nil in Hop.
Qed.
Lemma operators_in_order tags s d c :
  fst <$> GetPrioritedDataOperators tags s d c `sublist_of`
    [HYBM_DOP_TYPE_SDMA; HYBM_DOP_TYPE_DEVICE_RDMA; HYBM_DOP_TYPE_HOST_RDMA; HYBM_DOP_TYPE_HOST_URMA; HYBM_DOP_TYPE_HOST_TCP; HYBM_DOP_TYPE_HOST_SHM].
Proof.
  unfold GetPrioritedDataOperators. change [_; _; _; _; _; _] with priority. induction priority as [|op l IH]; [done|].
  rewrite fmap_cons. cbn [concat]. rewrite fmap_app.
  assert (H : operator_for (GetRank2RankOpType s d tags) c op = [] \/ exists p, operator_for (GetRank2RankOpType s d tags) c op = [(op, p)])
    by (unfold operator_for; repeat case_match; eauto).
  destruct H as [->|[p ->]]; cbn [fmap list_fmap app fst]; by constructor.
Qed.
(** With the types of the tags among those of the options, and shared memory not mixed with
    the other host types, each type is served by the operator made for it. *)
Lemma operator_of_serves o types op p :
  bits_in types (bmDataOpType o) -> has (bmDataOpType o) HYBM_DOP_TYPE_HOST_SHM && has (bmDataOpType o) host_flags = false ->
  has types op = true -> op ∈ priority -> operator_of o op = Some p <-> op ∈ serves p.
Proof.
  intros Hb Hx Ht Hop.
  assert (Ho : has (bmDataOpType o) op = true).
  { assert (Ha : op ∈ all_ops) by (unfold priority, all_ops in *; set_solver). apply has_bits; [done|]. apply has_bits in Ht; [|done]. by eapply bits_in_trans. }
  assert (Hh : op ∈ serves HostRdmaOperator -> has (bmDataOpType o) host_flags = true).
  { unfold has in *. intros Hin. apply negb_true_iff, Z.eqb_neq. apply negb_true_iff, Z.eqb_neq in Ho. intros E. apply Ho.
    assert (Eo : Z.land host_flags op = op) by (cbn in Hin; repeat (apply elem_of_cons in Hin as [->|Hin]; [done|]); by apply elem_of_nil in Hin).
    rewrite <- Eo, Z.land_assoc, E. done. }
  rewrite serves_one by done. unfold operator_of, made_for. unfold priority in Hop.
  repeat (apply elem_of_cons in Hop as [->|Hop]); [..|by apply elem_of_nil in Hop];
    repeat match goal with |- context [?a =? ?b] => let v := eval vm_compute in (a =? b) in change (a =? b) with v end; cbn iota;
    first [rewrite Ho; naive_solver
          |assert (Hf : has (bmDataOpType o) host_flags = true) by (apply Hh; by apply (bool_decide_unpack _)); rewrite Hf, andb_true_r in Hx; rewrite Hx, Hf; naive_solver].
Qed.

(** C20. After the composed operator was initialised with types that include those the tags allow
    between two ranks, and that do not mix shared memory with other host types, the operators
    tried for a copy between the ranks are exactly the ones made for the allowed types, in
    the order SDMA, device RDMA, host RDMA, URMA, TCP, shared memory.  Each is given the same
    copy until one succeeds; the operators before it failed, and none is called after it.  If
    all fail the answer is that of the last one, and if there are none, the copy is refused
    without a call. *)
Theorem compose_copy_in_order o tags src dest size direction s d w :
  bmType o <> HYBM_TYPE_AI_CORE_INITIATE -> bits_in (GetRank2RankOpType s d tags) (bmDataOpType o) ->
  has (bmDataOpType o) HYBM_DOP_TYPE_HOST_SHM && has (bmDataOpType o) host_flags = false ->
  let '(r0, (c, w0)) := op_Initialize o (no_operators, w) in
  r0 = BM_OK ->
  let copy := DataCopy src dest size direction s d in
  let ops := GetPrioritedDataOperators tags s d c in
  fst <$> ops `sublist_of`
    [HYBM_DOP_TYPE_SDMA; HYBM_DOP_TYPE_DEVICE_RDMA; HYBM_DOP_TYPE_HOST_RDMA; HYBM_DOP_TYPE_HOST_URMA; HYBM_DOP_TYPE_HOST_TCP; HYBM_DOP_TYPE_HOST_SHM] /\
  (forall op p, (op, p) ∈ ops <-> has (GetRank2RankOpType s d tags) op = true /\ op ∈ serves p) /\
  let '(r, (c', w1)) := op_DataCopy tags src dest size direction s d (c, w0) in
  c' = c /\
  ((ops = [] /\ r = BM_INVALID_PARAM /\ w1 = w0) \/
   (exists tried x rest fails a, ops = tried ++ x :: rest /\ length fails = length tried /\ Forall failed fails /\ ret a = BM_OK /\ r = BM_OK /\
      w_log w1 = w_log w0 ++ asked copy tried fails ++ [(Via x.2 copy, a)]) \/
   (ops <> [] /\ exists fails, length fails = length ops /\ Forall failed fails /\ w_log w1 = w_log w0 ++ asked copy ops fails /\
      last (ret <$> fails) = Some r)).
Proof.
  intros Ht Hb Hx. pose proof (Initialize_operators o w Ht) as Hi. unfold wp in Hi. destruct (op_Initialize o _) as [r0 [c w0]]. intros Hr copy ops.
  destruct (Hi Hr) as (E1 & E2 & E3). cbn [fst] in *. split; [apply operators_in_order|]. split.
  { intros op p. unfold ops. rewrite (operators_for tags s d o c op p) by done. split.
    - intros (Hop & Hh & Eo). split; [done|]. by apply (operator_of_serves o (GetRank2RankOpType s d tags)).
    - intros (Hh & Hs). assert (Hop : op ∈ priority) by (destruct p; cbn in Hs; unfold priority; set_solver).
      split_and!; [done..|]. by apply (operator_of_serves o (GetRank2RankOpType s d tags)). }
  unfold op_DataCopy, mbind, SM_bind, gets. cbn [fst]. fold ops copy. clearbody ops.
  destruct (decide (ops = [])) as [->|Hne]; [split; [done|]; by left|]. replace (match ops with [] => _ | _ :: _ => _ end) with (try_operators copy ops BM_ERROR : OM Z) by (by destruct ops).
  pose proof (try_operators_spec copy ops BM_ERROR c w0) as H. destruct (try_operators copy ops BM_ERROR (c, w0)) as [r [c' w1]].
  destruct H as (-> & _ & [H|(fails & L & F & Hl & ->)]); (split; [done|]); [by auto|]. right; right. split; [done|]. exists fails. split_and!; [done..|].
  destruct fails as [|b fails]; [by destruct ops|]. rewrite fmap_cons. destruct (last (ret b :: _)) eqn:El; [done|]. by apply last_None in El.
Qed.
End copies.
Definition demo_sdma_options : hybm_options :=
  mkOptions 1 HYBM_MEM_TYPE_HOST (flags_of [HYBM_DOP_TYPE_SDMA; HYBM_DOP_TYPE_HOST_RDMA]) 2 0 0 demo_size 0 demo_size 1 false 0 0 [] [] [] (-1).
Definition all_allowed : Z := flags_of [HYBM_DOP_TYPE_SDMA; HYBM_DOP_TYPE_HOST_RDMA].
Lemma compose_copy_in_order_witness :
  let '(r0, (c, w0)) := op_Initialize (OS := demo_parts) demo_sdma_options (no_operators, mkWorld demo_empty_vm []) in
  let ops := GetPrioritedDataOperators (demo_tags all_allowed) 0 1 c in
  r0 = BM_OK /\ ops = [(HYBM_DOP_TYPE_SDMA, SdmaOperator); (HYBM_DOP_TYPE_HOST_RDMA, HostRdmaOperator)] /\
  let '(r, (_, w1)) := op_DataCopy (OS := demo_parts) (demo_tags all_allowed) 16 32 8 0 0 1 (c, w0) in
  r = BM_OK /\ exists tried x rest fails a, ops = tried ++ x :: rest /\ length fails = length tried /\ Forall failed fails /\ ret a = BM_OK /\
    w_log w1 = w_log w0 ++ asked (DataCopy 16 32 8 0 0 1) tried fails ++ [(Via x.2 (DataCopy 16 32 8 0 0 1), a)].
Proof.
  pose proof (compose_copy_in_order (OS := demo_parts) demo_sdma_options (demo_tags all_allowed) 16 32 8 0 0 1 (mkWorld demo_empty_vm [])
    ltac:(vm_compute; discriminate) ltac:(vm_compute; reflexivity) ltac:(vm_compute; reflexivity)) as H.
  assert (F : let '(r0, (c, w0)) := op_Initialize (OS := demo_parts) demo_sdma_options (no_operators, mkWorld demo_empty_vm []) in
    r0 = BM_OK /\ GetPrioritedDataOperators (demo_tags all_allowed) 0 1 c = [(HYBM_DOP_TYPE_SDMA, SdmaOperator); (HYBM_DOP_TYPE_HOST_RDMA, HostRdmaOperator)] /\
    (op_DataCopy (OS := demo_parts) (demo_tags all_allowed) 16 32 8 0 0 1 (c, w0)).1 = BM_OK) by (vm_compute; tauto).
  destruct (op_Initialize _ _) as [r0 [c w0]]. destruct F as (F1 & F2 & F3). destruct (H F1) as (_ & _ & H2). intros ops.
  change (GetPrioritedDataOperators (demo_tags all_allowed) 0 1 c) with ops in H2, F2. clearbody ops.
  destruct (op_DataCopy _ _ _ _ _ _ _ _) as [r [c' w1]]. cbn [fst] in F3. split; [exact F1|]. split; [exact F2|]. split; [exact F3|].
  destruct H2 as [_ [(E & _)|[(tried & x & rest & fails & a & H3)|(_ & fails & _ & Hf & _ & Hl)]]].
  - rewrite F2 in E. discriminate.
  - exists tried, x, rest, fails, a. tauto.
  - exfalso. subst r. apply last_Some_elem_of, list_elem_of_fmap in Hl. destruct Hl as (b & Eb & Hb). rewrite Forall_forall in Hf. exact (Hf b Hb (eq_sym Eb)).
Defined.
(** The case left out: with shared memory and host RDMA among the types, the operator over
    shared memory takes the place of the RDMA operator, which stays initialised, and gets the
    copies between ranks whose tags allow host RDMA only. *)
Definition demo_mixed_options : hybm_options :=
  mkOptions 1 HYBM_MEM_TYPE_HOST (flags_of [HYBM_DOP_TYPE_HOST_RDMA; HYBM_DOP_TYPE_HOST_SHM]) 2 0 0 demo_size 0 demo_size 1 false 0 0 [] [] [] (-1).
Theorem shm_operator_replaces_rdma :
  let '(r, (c, w)) := op_Initialize (OS := demo_parts) demo_mixed_options (no_operators, mkWorld demo_empty_vm []) in
  r = BM_OK /\ w_log w = [(Via HostRdmaOperator DataOpInitialize, mkAns 0 0 []); (Via HostShmOperator DataOpInitialize, mkAns 0 0 [])] /\
  GetPrioritedDataOperators (demo_tags HYBM_DOP_TYPE_HOST_RDMA) 0 1 c = [(HYBM_DOP_TYPE_HOST_RDMA, HostShmOperator)].
Proof. vm_compute. tauto. Qed.
